(* ===== verification/_CoqProject ===== *)
-Q . S2P
Prelude.v
NumberTheory.v
Field.v
FixedPoint.v
Random.v
TripleHandler.v
Share.v
SharePF.v
Compare.v
CompareCorrect.v
CompareMain.v
Mailbox.v
Rounds.v
RoundsDivision.v
RoundsVector.v
RoundsRealises.v
RoundsCompare.v
ShareFP.v
Double.v
FixedCompare.v
FixedCompareCorrect.v
RoundsFixed.v
FixedWhole.v
FixedInverse.v
Sized.v
Json.v
SID3.v
SID3Correct.v
RoundsTrees.v
Columns.v
SID3Jobs.v
MathFunctions.v
Regression.v
Optimizers.v
CrossEntropy.v
NormalEquations.v
TransactionQueue.v
RemoteCall.v
Jobs.v
Clients.v
Models.v
ValueTable.v
DbGate.v
Deployment.v
RoundsRegression.v
RoundsFunctions.v
RoundsStatistics.v
Computation.v
Config.v
