(* ===== verification/Prelude.v ===== *)
(** * QuickMPC: a verification of the computation container

    QuickMPC computes statistics on secret-shared tables.  Three or so parties
    each run the C++ program of src/ComputationContainer; a value is the sum of
    the local values ("shares") of the parties, operations on shared values are
    protocols in which all parties run the same code, and one of them, the
    special party ([sp_id]), does the steps that must happen once.  All paths
    below are relative to src/ComputationContainer.

    ** The parts and how they interact

    A request arrives at the special party (Server/ManageToComputationContainer)
    and is queued (TransactionQueue); the job manager (Job/JobManager.hpp) gives
    it an id and starts it at every party through an RPC.  A job
    (Job/JobBase.hpp) reports its state to the database gateway, reads and joins
    the tables it needs (Client/ComputationToDbGate, Client/AnyToDb), computes on
    shares and writes its result.  Computing on shares goes through
    Share/Share.hpp: local operators, [open] and [recons] over the message
    exchange (Share/Networking.hpp, Client/ and
    Server/ComputationToComputationContainer), Beaver multiplication with triples
    from the triple service (TripleHandler), and random numbers (Random).  Shares
    carry fixed-point numbers (FixedPoint) or elements of the field of order
    [2^64 - 59] (PrimeField); the bit-wise comparison protocols of
    Share/Compare.cpp run over the field.

    ** The files

    - [Prelude]: errors ([exn], [result]), loops that can fail ([traverse]),
      integer sums, the tactics and hint databases the others use.
    - [NumberTheory]: facts about integers only (Fermat, square roots of one,
      Pocklington's criterion for the primality of [p]).
    - [Field]: PrimeField/PrimeField.hpp.  Each operator twice, once with the
      range checks of [checked_uint128_t] and once total; the square root and
      the Legendre symbol as the loops of the code.
    - [FixedPoint]: FixedPoint/FixedPoint.hpp and MathLib.cpp.
    - [Random]: Random/Csprng.cpp and Random/Random.cpp.
    - [TripleHandler]: TripleHandler/TripleHandler.hpp.
    - [Share]: Share/Share.hpp and the joint reading of Share/Networking.hpp.  A
      sharing is the list of all parties' local values; a protocol is a function
      in the monad [M], whose state counts what the parties have drawn.  The
      class [ShareValue] is what [Share<SV>] needs of [SV], the class [Env] the
      configuration with the sources of randomness and triples.
    - [SharePF]: the instance for the field, and the laws of every operation
      over it ([Shares x v]: the local values [x] share [v]).
    - [Compare], [CompareCorrect], [CompareMain]: Share/Compare.hpp and
      Share/Compare.cpp, protocol by protocol, their lemmas, their theorems.
    - [Mailbox]: addresses, messages, the mailbox of the server, and the
      interleaving of all parties' sends and reads as a step relation.
    - [Rounds], [RoundsDivision], [RoundsVector]: protocols as one program per
      party that sends, waits and goes on ([prog]), and the interleaving of all
      parties' programs; [open] with [recons], [operator*=] (also of vectors),
      [sharize], [getInv] and [operator/=] as such programs.
    - [RoundsRealises]: the monad of such programs ([AtParty]) and the relation
      [realises] between a joint protocol and the programs of its parties, with
      one rule per construct.  [RoundsCompare]: the program of every protocol of
      Share/Compare.cpp on field shares, named as in [Compare] with the prefix
      [l_], and the proof that it realises the protocol; [RoundsFixed]: the same
      for the random bit, [LTZ], [getFloor] and [operator<] on fixed-point shares;
      [RoundsTrees]: the same for quotients of fixed-point shares and for training
      a decision tree and predicting with it, named as in [SID3];
      [RoundsRegression]: the same for regression trees; [RoundsFunctions]: for
      the product, opening and inverse of share matrices and [open_sigmoid].
    - [ShareFP]: the instance for fixed-point numbers with its error bounds;
      Math/Math.cpp (sum, mean, variance), Job/Jobs/MathJob.hpp,
      Share/Matrix.cpp.
    - [Double], [FixedCompare], [FixedCompareCorrect]: binary64 with round to
      nearest; the conversions of FixedPoint.hpp from and to double; the
      comparisons, floor, remainder and square root of Share/Compare.cpp, and
      their theorems.
    - [FixedWhole], [FixedInverse], [Sized]: what products of whole numbers and
      quotients of shares give, and products whose local values are sized by
      their secrets.
    - [Json], [SID3], [SID3Correct]: GBDT/SID3.cpp.  [Columns], [SID3Jobs]:
      Job/Jobs/SID3Job.hpp and Model/Models/SID3Model.hpp.
    - [MathFunctions]: the exponential, sigmoid, deviation and correlation of
      Math/Math.cpp; Job/Jobs/CorrelJob.hpp and MeshCodeJob.hpp.
    - [Regression]: GBDT/SID3Regression.cpp and GBDT/SGBM.hpp.
    - [Optimizers]: Optimizer/ and the interface of ObjectiveFunction/, which is
      a class; [CrossEntropy] is its instance and holds
      Job/Jobs/LogisticRegressionJob.hpp; [NormalEquations] the inverse of
      Share/Matrix.cpp and Job/Jobs/LinearRegressionJob.hpp.
    - [TransactionQueue]: TransactionQueue/TransactionQueue.hpp.
    - [RemoteCall]: what can become of a remote call (answered, answer lost, not
      delivered) and the loop that repeats a call until it sees OK.
    - [Jobs]: Job/JobStatus.hpp, JobBase.hpp, JobSelector.hpp, JobManager.hpp
      with the two server handlers that call it; the calls that start a job are
      steps of the manager, repeated as in [RemoteCall].
    - [Clients]: Client/ComputationToBts, Client/ComputationToComputationContainerForJob
      and the one-value part of Client/ComputationToComputationContainer: what
      repeated and failed calls do.
    - [Models]: Model/ModelBase.hpp, ModelManager.hpp, the models of
      Model/Models/ and the handler of predictions.
    - [ValueTable]: Client/ComputationToDbGate/ValueTable.cpp, with the order
      [LessFloat] at its tolerance and, for [hjoinShare], the comparison protocols
      of [FixedCompare]; the column removal of Job/Jobs/JoinTableJob.hpp.
    - [DbGate]: Client/AnyToDb/N1QL.cpp, Client/AnyToDb/Client.cpp and
      Client/ComputationToDbGate/Client.cpp.
    - [Deployment]: a job at all parties together, from the strings of the tables
      to the strings of the results; the compute of Job/Jobs/JoinTableJob.hpp.
    - [RoundsStatistics]: the statistics of Math/Math.cpp and the compute of
      Job/Jobs/MathJob.hpp as programs in the sense of [Rounds].
    - [Computation]: Computation/Computation.cpp, which no handler calls any more.
    - [Config]: ConfigParse/ConfigParse.hpp.

    ** What the theorems show

    - Comparison protocols: each gate and test shares the truth value it is named
      after, for every sharing of every secret, relative to named positions of
      the parties' random numbers (the blinding sums must not be zero, the random
      bit vector must be below [p], which the code does not check); these
      are the theorems of [RoundsCompare], over the network.
      [intervalTest] is wrong at two masked values; the theorem says which.
    - Shares of field elements: local operators, multiplication, inverse,
      [sharize]; every party reconstructs the same element.  The triples of the
      field are constants, so every party can compute both operands from what the
      program of a multiplication sends it ([Rounds]).
    - Shares of fixed-point numbers: a multiplication is exact up to one unit in
      the last place for any number of parties; bounds for the mean, the
      variance and matrix products follow.
    - Comparisons and floor of fixed-point shares: they decide as the numbers
      compare outside an interval of a few units around equality, whose width
      the theorems give.
    - Trees: training terminates and its tree has the exact counts (and, for the
      regression tree, the means up to one unit per party) of the rows that
      reach each node; prediction opens to the value at the end of the row's
      path; the tree survives its JSON; the columns' names give back the sizes
      of the attributes, training cuts the table into the columns of each
      attribute and class, and prediction reads new rows the same way.  Over the network each party ends with its part of the
      one tree, and with its share of the one prediction.
    - Regression: descent of the optimizer for any objective that keeps the
      interface's promise, the gradient of the cross entropy as one that does,
      the inverse of a matrix by blinding, the predictions of the models.
    - The exchange: splitting into messages loses nothing, and every finished
      run of the concurrent exchange, retries included, gives each party what the
      joint [recons_vec_at] gives; such a run always exists.
    - Protocols of many rounds: if the programs of the parties run in lockstep
      along a trace that uses no address twice, then every interleaving, with
      parties rounds apart, ends in the lockstep's results and none is stuck
      ([rounds_refine_lockstep]).  Multiplication and division of field shares
      and the whole statistics job on fixed-point shares are proved to be such
      programs, with the results of the joint [s_mul], [s_div] and [math_job];
      this is what justifies that the other files compute on the values of all
      parties at once.  The comparison, equality and interval tests on field
      shares, [operator<], [getFloor] and quotients of fixed-point shares, products
      and inverses of matrices, [open_sigmoid], and the training of decision and
      regression trees and their predictions, many rounds each with all the
      sub-protocols, are proved by composition: each program
      realises its joint protocol ([realises_*], for fixed-point shares within
      the bounds of the joint theorems), and programs that realise a protocol
      compute its result in every interleaving ([realised_runs]).
    - Jobs: the ids in circulation are 1 to 5 and one more for every lost answer of
      the triggering party, so they are exclusive there as long as none is lost,
      and only so long; all parties start the same jobs in the same order; an id
      can be reused while another party still runs the job; a job registers, reports its states in order and ends in every error case
      with the state it reached.  A start request that is answered with an error
      is sent until it succeeds, so a party starts a job at least once, and more
      than once when an answer is lost.
    - Jobs at all parties: for a mean, variance or sum job over any table, every
      party completes and writes strings that add up to the statistic of the
      secrets, within the stated error; the tables that a join job stores are
      shares of the joined table without its id columns.
    - The triple service: what a party gets over the client, with its retries, is
      what the handler of [TripleHandler] assumes, or the exception it throws.
    - Tables and gateway: [hjoin] is the inner join and [vjoin] the union on the
      reconstructed ids, row for row, when the tolerance of their order is
      transitive on the ids, and undefined otherwise; [hjoinShare], which opens no
      id, gives the same table on ids that are apart; answers and tables are reassembled whatever the order of arrival, document
      keys are distinct, escaped parameters keep queries apart.
    - Arithmetic, randomness, queue and url parsing: exactness, ranges,
      first-in first-out order, termination and the errors.

    ** Bounds and fuel

    [modpow] runs on 128 turns (its exponents are 128-bit), [mypow] on 64;
    [modsqrt] is proved to end within the turns its definition allows on squares
    and to throw on the others.  [subRBS] repeats until a draw is not zero: its
    fuel counts the draws, and the theorems need one draw that is not zero at the
    position they name.  [getCas] waits for the clock: its theorem says how far
    the clock must get within the fuel.  [executeQuery] takes one unit per call.
    The fixed-point theorems carry the size [B] of the local values, because the
    decimal strings they travel as are exact below [wire = 10^36] only.
    [createTree] takes a unit per level and needs one more than attributes;
    [open_sigmoid] takes one per attempt, and one is enough.  The theorems of
    [RoundsCompare] and of the files on fixed-point programs ([RoundsFixed],
    [RoundsTrees], [RoundsRegression], [RoundsFunctions]) take any assignment of
    addresses to the shares in the order in which they are sent, as long as the addresses of the
    run differ and nothing is filed under them; the number of shares is that of
    the joint run.  [readTriples] and the repeated start of a job take one per
    call; the theorems say what happens for every sequence of answers, and that
    the call ends when one is a success.

    ** Parameters

    The byte sources of the random generator, the triple service, the decimal
    type [cpp_dec_float<50>] ([DecFloat], with its laws [DecLaws]), decimal
    printing and reading of integers ([IntegerIO]), the conversion of large
    integers to double ([CppInt]), [std::exp] ([CppExp]), the decimal type with
    100 digits ([Dec100]), reading and printing of doubles ([DoubleText]), the
    JSON library ([JsonLib]), [std::shuffle] ([Shuffle]), the inverse of Eigen's
    LU module ([EigenInverse]), the remote calls and their deliveries, the way an
    exception reaches the handlers of a job ([raise_of]), the clock and the
    process environment.  The laws assumed of them are classes next to them; each has a
    concrete instance, which the witnesses use.

    ** Not modelled

    gRPC servers' start-up and channel options, logging (an exception is the
    value it throws), the process' main function: input and output without logic
    of their own.  The services written in other
    languages. *)
From stdpp Require Import base list numbers sets strings.
From Stdlib Require Import ZArith Lia.

Declare Scope qmpc_scope.
Delimit Scope qmpc_scope with qmpc.

(** ** Errors

    One constructor per way the C++ code leaves a function without a value. *)

Inductive exn : Type :=
  | RuntimeError (what : string)     (** [throw_with_trace(std::runtime_error(what))] *)
  | LogicError (what : string)       (** [std::logic_error] *)
  | OutOfRange (what : string)       (** [std::out_of_range] *)
  | InvalidArgument (what : string)  (** [std::invalid_argument] *)
  | JsonError (what : string)        (** an exception of the JSON library *)
  | RangeError                       (** a checked integer left its range *)
  | OverflowError                    (** a multiprecision division by zero *)
  | Undefined (what : string)        (** undefined behaviour: [x % 0], a bad index, ... *)
  | ExitFailure                      (** [std::exit(EXIT_FAILURE)] *)
  | OutOfFuel.                       (** the loop bound of the model was reached *)

Inductive result (A : Type) : Type :=
  | Ok (a : A)
  | Throw (e : exn).
Arguments Ok {A} a.
Arguments Throw {A} e.

Definition rbind {A B} (m : result A) (f : A → result B) : result B :=
  match m with Ok a => f a | Throw e => Throw e end.

Definition rmap {A B} (f : A → B) (m : result A) : result B :=
  rbind m (λ a, Ok (f a)).

Notation "'let!' x ':=' m 'in' k" := (rbind m (λ x, k))
  (at level 10, x binder, m at level 100, k at level 200)
  : qmpc_scope.

(** Running a fallible function over a list, left to right; the first error
    stops the loop, as an exception leaves a C++ loop. *)
Fixpoint traverse {A B} (f : A → result B) (l : list A) : result (list B) :=
  match l with
  | [] => Ok []
  | x :: l => rbind (f x) (λ y, rbind (traverse f l) (λ ys, Ok (y :: ys)))
  end.

Definition is_ok {A} (m : result A) : bool :=
  match m with Ok _ => true | Throw _ => false end.

#[export] Instance exn_eq_dec : EqDecision exn.
Proof. solve_decision. Defined.
#[export] Instance result_eq_dec `{EqDecision A} : EqDecision (result A).
Proof. solve_decision. Defined.

(** [std::vector::operator[]] and the bounds the code trusts: reading outside
    of the vector is undefined behaviour. *)
Definition vec_at {A} (l : list A) (i : Z) : result A :=
  if (i <? 0)%Z then Throw (Undefined "vector index")
  else match l !! Z.to_nat i with
       | Some x => Ok x
       | None => Throw (Undefined "vector index")
       end.

(** ** Integer sums *)

Definition Zsum (l : list Z) : Z := foldr Z.add 0%Z l.
Arguments Zsum : simpl never.

(** * Lemmas *)

Create HintDb qmpc discriminated.
Create Rewrite HintDb qmpc_sum.

Lemma rbind_ok {A B} (a : A) (f : A → result B) : rbind (Ok a) f = f a.
Proof. reflexivity. Qed.

Lemma rbind_Ok_inv {A B} (m : result A) (f : A → result B) b :
  rbind m f = Ok b → ∃ a, m = Ok a ∧ f a = Ok b.
Proof. destruct m; simpl; [eauto | discriminate]. Qed.

Lemma rbind_assoc {A B C} (m : result A) (f : A → result B) (g : B → result C) :
  rbind (rbind m f) g = rbind m (λ a, rbind (f a) g).
Proof. destruct m; reflexivity. Qed.

Lemma traverse_map {A B} (f : A → result B) (g : A → B) (l : list A) :
  (∀ x, x ∈ l → f x = Ok (g x)) → traverse f l = Ok (map g l).
Proof.
  induction l as [|x l IH]; intros Hf; [reflexivity|].
  simpl. rewrite (Hf x) by set_solver. simpl.
  rewrite IH by (intros; apply Hf; set_solver). reflexivity.
Qed.

Lemma traverse_app {A B} (f : A → result B) (l k : list A) :
  traverse f (l ++ k)
  = rbind (traverse f l) (λ xs, rbind (traverse f k) (λ ys, Ok (xs ++ ys))).
Proof.
  induction l as [|x l IH]; simpl.
  - by destruct (traverse f k).
  - rewrite IH. destruct (f x); simpl; [|done].
    destruct (traverse f l); simpl; [|done]. by destruct (traverse f k).
Qed.

Lemma traverse_length {A B} (f : A → result B) (l : list A) ys :
  traverse f l = Ok ys → length ys = length l.
Proof.
  revert ys; induction l as [|x l IH]; intros ys; simpl.
  - by intros [= <-].
  - intros (y & _ & (zs & Hzs & [= <-])%rbind_Ok_inv)%rbind_Ok_inv.
    simpl. by rewrite (IH _ Hzs).
Qed.

Lemma traverse_lookup {A B} (f : A → result B) l k i x :
  traverse f l = Ok k → l !! i = Some x → ∃ y, k !! i = Some y ∧ f x = Ok y.
Proof.
  revert k i; induction l as [|z l IH]; intros k i H Hi; [done|]. cbn [traverse] in H.
  apply rbind_Ok_inv in H as (y & Hy & H). apply rbind_Ok_inv in H as (ys & Hys & [= <-]).
  destruct i as [|i]; [injection Hi as ->; by eauto|]. by apply (IH ys i).
Qed.

Lemma Forall2_concat_map {A B C} (R : B → C → Prop) (f : A → list B) (g : A → list C) l :
  (∀ x, x ∈ l → Forall2 R (f x) (g x)) → Forall2 R (concat (map f l)) (concat (map g l)).
Proof.
  induction l as [|x l IH]; intros H; cbn; [constructor|].
  apply Forall2_app; [|apply IH; intros]; apply H; set_solver.
Qed.

Lemma vec_at_lookup {A} (l : list A) (i : nat) x :
  l !! i = Some x → vec_at l (Z.of_nat i) = Ok x.
Proof.
  intros H. unfold vec_at.
  destruct (Z.ltb_spec (Z.of_nat i) 0); [lia|]. by rewrite Nat2Z.id, H.
Qed.

Lemma Zsum_nil : Zsum [] = 0%Z.
Proof. reflexivity. Qed.

Lemma Zsum_cons x l : Zsum (x :: l) = (x + Zsum l)%Z.
Proof. reflexivity. Qed.

Lemma Zsum_app l k : Zsum (l ++ k) = (Zsum l + Zsum k)%Z.
Proof. induction l; simpl; rewrite ?Zsum_cons, ?Zsum_nil, ?IHl; lia. Qed.

Lemma Zsum_singleton x : Zsum [x] = x.
Proof. unfold Zsum; simpl; lia. Qed.

Lemma Zsum_replicate n x : Zsum (replicate n x) = (Z.of_nat n * x)%Z.
Proof. induction n; [done|]. rewrite replicate_S, Zsum_cons, IHn. lia. Qed.

Lemma Zsum_const {A} (l : list A) c : Zsum (map (λ _, c) l) = (Z.of_nat (length l) * c)%Z.
Proof. induction l; [done|]. simpl. rewrite Zsum_cons, IHl. lia. Qed.

Lemma Zsum_map_add {A} (f g : A → Z) l :
  Zsum (map (λ x, f x + g x)%Z l) = (Zsum (map f l) + Zsum (map g l))%Z.
Proof. induction l; [done|]. simpl. rewrite !Zsum_cons, IHl. lia. Qed.

Lemma Zsum_map_mul {A} (f : A → Z) c l :
  Zsum (map (λ x, c * f x)%Z l) = (c * Zsum (map f l))%Z.
Proof. induction l; simpl; rewrite ?Zsum_cons, ?Zsum_nil, ?IHl; lia. Qed.

#[export] Hint Rewrite Zsum_nil Zsum_cons Zsum_app Zsum_singleton Zsum_replicate : qmpc_sum.

(** Case analysis on the [if]s and option/result matches of a goal. *)
Ltac case_goal :=
  repeat match goal with
  | |- context [if ?b then _ else _] => destruct b eqn:?
  end.

Ltac inv_ok :=
  repeat match goal with
  | H : rbind _ _ = Ok _ |- _ => apply rbind_Ok_inv in H as (? & ? & ?)
  | H : Ok _ = Ok _ |- _ => injection H as H; subst
  | H : Throw _ = Ok _ |- _ => discriminate H
  end.
