(* ===== verification/NumberTheory.v ===== *)
(** * Elementary number theory used by the prime-field component

    Fermat's little theorem in the form the field uses it, the square roots of
    one modulo a prime, and Pocklington's criterion, which turns a small
    certificate into a proof that a 64-bit number is prime.  Nothing in this
    file mentions the program. *)
From Stdlib Require Import ZArith Znumtheory Zpow_facts Zmod Lia.
#[local] Open Scope Z_scope.

(** Trial division by [d, d + 1, ..., d + n - 1]. *)
Fixpoint no_divisor_upto (n : nat) (d : Z) (m : Z) : bool :=
  match n with
  | O => true
  | S n => negb (m mod d =? 0) && no_divisor_upto n (d + 1) m
  end.

(** ** Divisors *)

Lemma smallest_divisor (n : Z) :
  1 < n -> exists r, Z.prime r /\ (r | n) /\ (Z.prime n \/ r * r <= n).
Proof.
  intros Hn. rewrite <- (Z2Nat.id n) in * by lia. revert Hn.
  induction (Z.to_nat n) as [k IH] using lt_wf_ind; intros Hk.
  destruct (prime_dec (Z.of_nat k)) as [Hp|Hp].
  { apply prime_alt in Hp. exists (Z.of_nat k).
    split; [exact Hp|]. split; [apply Z.divide_refl|now left]. }
  destruct (not_prime_divide _ Hk Hp) as (d & Hd & c & Hc).
  assert (1 < c < Z.of_nat k) by nia.
  assert (exists e, 1 < e < Z.of_nat k /\ (e | Z.of_nat k) /\ e * e <= Z.of_nat k)
    as (e & He & Hek & Hee).
  { destruct (Z.le_ge_cases d c).
    - exists d. repeat split; [lia|lia|now exists c|nia].
    - exists c. repeat split; [lia|lia|exists d; lia|nia]. }
  destruct (IH (Z.to_nat e)) as (r & Hr & Hre & _); [lia|lia|].
  rewrite Z2Nat.id in Hre by lia.
  exists r. split; [exact Hr|]. split; [now apply Z.divide_trans with e|]. right.
  apply Z.divide_pos_le in Hre; [|lia]. destruct Hr. nia.
Qed.

Lemma no_divisor_upto_spec n d m e :
  no_divisor_upto n d m = true -> 0 < d -> d <= e < d + Z.of_nat n -> ~ (e | m).
Proof.
  revert d; induction n as [|n IH]; intros d H Hd He; [lia|].
  cbn [no_divisor_upto] in H. apply andb_prop in H as [H1 H2].
  destruct (Z.eq_dec d e) as [->|Hne].
  - apply Bool.negb_true_iff, Z.eqb_neq in H1. intros Hdv.
    now apply H1, Z.mod0_divide.
  - apply (IH (d + 1)); [exact H2|lia|lia].
Qed.

Lemma prime_by_trial (n : nat) (m : Z) :
  1 < m -> no_divisor_upto n 2 m = true -> m < (Z.of_nat n + 2) * (Z.of_nat n + 2) ->
  Z.prime m.
Proof.
  intros Hm Ht Hb. destruct (smallest_divisor m Hm) as (r & Hr & Hrm & [Hp|Hsq]).
  - exact Hp.
  - exfalso. pose proof (Z.prime_ge_2 _ Hr).
    refine (no_divisor_upto_spec _ _ _ r Ht _ _ Hrm); nia.
Qed.

(** ** Residues modulo a prime *)

Lemma prime_mult_mod p a b :
  Z.prime p -> (a * b) mod p = 0 -> a mod p = 0 \/ b mod p = 0.
Proof.
  intros Hp. pose proof (Z.prime_ge_2 _ Hp). rewrite !Z.mod_divide by lia.
  now apply Z.divide_prime_mul.
Qed.

Lemma mul_cancel_mod p a x y :
  Z.prime p -> a mod p <> 0 -> (a * x) mod p = (a * y) mod p -> x mod p = y mod p.
Proof.
  intros Hp Ha H. pose proof (Z.prime_ge_2 _ Hp).
  assert ((a * (x - y)) mod p = 0) as Hz.
  { rewrite Z.mul_sub_distr_l, Zminus_mod, H, Z.sub_diag. apply Z.mod_0_l. lia. }
  destruct (prime_mult_mod _ _ _ Hp Hz) as [|Hxy]; [contradiction|].
  apply Z.mod_divide in Hxy; [|lia]. destruct Hxy as [k Hk].
  replace x with (y + k * p) by lia. apply Z_mod_plus_full.
Qed.

(** Fermat's little theorem for exponents as the code writes them. *)
Lemma fermat p a : Z.prime p -> a mod p <> 0 -> a ^ (p - 1) mod p = 1.
Proof. intros Hp Ha. now apply Z.fermat_nz. Qed.

Lemma fermat_inv p a : Z.prime p -> a mod p <> 0 -> (a * a ^ (p - 2)) mod p = 1.
Proof.
  intros Hp Ha. pose proof (Z.prime_ge_2 _ Hp).
  rewrite <- Z.pow_succ_r by lia. replace (Z.succ (p - 2)) with (p - 1) by lia.
  now apply fermat.
Qed.

(** Modulo a prime, one has only the square roots [1] and [p - 1]. *)
Lemma sqrt_one p x : Z.prime p -> (x * x) mod p = 1 -> x mod p = 1 \/ x mod p = p - 1.
Proof.
  intros Hp H. pose proof (Z.prime_ge_2 _ Hp).
  assert (((x - 1) * (x + 1)) mod p = 0) as Hz.
  { replace ((x - 1) * (x + 1)) with (x * x - 1) by ring.
    rewrite Zminus_mod, H, Z.mod_1_l by lia. apply Z.mod_0_l. lia. }
  destruct (prime_mult_mod _ _ _ Hp Hz) as [Hx|Hx];
    (apply Z.mod_divide in Hx; [|lia]); destruct Hx as [k Hk].
  - left. replace x with (1 + k * p) by lia.
    rewrite Z_mod_plus_full. apply Z.mod_1_l. lia.
  - right. replace x with (p - 1 + (k - 1) * p) by lia.
    rewrite Z_mod_plus_full. apply Z.mod_small. lia.
Qed.

(** Two square roots of the same residue agree up to sign. *)
Lemma sqrt_unique p x y :
  Z.prime p -> (x * x) mod p = (y * y) mod p ->
  x mod p = y mod p \/ (x + y) mod p = 0.
Proof.
  intros Hp H. pose proof (Z.prime_ge_2 _ Hp).
  assert (((x - y) * (x + y)) mod p = 0) as Hz.
  { replace ((x - y) * (x + y)) with (x * x - y * y) by ring.
    rewrite Zminus_mod, H, Z.sub_diag. apply Z.mod_0_l. lia. }
  destruct (prime_mult_mod _ _ _ Hp Hz) as [Hx|Hx]; [left|now right].
  apply Z.mod_divide in Hx as [k Hk]; [|lia].
  replace x with (y + k * p) by lia. apply Z_mod_plus_full.
Qed.

Lemma pow_mod_1 a m k : 1 < m -> 0 <= k -> a mod m = 1 -> a ^ k mod m = 1.
Proof.
  intros Hm Hk Ha. rewrite <- Z.mod_pow_l, Ha, Z.pow_1_l by lia.
  apply Z.mod_1_l. lia.
Qed.

(** Half the Fermat exponent gives the quadratic character, one or [p - 1]. *)
Lemma half_fermat p h a :
  Z.prime p -> p - 1 = 2 * h -> a mod p <> 0 -> a ^ h mod p = 1 \/ a ^ h mod p = p - 1.
Proof.
  intros Hp Hh Ha. pose proof (Z.prime_ge_2 _ Hp).
  apply sqrt_one; [exact Hp|].
  rewrite <- Z.pow_add_r by lia. replace (h + h) with (p - 1) by lia.
  now apply fermat.
Qed.

(** ** Pocklington's criterion *)

Lemma mod_divide_1 a n r : 1 < r -> (r | n) -> 0 < n -> a mod n = 1 -> a mod r = 1.
Proof.
  intros Hr [c ->] Hn Ha. rewrite (Z.div_mod a (c * r)) by lia. rewrite Ha.
  replace (c * r * (a / (c * r)) + 1) with (1 + (c * (a / (c * r))) * r) by ring.
  rewrite Z_mod_plus_full. apply Z.mod_1_l. lia.
Qed.

(** [b ^ q = 1 = b ^ (r - 1)] and [q] prime to [r - 1] force [b = 1]. *)
Lemma order_coprime b q r :
  Z.prime r -> 0 < q -> Z.coprime q (r - 1) -> b mod r <> 0 -> b ^ q mod r = 1 ->
  b mod r = 1.
Proof.
  intros Hr Hq Hc Hb0 Hbq. pose proof (Z.prime_ge_2 _ Hr).
  destruct (proj1 (Z.Bezout_coprime_iff _ _) Hc) as (u & v & Huv).
  set (k := Z.abs u + Z.abs v). set (s := u + k * (r - 1)). set (t := k * q - v).
  assert (s * q = 1 + t * (r - 1)) as Hst.
  { transitivity (u * q + v * (r - 1) + t * (r - 1)); [unfold s, t; ring|].
    rewrite Huv. ring. }
  pose proof (Z.abs_nonneg u). pose proof (Z.abs_nonneg v).
  assert (k * 1 <= k * q) by (apply Z.mul_le_mono_nonneg_l; lia).
  assert (k * 1 <= k * (r - 1)) by (apply Z.mul_le_mono_nonneg_l; lia).
  assert (0 <= t) by (unfold t, k in *; lia). assert (0 <= s) by (unfold s, k in *; lia).
  pose proof (pow_mod_1 _ r s ltac:(lia) ltac:(lia) Hbq) as Hl.
  rewrite <- Z.pow_mul_r in Hl by lia. rewrite (Z.mul_comm q s), Hst in Hl.
  rewrite Z.pow_add_r, Z.pow_1_r, (Z.mul_comm t), Z.pow_mul_r in Hl by nia.
  pose proof (pow_mod_1 _ r t ltac:(lia) ltac:(lia) (fermat _ _ Hr Hb0)) as Hf.
  rewrite Zmult_mod, Hf, Z.mul_1_r, Z.mod_mod in Hl by lia. exact Hl.
Qed.

(** Every prime divisor [r] of [n] is one modulo each prime [q] that the
    certificate [a] covers. *)
Lemma pocklington_step n q a r :
  1 < n -> Z.prime q -> (q | n - 1) -> a ^ (n - 1) mod n = 1 ->
  Z.gcd (a ^ ((n - 1) / q) mod n - 1) n = 1 ->
  Z.prime r -> (r | n) -> (q | r - 1).
Proof.
  intros Hn Hq [c Hc] Ha Hg Hr Hrn.
  pose proof (Z.prime_ge_2 _ Hq). pose proof (Z.prime_ge_2 _ Hr).
  assert (0 < c) by nia.
  rewrite Hc, Z.div_mul in Hg by lia. set (b := a ^ c) in *.
  assert (b ^ q mod r = 1) as Hbq.
  { unfold b. rewrite <- Z.pow_mul_r by lia.
    rewrite <- Hc. apply (mod_divide_1 _ n); auto; lia. }
  assert (b mod r <> 1) as Hb1.
  { intros Hb. assert ((r | b mod n - 1)) as Hd.
    { destruct Hrn as [e He]. exists (b / r - e * (b / n)).
      pose proof (Z.div_mod b r ltac:(lia)) as Hbr. rewrite Hb in Hbr.
      rewrite Z.mod_eq by lia. rewrite He at 1. rewrite Hbr at 1. ring. }
    assert (r | 1) as Hr1 by (rewrite <- Hg; now apply Z.gcd_greatest).
    apply Z.divide_pos_le in Hr1; lia. }
  assert (b mod r <> 0) as Hb0.
  { intros Hb. rewrite <- Z.mod_pow_l, Hb, Z.pow_0_l, Z.mod_0_l in Hbq by lia. lia. }
  destruct (Z.BoolSpec_divide_nz q (r - 1) ltac:(lia)) as [|Hnd]; [assumption|exfalso].
  apply Hb1, (order_coprime b q r); auto; [lia|]. now apply Z.coprime_prime_l.
Qed.

(** A number is prime when its prime divisors are all one modulo some [f]
    larger than its square root. *)
Lemma prime_from_divisors n f :
  1 < n -> n < f * f -> 0 < f ->
  (forall r, Z.prime r -> (r | n) -> (f | r - 1)) -> Z.prime n.
Proof.
  intros Hn Hf Hf0 Hr. destruct (smallest_divisor n Hn) as (r & Hpr & Hrn & [Hp|Hsq]).
  - exact Hp.
  - exfalso. pose proof (Z.prime_ge_2 _ Hpr).
    pose proof (Z.divide_pos_le f (r - 1) ltac:(lia) (Hr r Hpr Hrn)). nia.
Qed.
