(* ===== verification/Field.v ===== *)
(** * The prime field  (src/ComputationContainer/PrimeField/PrimeField.hpp)

    [PrimeField<checked_uint128_t>]: a value is the stored integer, a [Z].  The
    operators come twice: [checked] follows the C++ statement by statement on
    128-bit integers that throw when they leave their range, [PrimeField] is
    the total arithmetic the rest of the development computes with, and
    [checked_*_ok] says they agree on every value an operator can meet. *)
From stdpp Require Import base list numbers strings.
From Stdlib Require Import ZArith Znumtheory Zpow_facts Zmod Lia DecimalString DecimalZ.
From S2P Require Import Prelude NumberTheory.
#[local] Open Scope Z_scope.

(** What the code relies on of [boost::multiprecision]: printing an integer in
    range and reading it back gives the integer. *)
Class IntegerIO := {
  str : Z → string;
  of_str : string → result Z;
  of_str_str : ∀ x, 0 ≤ x < 2 ^ 128 → of_str (str x) = Ok x
}.

(** [checked_uint128_t]: a result outside of [0, 2^128) throws. *)
Definition uint128 (x : Z) : result Z :=
  if (0 <=? x) && (x <? 2 ^ 128) then Ok x else Throw RangeError.

Definition uint128_mod (x y : Z) : result Z :=
  if y =? 0 then Throw OverflowError else Ok (x mod y).

Module PrimeField.

Definition p : Z := 18446744073709551557.
Definition l : nat := 64.
Definition lambda : nat := 8.
Definition inverse_of_two : Z := 9223372036854775779.

(** [modpow]: square and multiply; [fuel] bounds the [while (b)] loop. *)
Fixpoint modpow_loop (fuel : nat) (ret a b : Z) : result Z :=
  if b =? 0 then Ok ret
  else match fuel with
       | O => Throw OutOfFuel
       | S fuel =>
           rbind (if Z.odd b then rbind (uint128 (ret * a)) (λ m, uint128_mod m p)
                  else Ok ret) (λ ret,
           rbind (uint128 (a * a)) (λ aa,
           rbind (uint128_mod aa p) (λ a,
           modpow_loop fuel ret a (Z.shiftr b 1))))
       end.

Definition modpow (a b : Z) : result Z := modpow_loop 128 1 a b.

(** [PrimeField(const U &obj)]: the range test keeps [p] itself, which the
    reduction sends to zero. *)
Definition make (obj : Z) : result Z :=
  if (obj <? 0) || (p <? obj)
  then Throw (RuntimeError "PrimeField: unconvertible value")
  else uint128_mod obj p.

Definition getVal (x : Z) : Z := x.

Definition getInv_checked (x : Z) : result Z := rbind (modpow x (p - 2)) make.

Definition neg_checked (x : Z) : result Z := uint128 (p - x).
Definition add_checked (x y : Z) : result Z :=
  rbind (uint128 (x + y)) (λ s, uint128_mod s p).
Definition sub_checked (x y : Z) : result Z :=
  rbind (uint128 (p - y)) (λ d, rbind (uint128 (x + d)) (λ s, uint128_mod s p)).
Definition mul_checked (x y : Z) : result Z :=
  rbind (uint128 (x * y)) (λ m, uint128_mod m p).
Definition div_checked (x y : Z) : result Z :=
  rbind (getInv_checked y) (λ t, rbind (uint128 (x * t)) (λ m, uint128_mod m p)).
Definition mod_checked (x y : Z) : result Z := uint128_mod x y.

(** The same operators as total functions. *)
Definition add (x y : Z) : Z := (x + y) mod p.
Definition sub (x y : Z) : Z := (x + (p - y)) mod p.
Definition mul (x y : Z) : Z := (x * y) mod p.
Definition neg (x : Z) : Z := p - x.
Definition eqb (x y : Z) : bool := x =? y.
Definition ltb (x y : Z) : bool := x <? y.

(** [getInv] without the range checks: the same loop on exact integers. *)
Fixpoint pow_loop (fuel : nat) (ret a b : Z) : Z :=
  if b =? 0 then ret
  else match fuel with
       | O => ret
       | S fuel => pow_loop fuel (if Z.odd b then ret * a mod p else ret)
                            (a * a mod p) (Z.shiftr b 1)
       end.
Definition getInv (x : Z) : Z := pow_loop 128 1 x (p - 2) mod p.

(** [Legendre] and [modsqrt] (Tonelli-Shanks for [p - 1 = Q * 2^S], [S = 2]). *)
Definition Legendre (a : Z) : result bool :=
  rbind (modpow a (p / 2)) (λ ret, Ok (negb (ret =? p - 1))).

Definition Q : Z := 4611686018427387889.
Definition S_ : Z := 2.
Definition c0 : Z := 2296021864060584341.

(** [for (i = 1; i < M; i++) { t2 = t2 * t2 % p; if (t2 == 1) break; }] *)
Fixpoint find_order (fuel : nat) (i t2 M : Z) : result Z :=
  if negb (i <? M) then Ok i
  else match fuel with
       | O => Throw OutOfFuel
       | S fuel =>
           rbind (uint128 (t2 * t2)) (λ m, rbind (uint128_mod m p) (λ t2,
           if t2 =? 1 then Ok i else find_order fuel (i + 1) t2 M))
       end.

(** The body of [while (t != 1)]: the new [R, t, c, M]. *)
Definition modsqrt_step (R t c M : Z) : result (Z * Z * Z * Z) :=
  rbind (find_order (Z.to_nat M) 1 t M) (λ i,
  rbind (uint128 (M - i)) (λ d, rbind (uint128 (d - 1)) (λ e,
  rbind (modpow 1 e) (λ k, rbind (modpow c k) (λ b,
  rbind (mul_checked R b) (λ R,
  rbind (mul_checked t b) (λ tb, rbind (mul_checked tb b) (λ t,
  rbind (mul_checked b b) (λ c, Ok (R, t, c, i)))))))))).

Fixpoint modsqrt_loop (fuel : nat) (R t c M : Z) : result Z :=
  if t =? 1 then Ok R
  else match fuel with
       | O => Throw OutOfFuel
       | S fuel =>
           rbind (modsqrt_step R t c M) (λ '(R, t, c, M), modsqrt_loop fuel R t c M)
       end.

Definition modsqrt (x : Z) : result Z :=
  rbind (modpow x ((Q + 1) / 2)) (λ R,
  rbind (modpow x Q) (λ t,
  rbind (modsqrt_loop 2 R t c0 S_) (λ R,
  if R <=? p / 2 then make R else rbind (uint128 (p - R)) make))).

(** Values. [wf] is what every operator accepts and returns (the unary minus
    returns [p] on zero); [canonical] is what all but the unary minus return. *)
Definition canonical (x : Z) : Prop := 0 ≤ x < p.
Definition wf (x : Z) : Prop := 0 ≤ x ≤ p.

Definition getStrVal `{IntegerIO} (x : Z) : string := str x.
Definition of_string `{IntegerIO} (s : string) : result Z := rbind (of_str s) make.

#[export] Instance canonical_dec x : Decision (canonical x).
Proof. unfold canonical. apply _. Defined.
#[export] Instance wf_dec x : Decision (wf x).
Proof. unfold wf. apply _. Defined.

(** ** [p] is prime *)

Lemma prime_15331 : Z.prime 15331.
Proof. apply (prime_by_trial 150); [lia|reflexivity|lia]. Qed.

Lemma prime_2131 : Z.prime 2131.
Proof. apply (prime_by_trial 60); [lia|reflexivity|lia]. Qed.

Definition cofactor : Z := 5594472617641.

Lemma pow_by_mod a k m r : 1 < m → Zpow_mod a k m = r → a ^ k mod m = r.
Proof. intros Hm <-. symmetry. apply Zpow_mod_correct. lia. Qed.

(** The shape both certificates share: compute the two powers and a gcd. *)
Ltac certify a :=
  eapply (pocklington_step _ _ a);
  [ | first [exact prime_15331 | exact prime_2131 | eassumption] | | | | eassumption | eassumption];
  [ lia
  | apply Z.mod_divide; [lia|vm_compute; reflexivity]
  | apply pow_by_mod; [lia|vm_compute; reflexivity]
  | rewrite <- Zpow_mod_correct by lia; vm_compute; reflexivity ].

Lemma coprime_divides a b n : Z.coprime b a → (a | n) → (b | n) → (a * b | n).
Proof.
  intros Hc [k ->] Hb. rewrite Z.mul_comm in Hb.
  apply Z.gauss in Hb; [|exact Hc]. destruct Hb as [j ->]. exists j. ring.
Qed.

Lemma prime_cofactor : Z.prime cofactor.
Proof.
  apply (prime_from_divisors _ (15331 * 2131)); unfold cofactor; [lia|lia|lia|].
  intros r Hr Hrn. apply coprime_divides; [vm_compute; reflexivity| |]; certify 14.
Qed.

Lemma prime_p : Z.prime p.
Proof.
  pose proof prime_cofactor as Hc.
  apply (prime_from_divisors _ cofactor); unfold cofactor in *; unfold p; [lia|lia|lia|].
  intros r Hr Hrn. certify 2.
Qed.

(** ** Congruence modulo [p] *)

Definition cong (x y : Z) : Prop := x mod p = y mod p.

End PrimeField.

Notation "x ≅ y" := (PrimeField.cong x y) (at level 70) : qmpc_scope.

Module PrimeFieldFacts.
Import PrimeField.
#[local] Open Scope qmpc_scope.

#[export] Instance cong_dec x y : Decision (cong x y).
Proof. unfold cong. apply _. Defined.
#[export] Instance cong_equiv : Equivalence cong.
Proof. unfold cong. split; red; congruence. Qed.

#[export] Instance add_cong : Proper (cong ==> cong ==> cong) Z.add.
Proof. intros x x' Hx y y' Hy. unfold cong in *. rewrite Zplus_mod, Hx, Hy, <- Zplus_mod. done. Qed.
#[export] Instance mul_cong : Proper (cong ==> cong ==> cong) Z.mul.
Proof. intros x x' Hx y y' Hy. unfold cong in *. rewrite Zmult_mod, Hx, Hy, <- Zmult_mod. done. Qed.
#[export] Instance sub_cong : Proper (cong ==> cong ==> cong) Z.sub.
Proof. intros x x' Hx y y' Hy. unfold cong in *. rewrite Zminus_mod, Hx, Hy, <- Zminus_mod. done. Qed.
#[export] Instance opp_cong : Proper (cong ==> cong) Z.opp.
Proof. intros x x' Hx. change (- x) with (0 - x). change (- x') with (0 - x'). now rewrite Hx. Qed.

(** Congruences that hold as equalities of integers. *)
Ltac cong_ring :=
  match goal with |- cong ?a ?b =>
    refine (f_equal (λ z, z mod p) (_ : a = b)); ring end.

Lemma p_pos : 0 < p.
Proof. unfold p; lia. Qed.

Lemma mod_cong x : x mod p ≅ x.
Proof. unfold cong. apply Z.mod_mod. unfold p; lia. Qed.

Lemma p_cong_0 : p ≅ 0.
Proof. reflexivity. Qed.

Lemma cong_canonical x y : canonical x → canonical y → x ≅ y → x = y.
Proof. unfold cong, canonical. intros ? ? H. rewrite !Z.mod_small in H; lia. Qed.

Lemma canonical_wf x : canonical x → wf x.
Proof. unfold canonical, wf; lia. Qed.

Lemma canonical_mod x : canonical (x mod p).
Proof. apply Z.mod_pos_bound, p_pos. Qed.

Lemma add_cong_add x y : add x y ≅ x + y.
Proof. apply mod_cong. Qed.
Lemma mul_cong_mul x y : mul x y ≅ x * y.
Proof. apply mod_cong. Qed.
Lemma sub_cong_sub x y : sub x y ≅ x - y.
Proof. unfold sub. rewrite mod_cong, p_cong_0. cong_ring. Qed.
Lemma neg_cong_neg x : neg x ≅ - x.
Proof. unfold neg. rewrite p_cong_0. cong_ring. Qed.

Lemma add_canonical x y : canonical (add x y).
Proof. apply canonical_mod. Qed.
Lemma sub_canonical x y : canonical (sub x y).
Proof. apply canonical_mod. Qed.
Lemma mul_canonical x y : canonical (mul x y).
Proof. apply canonical_mod. Qed.
Lemma neg_wf x : wf x → wf (neg x).
Proof. unfold wf, neg. lia. Qed.

(** ** The exponentiation loop *)

Lemma shiftr1_spec b : 0 ≤ b → b = 2 * Z.shiftr b 1 + (if Z.odd b then 1 else 0).
Proof.
  intros Hb. rewrite Z.shiftr_div_pow2, Z.pow_1_r by lia.
  rewrite (Z.div_mod b 2) at 1 by lia. rewrite Zmod_odd. by destruct (Z.odd b).
Qed.

Lemma pow_step ret a b :
  0 ≤ b →
  (if Z.odd b then ret * a mod p else ret) * (a * a mod p) ^ Z.shiftr b 1 ≅ ret * a ^ b.
Proof.
  intros Hb. pose proof (shiftr1_spec b Hb) as Hs.
  assert (0 ≤ Z.shiftr b 1) by (apply Z.shiftr_nonneg; lia).
  set (h := Z.shiftr b 1) in *.
  assert ((a * a mod p) ^ h ≅ a ^ (2 * h)) as Ha.
  { unfold cong. rewrite Z.mod_pow_l, Z.pow_mul_r by lia. by rewrite Z.pow_2_r. }
  rewrite Ha. revert Hs. destruct (Z.odd b); intros Hs.
  - rewrite mod_cong, Hs. rewrite Z.pow_add_r, Z.pow_1_r by lia. cong_ring.
  - by rewrite Hs, Z.add_0_r.
Qed.

Lemma shiftr1_bound fuel b : 0 ≤ b < 2 ^ Z.of_nat (S fuel) → 0 ≤ Z.shiftr b 1 < 2 ^ Z.of_nat fuel.
Proof.
  rewrite Nat2Z.inj_succ, Z.pow_succ_r by lia. intros Hb.
  rewrite Z.shiftr_div_pow2, Z.pow_1_r by lia.
  split; [apply Z.div_pos; lia|apply Z.div_lt_upper_bound; lia].
Qed.

Lemma pow_loop_spec fuel ret a b :
  canonical ret → 0 ≤ b < 2 ^ Z.of_nat fuel →
  pow_loop fuel ret a b = (ret * a ^ b) mod p.
Proof.
  revert ret a b; induction fuel as [|fuel IH]; intros ret a b Hret Hb;
    cbn [pow_loop]; destruct (Z.eqb_spec b 0) as [->|Hne].
  1,3: by rewrite Z.pow_0_r, Z.mul_1_r, Z.mod_small.
  - simpl in Hb. lia.
  - rewrite IH; [apply pow_step; lia| |by apply shiftr1_bound].
    destruct (Z.odd b); [apply canonical_mod|done].
Qed.

Lemma uint128_ok x : 0 ≤ x < 2 ^ 128 → uint128 x = Ok x.
Proof.
  intros H. unfold uint128.
  destruct (Z.leb_spec 0 x), (Z.ltb_spec x (2 ^ 128)); simpl; (done || lia).
Qed.

Lemma uint128_mod_ok x y : y ≠ 0 → uint128_mod x y = Ok (x mod y).
Proof. intros H. unfold uint128_mod. by rewrite (proj2 (Z.eqb_neq y 0) H). Qed.

Lemma modpow_loop_ok fuel ret a b :
  canonical ret → 0 ≤ a < 2 ^ 64 → 0 ≤ b < 2 ^ Z.of_nat fuel →
  modpow_loop fuel ret a b = Ok (pow_loop fuel ret a b).
Proof.
  revert ret a b; induction fuel as [|fuel IH]; intros ret a b Hret Ha Hb;
    cbn [modpow_loop pow_loop]; destruct (Z.eqb_spec b 0) as [->|Hne]; try done.
  - simpl in Hb. lia.
  - assert (p < 2 ^ 64) by (unfold p; lia).
    assert (0 ≤ a * a mod p < 2 ^ 64).
    { pose proof (canonical_mod (a * a)). unfold canonical in *. lia. }
    destruct (Z.odd b); rewrite ?(uint128_ok (ret * a)) by (unfold canonical in *; nia);
      rewrite !rbind_ok, ?(uint128_mod_ok (ret * a)) by (unfold p; lia);
      rewrite ?rbind_ok, uint128_ok by nia;
      rewrite rbind_ok, uint128_mod_ok by (unfold p; lia);
      rewrite rbind_ok; apply IH; auto using canonical_mod, shiftr1_bound.
Qed.

Lemma canonical_1 : canonical 1.
Proof. unfold canonical, p; lia. Qed.

(** [modpow] is exponentiation: it terminates, never leaves 128 bits, and is exact. *)
Lemma modpow_spec a b :
  0 ≤ a < 2 ^ 64 → 0 ≤ b < 2 ^ 128 → modpow a b = Ok (a ^ b mod p).
Proof.
  intros Ha Hb. unfold modpow.
  rewrite modpow_loop_ok, pow_loop_spec; auto using canonical_1.
  by rewrite Z.mul_1_l.
Qed.

Lemma getInv_pow x : getInv x = x ^ (p - 2) mod p.
Proof.
  unfold getInv. rewrite pow_loop_spec by (apply canonical_1 || (unfold p; simpl; lia)).
  rewrite Z.mul_1_l. apply Z.mod_mod. unfold p; lia.
Qed.

Lemma getInv_canonical x : canonical (getInv x).
Proof. apply canonical_mod. Qed.

Lemma getInv_spec x : ¬ x ≅ 0 → x * getInv x ≅ 1.
Proof.
  intros Hx. rewrite getInv_pow, mod_cong. unfold cong.
  rewrite fermat_inv; [|exact prime_p|exact Hx]. reflexivity.
Qed.

Lemma make_ok x : wf x → make x = Ok (x mod p).
Proof.
  unfold wf, make. intros H.
  destruct (Z.ltb_spec x 0), (Z.ltb_spec p x); try lia; simpl.
  apply uint128_mod_ok. unfold p; lia.
Qed.

Lemma make_canonical x : canonical x → make x = Ok x.
Proof.
  intros H. rewrite make_ok by (by apply canonical_wf).
  by rewrite Z.mod_small.
Qed.

Lemma getInv_checked_ok x : wf x → getInv_checked x = Ok (getInv x).
Proof.
  intros Hx. unfold getInv_checked.
  rewrite modpow_spec by (unfold wf, p in *; lia). rewrite rbind_ok, getInv_pow.
  apply make_canonical, canonical_mod.
Qed.


(** ** The checked operators *)

Ltac checked :=
  repeat first
    [ progress (rewrite ?rbind_ok)
    | rewrite uint128_ok by (unfold wf, canonical, p in *; nia)
    | rewrite uint128_mod_ok by (unfold wf, canonical, p in *; lia) ].

Lemma add_checked_ok x y : wf x → wf y → add_checked x y = Ok (add x y).
Proof. intros Hx Hy. unfold add_checked. by checked. Qed.
Lemma sub_checked_ok x y : wf x → wf y → sub_checked x y = Ok (sub x y).
Proof. intros Hx Hy. unfold sub_checked. by checked. Qed.
Lemma mul_checked_ok x y : wf x → wf y → mul_checked x y = Ok (mul x y).
Proof. intros Hx Hy. unfold mul_checked. by checked. Qed.
Lemma neg_checked_ok x : wf x → neg_checked x = Ok (neg x).
Proof. intros Hx. unfold neg_checked. by checked. Qed.
Lemma div_checked_ok x y : wf x → wf y → div_checked x y = Ok (mul x (getInv y)).
Proof.
  intros Hx Hy. unfold div_checked. rewrite getInv_checked_ok by done.
  pose proof (getInv_canonical y). by checked.
Qed.

(** ** Square roots *)

Definition half_p : Z := 9223372036854775778.

Lemma p_half : p - 1 = 2 * half_p.
Proof. reflexivity. Qed.

Lemma pow_canonical a k : canonical (a ^ k mod p).
Proof. apply canonical_mod. Qed.

(** The last lines of [modsqrt]: of the two roots, the smaller one. *)
Lemma modsqrt_normalise R :
  canonical R →
  ∃ r, (if R <=? p / 2 then make R else rbind (uint128 (p - R)) make) = Ok r
       ∧ r * r ≅ R * R ∧ 0 ≤ r ≤ p / 2.
Proof.
  intros HR. change (p / 2) with half_p. destruct (Z.leb_spec R half_p) as [Hle|Hgt].
  - exists R. rewrite make_canonical by done. split; [done|].
    split; [reflexivity|]. unfold canonical in HR; lia.
  - exists (p - R). checked. rewrite make_canonical by (unfold canonical, half_p, p in *; lia).
    split; [done|]. split; [|unfold canonical, half_p, p in *; lia].
    rewrite p_cong_0. cong_ring.
Qed.

(** [t = -1]: one turn of the loop multiplies [R] by the fourth root of one. *)
Lemma modsqrt_step_minus_one R :
  canonical R → modsqrt_step R (p - 1) c0 S_ = Ok (mul R c0, 1, p - 1, 1).
Proof.
  intros HR. unfold modsqrt_step.
  replace (find_order _ _ _ _) with (@Ok Z 1) by (vm_compute; reflexivity).
  rewrite rbind_ok. change (uint128 (S_ - 1)) with (@Ok Z 1). rewrite rbind_ok.
  change (uint128 (1 - 1)) with (@Ok Z 0). rewrite rbind_ok.
  replace (modpow 1 0) with (@Ok Z 1) by (vm_compute; reflexivity). rewrite rbind_ok.
  replace (modpow c0 1) with (@Ok Z c0) by (vm_compute; reflexivity). rewrite rbind_ok.
  rewrite mul_checked_ok by (unfold wf, canonical, c0, p in *; lia). rewrite rbind_ok.
  replace (mul_checked (p - 1) c0) with (@Ok Z (p - c0)) by (vm_compute; reflexivity).
  rewrite rbind_ok.
  replace (mul_checked (p - c0) c0) with (@Ok Z 1) by (vm_compute; reflexivity).
  rewrite rbind_ok.
  by replace (mul_checked c0 c0) with (@Ok Z (p - 1)) by (vm_compute; reflexivity).
Qed.

(** [t * t <> 1]: the order search reaches [M], and [M - i - 1] underflows. *)
Lemma modsqrt_step_no_root R t c :
  canonical t → t * t mod p ≠ 1 → modsqrt_step R t c S_ = Throw RangeError.
Proof.
  intros Ht Hne. unfold modsqrt_step.
  assert (find_order (Z.to_nat S_) 1 t S_ = Ok 2) as ->; [|reflexivity].
  change (Z.to_nat S_) with 2%nat. cbn [find_order].
  change (1 <? S_) with true. cbn [negb].
  checked. rewrite (proj2 (Z.eqb_neq _ _) Hne). reflexivity.
Qed.

Lemma quarter_pow a : a ^ Q * a ^ Q ≅ a ^ half_p.
Proof. rewrite <- Z.pow_add_r by (unfold Q; lia). reflexivity. Qed.

(** What [modsqrt] starts from. *)
Lemma modsqrt_unfold x :
  canonical x →
  modsqrt x = rbind (modsqrt_loop 2 (x ^ ((Q + 1) / 2) mod p) (x ^ Q mod p) c0 S_) (λ R,
              if R <=? p / 2 then make R else rbind (uint128 (p - R)) make).
Proof.
  intros Hx. unfold modsqrt.
  assert (0 ≤ x < 2 ^ 64) by (unfold canonical, p in *; lia).
  rewrite !modpow_spec by (done || by vm_compute).
  by rewrite !rbind_ok.
Qed.

Lemma modsqrt_root x :
  canonical x → x ^ half_p mod p = 1 →
  ∃ r, modsqrt x = Ok r ∧ r * r ≅ x ∧ 0 ≤ r ≤ p / 2.
Proof.
  intros Hx Hchar. rewrite modsqrt_unfold by done.
  set (R := x ^ ((Q + 1) / 2) mod p). set (t := x ^ Q mod p).
  assert (R * R ≅ x * t) as HR.
  { unfold R, t. rewrite !mod_cong. rewrite <- Z.pow_add_r by (vm_compute; discriminate).
    rewrite <- Z.pow_succ_r by (vm_compute; discriminate). reflexivity. }
  assert (t * t ≅ 1) as Ht.
  { unfold t. rewrite !mod_cong, quarter_pow. unfold cong. by rewrite Hchar. }
  pose proof (pow_canonical x Q : canonical t) as Hct.
  pose proof (pow_canonical x ((Q + 1) / 2) : canonical R) as HcR.
  destruct (sqrt_one p t prime_p Ht) as [H1|H1];
    rewrite Z.mod_small in H1 by (unfold canonical in Hct; lia); rewrite H1 in *.
  - cbn [modsqrt_loop]. rewrite Z.eqb_refl, rbind_ok.
    destruct (modsqrt_normalise R HcR) as (r & -> & Hr & Hb).
    exists r. split; [done|]. split; [|done]. rewrite Hr, HR. cong_ring.
  - cbn [modsqrt_loop]. change (p - 1 =? 1) with false. cbv iota.
    rewrite modsqrt_step_minus_one by done. rewrite rbind_ok, Z.eqb_refl, rbind_ok.
    destruct (modsqrt_normalise _ (mul_canonical R c0)) as (r & -> & Hr & Hb).
    exists r. split; [done|]. split; [|done].
    rewrite Hr, mul_cong_mul.
    transitivity (R * R * (c0 * c0)); [cong_ring|].
    rewrite HR. transitivity (x * ((p - 1) * (c0 * c0))); [cong_ring|].
    assert ((p - 1) * (c0 * c0) ≅ 1) as -> by (vm_compute; reflexivity). cong_ring.
Qed.

Lemma modsqrt_no_root x :
  canonical x → x ^ half_p mod p ≠ 1 → modsqrt x = Throw RangeError.
Proof.
  intros Hx Hchar. rewrite modsqrt_unfold by done.
  set (t := x ^ Q mod p). cbn [modsqrt_loop].
  assert (t * t mod p ≠ 1) as Ht.
  { intros H1. apply Hchar. rewrite <- H1. symmetry. unfold t.
    change (x ^ Q mod p * (x ^ Q mod p) ≅ x ^ half_p).
    by rewrite !mod_cong, quarter_pow. }
  destruct (Z.eqb_spec t 1) as [E|_].
  - exfalso. apply Ht. rewrite E. reflexivity.
  - by rewrite modsqrt_step_no_root by (done || apply canonical_mod).
Qed.

(** A square has quadratic character one. *)
Lemma character_square r : ¬ r ≅ 0 → (r * r) ^ half_p mod p = 1.
Proof.
  intros Hr. rewrite <- Z.pow_2_r, <- Z.pow_mul_r by (unfold half_p; lia).
  rewrite <- p_half. apply fermat; [exact prime_p|exact Hr].
Qed.

Lemma character_cong x y : x ≅ y → x ^ half_p mod p = y ^ half_p mod p.
Proof.
  unfold cong. intros H. rewrite <- (Z.mod_pow_l x), H, Z.mod_pow_l; done.
Qed.

(** On a non-zero square, [modsqrt] returns the root that is at most [p / 2]. *)
Lemma modsqrt_smaller_root r :
  canonical r → r ≠ 0 →
  ∃ R, modsqrt (mul r r) = Ok R
       ∧ (R = r ∨ R = p - r) ∧ 0 ≤ R ≤ p / 2.
Proof.
  intros Hr Hne. assert (¬ r ≅ 0) as Hnc.
  { intros Hc. apply Hne, cong_canonical; auto. unfold canonical, p; lia. }
  destruct (modsqrt_root (mul r r)) as (R & HR & Hsq & Hb).
  - apply mul_canonical.
  - rewrite (character_cong _ (r * r)) by apply mul_cong_mul. by apply character_square.
  - exists R. split; [done|]. split; [|done].
    rewrite mul_cong_mul in Hsq.
    assert (canonical R).
    { change (p / 2) with half_p in Hb.
      unfold canonical, half_p, p in *; lia. }
    destruct (sqrt_unique p R r prime_p Hsq) as [H1|H1].
    + left. by apply cong_canonical.
    + right. apply Z.mod_divide in H1 as [k Hk]; [|unfold p; lia].
      clear - Hk Hr Hne H. unfold canonical, p in *.
      assert (k = 1) as -> by lia. lia.
Qed.

Lemma of_string_getStrVal `{IntegerIO} x :
  wf x → of_string (getStrVal x) = Ok (x mod p).
Proof.
  intros Hx. unfold of_string, getStrVal.
  rewrite of_str_str by (unfold wf, p in Hx; lia). by apply make_ok.
Qed.

End PrimeFieldFacts.

(** The inverse is used through [getInv_pow] and [getInv_spec] from here on. *)
#[global] Opaque PrimeField.getInv.

(** Decimal printing and reading, a concrete [IntegerIO]. *)
Definition decimal_io : IntegerIO.
Proof.
  refine {| str x := NilZero.string_of_int (Z.to_int x);
            of_str s := match NilZero.int_of_string s with
                        | Some d => Ok (Z.of_int d)
                        | None => Throw (RuntimeError "Unexpected content")
                        end |}.
  intros x _. destruct (Z.eq_dec x 0) as [->|Hx]; [reflexivity|].
  rewrite NilZero.isi; [by rewrite of_to| |];
    intros E; apply (f_equal Z.of_int) in E; rewrite of_to in E; cbv in E; congruence.
Defined.

(** * Properties *)

Import PrimeFieldFacts.
#[local] Open Scope qmpc_scope.

(** [PrimeField::p], [2^64 - 59], is a prime number: the class really is
    a field. *)
Theorem prime_field_p_prime : Z.prime PrimeField.p ∧ PrimeField.p = 2 ^ 64 - 59.
Proof. split; [exact PrimeField.prime_p|reflexivity]. Qed.

(** [modpow(a, b)] terminates, never overflows [checked_uint128_t] and
    returns exactly [a^b mod p] for every base below 2^64 and every 128-bit
    exponent. *)
Theorem modpow_exact a b :
  0 ≤ a < 2 ^ 64 → 0 ≤ b < 2 ^ 128 → PrimeField.modpow a b = Ok (a ^ b mod PrimeField.p).
Proof. apply modpow_spec. Qed.

Lemma modpow_exact_witness : PrimeField.modpow 3 5 = Ok (3 ^ 5 mod PrimeField.p).
Proof. apply (modpow_exact 3 5); lia. Defined.

(** C40: none of the operators [+= -= *= /= -x getInv] overflows or throws on
    values a field operation can produce ([0 .. p]): each returns the total
    arithmetic, and the result is again such a value, reduced below [p] except
    for the unary minus. *)
Theorem prime_field_operators_total x y :
  PrimeField.wf x → PrimeField.wf y →
  PrimeField.add_checked x y = Ok (PrimeField.add x y)
  ∧ PrimeField.sub_checked x y = Ok (PrimeField.sub x y)
  ∧ PrimeField.mul_checked x y = Ok (PrimeField.mul x y)
  ∧ PrimeField.div_checked x y = Ok (PrimeField.mul x (PrimeField.getInv y))
  ∧ PrimeField.neg_checked x = Ok (PrimeField.neg x)
  ∧ PrimeField.getInv_checked x = Ok (PrimeField.getInv x)
  ∧ PrimeField.canonical (PrimeField.add x y) ∧ PrimeField.canonical (PrimeField.sub x y)
  ∧ PrimeField.canonical (PrimeField.mul x y) ∧ PrimeField.canonical (PrimeField.getInv x)
  ∧ PrimeField.wf (PrimeField.neg x).
Proof.
  intros Hx Hy. split_and!; auto using add_checked_ok, sub_checked_ok, mul_checked_ok,
    div_checked_ok, neg_checked_ok, getInv_checked_ok, add_canonical, sub_canonical,
    mul_canonical, getInv_canonical, neg_wf.
Qed.

Lemma prime_field_operators_total_witness :
  PrimeField.sub_checked 3 PrimeField.p = Ok (PrimeField.sub 3 PrimeField.p).
Proof.
  apply (prime_field_operators_total 3 PrimeField.p);
    unfold PrimeField.wf, PrimeField.p; lia.
Defined.

(** [getInv] is the multiplicative inverse of every non-zero element, and
    division undoes multiplication; zero has the inverse zero. *)
Theorem getInv_inverse x y :
  PrimeField.canonical x → PrimeField.canonical y → y ≠ 0 →
  PrimeField.mul y (PrimeField.getInv y) = 1
  ∧ PrimeField.div_checked (PrimeField.mul x y) y = Ok x
  ∧ PrimeField.getInv 0 = 0.
Proof.
  intros Hx Hy Hne. assert (¬ y ≅ 0) as Hnc.
  { intros Hc. apply Hne, cong_canonical; auto. unfold PrimeField.canonical, PrimeField.p; lia. }
  split; [|split].
  - apply cong_canonical; [apply mul_canonical|apply canonical_1|].
    rewrite mul_cong_mul. by apply getInv_spec.
  - rewrite div_checked_ok by (apply canonical_wf; auto using mul_canonical). f_equal.
    apply cong_canonical; [apply mul_canonical|done|].
    rewrite !mul_cong_mul. transitivity (x * (y * PrimeField.getInv y)); [cong_ring|].
    rewrite getInv_spec by done. cong_ring.
  - rewrite getInv_pow, Z.pow_0_l; [reflexivity|unfold PrimeField.p; lia].
Qed.

Lemma getInv_inverse_witness : PrimeField.div_checked (PrimeField.mul 10 7) 7 = Ok 10.
Proof. apply (getInv_inverse 10 7); unfold PrimeField.canonical, PrimeField.p; lia. Defined.

(** C39: [modsqrt] terminates on the square of any non-zero element and returns
    one of its two roots, the one at most [p / 2]. *)
Theorem modsqrt_square r :
  PrimeField.canonical r → r ≠ 0 →
  ∃ R, PrimeField.modsqrt (PrimeField.mul r r) = Ok R
       ∧ (R = r ∨ R = PrimeField.p - r) ∧ 0 ≤ R ≤ PrimeField.p / 2.
Proof. apply modsqrt_smaller_root. Qed.

Lemma modsqrt_square_witness :
  ∃ R, PrimeField.modsqrt (PrimeField.mul 5 5) = Ok R
       ∧ (R = 5 ∨ R = PrimeField.p - 5) ∧ 0 ≤ R ≤ PrimeField.p / 2.
Proof. apply (modsqrt_square 5); [unfold PrimeField.canonical, PrimeField.p|]; lia. Defined.

(** On zero and on every element that is not a square, [modsqrt] does not
    loop: the checked subtraction [M - i - 1] underflows and it throws. *)
Theorem modsqrt_non_square x :
  PrimeField.canonical x → (x = 0 ∨ ∀ r, PrimeField.mul r r ≠ x) →
  PrimeField.modsqrt x = Throw RangeError.
Proof.
  intros Hx Hn. apply modsqrt_no_root; [done|]. intros Hchar.
  destruct Hn as [->|Hn]; [by rewrite Z.pow_0_l in Hchar|].
  destruct (modsqrt_root x Hx Hchar) as (r & _ & Hr & _).
  apply (Hn r), cong_canonical; [apply mul_canonical|done|]. by rewrite mul_cong_mul.
Qed.

Lemma modsqrt_non_square_witness : PrimeField.modsqrt 0 = Throw RangeError.
Proof.
  apply (modsqrt_non_square 0); [unfold PrimeField.canonical, PrimeField.p; lia|by left].
Defined.

(** [Legendre(a)] answers whether [a] is a square of the field (zero
    counts as one). *)
Theorem Legendre_decides_squares a :
  PrimeField.canonical a →
  ∃ b, PrimeField.Legendre a = Ok b ∧ (b = true ↔ ∃ r, PrimeField.mul r r = a).
Proof.
  intros Ha. unfold PrimeField.Legendre. change (PrimeField.p / 2) with half_p.
  rewrite modpow_spec by (done || (unfold PrimeField.canonical, PrimeField.p in Ha; lia)).
  rewrite rbind_ok. eexists; split; [reflexivity|].
  rewrite Bool.negb_true_iff, Z.eqb_neq. destruct (Z.eq_dec a 0) as [->|Hne].
  { split; [by exists 0|]. by rewrite Z.pow_0_l. }
  assert (¬ a ≅ 0) as Hnc.
  { intros Hc. apply Hne, cong_canonical; auto. unfold PrimeField.canonical, PrimeField.p; lia. }
  destruct (half_fermat _ _ a PrimeField.prime_p p_half Hnc) as [H1|H1];
    rewrite H1; split.
  - intros _. destruct (modsqrt_root a Ha H1) as (r & _ & Hr & _). exists r.
    apply cong_canonical; [apply mul_canonical|done|]. by rewrite mul_cong_mul.
  - unfold PrimeField.p. lia.
  - intros []. done.
  - intros [r Hr] _. rewrite <- Hr in Hnc, H1.
    rewrite (character_cong _ (r * r)) in H1 by apply mul_cong_mul.
    rewrite character_square in H1; [unfold PrimeField.p in H1; lia|].
    intros Hr0. apply Hnc. rewrite mul_cong_mul, Hr0. reflexivity.
Qed.

Lemma Legendre_decides_squares_witness :
  ∃ b, PrimeField.Legendre 4 = Ok b ∧ (b = true ↔ ∃ r, PrimeField.mul r r = 4).
Proof. apply (Legendre_decides_squares 4). unfold PrimeField.canonical, PrimeField.p; lia. Defined.

(** The unary minus leaves the canonical range exactly on zero, where it
    stores [p]: [-0 == 0] is false, although both print to strings that parse
    back to the same element and any sum with [-0] is reduced again. *)
Theorem neg_zero_not_canonical x y :
  PrimeField.canonical x → PrimeField.wf y →
  (PrimeField.canonical (PrimeField.neg x) ↔ x ≠ 0)
  ∧ PrimeField.eqb (PrimeField.neg 0) 0 = false
  ∧ PrimeField.add y (PrimeField.neg x) = PrimeField.sub y x
  ∧ PrimeField.make (PrimeField.neg 0) = Ok 0.
Proof.
  intros Hx Hy. split_and!; [|reflexivity|reflexivity|reflexivity].
  unfold PrimeField.canonical, PrimeField.neg in *. lia.
Qed.

Lemma neg_zero_not_canonical_witness :
  PrimeField.canonical (PrimeField.neg 0) ↔ (0 : Z) ≠ 0.
Proof.
  apply (neg_zero_not_canonical 0 0); unfold PrimeField.canonical, PrimeField.wf, PrimeField.p; lia.
Defined.

(** Sending an element as a decimal string and rebuilding it at the
    receiver gives the same element of the field, [p] (an unreduced zero)
    included. *)
Theorem prime_field_string_roundtrip (io : IntegerIO) x :
  PrimeField.wf x →
  PrimeField.of_string (PrimeField.getStrVal x) = Ok (x mod PrimeField.p).
Proof. apply of_string_getStrVal. Qed.

Lemma prime_field_string_roundtrip_witness :
  @PrimeField.of_string decimal_io (@PrimeField.getStrVal decimal_io 42) = Ok 42.
Proof.
  apply (prime_field_string_roundtrip decimal_io 42).
  unfold PrimeField.wf, PrimeField.p; lia.
Defined.
