(* ===== verification/FixedPoint.v ===== *)
(** * Fixed-point numbers  (FixedPoint/FixedPoint.hpp, FixedPoint/MathLib.cpp)

    [FixedPointImpl<cpp_int, cpp_dec_float<50>, 18, 8>]: the stored integer is
    the number times [shift = 10^8].  [cpp_int] is unbounded, so the integer
    operators are exact on [Z]; its division truncates towards zero.  The
    operators that go through [cpp_dec_float] take that type as a parameter. *)
From stdpp Require Import base list numbers strings.
From Stdlib Require Import ZArith Lia.
From S2P Require Import Prelude.
#[local] Open Scope Z_scope.

(** [boost::multiprecision::cpp_dec_float<50>], as far as the code uses it. *)
Class DecFloat := {
  D : Type;
  d_of_Z : Z → D;
  d_mul : D → D → D;
  d_div : D → D → D;
  d_isinf : D → bool;
  d_max : D;
  d_to_Z : D → Z;                (* conversion to cpp_int *)
  d_str20 : D → string;          (* str(20, std::ios_base::fixed) *)
  d_of_str : string → result D
}.

(** [long long]: leaving the range is undefined behaviour. *)
Definition int64 (x : Z) : result Z :=
  if (- 2 ^ 63 <=? x) && (x <? 2 ^ 63) then Ok x else Throw (Undefined "signed overflow").

Module FixedPoint.

(** [mypow] and [MathLib]'s [pow]: square and multiply on [long long]. *)
Fixpoint mypow_loop (fuel : nat) (a n ret : Z) : result Z :=
  if negb (0 <? n) then Ok ret
  else match fuel with
       | O => Throw OutOfFuel
       | S fuel =>
           rbind (if Z.odd n then int64 (ret * a) else Ok ret) (λ ret,
           rbind (int64 (a * a)) (λ a, mypow_loop fuel a (Z.shiftr n 1) ret))
       end.
Definition mypow (a n : Z) : result Z := mypow_loop 64 a n 1.

(** [MathLib.cpp]: the same loop with the two updates in the other order. *)
Fixpoint pow_loop (fuel : nat) (x n ret : Z) : result Z :=
  if negb (0 <? n) then Ok ret
  else match fuel with
       | O => Throw OutOfFuel
       | S fuel =>
           rbind (if Z.odd n then int64 (ret * x) else Ok ret) (λ ret,
           rbind (int64 (x * x)) (λ x, pow_loop fuel x (Z.shiftr n 1) ret))
       end.
Definition pow (x n : Z) : result Z := pow_loop 64 x n 1.

Definition length_ : Z := 18.
Definition resolution : Z := 8.
Definition shift : Z := Eval vm_compute in
  match mypow 10 resolution with Ok s => s | Throw _ => 0 end.
Definition maxInt : Z := Eval vm_compute in
  match mypow 10 (length_ - resolution) with Ok s => s | Throw _ => 0 end.

(** Construction from an integer type: [v * shift] is computed in [long long]. *)
Definition of_integral (v : Z) : result Z := int64 (v * shift).

Definition neg (x : Z) : Z := - x.
Definition add (x y : Z) : Z := x + y.
Definition sub (x y : Z) : Z := x - y.
Definition mul (x y : Z) : Z := Z.quot (x * y) shift.
Definition modulo (x y : Z) : result Z :=
  if y =? 0 then Throw OverflowError else Ok (Z.rem x y).
Definition incr (x : Z) : Z := x + shift.
Definition decr (x : Z) : Z := x - shift.

(** [==] tolerates a difference of one unit in the last place; [<] does not. *)
Definition eqb (x y : Z) : bool := (-1 <=? x - y) && (x - y <=? 1).
Definition ltb (x y : Z) : bool := x <? y.
(** [boost::operators] derives the others from these two. *)
Definition leb (x y : Z) : bool := negb (ltb y x).
Definition geb (x y : Z) : bool := negb (ltb x y).

Section WithD.
Context `{DecFloat}.

Definition finite (d : D) : D := if d_isinf d then d_max else d.

Definition of_string (s : string) : result Z :=
  rbind (d_of_str s) (λ v,
  Ok (if d_isinf v then d_to_Z d_max else d_to_Z (d_mul v (d_of_Z shift)))).

Definition getStrVal (x : Z) : string :=
  d_str20 (d_div (finite (d_of_Z x)) (d_of_Z shift)).

Definition getInv (x : Z) : Z :=
  d_to_Z (d_mul (d_div (d_of_Z shift) (finite (d_of_Z x))) (d_of_Z shift)).

Definition div (x y : Z) : Z :=
  d_to_Z (d_mul (d_div (d_of_Z x) (finite (d_of_Z y))) (d_of_Z shift)).

(** [abs(x)]: compares with [FixedPointImpl<>("0.0")]. *)
Definition abs (x : Z) : result Z :=
  rbind (of_string "0.0") (λ zero, Ok (if ltb x zero then neg x else x)).
End WithD.

(** ** Lemmas *)

Lemma shift_pos : 0 < shift.
Proof. reflexivity. Qed.

Lemma mul_quot_rem x y : x * y = shift * mul x y + Z.rem (x * y) shift.
Proof. unfold mul. apply Z.quot_rem'. Qed.

Lemma mul_error x y : Z.abs (x * y - shift * mul x y) < shift.
Proof.
  pose proof (mul_quot_rem x y). pose proof (Z.rem_bound_abs (x * y) shift).
  unfold shift in *; lia.
Qed.

Lemma mul_exact x k : mul x (k * shift) = x * k.
Proof. unfold mul. rewrite Z.mul_assoc. apply Z.quot_mul. discriminate. Qed.

Lemma mul_comm x y : mul x y = mul y x.
Proof. unfold mul. by rewrite Z.mul_comm. Qed.

Lemma mypow_loop_spec fuel a n ret r :
  mypow_loop fuel a n ret = Ok r → 0 ≤ n → r = ret * a ^ n.
Proof.
  revert a n ret; induction fuel as [|fuel IH]; intros a n ret; cbn [mypow_loop];
    destruct (Z.ltb_spec 0 n) as [Hlt|Hge]; simpl; intros H Hn; try discriminate.
  1, 3: injection H as ->; assert (n = 0) as -> by lia; rewrite Z.pow_0_r; lia.
  apply rbind_Ok_inv in H as (ret' & H1 & H).
  apply rbind_Ok_inv in H as (aa & H2 & H).
  assert (aa = a * a) as ->.
  { unfold int64 in H2. case_goal. destruct (_ && _); congruence. }
  apply IH in H; [|apply Z.shiftr_nonneg; lia]. subst r.
  assert (ret' = ret * (if Z.odd n then a else 1)) as ->.
  { destruct (Z.odd n); [|injection H1 as ->; lia].
    unfold int64 in H1. destruct (_ && _); congruence. }
  rewrite <- Z.pow_2_r, <- Z.pow_mul_r by (lia || apply Z.shiftr_nonneg; lia).
  rewrite Z.shiftr_div_pow2, Z.pow_1_r by lia.
  rewrite (Z.div_mod n 2) at 3 by lia. rewrite Zmod_odd.
  rewrite Z.pow_add_r by (try apply Z.mul_nonneg_nonneg; try (destruct (Z.odd n); lia);
                          try apply Z.div_pos; lia).
  destruct (Z.odd n); rewrite ?Z.pow_1_r, ?Z.pow_0_r; ring.
Qed.

End FixedPoint.

(** * Properties *)

(** A fixed-point product is the exact product truncated towards zero: the
    error is below one unit in the last place, its sign is that of the exact
    product, and multiplying by a whole number is exact. *)
Theorem fixed_mul_truncates x y k :
  let e := x * y - FixedPoint.shift * FixedPoint.mul x y in
  Z.abs e < FixedPoint.shift ∧ (0 ≤ e * (x * y))
  ∧ FixedPoint.mul x (k * FixedPoint.shift) = x * k
  ∧ FixedPoint.mul x y = FixedPoint.mul y x.
Proof.
  intros e. split_and!; [apply FixedPoint.mul_error| |apply FixedPoint.mul_exact
                        |apply FixedPoint.mul_comm].
  unfold e. pose proof (FixedPoint.mul_quot_rem x y) as H.
  replace (x * y - FixedPoint.shift * FixedPoint.mul x y)
    with (Z.rem (x * y) FixedPoint.shift) by lia.
  destruct (Z.le_ge_cases 0 (x * y)).
  - pose proof (Z.rem_bound_pos (x * y) FixedPoint.shift). unfold FixedPoint.shift in *. nia.
  - pose proof (Z.rem_nonpos (x * y) FixedPoint.shift). unfold FixedPoint.shift in *. nia.
Qed.

(** [==] on fixed-point numbers is "equal up to one unit": reflexive and
    symmetric, not transitive, and two numbers can be equal and strictly
    ordered at once, so [<=] and [>=] do not split into [<], [==]. *)
Theorem fixed_eq_tolerance x y :
  (FixedPoint.eqb x y = true ↔ Z.abs (x - y) ≤ 1)
  ∧ FixedPoint.eqb x x = true ∧ FixedPoint.eqb x y = FixedPoint.eqb y x
  ∧ FixedPoint.eqb x (x + 1) = true ∧ FixedPoint.eqb (x + 1) (x + 2) = true
  ∧ FixedPoint.eqb x (x + 2) = false ∧ FixedPoint.ltb x (x + 1) = true
  ∧ FixedPoint.geb x (x + 1) = false.
Proof.
  unfold FixedPoint.geb, FixedPoint.eqb, FixedPoint.ltb.
  split_and!; try lia.
Qed.

(** When [mypow] returns (its products fit [long long]) it returns
    [a ^ n]; the two constants it defines are [10^8] and [10^10]. *)
Theorem mypow_power a n r :
  0 ≤ n → FixedPoint.mypow a n = Ok r →
  r = a ^ n ∧ FixedPoint.shift = 10 ^ 8 ∧ FixedPoint.maxInt = 10 ^ 10.
Proof.
  intros Hn H. apply FixedPoint.mypow_loop_spec in H; [|done].
  split_and!; [lia|reflexivity|reflexivity].
Qed.

Lemma mypow_power_witness :
  FixedPoint.mypow 10 8 = Ok 100000000 ∧ 100000000 = 10 ^ 8.
Proof.
  split; [reflexivity|]. apply (mypow_power 10 8 100000000); [lia|reflexivity].
Defined.
