(* ===== verification/Random.v ===== *)
(** * Random numbers  (Random/Csprng.cpp, Random/Random.cpp, Random.hpp)

    The bytes come from libsodium and the kernel, which are parameters; what is
    modelled is how the code turns bytes into 64-bit integers, buffers them,
    and maps them to the ranges its callers ask for. *)
From stdpp Require Import base list numbers strings.
From Stdlib Require Import ZArith Lia.
From S2P Require Import Prelude Field FixedPoint.
#[local] Open Scope Z_scope.

(** Conversions between [unsigned long long] and [long long]. *)
Definition to_ull (x : Z) : Z := x mod 2 ^ 64.
Definition to_ll (x : Z) : Z := let u := x mod 2 ^ 64 in if u <? 2 ^ 63 then u else u - 2 ^ 64.

Module CSPRNG.

(** [while (sodium_init() < 0)]: [init k] is the result of the [k]-th call and
    [ctr] the static counter; more than 3000 failures give up. *)
Fixpoint entropyCheck (fuel : nat) (init : nat → Z) (k : nat) (ctr : Z) : result (bool * Z) :=
  if negb (init k <? 0) then Ok (true, ctr)
  else match fuel with
       | O => Throw OutOfFuel
       | S fuel =>
           let ctr := ctr + 1 in
           if 3000 <? ctr then Ok (false, ctr) else entropyCheck fuel init (S k) ctr
       end.

(** [GetRand]: [buf] is [randombytes_buf], [det] the seeded stream. *)
Definition GetRand (buf det : nat → list Z) (ready : bool) (byteSize : nat)
    : result (list Z) :=
  if negb ready then Throw (RuntimeError "There is a serious lack of entropy.")
  else if (byteSize <=? 32)%nat then Ok (buf byteSize) else Ok (det byteSize).

(** [std::bitset<8>(byte)] printed, most significant bit first. *)
Definition bitset8 (byte : Z) : list bool :=
  map (λ i, Z.testbit byte (Z.of_nat i)) [7%nat; 6%nat; 5%nat; 4%nat; 3%nat; 2%nat; 1%nat; 0%nat].

(** [std::stoull(str, nullptr, 2)]. *)
Definition stoull2 (bits : list bool) : Z :=
  fold_left (λ acc (b : bool), 2 * acc + (if b then 1 else 0)) bits 0.

Definition rndVal (bytes : list Z) : Z := to_ll (stoull2 (concat (map bitset8 bytes))).

Definition GetRandLL (bytes : list Z) : Z := rndVal (take 8 bytes).

(** [GetRandLLVec(size)]: one value for each group of eight bytes. *)
Fixpoint GetRandLLVec (size : nat) (bytes : list Z) : list Z :=
  match size with
  | O => []
  | S size => rndVal (take 8 bytes) :: GetRandLLVec size (drop 8 bytes)
  end.

(** The number eight bytes spell, first byte most significant. *)
Definition big_endian (bytes : list Z) : Z := fold_left (λ acc b, 256 * acc + b) bytes 0.

End CSPRNG.

Module RandGenerator.

Definition n_hold : nat := 1000.

(** [generateRand]: refill when the buffer is empty, then take its last
    element; [fill] is the byte source for [n_hold] numbers. *)
Definition generateRand (fill : list Z) (rands : list Z) : result (Z * list Z) :=
  let rands := match rands with [] => CSPRNG.GetRandLLVec n_hold fill | _ => rands end in
  match rev rands with
  | [] => Throw (Undefined "pop_back on empty vector")
  | x :: rest => Ok (to_ull x, rev rest)
  end.

(** [rnd % (max_val - min_val)]: the difference is a [long long], then converted. *)
Definition reduce (rnd min_val max_val : Z) : result Z :=
  rbind (int64 (max_val - min_val)) (λ d,
  if to_ull d =? 0 then Throw (Undefined "modulo by zero") else Ok (rnd mod to_ull d)).

Definition getRand_ll (rnd min_val max_val : Z) : result Z :=
  rbind (reduce rnd min_val max_val) (λ m,
  rbind (int64 (Z.abs (to_ll m))) (λ a, int64 (a + min_val))).

Definition getRand_fp (rnd min_val max_val : Z) : result Z :=
  rbind (getRand_ll rnd min_val max_val) FixedPoint.of_integral.

(** [getRandVec<FixedPoint>]: one number after the other. *)
Definition getRandVec_fp (rnds : list Z) (min_val max_val : Z) : result (list Z) :=
  traverse (λ rnd, getRand_fp rnd min_val max_val) rnds.

(** [getRand<PrimeField>]: unsigned arithmetic, then the field's constructor. *)
Definition getRand_pf (rnd min_val max_val : Z) : result Z :=
  rbind (reduce rnd min_val max_val) (λ m, PrimeField.make (to_ull (m + min_val))).

Definition default_min : Z := 0.
Definition default_max : Z := 9223372036854775807.

End RandGenerator.

(** ** Lemmas *)

Module RandomFacts.
Import CSPRNG RandGenerator.

Definition is_byte (b : Z) : Prop := 0 ≤ b < 256.

Lemma to_ull_to_ll x : 0 ≤ x < 2 ^ 64 → to_ull (to_ll x) = x.
Proof.
  intros H. unfold to_ull, to_ll. rewrite (Z.mod_small x) by lia.
  destruct (Z.ltb_spec x (2 ^ 63)); [by apply Z.mod_small|].
  rewrite <- (Z.mod_small x (2 ^ 64)) at 2 by lia.
  replace (x - 2 ^ 64) with (x + (-1) * 2 ^ 64) by lia. apply Z_mod_plus_full.
Qed.

Lemma fold_left_acc bits acc :
  fold_left (λ acc (b : bool), 2 * acc + (if b then 1 else 0)) bits acc
  = acc * 2 ^ Z.of_nat (length bits) + stoull2 bits.
Proof.
  unfold stoull2. revert acc; induction bits as [|b bits IH]; intros acc;
    cbn [fold_left length]; [simpl; lia|].
  rewrite IH, (IH (2 * 0 + _)), Nat2Z.inj_succ, Z.pow_succ_r by lia. ring.
Qed.

Lemma stoull2_app b1 b2 :
  stoull2 (b1 ++ b2) = stoull2 b1 * 2 ^ Z.of_nat (length b2) + stoull2 b2.
Proof. unfold stoull2 at 1. rewrite fold_left_app. apply fold_left_acc. Qed.

Lemma bitset8_byte b : is_byte b → stoull2 (bitset8 b) = b.
Proof.
  intros Hb. assert (∃ n, (n < 256)%nat ∧ b = Z.of_nat n) as (n & Hn & ->)
    by (exists (Z.to_nat b); unfold is_byte in Hb; lia).
  clear Hb. assert (forallb (λ n, stoull2 (bitset8 (Z.of_nat n)) =? Z.of_nat n)
                     (seq 0 256) = true) as H by (vm_compute; reflexivity).
  rewrite forallb_forall in H. apply Z.eqb_eq, H, in_seq. lia.
Qed.

Lemma stoull2_bytes bytes :
  Forall is_byte bytes → stoull2 (concat (map bitset8 bytes)) = big_endian bytes.
Proof.
  induction bytes as [|b bytes IH] using rev_ind; intros Hb; [reflexivity|].
  apply Forall_app in Hb as [Hbs Hb]. apply Forall_inv in Hb.
  rewrite map_app, concat_app, stoull2_app, IH by done.
  cbn [map concat]. rewrite app_nil_r, bitset8_byte by done.
  unfold big_endian. rewrite fold_left_app. cbn [fold_left length bitset8 map].
  change (2 ^ Z.of_nat 8) with 256. lia.
Qed.

Lemma big_endian_bound bytes :
  Forall is_byte bytes → 0 ≤ big_endian bytes < 256 ^ Z.of_nat (length bytes).
Proof.
  induction bytes as [|b bytes IH] using rev_ind; intros Hb; [unfold big_endian; simpl; lia|].
  apply Forall_app in Hb as [Hbs Hb]. apply Forall_inv in Hb. specialize (IH Hbs).
  unfold big_endian in *. rewrite fold_left_app, length_app. cbn [fold_left length].
  rewrite Nat2Z.inj_add, Z.pow_add_r by lia. change (256 ^ Z.of_nat 1) with 256.
  unfold is_byte in Hb. lia.
Qed.

Lemma rndVal_ull bytes :
  length bytes = 8%nat → Forall is_byte bytes →
  to_ull (rndVal bytes) = big_endian bytes ∧ 0 ≤ big_endian bytes < 2 ^ 64.
Proof.
  intros Hl Hb. pose proof (big_endian_bound bytes Hb) as Hbd. rewrite Hl in Hbd.
  change (256 ^ Z.of_nat 8) with (2 ^ 64) in Hbd.
  unfold rndVal. rewrite stoull2_bytes by done. split; [by apply to_ull_to_ll|done].
Qed.

Lemma GetRandLLVec_length n bytes : length (GetRandLLVec n bytes) = n.
Proof. revert bytes; induction n; intros; simpl; auto. Qed.

Lemma GetRandLLVec_snoc n bytes :
  GetRandLLVec (S n) bytes = GetRandLLVec n bytes ++ [rndVal (take 8 (drop (8 * n) bytes))].
Proof.
  revert bytes; induction n as [|n IH]; intros bytes; [by rewrite drop_0|].
  change (GetRandLLVec (S (S n)) bytes)
    with (rndVal (take 8 bytes) :: GetRandLLVec (S n) (drop 8 bytes)).
  rewrite IH, drop_drop. replace (8 * S n)%nat with (8 + 8 * n)%nat by lia. reflexivity.
Qed.

(** Every buffered number is a [long long]. *)
Definition is_ll (x : Z) : Prop := - 2 ^ 63 ≤ x < 2 ^ 63.

Lemma to_ll_is_ll x : is_ll (to_ll x).
Proof.
  unfold is_ll, to_ll. pose proof (Z.mod_pos_bound x (2 ^ 64) ltac:(lia)).
  destruct (Z.ltb_spec (x mod 2 ^ 64) (2 ^ 63)); lia.
Qed.

Lemma to_ull_range x : 0 ≤ to_ull x < 2 ^ 64.
Proof. apply Z.mod_pos_bound. lia. Qed.

Lemma reduce_ok rnd mn mx :
  mn < mx → mx - mn < 2 ^ 63 → reduce rnd mn mx = Ok (rnd mod (mx - mn)).
Proof.
  intros H1 H2. unfold reduce, int64.
  destruct (Z.leb_spec (- 2 ^ 63) (mx - mn)), (Z.ltb_spec (mx - mn) (2 ^ 63)); try lia.
  simpl. unfold to_ull. rewrite Z.mod_small by lia.
  destruct (Z.eqb_spec (mx - mn) 0); [lia|done].
Qed.

Lemma int64_ok x : - 2 ^ 63 ≤ x < 2 ^ 63 → int64 x = Ok x.
Proof.
  intros H. unfold int64.
  destruct (Z.leb_spec (- 2 ^ 63) x), (Z.ltb_spec x (2 ^ 63)); (done || lia).
Qed.

Lemma getRand_ll_ok rnd mn mx :
  mn < mx → mx - mn < 2 ^ 63 → - 2 ^ 63 ≤ mn → mx < 2 ^ 63 →
  getRand_ll rnd mn mx = Ok (rnd mod (mx - mn) + mn)
  ∧ mn ≤ rnd mod (mx - mn) + mn < mx.
Proof.
  intros H1 H2 H3 H4. unfold getRand_ll. rewrite reduce_ok by done. rewrite rbind_ok.
  pose proof (Z.mod_pos_bound rnd (mx - mn) ltac:(lia)) as Hm.
  assert (to_ll (rnd mod (mx - mn)) = rnd mod (mx - mn)) as ->.
  { unfold to_ll. rewrite (Z.mod_small (_ mod _)) by lia.
    destruct (Z.ltb_spec (rnd mod (mx - mn)) (2 ^ 63)); lia. }
  rewrite Z.abs_eq, int64_ok by lia. rewrite rbind_ok, int64_ok by lia. split; [done|lia].
Qed.

Lemma getRand_pf_ok rnd mn mx :
  0 ≤ mn < mx → mx < 2 ^ 63 →
  getRand_pf rnd mn mx = Ok (rnd mod (mx - mn) + mn)
  ∧ mn ≤ rnd mod (mx - mn) + mn < mx.
Proof.
  intros H1 H2. unfold getRand_pf. rewrite reduce_ok by lia. rewrite rbind_ok.
  pose proof (Z.mod_pos_bound rnd (mx - mn) ltac:(lia)) as Hm.
  unfold to_ull. rewrite Z.mod_small by lia. split; [|lia].
  apply PrimeFieldFacts.make_canonical. unfold PrimeField.canonical, PrimeField.p; lia.
Qed.

Lemma generateRand_back fill rands xs x :
  match rands with [] => GetRandLLVec n_hold fill | _ => rands end = xs ++ [x] →
  generateRand fill rands = Ok (to_ull x, xs).
Proof.
  intros E. unfold generateRand. rewrite E, rev_app_distr. simpl. by rewrite rev_involutive.
Qed.

Lemma entropyCheck_spec fuel init k ctr :
  3000 < ctr + Z.of_nat fuel ∧ ctr ≤ 3000 →
  ∃ b ctr', entropyCheck fuel init k ctr = Ok (b, ctr')
    ∧ (b = true ↔ ∃ j, (k ≤ j)%nat ∧ Z.of_nat j - Z.of_nat k ≤ 3000 - ctr ∧ 0 ≤ init j).
Proof.
  revert k ctr; induction fuel as [|fuel IH]; intros k ctr Hf; [lia|].
  cbn [entropyCheck]. destruct (Z.ltb_spec (init k) 0) as [Hlt|Hge]; cbn [negb].
  - destruct (Z.ltb_spec 3000 (ctr + 1)) as [Hover|Hok].
    + eexists _, _. split; [reflexivity|]. split; [done|].
      intros (j & Hj & Hd & Hi). assert (j = k) as -> by lia. lia.
    + destruct (IH (S k) (ctr + 1)) as (b & c & -> & Hb); [lia|].
      exists b, c. split; [done|]. rewrite Hb. split.
      * intros (j & ? & ? & ?). exists j. split_and!; lia.
      * intros (j & ? & ? & ?). exists j.
        assert (j ≠ k) by (intros ->; lia). split_and!; lia.
  - eexists _, _. split; [reflexivity|]. split; [|done]. intros _. exists k. split_and!; lia.
Qed.

End RandomFacts.

(** * Properties *)

Import CSPRNG RandGenerator RandomFacts.

(** [generateRand] always has a number to return: an empty buffer is
    refilled with 1000 numbers decoded from the byte source, big-endian, eight
    bytes each; numbers leave from the back of the buffer, each exactly once,
    and the value returned is the unsigned 64-bit number its bytes spell. *)
Theorem generateRand_serves_bytes fill rands :
  length fill = (8 * n_hold)%nat → Forall is_byte fill →
  (∃ u rest, generateRand fill [] = Ok (u, rest) ∧ length rest = 999%nat
             ∧ u = big_endian (drop (8 * 999) fill) ∧ 0 ≤ u < 2 ^ 64)
  ∧ (∀ x, generateRand fill (rands ++ [x]) = Ok (to_ull x, rands) ∧ 0 ≤ to_ull x < 2 ^ 64).
Proof.
  intros Hl Hb. split; [|intros x; split; [|apply to_ull_range]].
  - eexists _, _. split; [apply generateRand_back, (GetRandLLVec_snoc 999)|].
    split; [apply GetRandLLVec_length|].
    rewrite take_ge by (rewrite length_drop; unfold n_hold in Hl; lia).
    split; [|apply to_ull_range].
    apply rndVal_ull; [rewrite length_drop; unfold n_hold in Hl; lia|by apply Forall_drop].
  - apply generateRand_back. by destruct rands.
Qed.

Lemma generateRand_serves_bytes_witness :
  generateRand (replicate (8 * n_hold) 1) ([5] ++ [-1]) = Ok (to_ull (-1), [5]).
Proof.
  apply (generateRand_serves_bytes (replicate (8 * n_hold) 1) [5]).
  - by rewrite length_replicate.
  - apply Forall_replicate. unfold is_byte; lia.
Defined.

(** For a range [min < max] whose width fits [long long], [getRand] never
    throws and its value lies in [min, max): scaled by [10^8] for fixed-point
    numbers (when that fits), as it is for field elements; an empty range is a
    modulo by zero. *)
Theorem getRand_in_range rnd mn mx :
  mn < mx → mx - mn < 2 ^ 63 → - 2 ^ 36 ≤ mn → mx ≤ 2 ^ 36 →
  (∃ v, getRand_fp rnd mn mx = Ok (v * FixedPoint.shift) ∧ mn ≤ v < mx)
  ∧ (0 ≤ mn → ∃ v, getRand_pf rnd mn mx = Ok v ∧ mn ≤ v < mx)
  ∧ getRand_fp rnd mn mn = Throw (Undefined "modulo by zero").
Proof.
  intros H1 H2 H3 H4. split_and!.
  - destruct (getRand_ll_ok rnd mn mx) as [He Hr]; try lia.
    eexists. split; [|exact Hr]. unfold getRand_fp. rewrite He, rbind_ok.
    unfold FixedPoint.of_integral. apply int64_ok.
    revert Hr. generalize (rnd mod (mx - mn) + mn). unfold FixedPoint.shift. lia.
  - intros H0. eexists. apply getRand_pf_ok; lia.
  - unfold getRand_fp, getRand_ll, reduce. by rewrite Z.sub_diag.
Qed.

Lemma getRand_in_range_witness :
  ∃ v, getRand_pf 12345678901 1 1000 = Ok v ∧ 1 ≤ v < 1000.
Proof. apply (getRand_in_range 12345678901 1 1000); lia. Defined.

(** [getRand<PrimeField>()] draws from [0, 2^63 - 1) only: with its default
    range it never returns any of the elements from [2^63 - 1] up, which are half
    of the field (the caller subRNS documents the range [0 .. p - 1]). *)
Theorem getRand_field_default_half rnd :
  ∃ v, getRand_pf rnd default_min default_max = Ok v
       ∧ 0 ≤ v < 2 ^ 63 - 1 ∧ 2 ^ 63 - 1 < PrimeField.p - 2 ^ 62.
Proof.
  destruct (getRand_pf_ok rnd default_min default_max) as [H1 H2];
    [by vm_compute|by vm_compute|].
  eexists. split; [exact H1|]. revert H2. generalize (rnd mod (default_max - default_min) + default_min).
  unfold default_min, default_max, PrimeField.p. lia.
Qed.

(** The entropy wait gives up with [false] exactly when the library never
    becomes ready in the attempts the counter allows, and never loops past
    3001 failures. *)
Theorem entropyCheck_bounded init ctr :
  0 ≤ ctr ≤ 3000 →
  ∃ b ctr', entropyCheck 3001 init 0 ctr = Ok (b, ctr')
            ∧ (b = true ↔ ∃ k, (Z.of_nat k ≤ 3000 - ctr) ∧ 0 ≤ init k).
Proof.
  intros Hc. pose proof (entropyCheck_spec 3001 init 0 ctr ltac:(lia)) as (b & c & He & Hb).
  exists b, c. split; [done|]. rewrite Hb. split.
  - intros (k & _ & H). exists k. lia.
  - intros (k & H). exists k. lia.
Qed.

Lemma entropyCheck_bounded_witness :
  ∃ b ctr', entropyCheck 3001 (λ k, if (k <? 2)%nat then -1 else 0) 0 0 = Ok (b, ctr')
    ∧ (b = true ↔ ∃ k, (Z.of_nat k ≤ 3000 - 0) ∧ 0 ≤ if (k <? 2)%nat then -1 else 0).
Proof. apply (entropyCheck_bounded (λ k, if (k <? 2)%nat then -1 else 0) 0); lia. Defined.
