(* ===== verification/TripleHandler.v ===== *)
(** * Beaver triples  (TripleHandler/TripleHandler.hpp)

    A queue of triples per thread, refilled from the triple service when it
    runs below a threshold.  The service is a parameter: [resp k] is the list
    of triples its [k]-th answer carries. *)
From stdpp Require Import base list numbers strings.
From Stdlib Require Import ZArith Lia DecimalString DecimalZ.
From S2P Require Import Prelude Field FixedPoint.
#[local] Open Scope Z_scope.

Module TripleHandler.

Definition threshold : nat := Z.to_nat 100000.

(** [std::to_string] of an [int64]. *)
Definition to_string (z : Z) : string := NilZero.string_of_int (Z.to_int z).

(** [convertStr2Triple] for field elements: the answer of the service is not
    used; every party stores [1, 1, n_parties]. *)
Definition convert_pf (n_parties : nat) (buf : Z * Z * Z) : result (Z * Z * Z) :=
  rbind (PrimeField.make 1) (λ a,
  rbind (PrimeField.make 1) (λ b,
  rbind (PrimeField.make (Z.of_nat n_parties)) (λ c, Ok (a, b, c)))).

(** [convertStr2Triple] for fixed-point numbers: the decimal strings of the
    three integers of the answer. *)
Definition convert_fp `{DecFloat} (buf : Z * Z * Z) : result (Z * Z * Z) :=
  rbind (FixedPoint.of_string (to_string buf.1.1)) (λ a,
  rbind (FixedPoint.of_string (to_string buf.1.2)) (λ b,
  rbind (FixedPoint.of_string (to_string buf.2)) (λ c, Ok (a, b, c)))).

Section Queue.
Context {T : Type} (threshold : nat) (convert : Z * Z * Z → result T).
Context (resp : nat → list (Z * Z * Z)).

(** The queue and the number of requests sent. *)
Record state := mkState { queue : list T; requests : nat }.

(** [takeOutTriple]. *)
Definition takeOutTriple (s : state) : result (T * state) :=
  rbind (if (length (queue s) <? threshold)%nat
         then rbind (traverse convert (resp (requests s))) (λ ts,
              Ok (mkState (queue s ++ ts) (S (requests s))))
         else Ok s) (λ s,
  match queue s with
  | [] => Throw (Undefined "front of empty queue")
  | t :: q => Ok (t, mkState q (requests s))
  end).

(** [getTriple(needCount)]. *)
Fixpoint getTriple (needCount : nat) (s : state) : result (list T * state) :=
  match needCount with
  | O => Ok ([], s)
  | S k => rbind (takeOutTriple s) (λ '(t, s),
           rbind (getTriple k s) (λ '(ts, s), Ok (t :: ts, s)))
  end.
End Queue.
End TripleHandler.

Module TripleFacts.
Import TripleHandler.

Lemma convert_pf_ok n buf :
  Z.of_nat n < PrimeField.p → convert_pf n buf = Ok (1, 1, Z.of_nat n).
Proof.
  intros Hn. unfold convert_pf.
  rewrite !PrimeFieldFacts.make_canonical by (unfold PrimeField.canonical, PrimeField.p in *; lia).
  reflexivity.
Qed.

Section Queue.
Context {T : Type} (threshold : nat) (convert : Z * Z * Z → result T).
Context (resp : nat → list (Z * Z * Z)) (f : Z * Z * Z → T).
Hypothesis convert_ok : ∀ b, convert b = Ok (f b).
Hypothesis resp_full : ∀ k, (0 < length (resp k))%nat.
Hypothesis threshold_pos : (0 < threshold)%nat.

(** What is still in the queue followed by everything the service will send. *)
Definition pending (s : state) (upto : nat) : list T :=
  queue s ++ concat (map (λ k, map f (resp k)) (seq (requests s) (upto - requests s))).

Lemma takeOut_fifo s :
  ∃ t s', takeOutTriple threshold convert resp s = Ok (t, s')
    ∧ (requests s ≤ requests s')%nat
    ∧ ∀ n, (requests s' ≤ n)%nat → pending s n = t :: pending s' n.
Proof.
  unfold takeOutTriple. destruct (Nat.ltb_spec (length (queue s)) threshold) as [Hlt|Hge].
  - rewrite (traverse_map _ f) by auto. rewrite !rbind_ok. cbn [queue requests].
    destruct (queue s ++ map f (resp (requests s))) as [|t q] eqn:E.
    { apply app_eq_nil in E as [_ E]. pose proof (resp_full (requests s)).
      apply (f_equal length) in E. rewrite length_map in E. simpl in E. lia. }
    eexists _, _. split; [reflexivity|]. cbn [requests]. split; [lia|].
    intros n Hn. unfold pending. cbn [queue requests].
    replace (n - requests s)%nat with (S (n - S (requests s))) by lia.
    cbn [seq map concat]. rewrite app_assoc, E. reflexivity.
  - rewrite rbind_ok. destruct (queue s) as [|t q] eqn:E; [simpl in Hge; lia|].
    eexists _, _. split; [reflexivity|]. cbn [requests]. split; [lia|].
    intros n Hn. unfold pending. cbn [queue requests]. by rewrite E.
Qed.

Lemma getTriple_fifo k s :
  ∃ ts s', getTriple threshold convert resp k s = Ok (ts, s')
    ∧ length ts = k ∧ (requests s ≤ requests s')%nat
    ∧ ∀ n, (requests s' ≤ n)%nat → pending s n = ts ++ pending s' n.
Proof.
  revert s; induction k as [|k IH]; intros s; cbn [getTriple].
  - exists [], s. split_and!; auto.
  - destruct (takeOut_fifo s) as (t & s1 & -> & Hr1 & Hp1). rewrite rbind_ok.
    destruct (IH s1) as (ts & s2 & -> & Hl & Hr2 & Hp2). rewrite rbind_ok.
    eexists _, _. split; [reflexivity|]. split_and!; [simpl; lia|lia|].
    intros n Hn. rewrite Hp1, Hp2 by lia. reflexivity.
Qed.
End Queue.
End TripleFacts.

(** * Properties *)

(** The triple queue is first-in first-out across refills: asking for [k]
    triples always succeeds when every answer of the service carries at least
    one, and returns, in order, the next [k] of the triples received so far and
    to come; none is dropped, repeated or reordered. *)
Theorem getTriple_fifo_total {T} threshold (f : Z * Z * Z → T) resp k s :
  (0 < threshold)%nat → (∀ i, (0 < length (resp i))%nat) →
  ∃ ts s', TripleHandler.getTriple threshold (λ b, Ok (f b)) resp k s = Ok (ts, s')
    ∧ length ts = k
    ∧ ∀ n, (TripleHandler.requests s' ≤ n)%nat →
        TripleFacts.pending resp f s n = ts ++ TripleFacts.pending resp f s' n.
Proof.
  intros Ht Hr.
  destruct (TripleFacts.getTriple_fifo threshold (λ b, Ok (f b)) resp f
              (λ _, eq_refl) Hr Ht k s) as (ts & s' & H1 & H2 & _ & H3).
  eauto.
Qed.

Lemma getTriple_fifo_total_witness :
  ∃ ts s', TripleHandler.getTriple 1 (λ b, Ok b) (λ i, [(Z.of_nat i, 0, 0)]) 2
             (TripleHandler.mkState [] 0) = Ok (ts, s') ∧ length ts = 2%nat.
Proof.
  destruct (getTriple_fifo_total 1 (λ b, b) (λ i, [(Z.of_nat i, 0, 0)]) 2
              (TripleHandler.mkState [] 0)) as (ts & s' & H1 & H2 & _).
  - lia.
  - intros i. simpl. lia.
  - exists ts, s'. split; [exact H1|exact H2].
Defined.
