(* ===== verification/Share.v ===== *)
(** * Secret shares  (Share/Share.hpp, Share/Networking.hpp)

    The parties run the same program; a share of one secret is the list of the
    [n_parties] local values, party [1] first, and one definition below is what
    all parties do together: a local statement maps over the list, a statement
    under [conf->party_id == conf->sp_id] touches the entry of the special
    party, [open] followed by [recons] makes every party add all entries in
    party order.  The mailbox that carries the values is modelled in
    [Mailbox.v], where this joint step is shown to be what the message exchange
    computes.

    [ShareValue] is what [Share<SV>] needs of [SV]; its two instances are the
    prime field and the fixed-point numbers. *)
From stdpp Require Import base list numbers strings.
From Stdlib Require Import ZArith Lia.
From S2P Require Import Prelude Field FixedPoint Random.
#[local] Open Scope Z_scope.

(** ** The interface of a share value *)

Class ShareValue := {
  sv_zero : Z;                             (** [SV()] *)
  sv_add : Z → Z → Z;
  sv_sub : Z → Z → Z;
  sv_mul : Z → Z → Z;
  sv_neg : Z → Z;
  sv_inv : Z → result Z;                   (** [getInv] *)
  sv_wire : Z → result Z;                  (** [SV(x.getStrVal())], at a receiver *)
  sv_rand : Z → Z → Z → result Z;          (** [getRand<SV>] of a raw number *)
  sv_triple : nat → Z * Z * Z → result (Z * Z * Z)  (** [convertStr2Triple] *)
}.

(** ** The parties and their environment *)

Class Env := {
  n_parties : nat;
  sp_id : nat;
  entropy : nat → nat → Z;           (** party, position: [generateRand] *)
  bts : nat → nat → Z * Z * Z        (** position, party: the triple service *)
}.

(** What the parties consume: numbers every party has drawn, numbers only the
    special party has drawn, triples taken. *)
Record World := mkWorld { all_draws : nat; sp_draws : nat; triples : nat }.

Definition M (A : Type) : Type := World → result (A * World).
Definition ret {A} (a : A) : M A := λ w, Ok (a, w).
Definition bind {A B} (m : M A) (f : A → M B) : M B :=
  λ w, rbind (m w) (λ '(a, w'), f a w').
Definition lift {A} (r : result A) : M A := λ w, rbind r (λ a, Ok (a, w)).
Definition throw {A} (e : exn) : M A := λ _, Throw e.

Notation "'let*' x ':=' m 'in' k" := (bind m (λ x, k))
  (at level 10, x binder, m at level 100, k at level 200) : qmpc_scope.
#[local] Open Scope qmpc_scope.

(** A loop whose body is a protocol: left to right over a list. *)
Fixpoint mmap {A B} (f : A → M B) (l : list A) : M (list B) :=
  match l with
  | [] => ret []
  | x :: l => let* y := f x in let* ys := mmap f l in ret (y :: ys)
  end.

Fixpoint mfold {A B} (f : B → A → M B) (l : list A) (b : B) : M B :=
  match l with
  | [] => ret b
  | x :: l => let* b' := f b x in mfold f l b'
  end.

Abbreviation sharing := (list Z) (only parsing).

Section Share.
Context `{ShareValue} `{Env}.

Definition parties : list nat := seq 1 n_parties.

(** The position of party [i]'s next random number. *)
Definition draw_pos (w : World) (i : nat) : nat :=
  (all_draws w + if (i =? sp_id)%nat then sp_draws w else 0)%nat.

(** [getRand<SV>(min, max)] at every party. *)
Definition getRand (mn mx : Z) : M sharing := λ w,
  rbind (traverse (λ i, sv_rand (entropy i (draw_pos w i)) mn mx) parties) (λ xs,
  Ok (xs, mkWorld (S (all_draws w)) (sp_draws w) (triples w))).

(** [getRand<SV>(min, max)] at the special party only. *)
Definition getRand_sp (mn mx : Z) : M Z := λ w,
  rbind (sv_rand (entropy sp_id (draw_pos w sp_id)) mn mx) (λ x,
  Ok (x, mkWorld (all_draws w) (S (sp_draws w)) (triples w))).

(** [TripleHandler::getTriple<SV>(needCount)]: for each triple, the three
    sharings whose entries the parties were given. *)
Definition triple_at (k : nat) : result (sharing * sharing * sharing) :=
  rbind (traverse (λ i, sv_triple n_parties (bts k i)) parties) (λ ts,
  Ok (map (λ t, t.1.1) ts, map (λ t, t.1.2) ts, map (λ t, t.2) ts)).

Definition getTriple1 : M (sharing * sharing * sharing) := λ w,
  rbind (triple_at (triples w)) (λ t,
  Ok (t, mkWorld (all_draws w) (sp_draws w) (S (triples w)))).

Definition getTriple (needCount : nat) : M (list (sharing * sharing * sharing)) :=
  mmap (λ _, getTriple1) (seq 0 needCount).

(** Local operators. *)
Definition s_zero : sharing := replicate n_parties sv_zero.
Definition s_lit (c : Z) : sharing := replicate n_parties c.
Definition s_neg (x : sharing) : sharing := map sv_neg x.
Definition s_add (x y : sharing) : sharing := zip_with sv_add x y.
Definition s_sub (x y : sharing) : sharing := zip_with sv_sub x y.
(** [operator+=(const SV &)], [operator-=(const SV &)]: special party only. *)
Definition s_addc (x : sharing) (c : Z) : sharing :=
  zip_with (λ i v, if (i =? sp_id)%nat then sv_add v c else v) parties x.
Definition s_subc (x : sharing) (c : Z) : sharing :=
  zip_with (λ i v, if (i =? sp_id)%nat then sv_sub v c else v) parties x.
Definition s_mulc (x : sharing) (c : Z) : sharing := map (λ v, sv_mul v c) x.
(** [operator-(const SV &, const Share &)]: negate, then add. *)
Definition c_sub (c : Z) (x : sharing) : sharing := s_addc (s_neg x) c.
Definition getConstantShare (t : Z) : sharing := s_addc s_zero t.

(** [recons] at party [me]: its own value as it is, the others' as received. *)
Definition recons_at (me : nat) (x : sharing) : result Z :=
  fold_left (λ acc '(pt, v),
      rbind acc (λ a, if (pt =? me)%nat then Ok (sv_add a v)
                      else rbind (sv_wire v) (λ u, Ok (sv_add a u))))
    (zip parties x) (Ok sv_zero).

(** The vector form loops over the parties outside and the shares inside. *)
Definition column (pt : nat) (xs : list sharing) : list Z :=
  map (λ x, nth (pt - 1) x sv_zero) xs.
Definition recons_vec_at (me : nat) (xs : list sharing) : result (list Z) :=
  fold_left (λ acc pt,
      rbind acc (λ a,
      rbind (if (pt =? me)%nat then Ok (column pt xs)
             else traverse sv_wire (column pt xs)) (λ col,
      Ok (zip_with sv_add a col))))
    parties (Ok (map (λ _, sv_zero) xs)).

(** [open(x); recons(x)], as seen by the special party (all parties see the
    same, [recons_agreement]). *)
Definition open_recons (x : sharing) : M Z := lift (recons_at sp_id x).
Definition open_recons_vec (xs : list sharing) : M (list Z) :=
  lift (recons_vec_at sp_id xs).

(** [operator*=(const Share &)]: Beaver multiplication. *)
Definition s_mul (x y : sharing) : M sharing :=
  let* t := getTriple 1 in
  match t with
  | [(a, b, c)] =>
      let* de_rec := open_recons_vec [s_sub x a; s_sub y b] in
      match de_rec with
      | [d; e] => ret (s_addc (s_add (s_add c (s_mulc b d)) (s_mulc a e)) (sv_mul d e))
      | _ => throw (Undefined "vector index")
      end
  | _ => throw (Undefined "vector index")
  end.

(** The vector operators throw on vectors of different lengths. *)
Definition not_equal_length : exn :=
  RuntimeError "Not Equal Length operator vector<Share> !!".
Definition v_add (xs ys : list sharing) : M (list sharing) :=
  if (length xs =? length ys)%nat then ret (zip_with s_add xs ys) else throw not_equal_length.
Definition v_sub (xs ys : list sharing) : M (list sharing) :=
  if (length xs =? length ys)%nat then ret (zip_with s_sub xs ys) else throw not_equal_length.
Definition v_addc (xs : list sharing) (c : Z) : list sharing := map (λ x, s_addc x c) xs.
Definition v_subc (xs : list sharing) (c : Z) : list sharing := v_addc xs (sv_neg c).
Definition v_mulc (xs : list sharing) (c : Z) : list sharing := map (λ x, s_mulc x c) xs.
Definition getAdditiveInvVec (xs : list sharing) : list sharing := map s_neg xs.
Definition cv_sub (c : Z) (xs : list sharing) : list sharing :=
  v_addc (getAdditiveInvVec xs) c.

(** The last loop of the vector product. *)
Definition beaver (abc : sharing * sharing * sharing) (de : Z * Z) : sharing :=
  let '(a, b, c) := abc in let '(d, e) := de in
  s_addc (s_add (s_add c (s_mulc b d)) (s_mulc a e)) (sv_mul d e).

Definition v_mul (xs ys : list sharing) : M (list sharing) :=
  if negb (length xs =? length ys)%nat then throw not_equal_length
  else
    let n := length xs in
    let* t := getTriple n in
    let de := zip_with (λ x (abc : sharing * sharing * sharing), s_sub x abc.1.1) xs t
              ++ zip_with (λ y (abc : sharing * sharing * sharing), s_sub y abc.1.2) ys t in
    let* de_rec := open_recons_vec de in
    ret (zip_with beaver t (zip (take n de_rec) (drop n de_rec))).

(** [sharize]: the special party sends a random share to every other party
    and keeps the difference; the others store what they receive. *)
Definition others : list nat := filter (λ i, i ≠ sp_id) parties.
Definition sharize (secret : Z) : M sharing :=
  let* rs := mmap (λ _, getRand_sp 1 1000) others in
  let* received := lift (traverse sv_wire rs) in
  let r_sum := fold_left sv_add rs sv_zero in
  ret (take (sp_id - 1) received ++ sv_sub secret r_sum :: drop (sp_id - 1) received).

(** [getInv]: blind with a random sharing, invert in the clear at the
    special party, share the inverse, unblind. *)
Definition s_getInv (s : sharing) : M sharing :=
  let* r := getRand 1 1000 in
  let* u := s_mul s r in
  let* u_rec := lift (recons_at sp_id u) in
  let* i := lift (sv_inv u_rec) in
  let* s_inv := sharize i in
  s_mul s_inv r.

(** [operator/=(const Share &)], [operator/(const SV &, const Share &)]. *)
Definition s_div (x y : sharing) : M sharing := let* i := s_getInv y in s_mul x i.
Definition c_div (c : Z) (x : sharing) : M sharing := let* i := s_getInv x in ret (s_mulc i c).
Definition getMultiplicativeInvVec (one : Z) (xs : list sharing) : M (list sharing) :=
  mmap (c_div one) xs.

Definition getRandShares (mn mx : Z) (n : nat) : M (list sharing) :=
  mmap (λ _, getRand mn mx) (seq 0 n).
End Share.
