(* ===== verification/SharePF.v ===== *)
(** * Shares of field elements: the laws of [Share<PrimeField>]

    The instance of [ShareValue] for the prime field and, for each operation of
    [Share.v], the secret its result shares.  [Shares x v] reads "the local
    values [x] are shares of [v]"; the lemmas about it are in the hint database
    [share], and the protocols have rules for [runs]. *)
From stdpp Require Import base list numbers sets strings.
From Stdlib Require Import ZArith Lia.
From S2P Require Import Prelude NumberTheory Field FixedPoint Random TripleHandler Share.
#[local] Open Scope Z_scope.
#[local] Open Scope qmpc_scope.
Import PrimeFieldFacts.

Definition pf_value `{IntegerIO} : ShareValue := {|
  sv_zero := 0;
  sv_add := PrimeField.add;
  sv_sub := PrimeField.sub;
  sv_mul := PrimeField.mul;
  sv_neg := PrimeField.neg;
  sv_inv := PrimeField.getInv_checked;
  sv_wire := λ x, PrimeField.of_string (PrimeField.getStrVal x);
  sv_rand := RandGenerator.getRand_pf;
  sv_triple := TripleHandler.convert_pf
|}.

(** A configuration the parties can run in: the special party is one of them,
    and their number is a positive [int]. *)
Class ValidEnv (E : Env) : Prop := {
  sp_valid : (1 ≤ sp_id ≤ n_parties)%nat;
  n_valid : Z.of_nat n_parties < 2 ^ 31
}.

(** ** Running a protocol *)

Definition runs {A} (m : M A) (w : World) (P : A → World → Prop) : Prop :=
  ∃ a w', m w = Ok (a, w') ∧ P a w'.

(** The draws of [w'] are [a] joint and [s] special-party draws after those of [w]. *)
Definition moved (w : World) (a s : nat) (w' : World) : Prop :=
  all_draws w' = (all_draws w + a)%nat ∧ sp_draws w' = (sp_draws w + s)%nat.

Lemma runs_ret {A} (a : A) w (P : A → World → Prop) : P a w → runs (ret a) w P.
Proof. intros HP. by exists a, w. Qed.

Lemma runs_bind {A B} (m : M A) (f : A → M B) w P Q :
  runs m w P → (∀ a w', P a w' → runs (f a) w' Q) → runs (bind m f) w Q.
Proof.
  intros (a & w1 & H1 & HP) Hf. destruct (Hf a w1 HP) as (b & w2 & H2 & HQ).
  exists b, w2. split; [|done]. unfold bind. by rewrite H1.
Qed.

Lemma runs_mono {A} (m : M A) w (P Q : A → World → Prop) :
  runs m w P → (∀ a w', P a w' → Q a w') → runs m w Q.
Proof. intros (a & w1 & H1 & HP) HPQ. exists a, w1. auto. Qed.

Lemma runs_lift {A} (r : result A) a w (P : A → World → Prop) :
  r = Ok a → P a w → runs (lift r) w P.
Proof. intros -> HP. by exists a, w. Qed.

Lemma runs_lift_eq {A} (r : result A) a w :
  r = Ok a → runs (lift r) w (λ b w', b = a ∧ w' = w).
Proof. intros Hr. by eapply runs_lift. Qed.

Lemma moved_refl w : moved w 0 0 w.
Proof. unfold moved. lia. Qed.

Lemma moved_trans w a s w1 a' s' w2 :
  moved w a s w1 → moved w1 a' s' w2 → moved w (a + a') (s + s') w2.
Proof. unfold moved. lia. Qed.

Lemma moved_0 w w1 a s w2 : moved w 0 0 w1 → moved w1 a s w2 → moved w a s w2.
Proof. unfold moved. lia. Qed.

Lemma moved_0_r w w1 a s w2 : moved w a s w1 → moved w1 0 0 w2 → moved w a s w2.
Proof. unfold moved. lia. Qed.

(** Protocol loops, by the number of turns. *)
Lemma runs_mmap {A B} (f : A → M B) (l : list A) (R : A → B → Prop) (I : nat → World → Prop) k w :
  I k w →
  (∀ i x w, l !! i = Some x → I (k + i)%nat w →
     runs (f x) w (λ y w', R x y ∧ I (k + S i)%nat w')) →
  runs (mmap f l) w (λ ys w', Forall2 R l ys ∧ I (k + length l)%nat w').
Proof.
  revert k w; induction l as [|x l IH]; intros k w Hw Hf; cbn [mmap].
  - apply runs_ret. split; [constructor|]. by rewrite Nat.add_0_r.
  - eapply runs_bind; [apply (Hf 0%nat x); [done|by rewrite Nat.add_0_r]|].
    intros y w1 [Hy H1]. eapply runs_bind.
    + apply (IH (k + 1)%nat w1 H1). intros i x' w' Hi HI.
      replace (k + 1 + S i)%nat with (k + S (S i))%nat by lia.
      apply (Hf (S i) x'); [done|]. by replace (k + S i)%nat with (k + 1 + i)%nat by lia.
    + intros ys w2 [Hys H2]. apply runs_ret. split; [by constructor|].
      cbn [length]. by replace (k + S (length l))%nat with (k + 1 + length l)%nat by lia.
Qed.

Lemma runs_mfold_seq {B} (f : B → nat → M B) k len (R : nat → B → World → Prop) b w :
  R k b w →
  (∀ i b w, (k ≤ i < k + len)%nat → R i b w → runs (f b i) w (R (S i))) →
  runs (mfold f (seq k len) b) w (R (k + len)%nat).
Proof.
  revert k b w; induction len as [|len IH]; intros k b w Hb Hf; cbn [seq mfold].
  - apply runs_ret. by rewrite Nat.add_0_r.
  - eapply runs_bind; [apply (Hf k); [lia|exact Hb]|]. intros b1 w1 H1.
    replace (k + S len)%nat with (S k + len)%nat by lia.
    apply IH; [exact H1|]. intros i b' w' Hi. apply Hf. lia.
Qed.

Section Laws.
Context `{IO : IntegerIO} `{E : Env} `{V : !ValidEnv E}.
#[local] Existing Instance pf_value.
Import PrimeField.

Definition Shares (x : sharing) (v : Z) : Prop :=
  length x = n_parties ∧ Forall wf x ∧ Zsum x ≅ v.

#[global] Instance Shares_proper x : Proper (cong ==> iff) (Shares x).
Proof. intros v v' Hv. unfold Shares. by rewrite Hv. Qed.

Lemma Shares_cong x v v' : Shares x v → v ≅ v' → Shares x v'.
Proof. intros Hx Hv. by rewrite <- Hv. Qed.

Lemma Shares_length x v : Shares x v → length x = n_parties.
Proof. by intros (? & _). Qed.

Lemma n_canonical : canonical (Z.of_nat n_parties).
Proof. pose proof n_valid. unfold canonical, p. lia. Qed.

(** *** Local operators *)

Lemma Zsum_zip_cong (f : Z → Z → Z) (g : Z → Z → Z) x y :
  (∀ a b, f a b ≅ g a b) → Zsum (zip_with f x y) ≅ Zsum (zip_with g x y).
Proof.
  intros Hf. revert y; induction x as [|a x IH]; intros [|b y]; try reflexivity.
  simpl. rewrite !Zsum_cons. by rewrite Hf, IH.
Qed.

Lemma Zsum_zip_add x y :
  length x = length y → Zsum (zip_with Z.add x y) = Zsum x + Zsum y.
Proof.
  revert y; induction x as [|a x IH]; intros [|b y] Hl; try done.
  simpl in *. rewrite !Zsum_cons, IH by lia. lia.
Qed.

Lemma Zsum_zip_sub x y :
  length x = length y → Zsum (zip_with Z.sub x y) = Zsum x - Zsum y.
Proof.
  revert y; induction x as [|a x IH]; intros [|b y] Hl; try done.
  simpl in *. rewrite !Zsum_cons, IH by lia. lia.
Qed.

Lemma Forall_zip_with {A B C} (f : A → B → C) (P : C → Prop) x y :
  (∀ a b, P (f a b)) → Forall P (zip_with f x y).
Proof. intros Hf. revert y; induction x; intros [|]; simpl; constructor; auto. Qed.

Lemma Shares_add x y v u : Shares x v → Shares y u → Shares (s_add x y) (v + u).
Proof.
  intros (Hx & _ & Hv) (Hy & _ & Hu). split; [|split].
  - unfold s_add. rewrite length_zip_with. lia.
  - apply Forall_zip_with. intros. apply canonical_wf, add_canonical.
  - unfold s_add. rewrite (Zsum_zip_cong _ Z.add) by apply add_cong_add.
    rewrite Zsum_zip_add by lia. by rewrite Hv, Hu.
Qed.

Lemma Shares_sub x y v u : Shares x v → Shares y u → Shares (s_sub x y) (v - u).
Proof.
  intros (Hx & _ & Hv) (Hy & _ & Hu). split; [|split].
  - unfold s_sub. rewrite length_zip_with. lia.
  - apply Forall_zip_with. intros. apply canonical_wf, sub_canonical.
  - unfold s_sub. rewrite (Zsum_zip_cong _ Z.sub) by apply sub_cong_sub.
    rewrite Zsum_zip_sub by lia. by rewrite Hv, Hu.
Qed.

Lemma Zsum_map_neg x : Zsum (map neg x) ≅ - Zsum x.
Proof.
  induction x as [|a x IH]; [reflexivity|].
  simpl. rewrite !Zsum_cons. change (sv_neg a) with (neg a).
  rewrite neg_cong_neg, IH. cong_ring.
Qed.

Lemma Shares_neg x v : Shares x v → Shares (s_neg x) (- v).
Proof.
  intros (Hx & Hw & Hv). split; [|split].
  - unfold s_neg. by rewrite length_map.
  - unfold s_neg. apply Forall_fmap. eapply Forall_impl; [exact Hw|]. apply neg_wf.
  - unfold s_neg. by rewrite Zsum_map_neg, Hv.
Qed.

Lemma Zsum_map_mulc x c : Zsum (map (λ v, mul v c) x) ≅ Zsum x * c.
Proof.
  induction x as [|a x IH]; [reflexivity|].
  simpl. rewrite !Zsum_cons, mul_cong_mul, IH. cong_ring.
Qed.

Lemma Shares_mulc x v c : Shares x v → Shares (s_mulc x c) (v * c).
Proof.
  intros (Hx & Hw & Hv). unfold s_mulc. split; [|split].
  - by rewrite length_map.
  - apply Forall_fmap, Forall_true. intros. apply canonical_wf, mul_canonical.
  - change (sv_mul) with mul. by rewrite Zsum_map_mulc, Hv.
Qed.

(** Adding at one index of a list. *)
Lemma Zsum_at_sp (f g : Z → Z) d k x :
  (∀ v, f v ≅ v + d) → (∀ v, g v ≅ v) →
  Zsum (zip_with (λ i v, if (i =? sp_id)%nat then f v else g v) (seq k (length x)) x)
  ≅ Zsum x + (if decide (k ≤ sp_id < k + length x)%nat then d else 0).
Proof.
  intros Hf Hg. revert k; induction x as [|a x IH]; intros k; cbn [length seq zip_with].
  - rewrite decide_False by lia. rewrite !Zsum_nil. reflexivity.
  - rewrite !Zsum_cons, IH. destruct (Nat.eqb_spec k sp_id) as [->|Hne].
    + rewrite Hf, (decide_False (P := (S sp_id ≤ _ < _)%nat)) by lia.
      rewrite decide_True by lia. cong_ring.
    + rewrite Hg. destruct (decide (S k ≤ _ < _)%nat);
        [rewrite decide_True by lia|rewrite decide_False by lia]; cong_ring.
Qed.

Lemma Shares_at_sp (f : Z → Z) d x v :
  (∀ a, f a ≅ a + d) → (∀ a, wf (f a)) → Shares x v →
  Shares (zip_with (λ i a, if (i =? sp_id)%nat then f a else a) parties x) (v + d).
Proof.
  intros Hf Hfw (Hx & Hw & Hv). split; [|split].
  - unfold parties. rewrite length_zip_with, length_seq. lia.
  - apply Forall_forall. intros z Hz.
    apply elem_of_lookup_zip_with in Hz as (i & j & a & -> & _ & Ha).
    destruct (_ =? _)%nat; [done|]. by eapply (Forall_lookup_1 wf x).
  - unfold parties. rewrite <- Hx. rewrite (Zsum_at_sp f (λ a, a) d) by (done || reflexivity).
    pose proof sp_valid. rewrite decide_True by lia. by rewrite Hv.
Qed.

Lemma Shares_addc x v c : Shares x v → Shares (s_addc x c) (v + c).
Proof.
  intros Hx. apply (Shares_at_sp (λ a, add a c)); [|intros; apply canonical_wf, add_canonical|done].
  intros a. apply add_cong_add.
Qed.

Lemma Shares_subc x v c : Shares x v → Shares (s_subc x c) (v - c).
Proof.
  intros Hx. change (v - c) with (v + (- c)).
  apply (Shares_at_sp (λ a, sub a c)); [|intros; apply canonical_wf, sub_canonical|done].
  intros a. rewrite sub_cong_sub. cong_ring.
Qed.

Lemma Shares_c_sub x v c : Shares x v → Shares (c_sub c x) (c - v).
Proof.
  intros Hx. eapply Shares_cong; [apply Shares_addc, Shares_neg, Hx|]. cong_ring.
Qed.

Lemma wf_0 : wf 0.
Proof. unfold wf, p; lia. Qed.

Lemma Shares_lit c : wf c → Shares (s_lit c) (Z.of_nat n_parties * c).
Proof.
  intros Hc. unfold s_lit. split; [|split].
  - apply length_replicate.
  - by apply Forall_replicate.
  - by rewrite Zsum_replicate.
Qed.

Lemma Shares_zero : Shares s_zero 0.
Proof.
  eapply Shares_cong; [apply (Shares_lit 0), wf_0|]. by rewrite Z.mul_0_r.
Qed.

Lemma Shares_const c : Shares (getConstantShare c) c.
Proof. eapply Shares_cong; [apply Shares_addc, Shares_zero|]. reflexivity. Qed.

(** *** Reconstruction *)

Lemma wire_ok x : wf x → sv_wire x = Ok (x mod p).
Proof. apply of_string_getStrVal. Qed.

Lemma recons_fold me l k acc :
  Forall wf l → canonical acc →
  fold_left (λ acc '(pt, v),
      rbind acc (λ a, if (pt =? me)%nat then Ok (sv_add a v)
                      else rbind (sv_wire v) (λ u, Ok (sv_add a u))))
    (zip (seq k (length l)) l) (Ok acc)
  = Ok ((acc + Zsum l) mod p).
Proof.
  revert k acc; induction l as [|x l IH]; intros k acc Hl Hacc; cbn [length seq zip zip_with fold_left].
  - by rewrite Zsum_nil, Z.add_0_r, Z.mod_small.
  - apply Forall_cons in Hl as [Hx Hl]. rewrite rbind_ok, wire_ok, rbind_ok by done.
    assert (∀ y, y ≅ x → add acc y ≅ acc + x) as Hy
      by (intros y Hy; by rewrite add_cong_add, Hy).
    destruct (_ =? _)%nat; rewrite IH by (done || apply add_canonical); f_equal;
      rewrite Zsum_cons; change (?a mod p = ?b mod p) with (a ≅ b).
    + rewrite Hy by reflexivity. cong_ring.
    + rewrite Hy by apply mod_cong. cong_ring.
Qed.

Lemma canonical_0 : canonical 0.
Proof. unfold canonical, p; lia. Qed.

Lemma recons_ok me x v : Shares x v → recons_at me x = Ok (v mod p).
Proof.
  intros (Hx & Hw & Hv). unfold recons_at, parties. rewrite <- Hx.
  rewrite (recons_fold me x 1 sv_zero) by (done || apply canonical_0). by f_equal.
Qed.

(** One turn of the outer loop adds one column. *)
Lemma add_column (xs : list sharing) (f : sharing → Z) k :
  (∀ x, x ∈ xs → take (S k) x = take k x ++ [nth k x sv_zero]) →
  (∀ x, x ∈ xs → f x ≅ nth k x sv_zero) →
  zip_with sv_add (map (λ x, Zsum (take k x) mod p) xs) (map f xs)
  = map (λ x, Zsum (take (S k) x) mod p) xs.
Proof.
  intros Ht Hf. induction xs as [|x l IH]; [done|]. simpl. f_equal.
  - rewrite Ht by set_solver.
    change (add (Zsum (take k x) mod p) (f x) = Zsum (take k x ++ [nth k x sv_zero]) mod p).
    apply cong_canonical; [apply add_canonical|apply canonical_mod|].
    rewrite add_cong_add, !mod_cong, Zsum_app, Zsum_singleton, Hf by set_solver.
    reflexivity.
  - apply IH; intros; [apply Ht|apply Hf]; set_solver.
Qed.

Lemma recons_vec_ok me xs vs :
  Forall2 Shares xs vs → recons_vec_at me xs = Ok (map (λ v, v mod p) vs).
Proof.
  intros Hxs. unfold recons_vec_at, parties.
  assert (∀ k, (k ≤ n_parties)%nat →
    fold_left (λ acc pt,
      rbind acc (λ a,
      rbind (if (pt =? me)%nat then Ok (column pt xs)
             else traverse sv_wire (column pt xs)) (λ col,
      Ok (zip_with sv_add a col)))) (seq 1 k) (Ok (map (λ _, sv_zero) xs))
    = Ok (map (λ x, Zsum (take k x) mod p) xs)) as Hk.
  { induction k as [|k IH]; intros Hle; cbn [seq].
    - reflexivity.
    - change (1 :: seq 2 k)%nat with (seq 1 (S k)). rewrite seq_S, fold_left_app, IH by lia.
      cbn [fold_left]. rewrite rbind_ok.
      assert (∀ x, x ∈ xs → (k < length x)%nat ∧ wf (nth k x sv_zero)
                   ∧ take (S k) x = take k x ++ [nth k x sv_zero]) as Hin.
      { intros x (i & Hi)%list_elem_of_lookup.
        destruct (Forall2_lookup_l _ _ _ _ _ Hxs Hi) as (v & _ & Hl & Hw & _).
        assert (x !! k = Some (nth k x sv_zero)) as Hn
          by (apply nth_lookup_Some_2 || (destruct (x !! k) eqn:Ek;
                [by rewrite (nth_lookup_Some _ _ _ _ Ek)|apply lookup_ge_None in Ek; lia])).
        split_and!; [lia|by eapply Forall_lookup_1|by apply take_S_r]. }
      assert (column (1 + k) xs = map (λ x, nth k x sv_zero) xs) as Hcol
        by (unfold column; apply map_ext; intros; f_equal; lia).
      assert (∀ f : sharing → Z, (∀ x, x ∈ xs → f x ≅ nth k x sv_zero) →
        zip_with sv_add (map (λ x, Zsum (take k x) mod p) xs) (map f xs)
        = map (λ x, Zsum (take (S k) x) mod p) xs) as Hzip
        by (intros f Hf; apply add_column; [intros x Hx; by apply Hin|exact Hf]).
      destruct (_ =? _)%nat.
      + rewrite rbind_ok, Hcol, Hzip; [done|]. reflexivity.
      + rewrite Hcol, (traverse_map _ (λ v, v mod p)).
        * rewrite rbind_ok, map_map, Hzip; [done|]. intros; apply mod_cong.
        * intros y Hy. apply list_elem_of_In, in_map_iff in Hy as (x & <- & Hx).
          apply wire_ok, Hin. by apply list_elem_of_In. }
  rewrite (Hk n_parties) by lia. f_equal. clear Hk.
  induction Hxs as [|x v xs' vs' (Hl & Hw & Hv) _ IH]; [done|]. simpl. f_equal; [|done].
  by rewrite take_ge by lia.
Qed.
End Laws.

Create HintDb share discriminated.
#[export] Hint Resolve Shares_add Shares_sub Shares_neg Shares_mulc Shares_addc Shares_subc
  Shares_c_sub Shares_zero Shares_const : share.

(** Close [Shares x v] from the shape of [x], up to congruence of [v]. *)
Ltac shares :=
  eapply Shares_cong; [solve [eauto 12 with share]|try cong_ring].

Section Protocols.
Context `{IO : IntegerIO} `{E : Env} `{V : !ValidEnv E}.
#[local] Existing Instance pf_value.
Import PrimeField.

(** *** Random sharings *)

Lemma parties_length : length parties = n_parties.
Proof. apply length_seq. Qed.

Lemma getRand_runs mn mx (w : World) :
  0 ≤ mn < mx → mx < 2 ^ 63 →
  runs (getRand mn mx) w (λ x w',
    x = map (λ i, entropy i (draw_pos w i) mod (mx - mn) + mn) parties
    ∧ Shares x (Zsum x) ∧ moved w 1 0 w' ∧ triples w' = triples w).
Proof.
  intros H1 H2. unfold getRand, runs. eexists _, _. split.
  - rewrite (traverse_map _ (λ i, entropy i (draw_pos w i) mod (mx - mn) + mn)).
    + rewrite rbind_ok. reflexivity.
    + intros i _. apply RandomFacts.getRand_pf_ok; lia.
  - split_and!; [reflexivity| |unfold moved; simpl; lia|reflexivity].
    split_and!; [by rewrite length_map, parties_length| |reflexivity].
    apply Forall_fmap, Forall_true. intros i. simpl.
    pose proof (Z.mod_pos_bound (entropy i (draw_pos w i)) (mx - mn) ltac:(lia)).
    unfold wf, p. lia.
Qed.

(** *** Multiplication *)

Lemma map_const_replicate {A B} (c : B) (l : list A) : map (λ _, c) l = replicate (length l) c.
Proof. induction l; simpl; congruence. Qed.

Definition triple_pf : sharing * sharing * sharing :=
  (s_lit 1, s_lit 1, s_lit (Z.of_nat n_parties)).

Lemma triple_at_ok k : triple_at k = Ok triple_pf.
Proof.
  unfold triple_at.
  rewrite (traverse_map _ (λ _, (1, 1, Z.of_nat n_parties))).
  - rewrite rbind_ok, !map_map. simpl. rewrite !map_const_replicate, parties_length.
    reflexivity.
  - intros i _. apply TripleFacts.convert_pf_ok. pose proof n_canonical. unfold canonical in *. lia.
Qed.

Lemma getTriple1_runs w :
  runs getTriple1 w (λ t w', t = triple_pf ∧ moved w 0 0 w').
Proof.
  exists triple_pf, (mkWorld (all_draws w) (sp_draws w) (S (triples w))).
  unfold getTriple1. rewrite triple_at_ok. split; [reflexivity|].
  split; [reflexivity|]. unfold moved. simpl. lia.
Qed.

Lemma getTriple_runs k w :
  runs (getTriple k) w (λ ts w', ts = replicate k triple_pf ∧ moved w 0 0 w').
Proof.
  unfold getTriple. eapply runs_mono.
  - apply (runs_mmap _ _ (λ _ t, t = triple_pf) (λ _ w', moved w 0 0 w') 0 w (moved_refl w)).
    intros i j w1 _ H1. eapply runs_mono; [apply getTriple1_runs|].
    intros t w2 [Ht H2]. split; [exact Ht|]. by eapply moved_0.
  - cbv beta. intros ts w' [Hts Hw']. split; [|exact Hw'].
    apply Forall2_length in Hts as Hlen. rewrite length_seq in Hlen.
    subst k. clear Hw'. revert Hts. generalize (seq 0 (length ts)). induction ts as [|t ts IH]; [done|].
    intros l Hts. inversion Hts; subst. simpl. f_equal. by eapply IH.
Qed.

Lemma wf_1 : wf 1.
Proof. unfold wf, p; lia. Qed.

Lemma Shares_one_lit : Shares (s_lit 1) (Z.of_nat n_parties).
Proof. eapply Shares_cong; [apply Shares_lit, wf_1|]. cong_ring. Qed.

Lemma Shares_n_lit :
  Shares (s_lit (Z.of_nat n_parties)) (Z.of_nat n_parties * Z.of_nat n_parties).
Proof. apply Shares_lit, canonical_wf, n_canonical. Qed.

(** The Beaver combination of the constant triple. *)
Lemma beaver_ok v u d e :
  d ≅ v - Z.of_nat n_parties → e ≅ u - Z.of_nat n_parties →
  Shares (beaver triple_pf (d, e)) (v * u).
Proof.
  intros Hd He. unfold beaver, triple_pf. eapply Shares_cong.
  - apply Shares_addc, Shares_add; [apply Shares_add|];
      [apply Shares_n_lit|apply Shares_mulc, Shares_one_lit|apply Shares_mulc, Shares_one_lit].
  - change (sv_mul d e) with (mul d e). rewrite mul_cong_mul, Hd, He. cong_ring.
Qed.

Lemma open_recons_runs x v w :
  Shares x v → runs (open_recons x) w (λ c w', c = v mod p ∧ w' = w).
Proof. intros Hx. eapply runs_lift; [by apply recons_ok|auto]. Qed.

Lemma open_recons_vec_runs xs vs w :
  Forall2 Shares xs vs →
  runs (open_recons_vec xs) w (λ cs w', cs = map (λ v, v mod p) vs ∧ w' = w).
Proof. intros Hx. eapply runs_lift; [by apply recons_vec_ok|auto]. Qed.

Lemma s_mul_runs x y v u w :
  Shares x v → Shares y u →
  runs (s_mul x y) w (λ z w', Shares z (v * u) ∧ moved w 0 0 w').
Proof.
  intros Hx Hy. unfold s_mul. eapply runs_bind; [apply getTriple_runs|].
  intros ts w1 [-> Hw1]. cbn [replicate]. unfold triple_pf.
  eapply runs_bind.
  { apply (open_recons_vec_runs _ [v - Z.of_nat n_parties; u - Z.of_nat n_parties]).
    apply Forall2_cons; split; [|apply Forall2_cons; split; [|constructor]];
      apply Shares_sub; auto using Shares_one_lit. }
  intros cs w2 [-> ->]. cbn [map]. apply runs_ret. split; [|done].
  apply (beaver_ok v u); apply mod_cong.
Qed.

(** *** Vectors *)

Lemma Forall2_zip_mul xs ys vs us :
  Forall2 Shares xs vs → Forall2 Shares ys us → length xs = length ys →
  Forall2 Shares
    (zip_with beaver (replicate (length xs) triple_pf)
      (zip (map (λ v, (v - Z.of_nat n_parties) mod p) vs)
           (map (λ u, (u - Z.of_nat n_parties) mod p) us)))
    (zip_with Z.mul vs us).
Proof.
  intros Hx. revert ys us. induction Hx as [|x v xs vs Hv Hx IH]; intros ys us Hy Hl; [constructor|].
  destruct Hy as [|y u ys us Hu Hy]; [done|]. simpl in *. constructor.
  - apply (beaver_ok v u); apply mod_cong.
  - apply (IH ys); auto.
Qed.

Lemma Forall2_sub_lit {A} (sel : sharing * sharing * sharing → A) xs vs k :
  Forall2 Shares xs vs → k = length xs →
  Forall2 Shares (zip_with (λ x (_ : sharing * sharing * sharing), s_sub x (s_lit 1))
                    xs (replicate k triple_pf))
    (map (λ v, v - Z.of_nat n_parties) vs).
Proof.
  intros Hx ->. induction Hx as [|x v xs vs Hv Hx IH]; simpl; constructor; auto.
  apply Shares_sub; [done|apply Shares_one_lit].
Qed.

Lemma zip_with_replicate_ext {A B C} (f g : A → B → C) xs k b :
  (∀ a, f a b = g a b) → zip_with f xs (replicate k b) = zip_with g xs (replicate k b).
Proof. intros Hf. revert k; induction xs; intros [|k]; simpl; f_equal; auto. Qed.

Lemma v_mul_runs xs ys vs us w :
  Forall2 Shares xs vs → Forall2 Shares ys us → length xs = length ys →
  runs (v_mul xs ys) w (λ zs w', Forall2 Shares zs (zip_with Z.mul vs us) ∧ moved w 0 0 w').
Proof.
  intros Hx Hy Hl. unfold v_mul. rewrite (proj2 (Nat.eqb_eq _ _) Hl). cbn [negb].
  eapply runs_bind; [apply getTriple_runs|]. intros ts w1 [-> Hw1].
  eapply runs_bind.
  { apply (open_recons_vec_runs _
      (map (λ v, v - Z.of_nat n_parties) vs ++ map (λ u, u - Z.of_nat n_parties) us)).
    rewrite (zip_with_replicate_ext _ (λ x _, s_sub x (s_lit 1))) by done.
    rewrite (zip_with_replicate_ext (λ y abc, s_sub y abc.1.2) (λ x _, s_sub x (s_lit 1))) by done.
    apply Forall2_app; apply (Forall2_sub_lit (λ t, t)); auto. }
  intros cs w2 [-> ->]. apply runs_ret. split; [|done].
  pose proof (Forall2_length _ _ _ Hx). pose proof (Forall2_length _ _ _ Hy).
  rewrite map_app, !map_map, take_app_length', drop_app_length' by (rewrite length_map; lia).
  by apply (Forall2_zip_mul xs ys).
Qed.

Lemma v_mul_mismatch xs ys w :
  length xs ≠ length ys → v_mul xs ys w = Throw not_equal_length.
Proof.
  intros Hl. unfold v_mul. by rewrite (proj2 (Nat.eqb_neq _ _) Hl).
Qed.

(** *** Sharing a value *)

Lemma getRand_sp_runs mn mx (w : World) :
  0 ≤ mn < mx → mx < 2 ^ 63 →
  runs (getRand_sp mn mx) w (λ x w', mn ≤ x < mx ∧ moved w 0 1 w').
Proof.
  intros H1 H2. eexists _, _. unfold getRand_sp. split.
  - change (sv_rand (entropy sp_id (draw_pos w sp_id)) mn mx)
      with (RandGenerator.getRand_pf (entropy sp_id (draw_pos w sp_id)) mn mx).
    rewrite (proj1 (RandomFacts.getRand_pf_ok _ _ _ H1 H2)), rbind_ok. reflexivity.
  - split; [apply RandomFacts.getRand_pf_ok; done|]. unfold moved. simpl. lia.
Qed.

Lemma others_length : length others = (n_parties - 1)%nat.
Proof.
  pose proof sp_valid. unfold others, parties.
  replace n_parties with (sp_id - 1 + S (n_parties - sp_id))%nat by lia.
  rewrite seq_app, filter_app. cbn [seq]. rewrite filter_cons_False by (intros Hne; apply Hne; lia).
  assert (∀ k j, (∀ i, (k ≤ i < k + j)%nat → i ≠ sp_id) → filter (λ i, i ≠ sp_id) (seq k j) = seq k j) as Hf.
  { intros k j. revert k; induction j as [|j IH]; intros k Hk; [done|]. cbn [seq].
    rewrite filter_cons_True by (apply Hk; lia). f_equal. apply IH. intros; apply Hk; lia. }
  rewrite !Hf by (intros; lia). rewrite length_app, !length_seq. lia.
Qed.

Lemma fold_add_cong rs acc : fold_left sv_add rs acc ≅ acc + Zsum rs.
Proof.
  revert acc; induction rs as [|r rs IH]; intros acc; cbn [fold_left].
  - rewrite Zsum_nil, Z.add_0_r. reflexivity.
  - rewrite IH, Zsum_cons. change (sv_add acc r) with (add acc r).
    rewrite add_cong_add. cong_ring.
Qed.

Lemma wire_canonical x : canonical x → sv_wire x = Ok x.
Proof. intros Hx. rewrite wire_ok by (by apply canonical_wf). by rewrite Z.mod_small. Qed.

(** Whatever the special party draws, it keeps the difference. *)
Lemma sharize_runs secret w :
  runs (sharize secret) w (λ x w', Shares x secret ∧ moved w 0 (n_parties - 1) w').
Proof.
  unfold sharize. eapply runs_bind.
  { apply (runs_mmap _ _ (λ _ r, 1 ≤ r < 1000) (λ k w', moved w 0 k w') 0 w (moved_refl w)).
    intros i j w1 _ H1. eapply runs_mono; [by apply getRand_sp_runs|].
    intros r w2 [Hr H2]. split; [exact Hr|]. cbn [Nat.add] in *.
    replace (S i) with (i + 1)%nat by lia. by eapply (moved_trans w 0 i w1 0 1). }
  intros rs w1 [Hrs Hw1]. cbn [Nat.add] in Hw1. rewrite others_length in Hw1.
  pose proof (Forall2_length _ _ _ Hrs) as Hlen. rewrite others_length in Hlen.
  assert (∀ r, r ∈ rs → canonical r) as Hcan.
  { intros r (i & Hi)%list_elem_of_lookup.
    destruct (Forall2_lookup_r _ _ _ _ _ Hrs Hi) as (_ & _ & Hr). unfold canonical, p. lia. }
  eapply runs_bind.
  { apply (runs_lift_eq _ rs). rewrite (traverse_map _ (λ x, x)), map_id; [done|]. intros; apply wire_canonical; auto. }
  intros rs' w2 [-> ->]. apply runs_ret. split; [|exact Hw1].
  pose proof sp_valid. set (d := sv_sub secret _).
  assert (canonical d) as Hd by apply sub_canonical. split; [|split].
  - rewrite length_app, length_take. cbn [length]. rewrite length_drop. lia.
  - apply Forall_app. split; [|constructor; [by apply canonical_wf|]];
      apply Forall_forall; intros r Hr; apply canonical_wf, Hcan;
      rewrite <- (take_drop (sp_id - 1) rs); apply elem_of_app; auto.
  - rewrite Zsum_app, Zsum_cons.
    transitivity (Zsum (take (sp_id - 1) rs) + Zsum (drop (sp_id - 1) rs) + d); [cong_ring|].
    rewrite <- Zsum_app, take_drop. unfold d.
    change (sv_sub secret ?x) with (sub secret x). rewrite sub_cong_sub, fold_add_cong.
    change (sv_zero) with 0. cong_ring.
Qed.

(** *** The inverse *)

Lemma Zsum_bounds l lo hi :
  (∀ x, x ∈ l → lo ≤ x ≤ hi) →
  Z.of_nat (length l) * lo ≤ Zsum l ≤ Z.of_nat (length l) * hi.
Proof.
  induction l as [|x l IH]; intros Hl; [rewrite Zsum_nil; simpl; lia|].
  rewrite Zsum_cons. cbn [length]. rewrite Nat2Z.inj_succ.
  pose proof (Hl x (list_elem_of_here _ _)) as Hx.
  pose proof (IH (λ y Hy, Hl y (list_elem_of_further _ _ _ Hy))) as Hs. lia.
Qed.

(** The blinding sum of draws from [1, 1000) is never zero in the field. *)
Lemma blind_nonzero (w : World) :
  ¬ Zsum (map (λ i, entropy i (draw_pos w i) mod (1000 - 1) + 1) parties) ≅ 0.
Proof.
  set (l := map _ _).
  assert (∀ x, x ∈ l → 1 ≤ x ≤ 999) as Hl.
  { intros x (i & -> & _)%list_elem_of_fmap.
    pose proof (Z.mod_pos_bound (entropy i (draw_pos w i)) (1000 - 1) ltac:(lia)). lia. }
  pose proof (Zsum_bounds l _ _ Hl) as Hb.
  replace (length l) with n_parties in Hb by (unfold l; by rewrite length_map, parties_length). pose proof n_valid. pose proof sp_valid.
  intros Hc. apply cong_canonical in Hc; unfold canonical, p; lia.
Qed.

Lemma getInv_unique x y : ¬ x ≅ 0 → y * x ≅ 1 → y ≅ getInv x.
Proof.
  intros Hx Hy. transitivity (y * x * getInv x).
  - transitivity (y * (x * getInv x)); [|cong_ring]. rewrite getInv_spec by done. cong_ring.
  - rewrite Hy. cong_ring.
Qed.

Lemma getInv_zero x : x ≅ 0 → getInv x = 0.
Proof.
  intros Hx. rewrite getInv_pow. unfold cong in Hx. rewrite Zmod_0_l in Hx.
  rewrite <- Z.mod_pow_l, Hx, Z.pow_0_l; [reflexivity|unfold p; lia].
Qed.

Lemma cong_0_mul x y : x * y ≅ 0 → x ≅ 0 ∨ y ≅ 0.
Proof.
  unfold cong. rewrite Zmod_0_l. intros Hxy.
  destruct (prime_mult_mod p x y prime_p Hxy); auto.
Qed.

Lemma s_getInv_runs x v w :
  Shares x v →
  runs (s_getInv x) w (λ y w', Shares y (getInv v) ∧ moved w 1 (n_parties - 1) w').
Proof.
  intros Hx. unfold s_getInv. eapply runs_bind; [by apply (getRand_runs 1 1000)|].
  intros r w1 (Hdef & Hr & Hw1 & _). pose proof (blind_nonzero w) as Hnz.
  change (λ i, entropy i (draw_pos w i) mod (1000 - 1) + 1)
    with (λ i, entropy i (draw_pos w i) mod (1000 - 1) + 1) in Hnz.
  rewrite <- Hdef in Hnz. clear Hdef. revert Hr Hnz. generalize (Zsum r). intros ρ Hr Hnz.
  eapply runs_bind; [by apply s_mul_runs|]. intros u w2 [Hu Hw2].
  eapply runs_bind; [by apply (open_recons_runs u)|]. intros c w3 [-> ->].
  eapply runs_bind.
  { apply runs_lift_eq, getInv_checked_ok, canonical_wf, canonical_mod. }
  intros i w4 [-> ->]. eapply runs_bind; [apply sharize_runs|].
  intros si w5 [Hsi Hw5]. eapply runs_mono; [by apply s_mul_runs|].
  intros y w6 [Hy Hw6]. split.
  - eapply Shares_cong; [exact Hy|].
    destruct (decide (v ≅ 0)) as [Hv|Hv].
    + rewrite !getInv_zero; [cong_ring|done|]. rewrite mod_cong, Hv. cong_ring.
    + apply getInv_unique; [done|].
      assert (¬ (v * ρ) mod p ≅ 0) as Hvr by (rewrite mod_cong; intros [|]%cong_0_mul; auto).
      pose proof (getInv_spec _ Hvr) as Hi. rewrite mod_cong in Hi at 1.
      rewrite <- Hi. cong_ring.
  - eapply moved_0_r; [|exact Hw6].
    apply (moved_trans w 1 0 w2 0 (n_parties - 1)); [|exact Hw5].
    by eapply moved_0_r.
Qed.
End Protocols.

(** ** A concrete environment *)

(** Three parties, the second one special. *)
Definition demo_env : Env := {|
  n_parties := 3;
  sp_id := 2;
  entropy := λ i k, Z.of_nat (17 * i + 5 * k + 3);
  bts := λ k i, (3, 4, 36)
|}.

#[export] Instance demo_valid : ValidEnv demo_env.
Proof. split; simpl; lia. Qed.

Definition world0 : World := mkWorld 0 0 0.

(** Discharge [Shares [..] v] on literals. *)
Ltac shares_lit :=
  split_and!; [reflexivity|repeat constructor; unfold PrimeField.wf, PrimeField.p; lia|reflexivity].

(** * Theorems *)

(** C35: whatever well-formed local values the parties hold, [open] and [recons]
    give every party the same field element, their sum; in vector form, the
    same for each share of the vector. *)
Theorem recons_agreement {IO : IntegerIO} {E : Env} {V : ValidEnv E} (me : nat) (xs : list sharing) :
  Forall (λ x, length x = n_parties ∧ Forall PrimeField.wf x) xs →
  @recons_vec_at pf_value E me xs = Ok (map (λ x, Zsum x mod PrimeField.p) xs)
  ∧ traverse (@recons_at pf_value E me) xs = Ok (map (λ x, Zsum x mod PrimeField.p) xs).
Proof.
  intros Hxs.
  assert (Forall2 Shares xs (map Zsum xs)) as Hsh.
  { induction Hxs as [|x xs [Hl Hw] _ IH]; simpl; constructor; [|done]. by split_and!. }
  split.
  - rewrite (recons_vec_ok me xs _ Hsh). by rewrite map_map.
  - apply traverse_map. intros x Hx. apply recons_ok.
    rewrite Forall_forall in Hxs. destruct (Hxs x Hx). by split_and!.
Qed.

Lemma recons_agreement_witness :
  @recons_vec_at (@pf_value decimal_io) demo_env 3 [[5; 6; 7]; [PrimeField.p; 0; 1]] = Ok [18; 1].
Proof.
  apply (@recons_agreement decimal_io demo_env _ 3 [[5; 6; 7]; [PrimeField.p; 0; 1]]).
  repeat constructor; unfold PrimeField.wf, PrimeField.p; lia.
Defined.

(** The share operators with a public operand and between shares compute on
    the secrets: adding, subtracting or negating sharings, adding a constant at
    the special party only, scaling every local value. *)
Theorem local_operators_shared {IO : IntegerIO} {E : Env} {V : ValidEnv E} (x y : sharing) (v u c : Z) :
  Shares x v → Shares y u →
  @recons_at pf_value E sp_id (@s_add pf_value x y) = Ok (PrimeField.add v u)
  ∧ @recons_at pf_value E sp_id (@s_sub pf_value x y) = Ok ((v - u) mod PrimeField.p)
  ∧ @recons_at pf_value E sp_id (@s_neg pf_value x) = Ok ((- v) mod PrimeField.p)
  ∧ @recons_at pf_value E sp_id (@s_addc pf_value E x c) = Ok (PrimeField.add v c)
  ∧ @recons_at pf_value E sp_id (@s_subc pf_value E x c) = Ok ((v - c) mod PrimeField.p)
  ∧ @recons_at pf_value E sp_id (@c_sub pf_value E c x) = Ok ((c - v) mod PrimeField.p)
  ∧ @recons_at pf_value E sp_id (@s_mulc pf_value x c) = Ok (PrimeField.mul v c)
  ∧ @recons_at pf_value E sp_id (@getConstantShare pf_value E c) = Ok (c mod PrimeField.p).
Proof. intros Hx Hy. split_and!; apply recons_ok; auto with share. Qed.

Lemma local_operators_shared_witness :
  @recons_at (@pf_value decimal_io) demo_env 2
    (@s_addc (@pf_value decimal_io) demo_env [5; 6; 7] 100) = Ok 118.
Proof.
  apply (@local_operators_shared decimal_io demo_env _ [5; 6; 7] [1; 1; 1] 18 3 100);
    (split_and!; [reflexivity| |reflexivity]);
    repeat constructor; unfold PrimeField.wf, PrimeField.p; lia.
Defined.

(** C1: Beaver multiplication is total on well-formed sharings and its result
    reconstructs to the product of the secrets; the vector product does so
    entry by entry, and on vectors of different lengths it throws. *)
Theorem mul_recons {IO : IntegerIO} {E : Env} {V : ValidEnv E} x y v u xs ys vs us w :
  Shares x v → Shares y u → Forall2 Shares xs vs → Forall2 Shares ys us →
  (∃ z w', @s_mul pf_value E x y w = Ok (z, w')
    ∧ @recons_at pf_value E sp_id z = Ok (PrimeField.mul v u))
  ∧ (length xs = length ys →
     ∃ zs w', @v_mul pf_value E xs ys w = Ok (zs, w')
       ∧ @recons_vec_at pf_value E sp_id zs = Ok (zip_with PrimeField.mul vs us))
  ∧ (length xs ≠ length ys → @v_mul pf_value E xs ys w = Throw not_equal_length).
Proof.
  intros Hx Hy Hxs Hys. split_and!.
  - destruct (s_mul_runs x y v u w Hx Hy) as (z & w' & He & Hz & _).
    exists z, w'. split; [exact He|]. by apply recons_ok.
  - intros Hl. destruct (v_mul_runs xs ys vs us w Hxs Hys Hl) as (zs & w' & He & Hzs & _).
    exists zs, w'. split; [exact He|]. rewrite (recons_vec_ok sp_id zs _ Hzs). f_equal.
    clear. revert us; induction vs as [|a vs IH]; intros [|b us]; simpl; f_equal; auto.
  - apply v_mul_mismatch.
Qed.

Lemma mul_recons_witness :
  ∃ z w', @s_mul (@pf_value decimal_io) demo_env [5; 6; 7] [1; 2; 0] world0 = Ok (z, w')
    ∧ @recons_at (@pf_value decimal_io) demo_env 2 z = Ok 54.
Proof.
  apply (@mul_recons decimal_io demo_env _ [5; 6; 7] [1; 2; 0] 18 3 [] [] [] [] world0);
    try constructor; try (split_and!; [reflexivity| |reflexivity]);
    repeat constructor; unfold PrimeField.wf, PrimeField.p; lia.
Defined.

(** [sharize] is total; whatever the special party draws for the others, the
    sharing reconstructs to the secret, and it consumes [n_parties - 1] of its
    random numbers. *)
Theorem sharize_recons {IO : IntegerIO} {E : Env} {V : ValidEnv E} secret w :
  ∃ x w', @sharize pf_value E secret w = Ok (x, w')
    ∧ @recons_at pf_value E sp_id x = Ok (secret mod PrimeField.p)
    ∧ sp_draws w' = (sp_draws w + (n_parties - 1))%nat ∧ all_draws w' = all_draws w.
Proof.
  destruct (sharize_runs secret w) as (x & w' & He & Hx & Ha & Hs).
  exists x, w'. split_and!; [exact He|by apply recons_ok|exact Hs|lia].
Qed.

Lemma sharize_recons_witness :
  ∃ x w', @sharize (@pf_value decimal_io) demo_env 1234 world0 = Ok (x, w')
    ∧ @recons_at (@pf_value decimal_io) demo_env 2 x = Ok 1234 ∧ sp_draws w' = 2%nat
    ∧ all_draws w' = 0%nat.
Proof. exact (@sharize_recons decimal_io demo_env _ 1234 world0). Defined.

(** [getInv] of a share, and the division built on it, are total: for every
    secret the result reconstructs to the inverse of the secret (zero for zero):
    the blinding value, a sum of draws from [1, 1000), is never zero in the
    field. *)
Theorem share_getInv {IO : IntegerIO} {E : Env} {V : ValidEnv E} x v c w :
  Shares x v →
  (∃ y w', @s_getInv pf_value E x w = Ok (y, w')
    ∧ @recons_at pf_value E sp_id y = Ok (PrimeField.getInv v))
  ∧ (∃ y w', @c_div pf_value E c x w = Ok (y, w')
    ∧ @recons_at pf_value E sp_id y = Ok (PrimeField.mul (PrimeField.getInv v) c)).
Proof.
  intros Hx. destruct (s_getInv_runs x v w Hx) as (y & w' & He & Hy & _). split.
  - exists y, w'. split; [exact He|]. rewrite (recons_ok sp_id y _ Hy). f_equal.
    apply Z.mod_small, getInv_canonical.
  - eexists _, w'. unfold c_div, bind. rewrite He. split; [reflexivity|].
    by apply recons_ok, Shares_mulc.
Qed.

Lemma share_getInv_witness :
  ∃ y w', @s_getInv (@pf_value decimal_io) demo_env [5; 6; 7] world0 = Ok (y, w')
    ∧ @recons_at (@pf_value decimal_io) demo_env 2 y = Ok (PrimeField.getInv 18).
Proof.
  refine (proj1 (@share_getInv decimal_io demo_env _ [5; 6; 7] 18 1 world0 _)).
  split_and!; [reflexivity| |reflexivity].
  repeat constructor; unfold PrimeField.wf, PrimeField.p; lia.
Defined.
