(* ===== verification/Compare.v ===== *)
(** * Comparison protocols  (Share/Compare.hpp, Share/Compare.cpp)

    The bit-wise protocols on shares of field elements: random bits, the
    unbounded fan-in gates, prefix-or, bit-wise less-than, and the interval,
    comparison and equality tests built on them.  A vector of bit shares has
    its most significant bit first.  [PrimeField(c)] of a constant below [p]
    is written as the constant.  The [while (true)] of [subRBS] runs on fuel. *)
From stdpp Require Import base list numbers strings.
From Stdlib Require Import ZArith Lia.
From S2P Require Import Prelude Field Random Share SharePF.
#[local] Open Scope Z_scope.
#[local] Open Scope qmpc_scope.

Module Compare.
Import PrimeField.

(** The coefficients of the polynomials of degree 64 that are [or] and [and] of
    64 bits at one plus the number of set bits. *)
Definition f_65_or_coefficient : list Z := [
  18446744073709551493; 2575104960981055254; 4007652756006865783; 4100635666949508952;
  13520771370602560384; 10644542489970931539; 13748537863183121296; 11359914866391222416;
  11247219807349180267; 10960075435459066463; 16764588636202349672; 17506652363315270202;
  16166875542546532309; 3964617125041583173; 11719255904316824165; 10424936898019828672;
  4205127743406738449; 14520034406506226582; 13839012095455519695; 10500139574289659412;
  2962336181382223452; 6767675871271430215; 6933421926280334339; 15958841553693851655;
  15160740279984758829; 7422142630459751295; 8493480566397125402; 5197722549818600602;
  14735780618044279429; 1253747699690153233; 16331314050017923346; 8939522708637072316;
  14886963398089785966; 9073751420990236602; 12505410719513991034; 2125245660187079351;
  15846075763828250700; 3886182126918060030; 8108428213219044342; 7230779232974847667;
  16872135629383927467; 6378144199063646497; 17663587804867607672; 16148746862917335565;
  15537620600452524460; 5258026759045415754; 13903054235566673560; 13960238641761739087;
  17636644537631434137; 14478303024279957496; 2874963986830092253; 3027861925099033411;
  3827102190137661457; 12528878074288803348; 5215393447045447612; 9586533887964671917;
  3356091034157294274; 2902984712153508625; 6333090465997358509; 9996528576620247823;
  11806089667835996467; 15792408873328964335; 14951514151164516184; 2230240327554514938;
  17774600287293087221].

Definition f_65_and_coefficient : list Z := [
  1; 1095567251290110014; 15603599130927532848; 3927973679664754768;
  13253920145236317331; 5072689204291235733; 3435840349470671764; 16549778763406408630;
  12459576446030141042; 10696557716079594807; 3197018912709867365; 9970630734852788482;
  10106868463622397398; 6870526778099185113; 16162773849234898198; 6512084038109877353;
  17791231165580233294; 4939553442392971102; 6613779837673282520; 6112835044719072700;
  11561852329015516476; 3241087653075867336; 11115359391888299599; 1734929295488186025;
  11958404333307668373; 1438215050425705879; 11073690707525551423; 17532628264929026480;
  6082710703763137390; 5125529121156609847; 3536240549677738615; 168123567554747533;
  17222647251913610444; 6314115150414057577; 5720266728093558989; 11315745394801430483;
  13585209705064903598; 10609659846084906928; 6341781282790677798; 394864220565298862;
  5249871464994426133; 13296832158245447365; 12801767259528789327; 8166545265620715462;
  12622067858020089155; 10852787575795086238; 15358952924301378654; 14141418894305759068;
  13215619082908852856; 9900973216959770499; 11398882017370494561; 1875791515713213273;
  18179510337970552075; 12349041994205078879; 4559441349647564738; 4543633939816633313;
  9247229033112764012; 9230709934058803069; 12860062884571458050; 14898881793951465380;
  9282848170176021024; 16257860633325038337; 546853837372292893; 3893473855680099452;
  672143786416464336].

Section Compare.
Context `{IO : IntegerIO} `{E : Env}.
(** The attempts of [subRBS]. *)
Context (fuel : nat).
#[local] Existing Instance pf_value.

Definition at_ (xs : list sharing) (i : nat) : sharing := nth i xs s_zero.

(** [subRNS]: [getRand<PrimeField>()] at every party. *)
Definition subRNS : M sharing := getRand RandGenerator.default_min RandGenerator.default_max.

(** [subRBS]: the sign of a random square root, as a bit. *)
Fixpoint subRBS (fuel : nat) : M sharing :=
  match fuel with
  | O => throw OutOfFuel
  | S fuel =>
      let* r := subRNS in
      let* square_r := s_mul r r in
      let* square_r_rec := open_recons square_r in
      if negb (getVal square_r_rec =? 0) then
        let* r_dash := lift (modsqrt square_r_rec) in
        let* inv_r_dash := lift (getInv_checked r_dash) in
        ret (s_mulc (s_addc (s_mulc r inv_r_dash) 1) inverse_of_two)
      else subRBS fuel
  end.

Definition subRBVS : M (list sharing) := mmap (λ _, subRBS fuel) (seq 0 l).

(** [f65Or], [f65And]: the polynomial on shares of the powers. *)
Definition f65 (coefficient : list Z) (A_shares : list sharing) : sharing :=
  let ans := fold_left (λ ans i,
               s_add ans (s_mulc (at_ A_shares (i - 1)) (nth i coefficient 0)))
             (seq 1 l) (s_lit 0) in
  s_addc ans (nth 0 coefficient 0).
Definition f65Or : list sharing → sharing := f65 f_65_or_coefficient.
Definition f65And : list sharing → sharing := f65 f_65_and_coefficient.

(** Step 7 of the fan-in gates: [tmp *= c_recons[i]; A_shares[i] = tmp * b_shares[i]]. *)
Fixpoint unblind (tmp : Z) (c_recons : list Z) (b_shares : list sharing) : list sharing :=
  match c_recons, b_shares with
  | c :: c_recons, b :: b_shares =>
      let tmp := mul tmp c in s_mulc b tmp :: unblind tmp c_recons b_shares
  | _, _ => []
  end.

(** The common body of [subUnboundedFanInOr] and [subUnboundedFanInAnd]. *)
Definition subUnboundedFanIn (f : list sharing → sharing) (a_shares : list sharing) : M sharing :=
  let A_share := s_addc (fold_left (λ A i, s_add A (at_ a_shares i)) (seq 0 l) (s_lit 0)) 1 in
  let* bs := mmap (λ _, let* b := subRNS in let* b_dash := subRNS in ret (b, b_dash))
               (seq 0 l) in
  let b_shares := map fst bs in
  let b_dash_shares := map snd bs in
  let* B_shares := v_mul b_shares b_dash_shares in
  let* B_recons := open_recons_vec B_shares in
  let* B_inv := lift (traverse getInv_checked B_recons) in
  let b_inverse_shares := zip_with (λ i b, s_mulc b i) B_inv b_dash_shares in
  let* c_shares := v_mul (replicate l A_share) b_inverse_shares in
  let* n_inv := lift (getInv_checked (Z.of_nat n_parties)) in
  let tmp_b_shares := s_lit n_inv :: removelast b_shares in
  let* c_shares := v_mul c_shares tmp_b_shares in
  let* c_recons := open_recons_vec c_shares in
  ret (f (unblind 1 c_recons b_shares)).
Definition subUnboundedFanInOr : list sharing → M sharing := subUnboundedFanIn f65Or.
Definition subUnboundedFanInAnd : list sharing → M sharing := subUnboundedFanIn f65And.

(** [subPadding0]: the first [start_index] shares, then zeros up to [l]. *)
Definition subPadding0 (a_shares : list sharing) (start_index : nat) : list sharing :=
  map (λ i, if (i <? Nat.min start_index l)%nat then at_ a_shares i else s_zero) (seq 0 l).

(** [tmp(beg, end); tmp.resize(l)] for the [i]-th block of [lambda] shares. *)
Definition block (a_shares : list sharing) (i : nat) : list sharing :=
  let tmp := take lambda (drop (i * lambda) a_shares) in
  tmp ++ replicate (l - length tmp) s_zero.

Definition subPrefixOr (a_shares : list sharing) : M (list sharing) :=
  let* x_shares := mmap (λ i, subUnboundedFanInOr (block a_shares i)) (seq 0 lambda) in
  let* y_shares := mmap (λ i, subUnboundedFanInOr (subPadding0 x_shares (i + 1))) (seq 0 lambda) in
  let f_shares := map (λ i, if (i =? 0)%nat then at_ x_shares 0
                            else s_sub (at_ y_shares i) (at_ y_shares (i - 1))) (seq 0 lambda) in
  let* ai0_shares := mmap (λ j,
      mfold (λ acc i, let* t := s_mul (at_ f_shares i) (at_ a_shares (lambda * i + j)) in
                      ret (s_add acc t)) (seq 0 lambda) (s_lit 0)) (seq 0 lambda) in
  let* bi0_shares := mmap (λ j, subUnboundedFanInOr (subPadding0 ai0_shares (j + 1))) (seq 0 lambda) in
  let s_shares := map (λ i, s_sub (at_ y_shares i) (at_ f_shares i)) (seq 0 lambda) in
  let* ret_ := mmap (λ i, mmap (λ j,
      let* t := s_mul (at_ f_shares i) (at_ bi0_shares j) in
      ret (s_add t (at_ s_shares i))) (seq 0 lambda)) (seq 0 lambda) in
  ret (concat ret_).

Definition subBitwiseLessThan (a_shares b_shares : list sharing) : M sharing :=
  let* ab_shares := v_mul a_shares b_shares in
  let c_shares := map (λ i, s_sub (s_add (at_ a_shares i) (at_ b_shares i))
                              (s_mulc (at_ ab_shares i) 2)) (seq 0 l) in
  let* d_shares := subPrefixOr c_shares in
  let e_shares := map (λ i, if (i =? 0)%nat then at_ d_shares 0
                            else s_sub (at_ d_shares i) (at_ d_shares (i - 1))) (seq 0 l) in
  let* eb := v_mul e_shares b_shares in
  ret (fold_left (λ acc i, s_add acc (at_ eb i)) (seq 0 l) (s_lit 0)).

(** [BStoSC]: the sum of the bits with their weights, least significant first. *)
Definition BStoSC (a_shares : list sharing) : sharing :=
  fst (fold_left (λ '(acc, coef) i, (s_add acc (s_mulc (at_ a_shares i) coef), mul coef 2))
         (rev (seq 0 l)) (s_lit 0, 1)).

(** One turn of [PFtoBS]: every party draws a number and [sharize] shares the
    special party's, which then adds the bit and removes the number. *)
Definition share_bit (bit : Z) : M sharing :=
  let* r := getRand RandGenerator.default_min RandGenerator.default_max in
  let r_sp := nth (sp_id - 1) r sv_zero in
  let* s := sharize r_sp in
  ret (zip_with (λ i v, if (i =? sp_id)%nat then add (sub bit r_sp) v else v) parties s).

Fixpoint PFtoBS_loop (k : nat) (y : Z) (bit_shares : list sharing) : M (list sharing) :=
  match k with
  | O => ret bit_shares
  | S k => let* b := share_bit (y mod 2) in PFtoBS_loop k (y / 2) (b :: bit_shares)
  end.
Definition PFtoBS (x : Z) : M (list sharing) := PFtoBS_loop l (getVal x) [].

Definition subHalfLessThan (a_share : sharing) : M sharing :=
  let* r_shares := subRBVS in
  let r_share := BStoSC r_shares in
  let c_share := s_add (s_mulc a_share 2) r_share in
  let* c := open_recons c_share in
  let* c_shares := PFtoBS c in
  let* cr := subBitwiseLessThan c_shares r_shares in
  let r0 := at_ r_shares (l - 1) in
  let* ret_ :=
    if getVal c mod 2 =? 0 then
      let* t := s_mul cr (c_sub 1 r0) in
      let* u := s_mul (c_sub 1 cr) r0 in ret (s_add t u)
    else
      let* t := s_mul cr r0 in
      let* u := s_mul (c_sub 1 cr) (c_sub 1 r0) in ret (s_add t u) in
  ret (c_sub 1 ret_).

Definition intervalTest (c1 : Z) (a_share : sharing) (c2 : Z) : M sharing :=
  let* r_shares := subRBVS in
  let r_share := BStoSC r_shares in
  let* c := open_recons (s_add a_share r_share) in
  let* pp := lift (make p) in
  let test r_low r_high :=
    let* r_lows := PFtoBS r_low in
    let* r_highs := PFtoBS r_high in
    let* t := subBitwiseLessThan r_lows r_shares in
    let* u := subBitwiseLessThan r_shares r_highs in
    s_mul t u in
  if ltb c1 c && ltb c c2 then
    let* t := test (sub (sub c c1) 1) (add (sub (add c pp) c2) 1) in
    ret (c_sub 1 t)
  else if negb (ltb c c2) then test (sub c c2) (sub c c1)
  else if negb (ltb c1 c) then test (sub (add c pp) c2) (sub (add c pp) c1)
  else test 0 0.

Definition comparisonTest (a_share b_share : sharing) : M sharing :=
  let* w := subHalfLessThan a_share in
  let* x := subHalfLessThan b_share in
  let* y := subHalfLessThan (s_sub a_share b_share) in
  let* xy := s_mul x y in
  let* t := s_mul w (s_sub (s_add x y) (s_mulc xy 2)) in
  ret (s_add (s_sub (s_sub (s_addc t 1) y) x) xy).

(** Step 3 of [equalityTest]: the bits of [c] against the random bits. *)
Fixpoint xnor_loop (k : nat) (x : Z) (r_shares c_dash : list sharing) : list sharing :=
  match k with
  | O => c_dash
  | S k =>
      let r := at_ r_shares k in
      xnor_loop k (Z.shiftr x 1) r_shares
        ((if x mod 2 =? 1 then r else c_sub 1 r) :: c_dash)
  end.

Definition equalityTest (a_share b_share : sharing) : M sharing :=
  let* r_shares := subRBVS in
  let r_share := BStoSC r_shares in
  let* c := open_recons (s_add (s_sub a_share b_share) r_share) in
  subUnboundedFanInAnd (xnor_loop l (getVal c) r_shares []).
End Compare.
End Compare.
