(* ===== verification/CompareCorrect.v ===== *)
(** * Correctness of the comparison protocols

    What the shares produced by [Compare.v] share.  A family of bits is a
    function [nat → bool] with the most significant bit at [0]; [SharesBits xs g n]
    reads "the first [n] sharings of [xs] share the bits [g]".

    Every statement is relative to the random numbers the parties draw: the
    blinding draws of a protocol run must not sum to zero, and the random
    bit-vector must stay below [p] (the check the code skips).  The positions of
    the draws are explicit, so the statements say which draws matter. *)
From stdpp Require Import base list numbers sets strings.
From Stdlib Require Import ZArith Lia.
From S2P Require Import Prelude NumberTheory Field FixedPoint Random Share SharePF Compare.
#[local] Open Scope Z_scope.
#[local] Open Scope qmpc_scope.
Import PrimeFieldFacts.
Import Compare.Compare.

(** ** Loops over [0 .. n - 1] *)

Lemma runs_seq {B} (f : nat → M B) n (R : nat → B → Prop) (I : nat → World → Prop) w d :
  I 0%nat w →
  (∀ i w, (i < n)%nat → I i w → runs (f i) w (λ y w', R i y ∧ I (S i) w')) →
  runs (mmap f (seq 0 n)) w
    (λ ys w', length ys = n ∧ (∀ i, (i < n)%nat → R i (nth i ys d)) ∧ I n w').
Proof.
  intros H0 Hf. eapply runs_mono.
  - apply (runs_mmap f (seq 0 n) R I 0 w H0). intros i x w' Hx HI.
    apply lookup_seq in Hx as [-> Hi]. by apply Hf.
  - intros ys w' [HR HI]. rewrite length_seq in HI. cbn [Nat.add] in HI.
    pose proof (Forall2_length _ _ _ HR) as Hl. rewrite length_seq in Hl.
    split_and!; [done| |done]. intros i Hi.
    destruct (lookup_lt_is_Some_2 ys i) as [y Hy]; [lia|].
    rewrite (nth_lookup_Some _ _ _ _ Hy).
    eapply (Forall2_lookup_lr R _ _ i i y HR); [|done].
    by apply lookup_seq_lt.
Qed.

Lemma fold_left_seq {B} (f : B → nat → B) n (R : nat → B → Prop) b k :
  R k b → (∀ i b, (k ≤ i < k + n)%nat → R i b → R (S i) (f b i)) →
  R (k + n)%nat (fold_left f (seq k n) b).
Proof.
  revert k b; induction n as [|n IH]; intros k b Hb Hf; cbn [seq fold_left].
  - by rewrite Nat.add_0_r.
  - replace (k + S n)%nat with (S k + n)%nat by lia. apply IH; [apply Hf; [lia|done]|].
    intros i b' Hi. apply Hf. lia.
Qed.

(** ** Families of bits *)

Lemma existsb_seq (g : nat → bool) k n :
  existsb g (seq k n) = true ↔ ∃ i, (k ≤ i < k + n)%nat ∧ g i = true.
Proof.
  rewrite existsb_exists. split; intros (i & H1 & H2); exists i;
    [rewrite in_seq in H1|rewrite in_seq]; auto.
Qed.

Lemma forallb_seq (g : nat → bool) k n :
  forallb g (seq k n) = true ↔ ∀ i, (k ≤ i < k + n)%nat → g i = true.
Proof.
  rewrite forallb_forall. split; intros Hg i Hi; apply Hg; [by apply in_seq|].
  by apply in_seq in Hi.
Qed.

Lemma Zsum_map_seq_S (f : nat → Z) n : Zsum (map f (seq 0 (S n))) = Zsum (map f (seq 0 n)) + f n.
Proof. rewrite seq_S, map_app, Zsum_app. cbn [map Nat.add]. by rewrite Zsum_singleton. Qed.

(** The number of set bits against "none" and "all". *)
Lemma count_bits (g : nat → bool) n :
  0 ≤ Zsum (map (λ i, Z.b2z (g i)) (seq 0 n)) ≤ Z.of_nat n
  ∧ (existsb g (seq 0 n) = false ↔ Zsum (map (λ i, Z.b2z (g i)) (seq 0 n)) = 0)
  ∧ (forallb g (seq 0 n) = true ↔ Zsum (map (λ i, Z.b2z (g i)) (seq 0 n)) = Z.of_nat n).
Proof.
  induction n as [|n (IH1 & IH2 & IH3)]; [done|].
  rewrite Zsum_map_seq_S, seq_S, existsb_app, forallb_app. cbn [Nat.add existsb forallb].
  rewrite orb_false_r, andb_true_r, orb_false_iff, andb_true_iff, IH2, IH3.
  destruct (g n); cbn [Z.b2z]; split_and!; try lia; intuition (lia || congruence).
Qed.

(** At most one of the disjoint events happens. *)
Lemma Zsum_disjoint (F : nat → bool) n :
  (∀ i j, (i < n)%nat → (j < n)%nat → F i = true → F j = true → i = j) →
  Zsum (map (λ i, Z.b2z (F i)) (seq 0 n)) = Z.b2z (existsb F (seq 0 n)).
Proof.
  induction n as [|n IH]; intros Hd; [done|].
  rewrite Zsum_map_seq_S, seq_S, existsb_app, IH by (intros; apply Hd; lia || done).
  cbn [Nat.add existsb]. rewrite orb_false_r. destruct (F n) eqn:Hn; [|by rewrite orb_false_r, Z.add_0_r].
  destruct (existsb F (seq 0 n)) eqn:He; [|done].
  apply existsb_seq in He as (i & Hi & HF).
  pose proof (Hd i n ltac:(lia) ltac:(lia) HF Hn). lia.
Qed.

(** The number a family of [n] bits writes. *)
Fixpoint bits_value (g : nat → bool) (n : nat) : Z :=
  match n with O => 0 | S n => 2 * bits_value g n + Z.b2z (g n) end.

Lemma bits_value_ext g h n :
  (∀ i, (i < n)%nat → g i = h i) → bits_value g n = bits_value h n.
Proof.
  induction n as [|n IH]; intros He; [done|]. cbn [bits_value].
  rewrite IH, He by (intros; apply He || lia; lia). done.
Qed.

Lemma bits_value_bound g n : 0 ≤ bits_value g n < 2 ^ Z.of_nat n.
Proof.
  induction n as [|n IH]; [done|]. cbn [bits_value].
  rewrite Nat2Z.inj_succ, Z.pow_succ_r by lia. destruct (g n); cbn [Z.b2z]; lia.
Qed.

(** [first_diff a b k]: [k] is the most significant position where they differ. *)
Definition first_diff (a b : nat → bool) (k : nat) : bool :=
  xorb (a k) (b k) && negb (existsb (λ i, xorb (a i) (b i)) (seq 0 k)).

(** The bit of [b] at the most significant difference compares the numbers. *)
Lemma first_diff_compare a b n :
  let lt := existsb (λ k, first_diff a b k && b k) (seq 0 n) in
  if existsb (λ i, xorb (a i) (b i)) (seq 0 n)
  then if lt then bits_value a n < bits_value b n else bits_value b n < bits_value a n
  else lt = false ∧ bits_value a n = bits_value b n.
Proof.
  induction n as [|n IH]; [done|]. cbn zeta in *.
  rewrite seq_S, !existsb_app. cbn [Nat.add existsb bits_value]. rewrite !orb_false_r.
  change (first_diff a b n)
    with (xorb (a n) (b n) && negb (existsb (λ i, xorb (a i) (b i)) (seq 0 n))).
  destruct (existsb (λ i, xorb (a i) (b i)) (seq 0 n)); cbn [orb negb].
  - rewrite andb_false_r, andb_false_l, orb_false_r.
    destruct (existsb _ (seq 0 n)); destruct (a n), (b n); cbn [Z.b2z]; lia.
  - destruct IH as [-> He]. destruct (a n), (b n); cbn [xorb andb orb negb Z.b2z]; first [lia | split; [done|lia]].
Qed.

Lemma bits_lt a b n :
  existsb (λ k, first_diff a b k && b k) (seq 0 n) = (bits_value a n <? bits_value b n).
Proof.
  pose proof (first_diff_compare a b n) as Hc. cbn zeta in Hc.
  destruct (existsb (λ i, xorb (a i) (b i)) (seq 0 n)).
  - destruct (existsb _ (seq 0 n)); symmetry; [apply Z.ltb_lt|apply Z.ltb_ge]; lia.
  - destruct Hc as [-> ->]. symmetry. apply Z.ltb_irrefl.
Qed.

Lemma bits_eq a b n :
  forallb (λ k, eqb (a k) (b k)) (seq 0 n) = (bits_value a n =? bits_value b n).
Proof.
  pose proof (first_diff_compare a b n) as Hc. cbn zeta in Hc.
  destruct (existsb (λ i, xorb (a i) (b i)) (seq 0 n)) eqn:He.
  - rewrite (proj2 (Z.eqb_neq (bits_value a n) (bits_value b n)))
      by (destruct (existsb (λ k, first_diff a b k && b k) (seq 0 n)); lia).
    apply existsb_seq in He as (i & Hi & Hx). apply not_true_is_false. intros Hf.
    rewrite forallb_seq in Hf. specialize (Hf i Hi). apply eqb_prop in Hf. rewrite Hf in Hx.
    by destruct (b i).
  - destruct Hc as [_ ->]. rewrite Z.eqb_refl. apply forallb_seq. intros i Hi.
    apply eqb_true_iff. destruct (decide (a i = b i)) as [|Hne]; [done|].
    exfalso. rewrite <- not_true_iff_false in He. apply He, existsb_seq.
    exists i. split; [done|]. by destruct (a i), (b i).
Qed.

(** Arithmetic with the sizes of the protocol. *)
Ltac dims := unfold PrimeField.l, PrimeField.lambda in *; lia.

(** ** Randomness *)

Section Randomness.
Context `{E : Env}.
Import PrimeField.

(** The field element the parties' draws share when every party has drawn [a]
    numbers and the special party [s] more. *)
Definition rand_at (a s : nat) : Z :=
  Zsum (map (λ i, entropy i (a + if (i =? sp_id)%nat then s else 0)%nat mod (2 ^ 63 - 1)) parties)
    mod p.

(** None of the next [k] joint draws shares zero. *)
Definition nonzero_window (a s k : nat) : Prop :=
  ∀ j, (j < k)%nat → rand_at (a + j) s ≠ 0.

(** The random bit of a draw: whether it is in the lower half. *)
Definition bit_at (a s : nat) : bool := rand_at a s <=? p / 2.
Definition rbvs_bits (a s : nat) : nat → bool := λ j, bit_at (a + j) s.
Definition rbvs_value (a s : nat) : Z := bits_value (rbvs_bits a s) l.

Lemma rand_at_canonical a s : canonical (rand_at a s).
Proof. apply canonical_mod. Qed.

Lemma nonzero_window_sub a s k j m :
  nonzero_window a s k → (j + m ≤ k)%nat → nonzero_window (a + j) s m.
Proof. intros Hw Hle i Hi. rewrite <- Nat.add_assoc. apply Hw. lia. Qed.

Lemma nonzero_window_le a s k m :
  nonzero_window a s k → (m ≤ k)%nat → nonzero_window a s m.
Proof. intros Hw Hle i Hi. apply Hw. lia. Qed.
End Randomness.

(** What a protocol that makes [a] joint and [s] special-party draws starting at
    cursor [(a0, s0)] leaves; the cursor form of [moved]. *)
Definition at_cursor (a s : nat) (w : World) : Prop := all_draws w = a ∧ sp_draws w = s.

Lemma at_cursor_moved a s da ds w w' :
  at_cursor a s w → moved w da ds w' → at_cursor (a + da) (s + ds) w'.
Proof. unfold at_cursor, moved. lia. Qed.

Lemma at_cursor_moved0 a s w w' : at_cursor a s w → moved w 0 0 w' → at_cursor a s w'.
Proof. unfold at_cursor, moved. lia. Qed.

Section Gates.
Context `{IO : IntegerIO} `{E : Env} `{V : !ValidEnv E}.
#[local] Existing Instance pf_value.
Import PrimeField.

Definition SharesBits (xs : list sharing) (g : nat → bool) (n : nat) : Prop :=
  ∀ k, (k < n)%nat → Shares (at_ xs k) (Z.b2z (g k)).

Lemma Shares_at_Forall2 xs (f : nat → Z) n :
  length xs = n → (∀ k, (k < n)%nat → Shares (at_ xs k) (f k)) →
  Forall2 Shares xs (map f (seq 0 n)).
Proof.
  intros <- Hf. apply Forall2_same_length_lookup_2; [by rewrite length_map, length_seq|].
  intros i x y Hx Hy. rewrite list_lookup_fmap in Hy.
  apply fmap_Some in Hy as (j & [-> Hj]%lookup_seq & ->).
  specialize (Hf i Hj). unfold at_ in Hf. by rewrite (nth_lookup_Some _ _ _ _ Hx) in Hf.
Qed.

Lemma Forall2_Shares_at xs (f : nat → Z) n k :
  Forall2 Shares xs (map f (seq 0 n)) → (k < n)%nat → Shares (at_ xs k) (f k).
Proof.
  intros Hf Hk. destruct (Forall2_lookup_r _ _ _ k (f k) Hf) as (x & Hx & Hs).
  - rewrite list_lookup_fmap, (lookup_seq_lt 0 n k) by done. done.
  - unfold at_. by rewrite (nth_lookup_Some _ _ _ _ Hx).
Qed.

Lemma at_map (f : nat → sharing) n k : (k < n)%nat → at_ (map f (seq 0 n)) k = f k.
Proof.
  intros Hk. unfold at_. apply nth_lookup_Some.
  by rewrite list_lookup_fmap, (lookup_seq_lt 0 n k).
Qed.

(** *** Random numbers and bits *)

Lemma subRNS_runs a s w :
  at_cursor a s w →
  runs subRNS w (λ x w', Shares x (rand_at a s) ∧ at_cursor (a + 1) s w').
Proof.
  intros [<- <-]. eapply runs_mono.
  - apply getRand_runs; unfold RandGenerator.default_min, RandGenerator.default_max; lia.
  - intros x w' (Hx & Hs & Hm & _). split.
    + eapply Shares_cong; [exact Hs|]. unfold rand_at. rewrite mod_cong, Hx.
      replace (map _ parties) with (map (λ i, entropy i (draw_pos w i) mod (2 ^ 63 - 1)) parties);
        [reflexivity|]. apply map_ext. intros i. symmetry. apply Z.add_0_r.
    + unfold at_cursor, moved in *. lia.
Qed.

Lemma half_bit v R :
  canonical v → v ≠ 0 → (R = v ∨ R = p - v) → 0 ≤ R ≤ p / 2 →
  (v * getInv R + 1) * inverse_of_two ≅ Z.b2z (v <=? p / 2).
Proof.
  change (p / 2) with half_p. intros Hv Hne HR Hb.
  assert (2 * inverse_of_two ≅ 1) as H2 by reflexivity.
  assert (¬ v ≅ 0) as Hnc by (intros Hc; apply Hne, cong_canonical; auto using canonical_0).
  destruct (Z.leb_spec v half_p) as [Hle|Hgt]; cbn [Z.b2z].
  - assert (R = v) as -> by (unfold half_p, p in *; lia).
    rewrite getInv_spec by done. transitivity (2 * inverse_of_two); [cong_ring|exact H2].
  - assert (R = p - v) as -> by (unfold half_p, p in *; lia).
    assert (¬ p - v ≅ 0) as Hpn.
    { intros Hc. apply Hnc. transitivity (p - (p - v)); [cong_ring|].
      rewrite Hc, p_cong_0. reflexivity. }
    assert (v * getInv (p - v) ≅ -1) as Hm; [|rewrite Hm; reflexivity].
    transitivity (- ((p - v) * getInv (p - v)) + p * getInv (p - v)); [cong_ring|].
    rewrite getInv_spec by done. generalize (getInv (p - v)). intros z.
    rewrite p_cong_0. cong_ring.
Qed.

Lemma subRBS_runs fuel a s w :
  at_cursor a s w → rand_at a s ≠ 0 →
  runs (subRBS (S fuel)) w
    (λ x w', Shares x (Z.b2z (bit_at a s)) ∧ at_cursor (a + 1) s w').
Proof.
  intros Hw Hne. cbn [subRBS]. eapply runs_bind; [by apply subRNS_runs|].
  unfold bit_at. pose proof (rand_at_canonical a s) as Hc. revert Hne Hc.
  generalize (rand_at a s). intros v Hne Hc r w1 [Hr Hw1].
  eapply runs_bind; [by apply s_mul_runs|]. intros sq w2 [Hsq Hw2].
  eapply runs_bind; [by apply (open_recons_runs sq)|]. intros c w3 [-> ->].
  change ((v * v) mod p) with (mul v v). unfold getVal.
  assert (mul v v ≠ 0) as Hsq0.
  { intros Hz. assert (v * v ≅ 0) as [H|H]%cong_0_mul by (rewrite <- mul_cong_mul, Hz; reflexivity);
      apply Hne, cong_canonical; auto using canonical_0. }
  rewrite (proj2 (Z.eqb_neq _ _) Hsq0). cbn [negb].
  destruct (modsqrt_smaller_root v Hc Hne) as (R & HR & Hroot & Hb).
  eapply runs_bind; [by apply runs_lift_eq|]. intros ? w4 [-> ->].
  eapply runs_bind.
  { apply runs_lift_eq, getInv_checked_ok. change (p / 2) with half_p in Hb.
    unfold wf, half_p, p in *; lia. }
  intros ? w5 [-> ->]. apply runs_ret. split; [|by eapply at_cursor_moved0].
  eapply Shares_cong; [by apply Shares_mulc, Shares_addc, Shares_mulc|].
  by apply half_bit.
Qed.

Lemma subRBVS_runs fuel a s w :
  at_cursor a s w → nonzero_window a s l →
  runs (subRBVS (S fuel)) w
    (λ xs w', length xs = l ∧ SharesBits xs (rbvs_bits a s) l ∧ at_cursor (a + l) s w').
Proof.
  intros Hw Hn. unfold subRBVS. eapply runs_mono.
  - apply (runs_seq _ l (λ j x, Shares x (Z.b2z (rbvs_bits a s j)))
             (λ j w, at_cursor (a + j) s w) w s_zero).
    + by rewrite Nat.add_0_r.
    + intros i w1 Hi H1. eapply runs_mono; [apply subRBS_runs; [exact H1|by apply Hn]|].
      intros x w2 [Hx H2]. split; [exact Hx|]. by replace (a + S i)%nat with (a + i + 1)%nat by lia.
  - intros xs w' H1. exact H1.
Qed.

(** *** Vectors by index *)

Lemma v_mul_at xs ys n (f g : nat → Z) w :
  length xs = n → length ys = n →
  (∀ k, (k < n)%nat → Shares (at_ xs k) (f k)) →
  (∀ k, (k < n)%nat → Shares (at_ ys k) (g k)) →
  runs (v_mul xs ys) w (λ zs w',
    length zs = n ∧ (∀ k, (k < n)%nat → Shares (at_ zs k) (f k * g k)) ∧ moved w 0 0 w').
Proof.
  intros Hx Hy Hf Hg. eapply runs_mono.
  - apply (v_mul_runs xs ys (map f (seq 0 n)) (map g (seq 0 n)));
      [by apply Shares_at_Forall2|by apply Shares_at_Forall2|lia].
  - intros zs w' [Hz Hw].
    assert (zip_with Z.mul (map f (seq 0 n)) (map g (seq 0 n)) = map (λ k, f k * g k) (seq 0 n)) as He
      by (generalize (seq 0 n); intros l0; induction l0; simpl; congruence).
    rewrite He in Hz. pose proof (Forall2_length _ _ _ Hz) as Hl.
    rewrite length_map, length_seq in Hl. split_and!; [done| |done].
    intros k Hk. by apply (Forall2_Shares_at zs (λ k, f k * g k) n).
Qed.

Lemma open_recons_vec_at xs n (f : nat → Z) w :
  length xs = n → (∀ k, (k < n)%nat → Shares (at_ xs k) (f k)) →
  runs (open_recons_vec xs) w (λ cs w', cs = map (λ k, f k mod p) (seq 0 n) ∧ w' = w).
Proof.
  intros Hl Hf. eapply runs_mono.
  - apply (open_recons_vec_runs xs (map f (seq 0 n))). by apply Shares_at_Forall2.
  - intros cs w' [-> ->]. by rewrite map_map.
Qed.

Lemma at_zip_map {A} (f : A → sharing → sharing) (g : nat → A) ys n k :
  length ys = n → (k < n)%nat → at_ (zip_with f (map g (seq 0 n)) ys) k = f (g k) (at_ ys k).
Proof.
  intros <- Hk. unfold at_. destruct (lookup_lt_is_Some_2 ys k Hk) as [y Hy].
  rewrite (nth_lookup_Some ys _ _ _ Hy). apply nth_lookup_Some.
  rewrite lookup_zip_with, list_lookup_fmap, (lookup_seq_lt 0 _ k Hk), Hy. done.
Qed.

Lemma at_replicate x n k : (k < n)%nat → at_ (replicate n x) k = x.
Proof. intros Hk. unfold at_. apply nth_lookup_Some. by apply lookup_replicate_2. Qed.

Lemma at_shifted x bs k :
  (k < length bs)%nat → at_ (x :: removelast bs) k = match k with O => x | S k => at_ bs k end.
Proof.
  intros Hk. destruct k as [|k]; [done|]. unfold at_. cbn [nth].
  revert k Hk; induction bs as [|b bs IH]; intros k Hk; [simpl in Hk; lia|].
  destruct bs as [|b' bs]; [simpl in Hk; lia|]. cbn [removelast].
  destruct k as [|k]; [done|]. cbn [nth]. apply IH. simpl in *; lia.
Qed.

(** *** The polynomials *)

Definition horner (cs : list Z) (x : Z) : Z := foldr (λ c acc, c + x * acc) 0 cs.

Lemma horner_sum cs x j :
  Zsum (map (λ i, x ^ Z.of_nat i * nth (i - j) cs 0) (seq j (length cs)))
  = x ^ Z.of_nat j * horner cs x.
Proof.
  revert j; induction cs as [|c cs IH]; intros j; [cbn [length seq map]; rewrite Zsum_nil; cbn [horner foldr]; lia|].
  cbn [length seq map]. rewrite Zsum_cons, Nat.sub_diag. cbn [nth horner foldr].
  replace (map _ (seq (S j) (length cs)))
    with (map (λ i, x ^ Z.of_nat i * nth (i - S j) cs 0) (seq (S j) (length cs))).
  - rewrite IH, Nat2Z.inj_succ, Z.pow_succ_r by lia. unfold horner. ring.
  - apply map_ext_in. intros i Hi%in_seq. by replace (i - j)%nat with (S (i - S j)) by lia.
Qed.

Lemma horner_cong cs x y : x ≅ y → horner cs x ≅ horner cs y.
Proof.
  intros Hx. induction cs as [|c cs IH]; [reflexivity|].
  change (c + x * horner cs x ≅ c + y * horner cs y).
  apply add_cong; [reflexivity|]. by apply mul_cong.
Qed.

Lemma f65_ok cs A α :
  length cs = S l → (∀ k, (k < l)%nat → Shares (at_ A k) (α ^ Z.of_nat (S k))) →
  Shares (f65 cs A) (horner cs α).
Proof.
  intros Hc HA. unfold f65. destruct cs as [|c cs]; [done|]. injection Hc as Hc.
  eapply Shares_cong.
  - apply Shares_addc.
    apply (fold_left_seq _ l
      (λ i b, Shares b (Zsum (map (λ i, α ^ Z.of_nat i * nth (i - 1) cs 0) (seq 1 (i - 1))))) _ 1).
    + apply Shares_zero.
    + intros i b Hi Hb. replace (S i - 1)%nat with (S (i - 1)) by lia.
      rewrite seq_S, map_app, Zsum_app. cbn [map]. rewrite Zsum_singleton.
      apply Shares_add; [done|]. replace (1 + (i - 1))%nat with i by lia.
      destruct i as [|i]; [lia|]. cbn [nth]. replace (S i - 1)%nat with i by lia.
      apply Shares_mulc, HA. lia.
  - replace (1 + l - 1)%nat with (length cs) by lia. rewrite horner_sum. cbn [nth].
    change (horner (c :: cs) α) with (c + α * horner cs α).
    change (Z.of_nat 1) with 1. rewrite Z.pow_1_r. cong_ring.
Qed.

Lemma or_polynomial v :
  1 ≤ v ≤ 65 → horner f_65_or_coefficient v ≅ Z.b2z (negb (v =? 1)).
Proof.
  intros Hv. assert (forallb (λ v, horner f_65_or_coefficient v mod p =? Z.b2z (negb (v =? 1)))
    (map Z.of_nat (seq 1 65)) = true) as Hall by (vm_compute; reflexivity).
  rewrite forallb_forall in Hall. specialize (Hall v). rewrite Z.eqb_eq in Hall.
  unfold cong. rewrite Hall.
  - destruct (v =? 1); reflexivity.
  - apply in_map_iff. exists (Z.to_nat v). rewrite in_seq. lia.
Qed.

Lemma and_polynomial v :
  1 ≤ v ≤ 65 → horner f_65_and_coefficient v ≅ Z.b2z (v =? 65).
Proof.
  intros Hv. assert (forallb (λ v, horner f_65_and_coefficient v mod p =? Z.b2z (v =? 65))
    (map Z.of_nat (seq 1 65)) = true) as Hall by (vm_compute; reflexivity).
  rewrite forallb_forall in Hall. specialize (Hall v). rewrite Z.eqb_eq in Hall.
  unfold cong. rewrite Hall.
  - destruct (v =? 65); reflexivity.
  - apply in_map_iff. exists (Z.to_nat v). rewrite in_seq. lia.
Qed.

(** *** The unbounded fan-in gates *)

Definition prev (f : nat → Z) (k : nat) : Z := match k with O => 1 | S k => f k end.

(** The running product removes the blinding: what is left is a power. *)
Lemma unblind_ok bs (α : Z) (β ι γ : nat → Z) n :
  (∀ k, (k < n)%nat → Shares (at_ bs k) (β k)) → length bs = n →
  (∀ k, (k < n)%nat → ι k * β k ≅ 1) →
  (∀ k, (k < n)%nat → γ k ≅ α * ι k * prev β k) →
  ∀ k, (k < n)%nat → Shares (at_ (unblind 1 (map γ (seq 0 n)) bs) k) (α ^ Z.of_nat (S k)).
Proof.
  intros Hb Hl Hι Hγ.
  assert (∀ m j tmp bs', (j + m = n)%nat → length bs' = m →
    (∀ k, (k < m)%nat → Shares (at_ bs' k) (β (j + k)%nat)) →
    tmp * prev β j ≅ α ^ Z.of_nat j →
    ∀ k, (k < m)%nat →
      Shares (at_ (unblind tmp (map γ (seq j m)) bs') k) (α ^ Z.of_nat (S (j + k)))) as Hgen.
  { induction m as [|m IH]; intros j tmp bs' Hj Hl' Hb' Ht k Hk; [lia|].
    destruct bs' as [|b bs']; [done|]. injection Hl' as Hl'. cbn [seq map unblind].
    assert (mul tmp (γ j) ≅ α ^ Z.of_nat (S j) * ι j) as Ht'.
    { rewrite mul_cong_mul, Hγ by lia. transitivity (tmp * prev β j * (α * ι j)); [cong_ring|].
      rewrite Ht, Nat2Z.inj_succ, Z.pow_succ_r by lia. cong_ring. }
    assert (mul tmp (γ j) * β j ≅ α ^ Z.of_nat (S j)) as Hn.
    { rewrite Ht'. transitivity (α ^ Z.of_nat (S j) * (ι j * β j)); [cong_ring|].
      rewrite Hι by lia. cong_ring. }
    destruct k as [|k].
    - rewrite Nat.add_0_r. eapply Shares_cong; [apply Shares_mulc, (Hb' 0%nat); lia|].
      rewrite Nat.add_0_r, <- Hn. cong_ring.
    - replace (j + S k)%nat with (S j + k)%nat by lia.
      apply (IH (S j)); [lia|done| |exact Hn|lia].
      intros k' Hk'. replace (S j + k')%nat with (j + S k')%nat by lia. apply (Hb' (S k')). lia. }
  intros k Hk. apply (Hgen n 0%nat); auto. reflexivity.
Qed.

Lemma getInv_cong_1 x y : x ≅ y → ¬ y ≅ 0 → y * getInv x ≅ 1.
Proof. intros Hx Hy. rewrite <- Hx at 1. apply getInv_spec. by rewrite Hx. Qed.

(** The pairs of blinding numbers. *)
Lemma blinding_runs a s w :
  at_cursor a s w →
  runs (mmap (λ _, let* b := subRNS in let* b_dash := subRNS in ret (b, b_dash)) (seq 0 l)) w
    (λ bs w', length bs = l
      ∧ (∀ k, (k < l)%nat → Shares (at_ (map fst bs) k) (rand_at (a + 2 * k) s))
      ∧ (∀ k, (k < l)%nat → Shares (at_ (map snd bs) k) (rand_at (a + (2 * k + 1)) s))
      ∧ at_cursor (a + 2 * l) s w').
Proof.
  intros Hw. eapply runs_mono.
  - apply (runs_seq _ l
      (λ k b, Shares b.1 (rand_at (a + 2 * k) s) ∧ Shares b.2 (rand_at (a + (2 * k + 1)) s))
      (λ k w, at_cursor (a + 2 * k) s w) w (s_zero, s_zero)).
    + by rewrite Nat.add_0_r.
    + intros k w1 Hk H1. eapply runs_bind; [by apply subRNS_runs|]. intros b w2 [Hb H2].
      eapply runs_bind; [by apply subRNS_runs|]. intros b' w3 [Hb' H3].
      apply runs_ret. split; [split; [exact Hb|]|].
      * by replace (a + (2 * k + 1))%nat with (a + 2 * k + 1)%nat by lia.
      * by replace (a + 2 * S k)%nat with (a + 2 * k + 1 + 1)%nat by lia.
  - intros bs w' (Hl & HR & Hw'). split_and!; [done| | |done]; intros k Hk.
    + change (at_ (map fst bs) k) with (nth k (map fst bs) (s_zero, s_zero).1).
      rewrite map_nth. by apply HR.
    + change (at_ (map snd bs) k) with (nth k (map snd bs) (s_zero, s_zero).2).
      rewrite map_nth. by apply HR.
Qed.

(** One more than the number of set bits. *)
Lemma count_shares a_shares g :
  SharesBits a_shares g l →
  Shares (s_addc (fold_left (λ A i, s_add A (at_ a_shares i)) (seq 0 l) (s_lit 0)) 1)
    (Zsum (map (λ i, Z.b2z (g i)) (seq 0 l)) + 1).
Proof.
  intros Hg. apply Shares_addc.
  apply (fold_left_seq _ l (λ i b, Shares b (Zsum (map (λ i, Z.b2z (g i)) (seq 0 i)))) _ 0).
  - apply Shares_zero.
  - intros i b Hi Hb. rewrite Zsum_map_seq_S. apply Shares_add; [done|apply Hg; lia].
Qed.

(** What the gate multiplies a blinding number with to cancel it. *)
Definition canceller (a s k : nat) : Z :=
  rand_at (a + (2 * k + 1)) s
  * getInv ((rand_at (a + 2 * k) s * rand_at (a + (2 * k + 1)) s) mod p).

Lemma canceller_ok a s k :
  nonzero_window a s (2 * l) → (k < l)%nat → canceller a s k * rand_at (a + 2 * k) s ≅ 1.
Proof.
  intros Hn Hk.
  assert (∀ j, (j < 2 * l)%nat → ¬ rand_at (a + j) s ≅ 0) as Hnz.
  { intros j Hj Hc. apply cong_canonical in Hc; [|apply rand_at_canonical|apply canonical_0].
    revert Hc; by apply Hn. }
  rewrite <- (getInv_cong_1 ((rand_at (a + 2 * k) s * rand_at (a + (2 * k + 1)) s) mod p)
                (rand_at (a + 2 * k) s * rand_at (a + (2 * k + 1)) s));
    [unfold canceller; cong_ring|apply mod_cong|].
  intros [Hc|Hc]%cong_0_mul; revert Hc; apply Hnz; lia.
Qed.

Lemma n_nonzero : ¬ Z.of_nat n_parties ≅ 0.
Proof.
  pose proof sp_valid. intros Hz. apply cong_canonical in Hz; [lia|apply n_canonical|apply canonical_0].
Qed.

(** The blinding numbers moved up by one place, the inverse of the number of
    parties (a sharing of one) before them. *)
Lemma shifted_shares (bs : list sharing) β k :
  length bs = l → (∀ k, (k < l)%nat → Shares (at_ bs k) (β k)) → (k < l)%nat →
  Shares (at_ (s_lit (getInv (Z.of_nat n_parties)) :: removelast bs) k) (prev β k).
Proof.
  intros Hl Hb Hk. rewrite at_shifted by lia. destruct k as [|k].
  - eapply Shares_cong; [apply Shares_lit, canonical_wf, getInv_canonical|]. apply getInv_spec, n_nonzero.
  - apply Hb. lia.
Qed.

Lemma shifted_length (bs : list sharing) x : length bs = l → length (x :: removelast bs) = l.
Proof.
  intros Hl. cbn [length]. destruct bs as [|b bs] using rev_ind; [done|].
  rewrite removelast_last. rewrite length_app in Hl. simpl in Hl. lia.
Qed.

Lemma subUnboundedFanIn_runs cs a_shares g a s w :
  length cs = S l → SharesBits a_shares g l → at_cursor a s w → nonzero_window a s (2 * l) →
  runs (subUnboundedFanIn (f65 cs) a_shares) w (λ x w',
    Shares x (horner cs (Zsum (map (λ i, Z.b2z (g i)) (seq 0 l)) + 1))
    ∧ at_cursor (a + 2 * l) s w').
Proof.
  intros Hcs Hg Hw Hn. unfold subUnboundedFanIn. pose proof (count_shares a_shares g Hg) as HA.
  set (α := Zsum (map (λ i, Z.b2z (g i)) (seq 0 l)) + 1) in *. revert HA.
  generalize (s_addc (fold_left (λ A i, s_add A (at_ a_shares i)) (seq 0 l) (s_lit 0)) 1). intros A HA.
  eapply runs_bind; [by apply blinding_runs|]. intros bs w1 (Hl & Hb & Hb' & Hw1).
  assert (∀ k, (k < l)%nat → canceller a s k * rand_at (a + 2 * k) s ≅ 1) as Hι
    by (intros; by apply canceller_ok).
  set (β := λ k, rand_at (a + 2 * k) s) in *.
  set (β' := λ k, rand_at (a + (2 * k + 1)) s) in *.
  eapply runs_bind; [apply (v_mul_at _ _ l β β'); rewrite ?length_map; auto|].
  intros B w2 (HBl & HB & Hw2). cbn beta in HB.
  eapply runs_bind; [apply (open_recons_vec_at B l (λ k, β k * β' k)); auto|].
  intros Br w3 [-> ->]. eapply runs_bind.
  { apply runs_lift_eq. rewrite (traverse_map _ getInv); [rewrite map_map; reflexivity|].
    intros x (k & -> & _)%list_elem_of_fmap. apply getInv_checked_ok, canonical_wf, canonical_mod. }
  intros Bi w4 [-> ->]. eapply runs_bind.
  { apply (v_mul_at _ _ l (λ _, α) (canceller a s)).
    - apply length_replicate.
    - rewrite length_zip_with, !length_map, length_seq. lia.
    - intros k Hk. by rewrite at_replicate.
    - intros k Hk. rewrite (at_zip_map _ _ _ l) by (rewrite ?length_map; done || lia).
      apply Shares_mulc. by apply Hb'. }
  intros c w5 (Hcl & Hc & Hw5).
  eapply runs_bind; [apply runs_lift_eq, getInv_checked_ok, canonical_wf, n_canonical|].
  intros ninv w6 [-> ->]. eapply runs_bind.
  { apply (v_mul_at _ _ l (λ k, α * canceller a s k) (prev β));
      [done|apply shifted_length; by rewrite length_map|intros; by apply Hc|].
    intros k Hk. apply shifted_shares; [by rewrite length_map|done|done]. }
  intros c' w7 (Hc'l & Hc' & Hw7).
  eapply runs_bind; [apply (open_recons_vec_at c' l (λ k, α * canceller a s k * prev β k)); auto|].
  intros cr w8 [-> ->]. apply runs_ret. split.
  - apply f65_ok; [done|]. apply (unblind_ok _ α β (canceller a s)); auto; [by rewrite length_map|].
    intros k Hk. apply mod_cong.
  - eapply at_cursor_moved0; [|exact Hw7]. eapply at_cursor_moved0; [|exact Hw5].
    by eapply at_cursor_moved0.
Qed.

Lemma subUnboundedFanInOr_runs a_shares g a s w :
  SharesBits a_shares g l → at_cursor a s w → nonzero_window a s (2 * l) →
  runs (subUnboundedFanInOr a_shares) w (λ x w',
    Shares x (Z.b2z (existsb g (seq 0 l))) ∧ at_cursor (a + 2 * l) s w').
Proof.
  intros Hg Hw Hn. eapply runs_mono; [by apply (subUnboundedFanIn_runs f_65_or_coefficient)|].
  intros x w' [Hx Hw']. split; [|done]. eapply Shares_cong; [exact Hx|].
  destruct (count_bits g l) as (Hb & He & _). change (Z.of_nat l) with 64 in Hb.
  rewrite or_polynomial by lia.
  destruct (existsb g (seq 0 l)) eqn:Hex, (Z.eqb_spec (Zsum (map (λ i, Z.b2z (g i)) (seq 0 l)) + 1) 1)
    as [H1|H1]; try reflexivity; exfalso.
  - assert (true = false) by (apply He; lia). done.
  - apply H1. rewrite (proj1 He) by done. done.
Qed.

Lemma subUnboundedFanInAnd_runs a_shares g a s w :
  SharesBits a_shares g l → at_cursor a s w → nonzero_window a s (2 * l) →
  runs (subUnboundedFanInAnd a_shares) w (λ x w',
    Shares x (Z.b2z (forallb g (seq 0 l))) ∧ at_cursor (a + 2 * l) s w').
Proof.
  intros Hg Hw Hn. eapply runs_mono; [by apply (subUnboundedFanIn_runs f_65_and_coefficient)|].
  intros x w' [Hx Hw']. split; [|done]. eapply Shares_cong; [exact Hx|].
  destruct (count_bits g l) as (Hb & _ & Ha). change (Z.of_nat l) with 64 in Hb, Ha.
  rewrite and_polynomial by lia.
  destruct (forallb g (seq 0 l)) eqn:Hall, (Z.eqb_spec (Zsum (map (λ i, Z.b2z (g i)) (seq 0 l)) + 1) 65)
    as [H1|H1]; try reflexivity; exfalso.
  - apply H1. rewrite (proj1 Ha) by done. done.
  - assert (false = true) by (apply Ha; lia). done.
Qed.

(** *** Prefix-or *)

Lemma SharesBits_ext xs g h n :
  SharesBits xs g n → (∀ k, (k < n)%nat → g k = h k) → SharesBits xs h n.
Proof. intros Hx He k Hk. rewrite <- He by done. by apply Hx. Qed.

Lemma fanin_or_loop (fs : nat → list sharing) (gs : nat → nat → bool) n a s w :
  (∀ i, (i < n)%nat → SharesBits (fs i) (gs i) l) →
  at_cursor a s w → nonzero_window a s (2 * l * n) →
  runs (mmap (λ i, subUnboundedFanInOr (fs i)) (seq 0 n)) w (λ xs w',
    length xs = n ∧ SharesBits xs (λ i, existsb (gs i) (seq 0 l)) n
    ∧ at_cursor (a + 2 * l * n) s w').
Proof.
  intros Hf Hw Hn. eapply runs_mono.
  - apply (runs_seq _ n (λ i x, Shares x (Z.b2z (existsb (gs i) (seq 0 l))))
             (λ i w, at_cursor (a + 2 * l * i) s w) w s_zero).
    + by rewrite Nat.mul_0_r, Nat.add_0_r.
    + intros i w1 Hi H1. eapply runs_mono.
      * apply (subUnboundedFanInOr_runs (fs i) (gs i)); [by apply Hf|exact H1|].
        eapply nonzero_window_sub; [exact Hn|]. nia.
      * intros x w2 [Hx H2]. split; [exact Hx|].
        by replace (a + 2 * l * S i)%nat with (a + 2 * l * i + 2 * l)%nat by lia.
  - intros xs w' H1. exact H1.
Qed.

Lemma existsb_window (h : nat → bool) n m :
  (n ≤ m)%nat → existsb (λ j, (j <? n)%nat && h j) (seq 0 m) = existsb h (seq 0 n).
Proof.
  intros Hle. apply eq_true_iff_eq. rewrite !existsb_seq. split; intros (i & Hi & Hh).
  - apply andb_true_iff in Hh as [Hlt%Nat.ltb_lt Hh]. exists i. split; [lia|done].
  - exists i. split; [lia|]. rewrite (proj2 (Nat.ltb_lt _ _)) by lia. done.
Qed.

Lemma subPadding0_bits xs g n m :
  (n ≤ m)%nat → (m ≤ l)%nat → SharesBits xs g m →
  SharesBits (subPadding0 xs n) (λ j, (j <? n)%nat && g j) l.
Proof.
  intros Hn Hm Hx k Hk. unfold subPadding0. rewrite at_map by done. rewrite Nat.min_l by lia.
  destruct (Nat.ltb_spec k n); [apply Hx; lia|apply Shares_zero].
Qed.

Lemma block_bits xs g i :
  length xs = l → (i < lambda)%nat → SharesBits xs g l →
  SharesBits (block xs i) (λ j, (j <? lambda)%nat && g (lambda * i + j)%nat) l.
Proof.
  intros Hl Hi Hx k Hk. unfold block. change l with 64%nat in *. change lambda with 8%nat in *.
  assert (length (take 8 (drop (i * 8) xs)) = 8%nat) as Hlen
    by (rewrite length_take, length_drop; lia).
  unfold at_. destruct (Nat.ltb_spec k 8) as [Hlt|Hge].
  - rewrite app_nth1 by lia. cbn [andb]. specialize (Hx (8 * i + k)%nat ltac:(lia)).
    unfold at_ in Hx. destruct (lookup_lt_is_Some_2 xs (8 * i + k)) as [x Hxk]; [lia|].
    rewrite (nth_lookup_Some _ _ _ _ Hxk) in Hx.
    rewrite (nth_lookup_Some _ _ _ x); [done|].
    rewrite lookup_take_lt, lookup_drop by lia. by replace (i * 8 + k)%nat with (8 * i + k)%nat by lia.
  - rewrite app_nth2, Hlen by lia.
    rewrite (nth_lookup_Some _ _ _ s_zero); [apply Shares_zero|].
    apply lookup_replicate_2. lia.
Qed.

(** The prefixes of the families of the protocol. *)
Definition prefix_or (g : nat → bool) (k : nat) : bool := existsb g (seq 0 (S k)).
Definition first_set (X : nat → bool) (i : nat) : bool := X i && negb (existsb X (seq 0 i)).

Lemma first_set_diff X i :
  Z.b2z (prefix_or X (S i)) - Z.b2z (prefix_or X i) = Z.b2z (first_set X (S i))
  ∧ Z.b2z (prefix_or X i) - Z.b2z (first_set X i) = Z.b2z (existsb X (seq 0 i)).
Proof.
  unfold prefix_or, first_set.
  rewrite (seq_S (S i)), existsb_app. cbn [Nat.add existsb].
  rewrite (seq_S i), existsb_app. cbn [Nat.add existsb].
  destruct (existsb X (seq 0 i)), (X i), (X (S i)); done.
Qed.

Lemma first_set_unique X i j :
  first_set X i = true → first_set X j = true → i = j.
Proof.
  unfold first_set. rewrite !andb_true_iff, !negb_true_iff, <- !not_true_iff_false, !existsb_seq.
  intros [Xi Hi] [Xj Hj]. destruct (Nat.lt_trichotomy i j) as [H|[H|H]]; [|done|];
    exfalso; [apply Hj|apply Hi]; eauto with lia.
Qed.

(** Prefix-or by blocks: the value the protocol gives to [8 i + j]. *)
Lemma prefix_or_blocks (g : nat → bool) m i j :
  (i < m)%nat → (j < m)%nat →
  let X := λ i, existsb (λ j, g (m * i + j)%nat) (seq 0 m) in
  let A := λ j, existsb (λ i, first_set X i && g (m * i + j)%nat) (seq 0 m) in
  (first_set X i && prefix_or A j) || existsb X (seq 0 i) = prefix_or g (m * i + j).
Proof.
  intros Hi Hj X A. apply eq_true_iff_eq.
  unfold prefix_or. rewrite orb_true_iff, andb_true_iff, !existsb_seq. split.
  - intros [[HF (k & Hk & HA)]|(i' & Hi' & HX)].
    + unfold A in HA. apply existsb_seq in HA as (i' & Hi' & [HF' Hg]%andb_true_iff).
      rewrite (first_set_unique _ _ _ HF' HF) in Hg. exists (m * i + k)%nat. split; [lia|done].
    + apply existsb_seq in HX as (k & Hk & Hg). exists (m * i' + k)%nat. split; [nia|done].
  - intros (k & Hk & Hg).
    destruct (existsb X (seq 0 i)) eqn:He; [right; by apply existsb_seq|left].
    assert (k = m * (k / m) + k mod m)%nat as Hdiv by (apply Nat.div_mod_eq).
    assert (k mod m < m)%nat as Hmod by (apply Nat.mod_upper_bound; lia).
    assert (k / m = i)%nat as Hki.
    { destruct (Nat.lt_trichotomy (k / m) i) as [H|[H|H]]; [|done|nia].
      exfalso. rewrite <- not_true_iff_false in He. apply He, existsb_seq.
      exists (k / m)%nat. split; [lia|]. apply existsb_seq. exists (k mod m)%nat.
      split; [lia|]. by rewrite <- Hdiv. }
    rewrite Hki in Hdiv.
    assert (first_set X i = true) as HF.
    { unfold first_set. rewrite He, andb_true_r. apply existsb_seq. exists (k mod m)%nat.
      split; [lia|]. by rewrite <- Hdiv. }
    split; [exact HF|]. exists (k mod m)%nat. split; [lia|].
    apply existsb_seq. exists i. split; [lia|]. by rewrite HF, <- Hdiv.
Qed.

Lemma at_concat (rows : list (list sharing)) m i j :
  (∀ i, (i < length rows)%nat → length (nth i rows []) = m) → (i < length rows)%nat → (j < m)%nat →
  at_ (concat rows) (m * i + j) = at_ (nth i rows []) j.
Proof.
  revert i; induction rows as [|r rows IH]; intros i Hm Hi Hj; [simpl in Hi; lia|].
  pose proof (Hm 0%nat ltac:(simpl; lia)) as Hr. simpl in Hr. cbn [concat]. unfold at_ in *.
  destruct i as [|i].
  - rewrite app_nth1 by lia. cbn [nth]. by replace (m * 0 + j)%nat with j by lia.
  - rewrite app_nth2 by lia. cbn [nth].
    replace (m * S i + j - length r)%nat with (m * i + j)%nat by lia.
    apply IH; [|simpl in Hi; lia|done]. intros i' Hi'. apply (Hm (S i')). simpl; lia.
Qed.

(** Steps 4 and 7: products of shared bits. *)
Lemma select_runs fs xs (F g : nat → bool) n (ix : nat → nat) a s w :
  (∀ i j, (i < n)%nat → (j < n)%nat → F i = true → F j = true → i = j) →
  SharesBits fs F n → (∀ i, (i < n)%nat → Shares (at_ xs (ix i)) (Z.b2z (g (ix i)))) →
  at_cursor a s w →
  runs (mfold (λ acc i, let* t := s_mul (at_ fs i) (at_ xs (ix i)) in ret (s_add acc t))
          (seq 0 n) (s_lit 0)) w
    (λ x w', Shares x (Z.b2z (existsb (λ i, F i && g (ix i)) (seq 0 n))) ∧ at_cursor a s w').
Proof.
  intros Hd HF Hg Hw. eapply runs_mono.
  - apply (runs_mfold_seq _ 0 n (λ i b w',
      Shares b (Zsum (map (λ i, Z.b2z (F i && g (ix i))) (seq 0 i))) ∧ at_cursor a s w')).
    + split; [apply Shares_zero|exact Hw].
    + intros i b w1 Hi [Hb H1].
      eapply runs_bind; [apply s_mul_runs; [apply HF; lia|apply Hg; lia]|].
      intros t w2 [Ht H2]. apply runs_ret. split; [|by eapply at_cursor_moved0].
      rewrite Zsum_map_seq_S. apply Shares_add; [done|].
      eapply Shares_cong; [exact Ht|]. by destruct (F i), (g (ix i)).
  - intros x w' [Hx Hw']. split; [|done]. rewrite Zsum_disjoint in Hx; [done|].
    intros i j Hi Hj [Fi _]%andb_true_iff [Fj _]%andb_true_iff. by apply Hd.
Qed.

Lemma combine_runs fs bs ss (F B S' : nat → bool) n a s w :
  SharesBits fs F n → SharesBits bs B n → SharesBits ss S' n →
  (∀ i, (i < n)%nat → F i = true → S' i = false) →
  at_cursor a s w →
  runs (mmap (λ i, mmap (λ j,
      let* t := s_mul (at_ fs i) (at_ bs j) in ret (s_add t (at_ ss i))) (seq 0 n)) (seq 0 n)) w
    (λ rows w', length rows = n
      ∧ (∀ i, (i < n)%nat → length (nth i rows []) = n
           ∧ SharesBits (nth i rows []) (λ j, (F i && B j) || S' i) n)
      ∧ at_cursor a s w').
Proof.
  intros HF HB HS Hd Hw.
  apply (runs_seq _ n (λ i row, length row = n ∧ SharesBits row (λ j, (F i && B j) || S' i) n)
           (λ _ w', at_cursor a s w')); [exact Hw|].
  intros i w1 Hi H1. eapply runs_mono.
  - apply (runs_seq _ n (λ j x, Shares x (Z.b2z ((F i && B j) || S' i)))
             (λ _ w', at_cursor a s w') w1 s_zero); [exact H1|].
    intros j w2 Hj H2. eapply runs_bind; [apply s_mul_runs; [by apply HF|by apply HB]|].
    intros t w3 [Ht H3]. apply runs_ret. split; [|by eapply at_cursor_moved0].
    eapply Shares_cong; [apply Shares_add; [exact Ht|by apply HS]|].
    pose proof (Hd i Hi). destruct (F i), (B j), (S' i); try reflexivity; naive_solver.
  - intros row w2 (Hl & HR & H2). auto.
Qed.

(** The prefixes of [lambda] bits, by one fan-in gate each. *)
Lemma prefix_loop xs X a s w :
  SharesBits xs X lambda → at_cursor a s w → nonzero_window a s 1024 →
  runs (mmap (λ i, subUnboundedFanInOr (subPadding0 xs (i + 1))) (seq 0 lambda)) w (λ ys w',
    SharesBits ys (prefix_or X) lambda ∧ at_cursor (a + 1024) s w').
Proof.
  intros Hx Hw Hn. eapply runs_mono.
  - apply (fanin_or_loop (λ i, subPadding0 xs (i + 1)) (λ i j, (j <? i + 1)%nat && X j) lambda a s w);
      [|exact Hw|apply (nonzero_window_le a s 1024); [exact Hn|dims]].
    intros i Hi. apply (subPadding0_bits _ _ _ lambda); [lia|dims|done].
  - intros ys w' (_ & Hy & Hw'). split.
    + apply (SharesBits_ext _ _ (prefix_or X)) in Hy; [exact Hy|].
      intros; unfold prefix_or; rewrite existsb_window by (dims); by rewrite Nat.add_1_r.
    + by replace (a + 1024)%nat with (a + 2 * l * lambda)%nat by (dims).
Qed.

(** The differences of neighbouring prefixes mark the first set bit. *)
Lemma first_set_shares xs ys X :
  SharesBits xs X lambda → SharesBits ys (prefix_or X) lambda →
  SharesBits (map (λ i, if (i =? 0)%nat then at_ xs 0 else s_sub (at_ ys i) (at_ ys (i - 1)))
                (seq 0 lambda)) (first_set X) lambda.
Proof.
  intros Hx Hy i Hi. rewrite at_map by done. destruct i as [|i]; cbn [Nat.eqb].
  - eapply Shares_cong; [apply (Hx 0%nat); dims|].
    unfold first_set. cbn [existsb seq]. rewrite andb_true_r. reflexivity.
  - replace (S i - 1)%nat with i by lia.
    eapply Shares_cong; [apply Shares_sub; apply Hy; lia|]. by rewrite (proj1 (first_set_diff X i)).
Qed.

Lemma before_set_shares ys fs X :
  SharesBits ys (prefix_or X) lambda → SharesBits fs (first_set X) lambda →
  SharesBits (map (λ i, s_sub (at_ ys i) (at_ fs i)) (seq 0 lambda))
    (λ i, existsb X (seq 0 i)) lambda.
Proof.
  intros Hy Hf i Hi. rewrite at_map by done.
  eapply Shares_cong; [apply Shares_sub; [by apply Hy|by apply Hf]|].
  by rewrite (proj2 (first_set_diff X i)).
Qed.

Lemma subPrefixOr_runs a_shares g a s w :
  length a_shares = l → SharesBits a_shares g l → at_cursor a s w → nonzero_window a s 3072 →
  runs (subPrefixOr a_shares) w (λ xs w',
    SharesBits xs (prefix_or g) l ∧ at_cursor (a + 3072) s w').
Proof.
  intros Hl Hg Hw Hn. unfold subPrefixOr.
  set (X := λ i, existsb (λ j, g (lambda * i + j)%nat) (seq 0 lambda)).
  set (A := λ j, existsb (λ i, first_set X i && g (lambda * i + j)%nat) (seq 0 lambda)).
  eapply runs_bind.
  { apply (fanin_or_loop (block a_shares)
      (λ i j, (j <? lambda)%nat && g (lambda * i + j)%nat) lambda a s w);
      [|exact Hw|apply (nonzero_window_le a s 3072); [exact Hn|dims]].
    intros i Hi. by apply block_bits. }
  intros xs w1 (_ & Hx & Hw1).
  apply (SharesBits_ext _ _ X) in Hx; [|intros; apply existsb_window; dims].
  eapply runs_bind.
  { apply (prefix_loop xs X (a + 1024) s w1); [exact Hx|exact Hw1|].
    apply (nonzero_window_sub a s 3072); [exact Hn|dims]. }
  intros ys w2 (Hy & Hw2). pose proof (first_set_shares xs ys X Hx Hy) as Hf.
  set (fs := map _ (seq 0 lambda)) in *.
  eapply runs_bind.
  { apply (runs_seq _ lambda (λ j x, Shares x (Z.b2z (A j)))
             (λ _ w', at_cursor (a + 1024 + 1024) s w') w2 s_zero); [exact Hw2|].
    intros j w3 Hj H3.
    apply (select_runs fs a_shares (first_set X) g lambda (λ i, lambda * i + j)%nat);
      [intros; by eapply first_set_unique|done| |exact H3].
    intros i Hi. apply Hg. dims. }
  intros ais w3 (_ & Ha & Hw3).
  eapply runs_bind.
  { apply (prefix_loop ais A (a + 1024 + 1024) s w3); [exact Ha|exact Hw3|].
    replace (a + 1024 + 1024)%nat with (a + 2048)%nat by lia.
    apply (nonzero_window_sub a s 3072); [exact Hn|lia]. }
  intros bis w4 (Hb & Hw4). pose proof (before_set_shares ys fs X Hy Hf) as Hs.
  eapply runs_bind.
  { apply (combine_runs fs bis _ (first_set X) (prefix_or A) (λ i, existsb X (seq 0 i)) lambda
             (a + 1024 + 1024 + 1024) s); [exact Hf|exact Hb|exact Hs| |exact Hw4].
    intros i Hi [_ Hne%negb_true_iff]%andb_true_iff. exact Hne. }
  intros rows w5 (Hrl & Hr & Hw5). apply runs_ret. split.
  - intros k Hk. rewrite (Nat.div_mod_eq k lambda).
    assert (k / lambda < lambda)%nat as Hd by (apply Nat.Div0.div_lt_upper_bound; exact Hk).
    assert (k mod lambda < lambda)%nat as Hm by (apply Nat.mod_upper_bound; done).
    rewrite at_concat; [|intros i Hi; apply Hr; by rewrite Hrl in Hi|by rewrite Hrl|done].
    rewrite <- (prefix_or_blocks g lambda) by done. by apply Hr.
  - by replace (a + 3072)%nat with (a + 1024 + 1024 + 1024)%nat by lia.
Qed.

(** *** Bit-wise less-than *)

Lemma sum_runs xs (f : nat → Z) n :
  (∀ i, (i < n)%nat → Shares (at_ xs i) (f i)) →
  Shares (fold_left (λ acc i, s_add acc (at_ xs i)) (seq 0 n) (s_lit 0)) (Zsum (map f (seq 0 n))).
Proof.
  intros Hx. apply (fold_left_seq _ n (λ i b, Shares b (Zsum (map f (seq 0 i)))) _ 0).
  - apply Shares_zero.
  - intros i b Hi Hb. rewrite Zsum_map_seq_S. apply Shares_add; [done|apply Hx; lia].
Qed.

Lemma subBitwiseLessThan_runs xs ys g h a s w :
  length xs = l → length ys = l → SharesBits xs g l → SharesBits ys h l →
  at_cursor a s w → nonzero_window a s 3072 →
  runs (subBitwiseLessThan xs ys) w (λ x w',
    Shares x (Z.b2z (bits_value g l <? bits_value h l)) ∧ at_cursor (a + 3072) s w').
Proof.
  intros Hxl Hyl Hg Hh Hw Hn. unfold subBitwiseLessThan.
  eapply runs_bind.
  { apply (v_mul_at xs ys l (λ k, Z.b2z (g k)) (λ k, Z.b2z (h k))); auto. }
  intros ab w1 (_ & Hab & Hw1).
  eapply runs_bind.
  { apply (subPrefixOr_runs _ (λ k, xorb (g k) (h k)) a s).
    - by rewrite length_map, length_seq.
    - intros k Hk. rewrite at_map by done.
      eapply Shares_cong; [apply Shares_sub; [apply Shares_add|apply Shares_mulc]|];
        [by apply Hg|by apply Hh|by apply Hab|]. by destruct (g k), (h k).
    - by eapply at_cursor_moved0.
    - done. }
  intros ds w2 [Hd Hw2].
  set (es := map _ (seq 0 l)).
  assert (SharesBits es (first_diff g h) l) as He.
  { intros k Hk. unfold es. rewrite at_map by done. destruct k as [|k]; cbn [Nat.eqb].
    - eapply Shares_cong; [apply (Hd 0%nat Hk)|].
      unfold prefix_or, first_diff. cbn [existsb seq negb]. rewrite orb_false_r, andb_true_r.
      reflexivity.
    - replace (S k - 1)%nat with k by lia.
      eapply Shares_cong; [apply Shares_sub; apply Hd; lia|].
      by rewrite (proj1 (first_set_diff (λ k, xorb (g k) (h k)) k)). }
  eapply runs_bind.
  { apply (v_mul_at es ys l (λ k, Z.b2z (first_diff g h k)) (λ k, Z.b2z (h k))); auto. }
  intros eb w3 (_ & Heb & Hw3). apply runs_ret. split; [|by eapply at_cursor_moved0].
  rewrite <- bits_lt, <- Zsum_disjoint.
  - apply sum_runs. intros i Hi. eapply Shares_cong; [by apply Heb|].
    by destruct (first_diff g h i), (h i).
  - intros i j _ _ [Hi _]%andb_true_iff [Hj _]%andb_true_iff.
    by apply (first_set_unique (λ k, xorb (g k) (h k))).
Qed.

(** *** Bits and numbers *)

Lemma BStoSC_ok xs g : SharesBits xs g l → Shares (BStoSC xs) (bits_value g l).
Proof.
  intros Hg. unfold BStoSC.
  assert (∀ n acc coef v, (n ≤ l)%nat → Shares acc v →
    Shares (fst (fold_left (λ '(acc, coef) i, (s_add acc (s_mulc (at_ xs i) coef), mul coef 2))
                  (rev (seq 0 n)) (acc, coef))) (v + coef * bits_value g n)) as Hgen.
  { induction n as [|n IH]; intros acc coef v Hn Hacc.
    - cbn [seq rev fold_left fst bits_value]. eapply Shares_cong; [exact Hacc|cong_ring].
    - rewrite seq_S, rev_unit. cbn [fold_left Nat.add bits_value].
      eapply Shares_cong; [apply IH; [lia|]|].
      + apply Shares_add; [exact Hacc|apply Shares_mulc, Hg; lia].
      + rewrite mul_cong_mul. cong_ring. }
  pose proof (Hgen l (s_lit 0) 1 0 (le_n l) Shares_zero) as Hr.
  eapply Shares_cong; [exact Hr|]. generalize (bits_value g l). intros v. cong_ring.
Qed.

(** The bits of a number, most significant first. *)
Fixpoint bits_of (k : nat) (y : Z) : list bool :=
  match k with O => [] | S k => bits_of k (y / 2) ++ [Z.odd y] end.
Definition bit_of (x : Z) (i : nat) : bool := nth i (bits_of l x) false.

Lemma bits_of_length k y : length (bits_of k y) = k.
Proof. revert y; induction k as [|k IH]; intros y; [done|]. simpl. rewrite length_app, IH. simpl; lia. Qed.

Lemma bits_of_value k y :
  0 ≤ y → bits_value (λ i, nth i (bits_of k y) false) k = y mod 2 ^ Z.of_nat k.
Proof.
  revert y; induction k as [|k IH]; intros y Hy; [by rewrite Z.mod_1_r|].
  cbn [bits_of bits_value].
  rewrite (bits_value_ext _ (λ i, nth i (bits_of k (y / 2)) false))
    by (intros i Hi; apply app_nth1; by rewrite bits_of_length).
  rewrite IH, app_nth2, bits_of_length, Nat.sub_diag by (rewrite ?bits_of_length; try lia; apply Z.div_pos; lia).
  cbn [nth]. rewrite Nat2Z.inj_succ, Z.pow_succ_r by lia.
  rewrite Z.rem_mul_r by lia. rewrite Zmod_odd. destruct (Z.odd y); cbn [Z.b2z]; lia.
Qed.

Lemma bit_of_value x : canonical x → bits_value (bit_of x) l = x.
Proof.
  intros Hx. unfold bit_of. rewrite bits_of_value by (unfold canonical in Hx; lia).
  apply Z.mod_small. unfold canonical, p in Hx. change (2 ^ Z.of_nat l) with 18446744073709551616.
  lia.
Qed.

Lemma share_bit_runs bit a s w :
  at_cursor a s w →
  runs (share_bit bit) w (λ x w', Shares x bit ∧ at_cursor (a + 1) (s + (n_parties - 1)) w').
Proof.
  intros Hw. unfold share_bit. eapply runs_bind.
  { apply getRand_runs; unfold RandGenerator.default_min, RandGenerator.default_max; lia. }
  intros r w1 (_ & _ & Hw1 & _). eapply at_cursor_moved in Hw1; [|exact Hw].
  eapply runs_bind; [apply sharize_runs|]. generalize (nth (sp_id - 1) r sv_zero). intros r_sp x w2 [Hx Hw2].
  eapply at_cursor_moved in Hw2; [|exact Hw1]. rewrite !Nat.add_0_r in Hw2.
  apply runs_ret. split; [|done].
  eapply Shares_cong; [apply (Shares_at_sp (λ v, add (sub bit r_sp) v) (bit - r_sp)); [| |exact Hx]|].
  - intros v. rewrite add_cong_add, sub_cong_sub. cong_ring.
  - intros v. apply canonical_wf, add_canonical.
  - cong_ring.
Qed.

Lemma PFtoBS_loop_runs k y acc a s w :
  0 ≤ y → at_cursor a s w →
  runs (PFtoBS_loop k y acc) w (λ xs w', ∃ bits, xs = bits ++ acc
    ∧ Forall2 Shares bits (map Z.b2z (bits_of k y))
    ∧ at_cursor (a + k) (s + k * (n_parties - 1)) w').
Proof.
  revert y acc a s w; induction k as [|k IH]; intros y acc a s w Hy Hw; cbn [PFtoBS_loop bits_of].
  - apply runs_ret. exists []. split_and!; [done|constructor|]. by rewrite !Nat.add_0_r.
  - eapply runs_bind; [by apply share_bit_runs|]. intros b w1 [Hb Hw1].
    eapply runs_mono; [apply IH; [apply Z.div_pos; lia|exact Hw1]|].
    intros xs w2 (bits & -> & Hbits & Hw2). exists (bits ++ [b]). rewrite <- app_assoc.
    split_and!; [done| |].
    + rewrite map_app. apply Forall2_app; [done|]. constructor; [|constructor].
      rewrite Zmod_odd in Hb. by destruct (Z.odd y).
    + replace (a + S k)%nat with (a + 1 + k)%nat by lia.
      by replace (s + S k * (n_parties - 1))%nat
        with (s + (n_parties - 1) + k * (n_parties - 1))%nat by lia.
Qed.

Lemma PFtoBS_runs x a s w :
  canonical x → at_cursor a s w →
  runs (PFtoBS x) w (λ xs w', length xs = l ∧ SharesBits xs (bit_of x) l
    ∧ at_cursor (a + l) (s + l * (n_parties - 1)) w').
Proof.
  intros Hx Hw. eapply runs_mono.
  - apply (PFtoBS_loop_runs l x [] a s w); [unfold canonical in Hx; lia|done].
  - intros xs w' (bits & -> & Hb & Hw'). rewrite app_nil_r.
    pose proof (Forall2_length _ _ _ Hb) as Hl. rewrite length_map, bits_of_length in Hl.
    split_and!; [done| |done]. intros k Hk.
    destruct (lookup_lt_is_Some_2 bits k) as [x' Hx']; [lia|].
    destruct (Forall2_lookup_l _ _ _ _ _ Hb Hx') as (v & Hv & Hs).
    unfold at_. rewrite (nth_lookup_Some _ _ _ _ Hx').
    rewrite list_lookup_fmap in Hv. apply fmap_Some in Hv as (b & Hb' & ->).
    unfold bit_of. by rewrite (nth_lookup_Some _ _ _ _ Hb').
Qed.

(** *** Half less-than *)

(** The randomness of one run of [subHalfLessThan] from a cursor. *)
Definition half_randomness (a s : nat) : Prop :=
  nonzero_window a s l ∧ rbvs_value a s < p
  ∧ nonzero_window (a + 2 * l) (s + l * (n_parties - 1)) 3072.
Definition half_draws : nat := 2 * l + 3072.

(** The parity of a masked double: it wraps around [p] or not. *)
Lemma half_parity u r :
  canonical u → canonical r → let c := (2 * u + r) mod p in
  xorb (xorb (Z.odd c) (Z.odd r)) (c <? r) = negb (2 * u <? p).
Proof.
  intros Hu Hr c. unfold canonical in *.
  assert (∃ k, 0 ≤ k ≤ 2 ∧ c = 2 * u + r - k * p ∧ 0 ≤ c < p) as (k & Hk & Hc & Hcb).
  { unfold c. exists ((2 * u + r) / p).
    pose proof (Z.div_mod (2 * u + r) p ltac:(unfold p; lia)) as Hdm.
    pose proof (Z.mod_pos_bound (2 * u + r) p p_pos) as Hmb.
    clearbody c. revert Hdm Hmb. generalize ((2 * u + r) / p) ((2 * u + r) mod p).
    intros q m Hdm Hmb. pose proof p_pos. nia. }
  clearbody c. pose proof (Z.div2_odd c) as Ec. pose proof (Z.div2_odd r) as Er.
  revert Ec Er. generalize (Z.div2 c) (Z.div2 r). intros cq rq Ec Er.
  assert (k = 0 ∨ k = 1 ∨ k = 2) as Hk3 by lia. unfold p in *.
  destruct (Z.ltb_spec c r), (Z.ltb_spec (2 * u) 18446744073709551557), (Z.odd c), (Z.odd r);
    cbn [xorb negb Z.b2z] in *; try reflexivity; exfalso;
    destruct Hk3 as [->|[->| ->]]; lia.
Qed.

Lemma bits_value_odd g n : Z.odd (bits_value g (S n)) = g n.
Proof.
  cbn [bits_value]. rewrite Z.odd_add, Z.odd_mul. destruct (g n); done.
Qed.

(** The last step: a sum of two products that is an exclusive or. *)
Lemma xor_runs cr x (b d : bool) a s w :
  Shares cr (Z.b2z b) → Shares x (Z.b2z d) → at_cursor a s w →
  runs (let* t := s_mul cr (c_sub 1 x) in let* u := s_mul (c_sub 1 cr) x in ret (s_add t u)) w
    (λ y w', Shares y (Z.b2z (xorb b d)) ∧ at_cursor a s w')
  ∧ runs (let* t := s_mul cr x in let* u := s_mul (c_sub 1 cr) (c_sub 1 x) in ret (s_add t u)) w
    (λ y w', Shares y (Z.b2z (negb (xorb b d))) ∧ at_cursor a s w').
Proof.
  intros Hb Hd Hw.
  assert (∀ x1 v1 x2 v2 e, Shares x1 v1 → Shares x2 v2 →
    Z.b2z b * v1 + (1 - Z.b2z b) * v2 ≅ e →
    runs (let* t := s_mul cr x1 in let* u := s_mul (c_sub 1 cr) x2 in ret (s_add t u)) w
      (λ y w', Shares y e ∧ at_cursor a s w')) as Hgen.
  { intros x1 v1 x2 v2 e H1 H2 He. eapply runs_bind; [by apply s_mul_runs|].
    intros t w1 [Ht Hw1]. eapply runs_bind; [apply s_mul_runs; [by apply Shares_c_sub|exact H2]|].
    intros u w2 [Hu Hw2]. apply runs_ret. split.
    - eapply Shares_cong; [by apply Shares_add|done].
    - eapply at_cursor_moved0; [|exact Hw2]. by eapply at_cursor_moved0. }
  split; eapply Hgen; try apply Shares_c_sub; try exact Hd; by destruct b, d.
Qed.

Lemma rbvs_value_canonical a s : rbvs_value a s < p → canonical (rbvs_value a s).
Proof. intros Hr. split; [apply bits_value_bound|done]. Qed.

Lemma rbvs_value_eq a s : bits_value (rbvs_bits a s) l = rbvs_value a s.
Proof. unfold rbvs_value. reflexivity. Qed.

Lemma rbvs_value_odd a s : Z.odd (rbvs_value a s) = rbvs_bits a s 63.
Proof. rewrite <- rbvs_value_eq. change l with 64%nat. apply bits_value_odd. Qed.

#[local] Opaque rbvs_value bits_value rand_at.

Lemma subHalfLessThan_runs fuel x v a s w :
  Shares x v → at_cursor a s w → half_randomness a s →
  runs (subHalfLessThan (S fuel) x) w (λ y w',
    Shares y (Z.b2z (2 * (v mod p) <? p))
    ∧ at_cursor (a + half_draws) (s + l * (n_parties - 1)) w').
Proof.
  intros Hx Hw (Hn1 & Hr & Hn2). unfold subHalfLessThan.
  eapply runs_bind; [by apply subRBVS_runs|]. intros rs w1 (Hrl & Hrs & Hw1).
  pose proof (BStoSC_ok rs _ Hrs) as Hrsum. rewrite rbvs_value_eq in Hrsum.
  pose proof (rbvs_value_canonical a s Hr) as Hrc.
  pose proof (rbvs_value_odd a s) as Hodd.
  eapply runs_bind.
  { apply open_recons_runs, Shares_add; [by apply Shares_mulc|exact Hrsum]. }
  intros c w2 [Hc ->].
  assert (c = (2 * (v mod p) + rbvs_value a s) mod p) as Hc'.
  { rewrite Hc. change (v * 2 + rbvs_value a s ≅ 2 * (v mod p) + rbvs_value a s).
    rewrite mod_cong. cong_ring. }
  assert (canonical c) as Hcc by (rewrite Hc; apply canonical_mod).
  eapply runs_bind; [by apply PFtoBS_runs|]. intros cs w3 (Hcl & Hcs & Hw3).
  eapply runs_bind.
  { apply (subBitwiseLessThan_runs cs rs (bit_of c) (rbvs_bits a s)); [done..|exact Hw3|].
    by replace (a + l + l)%nat with (a + 2 * l)%nat by lia. }
  intros cr w4 [Hcr Hw4]. rewrite bit_of_value in Hcr by done.
  rewrite rbvs_value_eq in Hcr.
  pose proof (half_parity (v mod p) (rbvs_value a s) (canonical_mod v) Hrc) as Hpar.
  cbn zeta in Hpar. rewrite <- Hc', Hodd in Hpar.
  pose proof (Hrs 63%nat ltac:(dims)) as H0.
  destruct (xor_runs cr (at_ rs 63) _ _ _ _ w4 Hcr H0 Hw4) as [Hx1 Hx2].
  eapply (runs_bind _ _ _ (λ y w', Shares y (Z.b2z (negb (2 * (v mod p) <? p)))
    ∧ at_cursor (a + l + l + 3072) (s + l * (n_parties - 1)) w')).
  - change (l - 1)%nat with 63%nat. unfold getVal. rewrite Zmod_odd.
    destruct (Z.odd c); cbn [Z.eqb]; rewrite <- Hpar.
    + eapply runs_mono; [exact Hx2|]. intros y w' [Hy Hw']. split; [|exact Hw'].
      destruct (c <? rbvs_value a s), (rbvs_bits a s 63); exact Hy.
    + eapply runs_mono; [exact Hx1|]. intros y w' [Hy Hw']. split; [|exact Hw'].
      destruct (c <? rbvs_value a s), (rbvs_bits a s 63); exact Hy.
  - intros y w' [Hy Hw']. apply runs_ret. split.
    + eapply Shares_cong; [by apply Shares_c_sub|]. by destruct (2 * (v mod p) <? p).
    + unfold half_draws. by replace (a + (2 * l + 3072))%nat with (a + l + l + 3072)%nat by lia.
Qed.
End Gates.
