(* ===== verification/CompareMain.v ===== *)
(** * The main comparison protocols

    [comparisonTest], [equalityTest] and [intervalTest] of [Compare.cpp], what
    they share, and the theorems about the comparison protocols. *)
From stdpp Require Import base list numbers sets strings.
From Stdlib Require Import ZArith Lia.
From S2P Require Import Prelude NumberTheory Field FixedPoint Random Share SharePF Compare.
From S2P Require Import CompareCorrect.
#[local] Open Scope Z_scope.
#[local] Open Scope qmpc_scope.
Import PrimeFieldFacts.
Import Compare.Compare.
#[local] Opaque rbvs_value bits_value rand_at.

Section Main.
Context `{IO : IntegerIO} `{E : Env} `{V : !ValidEnv E}.
#[local] Existing Instance pf_value.
Import PrimeField.

Lemma Shares_not x (b : bool) : Shares x (Z.b2z b) → Shares (c_sub 1 x) (Z.b2z (negb b)).
Proof. intros Hx. eapply Shares_cong; [by apply Shares_c_sub|]. by destruct b. Qed.

Definition sp_step : nat := l * (n_parties - 1).

(** *** Less-than *)

(** Three runs of [subHalfLessThan], one after the other. *)
Definition comparison_randomness (a s : nat) : Prop :=
  half_randomness a s ∧ half_randomness (a + half_draws) (s + sp_step)
  ∧ half_randomness (a + half_draws + half_draws) (s + sp_step + sp_step).

Lemma compare_halves u v :
  canonical u → canonical v →
  let w := Z.b2z (2 * u <? p) in let x := Z.b2z (2 * v <? p) in
  let y := Z.b2z (2 * ((u - v) mod p) <? p) in
  w * (x + y - x * y * 2) + 1 - y - x + x * y = Z.b2z (u <? v).
Proof.
  intros Hu Hv. unfold canonical in *.
  assert ((u - v) mod p = if u <? v then u - v + p else u - v) as ->.
  { destruct (Z.ltb_spec u v).
    - rewrite <- (Z_mod_plus_full (u - v) 1 p), Z.mod_small; lia.
    - apply Z.mod_small. lia. }
  cbn zeta. unfold p in *.
  destruct (Z.ltb_spec u v), (Z.ltb_spec (2 * u) 18446744073709551557),
    (Z.ltb_spec (2 * v) 18446744073709551557); cbn [Z.b2z];
    match goal with |- context [?e <? ?m] => destruct (Z.ltb_spec e m) end;
    cbn [Z.b2z]; lia.
Qed.

Lemma comparisonTest_runs fuel x y u v a s w :
  Shares x u → Shares y v → at_cursor a s w → comparison_randomness a s →
  runs (comparisonTest (S fuel) x y) w (λ z w', Shares z (Z.b2z (u mod p <? v mod p))).
Proof.
  intros Hx Hy Hw (R1 & R2 & R3). unfold comparisonTest.
  eapply runs_bind; [by apply subHalfLessThan_runs|]. intros b1 w1 [H1 Hw1].
  eapply runs_bind; [by apply subHalfLessThan_runs|]. intros b2 w2 [H2 Hw2].
  eapply runs_bind; [apply subHalfLessThan_runs; [by apply Shares_sub|exact Hw2|exact R3]|].
  intros b3 w3 [H3 Hw3].
  eapply runs_bind; [by apply s_mul_runs|]. intros xy w4 [Hxy Hw4].
  eapply runs_bind.
  { apply s_mul_runs; [exact H1|]. apply Shares_sub; [by apply Shares_add|by apply Shares_mulc]. }
  intros t w5 [Ht Hw5]. apply runs_ret.
  eapply Shares_cong.
  { apply Shares_add; [|exact Hxy]. apply Shares_sub; [|exact H2]. apply Shares_sub; [|exact H3].
    by apply Shares_addc. }
  assert ((u - v) mod p = (u mod p - v mod p) mod p) as -> by (apply Zminus_mod).
  rewrite <- (compare_halves (u mod p) (v mod p)) by apply canonical_mod. reflexivity.
Qed.

(** *** Equality *)

Definition equality_randomness (a s : nat) : Prop :=
  nonzero_window a s l ∧ rbvs_value a s < p ∧ nonzero_window (a + l) s (2 * l).

Lemma xnor_loop_after k x rs acc j : at_ (xnor_loop k x rs acc) (k + j) = at_ acc j.
Proof.
  revert x acc j; induction k as [|k IH]; intros x acc j; [done|]. cbn [xnor_loop].
  replace (S k + j)%nat with (k + S j)%nat by lia. by rewrite IH.
Qed.

Lemma xnor_loop_bits k x rs g acc :
  0 ≤ x → SharesBits rs g k →
  SharesBits (xnor_loop k x rs acc) (λ i, Bool.eqb (nth i (bits_of k x) false) (g i)) k.
Proof.
  revert x acc; induction k as [|k IH]; intros x acc Hx Hg i Hi; [lia|].
  cbn [xnor_loop bits_of].
  rewrite Z.shiftr_div_pow2 by lia. change (2 ^ 1) with 2.
  destruct (decide (i = k)) as [->|Hne].
  - pose proof (xnor_loop_after k (x / 2) rs
      ((if x mod 2 =? 1 then at_ rs k else c_sub 1 (at_ rs k)) :: acc) 0) as He.
    rewrite Nat.add_0_r in He. rewrite He. unfold at_ at 1. cbn [nth].
    rewrite app_nth2, bits_of_length, Nat.sub_diag by (rewrite bits_of_length; lia). cbn [nth].
    pose proof (Hg k ltac:(lia)) as Hk. rewrite Zmod_odd.
    destruct (Z.odd x); cbn [Z.eqb].
    + eapply Shares_cong; [exact Hk|]. by destruct (g k).
    + eapply Shares_cong; [by apply Shares_c_sub|]. by destruct (g k).
  - rewrite app_nth1 by (rewrite bits_of_length; lia).
    apply IH; [apply Z.div_pos; lia| |lia]. intros j Hj. apply Hg. lia.
Qed.

Lemma equalityTest_runs fuel x y u v a s w :
  Shares x u → Shares y v → at_cursor a s w → equality_randomness a s →
  runs (equalityTest (S fuel) x y) w (λ z w', Shares z (Z.b2z (u mod p =? v mod p))).
Proof.
  intros Hx Hy Hw (Hn1 & Hr & Hn2). unfold equalityTest.
  eapply runs_bind; [by apply subRBVS_runs|]. intros rs w1 (Hrl & Hrs & Hw1).
  pose proof (BStoSC_ok rs _ Hrs) as Hrsum. rewrite rbvs_value_eq in Hrsum.
  pose proof (rbvs_value_canonical a s Hr) as Hrc.
  eapply runs_bind.
  { apply open_recons_runs, Shares_add; [by apply Shares_sub|exact Hrsum]. }
  intros c w2 [Hc ->].
  assert (canonical c) as Hcc by (rewrite Hc; apply canonical_mod).
  eapply runs_mono.
  - eapply subUnboundedFanInAnd_runs; [|exact Hw1|exact Hn2].
    apply xnor_loop_bits; [|exact Hrs]. unfold getVal, canonical in *. lia.
  - intros z w' [Hz _]. eapply Shares_cong; [exact Hz|].
    rewrite (bits_eq (λ i, nth i (bits_of l (getVal c)) false) (rbvs_bits a s)).
    change (λ i, nth i (bits_of l (getVal c)) false) with (bit_of c).
    rewrite (bit_of_value c Hcc), rbvs_value_eq.
    assert (∀ b b' : bool, (b = true ↔ b' = true) → Z.b2z b ≅ Z.b2z b') as Hb
      by (intros [] [] Hb; try reflexivity; exfalso; intuition congruence).
    apply Hb. rewrite !Z.eqb_eq. clear Hb Hz. revert Hc Hrc Hcc.
    generalize (rbvs_value a s). intros r Hc Hrc Hcc. split; intros He.
    + assert (u - v ≅ 0) as Huv.
      { transitivity (u - v + r - r); [cong_ring|].
        assert (u - v + r ≅ r) as -> by (unfold cong; rewrite <- Hc, He; symmetry; apply Z.mod_small, Hrc).
        cong_ring. }
      change (u ≅ v). transitivity (u - v + v); [cong_ring|]. rewrite Huv. cong_ring.
    + apply cong_canonical; [done|done|]. rewrite Hc, mod_cong.
      change (u ≅ v) in He. rewrite He. cong_ring.
Qed.

(** *** Intervals *)

Definition interval_randomness (a s : nat) : Prop :=
  nonzero_window a s l ∧ rbvs_value a s < p
  ∧ nonzero_window (a + 3 * l) (s + 2 * sp_step) (3072 + 3072).

(** What the test gives for the secret [v] when the masked value is [c]: at the
    two ends of the interval one bound wraps to zero. *)
Definition interval_value (c1 c2 v c : Z) : bool :=
  if c =? c1 then false else if c =? c2 - 1 then true else (c1 <? v) && (v <? c2).

Lemma interval_bounds c1 c2 v r :
  canonical c1 → canonical c2 → c1 < c2 → canonical v → canonical r →
  let c := (v + r) mod p in
  interval_value c1 c2 v c =
  if ltb c1 c && ltb c c2
  then negb ((sub (sub c c1) 1 <? r) && (r <? add (sub (add c 0) c2) 1))
  else if negb (ltb c c2) then (sub c c2 <? r) && (r <? sub c c1)
  else (sub (add c 0) c2 <? r) && (r <? sub (add c 0) c1).
Proof.
  intros H1 H2 H12 Hv Hr c.
  assert (canonical c) as Hc by apply canonical_mod.
  assert (c = v + r ∨ c = v + r - p) as Hcv.
  { unfold c, canonical in *. destruct (Z.lt_ge_cases (v + r) p); [left; apply Z.mod_small; lia|right].
    rewrite <- (Z_mod_plus_full (v + r) (-1) p). rewrite Z.mod_small; lia. }
  clearbody c.
  assert (∀ x y, canonical x → canonical y → sub x y = if y <=? x then x - y else x - y + p) as Hsub.
  { intros x y Hx Hy. unfold sub, canonical in *. destruct (Z.leb_spec y x).
    - rewrite <- (Z_mod_plus_full (x + (p - y)) (-1) p). rewrite Z.mod_small; lia.
    - rewrite Z.mod_small; lia. }
  assert (∀ x, canonical x → add x 1 = if x =? p - 1 then 0 else x + 1) as Hadd.
  { intros x Hx. unfold add, canonical in *. destruct (Z.eqb_spec x (p - 1)) as [->|].
    - reflexivity.
    - rewrite Z.mod_small; lia. }
  assert (add c 0 = c) as -> by (unfold add; rewrite Z.add_0_r; apply Z.mod_small, Hc).
  rewrite Hadd by apply sub_canonical.
  rewrite (Hsub (sub c c1) 1) by (apply sub_canonical || apply canonical_1).
  rewrite (Hsub c c1), (Hsub c c2) by done.
  unfold interval_value, ltb, canonical, p in *.
  destruct (Z.ltb_spec c1 c), (Z.ltb_spec c c2); cbn [andb negb]; repeat
    match goal with |- context [?e <=? ?m] => destruct (Z.leb_spec e m) end;
    try lia;
    destruct (Z.eqb_spec c c1), (Z.eqb_spec c (c2 - 1)); try lia;
    repeat match goal with
      | |- context [?e =? ?m] => destruct (Z.eqb_spec e m)
      | |- context [?e <? ?m] => destruct (Z.ltb_spec e m)
      end; cbn [andb negb]; try reflexivity; exfalso; lia.
Qed.

Lemma intervalTest_runs fuel c1 c2 x v a s w :
  canonical c1 → canonical c2 → c1 < c2 →
  Shares x v → at_cursor a s w → interval_randomness a s →
  runs (intervalTest (S fuel) c1 x c2) w (λ z w',
    Shares z (Z.b2z (interval_value c1 c2 (v mod p) ((v + rbvs_value a s) mod p)))).
Proof.
  intros H1 H2 H12 Hx Hw (Hn1 & Hr & Hn2). unfold intervalTest.
  eapply runs_bind; [by apply subRBVS_runs|]. intros rs w1 (Hrl & Hrs & Hw1).
  pose proof (BStoSC_ok rs _ Hrs) as Hrsum. rewrite rbvs_value_eq in Hrsum.
  pose proof (rbvs_value_canonical a s Hr) as Hrc.
  eapply runs_bind; [by apply open_recons_runs, Shares_add|]. intros c w2 [Hc ->].
  assert (canonical c) as Hcc by (rewrite Hc; apply canonical_mod).
  rewrite <- Hc.
  assert (c = (v mod p + rbvs_value a s) mod p) as Hc'.
  { rewrite Hc. change (v + rbvs_value a s ≅ v mod p + rbvs_value a s).
    rewrite mod_cong. reflexivity. }
  eapply runs_bind.
  { apply runs_lift_eq. rewrite make_ok by (unfold wf, p; lia). reflexivity. }
  intros pp w3 [-> ->]. rewrite Z.mod_same by (unfold p; lia).
  assert (∀ low high, canonical low → canonical high →
    runs (let* r_lows := PFtoBS low in let* r_highs := PFtoBS high in
          let* t := subBitwiseLessThan r_lows rs in
          let* u := subBitwiseLessThan rs r_highs in s_mul t u) w1
      (λ z w', Shares z (Z.b2z ((low <? rbvs_value a s) && (rbvs_value a s <? high))))) as Htest.
  { intros low high Hlow Hhigh.
    eapply runs_bind; [by apply PFtoBS_runs|]. intros ls w4 (Hll & Hls & Hw4).
    eapply runs_bind; [by apply PFtoBS_runs|]. intros hs w5 (Hhl & Hhs & Hw5).
    replace (a + l + l + l)%nat with (a + 3 * l)%nat in Hw5 by lia.
    replace (s + l * (n_parties - 1) + l * (n_parties - 1))%nat with (s + 2 * sp_step)%nat in Hw5
      by (unfold sp_step; lia).
    eapply runs_bind.
    { apply (subBitwiseLessThan_runs ls rs _ _ _ _ _ Hll Hrl Hls Hrs Hw5).
      eapply nonzero_window_le; [exact Hn2|lia]. }
    intros t w6 [Ht Hw6].
    eapply runs_bind.
    { apply (subBitwiseLessThan_runs rs hs _ _ _ _ _ Hrl Hhl Hrs Hhs Hw6).
      eapply nonzero_window_sub; [exact Hn2|lia]. }
    intros u w7 [Hu Hw7]. rewrite bit_of_value, rbvs_value_eq in Ht, Hu by done.
    eapply runs_mono; [by apply s_mul_runs|]. intros z w8 [Hz _].
    eapply Shares_cong; [exact Hz|].
    destruct (low <? rbvs_value a s), (rbvs_value a s <? high); reflexivity. }
  pose proof (interval_bounds c1 c2 (v mod p) (rbvs_value a s) H1 H2 H12 (canonical_mod v) Hrc) as Hib.
  cbn zeta in Hib. rewrite <- Hc' in Hib. rewrite Hib. destruct (ltb c1 c && ltb c c2) eqn:Hin.
  - eapply runs_bind; [apply Htest; [apply sub_canonical|apply add_canonical]|].
    cbv beta. intros t w4 Ht. apply runs_ret. by apply Shares_not.
  - destruct (negb (ltb c c2)) eqn:Hge; [apply Htest; apply sub_canonical|].
    destruct (ltb c c2); [|done]. rewrite andb_true_r in Hin. rewrite Hin. cbn [negb].
    apply Htest; apply sub_canonical.
Qed.
End Main.

(** ** A concrete environment

    Three parties that always draw [2^62]: the draws share [3 * 2^62], which is
    not zero and in the upper half, so the random bits are zero. *)
Definition flat_env : Env := {|
  n_parties := 3; sp_id := 2; entropy := λ _ _, 2 ^ 62; bts := λ _ _, (0, 0, 0)
|}.

#[export] Instance flat_valid : ValidEnv flat_env.
Proof. split; simpl; lia. Qed.

#[local] Transparent rbvs_value bits_value rand_at.

Lemma flat_rand a s : @rand_at flat_env a s = 3 * 2 ^ 62.
Proof. reflexivity. Qed.

Lemma flat_window a s k : @nonzero_window flat_env a s k.
Proof. intros j _. by rewrite flat_rand. Qed.

Lemma flat_rbvs a s : @rbvs_value flat_env a s = 0.
Proof.
  unfold rbvs_value. rewrite (bits_value_ext _ (λ _, false)); [reflexivity|].
  intros i _. unfold rbvs_bits, bit_at. by rewrite flat_rand.
Qed.

Lemma flat_half a s : @half_randomness flat_env a s.
Proof. split_and!; [apply flat_window|rewrite flat_rbvs; reflexivity|apply flat_window]. Qed.

#[local] Opaque rbvs_value bits_value rand_at.

Section Reading.
Context `{IO : IntegerIO} `{E : Env} `{V : !ValidEnv E}.
#[local] Existing Instance pf_value.

(** From shares to what every party reconstructs. *)
Lemma runs_recons (m : M sharing) w v (Q : sharing → World → Prop) :
  PrimeField.canonical v →
  runs m w (λ x w', Shares x v ∧ Q x w') →
  ∃ x w', m w = Ok (x, w') ∧ ∀ me, recons_at me x = Ok v.
Proof.
  intros Hv (x & w' & He & Hx & _). exists x, w'. split; [exact He|]. intros me.
  rewrite (recons_ok me x v Hx). f_equal. by apply Z.mod_small.
Qed.

Lemma b2z_canonical b : PrimeField.canonical (Z.b2z b).
Proof. unfold PrimeField.canonical, PrimeField.p. destruct b; simpl; lia. Qed.

(** A zero draw makes [subRBS] try again. *)
Lemma subRBS_zero fuel a s w :
  at_cursor a s w → rand_at a s = 0 →
  ∃ w', at_cursor (a + 1) s w' ∧ subRBS (S fuel) w = subRBS fuel w'.
Proof.
  intros Hw Hz. cbn [subRBS]. destruct (subRNS_runs a s w Hw) as (r & w1 & E1 & Hr & Hw1).
  destruct (s_mul_runs r r _ _ w1 Hr Hr) as (q & w2 & E2 & Hq & Hw2).
  destruct (open_recons_runs q _ w2 Hq) as (c & w3 & E3 & -> & ->).
  exists w2. split; [by eapply at_cursor_moved0|].
  unfold bind. rewrite E1. cbn [rbind]. rewrite E2. cbn [rbind]. rewrite E3. cbn [rbind].
  rewrite Hz. reflexivity.
Qed.
End Reading.

(** * Theorems *)

(** C34: [subRBS] stops at the first draw of the parties that does not share
    zero and returns a sharing of zero or one, the same value for every party:
    one exactly when that draw is in the lower half of the field.  It only runs
    out of attempts when all draws share zero. *)
Theorem subRBS_random_bit {IO : IntegerIO} {E : Env} {V : ValidEnv E} fuel k w :
  (∀ j, (j < k)%nat → rand_at (all_draws w + j) (sp_draws w) = 0) →
  (rand_at (all_draws w + k) (sp_draws w) ≠ 0 → (k < fuel)%nat →
   ∃ x w', subRBS fuel w = Ok (x, w')
     ∧ ∀ me, @recons_at pf_value E me x
             = Ok (if rand_at (all_draws w + k) (sp_draws w) <=? PrimeField.p / 2 then 1 else 0))
  ∧ (k = fuel → subRBS fuel w = Throw OutOfFuel).
Proof.
  assert (∀ a s, at_cursor a s w →
    (∀ j, (j < k)%nat → rand_at (a + j) s = 0) →
    (rand_at (a + k) s ≠ 0 → (k < fuel)%nat →
     ∃ x w', subRBS fuel w = Ok (x, w')
       ∧ ∀ me, @recons_at pf_value E me x = Ok (Z.b2z (bit_at (a + k) s)))
    ∧ (k = fuel → subRBS fuel w = Throw OutOfFuel)) as Hgen;
    [|intros Hz; by apply (Hgen (all_draws w) (sp_draws w))].
  revert fuel w. induction k as [|k IH]; intros fuel w a s Hw Hz.
  - split; [|by intros <-]. rewrite Nat.add_0_r. intros Hne Hlt. destruct fuel as [|fuel]; [lia|].
    eapply runs_recons; [apply b2z_canonical|]. by apply subRBS_runs.
  - destruct fuel as [|fuel]; [split; [lia|done]|].
    destruct (subRBS_zero fuel a s w Hw) as (w' & Hw' & ->).
    { rewrite <- (Nat.add_0_r a). apply Hz. lia. }
    destruct (IH fuel w' (a + 1)%nat s Hw') as [H1 H2].
    { intros j Hj. replace (a + 1 + j)%nat with (a + S j)%nat by lia. apply Hz. lia. }
    replace (a + 1 + k)%nat with (a + S k)%nat in H1 by lia.
    split; [intros Hne Hlt; apply H1; [done|lia]|intros [= ->]; by apply H2].
Qed.

Lemma subRBS_random_bit_witness :
  ∃ x w', @subRBS decimal_io flat_env 1 world0 = Ok (x, w')
    ∧ ∀ me, @recons_at (@pf_value decimal_io) flat_env me x
        = Ok (if @rand_at flat_env 0 0 <=? PrimeField.p / 2 then 1 else 0).
Proof.
  apply (proj1 (@subRBS_random_bit decimal_io flat_env _ 1 0 world0 ltac:(intros; lia)));
    [rewrite flat_rand; done|lia].
Defined.

(** C19: the two unbounded fan-in gates compute the disjunction and the
    conjunction of 64 shared bits: the polynomials of degree 64 with the
    tabulated coefficients are the two gates at one plus the number of set bits,
    and the multiplicative blinding cancels when no blinding draw is zero. *)
Theorem fan_in_gates {IO : IntegerIO} {E : Env} {V : ValidEnv E} xs (g : nat → bool) w :
  (∀ k, (k < 64)%nat → Shares (at_ xs k) (Z.b2z (g k))) →
  nonzero_window (all_draws w) (sp_draws w) 128 →
  (∃ x w', subUnboundedFanInOr xs w = Ok (x, w')
     ∧ ∀ me, @recons_at pf_value E me x = Ok (Z.b2z (existsb g (seq 0 64))))
  ∧ (∃ x w', subUnboundedFanInAnd xs w = Ok (x, w')
     ∧ ∀ me, @recons_at pf_value E me x = Ok (Z.b2z (forallb g (seq 0 64)))).
Proof.
  intros Hg Hn. split.
  - eapply runs_recons; [apply b2z_canonical|].
    by apply (subUnboundedFanInOr_runs xs g (all_draws w) (sp_draws w)).
  - eapply runs_recons; [apply b2z_canonical|].
    by apply (subUnboundedFanInAnd_runs xs g (all_draws w) (sp_draws w)).
Qed.

Lemma fan_in_gates_witness :
  ∃ x w', @subUnboundedFanInAnd decimal_io flat_env (replicate 64 [0; 1; 0]) world0 = Ok (x, w')
    ∧ ∀ me, @recons_at (@pf_value decimal_io) flat_env me x = Ok 1.
Proof.
  refine (proj2 (@fan_in_gates decimal_io flat_env _ (replicate 64 [0; 1; 0]) (λ _, true) world0 _ _)).
  - intros k Hk. rewrite (@at_replicate decimal_io flat_env [0; 1; 0] 64 k Hk). shares_lit.
  - apply flat_window.
Defined.

(** C17: [subBitwiseLessThan] compares the two numbers its 64 shared bits write,
    most significant bit first, through the prefix-or of their differences in
    eight blocks of eight. *)
Theorem bitwise_less_than {IO : IntegerIO} {E : Env} {V : ValidEnv E} xs ys (g h : nat → bool) w :
  length xs = 64%nat → length ys = 64%nat →
  (∀ k, (k < 64)%nat → Shares (at_ xs k) (Z.b2z (g k)) ∧ Shares (at_ ys k) (Z.b2z (h k))) →
  nonzero_window (all_draws w) (sp_draws w) 3072 →
  ∃ x w', subBitwiseLessThan xs ys w = Ok (x, w')
    ∧ ∀ me, @recons_at pf_value E me x = Ok (Z.b2z (bits_value g 64 <? bits_value h 64)).
Proof.
  intros Hx Hy Hg Hn. eapply runs_recons; [apply b2z_canonical|].
  apply (subBitwiseLessThan_runs xs ys g h (all_draws w) (sp_draws w)); try done;
    intros k Hk; by apply Hg.
Qed.

Lemma bitwise_less_than_witness :
  ∃ x w', @subBitwiseLessThan decimal_io flat_env (replicate 64 [0; 0; 0]) (replicate 64 [0; 1; 0]) world0
      = Ok (x, w')
    ∧ ∀ me, @recons_at (@pf_value decimal_io) flat_env me x
        = Ok (Z.b2z (bits_value (λ _, false) 64 <? bits_value (λ _, true) 64)).
Proof.
  apply (@bitwise_less_than decimal_io flat_env _ (replicate 64 [0; 0; 0]) (replicate 64 [0; 1; 0])
    (λ _, false) (λ _, true) world0); [done|done| |apply flat_window].
  intros k Hk. rewrite !(@at_replicate decimal_io flat_env _ 64 k Hk). split; shares_lit.
Defined.
