(* ===== verification/Mailbox.v ===== *)
(** * The exchange of shares between parties
    (Share/AddressId.hpp, Client/ and Server/ComputationToComputationContainer,
    Share/Networking.hpp)

    [AddressId] names a share inside a job; [makeShares] splits a vector of
    values into messages of about 1 MB; [ExchangeShares] files them in the
    mailbox of the receiving party; [getShare] waits for one and removes it.
    [step] interleaves the sends and the reads of all parties that open and
    reconstruct one vector of shares, failing and repeated sends included.  The
    theorems relate every run of it to the joint step [recons_vec_at] of
    [Share.v]. *)
From stdpp Require Import base list numbers sets strings gmap.
From Stdlib Require Import ZArith Lia.
From S2P Require Import Prelude Field FixedPoint Random TripleHandler Share SharePF.
#[local] Open Scope Z_scope.

(** ** Addresses *)
Module Address.

Record AddressId := mkAddress { share_id : Z; job_id : Z; thread_id : Z }.

#[export] Instance AddressId_eq_dec : EqDecision AddressId.
Proof. solve_decision. Defined.

(** [std::atomic<int>] wraps around. *)
Definition wrap32 (x : Z) : Z := (x + 2 ^ 31) mod 2 ^ 32 - 2 ^ 31.

(** The default constructor: the thread's generator and its job. *)
Definition newAddress (share_id_generator job : Z) : AddressId * Z :=
  (mkAddress share_id_generator job 0, wrap32 (share_id_generator + 1)).

(** The addresses of [n] shares constructed one after the other. *)
Fixpoint newAddresses (n : nat) (share_id_generator job : Z) : list AddressId * Z :=
  match n with
  | O => ([], share_id_generator)
  | S n =>
      let '(a, g) := newAddress share_id_generator job in
      let '(l, g) := newAddresses n g job in (a :: l, g)
  end.
End Address.
Import Address.

(** ** Messages *)
Module Message.

(** [Shares]: the party and its list of addressed values.  The thread id of the
    address is not set, so the receiver reads the default. *)
Record Shares := mkShares { party_id : Z; share_list : list (AddressId * string) }.

Definition set_address (a : AddressId) : AddressId := mkAddress (share_id a) (job_id a) 0.

Definition makeShare (value : string) (a : AddressId) (party : Z) : Shares :=
  mkShares party [(set_address a, value)].

Definition addressId_size : Z := 12.
Definition party_id_size : Z := 4.
Definition limit : Z := 1000000.

(** The loop of [makeShares]: [size] and [s] are the size and the contents of
    the message being filled. *)
Fixpoint makeShares_loop (xs : list (string * AddressId)) (party size : Z)
    (s : list (AddressId * string)) (share_vec : list Shares) : list Shares :=
  match xs with
  | [] => share_vec ++ [mkShares party s]
  | (value, a) :: xs =>
      let value_size := Z.of_nat (String.length value) in
      let full := limit <? size + value_size + addressId_size + party_id_size in
      let share_vec := if full then share_vec ++ [mkShares party s] else share_vec in
      let s := if full then [] else s in
      let size := if full then 0 else size in
      makeShares_loop xs party (size + value_size + addressId_size)
        (s ++ [(set_address a, value)]) share_vec
  end.
Definition makeShares (values : list string) (share_ids : list AddressId) (party : Z) : list Shares :=
  makeShares_loop (zip values share_ids) party 0 [] [].

Definition message_size (m : Shares) : Z :=
  Zsum (map (λ '(_, v), Z.of_nat (String.length v) + addressId_size) (share_list m)) + party_id_size.
End Message.
Import Message.

(** ** The mailbox of a party *)
Module Server.

(** [std::map<address, std::string>], the address a tuple of four numbers. *)
Abbreviation address := (Z * Z * Z * Z)%type.
Abbreviation mailbox := (gmap address string).

Definition key (party : Z) (a : AddressId) : address := (party, share_id a, job_id a, thread_id a).

Definition ExchangeShare (m : Shares) (shares : mailbox) : mailbox :=
  match share_list m with
  | (a, v) :: _ => <[key (party_id m) a := v]> shares
  | [] => shares
  end.

(** One message, then the stream of them. *)
Definition fileShares (m : Shares) (shares : mailbox) : mailbox :=
  fold_left (λ shares '(a, v), <[key (party_id m) a := v]> shares) (share_list m) shares.
Definition ExchangeShares (stream : list Shares) (shares : mailbox) : mailbox :=
  fold_left (λ shares m, fileShares m shares) stream shares.

(** [getShare]: [None] while it waits. *)
Definition getShare (party : Z) (a : AddressId) (shares : mailbox) : option (string * mailbox) :=
  match shares !! key party a with
  | Some v => Some (v, delete (key party a) shares)
  | None => None
  end.
End Server.
Import Server.

(** ** Opening and reconstructing a vector *)
Module Exchange.
Section Exchange.
Context `{SVI : ShareValue} `{EI : Env}.
(** The decimal string of a value and its reading, the two halves of [sv_wire]. *)
Context (getStrVal : Z → string) (of_string : string → result Z).
(** The vector all parties open: party [i] holds [column i xs] under [ids]. *)
Context (xs : list sharing) (ids : list AddressId).

Record Party := mkParty {
  shares : mailbox;                       (** what its server holds *)
  toread : list (nat * AddressId);        (** the reads [recons] has left *)
  values : list string                    (** the values it has read *)
}.

(** Parties by id, and the sends that have not returned yet. *)
Record System := mkSystem { party : nat → Party; sends : list (nat * nat) }.

(** What party [i] sends to each other party. *)
Definition stream (i : nat) : list Shares :=
  makeShares (map getStrVal (column i xs)) ids (Z.of_nat i).

(** The keys [recons] at [me] asks for, in order. *)
Definition reads (me : nat) : list (nat * AddressId) :=
  concat (map (λ pt, if (pt =? me)%nat then [] else map (λ a, (pt, a)) ids) parties).

Definition update (s : System) (i : nat) (f : Party → Party) : nat → Party :=
  λ j, if (j =? i)%nat then f (party s j) else party s j.

(** [ComputationToComputation::Client::exchangeShares] retries a send that
    failed; a failed attempt may have filed a part of the stream. *)
Inductive step : System → System → Prop :=
  | step_send s i j l1 l2 :
      sends s = l1 ++ (i, j) :: l2 →
      step s (mkSystem
        (update s j (λ q, mkParty (ExchangeShares (stream i) (shares q)) (toread q) (values q)))
        (l1 ++ l2))
  | step_fail s i j k :
      (i, j) ∈ sends s →
      step s (mkSystem
        (update s j (λ q, mkParty (ExchangeShares (take k (stream i)) (shares q)) (toread q) (values q)))
        (sends s))
  | step_read s me pt a rest v mb :
      me ∈ parties →
      (* [open] has joined the threads of its sends *)
      (∀ j, (me, j) ∉ sends s) →
      toread (party s me) = (pt, a) :: rest →
      getShare (Z.of_nat pt) a (shares (party s me)) = Some (v, mb) →
      step s (mkSystem
        (update s me (λ q, mkParty mb rest (values q ++ [v]))) (sends s)).

(** All parties enter [open]; their mailboxes hold nothing for these shares. *)
Definition initial (boxes : nat → mailbox) : System :=
  mkSystem (λ i, mkParty (boxes i) (reads i) [])
    (concat (map (λ i, map (λ j, (i, j)) (filter (λ j, j ≠ i) parties)) parties)).

Definition finished (s : System) : Prop := ∀ me, me ∈ parties → toread (party s me) = [].

(** The sum [recons] makes at [me] of the values it has read. *)
Fixpoint recons_loop (me : nat) (pts : list nat) (vals : list string) (acc : list Z) : result (list Z) :=
  match pts with
  | [] => Ok acc
  | pt :: pts =>
      if (pt =? me)%nat then recons_loop me pts vals (zip_with sv_add acc (column pt xs))
      else rbind (traverse of_string (take (length xs) vals)) (λ col,
           recons_loop me pts (drop (length xs) vals) (zip_with sv_add acc col))
  end.
Definition recons_received (me : nat) (s : System) : result (list Z) :=
  recons_loop me parties (values (party s me)) (map (λ _, sv_zero) xs).
End Exchange.
End Exchange.

(** * Lemmas *)

(** ** Addresses *)

Lemma newAddresses_nth n g job l g' i a :
  newAddresses n g job = (l, g') → l !! i = Some a →
  a = mkAddress (if (i =? 0)%nat then g else wrap32 (g + Z.of_nat i)) job 0.
Proof.
  revert g l g' i. induction n as [|n IH]; intros g l g' i; cbn [newAddresses].
  - by intros [= <- _].
  - unfold newAddress. destruct (newAddresses n (wrap32 (g + 1)) job) as [l' g''] eqn:E.
    intros [= <- _]. destruct i as [|i]; cbn [lookup list_lookup].
    + intros [= <-]. done.
    + intros Hi. rewrite (IH _ _ _ _ E Hi). destruct i as [|i]; cbn [Nat.eqb]; f_equal.
      unfold wrap32. f_equal.
      rewrite !Nat2Z.inj_succ.
      replace ((g + 1 + 2 ^ 31) mod 2 ^ 32 - 2 ^ 31 + Z.succ (Z.of_nat i) + 2 ^ 31)
        with ((g + 1 + 2 ^ 31) mod 2 ^ 32 + Z.succ (Z.of_nat i)) by lia.
      rewrite Zplus_mod_idemp_l. f_equal. lia.
Qed.

Lemma newAddresses_length n g job : length (newAddresses n g job).1 = n.
Proof.
  revert g. induction n as [|n IH]; intros g; [done|]. cbn [newAddresses]. unfold newAddress.
  specialize (IH (wrap32 (g + 1))). destruct (newAddresses n (wrap32 (g + 1)) job). simpl in *. lia.
Qed.

Lemma wrap32_range x : - 2 ^ 31 ≤ wrap32 x < 2 ^ 31.
Proof. unfold wrap32. pose proof (Z.mod_pos_bound (x + 2 ^ 31) (2 ^ 32) eq_refl). lia. Qed.

Lemma wrap32_id x : - 2 ^ 31 ≤ x < 2 ^ 31 → wrap32 x = x.
Proof. intros Hx. unfold wrap32. rewrite Z.mod_small; lia. Qed.

Lemma wrap32_inj x y : wrap32 x = wrap32 y → Z.abs (x - y) < 2 ^ 32 → x = y.
Proof.
  unfold wrap32. intros He Hb.
  pose proof (Z.div_mod (x + 2 ^ 31) (2 ^ 32) ltac:(lia)).
  pose proof (Z.div_mod (y + 2 ^ 31) (2 ^ 32) ltac:(lia)). lia.
Qed.

(** ** Messages *)

Definition entries (ms : list Shares) : list (AddressId * string) := concat (map share_list ms).

Lemma makeShares_loop_entries xs party size s vec :
  entries (makeShares_loop xs party size s vec)
  = entries vec ++ s ++ map (λ '(v, a), (set_address a, v)) xs.
Proof.
  unfold entries. revert size s vec. induction xs as [|[v a] xs IH]; intros size s vec; cbn [makeShares_loop map].
  - rewrite map_app, concat_app. cbn [map concat share_list]. by rewrite !app_nil_r.
  - rewrite IH. destruct (limit <? _).
    + rewrite map_app, concat_app. cbn [map concat share_list]. by rewrite app_nil_r, <- !app_assoc.
    + by rewrite <- !app_assoc.
Qed.

Lemma makeShares_loop_party xs party size s vec :
  Forall (λ m, party_id m = party) vec →
  Forall (λ m, party_id m = party) (makeShares_loop xs party size s vec).
Proof.
  revert size s vec. induction xs as [|[v a] xs IH]; intros size s vec Hv; cbn [makeShares_loop].
  - apply Forall_app. by repeat constructor.
  - apply IH. destruct (limit <? _); [|done]. apply Forall_app. by repeat constructor.
Qed.

Definition fits (m : Shares) : Prop := message_size m ≤ limit ∨ (length (share_list m) ≤ 1)%nat.

Lemma makeShares_loop_fits xs party size s vec :
  Forall fits vec → size + party_id_size = message_size (mkShares party s) →
  fits (mkShares party s) → Forall fits (makeShares_loop xs party size s vec).
Proof.
  revert size s vec. induction xs as [|[v a] xs IH]; intros size s vec Hv Hs Hf; cbn [makeShares_loop].
  - apply Forall_app. split; [done|]. by constructor.
  - destruct (Z.ltb_spec limit (size + Z.of_nat (String.length v) + addressId_size + party_id_size)).
    + apply IH.
      * apply Forall_app. split; [done|]. by constructor.
      * unfold message_size. cbn [share_list app map]. rewrite Zsum_singleton. lia.
      * right. cbn. lia.
    + assert (message_size (mkShares party (s ++ [(set_address a, v)]))
        = size + Z.of_nat (String.length v) + addressId_size + party_id_size) as Hms.
      { unfold message_size in *. cbn [share_list] in *. rewrite map_app, Zsum_app. cbn [map].
        rewrite Zsum_singleton. lia. }
      apply IH; [done|lia|]. left. lia.
Qed.

(** ** Filing messages *)

Definition file (i : Z) (es : list (AddressId * string)) (mb : mailbox) : mailbox :=
  fold_left (λ mb '(a, v), <[key i a := v]> mb) es mb.

Lemma ExchangeShares_file i ms mb :
  Forall (λ m, party_id m = i) ms → ExchangeShares ms mb = file i (entries ms) mb.
Proof.
  intros Hms. unfold ExchangeShares, entries, file. revert mb.
  induction Hms as [|m ms Hm Hms IH]; intros mb; [done|].
  cbn [fold_left map concat]. rewrite IH, fold_left_app. f_equal.
  unfold fileShares. by rewrite Hm.
Qed.

Lemma key_inj i a j b : key i a = key j b → i = j ∧ a = b.
Proof. destruct a, b. unfold key. simpl. intros [= -> -> -> ->]. done. Qed.

Lemma file_lookup i es mb pt a :
  (i = pt ∧ ∃ v, (a, v) ∈ es ∧ file i es mb !! key pt a = Some v)
  ∨ ((i ≠ pt ∨ ∀ v, (a, v) ∉ es) ∧ file i es mb !! key pt a = mb !! key pt a).
Proof.
  unfold file. revert mb. induction es as [|[b w] es IH] using rev_ind; intros mb.
  - right. split; [right; intros v; apply not_elem_of_nil|done].
  - rewrite fold_left_app. cbn [fold_left].
    destruct (decide (key i b = key pt a)) as [[-> ->]%key_inj|Hne].
    + left. split; [done|]. exists w. split; [set_solver|apply lookup_insert_eq].
    + rewrite lookup_insert_ne by done. destruct (IH mb) as [(-> & v & Hv & Hl)|[Hn Hl]].
      * left. split; [done|]. exists v. split; [set_solver|done].
      * right. split; [|done]. destruct (decide (i = pt)) as [->|]; [|by left]. right.
        destruct Hn as [|Hn]; [done|]. intros v [Hv|Hv]%elem_of_app; [by eapply Hn|].
        apply list_elem_of_singleton in Hv as [= -> ->]. done.
Qed.

Lemma entries_take_sub k ms e : e ∈ entries (take k ms) → e ∈ entries ms.
Proof.
  unfold entries. rewrite <- (take_drop k ms) at 2. rewrite map_app, concat_app.
  intros He. apply elem_of_app. by left.
Qed.

(** ** The exchange *)

Section ExchangeFacts.
Context `{SVI : ShareValue} `{EI : Env}.
Context (getStrVal : Z → string) (of_string : string → result Z).
Context (xs : list sharing) (ids : list AddressId).
Import Exchange.

#[local] Abbreviation stream := (Exchange.stream getStrVal xs ids).
#[local] Abbreviation reads := (Exchange.reads ids).
#[local] Abbreviation step := (Exchange.step getStrVal xs ids).

(** The addresses of the opened shares: distinct, with the default thread id. *)
Definition good_ids : Prop :=
  NoDup ids ∧ Forall (λ a, thread_id a = 0) ids ∧ length ids = length xs.
Hypothesis ids_ok : good_ids.

Definition sent (pt : nat) : list (AddressId * string) := zip ids (map getStrVal (column pt xs)).

Lemma set_address_id a : thread_id a = 0 → set_address a = a.
Proof. destruct a; simpl. by intros ->. Qed.

Lemma stream_entries pt : entries (stream pt) = sent pt.
Proof.
  unfold Exchange.stream, makeShares. rewrite makeShares_loop_entries. cbn [entries app map concat].
  unfold sent. destruct ids_ok as (_ & Hth & _). revert Hth.
  generalize (map getStrVal (column pt xs)). generalize ids. clear ids_ok.
  induction ids0 as [|a l IH]; intros [|v vs] Hth; try done.
  apply Forall_cons in Hth as [Ha Hth]. simpl. rewrite (set_address_id a Ha). f_equal. by apply IH.
Qed.

Lemma stream_party pt : Forall (λ m, party_id m = Z.of_nat pt) (stream pt).
Proof. by apply makeShares_loop_party. Qed.

Lemma column_length pt : length (column pt xs) = length xs.
Proof. apply length_map. Qed.

Lemma sent_keys pt : (sent pt).*1 = ids.
Proof.
  apply fst_zip. destruct ids_ok as (_ & _ & Hl). rewrite length_map, column_length. lia.
Qed.

Lemma sent_total pt a : a ∈ ids → ∃ v, (a, v) ∈ sent pt.
Proof.
  rewrite <- (sent_keys pt). intros ([b v] & -> & Hin)%list_elem_of_fmap. by exists v.
Qed.

Lemma sent_functional pt a v v' : (a, v) ∈ sent pt → (a, v') ∈ sent pt → v = v'.
Proof.
  destruct ids_ok as (Hnd & _ & _). rewrite <- (sent_keys pt) in Hnd.
  revert Hnd. generalize (sent pt). induction l as [|[b u] l IH]; [set_solver|].
  cbn. rewrite NoDup_cons. intros [Hb Hnd] H1 H2.
  apply elem_of_cons in H1 as [E1|H1], H2 as [E2|H2]; [congruence| | |by apply IH];
    exfalso; apply Hb, list_elem_of_fmap; eexists; (split; [|eassumption]); cbn; congruence.
Qed.

(** What delivering a part of a stream does to one key. *)
Lemma deliver_lookup i ms mb pt a :
  Forall (λ m, party_id m = Z.of_nat i) ms → (∀ e, e ∈ entries ms → e ∈ sent i) →
  (∃ v, i = pt ∧ (a, v) ∈ sent pt ∧ ExchangeShares ms mb !! key (Z.of_nat pt) a = Some v)
  ∨ ExchangeShares ms mb !! key (Z.of_nat pt) a = mb !! key (Z.of_nat pt) a.
Proof.
  intros Hp Hs. rewrite (ExchangeShares_file _ _ _ Hp).
  destruct (file_lookup (Z.of_nat i) (entries ms) mb (Z.of_nat pt) a) as [(He & v & Hv & Hl)|[_ Hl]];
    [left|by right].
  apply Nat2Z.inj in He as ->. exists v. auto.
Qed.

Lemma deliver_all i mb a :
  a ∈ ids → ∃ v, (a, v) ∈ sent i ∧ ExchangeShares (stream i) mb !! key (Z.of_nat i) a = Some v.
Proof.
  intros Ha. rewrite (ExchangeShares_file _ _ _ (stream_party i)), stream_entries.
  destruct (file_lookup (Z.of_nat i) (sent i) mb (Z.of_nat i) a) as [(_ & v & Hv & Hl)|[[|Hn] _]];
    [by exists v|done|].
  destruct (sent_total i a Ha) as [v Hv]. by destruct (Hn v).
Qed.

(** What every reachable state satisfies, party by party. *)
Record party_inv (s : System) (me : nat) : Prop := {
  inv_read : ∃ before, reads me = before ++ toread (party s me)
    ∧ Forall2 (λ '(pt, a) v, (a, v) ∈ sent pt) before (values (party s me));
  inv_box : ∀ pt a v, (pt, a) ∈ toread (party s me) →
    shares (party s me) !! key (Z.of_nat pt) a = Some v → (a, v) ∈ sent pt;
  inv_arrived : ∀ pt a, (pt, a) ∈ toread (party s me) → (pt, me) ∉ sends s →
    is_Some (shares (party s me) !! key (Z.of_nat pt) a)
}.
Definition inv (s : System) : Prop := ∀ me, me ∈ parties → party_inv s me.

Lemma reads_elem me pt a : (pt, a) ∈ reads me ↔ pt ∈ parties ∧ pt ≠ me ∧ a ∈ ids.
Proof.
  unfold Exchange.reads. rewrite list_elem_of_In, in_concat. split.
  - intros (l & (q & <- & Hq)%in_map_iff & Hin). destruct (Nat.eqb_spec q me); [done|].
    apply in_map_iff in Hin as (b & [= -> ->] & Hb). rewrite !list_elem_of_In. auto.
  - intros (Hpt & Hne & Ha). exists (map (λ a, (pt, a)) ids). split.
    + apply in_map_iff. exists pt. rewrite (proj2 (Nat.eqb_neq _ _) Hne). by rewrite <- list_elem_of_In.
    + apply in_map. by apply list_elem_of_In.
Qed.

Lemma parties_NoDup : NoDup parties.
Proof. apply NoDup_seq. Qed.

Lemma reads_NoDup me : NoDup (reads me).
Proof.
  unfold Exchange.reads. pose proof parties_NoDup as Hp. destruct ids_ok as (Hnd & _ & _).
  induction Hp as [|pt l Hpt Hl IH]; [constructor|]. cbn [map concat]. apply NoDup_app. split_and!.
  - destruct (_ =? _)%nat; [constructor|]. apply NoDup_fmap; [intros ?? [= ->]|]; done.
  - intros [q a] Hin Hin'. destruct (Nat.eqb_spec pt me); [by apply not_elem_of_nil in Hin|].
    apply list_elem_of_fmap in Hin as (b & [= -> ->] & Hb).
    rewrite list_elem_of_In, in_concat in Hin'. destruct Hin' as (l' & (r & <- & Hr)%in_map_iff & Hl').
    destruct (_ =? _)%nat; [done|]. apply in_map_iff in Hl' as (c & [= -> ->] & _).
    by apply Hpt, list_elem_of_In.
  - exact IH.
Qed.

Lemma inv_toread s me e : party_inv s me → e ∈ toread (party s me) → e ∈ reads me.
Proof. intros [(before & He & _) _ _] Hin. rewrite He. apply elem_of_app. by right. Qed.

Lemma sends_initial boxes pt me :
  pt ∈ parties → me ∈ parties → pt ≠ me → (pt, me) ∈ sends (initial ids boxes).
Proof.
  intros Hpt Hme Hne. cbn [initial sends]. rewrite list_elem_of_In, in_concat.
  exists (map (λ j, (pt, j)) (filter (λ j, j ≠ pt) parties)). split.
  - apply in_map_iff. exists pt. by rewrite <- list_elem_of_In.
  - apply in_map, list_elem_of_In, list_elem_of_filter. auto.
Qed.

(** No entry of the mailboxes is already filed under the opened addresses. *)
Definition fresh (boxes : nat → mailbox) : Prop :=
  ∀ me pt a, a ∈ ids → boxes me !! key (Z.of_nat pt) a = None.

Lemma inv_initial boxes : fresh boxes → inv (initial ids boxes).
Proof.
  intros Hf me Hme. split; cbn [initial party toread values shares sends].
  - exists []. split; [done|constructor].
  - intros pt a v Hin. apply reads_elem in Hin as (_ & _ & Ha). by rewrite Hf.
  - intros pt a Hin Hn. exfalso. apply Hn.
    apply reads_elem in Hin as (Hpt & Hne & _). by apply (sends_initial boxes).
Qed.

(** Delivering to a party keeps what it has and brings only sent values. *)
Lemma inv_deliver s j i ms sends' me :
  Forall (λ m, party_id m = Z.of_nat i) ms → (∀ e, e ∈ entries ms → e ∈ sent i) →
  (∀ q, (q, me) ∉ sends' → (q, me) ∈ sends s →
     q = i ∧ me = j ∧ ms = stream i) →
  party_inv s me →
  party_inv (mkSystem (update s j (λ q, mkParty (ExchangeShares ms (shares q)) (toread q) (values q)))
               sends') me.
Proof.
  intros Hp Hs Hnew HI. pose proof (inv_toread s me) as Hsub. destruct HI as [Hr Hb Ha].
  unfold update. split; cbn [party sends].
  - destruct (me =? j)%nat; exact Hr.
  - intros pt a v. destruct (Nat.eqb_spec me j) as [->|]; [|apply Hb]. cbn [toread shares].
    intros Hin. destruct (deliver_lookup i ms (shares (party s j)) pt a Hp Hs) as [(u & _ & Hu & ->)| ->].
    + intros [= <-]. exact Hu.
    + by apply Hb.
  - intros pt a Hin Hn. destruct (decide ((pt, me) ∈ sends s)) as [Hold|Hold].
    + destruct (Hnew pt Hn Hold) as (-> & -> & ->). rewrite Nat.eqb_refl in *. cbn [toread shares] in *.
      destruct (deliver_all i (shares (party s j)) a) as (v & _ & ->); [|done].
      apply (reads_elem j i a), Hsub; [by split|done].
    + destruct (Nat.eqb_spec me j) as [->|]; [|by apply Ha]. cbn [toread shares] in *.
      destruct (deliver_lookup i ms (shares (party s j)) pt a Hp Hs) as [(u & _ & Hu & ->)| ->];
        [done|by apply Ha].
Qed.

Lemma inv_step s s' : step s s' → inv s → inv s'.
Proof.
  intros Hst HI me Hme. pose proof (HI me Hme) as Hp. destruct Hst as
    [s i j l1 l2 Hs|s i j k Hin|s me0 pt a rest v mb Hme0 _ Htr Hget].
  - apply (inv_deliver s j i); [apply stream_party|by rewrite stream_entries| |done].
    intros q Hn Hold. rewrite Hs in Hold.
    rewrite !elem_of_app, elem_of_cons in Hold. rewrite elem_of_app in Hn.
    assert ((q, me) = (i, j)) as [= -> ->] by tauto. done.
  - apply (inv_deliver s j i); [| | |done].
    + apply Forall_take, stream_party.
    + intros e He%entries_take_sub. by rewrite stream_entries in He.
    + done.
  - unfold update. destruct (Nat.eqb_spec me me0) as [->|Hne].
    2:{ destruct Hp as [Hr Hb Ha].
        split; cbn [party sends]; rewrite (proj2 (Nat.eqb_neq _ _) Hne); assumption. }
    pose proof (reads_NoDup me0) as Hnd. destruct Hp as [(before & He & Hv) Hb Ha].
    rewrite He, Htr in Hnd. apply NoDup_app in Hnd as (_ & _ & [Hna Hnd]%NoDup_cons).
    unfold getShare in Hget. destruct (shares (party s me0) !! key (Z.of_nat pt) a) as [w|] eqn:El; [|done].
    injection Hget as -> <-.
    assert (∀ pt' a', (pt', a') ∈ rest → key (Z.of_nat pt) a ≠ key (Z.of_nat pt') a') as Hk.
    { intros pt' a' Hin [E1 E2]%key_inj. apply Nat2Z.inj in E1. subst. done. }
    split; cbn [party sends]; rewrite Nat.eqb_refl; cbn [toread values shares].
    + exists (before ++ [(pt, a)]). split; [by rewrite He, Htr, <- app_assoc|].
      apply Forall2_app; [done|]. constructor; [|constructor].
      apply Hb; [rewrite Htr; by left|done].
    + intros pt' a' u Hin. rewrite lookup_delete_ne by (by apply Hk).
      apply Hb. rewrite Htr. by right.
    + intros pt' a' Hin Hn. rewrite lookup_delete_ne by (by apply Hk).
      apply Ha; [rewrite Htr; by right|done].
Qed.

(** ** Progress *)

Definition work (s : System) : nat :=
  (length (sends s) + sum_list_with (λ me, length (toread (party s me))) parties)%nat.

Lemma sum_list_with_pointwise (f g : nat → nat) l :
  (∀ x, f x = g x) → sum_list_with f l = sum_list_with g l.
Proof. intros Hfg. induction l as [|x l IH]; [done|]. cbn [sum_list_with]. by rewrite Hfg, IH. Qed.

Lemma sum_list_with_update (f : nat → nat) l me d :
  NoDup l → me ∈ l → f me = S d →
  sum_list_with f l = S (sum_list_with (λ i, if (i =? me)%nat then d else f i) l).
Proof.
  intros Hnd. induction Hnd as [|x l Hx Hnd IH]; [set_solver|].
  intros [->|Hin]%elem_of_cons Hf; cbn [sum_list_with].
  - rewrite Nat.eqb_refl, Hf.
    replace (sum_list_with (λ i, if (i =? x)%nat then d else f i) l) with (sum_list_with f l); [lia|].
    clear - Hx. induction l as [|y l IH]; [done|]. cbn [sum_list_with].
    rewrite (proj2 (Nat.eqb_neq y x)) by set_solver. rewrite IH by set_solver. done.
  - rewrite (proj2 (Nat.eqb_neq x me)) by set_solver. rewrite IH by done. lia.
Qed.

(** Unless all parties are done, some send returns or some read finds its value. *)
Lemma progress s : inv s → work s ≠ 0%nat → ∃ s', step s s' ∧ work s = S (work s').
Proof.
  intros HI Hw. destruct (sends s) as [|[i j] l] eqn:Hs.
  - assert (∃ me, me ∈ parties ∧ toread (party s me) ≠ []) as (me & Hme & Hne).
    { unfold work in Hw. rewrite Hs in Hw. cbn [length Nat.add] in Hw. revert Hw.
      generalize parties. induction l as [|x l IH]; cbn [sum_list_with]; [done|].
      intros Hw. destruct (toread (party s x)) as [|e r] eqn:Ex.
      - cbn [length Nat.add] in Hw. destruct (IH Hw) as (me & Hme & Hne).
        exists me. split; [by right|done].
      - exists x. rewrite Ex. split; [by left|done]. }
    destruct (toread (party s me)) as [|[pt a] rest] eqn:Htr; [done|].
    destruct (inv_arrived s me (HI me Hme) pt a) as [v Hv].
    { rewrite Htr. by left. }
    { rewrite Hs. apply not_elem_of_nil. }
    eexists. split.
    + eapply (step_read _ _ _ s me pt a rest v); [done| |done|].
      * intros j. rewrite Hs. apply not_elem_of_nil.
      * unfold getShare. by rewrite Hv.
    + unfold work. cbn [sends party].
      rewrite (sum_list_with_update _ parties me (length rest));
        [|apply parties_NoDup|done|by rewrite Htr].
      rewrite <- plus_n_Sm. f_equal. f_equal. apply sum_list_with_pointwise. intros x.
      unfold update. by destruct (x =? me)%nat.
  - eexists. split; [apply (step_send _ _ _ s i j [] l Hs)|].
    unfold work. cbn [sends party app]. rewrite Hs. cbn [length Nat.add]. f_equal. f_equal. apply sum_list_with_pointwise. intros x.
    unfold update. by destruct (x =? j)%nat.
Qed.

Lemma work_finished s : work s = 0%nat → finished s.
Proof.
  unfold work, finished. intros Hw me Hme.
  assert (sum_list_with (λ me, length (toread (party s me))) parties = 0%nat) as Hz by lia.
  revert Hz Hme. generalize parties. induction l as [|x l IH]; cbn [sum_list_with]; [set_solver|].
  intros Hz [->|Hin]%elem_of_cons; [|apply IH; [lia|done]].
  destruct (toread (party s x)); [done|simpl in Hz; lia].
Qed.

Lemma can_finish s : inv s → ∃ s', nsteps step (work s) s s' ∧ finished s'.
Proof.
  remember (work s) as n eqn:Hn. revert s Hn. induction n as [|n IH]; intros s Hn HI.
  - exists s. split; [constructor|by apply work_finished].
  - destruct (progress s HI) as (s1 & Hst & Hw); [lia|].
    destruct (IH s1) as (s' & Hrun & Hfin); [lia|by eapply inv_step|].
    exists s'. split; [by econstructor|done].
Qed.

(** ** What a finished party has *)

Lemma Forall2_functional {A B} (R : A → B → Prop) l k k' :
  (∀ a b b', R a b → R a b' → b = b') → Forall2 R l k → Forall2 R l k' → k = k'.
Proof.
  intros Hf Hk. revert k'. induction Hk as [|a b l k Hab Hk IH]; intros k' Hk'.
  - by inversion Hk'.
  - inversion Hk' as [|? b' ? k'' Hab' Hk'']; subst. f_equal; [by eapply Hf|by apply IH].
Qed.

Lemma sent_values pt : (sent pt).*2 = map getStrVal (column pt xs).
Proof.
  apply snd_zip. destruct ids_ok as (_ & _ & Hl). rewrite length_map, column_length. lia.
Qed.

Lemma block_values pt vs :
  Forall2 (λ '(q, a) v, (a, v) ∈ sent q) (map (λ a, (pt, a)) ids) vs →
  vs = map getStrVal (column pt xs).
Proof.
  intros Hvs. apply (Forall2_functional (λ '(q, a) v, (a, v) ∈ sent q) (map (λ a, (pt, a)) ids)).
  - intros [q a] v v'. apply sent_functional.
  - exact Hvs.
  - rewrite <- sent_values. rewrite <- (sent_keys pt) at 1. change map with (@fmap list _).
    rewrite <- list_fmap_compose.
    assert (∀ l, (∀ e, e ∈ l → e ∈ sent pt) →
      Forall2 (λ '(q, a) v, (a, v) ∈ sent q) (((λ a, (pt, a)) ∘ fst) <$> l) l.*2) as Hall.
    { induction l as [|[a v] l IH]; intros Hl; simpl; constructor.
      - apply Hl. by left.
      - apply IH. intros e He. apply Hl. by right. }
    by apply Hall.
Qed.

Definition received (me pt : nat) : list string :=
  if (pt =? me)%nat then [] else map getStrVal (column pt xs).

Lemma finished_values s me :
  party_inv s me → toread (party s me) = [] →
  values (party s me) = concat (map (received me) parties).
Proof.
  intros [(before & He & Hv) _ _] Htr. rewrite Htr, app_nil_r in He. subst before.
  revert Hv. unfold Exchange.reads. generalize (values (party s me)) parties. intros vs l. revert vs.
  induction l as [|pt l IH]; intros vs Hv; cbn [map concat] in *.
  - by inversion Hv.
  - apply Forall2_app_inv_l in Hv as (v1 & v2 & H1 & H2 & ->). rewrite <- (IH v2 H2). f_equal.
    unfold received. destruct (pt =? me)%nat; [by inversion H1|by apply block_values].
Qed.

Hypothesis wire_law : ∀ v, sv_wire v = of_string (getStrVal v).

Lemma traverse_wire l : traverse of_string (map getStrVal l) = traverse sv_wire l.
Proof. induction l as [|x l IH]; [done|]. simpl. by rewrite wire_law, IH. Qed.

Lemma fold_left_throw {A B} (f : B → A → result B) l e :
  fold_left (λ acc a, rbind acc (λ b, f b a)) l (Throw e) = Throw e.
Proof. induction l; [done|]. cbn [fold_left rbind]. done. Qed.

Lemma recons_loop_fold me pts acc :
  recons_loop of_string xs me pts (concat (map (received me) pts)) acc
  = fold_left (λ acc pt, rbind acc (λ a,
        rbind (if (pt =? me)%nat then Ok (column pt xs) else traverse sv_wire (column pt xs))
          (λ col, Ok (zip_with sv_add a col)))) pts (Ok acc).
Proof.
  revert acc. induction pts as [|pt pts IH]; intros acc; [done|].
  cbn [recons_loop map concat fold_left rbind].
  destruct (pt =? me)%nat eqn:He; cbn [rbind].
  - replace (received me pt) with (@nil string) by (unfold received; by rewrite He). apply IH.
  - replace (received me pt) with (map getStrVal (column pt xs)) by (unfold received; by rewrite He).
    assert (length xs = length (map getStrVal (column pt xs))) as Hl
      by (by rewrite length_map, column_length).
    rewrite (take_app_length' _ _ _ Hl), (drop_app_length' _ _ _ Hl).
    rewrite traverse_wire. destruct (traverse sv_wire (column pt xs)) as [col|e]; cbn [rbind].
    + apply IH.
    + by rewrite (fold_left_throw (λ a pt, rbind
        (if (pt =? me)%nat then Ok (column pt xs) else traverse sv_wire (column pt xs))
        (λ col, Ok (zip_with sv_add a col)))).
Qed.

Lemma finished_recons s me :
  party_inv s me → toread (party s me) = [] →
  recons_received of_string xs me s = recons_vec_at me xs.
Proof.
  intros Hp Htr. unfold recons_received. rewrite (finished_values s me Hp Htr).
  rewrite recons_loop_fold. reflexivity.
Qed.

Lemma reachable_inv boxes s :
  fresh boxes → rtc step (initial ids boxes) s → inv s.
Proof.
  intros Hf Hr. apply inv_initial in Hf. revert Hf. induction Hr as [|s1 s2 s3 H12 _ IH]; [done|].
  intros H1. apply IH. by eapply inv_step.
Qed.
End ExchangeFacts.

Lemma newAddresses_good {A} (xs : list A) g job :
  - 2 ^ 31 ≤ g < 2 ^ 31 → Z.of_nat (length xs) ≤ 2 ^ 32 →
  let ids := (newAddresses (length xs) g job).1 in
  NoDup ids ∧ Forall (λ a, thread_id a = 0) ids ∧ length ids = length xs.
Proof.
  intros Hg Hn ids. pose proof (newAddresses_length (length xs) g job) as Hl.
  unfold ids. clear ids. destruct (newAddresses (length xs) g job) as [l g'] eqn:E.
  cbn [fst] in *. split_and!; [| |done].
  - apply NoDup_alt. intros i j a Hi Hj.
    pose proof (lookup_lt_Some _ _ _ Hi). pose proof (lookup_lt_Some _ _ _ Hj).
    pose proof (newAddresses_nth _ _ _ _ _ _ _ E Hi) as Ei.
    pose proof (newAddresses_nth _ _ _ _ _ _ _ E Hj) as Ej. rewrite Ei in Ej.
    injection Ej as Ej.
    assert (∀ k, (if (k =? 0)%nat then g else wrap32 (g + Z.of_nat k)) = wrap32 (g + Z.of_nat k)) as Hw.
    { intros [|k]; [|done]. cbn [Nat.eqb]. rewrite wrap32_id by lia. lia. }
    rewrite !Hw in Ej. apply wrap32_inj in Ej; lia.
  - apply Forall_lookup. intros i a Hi. by rewrite (newAddresses_nth _ _ _ _ _ _ _ E Hi).
Qed.

(** * Theorems *)

(** [makeShares] loses and reorders nothing: read back in order, its messages
    are exactly the values under their addresses, each message carries the sender,
    and each is within the 1 MB limit unless it is a single value. *)
Theorem makeShares_lossless values share_ids party :
  length values = length share_ids →
  let ms := makeShares values share_ids party in
  concat (map share_list ms) = zip (map set_address share_ids) values
  ∧ Forall (λ m, party_id m = party
             ∧ (message_size m ≤ limit ∨ (length (share_list m) ≤ 1)%nat)) ms.
Proof.
  intros Hl ms. split.
  - unfold ms, makeShares. pose proof (makeShares_loop_entries (zip values share_ids) party 0 [] []) as He.
    unfold entries in He. rewrite He. cbn [map concat app]. clear ms He.
    revert share_ids Hl. induction values as [|v vs IH]; intros [|a l] Hl; try done.
    simpl. f_equal. apply IH. by injection Hl.
  - apply Forall_and. split.
    + apply makeShares_loop_party. constructor.
    + apply makeShares_loop_fits; [constructor|done|]. right. cbn. lia.
Qed.

Lemma makeShares_lossless_witness :
  concat (map share_list (makeShares ["12"; "7"]%string [mkAddress 3 1 0; mkAddress 4 1 0] 2))
  = [(mkAddress 3 1 0, "12"%string); (mkAddress 4 1 0, "7"%string)].
Proof.
  exact (proj1 (makeShares_lossless ["12"; "7"]%string [mkAddress 3 1 0; mkAddress 4 1 0] 2 eq_refl)).
Defined.

(** C2: the joint step [recons_vec_at] of the protocols is what the message
    exchange computes.  When all parties open one vector under freshly generated
    addresses, then in every interleaving of their sends and reads, with sends
    that fail half way and are repeated, a party that has done its reads
    reconstructs exactly the joint value; and no run is stuck: from every
    reachable state the remaining sends and reads, one step each, can be done and
    all parties finish. *)
Theorem exchange_refines_recons `{SVI : ShareValue} `{EI : Env}
    (getStrVal : Z → string) (of_string : string → result Z) (xs : list sharing)
    (g job : Z) (boxes : nat → mailbox) (s : Exchange.System) :
  (∀ v, sv_wire v = of_string (getStrVal v)) →
  - 2 ^ 31 ≤ g < 2 ^ 31 → Z.of_nat (length xs) ≤ 2 ^ 32 →
  let ids := (newAddresses (length xs) g job).1 in
  fresh ids boxes →
  rtc (Exchange.step getStrVal xs ids) (Exchange.initial ids boxes) s →
  (∀ me, me ∈ parties → Exchange.toread (Exchange.party s me) = [] →
     Exchange.recons_received of_string xs me s = recons_vec_at me xs)
  ∧ ∃ s', nsteps (Exchange.step getStrVal xs ids) (work s) s s' ∧ Exchange.finished s'.
Proof.
  intros Hw Hg Hn ids Hf Hr. pose proof (newAddresses_good xs g job Hg Hn : good_ids xs ids) as Hids.
  pose proof (reachable_inv getStrVal xs ids Hids boxes s Hf Hr) as HI. split.
  - intros me Hme Htr. by apply (finished_recons getStrVal of_string xs ids Hids Hw); [apply HI|].
  - by apply (can_finish getStrVal xs ids Hids).
Qed.

Lemma exchange_refines_recons_witness :
  let step := @Exchange.step (@pf_value decimal_io) demo_env (@PrimeField.getStrVal decimal_io) [[5; 6; 7]]
                [mkAddress 41 1 0] in
  ∃ s', nsteps step 12 (@Exchange.initial demo_env [mkAddress 41 1 0] (λ _, ∅)) s'
        ∧ @Exchange.finished demo_env s'.
Proof.
  refine (proj2 (@exchange_refines_recons (@pf_value decimal_io) demo_env
    (@PrimeField.getStrVal decimal_io) (@PrimeField.of_string decimal_io) [[5; 6; 7]] 41 1 (λ _, ∅)
    (@Exchange.initial demo_env [mkAddress 41 1 0] (λ _, ∅)) _ _ _ _ _)).
  - reflexivity.
  - lia.
  - simpl. lia.
  - intros me pt a Ha. apply lookup_empty.
  - apply rtc_refl.
Defined.
