(* ===== verification/Rounds.v ===== *)
(** * Protocols of many rounds  (Share/Networking.hpp, Share/Share.hpp)

    The files before describe a protocol as one computation on the local values
    of all parties.  What runs is one program per party: it computes, sends
    messages, waits for the values it needs, and goes on.  [prog] is such a
    program; [step] interleaves the programs of all parties, a fast one being
    rounds ahead of a slow one, with deliveries that fail half way and are
    repeated; [lockstep] runs them round by round.  [rounds_refine_lockstep]
    says that the interleavings compute what the lockstep run computes and that
    none gets stuck.  [open_recons] is the round of [open] and [recons], [mul] the
    program of [operator*=(const Share &)]. *)
From stdpp Require Import base list numbers sets strings gmap relations.
From Stdlib Require Import ZArith Lia.
From S2P Require Import Prelude Field FixedPoint Random TripleHandler Share SharePF Mailbox.
Import Address Message Server.

Section Programs.
Context `{EI : Env}.

(** ** Programs *)

Inductive prog (A : Type) : Type :=
  | Ret (a : A)
  | Fail (e : exn)
  | Round (out : list (nat * list Shares)) (ins : list (nat * AddressId)) (next : list string → prog A).
#[global] Arguments Ret {A} a.
#[global] Arguments Fail {A} e.
#[global] Arguments Round {A} out ins next.

Context {A : Type}.

(** A party: what its server holds, its program, and the sends and reads that
    the current round has left, with the values read. *)
Record Node := mkNode {
  box : mailbox;
  program : prog A;
  unsent : list (nat * list Shares);
  unread : list (nat * AddressId);
  got : list string
}.
Definition enter (mb : mailbox) (p : prog A) : Node :=
  match p with
  | Round out ins _ => mkNode mb p out ins []
  | _ => mkNode mb p [] [] []
  end.

Definition System := nat → Node.
Definition set (s : System) (i : nat) (n : Node) : System := λ j, if (j =? i)%nat then n else s j.
(** Messages reach the server of [j]. *)
Definition deliver (j : nat) (ms : list Shares) (s : System) : System :=
  set s j (mkNode (ExchangeShares ms (box (s j))) (program (s j)) (unsent (s j)) (unread (s j)) (got (s j))).
(** The send at a position of [i]'s list has returned. *)
Definition sent_one (i : nat) (rest : list (nat * list Shares)) (s : System) : System :=
  set s i (mkNode (box (s i)) (program (s i)) rest (unread (s i)) (got (s i))).

Inductive step : System → System → Prop :=
  | step_send s i j ms l1 l2 :
      i ∈ parties → unsent (s i) = l1 ++ (j, ms) :: l2 →
      step s (sent_one i (l1 ++ l2) (deliver j ms s))
  | step_fail s i j ms k :
      i ∈ parties → (j, ms) ∈ unsent (s i) →
      step s (deliver j (take k ms) s)
  | step_read s i pt a rest v mb :
      (* the threads of the sends have been joined *)
      i ∈ parties → unsent (s i) = [] → unread (s i) = (pt, a) :: rest →
      getShare (Z.of_nat pt) a (box (s i)) = Some (v, mb) →
      step s (set s i (mkNode mb (program (s i)) [] rest (got (s i) ++ [v])))
  | step_next s i out ins next :
      i ∈ parties → unsent (s i) = [] → unread (s i) = [] → program (s i) = Round out ins next →
      step s (set s i (enter (box (s i)) (next (got (s i))))).

Definition start (ps : nat → prog A) (boxes : nat → mailbox) : System := λ i, enter (boxes i) (ps i).

(** ** The run round by round *)

Record Rnd := mkRnd {
  r_out : nat → list (nat * list Shares);
  r_in : nat → list (nat * AddressId);
  r_vals : nat → list string
}.

(** [pt] sends [v] under [a] to [me]. *)
Definition sends (rd : Rnd) (pt me : nat) (a : AddressId) (v : string) : Prop :=
  ∃ ms, (me, ms) ∈ r_out rd pt ∧ (a, v) ∈ entries ms.

(** Every party sends at most one stream to each, a stream has one value per
    address, and the values read are those sent. *)
Record round_ok (rd : Rnd) : Prop := {
  ok_out : ∀ i, i ∈ parties → NoDup (r_out rd i).*1;
  ok_from : ∀ i j ms, i ∈ parties → (j, ms) ∈ r_out rd i →
    Forall (λ m, party_id m = Z.of_nat i) ms ∧ NoDup (entries ms).*1;
  ok_in : ∀ i, i ∈ parties → NoDup (r_in rd i);
  ok_vals : ∀ i, i ∈ parties →
    Forall2 (λ '(pt, a) v, pt ∈ parties ∧ sends rd pt i a v) (r_in rd i) (r_vals rd i)
}.

Fixpoint lockstep (tr : list Rnd) (ps : nat → prog A) (results : nat → A) : Prop :=
  match tr with
  | [] => ∀ i, i ∈ parties → ps i = Ret (results i)
  | rd :: tr => round_ok rd ∧ ∃ next : nat → list string → prog A,
      (∀ i, i ∈ parties → ps i = Round (r_out rd i) (r_in rd i) (next i))
      ∧ lockstep tr (λ i, next i (r_vals rd i)) results
  end.

(** No address is used in two rounds of one pair of parties. *)
Definition apart (tr : list Rnd) : Prop := ∀ r r' rd rd' pt me a v v',
  tr !! r = Some rd → tr !! r' = Some rd' → pt ∈ parties → sends rd pt me a v → sends rd' pt me a v' → r = r'.

(** Nothing is filed yet under an address that will be read. *)
Definition unfiled (tr : list Rnd) (boxes : nat → mailbox) : Prop := ∀ rd pt me a v,
  rd ∈ tr → sends rd pt me a v → boxes me !! key (Z.of_nat pt) a = None.
End Programs.
#[global] Arguments Node : clear implicits.
#[global] Arguments System : clear implicits.

(** ** The round of [open] and [recons], and the programs that use it *)

Section Protocols.
Context `{SVI : ShareValue} `{EI : Env}.
(** The decimal string of a value and its reading, the two halves of [sv_wire]. *)
Context (getStrVal : Z → string) (of_string : string → result Z).
Context {A : Type}.

(** [recons] of the vector whose local values are [own], from the strings read. *)
Fixpoint recons_loop (me : nat) (own : list Z) (pts : list nat) (vals : list string) (ret : list Z) : result (list Z) :=
  match pts with
  | [] => Ok ret
  | pt :: pts =>
      if (pt =? me)%nat then recons_loop me own pts vals (zip_with sv_add ret own)
      else rbind (traverse of_string (take (length own) vals)) (λ values,
           recons_loop me own pts (drop (length own) vals) (zip_with sv_add ret values))
  end.
Definition recons (me : nat) (own : list Z) (vals : list string) : result (list Z) :=
  recons_loop me own parties vals (map (λ _, sv_zero) own).

(** [open] of a vector of shares, then its [recons]. *)
Definition open_recons (me : nat) (ids : list AddressId) (own : list Z) (next : list Z → prog A) : prog A :=
  Round (map (λ j, (j, makeShares (map getStrVal own) ids (Z.of_nat me))) (filter (λ j, j ≠ me) parties))
    (Exchange.reads ids me)
    (λ vals, match recons me own vals with Ok l => next l | Throw e => Fail e end).

(** [c + d * b + e * a + d * e] at one party: the public [d * e] is added at the
    special party only. *)
Definition beaver_at (me : nat) (abc : Z * Z * Z) (de : Z * Z) : Z :=
  let '(a, b, c) := abc in let '(d, e) := de in
  let v := sv_add (sv_add c (sv_mul b d)) (sv_mul a e) in
  if (me =? sp_id)%nat then sv_add v (sv_mul d e) else v.

(** [operator*=(const Share &)] at one party, with its triple at position [k]. *)
Definition mul (me k : nat) (ids : list AddressId) (x y : Z) (next : Z → prog A) : prog A :=
  match sv_triple n_parties (bts k me) with
  | Throw e => Fail e
  | Ok (a, b, c) =>
      open_recons me ids [sv_sub x a; sv_sub y b] (λ de_rec,
        match de_rec with
        | [d; e] => next (beaver_at me (a, b, c) (d, e))
        | _ => Fail (Undefined "vector index")
        end)
  end.

(** [x *= y1; x *= y2; ...], each multiplication with the ids of its own shares. *)
Fixpoint product (me k : nat) (idss : list (list AddressId)) (x : Z) (ys : list Z) (next : Z → prog A) : prog A :=
  match ys, idss with
  | y :: ys, ids :: idss => mul me k ids x y (λ z, product me (S k) idss z ys next)
  | _, _ => next x
  end.
End Protocols.

(** * Lemmas *)

Section RoundFacts.
Context `{EI : Env} {A : Type}.
#[local] Abbreviation System := (System A).

(** The program of party [i] after [r] rounds of the trace. *)
Fixpoint prog_at (tr : list Rnd) (i r : nat) (p : prog A) : prog A :=
  match r, tr, p with
  | S r, rd :: tr, Round _ _ next => prog_at tr i r (next (r_vals rd i))
  | _, _, _ => p
  end.

Lemma prog_at_0 tr i p : prog_at tr i 0 p = p.
Proof. by destruct tr. Qed.

Lemma lockstep_prog tr ps results i r rd :
  lockstep tr ps results → i ∈ parties → tr !! r = Some rd →
  round_ok rd ∧ ∃ next, prog_at tr i r (ps i) = Round (r_out rd i) (r_in rd i) next
    ∧ prog_at tr i (S r) (ps i) = next (r_vals rd i).
Proof.
  intros Hl Hi. revert ps r Hl. induction tr as [|rd0 tr IH]; intros ps r; [done|].
  intros (Hok & next & Hps & Hl) Hr. destruct r as [|r]; cbn [prog_at].
  - injection Hr as <-. split; [done|]. exists (next i). rewrite (Hps i Hi). split; [done|]. by destruct tr.
  - rewrite (Hps i Hi). by apply (IH (λ i, next i (r_vals rd0 i))).
Qed.

Lemma lockstep_end tr ps results i :
  lockstep tr ps results → i ∈ parties → prog_at tr i (length tr) (ps i) = Ret (results i).
Proof.
  intros Hl Hi. revert ps Hl. induction tr as [|rd tr IH]; intros ps; cbn [lockstep length prog_at].
  - intros H. by rewrite (H i Hi).
  - intros (_ & next & Hps & Hl). rewrite (Hps i Hi). by apply (IH (λ i, next i (r_vals rd i))).
Qed.

Section Trace.
Context (tr : list Rnd) (ps : nat → prog A) (results : nat → A) (boxes : nat → mailbox).
Hypothesis Hlock : lockstep tr ps results.
Hypothesis Hapart : apart tr.
Hypothesis Hunfiled : unfiled tr boxes.

(** ** The invariant *)

(** A party in round [r]: its program, and what it has left of the round. *)
Definition local_inv (i r : nat) (n : Node A) : Prop :=
  r ≤ length tr ∧ program n = prog_at tr i r (ps i)
  ∧ match tr !! r with
    | None => unsent n = [] ∧ unread n = []
    | Some rd => NoDup (unsent n).*1 ∧ (∀ e, e ∈ unsent n → e ∈ r_out rd i)
        ∧ ∃ k, k ≤ length (r_in rd i) ∧ unread n = drop k (r_in rd i) ∧ got n = take k (r_vals rd i)
    end.

(** What party [me] in round [r] still has to read of round [q]. *)
Definition to_read (me r : nat) (n : Node A) (q : nat) (e : nat * AddressId) : Prop :=
  ∃ rd, tr !! q = Some rd ∧ (r < q ∧ e ∈ r_in rd me ∨ r = q ∧ e ∈ unread n).

(** Party [pt] in round [r] has sent its messages of round [q] to [me]. *)
Definition has_sent (pt r : nat) (n : Node A) (q me : nat) : Prop :=
  q < r ∨ q = r ∧ me ∉ (unsent n).*1.

(** [round_of] is the round every party is in. *)
Record inv (round_of : nat → nat) (s : System) : Prop := {
  inv_local : ∀ i, i ∈ parties → local_inv i (round_of i) (s i);
  (* a value on file under an address of the trace is the one sent *)
  inv_box : ∀ me pt a v rd v', pt ∈ parties → box (s me) !! key (Z.of_nat pt) a = Some v →
    rd ∈ tr → sends rd pt me a v' → sends rd pt me a v;
  (* what was sent and not read yet is on file *)
  inv_there : ∀ me pt a q, me ∈ parties → pt ∈ parties →
    to_read me (round_of me) (s me) q (pt, a) → has_sent pt (round_of pt) (s pt) q me →
    is_Some (box (s me) !! key (Z.of_nat pt) a)
}.

Lemma round_ok_at r rd : tr !! r = Some rd → (∃ i : nat, i ∈ parties) → round_ok rd.
Proof. intros Hr [i Hi]. by apply (lockstep_prog tr ps results i r rd). Qed.

Lemma NoDup_fst_eq {X Y} (l : list (X * Y)) x y y' : NoDup l.*1 → (x, y) ∈ l → (x, y') ∈ l → y = y'.
Proof.
  induction l as [|[a b] l IH]; [set_solver|]. cbn. rewrite NoDup_cons. intros [Hb Hnd] H1 H2.
  apply elem_of_cons in H1 as [E1|H1], H2 as [E2|H2]; [congruence| | |by apply IH];
    exfalso; apply Hb, list_elem_of_fmap; eexists; (split; [|eassumption]); cbn; congruence.
Qed.

Lemma sends_functional rd pt me a v v' :
  round_ok rd → pt ∈ parties → sends rd pt me a v → sends rd pt me a v' → v = v'.
Proof.
  intros Hok Hpt (ms & Hin & Hv) (ms' & Hin' & Hv').
  assert (ms' = ms) as -> by (by eapply (NoDup_fst_eq (r_out rd pt)); [apply (ok_out _ Hok)|..]).
  destruct (ok_from _ Hok pt me ms Hpt Hin) as [_ Hnd]. by eapply NoDup_fst_eq.
Qed.

Lemma set_eq (s : System) i n : set s i n i = n.
Proof. unfold set. by rewrite Nat.eqb_refl. Qed.
Lemma set_ne (s : System) i j n : j ≠ i → set s i n j = s j.
Proof. intros H. unfold set. by rewrite (proj2 (Nat.eqb_neq _ _) H). Qed.

(** Delivering changes one mailbox, and nothing else. *)
Lemma deliver_other j ms (s : System) p : let n := deliver j ms s p in
  program n = program (s p) ∧ unsent n = unsent (s p) ∧ unread n = unread (s p) ∧ got n = got (s p)
  ∧ box n = if (p =? j)%nat then ExchangeShares ms (box (s p)) else box (s p).
Proof. unfold deliver, set. destruct (Nat.eqb_spec p j) as [->|]; cbn; done. Qed.

Lemma local_inv_same i r (n n' : Node A) :
  program n' = program n → unsent n' = unsent n → unread n' = unread n → got n' = got n →
  local_inv i r n → local_inv i r n'.
Proof. unfold local_inv. by intros -> -> -> ->. Qed.

(** What a partial or complete delivery leaves under a key. *)
Lemma delivered_lookup i ms mb pt a k :
  Forall (λ m, party_id m = Z.of_nat i) ms →
  let r := ExchangeShares (take k ms) mb !! key (Z.of_nat pt) a in
  (∃ v, i = pt ∧ (a, v) ∈ entries ms ∧ r = Some v) ∨ r = mb !! key (Z.of_nat pt) a.
Proof.
  intros Hp. cbn zeta. rewrite (ExchangeShares_file (Z.of_nat i)) by by apply Forall_take.
  destruct (file_lookup (Z.of_nat i) (entries (take k ms)) mb (Z.of_nat pt) a) as [(He & v & Hv & Hl)|[_ Hl]];
    [left|by right].
  apply Nat2Z.inj in He. exists v. split_and!; [done|by eapply entries_take_sub|done].
Qed.

Lemma delivered_there i ms mb a v :
  Forall (λ m, party_id m = Z.of_nat i) ms → (a, v) ∈ entries ms →
  is_Some (ExchangeShares ms mb !! key (Z.of_nat i) a).
Proof.
  intros Hp Hv. rewrite (ExchangeShares_file (Z.of_nat i)) by done.
  destruct (file_lookup (Z.of_nat i) (entries ms) mb (Z.of_nat i) a) as [(_ & w & _ & ->)|[[|Hn] _]];
    [done|done|]. by destruct (Hn v).
Qed.

(** A party sends messages of its own round. *)
Lemma unsent_in_round round_of s i j ms :
  inv round_of s → i ∈ parties → (j, ms) ∈ unsent (s i) →
  ∃ rd, tr !! round_of i = Some rd ∧ (j, ms) ∈ r_out rd i ∧ round_ok rd.
Proof.
  intros HI Hi Hin. destruct (inv_local _ _ HI i Hi) as (_ & _ & Hr).
  destruct (tr !! round_of i) as [rd|] eqn:E.
  - exists rd. destruct Hr as (_ & Hs & _). split_and!; [done|by apply Hs|].
    eapply round_ok_at; [done|by exists i].
  - destruct Hr as [Hu _]. rewrite Hu in Hin. by apply not_elem_of_nil in Hin.
Qed.

(** A delivery of a part of a party's stream keeps the invariant. *)
Lemma inv_delivered round_of s i j ms k :
  inv round_of s → i ∈ parties → (j, ms) ∈ unsent (s i) → inv round_of (deliver j (take k ms) s).
Proof.
  intros HI Hi Hin. destruct (unsent_in_round _ _ _ _ _ HI Hi Hin) as (rd & Hrd & Hout & Hok).
  destruct (ok_from _ Hok i j ms Hi Hout) as [Hfrom _].
  assert (∀ p, let n := deliver j (take k ms) s p in program n = program (s p) ∧ unsent n = unsent (s p)
    ∧ unread n = unread (s p) ∧ got n = got (s p)
    ∧ box n = if (p =? j)%nat then ExchangeShares (take k ms) (box (s p)) else box (s p)) as Hd
    by (intros p; apply deliver_other).
  split.
  - intros p Hp. destruct (Hd p) as (H1 & H2 & H3 & H4 & _).
    by apply (local_inv_same p _ (s p)); [..|apply (inv_local _ _ HI)].
  - intros me pt a v rd' v' Hpt. destruct (Hd me) as (_ & _ & _ & _ & ->).
    destruct (Nat.eqb_spec me j) as [->|]; [|by apply (inv_box _ _ HI)].
    destruct (delivered_lookup i ms (box (s j)) pt a k Hfrom) as [(u & <- & Hu & ->)| ->];
      [|by apply (inv_box _ _ HI)].
    intros [= <-] Hrd' Hv'. apply list_elem_of_lookup in Hrd' as [q Hq].
    assert (sends rd i j a u) as Hsu by (by exists ms).
    assert (q = round_of i) as -> by (by eapply Hapart; [exact Hq|exact Hrd| | |]).
    rewrite Hrd in Hq. by injection Hq as <-.
  - intros me pt a q Hme Hpt (rd' & Hq & Hr) Hs.
    destruct (Hd me) as (_ & _ & Hun & _ & ->). destruct (Hd pt) as (_ & Hus & _).
    assert (is_Some (box (s me) !! key (Z.of_nat pt) a)) as Hthere.
    { apply (inv_there _ _ HI me pt a q Hme Hpt).
      - exists rd'. by rewrite Hun in Hr.
      - unfold has_sent in *. by rewrite Hus in Hs. }
    destruct (me =? j)%nat; [|done].
    by destruct (delivered_lookup i ms (box (s me)) pt a k Hfrom) as [(u & _ & _ & ->)| ->].
Qed.

(** Reading needs an address that the sender has used in that round. *)
Lemma to_read_sent me r (n : Node A) q pt a :
  me ∈ parties → local_inv me r n → to_read me r n q (pt, a) →
  ∃ rd v, tr !! q = Some rd ∧ (pt, a) ∈ r_in rd me ∧ pt ∈ parties ∧ sends rd pt me a v.
Proof.
  intros Hme Hl (rd & Hq & Hr). assert ((pt, a) ∈ r_in rd me) as Hin.
  { destruct Hr as [[_ Hr]|[-> Hr]]; [done|]. destruct Hl as (_ & _ & Hl). rewrite Hq in Hl.
    destruct Hl as (_ & _ & k & _ & Hu & _). rewrite Hu in Hr.
    rewrite <- (take_drop k (r_in rd me)). apply elem_of_app. by right. }
  pose proof (ok_vals _ (round_ok_at q rd Hq ltac:(by exists me)) me Hme) as Hv.
  apply list_elem_of_lookup in Hin as [x Hx]. destruct (Forall2_lookup_l _ _ _ _ _ Hv Hx) as (v & _ & Hpt & Hs).
  exists rd, v. split_and!; [done| |done|done]. by eapply list_elem_of_lookup_2.
Qed.

Lemma inv_send round_of s i j ms l1 l2 :
  inv round_of s → i ∈ parties → unsent (s i) = l1 ++ (j, ms) :: l2 →
  inv round_of (sent_one i (l1 ++ l2) (deliver j ms s)).
Proof.
  intros HI Hi Hu. assert ((j, ms) ∈ unsent (s i)) as Hin by (rewrite Hu; set_solver).
  destruct (unsent_in_round _ _ _ _ _ HI Hi Hin) as (rd & Hrd & Hout & Hok).
  destruct (ok_from _ Hok i j ms Hi Hout) as [Hfrom Hkeys].
  pose proof (inv_delivered _ _ _ _ _ (length ms) HI Hi Hin) as HD. rewrite firstn_all in HD.
  set (s1 := deliver j ms s) in *.
  assert (unsent (s1 i) = l1 ++ (j, ms) :: l2) as Hu1 by (unfold s1; destruct (deliver_other j ms s i) as (_ & -> & _); done).
  split.
  - intros p Hp. unfold sent_one. destruct (decide (p = i)) as [->|Hne].
    + rewrite set_eq. destruct (inv_local _ _ HD i Hp) as (H1 & H2 & H3). split_and!; [done|done|].
      rewrite Hrd in H3 |- *. cbn [unsent unread got]. destruct H3 as (Hnd & Hsub & Hk). rewrite Hu1 in Hnd, Hsub.
      split_and!; [|intros e He; apply Hsub; set_solver|exact Hk].
      rewrite fmap_app in *. cbn in Hnd. apply NoDup_app in Hnd as (Hn1 & Hn2 & [_ Hn3]%NoDup_cons).
      apply NoDup_app. split_and!; [done| |done]. intros x Hx Hx'. apply (Hn2 x Hx). by right.
    + rewrite set_ne by done. by apply (inv_local _ _ HD).
  - intros me pt a v rd' v' Hpt. assert (box (sent_one i (l1 ++ l2) s1 me) = box (s1 me)) as ->.
    { unfold sent_one, set. by destruct (Nat.eqb_spec me i) as [->|]. }
    by apply (inv_box _ _ HD).
  - intros me pt a q Hme Hpt Hr Hs.
    assert (box (sent_one i (l1 ++ l2) s1 me) = box (s1 me)) as ->.
    { unfold sent_one, set. by destruct (Nat.eqb_spec me i) as [->|]. }
    assert (to_read me (round_of me) (s1 me) q (pt, a)) as Hr1.
    { destruct Hr as (rd' & Hq & Hr). exists rd'. split; [done|]. unfold sent_one, set in Hr.
      by destruct (Nat.eqb_spec me i) as [->|]. }
    destruct (decide (pt = i)) as [->|Hne].
    2:{ apply (inv_there _ _ HD me pt a q Hme Hpt Hr1). unfold sent_one in Hs. by rewrite set_ne in Hs. }
    unfold sent_one in Hs. rewrite set_eq in Hs. destruct Hs as [Hlt|[-> Hn]].
    { apply (inv_there _ _ HD me i a q Hme Hpt Hr1). by left. }
    cbn [unsent] in Hn. destruct (decide (me = j)) as [->|Hmj].
    + destruct (to_read_sent j _ _ _ _ _ Hme (inv_local _ _ HD j Hme) Hr1) as (rd' & v & Hq & _ & _ & Hsv).
      rewrite Hrd in Hq. injection Hq as <-. destruct Hsv as (ms' & Hin' & Hv).
      assert (ms' = ms) as -> by (by eapply (NoDup_fst_eq (r_out rd i)); [apply (ok_out _ Hok)|..]).
      unfold s1. destruct (deliver_other j ms s j) as (_ & _ & _ & _ & ->). rewrite Nat.eqb_refl.
      by eapply delivered_there.
    + apply (inv_there _ _ HD me i a _ Hme Hpt Hr1). right. split; [done|]. rewrite Hu1, fmap_app. cbn.
      rewrite fmap_app in Hn. set_solver.
Qed.

Lemma has_round i r (n : Node A) : local_inv i r n → unread n ≠ [] → ∃ rd, tr !! r = Some rd.
Proof. intros (_ & _ & Hl) Hn. destruct (tr !! r) as [rd|]; [by exists rd|]. by destruct Hl. Qed.

Lemma inv_read round_of s i pt a rest v mb :
  inv round_of s → i ∈ parties → unsent (s i) = [] → unread (s i) = (pt, a) :: rest →
  getShare (Z.of_nat pt) a (box (s i)) = Some (v, mb) →
  inv round_of (set s i (mkNode mb (program (s i)) [] rest (got (s i) ++ [v]))).
Proof.
  intros HI Hi Hus Hun Hget. pose proof (inv_local _ _ HI i Hi) as Hl.
  destruct (has_round _ _ _ Hl) as [rd Hrd]; [by rewrite Hun|].
  pose proof (round_ok_at _ _ Hrd ltac:(by exists i)) as Hok.
  unfold getShare in Hget. destruct (box (s i) !! key (Z.of_nat pt) a) as [u|] eqn:Hbox; [|done].
  injection Hget as -> <-.
  pose proof Hl as (Hr & Hp & Hl'). rewrite Hrd in Hl'. destruct Hl' as (_ & _ & k & Hk & Hu & Hg).
  rewrite Hun in Hu.
  assert (r_in rd i !! k = Some (pt, a)) as Hat by (rewrite <- (Nat.add_0_r k), <- lookup_drop, <- Hu; done).
  assert (rest = drop (S k) (r_in rd i)) as Hrest
    by (rewrite <- Nat.add_1_r, <- drop_drop, <- Hu; done).
  destruct (Forall2_lookup_l _ _ _ _ _ (ok_vals _ Hok i Hi) Hat) as (w & Hw & Hpt & Hsw).
  assert (sends rd pt i a v) as Hsv.
  { eapply (inv_box _ _ HI); [done|exact Hbox| |exact Hsw]. by eapply list_elem_of_lookup_2. }
  assert (v = w) as <- by by eapply sends_functional.
  pose proof (ok_in _ Hok i Hi) as Hnd. rewrite <- (take_drop k (r_in rd i)), <- Hu in Hnd.
  apply NoDup_app in Hnd as (_ & _ & [Hfresh _]%NoDup_cons).
  split.
  - intros p Hpp. destruct (decide (p = i)) as [->|Hne]; [|rewrite set_ne by done; by apply (inv_local _ _ HI)].
    rewrite set_eq. split_and!; [done|done|]. rewrite Hrd. cbn [unsent unread got]. split_and!; [constructor| |].
    { intros e He. by apply not_elem_of_nil in He. }
    exists (S k). apply lookup_lt_Some in Hat. split_and!; [lia|done|]. rewrite Hg. by rewrite (take_S_r _ _ v).
  - intros me pt' a' v' rd' u Hpt'. destruct (decide (me = i)) as [->|Hne].
    + rewrite set_eq. cbn [box]. intros Hd. apply lookup_delete_Some in Hd as [_ Hd]. by apply (inv_box _ _ HI).
    + rewrite set_ne by done. by apply (inv_box _ _ HI).
  - intros me pt' a' q Hme Hpt' Hread Hs.
    assert (has_sent pt' (round_of pt') (s pt') q me) as Hs'.
    { unfold has_sent, set in *. destruct (Nat.eqb_spec pt' i) as [->|]; [|done]. by rewrite Hus. }
    destruct (decide (me = i)) as [->|Hne].
    2:{ rewrite set_ne in Hread |- * by done. by apply (inv_there _ _ HI me pt' a' q). }
    rewrite set_eq in Hread |- *. cbn [box]. destruct Hread as (rd' & Hq & Hread). cbn [unread] in Hread.
    assert (to_read i (round_of i) (s i) q (pt', a')) as Hread'.
    { exists rd'. split; [done|]. destruct Hread as [?|[-> Hin]]; [by left|right]. split; [done|].
      rewrite Hun. by right. }
    rewrite lookup_delete_ne; [by apply (inv_there _ _ HI i pt' a' q)|].
    intros [E1 E2]%key_inj. apply Nat2Z.inj in E1. subst pt' a'.
    destruct Hread as [[Hlt Hin]|[_ Hin]]; [|done].
    destruct (to_read_sent i _ _ _ _ _ Hme Hl Hread') as (rd2 & v2 & Hq2 & _ & _ & Hs2).
    assert (round_of i = q) by (eapply Hapart; [exact Hrd|exact Hq2|done|exact Hsv|exact Hs2]). lia.
Qed.

Lemma box_enter mb (p : prog A) : box (enter mb p) = mb.
Proof. by destruct p. Qed.

Lemma local_enter i r mb : i ∈ parties → r ≤ length tr → local_inv i r (enter mb (prog_at tr i r (ps i))).
Proof.
  intros Hi Hr. split; [done|]. split; [by destruct (prog_at _ _ _ _)|].
  destruct (tr !! r) as [rd|] eqn:E.
  - destruct (lockstep_prog tr ps results i r rd Hlock Hi E) as (Hok & next & Hp & _). rewrite Hp. cbn.
    split_and!; [by apply (ok_out _ Hok)|done|]. exists 0. split_and!; [lia|done|done].
  - apply lookup_ge_None in E. assert (r = length tr) as -> by lia.
    by rewrite (lockstep_end tr ps results i).
Qed.

(** A round that is over: its values are those of the trace. *)
Lemma round_over round_of s i out ins next :
  inv round_of s → i ∈ parties → unread (s i) = [] → program (s i) = Round out ins next →
  ∃ rd, tr !! round_of i = Some rd ∧ next (got (s i)) = prog_at tr i (S (round_of i)) (ps i).
Proof.
  intros HI Hi Hun Hp. destruct (inv_local _ _ HI i Hi) as (Hr & Hp' & Hl).
  destruct (tr !! round_of i) as [rd|] eqn:E.
  - exists rd. split; [done|]. destruct Hl as (_ & _ & k & Hk & Hu & Hg).
    destruct (lockstep_prog tr ps results i _ rd Hlock Hi E) as (Hok & next' & Hpr & ->).
    rewrite Hp' in Hp. rewrite Hp in Hpr. injection Hpr as -> -> ->. f_equal.
    rewrite Hun in Hu. apply (f_equal length) in Hu. rewrite length_drop in Hu. cbn in Hu.
    rewrite Hg. apply take_ge. rewrite <- (Forall2_length _ _ _ (ok_vals _ Hok i Hi)). lia.
  - apply lookup_ge_None in E. assert (round_of i = length tr) as Hlen by lia.
    rewrite Hlen, (lockstep_end tr ps results i Hlock Hi) in Hp'. congruence.
Qed.

Definition next_round (round_of : nat → nat) (i p : nat) : nat :=
  if (p =? i)%nat then S (round_of i) else round_of p.

Lemma inv_next round_of s i out ins next :
  inv round_of s → i ∈ parties → unsent (s i) = [] → unread (s i) = [] → program (s i) = Round out ins next →
  inv (next_round round_of i) (set s i (enter (box (s i)) (next (got (s i))))).
Proof.
  intros HI Hi Hus Hun Hp. destruct (round_over _ _ _ _ _ _ HI Hi Hun Hp) as (rd & Hrd & ->).
  set (n' := enter _ _). assert (S (round_of i) ≤ length tr) as Hlen by (apply lookup_lt_Some in Hrd; lia).
  pose proof (local_enter i (S (round_of i)) (box (s i)) Hi Hlen) as Hl. fold n' in Hl.
  assert (∀ me, box (set s i n' me) = box (s me)) as Hbox.
  { intros me. unfold set. destruct (Nat.eqb_spec me i) as [->|]; [|done]. apply box_enter. }
  split.
  - intros p Hpp. unfold next_round, set. destruct (Nat.eqb_spec p i) as [->|]; [done|]. by apply (inv_local _ _ HI).
  - intros me pt a v rd' v'. rewrite Hbox. apply (inv_box _ _ HI).
  - intros me pt a q Hme Hpt Hread Hs. rewrite Hbox.
    assert (to_read me (round_of me) (s me) q (pt, a)) as Hread'.
    { unfold next_round, set in Hread. destruct (Nat.eqb_spec me i) as [->|]; [|done].
      destruct Hread as (rd' & Hq & Hread). exists rd'. split; [done|]. left.
      destruct Hread as [[Hlt Hin]|[<- Hin]]; [split; [lia|done]|]. split; [lia|].
      destruct Hl as (_ & _ & Hl). rewrite Hq in Hl. destruct Hl as (_ & _ & k & _ & Hu & _).
      rewrite Hu in Hin. rewrite <- (take_drop k (r_in rd' i)). apply elem_of_app. by right. }
    apply (inv_there _ _ HI me pt a q Hme Hpt Hread').
    unfold next_round, set in Hs. destruct (Nat.eqb_spec pt i) as [->|]; [|done].
    destruct Hs as [Hlt|[-> Hn]].
    + destruct (decide (q = round_of i)) as [->|]; [right|left; lia]. split; [done|]. rewrite Hus. apply not_elem_of_nil.
    + exfalso. destruct (to_read_sent me _ _ _ _ _ Hme (inv_local _ _ HI me Hme) Hread') as (rd' & v & Hq & _ & _ & ms & Hin & _).
      destruct (lockstep_prog tr ps results i _ rd' Hlock Hi Hq) as (_ & next' & Hpr & _).
      unfold n' in Hn. rewrite Hpr in Hn. cbn in Hn. apply Hn. by apply (list_elem_of_fmap_2 fst _ (me, ms)).
Qed.

Lemma local_start i : i ∈ parties → local_inv i 0 (start ps boxes i).
Proof. intros Hi. pose proof (local_enter i 0 (boxes i) Hi ltac:(lia)) as H. by rewrite prog_at_0 in H. Qed.

Lemma inv_start : inv (λ _, 0) (start ps boxes).
Proof.
  split.
  - exact local_start.
  - intros me pt a v rd v' _ Hb Hrd Hs. unfold start in Hb. rewrite box_enter in Hb.
    by rewrite (Hunfiled rd pt me a v' Hrd Hs) in Hb.
  - intros me pt a q Hme Hpt Hread [Hlt|[-> Hn]]; [lia|]. exfalso.
    destruct (to_read_sent me 0 _ _ _ _ Hme (local_start me Hme) Hread) as (rd & v & Hq & _ & _ & ms & Hin & _).
    destruct (lockstep_prog tr ps results pt 0 rd Hlock Hpt Hq) as (_ & next' & Hpr & _). rewrite prog_at_0 in Hpr.
    unfold start in Hn. rewrite Hpr in Hn. cbn in Hn. apply Hn. by apply (list_elem_of_fmap_2 fst _ (me, ms)).
Qed.

Lemma inv_steps round_of s s' : inv round_of s → step s s' → ∃ round_of', inv round_of' s'.
Proof.
  intros HI Hst. destruct Hst as
    [s i j ms l1 l2 Hi Hu|s i j ms k Hi Hin|s i pt a rest v mb Hi Hus Hun Hg|s i out ins next Hi Hus Hun Hp].
  - exists round_of. by eapply (inv_send _ _ i).
  - exists round_of. by eapply (inv_delivered _ _ i).
  - exists round_of. by eapply (inv_read _ _ i).
  - eexists. by eapply (inv_next _ _ i).
Qed.

(** ** Progress *)

Definition rest_work (i r : nat) : nat :=
  sum_list_with (λ rd, 1 + length (r_out rd i) + length (r_in rd i)) (drop r tr).
Definition node_work (i r : nat) (n : Node A) : nat :=
  rest_work i (S r) + (if (r <? length tr)%nat then 1 else 0) + length (unsent n) + length (unread n).
Definition work (round_of : nat → nat) (s : System) : nat :=
  sum_list_with (λ i, node_work i (round_of i) (s i)) parties.

Lemma sum_lt (f f' : nat → nat) l i :
  (∀ j, f' j ≤ f j) → i ∈ l → f' i < f i → sum_list_with f' l < sum_list_with f l.
Proof.
  intros Hle Hi Hlt. induction l as [|x l IH]; [by apply not_elem_of_nil in Hi|]. cbn [sum_list_with].
  assert (∀ k, sum_list_with f' k ≤ sum_list_with f k) as Hk.
  { induction k as [|y k IHk]; [done|]. cbn [sum_list_with]. pose proof (Hle y). lia. }
  apply elem_of_cons in Hi as [<-|Hi]; [specialize (Hk l); lia|]. specialize (IH Hi). pose proof (Hle x). lia.
Qed.

Lemma some_or_all (P : nat → Prop) `{∀ i, Decision (P i)} (l : list nat) : (∃ i, i ∈ l ∧ P i) ∨ (∀ i, i ∈ l → ¬ P i).
Proof.
  induction l as [|x l [(i & Hi & HP)|IH]]; [right; set_solver|left; exists i; set_solver|].
  destruct (decide (P x)); [left; exists x; set_solver|]. right. set_solver.
Qed.

Lemma slowest (f : nat → nat) l : l ≠ [] → ∃ i, i ∈ l ∧ ∀ j, j ∈ l → f i ≤ f j.
Proof.
  induction l as [|x l IH]; [done|]. intros _. destruct (decide (l = [])) as [->|Hne].
  { exists x. split; [by left|]. intros j [->|Hj]%elem_of_cons; [done|]. by apply not_elem_of_nil in Hj. }
  destruct (IH Hne) as (i & Hi & Hm). destruct (decide (f x ≤ f i)).
  - exists x. split; [by left|]. intros j [->|Hj]%elem_of_cons; [done|]. specialize (Hm j Hj). lia.
  - exists i. split; [by right|]. intros j [->|Hj]%elem_of_cons; [lia|by apply Hm].
Qed.

Lemma node_work_set round_of (s : System) i n j :
  node_work i (round_of i) n ≤ node_work i (round_of i) (s i) →
  node_work j (round_of j) (set s i n j) ≤ node_work j (round_of j) (s j).
Proof. intros H. unfold set. by destruct (Nat.eqb_spec j i) as [->|]. Qed.

(** A party that has left a message to send can send it. *)
Lemma progress_send round_of s i :
  inv round_of s → i ∈ parties → unsent (s i) ≠ [] →
  ∃ s', step s s' ∧ inv round_of s' ∧ work round_of s' < work round_of s.
Proof.
  intros HI Hi Hne. destruct (unsent (s i)) as [|[j ms] l] eqn:Hu; [done|].
  eexists. split; [by apply (step_send s i j ms [] l)|]. split; [by apply (inv_send round_of s i j ms [] l)|].
  assert (∀ p, node_work p (round_of p) (deliver j ms s p) = node_work p (round_of p) (s p)) as Hd.
  { intros p. unfold node_work. destruct (deliver_other j ms s p) as (_ & -> & -> & _). done. }
  unfold work, sent_one. apply (sum_lt _ _ _ i); [|done|].
  - intros p. rewrite <- Hd. apply node_work_set. rewrite Hd. unfold node_work. cbn [unsent unread app].
    destruct (deliver_other j ms s i) as (_ & _ & -> & _). rewrite Hu. cbn [length]. lia.
  - rewrite set_eq. unfold node_work. cbn [unsent unread app].
    destruct (deliver_other j ms s i) as (_ & _ & -> & _). rewrite Hu. cbn [length]. lia.
Qed.

(** When nothing is left to send, the slowest party can read or go on. *)
Lemma progress_slowest round_of s i :
  inv round_of s → i ∈ parties → (∀ j, j ∈ parties → unsent (s j) = []) →
  (∀ j, j ∈ parties → round_of i ≤ round_of j) → round_of i < length tr →
  ∃ round_of' s', step s s' ∧ inv round_of' s' ∧ work round_of' s' < work round_of s.
Proof.
  intros HI Hi Hus Hmin Hlt. pose proof (inv_local _ _ HI i Hi) as Hl.
  destruct (lookup_lt_is_Some_2 tr (round_of i) Hlt) as [rd Hrd].
  destruct (unread (s i)) as [|[pt a] rest] eqn:Hun.
  - destruct (lockstep_prog tr ps results i _ rd Hlock Hi Hrd) as (Hok & next & Hp & _).
    assert (program (s i) = Round (r_out rd i) (r_in rd i) next) as Hprog by (rewrite <- Hp; apply Hl).
    exists (next_round round_of i). eexists. split; [by eapply (step_next s i); [|apply Hus| |]|].
    split; [by eapply (inv_next _ _ i); [| |apply Hus| |]|].
    destruct (round_over _ _ _ _ _ _ HI Hi Hun Hprog) as (_ & _ & ->).
    assert (node_work i (S (round_of i)) (enter (box (s i)) (prog_at tr i (S (round_of i)) (ps i)))
      < node_work i (round_of i) (s i)) as Hdec.
    { unfold node_work. rewrite (Hus i Hi), Hun, (proj2 (Nat.ltb_lt _ _) Hlt). cbn [length].
      destruct (tr !! S (round_of i)) as [rd'|] eqn:Hrd'.
      - destruct (lockstep_prog tr ps results i _ rd' Hlock Hi Hrd') as (_ & next' & -> & _). cbn [enter unsent unread].
        unfold rest_work at 2. rewrite (drop_S _ _ _ Hrd'). cbn [sum_list_with]. fold (rest_work i (S (S (round_of i)))).
        destruct (_ <? _)%nat; lia.
      - apply lookup_ge_None in Hrd'. rewrite (proj2 (Nat.ltb_ge _ _) Hrd').
        assert (S (round_of i) = length tr) as -> by lia. rewrite (lockstep_end tr ps results i Hlock Hi).
        unfold rest_work. rewrite !drop_ge by lia. cbn. lia. }
    unfold work. apply (sum_lt _ _ _ i); [|done|]; unfold next_round, set.
    + intros p. destruct (Nat.eqb_spec p i) as [->|]; [lia|done].
    + by rewrite Nat.eqb_refl.
  - exists round_of. assert (to_read i (round_of i) (s i) (round_of i) (pt, a)) as Hread.
    { exists rd. split; [done|]. right. split; [done|]. rewrite Hun. by left. }
    destruct (to_read_sent i _ _ _ _ _ Hi Hl Hread) as (_ & _ & _ & _ & Hpt & _).
    destruct (inv_there _ _ HI i pt a _ Hi Hpt Hread) as [v Hv].
    { specialize (Hmin pt Hpt). destruct (decide (round_of i = round_of pt)); [right|left; lia].
      split; [done|]. rewrite (Hus pt Hpt). apply not_elem_of_nil. }
    assert (getShare (Z.of_nat pt) a (box (s i)) = Some (v, delete (key (Z.of_nat pt) a) (box (s i)))) as Hg
      by (unfold getShare; by rewrite Hv).
    eexists. split; [by eapply (step_read s i pt a rest); [|apply Hus| |]|].
    split; [by eapply (inv_read _ _ i); [| |apply Hus| |]|].
    assert (∀ mb g, node_work i (round_of i) (mkNode mb (program (s i)) [] rest g) < node_work i (round_of i) (s i)) as Hdec.
    { intros mb g. unfold node_work. rewrite (Hus i Hi), Hun. cbn [unsent unread length]. lia. }
    unfold work. apply (sum_lt _ _ _ i); [|done|].
    + intros p. apply node_work_set. apply Nat.lt_le_incl, Hdec.
    + rewrite set_eq. apply Hdec.
Qed.

Lemma all_can_end round_of s : inv round_of s →
  ∃ s', rtc step s s' ∧ ∀ i, i ∈ parties → program (s' i) = Ret (results i).
Proof.
  remember (work round_of s) as n eqn:Hn. revert round_of s Hn.
  induction n as [n IH] using lt_wf_ind. intros round_of s -> HI.
  assert (∀ round_of' s', step s s' → inv round_of' s' → work round_of' s' < work round_of s →
    ∃ s', rtc step s s' ∧ ∀ i, i ∈ parties → program (s' i) = Ret (results i)) as Hgo.
  { intros round_of' s' Hst HI' Hlt. destruct (IH _ Hlt round_of' s' eq_refl HI') as (s2 & Hr & Hf).
    exists s2. split; [by eapply rtc_l|done]. }
  destruct (some_or_all (λ i, unsent (s i) ≠ []) parties) as [(i & Hi & Hne)|Hus].
  { destruct (progress_send _ _ _ HI Hi Hne) as (s' & Hst & HI' & Hlt). by eapply Hgo. }
  assert (∀ j, j ∈ parties → unsent (s j) = []) as Hus'.
  { intros j Hj. specialize (Hus j Hj). by destruct (unsent (s j)); [|destruct Hus]. }
  destruct (decide (parties = [])) as [He|Hne].
  { exists s. split; [done|]. rewrite He. intros i Hi. by apply not_elem_of_nil in Hi. }
  destruct (slowest round_of parties Hne) as (i & Hi & Hmin).
  destruct (decide (round_of i < length tr)) as [Hlt|Hge].
  - destruct (progress_slowest _ _ _ HI Hi Hus' Hmin Hlt) as (r' & s' & Hst & HI' & Hw). by eapply Hgo.
  - exists s. split; [done|]. intros j Hj. destruct (inv_local _ _ HI j Hj) as (Hr & -> & _).
    specialize (Hmin j Hj). assert (round_of j = length tr) as -> by lia. by apply lockstep_end.
Qed.

Lemma reached_inv s : rtc step (start ps boxes) s → ∃ round_of, inv round_of s.
Proof.
  intros Hr. assert (∃ round_of, inv round_of (start ps boxes)) as H by (eexists; apply inv_start).
  revert H. induction Hr as [s|s s1 s2 Hst _ IH]; [done|]. intros [r HI]. apply IH. by eapply inv_steps.
Qed.

(** A party that is done has the result of the lockstep run. *)
Lemma inv_result round_of s i a : inv round_of s → i ∈ parties → program (s i) = Ret a → a = results i.
Proof.
  intros HI Hi Hp. destruct (inv_local _ _ HI i Hi) as (Hr & Hp' & _).
  destruct (tr !! round_of i) as [rd|] eqn:E.
  - destruct (lockstep_prog tr ps results i _ rd Hlock Hi E) as (_ & next & Hpr & _). congruence.
  - apply lookup_ge_None in E. assert (round_of i = length tr) as Hlen by lia.
    rewrite Hlen, (lockstep_end tr ps results i Hlock Hi) in Hp'. congruence.
Qed.

(** No party throws. *)
Lemma inv_no_fail round_of s i e : inv round_of s → i ∈ parties → program (s i) ≠ Fail e.
Proof.
  intros HI Hi Hp. destruct (inv_local _ _ HI i Hi) as (Hr & Hp' & _).
  destruct (tr !! round_of i) as [rd|] eqn:E.
  - destruct (lockstep_prog tr ps results i _ rd Hlock Hi E) as (_ & next & Hpr & _). congruence.
  - apply lookup_ge_None in E. assert (round_of i = length tr) as Hlen by lia.
    rewrite Hlen, (lockstep_end tr ps results i Hlock Hi) in Hp'. congruence.
Qed.
End Trace.
End RoundFacts.

(** ** The round of [open] and [recons] *)

Section OpenFacts.
Context `{SVI : ShareValue} `{EI : Env}.
Context (getStrVal : Z → string) (of_string : string → result Z).
Context {A : Type}.

(** All parties open [xs] under [ids]. *)
Definition open_round (ids : list AddressId) (xs : list sharing) : Rnd := mkRnd
  (λ i, map (λ j, (j, Exchange.stream getStrVal xs ids i)) (filter (λ j, j ≠ i) parties))
  (Exchange.reads ids)
  (λ me, concat (map (received getStrVal xs me) parties)).

Lemma elem_of_others i j : j ∈ filter (λ j, j ≠ i) parties ↔ j ≠ i ∧ j ∈ parties.
Proof. by rewrite list_elem_of_filter. Qed.

Lemma open_round_out ids xs i : (r_out (open_round ids xs) i).*1 = filter (λ j, j ≠ i) parties.
Proof. cbn. induction (filter _ _) as [|j l IH]; [done|]. cbn. by f_equal. Qed.

Lemma open_round_sends ids xs pt me a v :
  good_ids xs ids → sends (open_round ids xs) pt me a v ↔ me ≠ pt ∧ me ∈ parties ∧ (a, v) ∈ sent getStrVal xs ids pt.
Proof.
  intros Hids. unfold sends. cbn. split.
  - intros (ms & Hin & Hv). apply list_elem_of_fmap in Hin as (j & [= <- ->] & Hj).
    apply elem_of_others in Hj as [Hne Hj]. by rewrite (stream_entries getStrVal xs ids Hids) in Hv.
  - intros (Hne & Hme & Hv). exists (Exchange.stream getStrVal xs ids pt). split.
    + apply list_elem_of_fmap. exists me. split; [done|]. by apply elem_of_others.
    + by rewrite (stream_entries getStrVal xs ids Hids).
Qed.

Lemma sends_ids ids xs pt me a v : good_ids xs ids → sends (open_round ids xs) pt me a v → a ∈ ids.
Proof.
  intros Hids (_ & _ & Hv)%open_round_sends; [|done].
  rewrite <- (sent_keys getStrVal xs ids Hids pt). by apply (list_elem_of_fmap_2 fst _ (a, v)).
Qed.

Lemma sent_pairs ids xs pt : good_ids xs ids →
  Forall2 (λ a v, (a, v) ∈ sent getStrVal xs ids pt) ids (map getStrVal (column pt xs)).
Proof.
  intros Hids. pose proof (sent_keys getStrVal xs ids Hids pt) as Hk. pose proof (sent_values getStrVal xs ids Hids pt) as Hv.
  assert (∀ l : list (AddressId * string), Forall2 (λ a v, (a, v) ∈ l) l.*1 l.*2) as Hl.
  { intros l. apply Forall2_fmap, Forall_Forall2_diag, Forall_forall. by intros [a v]. }
  specialize (Hl (sent getStrVal xs ids pt)). by rewrite Hk, Hv in Hl.
Qed.

Lemma open_round_ok ids xs : good_ids xs ids → round_ok (open_round ids xs).
Proof.
  intros Hids. split.
  - intros i _. rewrite open_round_out. apply NoDup_filter, parties_NoDup.
  - intros i j ms _ Hin. apply list_elem_of_fmap in Hin as (j' & [= -> ->] & _).
    split; [apply stream_party|]. rewrite (stream_entries getStrVal xs ids Hids), (sent_keys getStrVal xs ids Hids).
    apply Hids.
  - intros i _. by apply (reads_NoDup xs).
  - intros me Hme. cbn [open_round r_in r_vals]. unfold Exchange.reads. apply Forall2_concat_map.
    intros pt Hpt. unfold received. destruct (Nat.eqb_spec pt me) as [|Hne]; [constructor|].
    apply Forall2_fmap_l. eapply Forall2_impl; [by apply (sent_pairs ids xs pt)|].
    intros a v Hv. split; [done|]. by apply open_round_sends.
Qed.

Hypothesis wire_law : ∀ v, sv_wire v = of_string (getStrVal v).

(** What a party computes from the values of the round is the joint [recons_vec_at]. *)
Lemma recons_received_values xs me :
  recons of_string me (column me xs) (concat (map (received getStrVal xs me) parties)) = recons_vec_at me xs.
Proof.
  transitivity (Exchange.recons_loop of_string xs me parties (concat (map (received getStrVal xs me) parties))
    (map (λ _, sv_zero) xs)).
  - unfold recons. replace (map (λ _, sv_zero) (column me xs)) with (map (λ _ : sharing, sv_zero) xs)
      by (unfold column; by rewrite map_map).
    generalize (concat (map (received getStrVal xs me) parties)) (map (λ _ : sharing, sv_zero) xs).
    induction parties as [|pt l IH]; intros vals acc; [done|]. cbn [recons_loop Exchange.recons_loop].
    destruct (Nat.eqb_spec pt me) as [->|]; [apply IH|]. rewrite (column_length xs me).
    destruct (traverse _ _); [apply IH|done].
  - apply recons_loop_fold. exact wire_law.
Qed.

Lemma lockstep_ext (tr : list Rnd) (ps ps' : nat → prog A) results :
  (∀ i, i ∈ parties → ps i = ps' i) → lockstep tr ps results → lockstep tr ps' results.
Proof.
  intros He. destruct tr as [|rd tr]; cbn [lockstep].
  - intros H i Hi. by rewrite <- He, H.
  - intros (Hok & next & Hp & Hl). split; [done|]. exists next. split; [|done]. intros i Hi. by rewrite <- He, Hp.
Qed.

(** One more round in front. *)
Lemma lockstep_open tr ids xs des (next : nat → list Z → prog A) results :
  good_ids xs ids → (∀ me, me ∈ parties → recons_vec_at me xs = Ok des) →
  lockstep tr (λ me, next me des) results →
  lockstep (open_round ids xs :: tr) (λ me, open_recons getStrVal of_string me ids (column me xs) (next me)) results.
Proof.
  intros Hids Hrec Hl. split; [by apply open_round_ok|].
  exists (λ me vals, match recons of_string me (column me xs) vals with Ok l => next me l | Throw e => Fail e end).
  split; [done|]. eapply lockstep_ext; [|exact Hl]. intros me Hme. cbn [open_round r_vals].
  by rewrite recons_received_values, Hrec.
Qed.
End OpenFacts.

(** ** The addresses of a trace *)

Section Addresses.
Context `{EI : Env}.

(** Round by round, the ids the parties send under. *)
Definition under : list Rnd → list (list AddressId) → Prop :=
  Forall2 (λ rd ids, ∀ pt me a v, sends rd pt me a v → a ∈ ids).

Lemma NoDup_concat_lookup {X} (ls : list (list X)) i j l l' a :
  NoDup (concat ls) → ls !! i = Some l → ls !! j = Some l' → a ∈ l → a ∈ l' → i = j.
Proof.
  revert i j. induction ls as [|l0 ls IH]; intros i j Hnd Hi Hj Ha Ha'; [done|].
  cbn [concat] in Hnd. apply NoDup_app in Hnd as (_ & Hd & Hnd).
  assert (∀ q m, ls !! q = Some m → a ∈ m → a ∈ concat ls) as Hin.
  { intros q m Hq Hm. rewrite list_elem_of_In, in_concat. exists m.
    rewrite <- !list_elem_of_In. split; [by eapply list_elem_of_lookup_2|done]. }
  destruct i as [|i], j as [|j]; cbn in Hi, Hj; [done| | |f_equal; by apply (IH i j)].
  - injection Hi as ->. destruct (Hd a Ha). by eapply Hin.
  - injection Hj as ->. destruct (Hd a Ha'). by eapply Hin.
Qed.

Lemma under_apart tr idss : under tr idss → NoDup (concat idss) → apart tr.
Proof.
  intros Ho Hnd r r' rd rd' pt me a v v' Hr Hr' _ Hs Hs'.
  destruct (Forall2_lookup_l _ _ _ _ _ Ho Hr) as (ids & Hi & Hu).
  destruct (Forall2_lookup_l _ _ _ _ _ Ho Hr') as (ids' & Hi' & Hu').
  eapply (NoDup_concat_lookup idss); [done..|by eapply Hu|by eapply Hu'].
Qed.

Lemma under_unfiled tr idss boxes :
  under tr idss → fresh (concat idss) boxes → unfiled tr boxes.
Proof.
  intros Ho Hf rd pt me a v Hin Hs. apply list_elem_of_lookup in Hin as [r Hr].
  destruct (Forall2_lookup_l _ _ _ _ _ Ho Hr) as (ids & Hi & Hu). apply Hf.
  rewrite list_elem_of_In, in_concat. exists ids.
  rewrite <- !list_elem_of_In. split; [by eapply list_elem_of_lookup_2|by eapply Hu].
Qed.
End Addresses.

(** ** The local value of a party *)

Section Own.
Context `{SVI : ShareValue} `{EI : Env}.

Definition own (me : nat) (x : sharing) : Z := nth (me - 1) x sv_zero.

Lemma own_lookup me (x : sharing) : me ∈ parties → length x = n_parties → x !! (me - 1)%nat = Some (own me x).
Proof.
  intros Hme Hx. apply elem_of_seq in Hme. unfold own. destruct (x !! (me - 1)%nat) as [a|] eqn:Hl.
  - by rewrite (nth_lookup_Some _ _ _ _ Hl).
  - apply lookup_ge_None in Hl. lia.
Qed.

Lemma own_eq me (x : sharing) a : x !! (me - 1)%nat = Some a → own me x = a.
Proof. apply nth_lookup_Some. Qed.

Lemma own_zip me f (x y : sharing) :
  me ∈ parties → length x = n_parties → length y = n_parties → own me (zip_with f x y) = f (own me x) (own me y).
Proof.
  intros Hme Hx Hy. apply own_eq. rewrite lookup_zip_with.
  by rewrite (own_lookup me x), (own_lookup me y).
Qed.

Lemma own_map me f (x : sharing) : me ∈ parties → length x = n_parties → own me (map f x) = f (own me x).
Proof. intros Hme Hx. apply own_eq. change map with (@fmap list _). by rewrite list_lookup_fmap, (own_lookup me x). Qed.

Lemma own_lit me c : me ∈ parties → own me (s_lit c) = c.
Proof. intros Hme. apply own_eq, lookup_replicate. apply elem_of_seq in Hme. split; [done|lia]. Qed.

Lemma own_addc me (x : sharing) c : me ∈ parties → length x = n_parties →
  own me (s_addc x c) = if (me =? sp_id)%nat then sv_add (own me x) c else own me x.
Proof.
  intros Hme Hx. apply own_eq. unfold s_addc. rewrite lookup_zip_with, (own_lookup me x) by done.
  assert (parties !! (me - 1)%nat = Some me) as ->.
  { apply elem_of_seq in Hme. apply lookup_seq. lia. }
  cbn. by destruct (me =? sp_id)%nat.
Qed.

(** A triple as party [me] holds it. *)
Definition own_triple (me : nat) (t : sharing * sharing * sharing) : Z * Z * Z :=
  (own me t.1.1, own me t.1.2, own me t.2).

Lemma own_beaver me t de :
  me ∈ parties → length t.1.1 = n_parties → length t.1.2 = n_parties → length t.2 = n_parties →
  own me (beaver t de) = beaver_at me (own_triple me t) de.
Proof.
  destruct t as [[a b] c], de as [d e]. cbn [fst snd]. intros Hme Ha Hb Hc.
  unfold beaver, beaver_at, own_triple, s_add, s_mulc. cbn [fst snd].
  rewrite own_addc, !own_zip, !own_map by (rewrite ?length_zip_with, ?length_map; lia || done).
  done.
Qed.
End Own.

(** ** Multiplication *)

Section Multiplication.
Context `{IO : IntegerIO} `{E : Env} `{V : !ValidEnv E} {A : Type}.
#[local] Existing Instance pf_value.
#[local] Abbreviation getStrVal := PrimeField.getStrVal.
#[local] Abbreviation of_string := PrimeField.of_string.

Lemma pf_wire v : sv_wire v = of_string (getStrVal v).
Proof. done. Qed.

Lemma masked_operands x y v u : SharePF.Shares x v → SharePF.Shares y u →
  Forall2 SharePF.Shares [s_sub x (s_lit 1); s_sub y (s_lit 1)] [v - Z.of_nat n_parties; u - Z.of_nat n_parties]%Z.
Proof.
  intros Hx Hy. apply Forall2_cons; split; [|apply Forall2_cons; split; [|constructor]];
    apply Shares_sub; auto using Shares_one_lit.
Qed.

(** The sharing that a multiplication of shares of [v] and [u] yields. *)
Definition product_sharing (v u : Z) : sharing :=
  beaver triple_pf ((v - Z.of_nat n_parties) mod PrimeField.p, (u - Z.of_nat n_parties) mod PrimeField.p)%Z.

Lemma s_mul_eq x y v u w : SharePF.Shares x v → SharePF.Shares y u →
  ∃ w', s_mul x y w = Ok (product_sharing v u, w') ∧ SharePF.Shares (product_sharing v u) (v * u) ∧ moved w 0 0 w'.
Proof.
  intros Hx Hy. destruct (s_mul_runs x y v u w Hx Hy) as (z & w' & He & Hz & Hw).
  enough (∃ w', s_mul x y w = Ok (product_sharing v u, w')) as (w1 & He1).
  { rewrite He in He1. injection He1 as -> ->. by exists w1. }
  clear z w' He Hz Hw. unfold s_mul. destruct (getTriple_runs 1 w) as (ts & w1 & Ht & -> & _).
  pose proof (masked_operands x y v u Hx Hy) as Hde.
  exists w1. unfold bind at 1. rewrite Ht. cbn [rbind replicate]. unfold triple_pf at 1, bind, open_recons_vec, lift.
  by rewrite (recons_vec_ok _ _ _ Hde).
Qed.

Lemma lockstep_mul tr k0 ids x y v u (next : nat → Z → prog A) results :
  SharePF.Shares x v → SharePF.Shares y u → good_ids [x; y] ids →
  let z := product_sharing v u in
  lockstep tr (λ me, next me (own me z)) results →
  lockstep (open_round getStrVal ids [s_sub x (s_lit 1); s_sub y (s_lit 1)] :: tr)
    (λ me, mul getStrVal of_string me k0 ids (own me x) (own me y) (next me)) results.
Proof.
  intros Hx Hy Hids z Hl. pose proof (Shares_length _ _ Hx) as Lx. pose proof (Shares_length _ _ Hy) as Ly.
  assert (∀ c, length (s_lit c) = n_parties) as Llit by (intros c; apply length_replicate).
  set (xs := [s_sub x (s_lit 1); s_sub y (s_lit 1)]).
  pose proof (masked_operands x y v u Hx Hy : Forall2 SharePF.Shares xs _) as Hde.
  eapply lockstep_ext; [|eapply (lockstep_open getStrVal of_string pf_wire tr ids xs _
    (λ me de_rec, match de_rec with
      | [d; e] => next me (beaver_at me (1, 1, Z.of_nat n_parties) (d, e))%Z
      | _ => Fail (Undefined "vector index") end)); [done|intros me _; by apply recons_vec_ok|]].
  - intros me Hme. unfold mul.
    rewrite (TripleFacts.convert_pf_ok n_parties (bts k0 me)) by (apply n_canonical).
    unfold xs, column. cbn [map]. fold (own me (s_sub x (s_lit 1))) (own me (s_sub y (s_lit 1))).
    unfold s_sub. by rewrite !own_zip, !own_lit.
  - cbn [map]. eapply lockstep_ext; [|exact Hl]. intros me Hme. cbv beta iota zeta. f_equal. unfold z, product_sharing.
    rewrite own_beaver by (done || apply length_replicate). unfold own_triple, triple_pf. cbn [fst snd]. by rewrite !own_lit.
Qed.
End Multiplication.

Section Products.
Context `{IO : IntegerIO} `{E : Env} `{V : !ValidEnv E}.
#[local] Existing Instance pf_value.
#[local] Abbreviation getStrVal := PrimeField.getStrVal.
#[local] Abbreviation of_string := PrimeField.of_string.

Lemma distinct_good_ids (x : sharing) ys idss :
  length idss = length ys →
  Forall (λ ids, length ids = 2 ∧ Forall (λ a, thread_id a = 0%Z) ids) idss →
  NoDup (concat idss) → Forall2 (λ ids y, good_ids [x; y] ids) idss ys.
Proof.
  intros Hl Hf. revert ys Hl. induction Hf as [|ids idss [H2 Ht] _ IH]; intros [|y ys] Hl Hnd; try done.
  cbn [concat] in Hnd. apply NoDup_app in Hnd as (H1 & _ & Hnd). constructor; [done|].
  apply IH; [by injection Hl|done].
Qed.

(** A list of multiplications, each opening under ids of its own. *)
Lemma lockstep_product x ys v us k idss w :
  SharePF.Shares x v → Forall2 SharePF.Shares ys us →
  Forall2 (λ ids y, good_ids [x; y] ids) idss ys →
  ∃ z w' tr, mfold s_mul ys x w = Ok (z, w') ∧ SharePF.Shares z (fold_left Z.mul us v)
    ∧ under tr idss
    ∧ lockstep tr (λ me, product getStrVal of_string me k idss (own me x) (map (own me) ys) Ret) (λ me, own me z).
Proof.
  intros Hx Hys. revert x v k idss w Hx. induction Hys as [|y u ys us Hy Hys IH]; intros x v k idss w Hx Hids.
  - inversion Hids; subst. exists x, w, []. split_and!; [done|done|constructor|done].
  - apply Forall2_cons_inv_r in Hids as (ids & idss' & Hid & Hids & ->).
    destruct (s_mul_eq x y v u w Hx Hy) as (w1 & Hm & Hz & _). set (z := product_sharing v u) in *.
    destruct (IH z (v * u)%Z (S k) idss' w1 Hz) as (z' & w' & tr & Hf & Hz' & Ho & Hl); [exact Hids|].
    exists z', w', (open_round getStrVal ids [s_sub x (s_lit 1); s_sub y (s_lit 1)] :: tr). split_and!.
    + cbn [mfold]. unfold bind. by rewrite Hm.
    + done.
    + constructor; [|done]. intros pt me a q. by apply sends_ids.
    + apply (lockstep_mul tr k ids x y v u (λ me z, product getStrVal of_string me (S k) idss' z (map (own me) ys) Ret));
        [done..|]. exact Hl.
Qed.
End Products.

(** ** What a party reads in the messages of a multiplication *)

Section Leak.
#[local] Open Scope Z_scope.
#[local] Open Scope qmpc_scope.
Context `{IO : IntegerIO} `{E : Env} `{V : !ValidEnv E}.
#[local] Existing Instance pf_value.
#[local] Abbreviation getStrVal := PrimeField.getStrVal.
#[local] Abbreviation of_string := PrimeField.of_string.

(** The strings that a program sends to [me] before it waits for anything. *)
Definition sent_to {A} (me : nat) (p : prog A) : list string :=
  match p with
  | Round out _ _ => concat (map (λ '(j, ms), if (j =? me)%nat then map snd (entries ms) else []) out)
  | _ => []
  end.

Lemma concat_only {B} (me : nat) (k : list B) l :
  NoDup l → me ∈ l → concat (map (λ j, if (j =? me)%nat then k else []) l) = k.
Proof.
  intros Hnd. assert (∀ l, me ∉ l → concat (map (λ j, if (j =? me)%nat then k else []) l) = []) as Hout.
  { clear. induction l as [|i l IH]; [done|]. intros [Hne Hi]%not_elem_of_cons. cbn [map concat].
    rewrite (proj2 (Nat.eqb_neq i me)) by done. by apply IH. }
  induction Hnd as [|i l Hi Hnd IH]; [by intros []%elem_of_nil|]. cbn [map concat].
  destruct (Nat.eqb_spec i me) as [->|Hne].
  - intros _. by rewrite Hout, app_nil_r.
  - intros [->|Hme]%elem_of_cons; [done|]. by apply IH.
Qed.

Lemma sent_by_open {A} me q ids (vals : list Z) (next : list Z → prog A) :
  me ∈ parties → me ≠ q → length ids = length vals →
  sent_to me (open_recons getStrVal of_string q ids vals next) = map getStrVal vals.
Proof.
  intros Hme Hne Hl. cbn [sent_to open_recons]. rewrite map_map.
  rewrite (concat_only me (map snd (entries (makeShares (map getStrVal vals) ids (Z.of_nat q))))).
  - unfold makeShares. rewrite makeShares_loop_entries. cbn [entries app map concat].
    clear -Hl. revert ids Hl. induction vals as [|v vals IH]; intros [|a ids] Hl; try done.
    cbn [map zip zip_with snd]. f_equal. apply IH. by injection Hl.
  - apply NoDup_filter, NoDup_seq.
  - by apply list_elem_of_filter.
Qed.

(** A party's own value and those of the others make up the secret. *)
Lemma own_and_others me x v : SharePF.Shares x v → me ∈ parties →
  v ≅ own me x + Zsum (map (λ q, own q x) (filter (λ q, q ≠ me) parties)).
Proof.
  intros (Hl & _ & Hs) Hme. etrans; [symmetry; exact Hs|].
  assert (Zsum x = Zsum (map (λ q, own q x) parties)) as ->.
  { f_equal. unfold parties, own. rewrite <- Hl. clear. apply list_eq. intros i.
    rewrite list_lookup_fmap. destruct (x !! i) as [z|] eqn:Hz.
    - rewrite lookup_seq_lt by by eapply lookup_lt_Some. cbn [fmap option_fmap option_map].
      by rewrite Nat.add_comm, Nat.add_sub, (nth_lookup_Some _ _ _ _ Hz).
    - apply lookup_ge_None in Hz. by rewrite lookup_seq_ge. }
  enough (∀ l, NoDup l → me ∈ l → Zsum (map (λ q, own q x) l)
    = own me x + Zsum (map (λ q, own q x) (filter (λ q, q ≠ me) l))) as -> by (done || apply NoDup_seq).
  clear. intros l Hnd. induction Hnd as [|i l Hi Hnd IH]; [by intros []%elem_of_nil|].
  rewrite filter_cons. destruct (decide (i ≠ me)) as [Hne|Heq].
  - intros [->|Hme]%elem_of_cons; [done|]. cbn [map]. rewrite !Zsum_cons, IH by done. lia.
  - intros _. assert (i = me) as -> by (destruct (decide (i = me)); tauto). cbn [map]. rewrite Zsum_cons. f_equal.
    f_equal. f_equal. clear -Hi. induction l as [|j l IH]; [done|]. apply not_elem_of_cons in Hi as [Hj Hi].
    rewrite filter_cons, decide_True by done. f_equal. by apply IH.
Qed.

Import PrimeFieldFacts.

(** With the triple's constant added back to what the others send. *)
Definition unmasked (x : sharing) (q : nat) : Z := PrimeField.sub (own q x) 1 mod PrimeField.p.

Lemma unmasked_secret me x v : SharePF.Shares x v → me ∈ parties →
  v ≅ own me x + Zsum (map (λ q, unmasked x q + 1) (filter (λ q, q ≠ me) parties)).
Proof.
  intros Hx Hme. etrans; [exact (own_and_others me x v Hx Hme)|]. apply add_cong; [done|]. clear.
  induction (filter (λ q, q ≠ me) parties) as [|q l IH]; [done|]. cbn [map]. rewrite !Zsum_cons, <- IH.
  apply add_cong; [|done]. unfold unmasked. rewrite mod_cong, sub_cong_sub. by rewrite Z.sub_add.
Qed.

Lemma unmasked_wire x q : of_string (getStrVal (PrimeField.sub (own q x) 1)) = Ok (unmasked x q).
Proof. apply of_string_getStrVal, canonical_wf, sub_canonical. Qed.
End Leak.

(** A lockstep run whose rounds use ids of their own, in every interleaving. *)
Lemma run_under `{EI : Env} {A} tr idss (ps : nat → prog A) results boxes :
  lockstep tr ps results → under tr idss → NoDup (concat idss) → fresh (concat idss) boxes →
  ∀ s, rtc step (start ps boxes) s →
    (∀ me a, me ∈ parties → program (s me) = Ret a → a = results me)
    ∧ ∃ s', rtc step s s' ∧ ∀ me, me ∈ parties → program (s' me) = Ret (results me).
Proof.
  intros Hl Ho Hnd Hf s Hr. pose proof (under_apart tr idss Ho Hnd) as Ha.
  pose proof (under_unfiled tr idss boxes Ho Hf) as Hu.
  destruct (reached_inv tr ps results boxes Hl Ha Hu s Hr) as [round_of HI]. split.
  - intros me a Hme Hp. by eapply (inv_result tr ps results).
  - by eapply all_can_end.
Qed.

(** * Theorems *)

(** C4: protocols of many rounds may be read round by round.  When the programs of
    the parties run in lockstep along a trace that uses no address twice and
    finds nothing filed under its addresses, then in every interleaving of their
    sends and reads, with parties rounds ahead of each other and with sends that
    fail half way and are repeated, a party that ends has the result of the
    lockstep run, no party throws, and from every reachable state all parties can
    still end. *)
Theorem rounds_refine_lockstep `{EI : Env} {A : Type} (tr : list Rnd) (ps : nat → prog A) (results : nat → A)
    (boxes : nat → mailbox) (s : System A) :
  lockstep tr ps results → apart tr → unfiled tr boxes → rtc step (start ps boxes) s →
  (∀ i, i ∈ parties → (∀ a, program (s i) = Ret a → a = results i) ∧ (∀ e, program (s i) ≠ Fail e))
  ∧ ∃ s', rtc step s s' ∧ ∀ i, i ∈ parties → program (s' i) = Ret (results i).
Proof.
  intros Hl Ha Hu Hr. destruct (reached_inv tr ps results boxes Hl Ha Hu s Hr) as [round_of HI]. split.
  - intros i Hi. split; intros a Hp; [by eapply inv_result|by eapply inv_no_fail].
  - by eapply all_can_end.
Qed.

(** Multiplications of shared secrets over the network.  The parties run
    [operator*=] for a list of factors, one after the other, each opening its
    masked operands under ids of their own.  In every interleaving, each party
    that ends has its entry of the sharing that the joint definition [s_mul] of
    [Share.v] computes, a sharing of the product of the secrets; and all parties
    can always end. *)
Theorem products_over_the_network `{IO : IntegerIO} `{E : Env} `{V : !ValidEnv E} x ys v us k idss boxes w :
  SharePF.Shares x v → Forall2 SharePF.Shares ys us → length idss = length ys →
  Forall (λ ids, length ids = 2 ∧ Forall (λ a, thread_id a = 0%Z) ids) idss →
  NoDup (concat idss) → fresh (concat idss) boxes →
  let ps me := product (SVI := pf_value) PrimeField.getStrVal PrimeField.of_string me k idss
                 (own (SVI := pf_value) me x) (map (own (SVI := pf_value) me) ys) Ret in
  ∃ z w', mfold (s_mul (H := pf_value)) ys x w = Ok (z, w') ∧ SharePF.Shares z (fold_left Z.mul us v)
    ∧ ∀ s, rtc step (start ps boxes) s →
        (∀ me a, me ∈ parties → program (s me) = Ret a → a = own (SVI := pf_value) me z)
        ∧ ∃ s', rtc step s s' ∧ ∀ me, me ∈ parties → program (s' me) = Ret (own (SVI := pf_value) me z).
Proof.
  intros Hx Hys Hlen Hids Hnd Hf ps.
  destruct (lockstep_product x ys v us k idss w Hx Hys) as (z & w' & tr & Hm & Hz & Ho & Hl).
  { by apply distinct_good_ids. }
  exists z, w'. split_and!; [done|done|]. by apply (run_under tr idss).
Qed.

(** C38: a multiplication of field elements gives both secrets away.  Every triple
    is the constant (1, 1, n_parties), so what each party sends to each other one
    in [operator*=] are its values of the two operands less one, unmasked; from
    the strings it is sent in that one round and its own values, every party
    computes both operands. *)
Theorem mul_opening_reveals `{IO : IntegerIO} `{E : Env} `{V : !ValidEnv E} {A} k ids (next : nat → Z → prog A) x y v u me :
  SharePF.Shares x v → SharePF.Shares y u → length ids = 2 → me ∈ parties →
  let ps q := mul (SVI := pf_value) PrimeField.getStrVal PrimeField.of_string q k ids
                (own (SVI := pf_value) q x) (own (SVI := pf_value) q y) (next q) in
  let others := filter (λ q, q ≠ me) parties in
  ∃ d e : nat → Z,
    (∀ q, q ∈ others → traverse PrimeField.of_string (sent_to me (ps q)) = Ok [d q; e q])
    ∧ (v mod PrimeField.p = (own (SVI := pf_value) me x + Zsum (map (λ q, d q + 1) others)) mod PrimeField.p)%Z
    ∧ (u mod PrimeField.p = (own (SVI := pf_value) me y + Zsum (map (λ q, e q + 1) others)) mod PrimeField.p)%Z.
Proof.
  intros Hx Hy Hids Hme ps others.
  exists (unmasked x), (unmasked y). split_and!; [|by apply unmasked_secret|by apply unmasked_secret].
  intros q [Hne Hq]%list_elem_of_filter. unfold ps, mul.
  rewrite (TripleFacts.convert_pf_ok n_parties (bts k q)) by apply n_canonical.
  rewrite sent_by_open by (done || congruence). cbn [map traverse]. unfold sv_sub. cbn [pf_value].
  by rewrite !unmasked_wire.
Qed.

Lemma rounds_refine_lockstep_witness :
  let ps me := open_recons (EI := demo_env) (SVI := @pf_value decimal_io) (@PrimeField.getStrVal decimal_io)
                 (@PrimeField.of_string decimal_io) me [mkAddress 41 1 0] [nth me [0; 5; 6; 7] 0]%Z Ret in
  ∃ s', rtc (step (EI := demo_env)) (start ps (λ _, ∅)) s'
    ∧ ∀ i, i ∈ @parties demo_env → program (s' i) = Ret [18%Z].
Proof.
  assert (good_ids [[5; 6; 7]]%Z [mkAddress 41 1 0]) as Hids
    by (split_and!; [by apply NoDup_singleton|by repeat constructor|done]).
  refine (proj2 (@rounds_refine_lockstep demo_env (list Z)
    [@open_round (@pf_value decimal_io) demo_env (@PrimeField.getStrVal decimal_io) [mkAddress 41 1 0] [[5; 6; 7]]%Z]
    _ (λ _, [18%Z]) (λ _, ∅) _ _ _ _ (rtc_refl _ _))).
  - eapply lockstep_ext; [|apply (lockstep_open (EI := demo_env) (SVI := @pf_value decimal_io)
      (@PrimeField.getStrVal decimal_io) (@PrimeField.of_string decimal_io) ltac:(reflexivity) [] _ [[5; 6; 7]]%Z [18%Z]
      (λ _, Ret)); [exact Hids| |]].
    + intros i Hi. apply elem_of_seq in Hi. cbn in Hi.
      do 4 (destruct i as [|i]; [try lia; reflexivity|]). lia.
    + intros i Hi. apply elem_of_seq in Hi. cbn in Hi.
      do 4 (destruct i as [|i]; [try lia; by vm_compute|]). lia.
    + done.
  - apply (under_apart _ [[mkAddress 41 1 0]]); [|by apply NoDup_singleton].
    constructor; [|constructor]. intros pt me a v. by apply (sends_ids (SVI := @pf_value decimal_io) (EI := demo_env)).
  - apply (under_unfiled _ [[mkAddress 41 1 0]]).
    + constructor; [|constructor]. intros pt me a v. by apply (sends_ids (SVI := @pf_value decimal_io) (EI := demo_env)).
    + intros me pt a _. apply lookup_empty.
Defined.

Lemma products_over_the_network_witness :
  let idss := [[mkAddress 41 1 0; mkAddress 42 1 0]; [mkAddress 46 1 0; mkAddress 47 1 0]] in
  let ps me := product (EI := demo_env) (SVI := @pf_value decimal_io) (@PrimeField.getStrVal decimal_io)
                 (@PrimeField.of_string decimal_io) me 0 idss (own (SVI := @pf_value decimal_io) me [5; 6; 7]%Z)
                 (map (own (SVI := @pf_value decimal_io) me) [[1; 2; 0]; [4; 0; 0]]%Z) Ret in
  ∃ z, recons_at (H := @pf_value decimal_io) (H0 := demo_env) 1 z = Ok 216%Z
    ∧ ∃ s', rtc (step (EI := demo_env)) (start ps (λ _, ∅)) s'
        ∧ ∀ me, me ∈ @parties demo_env → program (s' me) = Ret (own (SVI := @pf_value decimal_io) me z).
Proof.
  destruct (@products_over_the_network decimal_io demo_env _ [5; 6; 7]%Z [[1; 2; 0]; [4; 0; 0]]%Z 18 [3; 4]%Z 0
    [[mkAddress 41 1 0; mkAddress 42 1 0]; [mkAddress 46 1 0; mkAddress 47 1 0]] (λ _, ∅) world0)
    as (z & w' & _ & Hz & Hs).
  - shares_lit.
  - apply Forall2_cons; split; [shares_lit|apply Forall2_cons; split; [shares_lit|constructor]].
  - done.
  - by repeat constructor.
  - by apply (bool_decide_unpack _).
  - intros me pt a _. apply lookup_empty.
  - exists z. split; [by apply (recons_ok 1 z 216)|]. exact (proj2 (Hs _ (rtc_refl _ _))).
Defined.

Lemma mul_opening_reveals_witness :
  let ps q := @mul (@pf_value decimal_io) demo_env (@PrimeField.getStrVal decimal_io) (@PrimeField.of_string decimal_io) _
                q 0 [mkAddress 41 1 0; mkAddress 42 1 0] (own (SVI := @pf_value decimal_io) q [5; 6; 7]%Z)
                (own (SVI := @pf_value decimal_io) q [1; 2; 0]%Z) Ret in
  ∃ d e : nat → Z,
    (∀ q, q ∈ [2; 3] → traverse (@PrimeField.of_string decimal_io) (sent_to 1 (ps q)) = Ok [d q; e q])
    ∧ (18 mod PrimeField.p = (5 + Zsum (map (λ q, d q + 1) [2%nat; 3%nat])) mod PrimeField.p)%Z
    ∧ (3 mod PrimeField.p = (1 + Zsum (map (λ q, e q + 1) [2%nat; 3%nat])) mod PrimeField.p)%Z.
Proof.
  refine (@mul_opening_reveals decimal_io demo_env _ _ 0 [mkAddress 41 1 0; mkAddress 42 1 0] (λ _, Ret)
    [5; 6; 7]%Z [1; 2; 0]%Z 18 3 1 _ _ _ _).
  - shares_lit.
  - shares_lit.
  - done.
  - apply elem_of_seq. cbn. lia.
Defined.
