(* ===== verification/RoundsDivision.v ===== *)
(** * Division over the network  (Share/Share.hpp, Share/Networking.hpp)

    The programs of [sharize], [getInv] and [operator/=] in the form of
    [Rounds.v].  Their rounds are not symmetric: in [getInv] the others send
    their shares of the blinded value to the special party, which alone
    reconstructs and inverts it, and in [sharize] the special party alone sends.
    [quotients_over_the_network] says that what the parties compute in every
    interleaving is the joint [s_div] of [Share.v]. *)
From stdpp Require Import base list numbers sets strings gmap relations.
From Stdlib Require Import ZArith Lia.
From S2P Require Import Prelude Field FixedPoint Random TripleHandler Share SharePF Mailbox Rounds.
Import Address Message Server.

(** ** Programs *)

Section Programs.
Context `{SVI : ShareValue} `{EI : Env}.
Context (getStrVal : Z → string) (of_string : string → result Z).
Context {A : Type}.

(** [recons] of one share with the local value [own]. *)
Fixpoint recons1_loop (me : nat) (own : Z) (pts : list nat) (vals : list string) (ret : Z) : result Z :=
  match pts with
  | [] => Ok ret
  | pt :: pts =>
      if (pt =? me)%nat then recons1_loop me own pts vals (sv_add ret own)
      else match vals with
           | v :: vals => rbind (of_string v) (λ received_value,
               recons1_loop me own pts vals (sv_add ret received_value))
           | [] => Throw (Undefined "getShare")
           end
  end.
Definition recons1 (me : nat) (own : Z) (vals : list string) : result Z :=
  recons1_loop me own parties vals sv_zero.

(** [send] of one value under one id. *)
Definition send (me : nat) (v : Z) (id : AddressId) (pt : nat) : nat * list Shares :=
  (pt, [makeShare (getStrVal v) id (Z.of_nat me)]).

(** [open] and [recons] of one share. *)
Definition open_recons1 (me : nat) (id : AddressId) (own : Z) (next : Z → prog A) : prog A :=
  Round (map (λ pt, send me own id pt) (filter (λ pt, pt ≠ me) parties))
    (map (λ pt, (pt, id)) (filter (λ pt, pt ≠ me) parties))
    (λ vals, match recons1 me own vals with Ok v => next v | Throw e => Fail e end).

(** [sharize] at one party: [pos] is the position of its random numbers. *)
Definition sharize (me pos : nat) (id : AddressId) (secret : Z) (next : Z → prog A) : prog A :=
  if (me =? sp_id)%nat then
    match traverse (λ i, sv_rand (entropy me (pos + i)) 1 1000) (seq 0 (length others)) with
    | Throw e => Fail e
    | Ok rs =>
        Round (zip_with (λ pt r, send me r id pt) others rs) []
          (λ _, next (sv_sub secret (fold_left sv_add rs sv_zero)))
    end
  else
    Round [] [(sp_id, id)] (λ vals,
      match vals with
      | [v] => match of_string v with Ok s => next s | Throw e => Fail e end
      | _ => Fail (Undefined "getShare")
      end).

(** The ids of the shares that [getInv] communicates. *)
Record InvIds := mkInvIds {
  ids_blind : list AddressId;      (** of [s * r] *)
  id_u : AddressId;                (** of [u] *)
  id_s : AddressId;                (** of the [s] in [sharize] *)
  ids_unblind : list AddressId     (** of [s_inv * r] *)
}.

(** [getInv] at one party; [k] is the position of its triples. *)
Definition getInv (me k pos : nat) (ids : InvIds) (s : Z) (next : Z → prog A) : prog A :=
  match sv_rand (entropy me pos) 1 1000 with
  | Throw e => Fail e
  | Ok r =>
      mul getStrVal of_string me k (ids_blind ids) s r (λ u,
        let unblind s_inv := mul getStrVal of_string me (S k) (ids_unblind ids) s_inv r next in
        if (me =? sp_id)%nat then
          Round [] (map (λ pt, (pt, id_u ids)) others) (λ vals,
            match rbind (recons1 me u vals) sv_inv with
            | Throw e => Fail e
            | Ok inv => sharize me (S pos) (id_s ids) inv unblind
            end)
        else
          Round [send me u (id_u ids) sp_id] [] (λ _,
            sharize me (S pos) (id_s ids) sv_zero unblind))
  end.

(** [operator/=(const Share &)]. *)
Definition div (me k pos : nat) (ids : InvIds) (ids_mul : list AddressId) (x y : Z) (next : Z → prog A) : prog A :=
  getInv me k pos ids y (λ i, mul getStrVal of_string me (S (S k)) ids_mul x i next).

Definition inv_idss (ids : InvIds) : list (list AddressId) :=
  [ids_blind ids; [id_u ids]; [id_s ids]; ids_unblind ids].
End Programs.

(** * Lemmas *)

(** ** The rounds *)

Section RoundFacts.
Context `{SVI : ShareValue} `{EI : Env}.
Context (getStrVal : Z → string) (of_string : string → result Z).
Hypothesis sp_party : sp_id ∈ parties.

Lemma elem_of_others' pt : pt ∈ others ↔ pt ≠ sp_id ∧ pt ∈ parties.
Proof. unfold others. by rewrite list_elem_of_filter. Qed.

Lemma others_NoDup : NoDup others.
Proof. apply NoDup_filter, parties_NoDup. Qed.

(** All others send their value of [u] to the special party. *)
Definition gather_round (id : AddressId) (u : nat → Z) : Rnd := mkRnd
  (λ i, if (i =? sp_id)%nat then [] else [send getStrVal i (u i) id sp_id])
  (λ i, if (i =? sp_id)%nat then map (λ pt, (pt, id)) others else [])
  (λ i, if (i =? sp_id)%nat then map (λ pt, getStrVal (u pt)) others else []).

(** The special party sends every other party its value. *)
Definition scatter_round (id : AddressId) (val : nat → Z) : Rnd := mkRnd
  (λ i, if (i =? sp_id)%nat then map (λ pt, send getStrVal i (val pt) id pt) others else [])
  (λ i, if (i =? sp_id)%nat then [] else [(sp_id, id)])
  (λ i, if (i =? sp_id)%nat then [] else [getStrVal (val i)]).

Lemma send_entries i v id pt : thread_id id = 0%Z → entries (send getStrVal i v id pt).2 = [(id, getStrVal v)].
Proof. intros Hid. unfold send, entries. cbn. by rewrite set_address_id. Qed.

Lemma gather_sends id u pt me a v : thread_id id = 0%Z →
  sends (gather_round id u) pt me a v ↔ pt ≠ sp_id ∧ me = sp_id ∧ a = id ∧ v = getStrVal (u pt).
Proof.
  intros Hid. unfold sends, gather_round. cbn [r_out]. split.
  - intros (ms & Hin & He). destruct (Nat.eqb_spec pt sp_id); [by apply not_elem_of_nil in Hin|].
    apply list_elem_of_singleton in Hin. injection Hin as -> ->.
    change [makeShare (getStrVal (u pt)) id (Z.of_nat pt)] with (send getStrVal pt (u pt) id sp_id).2 in He.
    rewrite send_entries in He by done. apply list_elem_of_singleton in He. by injection He as -> ->.
  - intros (Hne & -> & -> & ->). exists (send getStrVal pt (u pt) id sp_id).2.
    rewrite (proj2 (Nat.eqb_neq _ _) Hne). split; [by apply list_elem_of_singleton|].
    rewrite send_entries by done. by apply list_elem_of_singleton.
Qed.

Lemma scatter_sends id val pt me a v : thread_id id = 0%Z →
  sends (scatter_round id val) pt me a v ↔ pt = sp_id ∧ me ∈ others ∧ a = id ∧ v = getStrVal (val me).
Proof.
  intros Hid. unfold sends, scatter_round. cbn [r_out]. split.
  - intros (ms & Hin & He). destruct (Nat.eqb_spec pt sp_id); [|by apply not_elem_of_nil in Hin].
    apply list_elem_of_fmap in Hin as (q & Hq & Hin). injection Hq as -> ->.
    change [makeShare (getStrVal (val q)) id (Z.of_nat pt)] with (send getStrVal pt (val q) id q).2 in He.
    rewrite send_entries in He by done. apply list_elem_of_singleton in He. by injection He as -> ->.
  - intros (-> & Hme & -> & ->). exists (send getStrVal sp_id (val me) id me).2.
    rewrite Nat.eqb_refl. split; [by apply (list_elem_of_fmap_2 (λ pt, send getStrVal sp_id (val pt) id pt))|].
    rewrite send_entries by done. by apply list_elem_of_singleton.
Qed.

Lemma send_from i v id pt j ms : thread_id id = 0%Z → (j, ms) = send getStrVal i v id pt →
  Forall (λ m, party_id m = Z.of_nat i) ms ∧ NoDup (entries ms).*1.
Proof.
  intros Hid He. assert (ms = (send getStrVal i v id pt).2) as -> by (by rewrite <- He).
  split; [by repeat constructor|]. rewrite send_entries by done. apply NoDup_singleton.
Qed.

Lemma send_parties i (v : nat → Z) id l : (map (λ pt, send getStrVal i (v pt) id pt) l).*1 = l.
Proof. induction l as [|pt l IH]; [done|]. cbn. by f_equal. Qed.

Lemma gather_round_ok id u : thread_id id = 0%Z → round_ok (gather_round id u).
Proof.
  intros Hid. split.
  - intros i _. cbn. destruct (i =? sp_id)%nat; [constructor|apply NoDup_singleton].
  - intros i j ms _. cbn. destruct (i =? sp_id)%nat; [by intros ?%not_elem_of_nil|].
    intros Hin%list_elem_of_singleton. by eapply send_from.
  - intros i _. cbn. destruct (i =? sp_id)%nat; [|constructor].
    apply NoDup_fmap; [by intros ?? [= ->]|apply others_NoDup].
  - intros i Hi. cbn [gather_round r_in r_vals]. destruct (Nat.eqb_spec i sp_id) as [->|]; [|constructor].
    apply Forall2_fmap, Forall_Forall2_diag, Forall_forall. intros pt [Hne Hpt]%elem_of_others'.
    split; [done|]. by apply gather_sends.
Qed.

Lemma scatter_round_ok id val : thread_id id = 0%Z → round_ok (scatter_round id val).
Proof.
  intros Hid. split.
  - intros i _. cbn. destruct (i =? sp_id)%nat; [|constructor].
    rewrite (send_parties i val). apply others_NoDup.
  - intros i j ms _. cbn. destruct (i =? sp_id)%nat; [|by intros ?%not_elem_of_nil].
    intros (q & Hq & _)%list_elem_of_fmap. by eapply send_from.
  - intros i _. cbn. destruct (i =? sp_id)%nat; [constructor|apply NoDup_singleton].
  - intros i Hi. cbn [scatter_round r_in r_vals]. destruct (Nat.eqb_spec i sp_id) as [->|]; [constructor|].
    constructor; [|constructor]. split; [done|]. apply scatter_sends; [done|].
    split_and!; [done|by apply elem_of_others'|done..].
Qed.

(** Every party sends its value of [u] to every other. *)
Definition all_round (id : AddressId) (u : nat → Z) : Rnd := mkRnd
  (λ i, map (λ pt, send getStrVal i (u i) id pt) (filter (λ pt, pt ≠ i) parties))
  (λ i, map (λ pt, (pt, id)) (filter (λ pt, pt ≠ i) parties))
  (λ i, map (λ pt, getStrVal (u pt)) (filter (λ pt, pt ≠ i) parties)).

Lemma all_sends id u pt me a v : thread_id id = 0%Z →
  sends (all_round id u) pt me a v ↔ me ≠ pt ∧ me ∈ parties ∧ a = id ∧ v = getStrVal (u pt).
Proof.
  intros Hid. unfold sends, all_round. cbn [r_out]. split.
  - intros (ms & Hin & He). apply list_elem_of_fmap in Hin as (q & Hq & Hin). injection Hq as -> ->.
    apply elem_of_others in Hin as [Hne Hq].
    change [makeShare (getStrVal (u pt)) id (Z.of_nat pt)] with (send getStrVal pt (u pt) id q).2 in He.
    rewrite send_entries in He by done. apply list_elem_of_singleton in He. by injection He as -> ->.
  - intros (Hne & Hme & -> & ->). exists (send getStrVal pt (u pt) id me).2. split.
    + apply (list_elem_of_fmap_2 (λ q, send getStrVal pt (u pt) id q)). by apply elem_of_others.
    + rewrite send_entries by done. by apply list_elem_of_singleton.
Qed.

Lemma all_round_ok id u : thread_id id = 0%Z → round_ok (all_round id u).
Proof.
  intros Hid. split.
  - intros i _. cbn [all_round r_out]. rewrite (send_parties i (λ _, u i)). apply NoDup_filter, parties_NoDup.
  - intros i j ms _. cbn. intros (q & Hq & _)%list_elem_of_fmap. by eapply send_from.
  - intros i _. cbn. apply NoDup_fmap; [by intros ?? [= ->]|]. apply NoDup_filter, parties_NoDup.
  - intros i Hi. cbn [all_round r_in r_vals].
    apply Forall2_fmap, Forall_Forall2_diag, Forall_forall. intros pt [Hne Hpt]%elem_of_others.
    split; [done|]. by apply all_sends.
Qed.

Lemma lockstep_open1 {A} tr id u c (next : nat → Z → prog A) results :
  thread_id id = 0%Z →
  (∀ me, me ∈ parties →
     recons1 of_string me (u me) (map (λ pt, getStrVal (u pt)) (filter (λ pt, pt ≠ me) parties)) = Ok c) →
  lockstep tr (λ me, next me c) results →
  lockstep (all_round id u :: tr) (λ me, open_recons1 getStrVal of_string me id (u me) (next me)) results.
Proof.
  intros Hid Hrec Hl. split; [by apply all_round_ok|].
  exists (λ me vals, match recons1 of_string me (u me) vals with Ok v => next me v | Throw e => Fail e end).
  split; [done|]. eapply lockstep_ext; [|exact Hl]. intros me Hme. cbn [all_round r_vals]. by rewrite Hrec.
Qed.

Lemma lockstep_gather {A} tr id u (f : nat → list string → prog A) (next : nat → prog A) results :
  thread_id id = 0%Z →
  lockstep tr (λ me, if (me =? sp_id)%nat then f me (map (λ pt, getStrVal (u pt)) others) else next me) results →
  lockstep (gather_round id u :: tr)
    (λ me, if (me =? sp_id)%nat then Round [] (map (λ pt, (pt, id)) others) (f me)
           else Round [send getStrVal me (u me) id sp_id] [] (λ _, next me)) results.
Proof.
  intros Hid Hl. split; [by apply gather_round_ok|].
  exists (λ me vals, if (me =? sp_id)%nat then f me vals else next me). split.
  - intros i _. cbn. by destruct (i =? sp_id)%nat.
  - eapply lockstep_ext; [|exact Hl]. intros i _. cbn. by destruct (i =? sp_id)%nat.
Qed.

Lemma lockstep_scatter {A} tr id val (f : nat → prog A) (g : nat → list string → prog A) results :
  thread_id id = 0%Z →
  lockstep tr (λ me, if (me =? sp_id)%nat then f me else g me [getStrVal (val me)]) results →
  lockstep (scatter_round id val :: tr)
    (λ me, if (me =? sp_id)%nat then Round (map (λ pt, send getStrVal me (val pt) id pt) others) [] (λ _, f me)
           else Round [] [(sp_id, id)] (g me)) results.
Proof.
  intros Hid Hl. split; [by apply scatter_round_ok|].
  exists (λ me vals, if (me =? sp_id)%nat then f me else g me vals). split.
  - intros i _. cbn. by destruct (i =? sp_id)%nat.
  - eapply lockstep_ext; [|exact Hl]. intros i _. cbn. by destruct (i =? sp_id)%nat.
Qed.
End RoundFacts.

Section Entries.
Context `{SVI : ShareValue} `{E : Env} `{V : !ValidEnv E}.

Lemma sp_party : sp_id ∈ parties.
Proof. pose proof sp_valid. apply elem_of_seq. lia. Qed.

Lemma filter_seq_ne k n : ¬ (k ≤ sp_id < k + n) → filter (λ i, i ≠ sp_id) (seq k n) = seq k n.
Proof.
  revert k. induction n as [|n IH]; intros k Hk; [done|]. cbn [seq].
  rewrite filter_cons_True by lia. f_equal. apply IH. lia.
Qed.

Lemma others_split : others = seq 1 (sp_id - 1) ++ seq (S sp_id) (n_parties - sp_id).
Proof.
  pose proof sp_valid. unfold others, parties.
  replace n_parties with (sp_id - 1 + S (n_parties - sp_id)) at 1 by lia.
  rewrite seq_app, filter_app. cbn [seq]. replace (1 + (sp_id - 1)) with sp_id by lia.
  rewrite filter_cons_False by (intros Hne; by apply Hne). by rewrite !filter_seq_ne by lia.
Qed.

Lemma own_block (pre l suf : list Z) :
  map (λ pt, own pt (pre ++ l ++ suf)) (seq (S (length pre)) (length l)) = l.
Proof.
  revert pre. induction l as [|a l IH]; intros pre; [done|]. cbn [length seq map]. f_equal.
  - apply own_eq. replace (S (length pre) - 1) with (length pre) by lia. by apply list_lookup_middle.
  - specialize (IH (pre ++ [a])). rewrite length_app in IH. cbn [length] in IH.
    replace (length pre + 1) with (S (length pre)) in IH by lia. by rewrite <- app_assoc in IH.
Qed.

(** What [sharize] gives the others is what it drew. *)
Lemma own_others (rs : list Z) d : length rs = n_parties - 1 →
  map (λ pt, own pt (take (sp_id - 1) rs ++ d :: drop (sp_id - 1) rs)) others = rs.
Proof.
  intros Hl. pose proof sp_valid. rewrite others_split, map_app.
  transitivity (take (sp_id - 1) rs ++ drop (sp_id - 1) rs); [f_equal|apply take_drop].
  - pose proof (own_block [] (take (sp_id - 1) rs) (d :: drop (sp_id - 1) rs)) as Hb.
    rewrite length_take in Hb. by replace (min (sp_id - 1) (length rs)) with (sp_id - 1) in Hb by lia.
  - pose proof (own_block (take (sp_id - 1) rs ++ [d]) (drop (sp_id - 1) rs) []) as Hb.
    rewrite app_nil_r, <- app_assoc, length_app, length_take, length_drop in Hb. cbn [length app] in Hb.
    replace (S (min (sp_id - 1) (length rs) + 1)) with (S sp_id) in Hb by lia.
    by replace (length rs - (sp_id - 1)) with (n_parties - sp_id) in Hb by lia.
Qed.

Lemma own_sp (rs : list Z) d : length rs = n_parties - 1 →
  own sp_id (take (sp_id - 1) rs ++ d :: drop (sp_id - 1) rs) = d.
Proof.
  intros Hl. pose proof sp_valid. apply own_eq. apply list_lookup_middle. rewrite length_take. lia.
Qed.
End Entries.

Section Recons1.
Context `{SVI : ShareValue} `{EI : Env}.
Context (getStrVal : Z → string) (of_string : string → result Z).
Hypothesis wire_law : ∀ v, sv_wire v = of_string (getStrVal v).

(** [recons] of one share from what the others sent. *)
Lemma recons1_loop_fold me (f : nat → Z) k l acc :
  (∀ i a, l !! i = Some a → a = f (k + i)) →
  recons1_loop of_string me (f me) (seq k (length l))
    (map (λ pt, getStrVal (f pt)) (filter (λ i, i ≠ me) (seq k (length l)))) acc
  = fold_left (λ acc '(pt, v),
      rbind acc (λ a, if (pt =? me)%nat then Ok (sv_add a v)
                      else rbind (sv_wire v) (λ u, Ok (sv_add a u))))
    (zip (seq k (length l)) l) (Ok acc).
Proof.
  revert k acc. induction l as [|a l IH]; intros k acc Hf; [done|]. cbn [length seq recons1_loop zip zip_with fold_left rbind].
  assert (a = f k) as -> by (rewrite <- (Nat.add_0_r k); by apply Hf).
  assert (∀ i b, l !! i = Some b → b = f (S k + i)) as Hf'.
  { intros i b Hi. replace (S k + i) with (k + S i) by lia. by apply Hf. }
  destruct (Nat.eqb_spec k me) as [->|Hne].
  - rewrite filter_cons_False by auto. by apply IH.
  - rewrite filter_cons_True by done. cbn [map]. rewrite wire_law.
    destruct (of_string _) as [u|e]; cbn [rbind]; [by apply IH|].
    clear. induction (zip _ _) as [|[pt v] r IH]; [done|]. exact IH.
Qed.

Lemma recons1_at me (u : sharing) : length u = n_parties →
  recons1 of_string me (own me u) (map (λ pt, getStrVal (own pt u)) (filter (λ pt, pt ≠ me) parties)) = recons_at me u.
Proof.
  intros Hu. unfold recons1, recons_at, parties. rewrite <- Hu.
  apply (recons1_loop_fold me (λ pt, own pt u)). intros i a Hi. symmetry. apply own_eq. by rewrite Nat.add_1_l, Nat.sub_1_r.
Qed.
End Recons1.

(** ** The joint definitions, with the values drawn *)

Section Joint.
Context `{IO : IntegerIO} `{E : Env} `{V : !ValidEnv E}.
#[local] Existing Instance pf_value.
#[local] Abbreviation getStrVal := PrimeField.getStrVal.
#[local] Abbreviation of_string := PrimeField.of_string.
#[local] Abbreviation Shares := SharePF.Shares.

(** A number from [1, 1000) at a position of a party. *)
Definition drawn (i pos : nat) : Z := (entropy i pos mod (1000 - 1) + 1)%Z.

Lemma draw_ok i pos : sv_rand (entropy i pos) 1 1000 = Ok (drawn i pos).
Proof. exact (proj1 (RandomFacts.getRand_pf_ok (entropy i pos) 1 1000 ltac:(lia) ltac:(lia))). Qed.

Lemma drawn_canonical i pos : PrimeField.canonical (drawn i pos).
Proof.
  unfold drawn, PrimeField.canonical, PrimeField.p.
  pose proof (Z.mod_pos_bound (entropy i pos) (1000 - 1) ltac:(lia)). lia.
Qed.

Lemma draws_eq {B} (l : list B) w : ∃ w',
  mmap (λ _, getRand_sp 1 1000) l w = Ok (map (λ i, drawn sp_id (draw_pos w sp_id + i)) (seq 0 (length l)), w').
Proof.
  revert w. induction l as [|x l IH]; intros w; cbn [mmap]; [by exists w|].
  unfold bind, getRand_sp at 1. rewrite draw_ok. cbn [rbind].
  set (w1 := mkWorld (all_draws w) (S (sp_draws w)) (Share.triples w)). destruct (IH w1) as (w' & ->). exists w'.
  unfold ret. cbn [rbind length seq map]. rewrite Nat.add_0_r. do 3 f_equal. rewrite <- seq_shift, map_map.
  apply map_ext. intros i. f_equal. unfold w1, draw_pos. cbn [all_draws sp_draws]. rewrite Nat.eqb_refl. lia.
Qed.

Definition shared_parts (pos : nat) (secret : Z) : list Z :=
  let rs := map (λ i, drawn sp_id (pos + i)) (seq 0 (length others)) in
  take (sp_id - 1) rs ++ sv_sub secret (fold_left sv_add rs sv_zero) :: drop (sp_id - 1) rs.

Lemma sharize_eq secret w : ∃ w', Share.sharize secret w = Ok (shared_parts (draw_pos w sp_id) secret, w').
Proof.
  destruct (draws_eq others w) as (w' & He). exists w'. unfold Share.sharize, bind at 1. rewrite He. cbn [rbind].
  unfold bind, lift. rewrite (traverse_map _ (λ x, x)), map_id; [done|].
  intros x (i & -> & _)%list_elem_of_fmap. apply wire_canonical, drawn_canonical.
Qed.
End Joint.

(** ** The programs in lockstep *)

Section Lockstep.
Context `{IO : IntegerIO} `{E : Env} `{V : !ValidEnv E} {A : Type}.
#[local] Existing Instance pf_value.
#[local] Abbreviation getStrVal := PrimeField.getStrVal.
#[local] Abbreviation of_string := PrimeField.of_string.
#[local] Abbreviation Shares := SharePF.Shares.

Lemma drawn_length (pos : nat) : length (map (λ i, drawn sp_id (pos + i)) (seq 0 (length others))) = n_parties - 1.
Proof. by rewrite length_map, length_seq, others_length. Qed.

Lemma zip_with_map_r {X Y Z'} (f : X → Y → Z') (g : X → Y) l : zip_with f l (map g l) = map (λ x, f x (g x)) l.
Proof. induction l as [|x l IH]; [done|]. cbn. by f_equal. Qed.

Lemma lockstep_sharize tr id pos secret (next : nat → Z → prog A) results :
  thread_id id = 0%Z →
  let x := shared_parts (pos sp_id) (secret sp_id) in
  lockstep tr (λ me, next me (own me x)) results →
  lockstep (scatter_round getStrVal id (λ pt, own pt x) :: tr)
    (λ me, sharize getStrVal of_string me (pos me) id (secret me) (next me)) results.
Proof.
  intros Hid x Hl. pose proof (own_others _ (sv_sub (secret sp_id) _) (drawn_length (pos sp_id)) : map (λ pt, own pt x) others = _) as Ho.
  eapply lockstep_ext; [|apply (lockstep_scatter getStrVal sp_party tr id (λ pt, own pt x) (λ me, next me (own me x))
    (λ me vals, match vals with
      | [v] => match of_string v with Ok s => next me s | Throw e => Fail e end
      | _ => Fail (Undefined "getShare") end)); [done|]].
  - intros me Hme. unfold sharize. destruct (Nat.eqb_spec me sp_id) as [->|]; [|done].
    rewrite (traverse_map _ (λ i, drawn sp_id (pos sp_id + i))) by (intros; apply draw_ok).
    rewrite <- Ho, zip_with_map_r. f_equal. unfold x at 1, shared_parts. rewrite own_sp by apply drawn_length.
    by rewrite Ho.
  - eapply lockstep_ext; [|exact Hl]. intros me Hme. cbn beta iota. destruct (Nat.eqb_spec me sp_id) as [|Hne]; [done|].
    assert (of_string (getStrVal (own me x)) = Ok (own me x)) as ->; [|done].
    apply wire_canonical. assert (own me x ∈ map (λ pt, own pt x) others) as Hin.
    { apply (list_elem_of_fmap_2 (λ pt, own pt x)). by apply elem_of_others'. }
    rewrite Ho in Hin. apply list_elem_of_fmap in Hin as (i & -> & _). apply drawn_canonical.
Qed.

(** The ids of one inverse. *)
Definition inv_ids_ok (ids : InvIds) : Prop :=
  (∀ x y : sharing, good_ids [x; y] (ids_blind ids)) ∧ thread_id (id_u ids) = 0%Z ∧ thread_id (id_s ids) = 0%Z
  ∧ (∀ x y : sharing, good_ids [x; y] (ids_unblind ids)).

Lemma getRand_eq (w : World) : let r := map (λ i, drawn i (draw_pos w i)) parties in
  Share.getRand 1 1000 w = Ok (r, mkWorld (S (all_draws w)) (sp_draws w) (Share.triples w)) ∧ Shares r (Zsum r).
Proof.
  intros r. destruct (getRand_runs 1 1000 w ltac:(lia) ltac:(lia)) as (x & w' & He & Hx & Hs & _).
  change (x = r) in Hx. subst x. split; [|done].
  unfold Share.getRand. rewrite (traverse_map _ (λ i, drawn i (draw_pos w i))); [done|]. intros; apply draw_ok.
Qed.

Lemma own_drawn me w : me ∈ parties → own me (map (λ i, drawn i (draw_pos w i)) parties) = drawn me (draw_pos w me).
Proof.
  intros Hme. apply own_eq. change map with (@fmap list _). rewrite list_lookup_fmap.
  apply elem_of_seq in Hme. unfold parties. rewrite lookup_seq_lt by lia. cbn. f_equal. f_equal; [lia|]. f_equal. lia.
Qed.

Lemma moved_draw_pos w w' i : moved w 0 0 w' → draw_pos w' i = draw_pos w i.
Proof. unfold moved, draw_pos. intros [-> ->]. destruct (_ =? _); lia. Qed.

(** What the joint [s_getInv] computes on the way. *)
Lemma s_getInv_eq s v (w : World) : Shares s v →
  let r := map (λ i, drawn i (draw_pos w i)) parties in
  let u := product_sharing v (Zsum r) in
  ∃ inv w', rbind (recons_at sp_id u) sv_inv = Ok inv ∧ Shares r (Zsum r) ∧ Shares u (v * Zsum r)%Z
    ∧ let x := shared_parts (S (draw_pos w sp_id)) inv in
      Shares x inv ∧ Share.s_getInv s w = Ok (product_sharing inv (Zsum r), w')
      ∧ Shares (product_sharing inv (Zsum r)) (PrimeField.getInv v).
Proof.
  intros Hs r u. destruct (s_getInv_runs s v w Hs) as (y & w' & He & Hy & _).
  destruct (getRand_eq w) as [Hr Hrs]. fold r in Hr, Hrs. set (w1 := mkWorld _ _ _) in Hr.
  destruct (s_mul_eq s r v (Zsum r) w1 Hs Hrs) as (w2 & Hm & Hu & Hw2). fold u in Hm, Hu.
  pose proof (recons_ok sp_id u _ Hu) as Hc. set (c := ((v * Zsum r) mod PrimeField.p)%Z) in Hc.
  assert (sv_inv c = Ok (PrimeField.getInv c)) as Hi.
  { apply PrimeFieldFacts.getInv_checked_ok, PrimeFieldFacts.canonical_wf, PrimeFieldFacts.canonical_mod. }
  set (inv := PrimeField.getInv c) in *. destruct (sharize_eq inv w2) as (w3 & Hsh).
  destruct (sharize_runs inv w2) as (x & w3' & Hsh' & Hx & _). rewrite Hsh in Hsh'. injection Hsh' as <- <-.
  assert (draw_pos w2 sp_id = S (draw_pos w sp_id)) as Hpos by (rewrite (moved_draw_pos w1) by done; done).
  rewrite Hpos in Hsh, Hx. destruct (s_mul_eq _ r inv (Zsum r) w3 Hx Hrs) as (w4 & Hm2 & _ & _).
  assert (Share.s_getInv s w = Ok (product_sharing inv (Zsum r), w4)) as Hall.
  { unfold Share.s_getInv, bind, lift. rewrite Hr. cbn [rbind]. rewrite Hm. cbn [rbind]. rewrite Hc. cbn [rbind].
    rewrite Hi. cbn [rbind]. rewrite Hsh. cbn [rbind]. exact Hm2. }
  rewrite Hall in He. injection He as <- <-.
  exists inv, w4. split_and!; try done. by rewrite Hc.
Qed.

Lemma lockstep_getInv k ids s v w : Shares s v → inv_ids_ok ids →
  ∃ y w' tr0, Share.s_getInv s w = Ok (y, w') ∧ Shares y (PrimeField.getInv v) ∧ under tr0 (inv_idss ids)
    ∧ ∀ tr (next : nat → Z → prog A) results, lockstep tr (λ me, next me (own me y)) results →
        lockstep (tr0 ++ tr) (λ me, getInv getStrVal of_string me k (draw_pos w me) ids (own me s) (next me)) results.
Proof.
  intros Hs (Hid1 & Hidu & Hids & Hid2). destruct (s_getInv_eq s v w Hs) as (inv & w' & Hinv & Hr & Hu & Hx & He & Hy).
  set (r := map _ parties) in *. set (u := product_sharing v (Zsum r)) in *. set (x := shared_parts _ inv) in *.
  exists (product_sharing inv (Zsum r)), w',
    [open_round getStrVal (ids_blind ids) [s_sub s (s_lit 1); s_sub r (s_lit 1)];
     gather_round getStrVal (id_u ids) (λ pt, own pt u);
     scatter_round getStrVal (id_s ids) (λ pt, own pt x);
     open_round getStrVal (ids_unblind ids) [s_sub x (s_lit 1); s_sub r (s_lit 1)]].
  split_and!; [done|done| |].
  - unfold under, inv_idss. repeat (apply Forall2_cons_2); [| | | |constructor]; intros pt me a q.
    + by apply sends_ids.
    + intros (_ & _ & -> & _)%gather_sends; [by left|done].
    + intros (_ & _ & -> & _)%scatter_sends; [by left|done].
    + by apply sends_ids.
  - intros tr next results Hl. cbn [app].
    set (unblind me s_inv := mul getStrVal of_string me (S k) (ids_unblind ids) s_inv (own me r) (next me)).
    eapply lockstep_ext; [|apply (lockstep_mul _ k (ids_blind ids) s r v (Zsum r) (λ me u,
      if (me =? sp_id)%nat then
        Round [] (map (λ pt, (pt, id_u ids)) others) (λ vals,
          match rbind (recons1 of_string me u vals) sv_inv with
          | Throw e => Fail e
          | Ok inv => sharize getStrVal of_string me (S (draw_pos w me)) (id_s ids) inv (unblind me)
          end)
      else Round [send getStrVal me u (id_u ids) sp_id] [] (λ _,
          sharize getStrVal of_string me (S (draw_pos w me)) (id_s ids) sv_zero (unblind me)))); [done|done|done|]].
    { intros me Hme. unfold getInv. rewrite draw_ok. unfold unblind. by rewrite <- !(own_drawn me w). }
    apply (lockstep_gather getStrVal _ (id_u ids) (λ pt, own pt u) (λ me vals,
      match rbind (recons1 of_string me (own me u) vals) sv_inv with
      | Throw e => Fail e
      | Ok inv => sharize getStrVal of_string me (S (draw_pos w me)) (id_s ids) inv (unblind me)
      end)); [done|].
    pose proof (lockstep_sharize (open_round getStrVal (ids_unblind ids) [s_sub x (s_lit 1); s_sub r (s_lit 1)] :: tr)
      (id_s ids) (λ me, S (draw_pos w me)) (λ me, if (me =? sp_id)%nat then inv else sv_zero) unblind results) as Hsh.
    cbv beta zeta in Hsh. rewrite Nat.eqb_refl in Hsh. fold x in Hsh.
    eapply lockstep_ext; [|apply Hsh; [done|]].
    { intros me Hme. cbv beta. destruct (Nat.eqb_spec me sp_id) as [->|]; [|done].
      change others with (filter (λ pt, pt ≠ sp_id) parties). rewrite (recons1_at getStrVal of_string pf_wire) by by eapply Shares_length.
      by rewrite Hinv. }
    unfold unblind. by apply (lockstep_mul tr (S k) (ids_unblind ids) x r inv (Zsum r)).
Qed.

Lemma inv_ids_good ids ids_mul :
  length (ids_blind ids) = 2 → length (ids_unblind ids) = 2 → length ids_mul = 2 →
  NoDup (concat (inv_idss ids ++ [ids_mul])) → Forall (λ a, thread_id a = 0%Z) (concat (inv_idss ids ++ [ids_mul])) →
  inv_ids_ok ids ∧ ∀ x y : sharing, good_ids [x; y] ids_mul.
Proof.
  intros H1 H2 H3. unfold inv_idss. cbn [app concat]. rewrite app_nil_r. intros Hnd Ht.
  apply NoDup_app in Hnd as (Hn1 & _ & Hnd). do 2 apply NoDup_cons in Hnd as [_ Hnd].
  apply NoDup_app in Hnd as (Hn2 & _ & Hn3).
  apply Forall_app in Ht as [Ht1 Ht]. apply Forall_cons in Ht as [Htu Ht]. apply Forall_cons in Ht as [Hts Ht].
  apply Forall_app in Ht as [Ht2 Ht3]. done.
Qed.
End Lockstep.

(** * Theorems *)

(** C5: division of shared secrets over the network.  The parties run
    [operator/=]: they blind the divisor with random shares, send the blinded
    value to the special party, which inverts it and shares the inverse, unblind,
    and multiply, each with its own triples and random numbers.  In every
    interleaving, failed and repeated sends included, each party that ends has
    its entry of the sharing that the joint definition [s_div] of [Share.v]
    computes, a sharing of the quotient (of zero when the divisor is zero); and
    all parties can always end. *)
Theorem quotients_over_the_network `{IO : IntegerIO} `{E : Env} `{V : !ValidEnv E} x y v u k ids ids_mul boxes w :
  SharePF.Shares x v → SharePF.Shares y u →
  length (ids_blind ids) = 2 → length (ids_unblind ids) = 2 → length ids_mul = 2 →
  let all_ids := concat (inv_idss ids ++ [ids_mul]) in
  NoDup all_ids → Forall (λ a, thread_id a = 0%Z) all_ids → fresh all_ids boxes →
  let ps me := div (SVI := pf_value) PrimeField.getStrVal PrimeField.of_string me k (draw_pos w me) ids ids_mul
                 (own (SVI := pf_value) me x) (own (SVI := pf_value) me y) Ret in
  ∃ z w', s_div (H := pf_value) x y w = Ok (z, w') ∧ SharePF.Shares z (v * PrimeField.getInv u)
    ∧ ∀ s, rtc step (start ps boxes) s →
        (∀ me a, me ∈ parties → program (s me) = Ret a → a = own (SVI := pf_value) me z)
        ∧ ∃ s', rtc step s s' ∧ ∀ me, me ∈ parties → program (s' me) = Ret (own (SVI := pf_value) me z).
Proof.
  intros Hx Hy H1 H2 H3 all_ids Hnd Ht Hf ps.
  destruct (inv_ids_good ids ids_mul H1 H2 H3 Hnd Ht) as [Hinv Hmul].
  destruct (lockstep_getInv (A := Z) k ids y u w Hy Hinv) as (i & w1 & tr0 & Hi & Hiu & Hu & Hl).
  destruct (s_mul_eq x i v _ w1 Hx Hiu) as (w2 & Hm & Hz & _).
  exists (product_sharing v (PrimeField.getInv u)), w2. split_and!; [|done|].
  - unfold s_div, bind. by rewrite Hi.
  - set (rd := open_round (SVI := pf_value) PrimeField.getStrVal ids_mul [s_sub (H := pf_value) x (s_lit 1); s_sub (H := pf_value) i (s_lit 1)]).
    apply (run_under (tr0 ++ [rd]) (inv_idss ids ++ [ids_mul])); [| |done|done].
    + apply (Hl [rd] (λ me i, mul (SVI := pf_value) PrimeField.getStrVal PrimeField.of_string me (S (S k)) ids_mul (own (SVI := pf_value) me x) i Ret)).
      by apply (lockstep_mul [] (S (S k)) ids_mul x i v (PrimeField.getInv u) (λ me, Ret)).
    + apply Forall2_app; [done|]. constructor; [|constructor]. intros pt me a q. by apply sends_ids.
Qed.

Lemma quotients_over_the_network_witness :
  let ids := mkInvIds [mkAddress 41 1 0; mkAddress 42 1 0] (mkAddress 43 1 0) (mkAddress 44 1 0) [mkAddress 45 1 0; mkAddress 46 1 0] in
  let ps me := div (EI := demo_env) (SVI := @pf_value decimal_io) (@PrimeField.getStrVal decimal_io)
                 (@PrimeField.of_string decimal_io) me 0 (@draw_pos demo_env world0 me) ids [mkAddress 47 1 0; mkAddress 48 1 0]
                 (own (SVI := @pf_value decimal_io) me [30; 6; 0]%Z) (own (SVI := @pf_value decimal_io) me [5; 6; 7]%Z) Ret in
  ∃ z, recons_at (H := @pf_value decimal_io) (H0 := demo_env) 1 z = Ok 2%Z
    ∧ ∃ s', rtc (step (EI := demo_env)) (start ps (λ _, ∅)) s'
        ∧ ∀ me, me ∈ @parties demo_env → program (s' me) = Ret (own (SVI := @pf_value decimal_io) me z).
Proof.
  destruct (@quotients_over_the_network decimal_io demo_env _ [30; 6; 0]%Z [5; 6; 7]%Z 36 18 0
    (mkInvIds [mkAddress 41 1 0; mkAddress 42 1 0] (mkAddress 43 1 0) (mkAddress 44 1 0) [mkAddress 45 1 0; mkAddress 46 1 0])
    [mkAddress 47 1 0; mkAddress 48 1 0] (λ _, ∅) world0) as (z & w' & _ & Hz & Hs); [..|].
  - shares_lit.
  - shares_lit.
  - done.
  - done.
  - done.
  - by apply (bool_decide_unpack _).
  - by repeat constructor.
  - intros me pt a _. apply lookup_empty.
  - exists z. split; [|exact (proj2 (Hs _ (rtc_refl _ _)))].
    rewrite (recons_ok 1 z _ Hz). by vm_compute.
Defined.
