(* ===== verification/RoundsVector.v ===== *)
(** * The product of vectors over the network  (Share/Share.hpp)

    [operator*] of two vectors of shares as the program of one party, for any
    share value: one triple per entry, and one opening of all masked operands. *)
From stdpp Require Import base list numbers sets strings gmap relations.
From Stdlib Require Import ZArith Lia.
From S2P Require Import Prelude Random TripleHandler Share SharePF Mailbox Rounds.
Import Address Message Server.

(** ** Programs *)

Section Programs.
Context `{SVI : ShareValue} `{EI : Env}.
Context (getStrVal : Z → string) (of_string : string → result Z).
Context {A : Type}.

(** The product of two vectors of shares at one party; its triples start at [k]. *)
Definition v_mul (me k : nat) (ids : list AddressId) (xs ys : list Z) (next : list Z → prog A) : prog A :=
  if negb (length xs =? length ys)%nat then Fail not_equal_length
  else
    let n := length xs in
    match traverse (λ i, sv_triple n_parties (bts i me)) (seq k n) with
    | Throw e => Fail e
    | Ok t =>
        let de := zip_with (λ x (abc : Z * Z * Z), sv_sub x abc.1.1) xs t
                  ++ zip_with (λ y (abc : Z * Z * Z), sv_sub y abc.1.2) ys t in
        open_recons getStrVal of_string me ids de (λ de_rec,
          next (zip_with (beaver_at me) t (zip (take n de_rec) (drop n de_rec))))
    end.
End Programs.

(** * Lemmas *)

(** ** The product of vectors *)

Section VectorProduct.
Context `{SVI : ShareValue} `{EI : Env}.
Context (getStrVal : Z → string) (of_string : string → result Z).
Context {A : Type}.
Hypothesis wire_law : ∀ v, sv_wire v = of_string (getStrVal v).

(** A sharing has one local value per party. *)
Definition full (x : sharing) : Prop := length x = n_parties.
Definition full_triple (t : sharing * sharing * sharing) : Prop := full t.1.1 ∧ full t.1.2 ∧ full t.2.

Lemma triple_at_own k t me : triple_at k = Ok t → me ∈ parties →
  full_triple t ∧ sv_triple n_parties (bts k me) = Ok (own_triple me t).
Proof.
  unfold triple_at. intros (ts & Hts & [= <-])%rbind_Ok_inv Hme.
  pose proof (traverse_length _ _ _ Hts) as Hl. unfold parties in Hl. rewrite length_seq in Hl.
  split; [unfold full_triple, full; cbn; by rewrite !length_map|].
  assert (parties !! (me - 1) = Some me) as Hp by (apply elem_of_seq in Hme; apply lookup_seq; lia).
  destruct (traverse_lookup _ _ _ _ _ Hts Hp) as (y & Hy & ->). f_equal. unfold own_triple. cbn [fst snd].
  assert (∀ g : Z * Z * Z → Z, own me (map g ts) = g y) as Hg.
  { intros g. apply own_eq. change map with (@fmap list _). by rewrite list_lookup_fmap, Hy. }
  rewrite !Hg. by destruct y as [[? ?] ?].
Qed.

Lemma triples_own k n ts me : Forall2 (λ i t, triple_at i = Ok t) (seq k n) ts → me ∈ parties →
  traverse (λ i, sv_triple n_parties (bts i me)) (seq k n) = Ok (map (own_triple me) ts).
Proof.
  intros Hts Hme. induction Hts as [|i t l ts Ht _ IH]; [done|]. cbn [traverse map].
  destruct (triple_at_own i t me Ht Hme) as [_ ->]. cbn [rbind]. by rewrite IH.
Qed.

Lemma own_masks me (xs : list sharing) (ts : list (sharing * sharing * sharing))
    (sel : sharing * sharing * sharing → sharing) (sel' : Z * Z * Z → Z) :
  me ∈ parties → Forall full xs → Forall (λ t, full (sel t) ∧ sel' (own_triple me t) = own me (sel t)) ts →
  map (own me) (zip_with (λ x t, s_sub x (sel t)) xs ts)
  = zip_with (λ x t, sv_sub x (sel' t)) (map (own me) xs) (map (own_triple me) ts).
Proof.
  intros Hme Hxs. revert ts. induction Hxs as [|x xs Hx _ IH]; intros ts Hts; [done|].
  destruct Hts as [|t ts [Ht Hs] Hts]; [done|]. cbn [zip_with map]. rewrite IH by done. f_equal.
  unfold s_sub. by rewrite own_zip, Hs.
Qed.

Lemma own_beavers me ts des : me ∈ parties → Forall full_triple ts →
  map (own me) (zip_with beaver ts des) = zip_with (beaver_at me) (map (own_triple me) ts) des.
Proof.
  intros Hme Hts. revert des. induction Hts as [|t ts (H1 & H2 & H3) _ IH]; intros [|de des]; try done.
  cbn [zip_with map]. by rewrite own_beaver, IH.
Qed.

Lemma full_beaver t de : full_triple t → full (beaver t de).
Proof.
  intros (H1 & H2 & H3). unfold full in *. destruct t as [[a b] c], de as [d e]. cbn in H1, H2, H3.
  unfold beaver, s_addc, s_add, s_mulc. rewrite !length_zip_with, !length_map. unfold parties. rewrite length_seq. lia.
Qed.

(** One product, whatever the triple. *)
Lemma lockstep_one_mul tr k ids x y t d e (next : nat → Z → prog A) results :
  full x → full y → triple_at k = Ok t → full_triple t → good_ids [x; y] ids →
  (∀ me, me ∈ parties → recons_vec_at me [s_sub x t.1.1; s_sub y t.1.2] = Ok [d; e]) →
  lockstep tr (λ me, next me (own me (beaver t (d, e)))) results →
  lockstep (open_round getStrVal ids [s_sub x t.1.1; s_sub y t.1.2] :: tr)
    (λ me, mul getStrVal of_string me k ids (own me x) (own me y) (next me)) results.
Proof.
  intros Hx Hy Ht (Ha & Hb & Hc) Hids Hrec Hl. set (xs := [s_sub x t.1.1; s_sub y t.1.2]) in *.
  eapply lockstep_ext; [|apply (lockstep_open getStrVal of_string wire_law tr ids xs [d; e]
    (λ me de_rec, match de_rec with
      | [d; e] => next me (beaver_at me (own_triple me t) (d, e))
      | _ => Fail (Undefined "vector index") end) results Hids Hrec)].
  - intros me Hme. unfold mul. destruct (triple_at_own k t me Ht Hme) as [_ ->]. unfold own_triple at 1.
    unfold xs, column. cbn [map]. fold (own me (s_sub x t.1.1)) (own me (s_sub y t.1.2)). unfold s_sub. by rewrite !own_zip.
  - eapply lockstep_ext; [|exact Hl]. intros me Hme. cbv beta iota. by rewrite own_beaver.
Qed.

Lemma lockstep_v_mul tr k ids xs ys ts des (next : nat → list Z → prog A) results :
  length xs = length ys → Forall full xs → Forall full ys →
  Forall2 (λ i t, triple_at i = Ok t) (seq k (length xs)) ts → Forall full_triple ts →
  let de := zip_with (λ x (abc : sharing * sharing * sharing), s_sub x abc.1.1) xs ts
            ++ zip_with (λ y (abc : sharing * sharing * sharing), s_sub y abc.1.2) ys ts in
  good_ids de ids → (∀ me, me ∈ parties → recons_vec_at me de = Ok des) →
  let zs := zip_with beaver ts (zip (take (length xs) des) (drop (length xs) des)) in
  lockstep tr (λ me, next me (map (own me) zs)) results →
  lockstep (open_round getStrVal ids de :: tr)
    (λ me, v_mul getStrVal of_string me k ids (map (own me) xs) (map (own me) ys) (next me)) results.
Proof.
  intros Hl Hxs Hys Hts Hfull de Hids Hrec zs Hlock.
  eapply lockstep_ext; [|apply (lockstep_open getStrVal of_string wire_law tr ids de des
    (λ me de_rec, next me (zip_with (beaver_at me) (map (own_triple me) ts)
       (zip (take (length xs) de_rec) (drop (length xs) de_rec)))) results Hids Hrec)].
  - intros me Hme. unfold v_mul. rewrite !length_map, (proj2 (Nat.eqb_eq _ _) Hl). cbn [negb].
    rewrite (triples_own k (length xs) ts me Hts Hme). f_equal. unfold column. fold (own me).
    change (λ x : sharing, nth (me - 1) x sv_zero) with (own me). unfold de. rewrite map_app.
    rewrite (own_masks me xs ts (λ t, t.1.1) (λ t, t.1.1)), (own_masks me ys ts (λ t, t.1.2) (λ t, t.1.2)); try done;
      (eapply Forall_impl; [exact Hfull|]); by intros t (? & ? & ?).
  - eapply lockstep_ext; [|exact Hlock]. intros me Hme. cbv beta. unfold zs. by rewrite own_beavers.
Qed.
End VectorProduct.
