(* ===== verification/RoundsRealises.v ===== *)
(** * From joint protocols to programs of one party

    A protocol of [Share.v] is a function on the local values of all parties; what
    runs is the program of each party, in the form of [Rounds.v].  [AtParty] is the
    monad of such programs, with an operation for each that communicates or draws;
    [realises] relates a joint protocol to the programs of its parties, by a rule
    per construct (the relations between values have the database [local]);
    [realised_runs] says that programs which realise a joint protocol compute it
    over the network, in every interleaving.  The values are of any type that
    travels as text ([Wire]); the second half has the rules for field elements. *)
From stdpp Require Import base list numbers sets strings gmap relations.
From Stdlib Require Import ZArith Lia.
From S2P Require Import Prelude Field FixedPoint Random TripleHandler Share SharePF Mailbox Rounds RoundsDivision RoundsVector.
Import Address Message Server.
#[local] Open Scope qmpc_scope.

(** ** Programs of one party, in steps *)

(** The text in which a value travels, the two halves of [sv_wire]. *)
Class Wire (SVI : ShareValue) := {
  str_of : Z → string;
  of_str : string → result Z;
  wire_law : ∀ v, sv_wire v = of_str (str_of v)
}.
Definition pf_text `{IntegerIO} : Wire pf_value := {|
  str_of := PrimeField.getStrVal; of_str := PrimeField.of_string; wire_law := pf_wire
|}.

Module AtParty.

(** What a party has taken so far: triples, random numbers, share ids. *)
Record Pos := mkPos { at_triple : nat; at_draw : nat; at_id : nat }.

Section Programs.
Context `{SVI : ShareValue} `{WT : !Wire SVI} `{E : Env} {R : Type}.

Definition L (A : Type) : Type := Pos → (A → Pos → prog R) → prog R.
Definition ret {A} (a : A) : L A := λ s k, k a s.
Definition bind {A B} (m : L A) (f : A → L B) : L B := λ s k, m s (λ a s, f a s k).
Definition throw {A} (e : exn) : L A := λ _ _, Fail e.
Definition lift {A} (r : result A) : L A := λ s k, match r with Ok a => k a s | Throw e => Fail e end.

Fixpoint mmap {A B} (f : A → L B) (l : list A) : L (list B) :=
  match l with
  | [] => ret []
  | x :: l => bind (f x) (λ y, bind (mmap f l) (λ ys, ret (y :: ys)))
  end.
Fixpoint mfold {A B} (f : B → A → L B) (l : list A) (b : B) : L B :=
  match l with
  | [] => ret b
  | x :: l => bind (f b x) (λ b, mfold f l b)
  end.

(** The id of the [n]-th share that the parties communicate, and the party. *)
Context (id : nat → AddressId) (me : nat).

Definition l_getRand (mn mx : Z) : L Z := λ s k,
  match sv_rand (entropy me (at_draw s)) mn mx with
  | Throw e => Fail e
  | Ok x => k x (mkPos (at_triple s) (S (at_draw s)) (at_id s))
  end.
Definition ids (s : Pos) (n : nat) : list AddressId := map id (seq (at_id s) n).
Definition l_open_vec (xs : list Z) : L (list Z) := λ s k,
  Rounds.open_recons str_of of_str me (ids s (length xs)) xs (λ v,
    k v (mkPos (at_triple s) (at_draw s) (at_id s + length xs))).
Definition l_open (x : Z) : L Z := λ s k,
  open_recons1 str_of of_str me (id (at_id s)) x (λ v,
    k v (mkPos (at_triple s) (at_draw s) (at_id s + 1))).
Definition l_mul (x y : Z) : L Z := λ s k,
  Rounds.mul str_of of_str me (at_triple s) (ids s 2) x y (λ z,
    k z (mkPos (S (at_triple s)) (at_draw s) (at_id s + 2))).
Definition l_v_mul (xs ys : list Z) : L (list Z) := λ s k,
  RoundsVector.v_mul str_of of_str me (at_triple s) (ids s (length xs + length xs)) xs ys (λ zs,
    k zs (mkPos (at_triple s + length xs) (at_draw s) (at_id s + (length xs + length xs)))).
Definition l_sharize (secret : Z) : L Z := λ s k,
  RoundsDivision.sharize str_of of_str me (at_draw s) (id (at_id s)) secret (λ x,
    k x (mkPos (at_triple s) (at_draw s + if (me =? sp_id)%nat then length others else 0) (at_id s + 1))).

(** The middle of [getInv]: the others send their shares of [u] to the special
    party, which alone has the inverse; the others go on with [T()]. *)
Definition l_invert (u : Z) : L Z := λ s k,
  let s' := mkPos (at_triple s) (at_draw s) (at_id s + 1) in
  if (me =? sp_id)%nat then
    Round [] (map (λ pt, (pt, id (at_id s))) others) (λ vals,
      match rbind (recons1 of_str me u vals) sv_inv with Throw e => Fail e | Ok i => k i s' end)
  else Round [send str_of me u (id (at_id s)) sp_id] [] (λ _, k sv_zero s').

Definition l_getInv (s : Z) : L Z :=
  bind (l_getRand 1 1000) (λ r, bind (l_mul s r) (λ u, bind (l_invert u) (λ i,
  bind (l_sharize i) (λ s_inv, l_mul s_inv r)))).
Definition l_div (x y : Z) : L Z := bind (l_getInv y) (λ i, l_mul x i).

(** The local operators that are not the same at every party. *)
Definition l_addc (x c : Z) : Z := if (me =? sp_id)%nat then sv_add x c else x.
Definition l_c_sub (c x : Z) : Z := l_addc (sv_neg x) c.
End Programs.
End AtParty.

Notation "'let&' x ':=' m 'in' k" := (AtParty.bind m (λ x, k))
  (at level 10, x binder, m at level 100, k at level 200) : qmpc_scope.

(** ** Relations between a joint value and what the parties hold of it *)

Section Relations.
Context `{SVI : ShareValue} `{E : Env}.

Definition rel (A B : Type) : Type := A → (nat → B) → Prop.

(** A sharing: each party holds its entry. *)
Definition part : rel (list Z) Z := λ x x', full x ∧ ∀ me, me ∈ parties → x' me = own me x.
(** A public value: every party holds it. *)
Definition pub {A} : rel A A := λ a a', ∀ me, me ∈ parties → a' me = a.
(** A value the special party holds. *)
Definition at_sp {A} : rel A A := λ a a', a' sp_id = a.
Definition lst {A B} (R : rel A B) : rel (list A) (list B) := λ l l',
  ∃ ls, Forall2 R l ls ∧ ∀ me, me ∈ parties → l' me = map (λ f : nat → B, f me) ls.
Definition pair {A A' B B'} (R : rel A A') (Q : rel B B') : rel (A * B) (A' * B') := λ p p',
  R p.1 (λ me, (p' me).1) ∧ Q p.2 (λ me, (p' me).2).

(** Only what the parties hold counts. *)
Definition closed {A B} (R : rel A B) : Prop := ∀ a a' a'',
  R a a' → (∀ me, me ∈ parties → a'' me = a' me) → R a a''.

(** The state of party [me] after a joint run that ended in [w]. *)
Definition pos_at (w : World) (i me : nat) : AtParty.Pos := AtParty.mkPos (Share.triples w) (draw_pos w me) i.

Context {Res : Type}.

(** The programs [l] of the parties do in lockstep what the joint protocol [m]
    does from [w]: they end with the parts of its result; [ns] are the numbers of
    the ids their rounds use. *)
Definition realises_at (w : World) {A B} (R : rel A B) (m : M A)
    (l : (nat → AddressId) → nat → AtParty.L (R := Res) B) : Prop :=
  ∀ a w' i, m w = Ok (a, w') → ∃ a' ns,
    R a a' ∧ concat ns = seq i (length (concat ns))
    ∧ ∀ id, (∀ n, thread_id (id n) = 0%Z) → NoDup (map id (concat ns)) →
      ∃ tr, under tr (map (map id) ns)
        ∧ ∀ tr' k results,
          lockstep tr' (λ me, k me (a' me) (pos_at w' (i + length (concat ns)) me)) results →
          lockstep (tr ++ tr') (λ me, l id me (pos_at w i me) (k me)) results.
Definition realises {A B} (R : rel A B) (m : M A) l : Prop := ∀ w, realises_at w R m l.
End Relations.

(** The programs [l] of the parties, started after the draws and triples that
    [w] counts, compute [results] with the messages of [n] shares: in every
    interleaving of their sends and reads a party that ends has its result, and
    from every reachable state all parties can still end. *)
Definition over_the_network `{E : Env} {B} (w : World)
    (l : (nat → AddressId) → nat → AtParty.L (R := B) B) (results : nat → B) : Prop :=
  ∃ n, ∀ id boxes, (∀ i, thread_id (id i) = 0%Z) → NoDup (map id (seq 0 n)) → fresh (map id (seq 0 n)) boxes →
    ∀ s, rtc step (start (λ me, l id me (pos_at w 0 me) (λ a _, Ret a)) boxes) s →
      (∀ me a, me ∈ parties → program (s me) = Ret a → a = results me)
      ∧ ∃ s', rtc step s s' ∧ ∀ me, me ∈ parties → program (s' me) = Ret (results me).

(** A sharing of a field element, whose entries are in the range of the type. *)
Definition sh `{IO : IntegerIO} `{E : Env} : rel (list Z) Z := λ x x',
  full x ∧ Forall PrimeField.wf x ∧ ∀ me, me ∈ parties → x' me = own (SVI := pf_value) me x.

(** * Lemmas *)

(** ** Sharings *)

Section Sharings.
Context `{SVI : ShareValue} `{E : Env} `{V : !ValidEnv E}.

Lemma part_own x : full x → part x (λ me, own me x).
Proof. done. Qed.

Lemma part_zip f x y x' y' : part x x' → part y y' → part (zip_with f x y) (λ me, f (x' me) (y' me)).
Proof.
  unfold part, full. intros (Hx & Ex) (Hy & Ey). split; [rewrite length_zip_with; lia|].
  intros me Hme. by rewrite own_zip, Ex, Ey.
Qed.

Lemma part_map f x x' : part x x' → part (map f x) (λ me, f (x' me)).
Proof. unfold part, full. intros (Hx & Ex). split; [by rewrite length_map|]. intros me Hme. by rewrite own_map, Ex. Qed.

Lemma part_at_sp (f : Z → Z) (f' : nat → Z → Z) x x' : (∀ a, f' sp_id a = f a) → part x x' →
  part (zip_with (λ i v, if (i =? sp_id)%nat then f v else v) parties x)
    (λ me, if (me =? sp_id)%nat then f' me (x' me) else x' me).
Proof.
  unfold part, full. intros Hf (Hx & Ex). split; [rewrite length_zip_with; unfold parties; rewrite length_seq; lia|].
  intros me Hme. symmetry. apply own_eq. rewrite lookup_zip_with, (own_lookup me x) by done.
  assert (parties !! (me - 1)%nat = Some me) as ->.
  { apply elem_of_seq in Hme. apply lookup_seq. lia. }
  cbn. rewrite Ex by done. destruct (Nat.eqb_spec me sp_id) as [->|]; [by rewrite Hf|done].
Qed.

Lemma part_addc x c x' c' : part x x' → c' sp_id = c → part (s_addc x c) (λ me, AtParty.l_addc me (x' me) (c' me)).
Proof. intros Hx Hc. apply (part_at_sp (λ v, sv_add v c) (λ me v, sv_add v (c' me))); [|done]. intros a. by rewrite Hc. Qed.
Lemma part_closed : closed part.
Proof. intros x x' x'' (? & Hx) He. split; [done|]. intros me Hme. by rewrite He, Hx. Qed.

Lemma part_lit c : part (s_lit c) (λ _, c).
Proof.
  split; [apply length_replicate|]. intros me Hme. symmetry. apply own_eq, lookup_replicate_2.
  apply elem_of_seq in Hme. lia.
Qed.

Lemma part_zero : part s_zero (λ _, sv_zero).
Proof. apply part_lit. Qed.

Lemma lst_self {A B} (R : rel A B) f l : Forall (λ x, R x (λ me, f me x)) l → lst R l (λ me, map (f me) l).
Proof.
  intros Hf. exists (map (λ x me, f me x) l). split; [|intros me _; by rewrite map_map].
  by apply Forall2_fmap_r, Forall_Forall2_diag.
Qed.

Lemma lst_part_own xs : Forall full xs → lst part xs (λ me, map (own me) xs).
Proof. intros Hf. apply lst_self. eapply Forall_impl; [exact Hf|]. intros x Hx. by apply part_own. Qed.

Lemma lst_part_full xs xs' : lst part xs xs' → Forall full xs ∧ ∀ me, me ∈ parties → xs' me = map (own me) xs.
Proof.
  intros (ls & Hls & Hl). split.
  - clear Hl. by induction Hls as [|x x' l ls (? & ?) _ IH]; constructor.
  - intros me Hme. rewrite Hl by done. clear Hl. induction Hls as [|x x' l ls (_ & Hx) _ IH]; [done|]. cbn. by rewrite IH, Hx.
Qed.
End Sharings.

(** ** Closure of the relations *)

Section RelationFacts.
Context `{IO : IntegerIO} `{E : Env} `{V : !ValidEnv E}.
#[local] Existing Instance pf_value.
#[local] Existing Instance pf_text.

Lemma part_sh x x' : sh x x' → part x x'.
Proof. by intros (? & _ & ?). Qed.
Lemma sh_closed : closed sh.
Proof. intros x x' x'' (? & ? & Hx) He. split_and!; [done|done|]. intros me Hme. by rewrite He, Hx. Qed.
Lemma lst_closed {A B} (R : rel A B) : closed (lst R).
Proof. intros l l' l'' (ls & Hls & Hl) He. exists ls. split; [done|]. intros me Hme. by rewrite He, Hl. Qed.

(** ** Local operators on shares *)

Lemma sh_Shares x x' : sh x x' → SharePF.Shares x (Zsum x).
Proof. by intros (? & ? & _). Qed.

Lemma Shares_sh x v : SharePF.Shares x v → sh x (λ me, own me x).
Proof. by intros (? & ? & _). Qed.

Lemma sh_intro x x' : part x x' → Forall PrimeField.wf x → sh x x'.
Proof. by intros []. Qed.

Lemma sh_zip f x y x' y' : (∀ a b, PrimeField.wf (f a b)) → sh x x' → sh y y' →
  sh (zip_with f x y) (λ me, f (x' me) (y' me)).
Proof. intros Hf Hx Hy. apply sh_intro; [by apply part_zip; apply part_sh|by apply Forall_zip_with]. Qed.

Lemma sh_map f x x' : (∀ a, PrimeField.wf a → PrimeField.wf (f a)) → sh x x' → sh (map f x) (λ me, f (x' me)).
Proof.
  intros Hf Hx. apply sh_intro; [by apply part_map, part_sh|]. apply Forall_map. eapply Forall_impl; [apply Hx|done].
Qed.

Lemma sh_add x y x' y' : sh x x' → sh y y' → sh (s_add x y) (λ me, PrimeField.add (x' me) (y' me)).
Proof. apply sh_zip. intros. apply PrimeFieldFacts.canonical_wf, PrimeFieldFacts.add_canonical. Qed.
Lemma sh_sub x y x' y' : sh x x' → sh y y' → sh (s_sub x y) (λ me, PrimeField.sub (x' me) (y' me)).
Proof. apply sh_zip. intros. apply PrimeFieldFacts.canonical_wf, PrimeFieldFacts.sub_canonical. Qed.
Lemma sh_neg x x' : sh x x' → sh (s_neg x) (λ me, PrimeField.neg (x' me)).
Proof. apply (sh_map PrimeField.neg). apply PrimeFieldFacts.neg_wf. Qed.
Lemma sh_mulc x c x' c' : sh x x' → pub c c' → sh (s_mulc x c) (λ me, PrimeField.mul (x' me) (c' me)).
Proof.
  intros Hx Hc. apply (sh_closed _ (λ me, PrimeField.mul (x' me) c)).
  - apply (sh_map (λ a, PrimeField.mul a c)); [|done]. intros. apply PrimeFieldFacts.canonical_wf, PrimeFieldFacts.mul_canonical.
  - intros me Hme. by rewrite Hc.
Qed.
Lemma sh_at_sp (f : Z → Z) x x' (f' : nat → Z → Z) : (∀ a, PrimeField.wf (f a)) → (∀ a, f' sp_id a = f a) → sh x x' →
  sh (zip_with (λ i v, if (i =? sp_id)%nat then f v else v) parties x)
    (λ me, if (me =? sp_id)%nat then f' me (x' me) else x' me).
Proof.
  intros Hf Hf' Hx. apply sh_intro; [by apply part_at_sp; [|apply part_sh]|].
  apply Forall_forall. intros z (i & q & a & -> & _ & Ha)%elem_of_lookup_zip_with.
  destruct (_ =? _)%nat; [done|]. by eapply (Forall_lookup_1 PrimeField.wf x); [apply Hx|].
Qed.
Lemma sh_addc x c x' c' : sh x x' → pub c c' → sh (s_addc x c) (λ me, AtParty.l_addc me (x' me) (c' me)).
Proof.
  intros Hx Hc. apply (sh_at_sp (λ v, PrimeField.add v c) x x' (λ me v, PrimeField.add v (c' me))); [| |done].
  - intros. apply PrimeFieldFacts.canonical_wf, PrimeFieldFacts.add_canonical.
  - intros a. by rewrite (Hc sp_id sp_party).
Qed.
Lemma sh_c_sub c x c' x' : pub c c' → sh x x' → sh (c_sub c x) (λ me, AtParty.l_c_sub me (c' me) (x' me)).
Proof. intros Hc Hx. apply (sh_addc (s_neg x) c (λ me, PrimeField.neg (x' me))); [by apply sh_neg|done]. Qed.
Lemma sh_lit c c' : PrimeField.wf c → pub c c' → sh (s_lit c) c'.
Proof.
  intros Hw Hc. split_and!; [apply length_replicate|by apply Forall_replicate|].
  intros me Hme. by rewrite own_lit, Hc.
Qed.
Lemma sh_zero : sh s_zero (λ _, 0%Z).
Proof. apply (sh_lit 0%Z); [unfold PrimeField.wf, PrimeField.p; lia|done]. Qed.

(** ** Public values *)

Lemma pub_const {A} (a : A) : pub a (λ _, a).
Proof. done. Qed.

(** ** Lists *)

Lemma lst_nil {A B} (R : rel A B) : lst R [] (λ _, []).
Proof. by exists []. Qed.
Lemma lst_cons {A B} (R : rel A B) a l a' l' : R a a' → lst R l l' → lst R (a :: l) (λ me, a' me :: l' me).
Proof. intros Ha (ls & Hls & Hl). exists (a' :: ls). split; [by constructor|]. intros me Hme. cbn. by rewrite Hl. Qed.
Lemma lst_length {A B} (R : rel A B) l l' : lst R l l' → pub (length l) (λ me, length (l' me)).
Proof. intros (ls & Hls & Hl) me Hme. rewrite Hl, length_map by done. symmetry. by eapply Forall2_length. Qed.
Lemma lst_app {A B} (R : rel A B) l k l' k' : lst R l l' → lst R k k' → lst R (l ++ k) (λ me, l' me ++ k' me).
Proof.
  intros (ls & Hls & Hl) (ks & Hks & Hk). exists (ls ++ ks). split; [by apply Forall2_app|].
  intros me Hme. by rewrite map_app, Hl, Hk.
Qed.
Lemma lst_take {A B} (R : rel A B) n l l' : lst R l l' → lst R (take n l) (λ me, take n (l' me)).
Proof. intros (ls & Hls & Hl). exists (take n ls). split; [by apply Forall2_take|]. intros me Hme. by rewrite Hl, firstn_map. Qed.
Lemma lst_drop {A B} (R : rel A B) n l l' : lst R l l' → lst R (drop n l) (λ me, drop n (l' me)).
Proof. intros (ls & Hls & Hl). exists (drop n ls). split; [by apply Forall2_drop|]. intros me Hme. by rewrite Hl, skipn_map. Qed.
Lemma lst_replicate {A B} (R : rel A B) n n' a a' : pub n n' → R a a' → lst R (replicate n a) (λ me, replicate (n' me) (a' me)).
Proof.
  intros Hn Ha. exists (replicate n a'). split; [by apply Forall2_replicate|]. intros me Hme. rewrite Hn by done.
  change map with (@fmap list _). by rewrite fmap_replicate.
Qed.
Lemma lst_map_list {A B C} (R : rel A B) (f : C → A) (f' : nat → C → B) l :
  (∀ x, x ∈ l → R (f x) (λ me, f' me x)) → lst R (map f l) (λ me, map (f' me) l).
Proof.
  intros Hf. exists (map (λ x me, f' me x) l). split; [|intros me Hme; by rewrite map_map].
  apply Forall2_fmap, Forall_Forall2_diag, Forall_forall. exact Hf.
Qed.
Lemma lst_map {A B C D} (Q : rel A B) (R : rel C D) f f' l l' :
  (∀ x x', Q x x' → R (f x) (λ me, f' me (x' me))) → lst Q l l' → lst R (map f l) (λ me, map (f' me) (l' me)).
Proof.
  intros Hf (ls & Hls & Hl). exists (map (λ x' me, f' me (x' me)) ls). split.
  - apply Forall2_fmap. eapply Forall2_impl; [exact Hls|exact Hf].
  - intros me Hme. by rewrite Hl, !map_map.
Qed.
Lemma lst_zip_with {A A' B B' C C'} (P : rel A A') (Q : rel B B') (R : rel C C') f f' l k l' k' :
  (∀ x y x' y', P x x' → Q y y' → R (f x y) (λ me, f' me (x' me) (y' me))) → lst P l l' → lst Q k k' →
  lst R (zip_with f l k) (λ me, zip_with (f' me) (l' me) (k' me)).
Proof.
  intros Hf (ls & Hls & Hl) (ks & Hks & Hk). exists (zip_with (λ x' y' me, f' me (x' me) (y' me)) ls ks). split.
  - clear Hl Hk l' k'. revert k ks Hks. induction Hls as [|x x' l ls Hx _ IH]; intros k ks [|y y' k' ks' Hy Hk]; cbn; constructor; auto.
  - intros me Hme. rewrite Hl, Hk by done. clear. revert ks. induction ls as [|x ls IH]; intros [|y ks]; cbn; f_equal; auto.
Qed.
Lemma lst_removelast {A B} (R : rel A B) l l' : lst R l l' → lst R (removelast l) (λ me, removelast (l' me)).
Proof.
  intros (ls & Hls & Hl). exists (removelast ls). split.
  - clear Hl. induction Hls as [|x x' l ls Hx Hls IH]; [constructor|]. destruct Hls; [constructor|]. cbn in *. by constructor.
  - intros me Hme. rewrite Hl by done. clear. induction ls as [|x ls IH]; [done|]. destruct ls; [done|]. cbn in *. by f_equal.
Qed.
Lemma lst_concat {A B} (R : rel A B) l l' : lst (lst R) l l' → lst R (concat l) (λ me, concat (l' me)).
Proof.
  intros (ls & Hls & Hl). apply (lst_closed R _ (λ me, concat (map (λ f, f me) ls))); [|intros me Hme; by rewrite Hl].
  clear Hl. induction Hls as [|x x' l ls Hx _ IH]; [apply lst_nil|]. cbn. by apply lst_app.
Qed.
Lemma lst_fold_left {A B C} (R : rel B C) (f : B → A → B) (f' : nat → C → A → C) l b b' :
  (∀ b b' x, R b b' → R (f b x) (λ me, f' me (b' me) x)) → R b b' →
  R (fold_left f l b) (λ me, fold_left (f' me) l (b' me)).
Proof. intros Hf. revert b b'. induction l as [|x l IH]; intros b b' Hb; [done|]. cbn. by apply (IH (f b x) (λ me, f' me (b' me) x)), Hf. Qed.
Lemma lst_nth {A B} (R : rel A B) l l' i d d' : closed R → lst R l l' → R d d' →
  R (nth i l d) (λ me, nth i (l' me) (d' me)).
Proof.
  intros Hc (ls & Hls & Hl) Hd. apply (Hc _ (λ me, (nth i ls d') me)).
  - clear Hl. revert i. induction Hls as [|x x' l ls Hx _ IH]; intros [|i]; cbn; auto.
  - intros me Hme. rewrite Hl by done. clear. revert i. induction ls as [|x ls IH]; intros [|i]; cbn; auto.
Qed.
Lemma lst_sh_full xs xs' : lst sh xs xs' → Forall full xs ∧ Forall (Forall PrimeField.wf) xs
  ∧ ∀ me, me ∈ parties → xs' me = map (own me) xs.
Proof.
  intros (ls & Hls & Hl). split_and!.
  - clear Hl. by induction Hls as [|x x' l ls (? & ? & ?) _ IH]; constructor.
  - clear Hl. by induction Hls as [|x x' l ls (? & ? & ?) _ IH]; constructor.
  - intros me Hme. rewrite Hl by done. clear Hl. induction Hls as [|x x' l ls (_ & _ & Hx) _ IH]; [done|]. cbn. by rewrite IH, Hx.
Qed.
Lemma lst_part_sh xs xs' : lst sh xs xs' → lst part xs xs'.
Proof.
  intros (ls & Hls & Hl). exists ls. split; [|done]. eapply Forall2_impl; [exact Hls|]. intros x x'. apply part_sh.
Qed.
Lemma lst_sh_part xs xs' : lst part xs xs' → Forall (Forall PrimeField.wf) xs → lst sh xs xs'.
Proof.
  intros (ls & Hls & Hl) Hw. exists ls. split; [|done]. clear Hl. induction Hls as [|x x' xs ls Hx _ IH]; [constructor|].
  apply Forall_cons in Hw as [Hx' Hw]. constructor; [by apply sh_intro|by apply IH].
Qed.
Lemma lst_pub xs : lst (@pub E Z) xs (λ _, xs).
Proof. exists (map (λ x _, x) xs). split; [|intros me _; by rewrite map_map, map_id]. induction xs; constructor; done. Qed.
Lemma lst_pub_inv {A} (xs : list A) xs' : lst pub xs xs' → pub xs xs'.
Proof.
  intros (ls & Hls & Hl) me Hme. rewrite Hl by done. clear Hl. induction Hls as [|x x' xs ls Hx _ IH]; [done|].
  cbn. by rewrite Hx, IH.
Qed.
End RelationFacts.

(** ** Drawing, opening and multiplying values of any type *)

Section Steps.
Context `{SVI : ShareValue} `{WT : !Wire SVI} `{E : Env} `{V : !ValidEnv E} {Res : Type}.
#[local] Abbreviation realises := (realises (Res := Res)).
#[local] Abbreviation realises_at := (realises_at (Res := Res)).

Lemma realises_draw mn mx : realises part (Share.getRand mn mx) (λ _ me, AtParty.l_getRand me mn mx).
Proof.
  intros w x w' i Hrun. unfold Share.getRand in Hrun. apply rbind_Ok_inv in Hrun as (xs & Hxs & [= <- <-]).
  exists (λ me, own me xs), []. pose proof (traverse_length _ _ _ Hxs) as Hlen. split_and!; [|done|].
  { apply part_own. unfold full. rewrite Hlen. unfold parties. apply length_seq. }
  intros id _ _. exists []. split; [constructor|]. intros tr' k results Hk. cbn [app concat length] in *.
  eapply lockstep_ext; [|exact Hk]. intros me Hme. unfold AtParty.l_getRand. cbn [AtParty.at_draw pos_at].
  assert (parties !! (me - 1) = Some me) as Hp by (apply elem_of_seq in Hme; apply lookup_seq; lia).
  destruct (traverse_lookup _ _ _ _ _ Hxs Hp) as (y & Hy & ->). rewrite (own_eq me xs y Hy). unfold pos_at. cbn.
  by rewrite Nat.add_0_r.
Qed.

Lemma ids_good (id : nat → AddressId) i (xs : list sharing) :
  (∀ n, thread_id (id n) = 0%Z) → NoDup (map id (seq i (length xs))) → good_ids xs (map id (seq i (length xs))).
Proof.
  intros Hth Hnd. split_and!; [done| |by rewrite length_map, length_seq]. apply Forall_fmap, Forall_true. exact Hth.
Qed.

Lemma concat_one {A} (l : list A) : concat [l] = l.
Proof. apply app_nil_r. Qed.

(** An opening, when all parties reconstruct the same. *)
Lemma realises_at_open_vec w xs xs' des :
  (∀ me, me ∈ parties → xs' me = map (own me) xs) → (∀ me, me ∈ parties → recons_vec_at me xs = Ok des) →
  realises_at w pub (Share.open_recons_vec xs) (λ id me, AtParty.l_open_vec id me (xs' me)).
Proof.
  intros Hxs Hr a w' i Hrun. unfold Share.open_recons_vec, Share.lift in Hrun.
  rewrite (Hr sp_id sp_party) in Hrun. injection Hrun as <- <-.
  exists (λ _, des), [seq i (length xs)]. rewrite concat_one, length_seq. split_and!; [done|done|].
  intros id Hth Hnd. exists [open_round str_of (map id (seq i (length xs))) xs].
  pose proof (ids_good id i xs Hth Hnd) as Hids. split.
  - constructor; [|constructor]. intros pt me v q. by apply sends_ids.
  - intros tr' k results Hk. cbn [app].
    eapply lockstep_ext; [|apply (lockstep_open str_of of_str wire_law tr' _ xs des (λ me v, k me v (pos_at w (i + length xs) me))
      results Hids Hr Hk)].
    intros me Hme. unfold AtParty.l_open_vec, AtParty.ids, column. cbn [pos_at AtParty.at_id]. by rewrite Hxs, length_map.
Qed.

Lemma realises_at_open w x x' c : part x x' → (∀ me, me ∈ parties → recons_at me x = Ok c) →
  realises_at w pub (Share.open_recons x) (λ id me, AtParty.l_open id me (x' me)).
Proof.
  intros (Hf & Hx) Hr a w' i Hrun. unfold Share.open_recons, Share.lift in Hrun.
  rewrite (Hr sp_id sp_party) in Hrun. injection Hrun as <- <-.
  exists (λ _, c), [[i]]. split_and!; [done|done|]. intros id Hth Hnd. exists [all_round str_of (id i) (λ pt, own pt x)]. split.
  - constructor; [|constructor]. intros pt me v q (_ & _ & -> & _)%all_sends; [by left|done].
  - intros tr' k results Hk. cbn [app].
    eapply lockstep_ext; [|apply (lockstep_open1 str_of of_str tr' (id i) (λ pt, own pt x) c
      (λ me v, k me v (pos_at w (i + 1) me)) results (Hth i))]; [| |exact Hk].
    + intros me Hme. unfold AtParty.l_open. by rewrite Hx.
    + intros me Hme. rewrite (recons1_at str_of of_str wire_law) by done. by apply Hr.
Qed.

(** A product with the triple that is next. *)
Lemma realises_at_mul w x y x' y' t d e : part x x' → part y y' → triple_at (Share.triples w) = Ok t →
  (∀ me, me ∈ parties → recons_vec_at me [s_sub x t.1.1; s_sub y t.1.2] = Ok [d; e]) →
  realises_at w part (Share.s_mul x y) (λ id me, AtParty.l_mul id me (x' me) (y' me)).
Proof.
  intros (Fx & Hx) (Fy & Hy) Ht Hr z w' i Hrun. destruct (triple_at_own _ t sp_id Ht sp_party) as [Hfull _].
  assert (z = beaver t (d, e) ∧ w' = mkWorld (all_draws w) (sp_draws w) (S (Share.triples w))) as [-> ->].
  { revert Hrun. unfold Share.s_mul, Share.getTriple, Share.bind, getTriple1. cbn [seq Share.mmap Share.bind].
    unfold Share.bind. rewrite Ht. cbn [rbind Share.ret]. unfold Share.open_recons_vec, Share.lift, Share.ret. cbn [rbind].
    destruct t as [[ta tb] tc]. cbn [fst snd] in *. rewrite (Hr sp_id sp_party). cbn [rbind]. by intros [= <- <-]. }
  exists (λ me, own me (beaver t (d, e))), [seq i 2]. split_and!; [by apply part_own, full_beaver|done|].
  intros id Hth Hnd. exists [open_round str_of (map id (seq i 2)) [s_sub x t.1.1; s_sub y t.1.2]]. split.
  - constructor; [|constructor]. intros pt me a q. apply sends_ids. by apply (ids_good id i [_; _] Hth).
  - intros tr' k results Hk. cbn [app].
    eapply lockstep_ext; [|apply (lockstep_one_mul str_of of_str wire_law tr' (Share.triples w) (map id (seq i 2)) x y t d e
      (λ me v, k me v (AtParty.mkPos (S (Share.triples w)) (draw_pos w me) (i + 2))) results Fx Fy Ht Hfull)]; [| |exact Hr|exact Hk].
    + intros me Hme. unfold AtParty.l_mul. by rewrite Hx, Hy.
    + by apply (ids_good id i [x; y] Hth).
Qed.
(** A product of vectors with the triples that are next. *)
Lemma realises_at_v_mul w xs ys xs' ys' ts des : lst part xs xs' → lst part ys ys' → length xs = length ys →
  Forall2 (λ i t, triple_at i = Ok t) (seq (Share.triples w) (length xs)) ts →
  let de := zip_with (λ x (abc : sharing * sharing * sharing), s_sub x abc.1.1) xs ts
            ++ zip_with (λ y (abc : sharing * sharing * sharing), s_sub y abc.1.2) ys ts in
  (∀ me, me ∈ parties → recons_vec_at me de = Ok des) →
  Share.v_mul xs ys w = Ok (zip_with beaver ts (zip (take (length xs) des) (drop (length xs) des)),
    mkWorld (all_draws w) (sp_draws w) (Share.triples w + length xs)) →
  realises_at w (lst part) (Share.v_mul xs ys) (λ id me, AtParty.l_v_mul id me (xs' me) (ys' me)).
Proof.
  intros Hx Hy Hl Hts de Hr Hjoint zs w' i Hrun. destruct (lst_part_full xs xs' Hx) as (Fx & Ex). destruct (lst_part_full ys ys' Hy) as (Fy & Ey).
  rewrite Hjoint in Hrun. injection Hrun as <- <-. set (n := length xs) in *.
  pose proof (Forall2_length _ _ _ Hts) as Hlt. rewrite length_seq in Hlt.
  assert (Forall full_triple ts) as Hfull.
  { eapply Forall2_Forall_r; [exact Hts|]. apply Forall_true. intros j t Ht. by apply (triple_at_own j t sp_id Ht sp_party). }
  assert (length de = n + n) as Hld by (unfold de; rewrite length_app, !length_zip_with; lia).
  exists (λ me, map (own me) (zip_with beaver ts (zip (take n des) (drop n des)))), [seq i (n + n)].
  rewrite concat_one, length_seq. split_and!; [|done|].
  { apply lst_part_own, Forall_forall. intros z (j & t & d & -> & Ht & _)%elem_of_lookup_zip_with.
    rewrite Forall_forall in Hfull. by apply full_beaver, Hfull, (list_elem_of_lookup_2 _ j). }
  intros id Hth Hnd. exists [open_round str_of (map id (seq i (n + n))) de].
  assert (good_ids de (map id (seq i (n + n)))) as Hids by (rewrite <- Hld; apply ids_good; [done|by rewrite Hld]). split.
  - constructor; [|constructor]. intros pt me a q. by apply sends_ids.
  - intros tr' k results Hk. cbn [app].
    eapply lockstep_ext; [|apply (lockstep_v_mul str_of of_str wire_law tr' (Share.triples w) (map id (seq i (n + n))) xs ys ts des
      (λ me v, k me v (AtParty.mkPos (Share.triples w + n) (draw_pos w me) (i + (n + n)))) results Hl Fx Fy Hts Hfull Hids Hr Hk)].
    intros me Hme. unfold AtParty.l_v_mul, AtParty.ids. cbn [pos_at AtParty.at_id AtParty.at_triple AtParty.at_draw]. rewrite Ex, Ey by done.
    by rewrite length_map.
Qed.

(** *** The rounds that are not symmetric *)

Lemma draws_world {B} (l : list B) w rs w' : Share.mmap (λ _, getRand_sp 1 1000) l w = Ok (rs, w') →
  w' = mkWorld (all_draws w) (sp_draws w + length l) (Share.triples w)
  ∧ ∀ pos k, draw_pos w sp_id = pos + k →
      traverse (λ i, sv_rand (entropy sp_id (pos + i)) 1 1000) (seq k (length l)) = Ok rs.
Proof.
  revert w rs. induction l as [|x l IH]; intros w rs; cbn [Share.mmap].
  - intros [= <- <-]. cbn. rewrite Nat.add_0_r. by destruct w.
  - unfold Share.bind at 1, getRand_sp at 1. intros ([r w1] & (v & Hv & [= <- <-])%rbind_Ok_inv & H)%rbind_Ok_inv.
    apply rbind_Ok_inv in H as ([ys w2] & H2 & [= <- <-]). destruct (IH _ _ H2) as [-> Hys].
    cbn [all_draws sp_draws Share.triples length seq traverse] in *. split; [f_equal; lia|]. intros pos k Hp.
    rewrite <- Hp, Hv. cbn [rbind]. rewrite (Hys pos (S k)); [done|].
    unfold draw_pos in *. cbn [all_draws sp_draws]. rewrite Nat.eqb_refl in *. lia.
Qed.

Lemma draw_pos_sp (w : World) d t me :
  draw_pos (mkWorld (all_draws w) (sp_draws w + d) t) me = draw_pos w me + if (me =? sp_id)%nat then d else 0.
Proof. unfold draw_pos. cbn [all_draws sp_draws]. destruct (me =? sp_id)%nat; lia. Qed.

(** What the special party sends comes back as [SV(x.getStrVal())]. *)
Lemma received_own (rs received : list Z) d d' me : traverse sv_wire rs = Ok received → length rs = n_parties - 1 →
  me ∈ parties → me ≠ sp_id →
  of_str (str_of (own me (take (sp_id - 1) rs ++ d :: drop (sp_id - 1) rs)))
  = Ok (own me (take (sp_id - 1) received ++ d' :: drop (sp_id - 1) received)).
Proof.
  intros Hr Hl Hme Hne. pose proof (traverse_length _ _ _ Hr) as Hl'.
  assert (∃ j, others !! j = Some me) as (j & Hj) by (apply list_elem_of_lookup; by apply elem_of_others').
  assert (∀ (l : list Z) e, length l = n_parties - 1 → l !! j = Some (own me (take (sp_id - 1) l ++ e :: drop (sp_id - 1) l))) as Ho.
  { intros l e Hll. rewrite <- (own_others l e Hll) at 1. change map with (@fmap list _). by rewrite list_lookup_fmap, Hj. }
  destruct (traverse_lookup _ _ _ _ _ Hr (Ho rs d Hl)) as (y & Hy & He). rewrite (Ho received d') in Hy by lia.
  injection Hy as <-. by rewrite <- He, wire_law.
Qed.

Lemma realises_share secret secret' : at_sp secret secret' →
  realises part (Share.sharize secret) (λ id me, AtParty.l_sharize id me (secret' me)).
Proof.
  intros Hs w x w' i Hrun. unfold Share.sharize, Share.bind at 1 in Hrun. apply rbind_Ok_inv in Hrun as ([rs w1] & H1 & H).
  destruct (draws_world _ _ _ _ H1) as [-> Hrs]. unfold Share.bind, Share.lift in H.
  destruct (traverse sv_wire rs) as [received|e] eqn:Hrec; [|done]. cbn [rbind] in H. injection H as <- <-.
  specialize (Hrs (draw_pos w sp_id) 0 ltac:(lia)). pose proof (traverse_length _ _ _ Hrs) as Hlen. rewrite length_seq in Hlen.
  pose proof (traverse_length _ _ _ Hrec) as Hlen'. pose proof others_length as Hol.
  set (d := sv_sub secret (fold_left sv_add rs sv_zero)).
  set (x := take (sp_id - 1) received ++ d :: drop (sp_id - 1) received).
  set (val := λ pt, own pt (take (sp_id - 1) rs ++ d :: drop (sp_id - 1) rs)).
  pose proof sp_valid as Hsp. exists (λ me, own me x), [[i]]. split_and!; [|done|].
  { apply part_own. unfold full, x. rewrite length_app, length_take. cbn [length]. rewrite length_drop. lia. }
  intros id Hth Hnd. exists [scatter_round str_of (id i) val]. split.
  - constructor; [|constructor]. intros pt me a q (_ & _ & -> & _)%scatter_sends; [by left|done].
  - intros tr' k results Hk. cbn [app].
    eapply lockstep_ext; [|apply (lockstep_scatter str_of sp_party tr' (id i) val
      (λ me, k me d (AtParty.mkPos (Share.triples w) (draw_pos w me + if (me =? sp_id)%nat then length others else 0) (i + 1)))
      (λ me vals, match vals with
        | [v] => match of_str v with
                 | Ok s => k me s (AtParty.mkPos (Share.triples w) (draw_pos w me + if (me =? sp_id)%nat then length others else 0) (i + 1))
                 | Throw e => Fail e end
        | _ => Fail (Undefined "getShare") end) results (Hth i))].
    + intros me Hme. unfold AtParty.l_sharize, sharize. cbn [pos_at AtParty.at_id AtParty.at_draw AtParty.at_triple].
      destruct (Nat.eqb_spec me sp_id) as [->|]; [|done]. rewrite Hrs, Hs. fold d.
      rewrite <- (own_others rs d ltac:(lia)) at 1. fold val. by rewrite zip_with_map_r.
    + eapply lockstep_ext; [|exact Hk]. intros me Hme. cbn beta iota. unfold pos_at. rewrite draw_pos_sp.
      destruct (Nat.eqb_spec me sp_id) as [->|Hne].
      * unfold x. by rewrite own_sp by lia.
      * unfold val. by rewrite (received_own rs received d d me Hrec ltac:(lia) Hme Hne).
Qed.

Lemma realises_at_invert w u u' : part u u' →
  realises_at w at_sp (Share.bind (Share.lift (recons_at sp_id u)) (λ c, Share.lift (sv_inv c)))
    (λ id me, AtParty.l_invert id me (u' me)).
Proof.
  intros (Hf & Hu) v w' i Hrun. unfold Share.bind, Share.lift in Hrun.
  destruct (recons_at sp_id u) as [c|e] eqn:Hc; [|done]. cbn [rbind] in Hrun.
  destruct (sv_inv c) as [v'|e] eqn:Hv; [|done]. injection Hrun as -> ->.
  exists (λ me, if (me =? sp_id)%nat then v else sv_zero), [[i]]. split_and!; [unfold at_sp; by rewrite Nat.eqb_refl|done|].
  intros id Hth Hnd. exists [gather_round str_of (id i) (λ pt, own pt u)]. split.
  - constructor; [|constructor]. intros pt me a q (_ & _ & -> & _)%gather_sends; [by left|done].
  - intros tr' k results Hk. cbn [app].
    eapply lockstep_ext; [|apply (lockstep_gather str_of tr' (id i) (λ pt, own pt u)
      (λ me vals, match rbind (recons1 of_str me (own me u) vals) sv_inv with
                  | Throw e => Fail e | Ok i0 => k me i0 (pos_at w' (i + 1) me) end)
      (λ me, k me sv_zero (pos_at w' (i + 1) me)) results (Hth i))].
    + intros me Hme. unfold AtParty.l_invert. by rewrite Hu.
    + eapply lockstep_ext; [|exact Hk]. intros me Hme. cbv beta.
      destruct (Nat.eqb_spec me sp_id) as [->|]; [|done].
      change others with (filter (λ pt, pt ≠ sp_id) parties). rewrite (recons1_at str_of of_str wire_law) by done.
      rewrite Hc. cbn [rbind]. by rewrite Hv.
Qed.
End Steps.

(** ** A rule per construct *)

Section Rules.
Context `{IO : IntegerIO} `{E : Env} `{V : !ValidEnv E} {Res : Type}.
#[local] Existing Instance pf_value.
#[local] Existing Instance pf_text.
#[local] Abbreviation getStrVal := PrimeField.getStrVal.
#[local] Abbreviation of_string := PrimeField.of_string.
#[local] Abbreviation realises := (realises (Res := Res)).
#[local] Abbreviation realises_at := (realises_at (Res := Res)).

Lemma realises_ret {A B} (R : rel A B) a a' : R a a' → realises R (Share.ret a) (λ _ me, AtParty.ret (a' me)).
Proof.
  intros Ha w b w' i [= <- <-]. exists a', []. split_and!; [done|done|]. intros id _ _. exists []. split; [constructor|].
  intros tr' k results Hl. cbn in *. by rewrite Nat.add_0_r in Hl.
Qed.

Lemma realises_at_ext {A B} w (R : rel A B) m l l' :
  (∀ id me s k, me ∈ parties → l' id me s k = l id me s k) → realises_at w R m l → realises_at w R m l'.
Proof.
  intros He Hm a w' i Hrun. destruct (Hm a w' i Hrun) as (a' & ns & Ha & Hn & Hid). exists a', ns. split_and!; [done|done|].
  intros id Hth Hnd. destruct (Hid id Hth Hnd) as (tr & Hu & Hl). exists tr. split; [done|]. intros tr' k results Hk.
  eapply lockstep_ext; [|by apply Hl]. intros me Hme. by rewrite He.
Qed.

Lemma realises_ext {A B} (R : rel A B) m l l' :
  (∀ id me s k, me ∈ parties → l' id me s k = l id me s k) → realises R m l → realises R m l'.
Proof. intros He Hm w. by eapply realises_at_ext. Qed.

(** The cut rule: the rest of the programs may rely on the relation, and on where
    the first part ended. *)
Lemma realises_at_bind {A B C D} w (R : rel A B) (Q : rel C D) m l f f' :
  realises_at w R m l →
  (∀ a a' w1, m w = Ok (a, w1) → R a a' → realises_at w1 Q (f a) (λ id me, f' id me (a' me))) →
  realises_at w Q (Share.bind m f) (λ id me, AtParty.bind (l id me) (f' id me)).
Proof.
  intros Hm Hf b w2 i Hrun. unfold Share.bind in Hrun. apply rbind_Ok_inv in Hrun as ([a w1] & H1 & H2).
  destruct (Hm a w1 i H1) as (a' & ns1 & Ha & Hn1 & Hid1).
  destruct (Hf a a' w1 H1 Ha b w2 (i + length (concat ns1)) H2) as (b' & ns2 & Hb & Hn2 & Hid2).
  exists b', (ns1 ++ ns2). rewrite concat_app, length_app. split_and!; [done| |].
  - rewrite seq_app. by f_equal.
  - intros id Hth Hnd. rewrite map_app in Hnd. apply NoDup_app in Hnd as (Hnd1 & _ & Hnd2).
    destruct (Hid1 id Hth Hnd1) as (tr1 & Hu1 & Hl1). destruct (Hid2 id Hth Hnd2) as (tr2 & Hu2 & Hl2).
    exists (tr1 ++ tr2). split; [rewrite map_app; by apply Forall2_app|]. intros tr' k results Hk.
    rewrite <- app_assoc. apply (Hl1 (tr2 ++ tr') (λ me a s, f' id me a s (k me))). apply Hl2.
    by rewrite Nat.add_assoc in Hk.
Qed.

Lemma realises_bind {A B C D} (R : rel A B) (Q : rel C D) m l f f' :
  realises R m l → (∀ a a', R a a' → realises Q (f a) (λ id me, f' id me (a' me))) →
  realises Q (Share.bind m f) (λ id me, AtParty.bind (l id me) (f' id me)).
Proof. intros Hm Hf w. eapply realises_at_bind; [apply Hm|]. intros a a' w1 _ Ha. by apply Hf. Qed.

(** The same with what is known of the joint run of the first part. *)
Lemma realises_at_bind_runs {A B C D} w P (R : rel A B) (Q : rel C D) m l f f' :
  SharePF.runs m w P → realises_at w R m l →
  (∀ a a' w1, P a w1 → R a a' → realises_at w1 Q (f a) (λ id me, f' id me (a' me))) →
  realises_at w Q (Share.bind m f) (λ id me, AtParty.bind (l id me) (f' id me)).
Proof.
  intros (a0 & w0 & Hrun & HP) Hm Hf. eapply realises_at_bind; [exact Hm|]. intros a a' w1 H1 Ha.
  rewrite Hrun in H1. injection H1 as -> ->. by apply Hf.
Qed.

Lemma realises_at_run {A B} w P (R R' : rel A B) m l :
  SharePF.runs m w P → realises_at w R m l → (∀ a a' w1, P a w1 → R a a' → R' a a') → realises_at w R' m l.
Proof.
  intros (a0 & w0 & Hrun & HP) Hm HR a w' i H1. destruct (Hm a w' i H1) as (a' & ns & Ha & Hns). exists a', ns.
  rewrite Hrun in H1. injection H1 as -> ->. split; [by eapply HR|done].
Qed.

Lemma realises_at_bind_pub {A C D} w P (Q : rel C D) (m : M A) l f f' :
  SharePF.runs m w P → realises_at w pub m l →
  (∀ a w1, P a w1 → realises_at w1 Q (f a) (λ id me, f' id me a)) →
  realises_at w Q (Share.bind m f) (λ id me, AtParty.bind (l id me) (f' id me)).
Proof.
  intros HP Hm Hf. eapply realises_at_bind_runs; [exact HP|exact Hm|]. intros a a' w1 Ha Hp.
  eapply realises_at_ext; [|by apply Hf]. intros id me s k Hme. cbv beta. by rewrite Hp.
Qed.

Lemma realises_at_eq {A B} w (R : rel A B) m m' l : m w = m' w → realises_at w R m' l → realises_at w R m l.
Proof. intros He Hm a w' i Hrun. rewrite He in Hrun. by apply Hm. Qed.

Lemma bind_assoc {A B C} (m : M A) (f : A → M B) (g : B → M C) w :
  Share.bind m (λ a, Share.bind (f a) g) w = Share.bind (Share.bind m f) g w.
Proof. unfold Share.bind. destruct (m w) as [[a w1]|e]; done. Qed.

Lemma realises_bind_vec {A C D} w (Q : rel C D) (m : M (list A)) l f f' :
  realises_at w (lst pub) m l → (∀ a w1, realises_at w1 Q (f a) (λ id me, f' id me a)) →
  realises_at w Q (Share.bind m f) (λ id me, AtParty.bind (l id me) (f' id me)).
Proof.
  intros Hm Hf. eapply realises_at_bind; [exact Hm|]. intros a a' w1 _ Ha.
  eapply realises_at_ext; [|apply Hf]. intros id me s k Hme. cbv beta. by rewrite (lst_pub_inv _ _ Ha).
Qed.

(** A loop over the entries of a list that the parties hold in parts. *)
Lemma realises_mmap_lst {A A' B C} (Q : rel A A') (R : rel B C) (f : A → M B) f' l l' :
  lst Q l l' → (∀ x x', x ∈ l → Q x x' → realises R (f x) (λ id me, f' id me (x' me))) →
  realises (lst R) (Share.mmap f l) (λ id me, AtParty.mmap (f' id me) (l' me)).
Proof.
  intros (ls & Hls & Hl) Hf.
  apply (realises_ext _ _ (λ id me, AtParty.mmap (f' id me) (map (λ x', x' me) ls)));
    [intros id me s k Hme; by rewrite Hl|]. clear l' Hl.
  induction Hls as [|x x' l ls Hx _ IH]; cbn [Share.mmap AtParty.mmap map]; [apply (realises_ret _ _ (λ _, [])), lst_nil|].
  apply (realises_bind R (lst R) _ (λ id me, f' id me (x' me)) _
    (λ id me y, AtParty.bind (AtParty.mmap (f' id me) (map (λ x', x' me) ls)) (λ ys, AtParty.ret (y :: ys)))); [apply Hf; [by left|done]|].
  intros y y' Hy. apply (realises_bind (lst R) (lst R) _ (λ id me, AtParty.mmap (f' id me) (map (λ x', x' me) ls)) _
    (λ id me ys, AtParty.ret (y' me :: ys))); [apply IH; intros z z' Hz; apply Hf; by right|].
  intros ys ys' Hys. apply (realises_ret (lst R) _ (λ me, y' me :: ys' me)). by apply lst_cons.
Qed.

Lemma realises_mfold_lst {A A' B C} (Q : rel A A') (R : rel B C) (f : B → A → M B) f' l l' b b' :
  lst Q l l' → R b b' →
  (∀ x x' b b', x ∈ l → Q x x' → R b b' → realises R (f b x) (λ id me, f' id me (b' me) (x' me))) →
  realises R (Share.mfold f l b) (λ id me, AtParty.mfold (f' id me) (l' me) (b' me)).
Proof.
  intros (ls & Hls & Hl) Hb Hf.
  apply (realises_ext _ _ (λ id me, AtParty.mfold (f' id me) (map (λ x', x' me) ls) (b' me)));
    [intros id me s k Hme; by rewrite Hl|]. clear l' Hl. revert b b' Hb.
  induction Hls as [|x x' l ls Hx _ IH]; intros b b' Hb; cbn [Share.mfold AtParty.mfold map]; [by apply realises_ret|].
  apply (realises_bind R R _ (λ id me, f' id me (b' me) (x' me)) _ (λ id me b, AtParty.mfold (f' id me) (map (λ x', x' me) ls) b));
    [apply Hf; [by left|done|done]|]. intros c c' Hc. apply IH; [|done]. intros y y' d d' Hy. apply Hf. by right.
Qed.

Lemma realises_vec_at {A A'} (Q : rel A A') l l' i : lst Q l l' →
  realises Q (Share.lift (vec_at l i)) (λ _ me, AtParty.lift (vec_at (l' me) i)).
Proof.
  intros (ls & Hls & Hl). unfold vec_at. destruct (i <? 0)%Z; [by intros w a w' j|].
  destruct (l !! Z.to_nat i) as [x|] eqn:Hx; [|by intros w a w' j].
  destruct (Forall2_lookup_l _ _ _ _ _ Hls Hx) as (x' & Hx' & HQ).
  eapply realises_ext; [|by apply (realises_ret Q x x')]. intros id me s k Hme.
  rewrite Hl by done. change map with (@fmap list _). by rewrite list_lookup_fmap, Hx'.
Qed.

(** A loop that keeps the invariant [I] of the joint run. *)
Lemma realises_at_mfold {B C} (R : rel B C) (I : nat → B → World → Prop) (f : B → nat → M B) f' k len b b' w :
  I k b w → R b b' →
  (∀ i b b' w, k ≤ i < k + len → I i b w → R b b' →
     SharePF.runs (f b i) w (I (S i)) ∧ realises_at w R (f b i) (λ id me, f' id me (b' me) i)) →
  realises_at w R (Share.mfold f (seq k len) b) (λ id me, AtParty.mfold (f' id me) (seq k len) (b' me)).
Proof.
  revert k b b' w. induction len as [|len IH]; intros k b b' w HI Hb Hf; cbn [seq Share.mfold AtParty.mfold].
  - by apply realises_ret.
  - destruct (Hf k b b' w ltac:(lia) HI Hb) as [Hr Hl].
    eapply (realises_at_bind_runs w _ R R _ (λ id me, f' id me (b' me) k) _ (λ id me b, AtParty.mfold (f' id me) (seq (S k) len) b));
      [exact Hr|exact Hl|]. intros c c' w1 HI1 Hc. apply IH; [done|done|]. intros i d d' w2 Hi. apply Hf. lia.
Qed.

(** What all parties know may be taken as a constant of the rest. *)
Lemma realises_bind_pub {A C D} (Q : rel C D) (m : M A) l f f' :
  realises pub m l → (∀ a, realises Q (f a) (λ id me, f' id me a)) →
  realises Q (Share.bind m f) (λ id me, AtParty.bind (l id me) (f' id me)).
Proof.
  intros Hm Hf. eapply realises_bind; [exact Hm|]. intros a a' Ha.
  eapply realises_ext; [|apply Hf]. intros id me s k Hme. cbv beta. by rewrite Ha.
Qed.

Lemma realises_throw {A B} (R : rel A B) e l : realises R (Share.throw e) l.
Proof. intros w a w' i. discriminate. Qed.

(** A step that only computes. *)
Lemma realises_lift {A} (r : result A) r' : pub r r' → realises pub (Share.lift r) (λ _ me, AtParty.lift (r' me)).
Proof.
  intros Hr. unfold Share.lift. destruct r as [a|e]; [|by intros w a w' i].
  eapply realises_ext; [|apply (realises_ret pub a (λ _, a)); done]. intros id me s k Hme. unfold AtParty.lift. by rewrite Hr.
Qed.

Lemma realises_bind_lift {A C D} (Q : rel C D) (r : result A) f f' :
  (∀ a, r = Ok a → realises Q (f a) (λ id me, f' id me a)) →
  realises Q (Share.bind (Share.lift r) f) (λ id me, AtParty.bind (AtParty.lift r) (f' id me)).
Proof.
  intros Hf w b w' i Hrun. unfold Share.bind, Share.lift in Hrun. apply rbind_Ok_inv in Hrun as ([a w1] & H1 & H2).
  destruct r as [a1|e]; [|done]. cbn in H1. injection H1 as <- <-. by apply (Hf a1 eq_refl w b w' i).
Qed.


Lemma realises_mmap {A B C} (R : rel B C) (f : A → M B) f' l :
  (∀ x, x ∈ l → realises R (f x) (λ id me, f' id me x)) →
  realises (lst R) (Share.mmap f l) (λ id me, AtParty.mmap (f' id me) l).
Proof.
  induction l as [|x l IH]; intros Hf; cbn [Share.mmap AtParty.mmap]; [apply (realises_ret _ _ (λ _, [])), lst_nil|].
  apply (realises_bind R (lst R) _ (λ id me, f' id me x) _
    (λ id me y, AtParty.bind (AtParty.mmap (f' id me) l) (λ ys, AtParty.ret (y :: ys)))); [apply Hf; by left|].
  intros y y' Hy. apply (realises_bind (lst R) (lst R) _ (λ id me, AtParty.mmap (f' id me) l) _
    (λ id me ys, AtParty.ret (y' me :: ys))); [apply IH; intros z Hz; apply Hf; by right|].
  intros ys ys' Hys. apply (realises_ret (lst R) _ (λ me, y' me :: ys' me)). by apply lst_cons.
Qed.

Lemma realises_mfold {A B C} (R : rel B C) (f : B → A → M B) f' l b b' :
  (∀ b b' x, R b b' → realises R (f b x) (λ id me, f' id me (b' me) x)) → R b b' →
  realises R (Share.mfold f l b) (λ id me, AtParty.mfold (f' id me) l (b' me)).
Proof.
  intros Hf. revert b b'. induction l as [|x l IH]; intros b b' Hb; cbn [Share.mfold AtParty.mfold]; [by apply realises_ret|].
  apply (realises_bind R R _ (λ id me, f' id me (b' me) x) _ (λ id me b, AtParty.mfold (f' id me) l b)); [by apply Hf|].
  intros c c' Hc. by apply IH.
Qed.

(** *** Random numbers *)

Lemma realises_getRand mn mx : (0 ≤ mn < mx)%Z → (mx < 2 ^ 63)%Z →
  realises sh (Share.getRand mn mx) (λ _ me, AtParty.l_getRand me mn mx).
Proof.
  intros H1 H2 w. destruct (getRand_runs mn mx w H1 H2) as (x & w1 & Hrun & Hx).
  apply (realises_at_run w (λ x _, SharePF.Shares x (Zsum x)) part); [exists x, w1; by split; [|apply Hx]|apply realises_draw|].
  intros a a' _ (_ & Hw & _) Ha. by apply sh_intro.
Qed.

(** *** Openings *)

Lemma lst_sh_Shares xs xs' : lst sh xs xs' → Forall2 SharePF.Shares xs (map Zsum xs).
Proof. intros (ls & Hls & _). induction Hls as [|x x' l ls Hx _ IH]; constructor; [by eapply sh_Shares|done]. Qed.

Lemma recons_vec_sh me xs xs' : lst sh xs xs' → recons_vec_at me xs = Ok (map (λ v, v mod PrimeField.p)%Z (map Zsum xs)).
Proof. intros Hx. by eapply recons_vec_ok, lst_sh_Shares. Qed.

Lemma realises_open_vec xs xs' : lst sh xs xs' →
  realises pub (Share.open_recons_vec xs) (λ id me, AtParty.l_open_vec id me (xs' me)).
Proof.
  intros Hx w. eapply realises_at_open_vec; [by apply lst_sh_full|]. intros me _. by eapply recons_vec_sh.
Qed.

Lemma realises_open x x' : sh x x' → realises pub (Share.open_recons x) (λ id me, AtParty.l_open id me (x' me)).
Proof.
  intros Hx w. eapply realises_at_open; [by apply part_sh|]. intros me _. by apply recons_ok, (sh_Shares x x').
Qed.

(** *** Products *)

Lemma getTriples_pf {B} (l : list B) (w : World) :
  Share.mmap (λ _, getTriple1) l w
  = Ok (replicate (length l) triple_pf, mkWorld (all_draws w) (sp_draws w) (Share.triples w + length l)).
Proof.
  revert w. induction l as [|x l IH]; intros w; cbn [Share.mmap length replicate]; [rewrite Nat.add_0_r; by destruct w|].
  unfold Share.bind, getTriple1 at 1. rewrite triple_at_ok. cbn [rbind]. rewrite IH. cbn. unfold Share.ret. do 3 f_equal. lia.
Qed.

Lemma realises_mul x y x' y' : sh x x' → sh y y' →
  realises sh (Share.s_mul x y) (λ id me, AtParty.l_mul id me (x' me) (y' me)).
Proof.
  intros Hx Hy w. pose proof (sh_Shares x x' Hx) as Sx. pose proof (sh_Shares y y' Hy) as Sy.
  destruct (s_mul_eq x y _ _ w Sx Sy) as (w1 & Hrun & Hz & _).
  apply (realises_at_run w (λ z _, SharePF.Shares z (Zsum x * Zsum y)%Z) part); [by eexists _, w1| |].
  - eapply (realises_at_mul w x y x' y' triple_pf); [by apply part_sh|by apply part_sh|apply triple_at_ok|].
    intros me _. exact (recons_vec_ok me _ _ (masked_operands x y _ _ Sx Sy)).
  - intros a a' _ (_ & Hw & _) Ha. by apply sh_intro.
Qed.

Lemma v_mul_lengths xs ys w zs w' : Share.v_mul xs ys w = Ok (zs, w') → length xs = length ys.
Proof. unfold Share.v_mul. destruct (Nat.eqb_spec (length xs) (length ys)); [done|discriminate]. Qed.

Lemma masked_sh xs xs' n c : PrimeField.wf c → lst sh xs xs' → n = length xs →
  ∃ ms', lst sh (zip_with (λ x (abc : sharing * sharing * sharing), s_sub x (s_lit c)) xs (replicate n triple_pf)) ms'.
Proof.
  intros Hc Hx ->. eexists. apply (lst_zip_with sh (λ a a', a' = λ _, ()) sh (λ x _, s_sub x (s_lit c))
    (λ me x _, PrimeField.sub x c) xs (replicate (length xs) triple_pf) xs' (λ _, replicate (length xs) ())).
  - intros x t x' t' Hx' _. apply (sh_sub x (s_lit c) x' (λ _, c)); [done|]. by apply sh_lit.
  - done.
  - exists (replicate (length xs) (λ _, ())). split; [apply Forall2_replicate; done|]. intros me _.
    change map with (@fmap list _). by rewrite fmap_replicate.
Qed.

Lemma beaver_Shares d e : ∃ v, SharePF.Shares (beaver triple_pf (d, e)) v.
Proof.
  eexists. apply (beaver_ok (d + Z.of_nat n_parties) (e + Z.of_nat n_parties)); unfold PrimeField.cong; f_equal; lia.
Qed.

Lemma beavers_wf n des : Forall (Forall PrimeField.wf) (zip_with beaver (replicate n triple_pf) des).
Proof.
  apply Forall_forall. intros z (i & t & [d e] & -> & Ht & _)%elem_of_lookup_zip_with.
  apply lookup_replicate in Ht as [-> _]. by destruct (beaver_Shares d e) as (v & _ & Hw & _).
Qed.

Lemma triples_pf k n : Forall2 (λ i t, triple_at i = Ok t) (seq k n) (replicate n triple_pf).
Proof. revert k. induction n as [|n IH]; intros k; cbn; constructor; [apply triple_at_ok|apply IH]. Qed.

Lemma realises_v_mul xs ys xs' ys' : lst sh xs xs' → lst sh ys ys' →
  realises (lst sh) (Share.v_mul xs ys) (λ id me, AtParty.l_v_mul id me (xs' me) (ys' me)).
Proof.
  intros Hx Hy w. destruct (Nat.eqb_spec (length xs) (length ys)) as [Hl|Hne]; [|intros zs w' i H; by apply v_mul_lengths in H].
  set (n := length xs). set (ts := replicate n triple_pf).
  set (de := zip_with (λ x (abc : sharing * sharing * sharing), s_sub x abc.1.1) xs ts
             ++ zip_with (λ y (abc : sharing * sharing * sharing), s_sub y abc.1.2) ys ts).
  assert (∃ ms', lst sh de ms') as (ms' & Hde).
  { destruct (masked_sh xs xs' n 1 wf_1 Hx eq_refl) as (m1 & H1). destruct (masked_sh ys ys' n 1 wf_1 Hy Hl) as (m2 & H2).
    eexists. unfold de, ts. apply lst_app.
    - rewrite (zip_with_replicate_ext _ (λ x _, s_sub x (s_lit 1))) by done. exact H1.
    - rewrite (zip_with_replicate_ext (λ y abc, s_sub y abc.1.2) (λ x _, s_sub x (s_lit 1))) by done. exact H2. }
  set (des := map (λ v, v mod PrimeField.p)%Z (map Zsum de)).
  set (zs := zip_with beaver ts (zip (take n des) (drop n des))).
  assert (Share.v_mul xs ys w = Ok (zs, mkWorld (all_draws w) (sp_draws w) (Share.triples w + n))) as Hrun.
  { unfold Share.v_mul. fold n. rewrite (proj2 (Nat.eqb_eq n (length ys)) Hl). cbn [negb].
    unfold Share.bind, Share.getTriple. rewrite getTriples_pf, length_seq. cbn [rbind].
    fold ts de. unfold Share.open_recons_vec, Share.lift. by rewrite (recons_vec_sh _ de ms' Hde). }
  apply (realises_at_run w (λ z _, z = zs) (lst part)); [by eexists _, _| |].
  - apply (realises_at_v_mul w xs ys xs' ys' ts des); [by apply lst_part_sh|by apply lst_part_sh|done|apply triples_pf| |exact Hrun].
    intros me _. by eapply recons_vec_sh.
  - intros a a' _ -> Ha. apply lst_sh_part; [done|apply beavers_wf].
Qed.

(** *** Sharing *)

Lemma realises_sharize secret secret' : at_sp secret secret' →
  realises sh (Share.sharize secret) (λ id me, AtParty.l_sharize id me (secret' me)).
Proof.
  intros Hs w. destruct (sharize_runs secret w) as (x & w1 & Hrun & Hx & _).
  apply (realises_at_run w (λ x _, SharePF.Shares x secret) part); [by exists x, w1|by apply realises_share|].
  intros a a' _ (_ & Hw & _) Ha. by apply sh_intro.
Qed.
End Rules.

#[export] Hint Resolve sh_add sh_sub sh_neg sh_mulc sh_addc sh_c_sub sh_zero lst_nil lst_cons lst_app
  lst_take lst_drop lst_removelast lst_concat pub_const : local.
(** ** What programs that realise a joint protocol compute *)

Section Runs.
Context `{E : Env} `{V : !ValidEnv E}.

Lemma realised_runs {A B} w (R : rel A B) m l z w' :
  realises_at (Res := B) w R m l → m w = Ok (z, w') → ∃ z', R z z' ∧ over_the_network w l z'.
Proof.
  intros Hm Hrun. destruct (Hm z w' 0 Hrun) as (z' & ns & Hz & Hns & Hid). exists z'. split; [done|].
  exists (length (concat ns)). rewrite <- Hns. intros id boxes Hth Hnd Hf. destruct (Hid id Hth Hnd) as (tr & Hu & Hl).
  rewrite concat_map in Hnd, Hf. eapply run_under; [|exact Hu|done|done]. rewrite <- (app_nil_r tr).
  apply (Hl [] (λ me a _, Ret a)). constructor.
Qed.

Lemma over_the_network_ext {B} w (l : (nat → AddressId) → nat → AtParty.L (R := B) B) z z' :
  (∀ me, me ∈ parties → z' me = z me) → over_the_network w l z → over_the_network w l z'.
Proof.
  intros Hz (n & Hn). exists n. intros id boxes Hth Hnd Hf s Hs. destruct (Hn id boxes Hth Hnd Hf s Hs) as (Hr & s' & Hs' & He).
  split; [|exists s'; split; [done|]]; intros me; intros; rewrite Hz by done; auto.
Qed.

(** The addresses of the shares of one job, and an end of the run with them. *)
Definition job_address (i : nat) : AddressId := mkAddress (Z.of_nat i) 1 0.

Lemma over_the_network_ends {B} w (l : (nat → AddressId) → nat → AtParty.L (R := B) B) z : over_the_network w l z →
  ∃ s', rtc step (start (λ me, l job_address me (pos_at w 0 me) (λ a _, Ret a)) (λ _, ∅)) s'
    ∧ ∀ me, me ∈ parties → program (s' me) = Ret (z me).
Proof.
  intros (n & Hn). apply (Hn job_address (λ _, ∅)); [done| | |apply rtc_refl].
  - apply NoDup_fmap_2; [|apply NoDup_seq]. by intros i j [= ?%Nat2Z.inj].
  - intros me pt a _. apply lookup_empty.
Qed.
End Runs.
