(* ===== verification/RoundsCompare.v ===== *)
(** * The comparison protocols over the network  (Share/Compare.cpp)

    [Compare.v] states the comparison protocols on the shares of all parties;
    here are the programs that each party runs for them, statement by statement,
    with its own shares, triples and random numbers and with messages for all that
    it learns of the others.  One [realises] lemma per protocol relates the two;
    the theorems at the end follow from them and from [CompareMain.v]. *)
From stdpp Require Import base list numbers sets strings gmap relations.
From Stdlib Require Import ZArith Lia.
From S2P Require Import Prelude Field Random TripleHandler Share SharePF Compare CompareCorrect CompareMain Mailbox Rounds RoundsDivision RoundsVector RoundsRealises.
Import Address Message Server.
#[local] Open Scope Z_scope.
#[local] Open Scope qmpc_scope.

Module AtPartyCompare.
Import PrimeField Compare AtParty.

Section Programs.
Context `{IO : IntegerIO} `{E : Env} {R : Type} (id : nat → AddressId) (me : nat).
#[local] Existing Instance pf_value.
#[local] Existing Instance pf_text.
#[local] Abbreviation L := (@L R).
#[local] Abbreviation l_mul := (l_mul (R := R) id me).
#[local] Abbreviation l_v_mul := (l_v_mul (R := R) id me).
#[local] Abbreviation l_open := (l_open (R := R) id me).
#[local] Abbreviation l_open_vec := (l_open_vec (R := R) id me).
#[local] Abbreviation l_addc := (l_addc me).
#[local] Abbreviation l_c_sub := (l_c_sub me).

Definition l_at (xs : list Z) (i : nat) : Z := nth i xs 0.

Definition l_subRNS : L Z := l_getRand me RandGenerator.default_min RandGenerator.default_max.

Fixpoint l_subRBS (fuel : nat) : L Z :=
  match fuel with
  | O => throw OutOfFuel
  | S fuel =>
      let& r := l_subRNS in
      let& square_r := l_mul r r in
      let& square_r_rec := l_open square_r in
      if negb (getVal square_r_rec =? 0) then
        let& r_dash := lift (modsqrt square_r_rec) in
        let& inv_r_dash := lift (getInv_checked r_dash) in
        ret (mul (l_addc (mul r inv_r_dash) 1) inverse_of_two)
      else l_subRBS fuel
  end.

Definition l_subRBVS (fuel : nat) : L (list Z) := mmap (λ _, l_subRBS fuel) (seq 0 l).

Definition l_f65 (coefficient : list Z) (A_shares : list Z) : Z :=
  let ans := fold_left (λ ans i,
               add ans (mul (l_at A_shares (i - 1)) (nth i coefficient 0)))
             (seq 1 l) 0 in
  l_addc ans (nth 0 coefficient 0).

Fixpoint l_unblind (tmp : Z) (c_recons : list Z) (b_shares : list Z) : list Z :=
  match c_recons, b_shares with
  | c :: c_recons, b :: b_shares =>
      let tmp := mul tmp c in mul b tmp :: l_unblind tmp c_recons b_shares
  | _, _ => []
  end.

Definition l_subUnboundedFanIn (coefficient : list Z) (a_shares : list Z) : L Z :=
  let A_share := l_addc (fold_left (λ A i, add A (l_at a_shares i)) (seq 0 l) 0) 1 in
  let& bs := mmap (λ _, let& b := l_subRNS in let& b_dash := l_subRNS in ret (b, b_dash))
               (seq 0 l) in
  let b_shares := map fst bs in
  let b_dash_shares := map snd bs in
  let& B_shares := l_v_mul b_shares b_dash_shares in
  let& B_recons := l_open_vec B_shares in
  let& B_inv := lift (traverse getInv_checked B_recons) in
  let b_inverse_shares := zip_with (λ i b, mul b i) B_inv b_dash_shares in
  let& c_shares := l_v_mul (replicate l A_share) b_inverse_shares in
  let& n_inv := lift (getInv_checked (Z.of_nat n_parties)) in
  let tmp_b_shares := n_inv :: removelast b_shares in
  let& c_shares := l_v_mul c_shares tmp_b_shares in
  let& c_recons := l_open_vec c_shares in
  ret (l_f65 coefficient (l_unblind 1 c_recons b_shares)).
Definition l_subUnboundedFanInOr : list Z → L Z := l_subUnboundedFanIn f_65_or_coefficient.
Definition l_subUnboundedFanInAnd : list Z → L Z := l_subUnboundedFanIn f_65_and_coefficient.

Definition l_subPadding0 (a_shares : list Z) (start_index : nat) : list Z :=
  map (λ i, if (i <? Nat.min start_index l)%nat then l_at a_shares i else 0) (seq 0 l).

Definition l_block (a_shares : list Z) (i : nat) : list Z :=
  let tmp := take lambda (drop (i * lambda) a_shares) in
  tmp ++ replicate (l - length tmp) 0.

Definition l_subPrefixOr (a_shares : list Z) : L (list Z) :=
  let& x_shares := mmap (λ i, l_subUnboundedFanInOr (l_block a_shares i)) (seq 0 lambda) in
  let& y_shares := mmap (λ i, l_subUnboundedFanInOr (l_subPadding0 x_shares (i + 1))) (seq 0 lambda) in
  let f_shares := map (λ i, if (i =? 0)%nat then l_at x_shares 0
                            else sub (l_at y_shares i) (l_at y_shares (i - 1))) (seq 0 lambda) in
  let& ai0_shares := mmap (λ j,
      mfold (λ acc i, let& t := l_mul (l_at f_shares i) (l_at a_shares (lambda * i + j)) in
                      ret (add acc t)) (seq 0 lambda) 0) (seq 0 lambda) in
  let& bi0_shares := mmap (λ j, l_subUnboundedFanInOr (l_subPadding0 ai0_shares (j + 1))) (seq 0 lambda) in
  let s_shares := map (λ i, sub (l_at y_shares i) (l_at f_shares i)) (seq 0 lambda) in
  let& ret_ := mmap (λ i, mmap (λ j,
      let& t := l_mul (l_at f_shares i) (l_at bi0_shares j) in
      ret (add t (l_at s_shares i))) (seq 0 lambda)) (seq 0 lambda) in
  ret (concat ret_).

Definition l_subBitwiseLessThan (a_shares b_shares : list Z) : L Z :=
  let& ab_shares := l_v_mul a_shares b_shares in
  let c_shares := map (λ i, sub (add (l_at a_shares i) (l_at b_shares i))
                              (mul (l_at ab_shares i) 2)) (seq 0 l) in
  let& d_shares := l_subPrefixOr c_shares in
  let e_shares := map (λ i, if (i =? 0)%nat then l_at d_shares 0
                            else sub (l_at d_shares i) (l_at d_shares (i - 1))) (seq 0 l) in
  let& eb := l_v_mul e_shares b_shares in
  ret (fold_left (λ acc i, add acc (l_at eb i)) (seq 0 l) 0).

Definition l_BStoSC (a_shares : list Z) : Z :=
  fst (fold_left (λ '(acc, coef) i, (add acc (mul (l_at a_shares i) coef), mul coef 2))
         (rev (seq 0 l)) (0, 1)).

Definition l_share_bit (bit : Z) : L Z :=
  let& r := l_getRand me RandGenerator.default_min RandGenerator.default_max in
  let& s := l_sharize id me r in
  ret (if (me =? sp_id)%nat then add (sub bit r) s else s).

Fixpoint l_PFtoBS_loop (k : nat) (y : Z) (bit_shares : list Z) : L (list Z) :=
  match k with
  | O => ret bit_shares
  | S k => let& b := l_share_bit (y mod 2) in l_PFtoBS_loop k (y / 2) (b :: bit_shares)
  end.
Definition l_PFtoBS (x : Z) : L (list Z) := l_PFtoBS_loop l (getVal x) [].

Definition l_subHalfLessThan (fuel : nat) (a_share : Z) : L Z :=
  let& r_shares := l_subRBVS fuel in
  let r_share := l_BStoSC r_shares in
  let c_share := add (mul a_share 2) r_share in
  let& c := l_open c_share in
  let& c_shares := l_PFtoBS c in
  let& cr := l_subBitwiseLessThan c_shares r_shares in
  let r0 := l_at r_shares (l - 1) in
  let& ret_ :=
    if getVal c mod 2 =? 0 then
      let& t := l_mul cr (l_c_sub 1 r0) in
      let& u := l_mul (l_c_sub 1 cr) r0 in ret (add t u)
    else
      let& t := l_mul cr r0 in
      let& u := l_mul (l_c_sub 1 cr) (l_c_sub 1 r0) in ret (add t u) in
  ret (l_c_sub 1 ret_).

Definition l_intervalTest (fuel : nat) (c1 : Z) (a_share : Z) (c2 : Z) : L Z :=
  let& r_shares := l_subRBVS fuel in
  let r_share := l_BStoSC r_shares in
  let& c := l_open (add a_share r_share) in
  let& pp := lift (make p) in
  let test r_low r_high :=
    let& r_lows := l_PFtoBS r_low in
    let& r_highs := l_PFtoBS r_high in
    let& t := l_subBitwiseLessThan r_lows r_shares in
    let& u := l_subBitwiseLessThan r_shares r_highs in
    l_mul t u in
  if ltb c1 c && ltb c c2 then
    let& t := test (sub (sub c c1) 1) (add (sub (add c pp) c2) 1) in
    ret (l_c_sub 1 t)
  else if negb (ltb c c2) then test (sub c c2) (sub c c1)
  else if negb (ltb c1 c) then test (sub (add c pp) c2) (sub (add c pp) c1)
  else test 0 0.

Definition l_comparisonTest (fuel : nat) (a_share b_share : Z) : L Z :=
  let& w := l_subHalfLessThan fuel a_share in
  let& x := l_subHalfLessThan fuel b_share in
  let& y := l_subHalfLessThan fuel (sub a_share b_share) in
  let& xy := l_mul x y in
  let& t := l_mul w (sub (add x y) (mul xy 2)) in
  ret (add (sub (sub (l_addc t 1) y) x) xy).

Fixpoint l_xnor_loop (k : nat) (x : Z) (r_shares c_dash : list Z) : list Z :=
  match k with
  | O => c_dash
  | S k =>
      let r := l_at r_shares k in
      l_xnor_loop k (Z.shiftr x 1) r_shares
        ((if x mod 2 =? 1 then r else l_c_sub 1 r) :: c_dash)
  end.

Definition l_equalityTest (fuel : nat) (a_share b_share : Z) : L Z :=
  let& r_shares := l_subRBVS fuel in
  let r_share := l_BStoSC r_shares in
  let& c := l_open (add (sub a_share b_share) r_share) in
  l_subUnboundedFanInAnd (l_xnor_loop l (getVal c) r_shares []).
End Programs.
End AtPartyCompare.

(** * Lemmas *)

Section Realised.
Context `{IO : IntegerIO} `{E : Env} `{V : !ValidEnv E} {Res : Type}.
#[local] Existing Instance pf_value.
#[local] Existing Instance pf_text.
#[local] Abbreviation realises := (realises (Res := Res)).
Import Compare AtPartyCompare.

Lemma sh_at xs xs' i : lst sh xs xs' → sh (at_ xs i) (λ me, l_at (xs' me) i).
Proof. intros Hx. apply (lst_nth sh xs xs' i s_zero (λ _, 0)); [apply sh_closed|done|apply sh_zero]. Qed.

(** Fold of additions, as in the sums of the protocols. *)
Lemma sh_sum (g : nat → sharing) (g' : nat → nat → Z) js x x' :
  (∀ i, sh (g i) (λ me, g' me i)) → sh x x' →
  sh (fold_left (λ acc i, s_add acc (g i)) js x) (λ me, fold_left (λ acc i, PrimeField.add acc (g' me i)) js (x' me)).
Proof.
  intros Hg. apply (lst_fold_left sh (λ acc i, s_add acc (g i)) (λ me acc i, PrimeField.add acc (g' me i))).
  intros b b' i Hb. by apply sh_add.
Qed.

Lemma sh_lit0 : sh (s_lit 0) (λ _, 0).
Proof. apply sh_zero. Qed.
Lemma sh_if (b : bool) x y x' y' : sh x x' → sh y y' → sh (if b then x else y) (λ me, if b then x' me else y' me).
Proof. by destruct b. Qed.
#[local] Hint Resolve sh_at sh_sum sh_lit0 sh_if : local.

Ltac known := eauto 12 with local.

Lemma realises_subRNS : realises sh subRNS (λ _ me, l_subRNS me).
Proof. apply realises_getRand; unfold RandGenerator.default_min, RandGenerator.default_max; lia. Qed.

Lemma realises_subRBS fuel : realises sh (subRBS fuel) (λ id me, l_subRBS id me fuel).
Proof.
  induction fuel as [|fuel IH]; cbn [subRBS l_subRBS]; [apply realises_throw|].
  eapply realises_bind; [apply realises_subRNS|]. intros r r' Hr.
  eapply realises_bind; [by apply realises_mul|]. intros q q' Hq.
  eapply realises_bind_pub; [by apply realises_open|]. intros c. destruct (negb _); [|exact IH].
  apply realises_bind_lift. intros d _.
  apply realises_bind_lift. intros e _.
  eapply realises_ret. known.
Qed.

Lemma realises_subRBVS fuel : realises (lst sh) (subRBVS fuel) (λ id me, l_subRBVS id me fuel).
Proof.
  unfold subRBVS, l_subRBVS. apply (realises_mmap sh _ (λ id me _, l_subRBS id me fuel) (seq 0 PrimeField.l)).
  intros x _. apply realises_subRBS.
Qed.

(** *** The fan-in gates *)

Lemma sh_f65 cs xs xs' : lst sh xs xs' → sh (f65 cs xs) (λ me, l_f65 me cs (xs' me)).
Proof. intros Hx. apply sh_addc; [|apply pub_const]. apply sh_sum; known. Qed.

Lemma lst_unblind tmp cs bs bs' : lst sh bs bs' → lst sh (unblind tmp cs bs) (λ me, l_unblind tmp cs (bs' me)).
Proof.
  intros (ls & Hls & Hl). eapply lst_closed; [|intros me Hme; by rewrite Hl]. clear Hl. revert tmp cs.
  induction Hls as [|b b' bs ls Hb _ IH]; intros tmp [|c cs]; try apply lst_nil.
  apply (lst_cons sh _ _ (λ me, PrimeField.mul (b' me) (PrimeField.mul tmp c))
    (λ me, l_unblind (PrimeField.mul tmp c) cs (map (λ f, f me) ls))); [|apply IH]. known.
Qed.

Lemma lst_fst xs xs' : lst (pair sh sh) xs xs' → lst sh (map fst xs) (λ me, map fst (xs' me)).
Proof. apply (lst_map (pair sh sh) sh fst (λ _, fst)). by intros x x' []. Qed.
Lemma lst_snd xs xs' : lst (pair sh sh) xs xs' → lst sh (map snd xs) (λ me, map snd (xs' me)).
Proof. apply (lst_map (pair sh sh) sh snd (λ _, snd)). by intros x x' []. Qed.

Lemma lst_mulc cs bs bs' : lst sh bs bs' →
  lst sh (zip_with (λ i b, s_mulc b i) cs bs) (λ me, zip_with (λ i b, PrimeField.mul b i) cs (bs' me)).
Proof.
  intros Hb. apply (lst_zip_with pub sh sh (λ i b, s_mulc b i) (λ _ i b, PrimeField.mul b i) cs bs (λ _, cs) bs');
    [|apply lst_pub|done]. intros c b c' b' Hc Hb'. by apply sh_mulc.
Qed.
#[local] Hint Resolve sh_f65 lst_unblind lst_fst lst_snd lst_mulc : local.

Lemma getInv_checked_wf x y : PrimeField.getInv_checked x = Ok y → PrimeField.wf y.
Proof.
  unfold PrimeField.getInv_checked. intros (z & _ & Hz)%rbind_Ok_inv. unfold PrimeField.make in Hz.
  destruct (_ || _); [done|]. injection Hz as <-. apply PrimeFieldFacts.canonical_wf, PrimeFieldFacts.canonical_mod.
Qed.

Lemma realises_subUnboundedFanIn cs xs xs' : lst sh xs xs' →
  realises sh (subUnboundedFanIn (f65 cs) xs) (λ id me, l_subUnboundedFanIn id me cs (xs' me)).
Proof.
  intros Hx. unfold subUnboundedFanIn, l_subUnboundedFanIn.
  assert (sh (s_addc (fold_left (λ A i, s_add A (at_ xs i)) (seq 0 PrimeField.l) (s_lit 0)) 1)
    (λ me, AtParty.l_addc me (fold_left (λ A i, PrimeField.add A (l_at (xs' me) i)) (seq 0 PrimeField.l) 0) 1)) as HA.
  { apply sh_addc; [|apply pub_const]. apply sh_sum; known. }
  eapply (realises_bind (lst (pair sh sh))).
  { eapply realises_mmap. intros i _. eapply realises_bind; [apply realises_subRNS|]. intros b b' Hb.
    eapply realises_bind; [apply realises_subRNS|]. intros d d' Hd. eapply realises_ret. by split. }
  intros bs bs' Hbs. eapply realises_bind; [apply realises_v_mul; known|]. intros Bs Bs' HBs.
  eapply realises_bind_pub; [by apply realises_open_vec|]. intros Br.
  apply realises_bind_lift. intros Bi _.
  eapply realises_bind; [apply realises_v_mul; [apply lst_replicate; [apply pub_const|exact HA]|known]|]. intros c1 c1' Hc1.
  apply realises_bind_lift. intros n Hn.
  eapply realises_bind; [apply realises_v_mul; [exact Hc1|]|].
  { apply lst_cons; [apply sh_lit; [by eapply getInv_checked_wf|done]|known]. }
  intros c2 c2' Hc2. eapply realises_bind_pub; [by apply realises_open_vec|]. intros cr.
  eapply realises_ret. known.
Qed.

Lemma realises_fan_in_or xs xs' : lst sh xs xs' →
  realises sh (subUnboundedFanInOr xs) (λ id me, l_subUnboundedFanInOr id me (xs' me)).
Proof. apply realises_subUnboundedFanIn. Qed.
Lemma realises_fan_in_and xs xs' : lst sh xs xs' →
  realises sh (subUnboundedFanInAnd xs) (λ id me, l_subUnboundedFanInAnd id me (xs' me)).
Proof. apply realises_subUnboundedFanIn. Qed.

(** *** Prefix-or and bit-wise less-than *)

Lemma lst_padding xs xs' k : lst sh xs xs' → lst sh (subPadding0 xs k) (λ me, l_subPadding0 (xs' me) k).
Proof.
  intros Hx. apply (lst_map_list sh _ (λ me i, if (i <? Nat.min k PrimeField.l)%nat then l_at (xs' me) i else 0)).
  intros i _. known.
Qed.

Lemma lst_block xs xs' i : lst sh xs xs' → lst sh (block xs i) (λ me, l_block (xs' me) i).
Proof.
  intros Hx. unfold block, l_block. apply lst_app; [known|]. apply lst_replicate; [|apply sh_zero].
  intros me Hme. by rewrite (lst_length sh _ (λ me, take PrimeField.lambda (drop (i * PrimeField.lambda) (xs' me)))) by known.
Qed.
#[local] Hint Resolve lst_padding lst_block : local.

(** Difference of neighbours. *)
Lemma lst_steps xs ys xs' ys' js : lst sh xs xs' → lst sh ys ys' →
  lst sh (map (λ i, if (i =? 0)%nat then at_ xs 0 else s_sub (at_ ys i) (at_ ys (i - 1))) js)
    (λ me, map (λ i, if (i =? 0)%nat then l_at (xs' me) 0
                     else PrimeField.sub (l_at (ys' me) i) (l_at (ys' me) (i - 1))) js).
Proof.
  intros Hx Hy. apply (lst_map_list sh _ (λ me i, if (i =? 0)%nat then l_at (xs' me) 0
    else PrimeField.sub (l_at (ys' me) i) (l_at (ys' me) (i - 1)))). intros i _. known.
Qed.

Lemma realises_subPrefixOr xs xs' : lst sh xs xs' →
  realises (lst sh) (subPrefixOr xs) (λ id me, l_subPrefixOr id me (xs' me)).
Proof.
  intros Hx. unfold subPrefixOr, l_subPrefixOr.
  eapply (realises_bind (lst sh)); [eapply realises_mmap; intros i _; apply realises_fan_in_or; known|]. intros bs bs' Hbs.
  eapply (realises_bind (lst sh)); [eapply realises_mmap; intros i _; apply realises_fan_in_or; known|]. intros ys ys' Hys.
  pose proof (lst_steps bs ys bs' ys' (seq 0 PrimeField.lambda) Hbs Hys) as Hfs.
  eapply (realises_bind (lst sh)).
  { eapply realises_mmap. intros j _. eapply (realises_mfold sh _ (λ id me acc i, _)); [|apply sh_lit0].
    intros acc acc' i Ha. eapply realises_bind; [apply realises_mul; known|]. intros t t' Ht. eapply realises_ret. known. }
  intros cs cs' Hcs.
  eapply (realises_bind (lst sh)); [eapply realises_mmap; intros i _; apply realises_fan_in_or; known|]. intros ds ds' Hds.
  eapply (realises_bind (lst (lst sh))).
  { eapply realises_mmap. intros i _. eapply realises_mmap. intros j _.
    eapply realises_bind; [apply realises_mul; known|]. intros t t' Ht. eapply realises_ret. apply sh_add; [done|].
    apply sh_at. apply (lst_map_list sh _ (λ me i, PrimeField.sub (l_at (ys' me) i) (l_at (map (λ i, if (i =? 0)%nat then l_at (bs' me) 0
    else PrimeField.sub (l_at (ys' me) i) (l_at (ys' me) (i - 1))) (seq 0 PrimeField.lambda)) i))). intros k _. known. }
  intros es es' Hes. eapply realises_ret. known.
Qed.

Lemma realises_subBitwiseLessThan xs ys xs' ys' : lst sh xs xs' → lst sh ys ys' →
  realises sh (subBitwiseLessThan xs ys) (λ id me, l_subBitwiseLessThan id me (xs' me) (ys' me)).
Proof.
  intros Hx Hy. unfold subBitwiseLessThan, l_subBitwiseLessThan.
  eapply realises_bind; [by apply realises_v_mul|]. intros ps ps' Hps.
  eapply realises_bind.
  { eapply realises_subPrefixOr, (lst_map_list sh _ (λ me i, PrimeField.sub (PrimeField.add (l_at (xs' me) i) (l_at (ys' me) i))
      (PrimeField.mul (l_at (ps' me) i) 2))). intros i _. known. }
  intros ds ds' Hds. eapply realises_bind; [apply realises_v_mul; [by apply lst_steps|done]|]. intros es es' Hes.
  eapply realises_ret, sh_sum; known.
Qed.

(** *** Bits of public values *)

Lemma sh_BStoSC xs xs' : lst sh xs xs' → sh (BStoSC xs) (λ me, l_BStoSC (xs' me)).
Proof.
  intros Hx. unfold BStoSC, l_BStoSC.
  cut (∀ js a a' c, sh a a' →
    sh (fst (fold_left (λ '(acc, coef) i, (s_add acc (s_mulc (at_ xs i) coef), PrimeField.mul coef 2)) js (a, c)))
      (λ me, fst (fold_left (λ '(acc, coef) i, (PrimeField.add acc (PrimeField.mul (l_at (xs' me) i) coef), PrimeField.mul coef 2))
        js (a' me, c)))).
  { intros H. apply (H (rev (seq 0 PrimeField.l)) (s_lit 0) (λ _, 0) 1), sh_zero. }
  intros js. induction js as [|j js IH]; intros a a' c Ha; cbn [fold_left]; [done|].
  apply (IH (s_add a (s_mulc (at_ xs j) c)) (λ me, PrimeField.add (a' me) (PrimeField.mul (l_at (xs' me) j) c))). known.
Qed.

Lemma realises_share_bit bit : realises sh (share_bit bit) (λ id me, l_share_bit id me bit).
Proof.
  unfold share_bit, l_share_bit. eapply realises_bind; [apply realises_subRNS|]. intros r r' Hr.
  assert (r' sp_id = nth (sp_id - 1) r sv_zero) as Hsp by apply Hr, sp_party.
  eapply realises_bind; [by apply realises_sharize|]. intros s s' Hs.
  eapply realises_ret, (sh_at_sp (λ v, PrimeField.add (PrimeField.sub bit (nth (sp_id - 1) r sv_zero)) v) s s'
    (λ me v, PrimeField.add (PrimeField.sub bit (r' me)) v)); [| |done].
  - intros a. apply PrimeFieldFacts.canonical_wf, PrimeFieldFacts.add_canonical.
  - intros a. by rewrite Hsp.
Qed.

Lemma realises_PFtoBS_loop k y bits bits' : lst sh bits bits' →
  realises (lst sh) (PFtoBS_loop k y bits) (λ id me, l_PFtoBS_loop id me k y (bits' me)).
Proof.
  revert y bits bits'. induction k as [|k IH]; intros y bits bits' Hb; cbn [PFtoBS_loop l_PFtoBS_loop]; [by apply realises_ret|].
  eapply realises_bind; [apply realises_share_bit|]. intros b b' Hb'.
  apply (IH (y / 2) (b :: bits) (λ me, b' me :: bits' me)). known.
Qed.

Lemma realises_PFtoBS x : realises (lst sh) (PFtoBS x) (λ id me, l_PFtoBS id me x).
Proof.
  unfold PFtoBS, l_PFtoBS. generalize PrimeField.l. intros k. apply (realises_PFtoBS_loop k _ [] (λ _, [])), lst_nil.
Qed.
#[local] Hint Resolve sh_BStoSC : local.

(** *** The tests *)

Lemma realises_subHalfLessThan fuel x x' : sh x x' →
  realises sh (subHalfLessThan fuel x) (λ id me, l_subHalfLessThan id me fuel (x' me)).
Proof.
  intros Hx. unfold subHalfLessThan, l_subHalfLessThan. eapply realises_bind; [apply realises_subRBVS|]. intros rs rs' Hrs.
  eapply realises_bind_pub; [apply realises_open; known|]. intros c.
  eapply realises_bind; [apply realises_PFtoBS|]. intros cs cs' Hcs.
  eapply realises_bind; [by apply realises_subBitwiseLessThan|]. intros cr cr' Hcr.
  eapply realises_bind; [|intros z z' Hz; eapply realises_ret; known].
  destruct (_ =? _); (eapply realises_bind; [apply realises_mul; known|]; intros t t' Ht);
    (eapply realises_bind; [apply realises_mul; known|]; intros u u' Hu); eapply realises_ret; known.
Qed.

Lemma realises_intervalTest fuel c1 x x' c2 : sh x x' →
  realises sh (intervalTest fuel c1 x c2) (λ id me, l_intervalTest id me fuel c1 (x' me) c2).
Proof.
  intros Hx. unfold intervalTest, l_intervalTest. eapply realises_bind; [apply realises_subRBVS|]. intros rs rs' Hrs.
  eapply realises_bind_pub; [apply realises_open; known|]. intros c. apply realises_bind_lift. intros pp _.
  assert (∀ lo hi, realises sh (let* r_lows := PFtoBS lo in let* r_highs := PFtoBS hi in
      let* t := subBitwiseLessThan r_lows rs in let* u := subBitwiseLessThan rs r_highs in s_mul t u)
    (λ id me, let& r_lows := l_PFtoBS id me lo in let& r_highs := l_PFtoBS id me hi in
      let& t := l_subBitwiseLessThan id me r_lows (rs' me) in let& u := l_subBitwiseLessThan id me (rs' me) r_highs in
      AtParty.l_mul id me t u)) as Htest.
  { intros lo hi. do 2 (eapply realises_bind; [apply realises_PFtoBS|]; intros ? ? ?).
    do 2 (eapply realises_bind; [by apply realises_subBitwiseLessThan|]; intros ? ? ?). by apply realises_mul. }
  destruct (PrimeField.ltb c1 c && PrimeField.ltb c c2); [|repeat destruct (negb _); apply Htest].
  eapply realises_bind; [apply Htest|]. intros t t' Ht. eapply realises_ret. known.
Qed.

Lemma realises_comparisonTest fuel x y x' y' : sh x x' → sh y y' →
  realises sh (comparisonTest fuel x y) (λ id me, l_comparisonTest id me fuel (x' me) (y' me)).
Proof.
  intros Hx Hy. unfold comparisonTest, l_comparisonTest.
  do 3 (eapply realises_bind; [apply realises_subHalfLessThan; known|]; intros ? ? ?).
  do 2 (eapply realises_bind; [apply realises_mul; known|]; intros ? ? ?). eapply realises_ret. known.
Qed.

Lemma lst_xnor_loop k c rs rs' acc acc' : lst sh rs rs' → lst sh acc acc' →
  lst sh (xnor_loop k c rs acc) (λ me, l_xnor_loop me k c (rs' me) (acc' me)).
Proof.
  intros Hr. revert c acc acc'. induction k as [|k IH]; intros c acc acc' Ha; cbn [xnor_loop l_xnor_loop]; [done|].
  apply (IH (Z.shiftr c 1) (_ :: acc) (λ me, (if c mod 2 =? 1 then l_at (rs' me) k else AtParty.l_c_sub me 1 (l_at (rs' me) k)) :: acc' me)).
  known.
Qed.

Lemma realises_equalityTest fuel x y x' y' : sh x x' → sh y y' →
  realises sh (equalityTest fuel x y) (λ id me, l_equalityTest id me fuel (x' me) (y' me)).
Proof.
  intros Hx Hy. unfold equalityTest, l_equalityTest. eapply realises_bind; [apply realises_subRBVS|]. intros rs rs' Hrs.
  eapply realises_bind_pub; [apply realises_open; known|]. intros c.
  apply realises_fan_in_and. generalize PrimeField.l. intros k. apply (lst_xnor_loop k c rs rs' [] (λ _, [])); known.
Qed.
End Realised.

Section Networked.
Context `{IO : IntegerIO} `{E : Env} `{V : !ValidEnv E}.
#[local] Existing Instance pf_value.
#[local] Existing Instance pf_text.
Import AtPartyCompare.

(** From the joint run of a test to the runs of its programs. *)
Lemma runs_over_the_network m l w v (Q : sharing → World → Prop) :
  PrimeField.canonical v → realises sh m l →
  SharePF.runs m w (λ x w', SharePF.Shares x v ∧ Q x w') →
  ∃ z w', m w = Ok (z, w') ∧ (∀ me, recons_at me z = Ok v) ∧ over_the_network w l (λ me, own me z).
Proof.
  intros Hv Hm Hr. destruct (runs_recons m w v Q Hv Hr) as (z & w' & Hrun & Hz). exists z, w'. split; [done|]. split; [done|].
  destruct (realised_runs w sh m l z w' (Hm w) Hrun) as (z' & (_ & _ & He) & Hn).
  eapply over_the_network_ext; [|exact Hn]. intros me Hme. by rewrite He.
Qed.
End Networked.

(** * Theorems *)

(** C6: the comparison of two shared secrets over the network.  Each party runs
    [comparisonTest] on its own shares, with its own triples and random numbers:
    the random bits, the masked openings, the bits of the opened values that the
    special party shares, the prefix-or gates and all products.  In every
    interleaving of the parties' sends and reads, failed and repeated sends
    included, each party that ends has its entry of one sharing, all parties can
    always end, and every party reconstructs from that sharing the truth value of
    [a < b] for the canonical representatives of the secrets.  This holds when,
    in the three half tests, none of the draws that blind an inversion is zero
    and every random bit-vector forms a number below the prime
    ([comparison_randomness]; the code checks neither, and both fail with
    negligible probability only). *)
Theorem comparison_over_the_network `{IO : IntegerIO} `{E : Env} `{V : !ValidEnv E} fuel x y u v w :
  SharePF.Shares x u → SharePF.Shares y v → comparison_randomness (all_draws w) (sp_draws w) →
  ∃ z w', Compare.comparisonTest (S fuel) x y w = Ok (z, w')
    ∧ (∀ me, recons_at (H := pf_value) me z
              = Ok (if u mod PrimeField.p <? v mod PrimeField.p then 1 else 0))
    ∧ over_the_network w (λ id me, AtPartyCompare.l_comparisonTest id me (S fuel)
        (own (SVI := pf_value) me x) (own (SVI := pf_value) me y)) (λ me, own (SVI := pf_value) me z).
Proof.
  intros Hx Hy Hr.
  apply (runs_over_the_network (Compare.comparisonTest (S fuel) x y) _ w (Z.b2z (u mod PrimeField.p <? v mod PrimeField.p)) (λ _ _, True));
    [apply b2z_canonical|apply realises_comparisonTest; by eapply Shares_sh|].
  eapply runs_mono; [by apply (comparisonTest_runs fuel x y u v (all_draws w) (sp_draws w))|].
  by intros z w' Hz.
Qed.

Lemma comparison_over_the_network_witness :
  let l id me := AtPartyCompare.l_comparisonTest (IO := decimal_io) (E := flat_env) id me 1
    (own (SVI := @pf_value decimal_io) me [1; 2; 0]) (own (SVI := @pf_value decimal_io) me [5; 6; 7]) in
  ∃ z, (∀ me, recons_at (H := @pf_value decimal_io) (H0 := flat_env) me z = Ok 1)
    ∧ ∃ s', rtc (step (EI := flat_env)) (start (λ me, l job_address me (pos_at (E := flat_env) world0 0 me) (λ a _, Ret a)) (λ _, ∅)) s'
        ∧ ∀ me, me ∈ @parties flat_env → program (s' me) = Ret (own (SVI := @pf_value decimal_io) me z).
Proof.
  destruct (@comparison_over_the_network decimal_io flat_env _ 0 [1; 2; 0] [5; 6; 7] 3 18 world0) as (z & w' & _ & Hz & Hn);
    [shares_lit|shares_lit|split_and!; apply flat_half|].
  exists z. split; [exact Hz|exact (over_the_network_ends _ _ _ Hn)].
Defined.

(** C7: the equality test of two shared secrets over the network: the programs of
    the parties for [equalityTest] compute, in every interleaving, one sharing of
    the truth value of [a = b], and all parties can always end.  This holds when
    none of the draws that blind an inversion is zero and the random bit-vector
    forms a number below the prime ([equality_randomness]; the code checks
    neither, and both fail with negligible probability only). *)
Theorem equality_over_the_network `{IO : IntegerIO} `{E : Env} `{V : !ValidEnv E} fuel x y u v w :
  SharePF.Shares x u → SharePF.Shares y v → equality_randomness (all_draws w) (sp_draws w) →
  ∃ z w', Compare.equalityTest (S fuel) x y w = Ok (z, w')
    ∧ (∀ me, recons_at (H := pf_value) me z
              = Ok (if u mod PrimeField.p =? v mod PrimeField.p then 1 else 0))
    ∧ over_the_network w (λ id me, AtPartyCompare.l_equalityTest id me (S fuel)
        (own (SVI := pf_value) me x) (own (SVI := pf_value) me y)) (λ me, own (SVI := pf_value) me z).
Proof.
  intros Hx Hy Hr.
  apply (runs_over_the_network (Compare.equalityTest (S fuel) x y) _ w (Z.b2z (u mod PrimeField.p =? v mod PrimeField.p)) (λ _ _, True));
    [apply b2z_canonical|apply realises_equalityTest; by eapply Shares_sh|].
  eapply runs_mono; [by apply (equalityTest_runs fuel x y u v (all_draws w) (sp_draws w))|].
  by intros z w' Hz.
Qed.

Lemma equality_over_the_network_witness :
  let l id me := AtPartyCompare.l_equalityTest (IO := decimal_io) (E := flat_env) id me 1
    (own (SVI := @pf_value decimal_io) me [1; 2; 0]) (own (SVI := @pf_value decimal_io) me [3; 0; 0]) in
  ∃ z, (∀ me, recons_at (H := @pf_value decimal_io) (H0 := flat_env) me z = Ok 1)
    ∧ ∃ s', rtc (step (EI := flat_env)) (start (λ me, l job_address me (pos_at (E := flat_env) world0 0 me) (λ a _, Ret a)) (λ _, ∅)) s'
        ∧ ∀ me, me ∈ @parties flat_env → program (s' me) = Ret (own (SVI := @pf_value decimal_io) me z).
Proof.
  destruct (@equality_over_the_network decimal_io flat_env _ 0 [1; 2; 0] [3; 0; 0] 3 3 world0) as (z & w' & _ & Hz & Hn);
    [shares_lit|shares_lit|split_and!; [apply flat_window|rewrite flat_rbvs; reflexivity|apply flat_window]|].
  exists z. split; [exact Hz|exact (over_the_network_ends _ _ _ Hn)].
Defined.

(** C8: the interval test of a shared secret over the network: the programs of the
    parties for [intervalTest] compute, in every interleaving, one sharing, and all
    parties can always end; it shares the truth value of [c1 < a < c2] except at
    the two values [c1] and [c2 - 1] of the opened masked secret. *)
Theorem interval_over_the_network `{IO : IntegerIO} `{E : Env} `{V : !ValidEnv E} fuel c1 c2 x v w :
  PrimeField.canonical c1 → PrimeField.canonical c2 → c1 < c2 →
  SharePF.Shares x v → interval_randomness (all_draws w) (sp_draws w) →
  let c := (v + rbvs_value (all_draws w) (sp_draws w)) mod PrimeField.p in
  ∃ z w', Compare.intervalTest (S fuel) c1 x c2 w = Ok (z, w')
    ∧ (∀ me, recons_at (H := pf_value) me z
          = Ok (if c =? c1 then 0 else if c =? c2 - 1 then 1
                else if (c1 <? v mod PrimeField.p) && (v mod PrimeField.p <? c2) then 1 else 0))
    ∧ over_the_network w (λ id me, AtPartyCompare.l_intervalTest id me (S fuel) c1 (own (SVI := pf_value) me x) c2)
        (λ me, own (SVI := pf_value) me z).
Proof.
  intros H1 H2 H12 Hx Hr c.
  assert (∀ b0 b1 b2 : bool, (if b0 then 0 else if b1 then 1 else if b2 then 1 else 0)
    = Z.b2z (if b0 then false else if b1 then true else b2)) as He by (intros [] [] []; reflexivity).
  rewrite He. apply (runs_over_the_network (Compare.intervalTest (S fuel) c1 x c2) _ w _ (λ _ _, True));
    [apply b2z_canonical|apply realises_intervalTest; by eapply Shares_sh|].
  eapply runs_mono; [by apply (intervalTest_runs fuel c1 c2 x v (all_draws w) (sp_draws w))|].
  by intros z w' Hz.
Qed.

Lemma interval_over_the_network_witness :
  let l id me := AtPartyCompare.l_intervalTest (IO := decimal_io) (E := flat_env) id me 1 10
    (own (SVI := @pf_value decimal_io) me [5; 6; 7]) 30 in
  ∃ z, (∀ me, recons_at (H := @pf_value decimal_io) (H0 := flat_env) me z = Ok 1)
    ∧ ∃ s', rtc (step (EI := flat_env)) (start (λ me, l job_address me (pos_at (E := flat_env) world0 0 me) (λ a _, Ret a)) (λ _, ∅)) s'
        ∧ ∀ me, me ∈ @parties flat_env → program (s' me) = Ret (own (SVI := @pf_value decimal_io) me z).
Proof.
  destruct (@interval_over_the_network decimal_io flat_env _ 0 10 30 [5; 6; 7] 18 world0) as (z & w' & _ & Hz & Hn);
    [unfold PrimeField.canonical, PrimeField.p; lia|unfold PrimeField.canonical, PrimeField.p; lia|done|shares_lit
    |split_and!; [apply flat_window|rewrite flat_rbvs; reflexivity|apply flat_window]|].
  exists z. split; [|exact (over_the_network_ends _ _ _ Hn)].
  intros me. rewrite Hz, flat_rbvs. reflexivity.
Defined.
