(* ===== verification/ShareFP.v ===== *)
(** * Shares of fixed-point numbers, and the arithmetic built on them

    The instance of [ShareValue] for [FixedPoint], the share statistics of
    Math/Math.cpp and the share matrices of Share/Matrix.cpp.  A fixed-point
    product is truncated, so the protocols compute approximations; the theorems
    bound their errors in units of the last place ([1 / shift]).

    [DecLaws] is what the code relies on of [cpp_dec_float<50>]: with 50
    significant digits, numbers below [wire] survive the decimal string with 20
    places they are sent as, the strings of the triple service are read
    exactly, and a quotient is off by at most one unit. *)
From stdpp Require Import base list numbers sets strings.
From Stdlib Require Import ZArith Lia QArith DecimalString DecimalZ DecimalPos.
From S2P Require Import Prelude Field FixedPoint Random TripleHandler Share SharePF.
#[local] Open Scope Z_scope.
#[local] Open Scope qmpc_scope.

Definition wire : Z := 10 ^ 36.

Class DecLaws `(DF : DecFloat) : Prop := {
  dec_wire : ∀ x, Z.abs x < wire → FixedPoint.of_string (FixedPoint.getStrVal x) = Ok x;
  dec_int : ∀ z, Z.abs z * FixedPoint.shift < wire →
    FixedPoint.of_string (TripleHandler.to_string z) = Ok (z * FixedPoint.shift);
  dec_div : ∀ x y, Z.abs x < wire → 0 < Z.abs y < wire →
    Z.abs (FixedPoint.div x y * y - x * FixedPoint.shift) ≤ Z.abs y
}.

Definition fp_value `{DecFloat} : ShareValue := {|
  sv_zero := 0;
  sv_add := FixedPoint.add;
  sv_sub := FixedPoint.sub;
  sv_mul := FixedPoint.mul;
  sv_neg := FixedPoint.neg;
  sv_inv := λ x, Ok (FixedPoint.getInv x);
  sv_wire := λ x, FixedPoint.of_string (FixedPoint.getStrVal x);
  sv_rand := RandGenerator.getRand_fp;
  sv_triple := λ _, TripleHandler.convert_fp
|}.

(** ** Math/Math.cpp *)

Module Math.
Section Math.
Context `{DF : DecFloat} `{E : Env}.
#[local] Existing Instance fp_value.

(** [Share::operator/=(const SV &)]: every party divides its own value. *)
Definition s_divc (x : sharing) (c : Z) : sharing := map (λ v, FixedPoint.div v c) x.

Definition sum (v : list sharing) : sharing := fold_left s_add v s_zero.

(** [FixedPoint(size)] of the [int] size. *)
Definition smean (v : list sharing) : result sharing :=
  let ret := fold_left s_add v s_zero in
  let! size := FixedPoint.of_integral (Z.of_nat (length v)) in
  Ok (s_divc ret size).

Definition variance (v : list sharing) : M sharing :=
  let* avg := lift (smean v) in
  let var := map (λ a, s_sub a avg) v in
  let* varVec := v_mul var var in
  let ret := fold_left s_add varVec s_zero in
  let* size := lift (FixedPoint.of_integral (Z.of_nat (length v))) in
  Share.ret (s_divc ret size).
End Math.
End Math.

(** [MathJob::compute]: the chosen columns, and the function on each. *)
Module MathJob.
Section MathJob.
Context `{DF : DecFloat} `{E : Env}.

Definition col (table : list (list sharing)) (w : Z) : result (list sharing) :=
  traverse (λ row, vec_at row (w - 1)) table.

Definition compute (f : list sharing → M sharing) (table : list (list sharing))
    (arg0 : list Z) : M (list sharing) :=
  match table with
  | [] => throw (Undefined "table[0]")
  | _ => let* cols := lift (traverse (col table) arg0) in mmap f cols
  end.
End MathJob.
End MathJob.

(** ** Share/Matrix.cpp *)

Module ShareMatrix.
Section ShareMatrix.
Context `{DF : DecFloat} `{E : Env}.
#[local] Existing Instance fp_value.

(** The rows of the Eigen matrix, with its two dimensions. *)
Record ShareMatrix := mkMatrix { h : nat; w : nat; mat : list (list sharing) }.

(** The constructor from rows: [mat_v[0]] fixes the width, and every row is
    read up to it. *)
Definition make (mat_v : list (list sharing)) : result ShareMatrix :=
  match mat_v with
  | [] => Throw (Undefined "mat_v[0]")
  | r0 :: _ =>
      let w := length r0 in
      let! rows := traverse (λ r, if (w <=? length r)%nat then Ok (take w r)
                                  else Throw (Undefined "vector index")) mat_v in
      Ok (mkMatrix (length mat_v) w rows)
  end.

Definition at_ (m : ShareMatrix) (i j : nat) : sharing := nth j (nth i (mat m) []) s_zero.

(** Eigen checks that the dimensions agree with an assertion. *)
Definition pointwise (f : sharing → sharing → sharing) (a b : ShareMatrix) : result ShareMatrix :=
  if ((h a =? h b) && (w a =? w b))%nat
  then Ok (mkMatrix (h a) (w a) (zip_with (zip_with f) (mat a) (mat b)))
  else Throw (Undefined "Eigen assertion").
Definition add := pointwise s_add.
Definition sub := pointwise s_sub.

Definition transpose (m : ShareMatrix) : ShareMatrix :=
  mkMatrix (w m) (h m) (map (λ j, map (λ i, at_ m i j) (seq 0 (h m))) (seq 0 (w m))).

(** The operands of all the products, in the order of the three loops. *)
Definition triple_loop {A} (n m k : nat) (f : nat → nat → nat → A) : list A :=
  concat (map (λ i, concat (map (λ j, map (f i j) (seq 0 k)) (seq 0 m))) (seq 0 n)).

(** The last loops: sum up [w] products after the other; [it] runs through. *)
Fixpoint chunks {A} (n k : nat) (l : list A) : list (list A) :=
  match n with
  | O => []
  | S n => take k l :: chunks n k (drop k l)
  end.

Definition mul (a b : ShareMatrix) : M ShareMatrix :=
  if negb (w a =? h b)%nat then throw (RuntimeError "Matrix Mul Error!")
  else
    let l := triple_loop (h a) (w b) (w a) (λ i j k, at_ a i k) in
    let r := triple_loop (h a) (w b) (w a) (λ i j k, at_ b k j) in
    let* mul := v_mul l r in
    let s := map Math.sum (chunks (h a * w b) (w a) mul) in
    lift (make (chunks (h a) (w b) s)).

Definition open_and_recons (m : ShareMatrix) : M (list (list Z)) :=
  mmap open_recons_vec (mat m).

Definition get_row (m : ShareMatrix) : list (list sharing) := mat m.
End ShareMatrix.
End ShareMatrix.

(** * Lemmas *)

Section Laws.
Context `{DL : DecLaws} `{E : Env} `{V : !ValidEnv E}.
#[local] Existing Instance fp_value.
Import FixedPoint.

(** [FShares B x v]: local values of size at most [B] that sum up to [v]. *)
Definition FShares (B : Z) (x : sharing) (v : Z) : Prop :=
  length x = n_parties ∧ Forall (λ a, Z.abs a ≤ B) x ∧ Zsum x = v.

Lemma FShares_weaken B B' x v : FShares B x v → B ≤ B' → FShares B' x v.
Proof. intros (H1 & H2 & H3) HB. split_and!; [done| |done]. eapply Forall_impl; [exact H2|]. simpl. lia. Qed.

Lemma FShares_Forall2_weaken B B' xs vs :
  Forall2 (FShares B) xs vs → B ≤ B' → Forall2 (FShares B') xs vs.
Proof. intros H HB. eapply Forall2_impl; [exact H|]. intros x v Hx. by eapply FShares_weaken. Qed.

Lemma Zsum_abs B l : Forall (λ a, Z.abs a ≤ B) l → Z.abs (Zsum l) ≤ Z.of_nat (length l) * B.
Proof.
  induction 1 as [|a l Ha _ IH]; [done|]. rewrite Zsum_cons. cbn [length]. lia.
Qed.

Lemma FShares_abs B x v : FShares B x v → Z.abs v ≤ Z.of_nat n_parties * B.
Proof. intros (<- & H & <-). by apply Zsum_abs. Qed.

(** Two lists of local values, position by position. *)
Lemma Forall_zip_with2 {A B C} (f : A → B → C) (P : A → Prop) (Q : B → Prop) (R : C → Prop) x y :
  (∀ a b, P a → Q b → R (f a b)) → Forall P x → Forall Q y → Forall R (zip_with f x y).
Proof.
  intros Hf Hx. revert y; induction Hx as [|a x Ha _ IH]; intros y Hy; [constructor|].
  destruct Hy as [|b y Hb Hy]; simpl; constructor; auto.
Qed.

Lemma FShares_add B C x y v u :
  FShares B x v → FShares C y u → FShares (B + C) (s_add x y) (v + u).
Proof.
  intros (Hx & Bx & <-) (Hy & By & <-). unfold s_add. split_and!.
  - rewrite length_zip_with. lia.
  - apply (Forall_zip_with2 _ _ _ _ _ _) with (2 := Bx) (3 := By).
    intros a b Ha Hb. cbn in *. unfold add. lia.
  - change sv_add with Z.add. apply Zsum_zip_add. lia.
Qed.

Lemma FShares_sub B C x y v u :
  FShares B x v → FShares C y u → FShares (B + C) (s_sub x y) (v - u).
Proof.
  intros (Hx & Bx & <-) (Hy & By & <-). unfold s_sub. split_and!.
  - rewrite length_zip_with. lia.
  - apply (Forall_zip_with2 _ _ _ _ _ _) with (2 := Bx) (3 := By).
    intros a b Ha Hb. cbn in *. unfold sub. lia.
  - change sv_sub with Z.sub. apply Zsum_zip_sub. lia.
Qed.

(** Adding at the special party only. *)
Lemma Zsum_at_sp_exact c k x :
  Zsum (zip_with (λ i v, if (i =? sp_id)%nat then v + c else v) (seq k (length x)) x)
  = Zsum x + (if decide (k ≤ sp_id < k + length x)%nat then c else 0).
Proof.
  revert k; induction x as [|a x IH]; intros k; cbn [length seq zip_with].
  - rewrite decide_False by lia. reflexivity.
  - rewrite !Zsum_cons, IH. destruct (Nat.eqb_spec k sp_id) as [->|Hne].
    + rewrite (decide_False (P := (S sp_id ≤ _ < _)%nat)) by lia.
      rewrite decide_True by lia. lia.
    + destruct (decide (S k ≤ _ < _)%nat); [rewrite decide_True by lia|rewrite decide_False by lia]; lia.
Qed.

Lemma FShares_addc B C x v c :
  FShares B x v → Z.abs c ≤ C → FShares (B + C) (s_addc x c) (v + c).
Proof.
  intros (Hx & Bx & <-) Hc. unfold s_addc, parties. split_and!.
  - rewrite length_zip_with, length_seq. lia.
  - apply Forall_forall. intros z Hz.
    apply elem_of_lookup_zip_with in Hz as (i & j & a & -> & _ & Ha).
    pose proof (Forall_lookup_1 _ _ _ _ Bx Ha) as Hb. cbn in *. unfold add.
    destruct (_ =? _)%nat; lia.
  - rewrite <- Hx. change sv_add with Z.add. rewrite Zsum_at_sp_exact.
    pose proof sp_valid. rewrite decide_True by lia. done.
Qed.

(** A whole public factor: no rounding. *)
Lemma mul_whole x k : mul (k * shift) x = k * x.
Proof. rewrite mul_comm, mul_exact. lia. Qed.

Lemma FShares_zero : FShares 0 s_zero 0.
Proof.
  unfold s_zero. split_and!.
  - apply length_replicate.
  - by apply Forall_replicate.
  - rewrite Zsum_replicate. cbn. lia.
Qed.

Lemma FShares_sum B v vs acc a A :
  Forall2 (FShares B) v vs → FShares A acc a →
  FShares (A + Z.of_nat (length v) * B) (fold_left s_add v acc) (a + Zsum vs).
Proof.
  intros Hv. revert acc a A. induction Hv as [|x u v vs Hx _ IH]; intros acc a A Ha; cbn [fold_left length].
  - rewrite Zsum_nil. eapply FShares_weaken; [by rewrite Z.add_0_r|lia].
  - rewrite Zsum_cons, Z.add_assoc. eapply FShares_weaken; [apply IH, FShares_add; eassumption|lia].
Qed.

(** *** Reconstruction *)

Lemma recons_fold_fp me l k acc :
  Forall (λ a, Z.abs a < wire) l →
  fold_left (λ acc '(pt, v),
      rbind acc (λ a, if (pt =? me)%nat then Ok (sv_add a v)
                      else rbind (sv_wire v) (λ u, Ok (sv_add a u))))
    (zip (seq k (length l)) l) (Ok acc) = Ok (acc + Zsum l).
Proof.
  intros Hl. revert k acc; induction Hl as [|x l Hx _ IH]; intros k acc;
    cbn [length seq zip zip_with fold_left].
  - by rewrite Zsum_nil, Z.add_0_r.
  - rewrite rbind_ok. change (sv_wire x) with (of_string (getStrVal x)). rewrite dec_wire by done.
    rewrite rbind_ok, Zsum_cons, Z.add_assoc. by destruct (_ =? _)%nat; rewrite IH.
Qed.

Lemma recons_fp me B x v : FShares B x v → B < wire → recons_at me x = Ok v.
Proof.
  intros (Hx & Bx & <-) HB. unfold recons_at, parties. rewrite <- Hx.
  rewrite (recons_fold_fp me x 1 sv_zero); [done|]. eapply Forall_impl; [exact Bx|]. simpl. lia.
Qed.

Lemma column_fp B k xs vs :
  Forall2 (FShares B) xs vs → (k < n_parties)%nat →
  Forall (λ a, Z.abs a ≤ B) (column (1 + k) xs)
  ∧ zip_with sv_add (map (λ x, Zsum (take k x)) xs) (column (1 + k) xs)
    = map (λ x, Zsum (take (S k) x)) xs.
Proof.
  intros Hx Hk. unfold column. replace (1 + k - 1)%nat with k by lia.
  induction Hx as [|x v xs vs (Hl & Hb & _) _ [IH1 IH2]]; [done|].
  destruct (lookup_lt_is_Some_2 x k ltac:(lia)) as [a Ha].
  cbn [map zip_with]. rewrite (nth_lookup_Some _ _ _ _ Ha). split.
  - constructor; [|done]. by apply (Forall_lookup_1 _ _ _ _ Hb Ha).
  - f_equal; [|exact IH2]. rewrite (take_S_r _ _ _ Ha), Zsum_app, Zsum_singleton. done.
Qed.

Lemma recons_vec_fp me B xs vs :
  Forall2 (FShares B) xs vs → B < wire → recons_vec_at me xs = Ok vs.
Proof.
  intros Hxs HB. unfold recons_vec_at, parties.
  assert (∀ k, (k ≤ n_parties)%nat →
    fold_left (λ acc pt,
      rbind acc (λ a,
      rbind (if (pt =? me)%nat then Ok (column pt xs)
             else traverse sv_wire (column pt xs)) (λ col,
      Ok (zip_with sv_add a col)))) (seq 1 k) (Ok (map (λ _, sv_zero) xs))
    = Ok (map (λ x, Zsum (take k x)) xs)) as Hk.
  { induction k as [|k IH]; intros Hle; [done|].
    rewrite seq_S, fold_left_app, IH by lia. cbn [fold_left]. rewrite rbind_ok.
    destruct (column_fp B k xs vs Hxs Hle) as [Hc Hz].
    assert (traverse sv_wire (column (1 + k) xs) = Ok (column (1 + k) xs)) as Hw.
    { rewrite (traverse_map _ id), map_id; [done|]. intros a Ha.
      apply dec_wire. rewrite Forall_forall in Hc. specialize (Hc a Ha). unfold id in *. cbv beta in Hc. lia. }
    destruct (_ =? _)%nat; rewrite ?Hw, rbind_ok; by f_equal. }
  rewrite (Hk n_parties) by lia. f_equal. clear Hk.
  induction Hxs as [|x v xs' vs' (Hl & _ & Hv) _ IH]; [done|]. simpl. f_equal; [|done].
  by rewrite take_ge by lia.
Qed.
End Laws.

(** ** Beaver multiplication

    The triple service deals integers: the parties' [a], [b], [c] are at most
    [T] in size and [sum a * sum b = sum c]. *)
Class TripleLaws (T : Z) (E : Env) : Prop := {
  triple_bound : ∀ k i, Z.abs (bts k i).1.1 ≤ T ∧ Z.abs (bts k i).1.2 ≤ T ∧ Z.abs (bts k i).2 ≤ T;
  triple_prod : ∀ k,
    Zsum (map (λ i, (bts k i).1.1) parties) * Zsum (map (λ i, (bts k i).1.2) parties)
    = Zsum (map (λ i, (bts k i).2) parties);
  triple_wire : T * FixedPoint.shift < wire
}.

(** The size of the opened values, and of the local values of a product, for
    operands whose local values have size [B]. *)
Definition opened `{Env} (T B : Z) : Z := Z.of_nat n_parties * (B + T * FixedPoint.shift).
Definition mul_bound `{Env} (T B : Z) : Z :=
  T * FixedPoint.shift + 2 * (T * opened T B) + opened T B * opened T B / FixedPoint.shift.

(** A product up to one unit in the last place. *)
Definition approx (v u z : Z) : Prop := Z.abs (FixedPoint.shift * z - v * u) < FixedPoint.shift.

Section Beaver.
Context `{DL : DecLaws} `{E : Env} `{V : !ValidEnv E} {T : Z} `{TL : !TripleLaws T E}.
#[local] Existing Instance fp_value.
Import FixedPoint.

Definition whole (l : list Z) : list Z := map (λ a, a * shift) l.

Definition good_triple (t : sharing * sharing * sharing) : Prop := ∃ al bl cl,
  t = (whole al, whole bl, whole cl)
  ∧ FShares T al (Zsum al) ∧ FShares T bl (Zsum bl) ∧ FShares T cl (Zsum cl)
  ∧ Zsum al * Zsum bl = Zsum cl.

Lemma FShares_scale l v c : FShares T l v → FShares (T * Z.abs c) (map (λ a, a * c) l) (v * c).
Proof.
  intros (Hl & Hb & <-). split_and!.
  - by rewrite length_map.
  - apply Forall_fmap. eapply Forall_impl; [exact Hb|]. cbn. intros a Ha. rewrite Z.abs_mul. nia.
  - rewrite (map_ext _ (λ a, c * id a)) by (unfold id; lia). rewrite Zsum_map_mul, map_id. lia.
Qed.

Lemma FShares_whole l v : FShares T l v → FShares (T * shift) (whole l) (v * shift).
Proof. intros H. apply (FShares_scale l v shift H). Qed.

Lemma s_mulc_whole l c : s_mulc (whole l) c = map (λ a, a * c) l.
Proof. unfold s_mulc, whole. rewrite map_map. apply map_ext. intros a. apply mul_whole. Qed.

Lemma T_nonneg : 0 ≤ T.
Proof. pose proof (proj1 (triple_bound 0 0)). lia. Qed.

Lemma triple_at_fp k : ∃ t, triple_at k = Ok t ∧ good_triple t.
Proof.
  unfold triple_at.
  rewrite (traverse_map _ (λ i, ((bts k i).1.1 * shift, (bts k i).1.2 * shift, (bts k i).2 * shift))).
  - rewrite rbind_ok, !map_map. eexists. split; [reflexivity|].
    exists (map (λ i, (bts k i).1.1) parties), (map (λ i, (bts k i).1.2) parties),
      (map (λ i, (bts k i).2) parties).
    split; [unfold whole; by rewrite !map_map|].
    split_and!; try (split_and!; [by rewrite length_map, parties_length| |reflexivity];
      apply Forall_fmap, Forall_true; intros i; apply triple_bound).
    apply triple_prod.
  - intros i _. pose proof triple_wire. pose proof shift_pos.
    destruct (triple_bound k i) as (Ha & Hb & Hc).
    change (sv_triple n_parties (bts k i)) with (TripleHandler.convert_fp (bts k i)).
    unfold TripleHandler.convert_fp. rewrite !dec_int by nia. reflexivity.
Qed.

Lemma getTriple_fp k w :
  runs (getTriple k) w (λ ts w', Forall good_triple ts ∧ length ts = k ∧ moved w 0 0 w').
Proof.
  unfold getTriple. eapply runs_mono.
  - apply (runs_mmap _ _ (λ _ t, good_triple t) (λ _ w', moved w 0 0 w') 0 w (moved_refl w)).
    intros i j w1 _ H1. destruct (triple_at_fp (triples w1)) as (t & Ht & Hg).
    exists t, (mkWorld (all_draws w1) (sp_draws w1) (S (triples w1))).
    unfold getTriple1. rewrite Ht. split; [done|]. split; [done|].
    eapply moved_0; [exact H1|]. unfold moved. simpl. lia.
  - cbv beta. intros ts w' [Hts Hw']. apply Forall2_length in Hts as Hl. rewrite length_seq in Hl.
    split_and!; [|done|done]. by eapply Forall2_Forall_r; [exact Hts|apply Forall_true].
Qed.

(** The opened difference of an operand and its mask. *)
Lemma masked x v t B :
  good_triple t → FShares B x v →
  (FShares (B + T * shift) (s_sub x t.1.1) (v - Zsum t.1.1)
   ∧ FShares (B + T * shift) (s_sub x t.1.2) (v - Zsum t.1.2))
  ∧ Z.abs (v - Zsum t.1.1) ≤ opened T B ∧ Z.abs (v - Zsum t.1.2) ≤ opened T B.
Proof.
  intros (al & bl & cl & -> & Ha & Hb & _) Hx. cbn [fst snd].
  assert (∀ l u, FShares T l u → FShares (B + T * shift) (s_sub x (whole l)) (v - Zsum (whole l))) as H.
  { intros l u Hl. pose proof (FShares_whole l u Hl) as Hw.
    rewrite (proj2 (proj2 Hw)). by apply FShares_sub. }
  split; split; try (by eapply H); unfold opened; eapply FShares_abs; by eapply H.
Qed.

Lemma quot_bound d e D : Z.abs d ≤ D → Z.abs e ≤ D → Z.abs (mul d e) ≤ D * D / shift.
Proof.
  intros Hd He. apply Z.div_le_lower_bound; [reflexivity|].
  unfold mul. pose proof (Z.quot_abs (d * e) shift ltac:(done)) as Hq.
  rewrite <- Hq. rewrite (Z.abs_eq shift) by (unfold shift; lia).
  pose proof (Z.mul_quot_le (Z.abs (d * e)) shift ltac:(lia) ltac:(unfold shift; lia)).
  rewrite Z.abs_mul in *. nia.
Qed.

(** The Beaver combination: only the public product [d * e] is rounded. *)
Lemma beaver_fp t x y v u B :
  good_triple t → FShares B x v → FShares B y u →
  let z := beaver t (v - Zsum t.1.1, u - Zsum t.1.2) in
  FShares (mul_bound T B) z (Zsum z) ∧ approx v u (Zsum z).
Proof.
  intros Ht Hx Hy z.
  destruct (masked x v t B Ht Hx) as [_ [Hd _]]. destruct (masked y u t B Ht Hy) as [_ [_ He]].
  destruct Ht as (al & bl & cl & -> & Ha & Hb & Hc & Habc). cbn [fst snd] in *.
  set (d := v - Zsum (whole al)) in *. set (e := u - Zsum (whole bl)) in *.
  assert (FShares (mul_bound T B) z (Zsum cl * shift + Zsum bl * d + Zsum al * e + mul d e)) as Hz.
  { unfold z, beaver. rewrite !s_mulc_whole. change (sv_mul d e) with (mul d e).
    eapply FShares_weaken.
    - apply FShares_addc; [|by apply (quot_bound d e (opened T B))].
      apply FShares_add; [apply FShares_add|]; [by apply FShares_whole|by apply FShares_scale
                                               |by apply FShares_scale].
    - unfold mul_bound. pose proof T_nonneg. nia. }
  assert (Zsum z = Zsum cl * shift + Zsum bl * d + Zsum al * e + mul d e) as Hs by apply Hz.
  split; [by rewrite Hs|]. unfold approx. rewrite Hs.
  assert (v = d + Zsum al * shift) as Hv
    by (unfold d; rewrite (proj2 (proj2 (FShares_whole _ _ Ha))); lia).
  assert (u = e + Zsum bl * shift) as Hu
    by (unfold e; rewrite (proj2 (proj2 (FShares_whole _ _ Hb))); lia).
  rewrite Hv, Hu, <- Habc. pose proof (mul_error d e) as Hme.
  replace (shift * (Zsum al * Zsum bl * shift + Zsum bl * d + Zsum al * e + mul d e)
           - (d + Zsum al * shift) * (e + Zsum bl * shift))
    with (- (d * e - shift * mul d e)) by ring.
  by rewrite Z.abs_opp.
Qed.

(** What a product of shares of [v] and [u] leaves behind. *)
Definition product (B v u : Z) (z : sharing) : Prop :=
  FShares (mul_bound T B) z (Zsum z) ∧ approx v u (Zsum z).

Lemma opened_wire B : 0 ≤ B → opened T B < wire → B + T * shift < wire.
Proof.
  intros HB0 HB. pose proof sp_valid. unfold opened in HB. pose proof T_nonneg. pose proof shift_pos.
  assert (0 ≤ T * shift) as HT by nia. revert HB HT. generalize (T * shift). intros X HB HX. nia.
Qed.

Lemma FShares_nonneg B x v : FShares B x v → 0 ≤ B.
Proof.
  intros (Hn & Hb & _). pose proof sp_valid. destruct x as [|x0 x']; [simpl in Hn; lia|].
  apply Forall_cons in Hb as [Hb _]. lia.
Qed.

Lemma s_mul_fp x y v u B w :
  FShares B x v → FShares B y u → opened T B < wire →
  runs (s_mul x y) w (λ z w', product B v u z ∧ moved w 0 0 w').
Proof.
  intros Hx Hy HB. unfold s_mul. eapply runs_bind; [apply getTriple_fp|].
  intros ts w1 (Hts & Hl & Hw1). destruct ts as [|t [|]]; try discriminate Hl.
  apply Forall_cons in Hts as [Ht _].
  destruct (masked x v t B Ht Hx) as [[Hd _] _]. destruct (masked y u t B Ht Hy) as [[_ He] _].
  pose proof (beaver_fp t x y v u B Ht Hx Hy) as Hz. destruct t as [[a b] c]. cbn [fst snd] in *.
  eapply runs_bind.
  { eapply runs_lift_eq, (recons_vec_fp sp_id (B + T * shift)).
    - constructor; [exact Hd|constructor; [exact He|constructor]].
    - apply opened_wire; [by eapply FShares_nonneg|done]. }
  intros de w2 [-> ->]. apply runs_ret. split; [exact Hz|done].
Qed.

Lemma masks_fp xs vs (ts : list (sharing * sharing * sharing)) B :
  Forall good_triple ts → length ts = length xs → Forall2 (FShares B) xs vs →
  Forall2 (FShares (B + T * shift)) (zip_with (λ x abc, s_sub x abc.1.1) xs ts)
    (zip_with (λ v abc, v - Zsum abc.1.1) vs ts)
  ∧ Forall2 (FShares (B + T * shift)) (zip_with (λ x abc, s_sub x abc.1.2) xs ts)
    (zip_with (λ v abc, v - Zsum abc.1.2) vs ts).
Proof.
  intros Hts Hl Hx. revert ts Hts Hl. induction Hx as [|x v xs vs Hx _ IH]; intros [|t ts] Hts Hl;
    try discriminate Hl; [split; constructor|].
  apply Forall_cons in Hts as [Ht Hts]. destruct (IH ts Hts ltac:(by injection Hl)) as [H1 H2].
  destruct (masked x v t B Ht Hx) as [[Hd He] _]. cbn [zip_with]. split; by constructor.
Qed.

Lemma beavers_fp xs ys vs us ts B :
  Forall good_triple ts → length ts = length xs → length xs = length ys →
  Forall2 (FShares B) xs vs → Forall2 (FShares B) ys us →
  let zs := zip_with beaver ts (zip (zip_with (λ v abc, v - Zsum abc.1.1) vs ts)
                                    (zip_with (λ u abc, u - Zsum abc.1.2) us ts)) in
  Forall2 (λ vu z, product B vu.1 vu.2 z) (zip vs us) zs.
Proof.
  intros Hts Hl Hl' Hx. revert ts ys us Hts Hl Hl'.
  induction Hx as [|x v xs vs Hx _ IH]; intros [|t ts] ys us Hts Hl Hl' Hy;
    destruct Hy as [|y u ys us Hy Hys]; try discriminate Hl; try discriminate Hl'; [constructor|].
  apply Forall_cons in Hts as [Ht Hts]. cbn [zip_with zip]. constructor.
  - by apply (beaver_fp t x y v u B).
  - apply (IH ts ys us); auto.
Qed.

Lemma v_mul_fp xs ys vs us B w :
  Forall2 (FShares B) xs vs → Forall2 (FShares B) ys us → length xs = length ys →
  0 ≤ B → opened T B < wire →
  runs (v_mul xs ys) w (λ zs w',
    Forall2 (λ vu z, product B vu.1 vu.2 z) (zip vs us) zs ∧ moved w 0 0 w').
Proof.
  intros Hx Hy Hl HB0 HB. unfold v_mul. rewrite (proj2 (Nat.eqb_eq _ _) Hl). cbn [negb].
  eapply runs_bind; [apply getTriple_fp|]. intros ts w1 (Hts & Hlt & Hw1).
  destruct (masks_fp xs vs ts B Hts Hlt Hx) as [Hd _].
  destruct (masks_fp ys us ts B Hts ltac:(lia) Hy) as [_ He].
  eapply runs_bind.
  { eapply runs_lift_eq, (recons_vec_fp sp_id (B + T * shift)); [apply Forall2_app; [exact Hd|exact He]|].
    pose proof sp_valid. unfold opened in HB. pose proof T_nonneg. pose proof shift_pos. nia. }
  intros de w2 [-> ->]. apply runs_ret. split; [|done].
  pose proof (Forall2_length _ _ _ Hx).
  rewrite take_app_length', drop_app_length' by (rewrite length_zip_with; lia).
  by apply (beavers_fp xs ys).
Qed.

(** Summing up products: the errors add up. *)
Definition dot (vs us : list Z) : Z := Zsum (map (λ vu, vu.1 * vu.2) (zip vs us)).

Lemma sum_products (B : Z) (vs us : list Z) (zs : list sharing) :
  Forall2 (λ vu z, product B vu.1 vu.2 z) (zip vs us) zs →
  let z := fold_left s_add zs s_zero in
  FShares (Z.of_nat (length zs) * mul_bound T B) z (Zsum z)
  ∧ Z.abs (shift * Zsum z - dot vs us) ≤ Z.of_nat (length zs) * shift
  ∧ (zs ≠ [] → Z.abs (shift * Zsum z - dot vs us) < Z.of_nat (length zs) * shift).
Proof.
  intros Hz z.
  assert (Forall2 (FShares (mul_bound T B)) zs (map Zsum zs)) as Hf.
  { clear z. induction Hz as [|vu y l zs Hy _ IH]; simpl; constructor; [apply Hy|done]. }
  pose proof (FShares_sum _ _ _ _ _ _ Hf FShares_zero) as Hsum. fold z in Hsum.
  assert (Zsum z = Zsum (map Zsum zs)) as Hzs by (rewrite (proj2 (proj2 Hsum)); lia).
  split; [rewrite Hzs; by eapply FShares_weaken; [apply Hsum|]; lia|].
  rewrite Hzs. clear Hzs Hsum Hf z.
  assert (Z.abs (shift * Zsum (map Zsum zs) - dot vs us)
          ≤ Z.of_nat (length zs) * (shift - 1)) as He.
  { unfold dot. revert Hz. generalize (zip vs us).
    intros l Hz. induction Hz as [|[v u] y l zs [_ Hy] _ IH]; [done|].
    unfold approx in Hy. cbn [map fst snd length] in *. rewrite !Zsum_cons. lia. }
  pose proof shift_pos. split; [nia|]. intros Hne. destruct zs; [done|]. cbn [length] in *. nia.
Qed.
End Beaver.

(** ** Means and variances *)

Section MathLaws.
Context `{DL : DecLaws} `{E : Env} `{V : !ValidEnv E} {T : Z} `{TL : !TripleLaws T E}.
#[local] Existing Instance fp_value.
Import FixedPoint.

(** Every party rounds its own quotient, so the error is at most [n_parties] units. *)
Lemma s_divc_fp B x v N :
  FShares B x v → 0 ≤ B < wire → 0 < N → N * shift < wire →
  FShares (B + 1) (Math.s_divc x (N * shift)) (Zsum (Math.s_divc x (N * shift)))
  ∧ Z.abs (N * Zsum (Math.s_divc x (N * shift)) - v) ≤ Z.of_nat n_parties * N.
Proof.
  intros (Hl & Hb & <-) HB HN Hw. pose proof shift_pos as Hs.
  assert (Forall (λ a, Z.abs (N * div a (N * shift) - a) ≤ N
                       ∧ Z.abs (div a (N * shift)) ≤ B + 1) x) as Hd.
  { eapply Forall_impl; [exact Hb|]. intros a Ha. cbn beta in Ha.
    pose proof (dec_div a (N * shift) ltac:(lia) ltac:(nia)) as H.
    rewrite (Z.abs_eq (N * shift)) in H by nia.
    assert (Z.abs (shift * (N * div a (N * shift) - a)) ≤ shift * N) as H'
      by (replace (shift * (N * div a (N * shift) - a))
            with (div a (N * shift) * (N * shift) - a * shift) by ring; lia).
    rewrite Z.abs_mul, (Z.abs_eq shift) in H' by lia.
    assert (Z.abs (N * div a (N * shift) - a) ≤ N) as H1 by nia.
    split; [exact H1|]. nia. }
  unfold FShares, Math.s_divc. rewrite <- Hl. clear Hl Hb. split; [split_and!|].
  - by rewrite length_map.
  - apply Forall_fmap. eapply Forall_impl; [exact Hd|]. cbn. tauto.
  - done.
  - clear HB Hw. induction Hd as [|a x [Ha _] _ IH]; [simpl; rewrite Zsum_nil; lia|].
    cbn [map length]. rewrite !Zsum_cons. lia.
Qed.

Lemma of_integral_length {A} (l : list A) :
  Z.of_nat (length l) < 2 ^ 31 →
  of_integral (Z.of_nat (length l)) = Ok (Z.of_nat (length l) * shift).
Proof. intros H. apply RandomFacts.int64_ok. unfold shift. lia. Qed.

Lemma smean_fp B v vs :
  Forall2 (FShares B) v vs → v ≠ [] → 0 ≤ B → Z.of_nat (length v) < 2 ^ 31 →
  Z.of_nat (length v) * B < wire →
  ∃ x, Math.smean v = Ok x ∧ FShares (Z.of_nat (length v) * B + 1) x (Zsum x)
    ∧ Z.abs (Z.of_nat (length v) * Zsum x - Zsum vs) ≤ Z.of_nat n_parties * Z.of_nat (length v).
Proof.
  intros Hv Hne HB Hl Hw. unfold Math.smean. rewrite of_integral_length, rbind_ok by done.
  eexists. split; [reflexivity|]. pose proof (FShares_sum _ _ _ _ _ _ Hv FShares_zero) as Hs.
  apply (s_divc_fp (Z.of_nat (length v) * B) _ (Zsum vs)).
  - eapply FShares_weaken; [exact Hs|lia].
  - lia.
  - destruct v; [done|simpl; lia].
  - unfold shift, wire. lia.
Qed.

(** The squares of the deviations from what the parties take for the mean. *)
Definition deviations (vs : list Z) (m : Z) : Z := Zsum (map (λ v, (v - m) * (v - m)) vs).

Lemma dot_deviations vs m :
  dot (map (λ v, v - m) vs) (map (λ v, v - m) vs) = deviations vs m.
Proof. unfold dot, deviations. induction vs; [done|]. cbn. rewrite !Zsum_cons, IHvs. done. Qed.

Lemma variance_fp B v vs w :
  Forall2 (FShares B) v vs → v ≠ [] → 0 ≤ B → Z.of_nat (length v) < 2 ^ 31 →
  let N := Z.of_nat (length v) in
  let B' := B + (N * B + 1) in
  opened T B' < wire → N * mul_bound T B' < wire → N * B < wire →
  ∃ avg, Math.smean v = Ok avg ∧
  runs (Math.variance v) w (λ x w',
    FShares (N * mul_bound T B' + 1) x (Zsum x)
    ∧ Z.abs (shift * N * Zsum x - deviations vs (Zsum avg))
      ≤ (Z.of_nat n_parties + 1) * N * shift).
Proof.
  intros Hv Hne HB Hl N B' Ho Hm Hw.
  destruct (smean_fp B v vs Hv Hne HB Hl Hw) as (avg & Havg & Ha & _).
  exists avg. split; [done|]. unfold Math.variance.
  eapply runs_bind; [by apply runs_lift_eq|]. intros ? ? [-> ->].
  set (var := map (λ a, s_sub a avg) v).
  assert (Forall2 (FShares B') var (map (λ u, u - Zsum avg) vs)) as Hvar.
  { unfold var, B', N in *. clear -Hv Ha. revert Ha. generalize (Z.of_nat (length v) * B + 1).
    intros C Ha. induction Hv; simpl; constructor; [by apply FShares_sub|done]. }
  assert (length var = length v) as Hlv by apply length_map.
  eapply runs_bind; [apply (v_mul_fp var var _ _ B' w Hvar Hvar); [done|unfold B', N in *; lia|done]|].
  intros zs w1 [Hzs _].
  assert (length zs = length v) as Hlz.
  { apply Forall2_length in Hzs. rewrite length_zip_with, length_map in Hzs.
    pose proof (Forall2_length _ _ _ Hv). lia. }
  destruct (sum_products B' _ _ zs Hzs) as (Hs & He & _). rewrite dot_deviations in He.
  rewrite Hlz in Hs, He. fold N in Hs, He.
  eapply runs_bind; [by apply runs_lift_eq, of_integral_length|]. intros ? ? [-> ->].
  assert (0 < N) as HN by (unfold N; destruct v; [done|simpl; lia]).
  destruct (s_divc_fp _ _ _ N Hs) as [Hd1 Hd2].
  { split; [|done]. pose proof T_nonneg. unfold mul_bound, opened in *.
    apply Z.mul_nonneg_nonneg; [lia|]. pose proof shift_pos.
    assert (0 ≤ Z.of_nat n_parties * (B' + T * shift)) by (unfold B'; nia).
    assert (0 ≤ Z.of_nat n_parties * (B' + T * shift) * (Z.of_nat n_parties * (B' + T * shift)) / shift)
      by (apply Z.div_pos; nia). nia. }
  { done. } { unfold shift, wire, N in *. lia. }
  apply runs_ret. split; [exact Hd1|]. fold N. revert Hd2 He.
  generalize (Zsum (Math.s_divc (fold_left s_add zs s_zero) (N * shift)))
    (Zsum (fold_left s_add zs s_zero)) (deviations vs (Zsum avg)) (Z.of_nat n_parties).
  intros q r d n Hq Hr. pose proof shift_pos.
  assert (Z.abs (shift * (N * q - r)) ≤ shift * (n * N)) as Hqr
    by (rewrite Z.abs_mul, (Z.abs_eq shift) by lia; apply Z.mul_le_mono_nonneg_l; lia).
  replace (shift * N * q - d) with (shift * (N * q - r) + (shift * r - d)) by ring.
  replace ((n + 1) * N * shift) with (shift * (n * N) + N * shift) by ring.
  eapply Z.le_trans; [apply Z.abs_triangle|]. apply Z.add_le_mono; [exact Hqr|]. exact Hr.
Qed.
End MathLaws.

(** ** Matrix products *)

Section MatrixLaws.
Context `{DL : DecLaws} `{E : Env} `{V : !ValidEnv E} {T : Z} `{TL : !TripleLaws T E}.
#[local] Existing Instance fp_value.
Import FixedPoint ShareMatrix.

Definition entry (vm : list (list Z)) (i j : nat) : Z := nth j (nth i vm []) 0.

(** [Holds B m vm]: a matrix of the dimensions it states whose entries are
    shares of those of [vm]. *)
Definition Holds (B : Z) (m : ShareMatrix) (vm : list (list Z)) : Prop :=
  length (mat m) = h m ∧ Forall (λ r, length r = w m) (mat m)
  ∧ Forall2 (Forall2 (FShares B)) (mat m) vm.

Lemma Holds_at B m vm i j :
  Holds B m vm → (i < h m)%nat → (j < w m)%nat → FShares B (at_ m i j) (entry vm i j).
Proof.
  intros (Hh & Hw & Hm) Hi Hj. unfold at_, entry.
  destruct (lookup_lt_is_Some_2 (mat m) i ltac:(lia)) as [r Hr].
  destruct (Forall2_lookup_l _ _ _ _ _ Hm Hr) as (vr & Hvr & Hrow).
  pose proof (Forall_lookup_1 _ _ _ _ Hw Hr) as Hlr. cbn in Hlr.
  destruct (lookup_lt_is_Some_2 r j ltac:(lia)) as [x Hx].
  destruct (Forall2_lookup_l _ _ _ _ _ Hrow Hx) as (v & Hv & Hxv).
  rewrite (nth_lookup_Some (mat m) _ _ _ Hr), (nth_lookup_Some vm _ _ _ Hvr).
  by rewrite (nth_lookup_Some r _ _ _ Hx), (nth_lookup_Some vr _ _ _ Hv).
Qed.

(** The positions of a product, and the loop over them. *)
Definition pairs (n m : nat) : list (nat * nat) :=
  concat (map (λ i, map (λ j, (i, j)) (seq 0 m)) (seq 0 n)).

Lemma triple_loop_pairs {A} n m k (f : nat → nat → nat → A) :
  triple_loop n m k f = concat (map (λ ij, map (f ij.1 ij.2) (seq 0 k)) (pairs n m)).
Proof.
  unfold triple_loop, pairs. generalize (seq 0 n). induction l as [|i l IH]; [done|].
  cbn [map concat]. by rewrite IH, map_app, concat_app, map_map.
Qed.

Lemma triple_loop_map {A B} n m k (f : nat → nat → nat → A) (g : A → B) :
  map g (triple_loop n m k f) = triple_loop n m k (λ i j l, g (f i j l)).
Proof.
  rewrite !triple_loop_pairs, concat_map, map_map. f_equal. apply map_ext.
  intros ij. by rewrite map_map.
Qed.

Lemma triple_loop_length {A} n m k (f : nat → nat → nat → A) :
  length (triple_loop n m k f) = (n * m * k)%nat.
Proof.
  unfold triple_loop. rewrite length_concat, map_map.
  rewrite (map_ext _ (λ _, (m * k)%nat)).
  - clear f. generalize 0%nat. induction n as [|n IH]; intros s; [done|]. cbn. rewrite IH. lia.
  - intros i. rewrite length_concat, map_map. rewrite (map_ext _ (λ _, k)).
    + clear i f. generalize 0%nat. induction m as [|m IH]; intros s; [done|]. cbn. rewrite IH. lia.
    + intros j. by rewrite length_map, length_seq.
Qed.

Lemma triple_loop_zip {A B} n m k (f : nat → nat → nat → A) (g : nat → nat → nat → B) :
  zip (triple_loop n m k f) (triple_loop n m k g) = triple_loop n m k (λ i j l, (f i j l, g i j l)).
Proof.
  set (idx := triple_loop n m k (λ i j l, (i, j, l))).
  assert (∀ C (c : nat → nat → nat → C), triple_loop n m k c = map (λ x, c x.1.1 x.1.2 x.2) idx) as H
    by (intros C c; unfold idx; by rewrite triple_loop_map).
  rewrite (H _ f), (H _ g), (H _ (λ i j l, (f i j l, g i j l))). clear H. clearbody idx.
  induction idx as [|x idx IH]; [done|]. cbn. f_equal. exact IH.
Qed.

Lemma Forall2_map_diag {A B C} (R : B → C → Prop) (f : A → B) (g : A → C) l :
  (∀ x, x ∈ l → R (f x) (g x)) → Forall2 R (map f l) (map g l).
Proof. induction l as [|x l IH]; intros H; cbn; constructor; [|apply IH; intros]; apply H; set_solver. Qed.

Lemma triple_loop_Forall2 {A B} (R : A → B → Prop) n m k f g :
  (∀ i j l, (i < n)%nat → (j < m)%nat → (l < k)%nat → R (f i j l) (g i j l)) →
  Forall2 R (triple_loop n m k f) (triple_loop n m k g).
Proof.
  intros HR. unfold triple_loop. apply Forall2_concat_map. intros i Hi%elem_of_seq.
  apply Forall2_concat_map. intros j Hj%elem_of_seq. apply Forall2_map_diag.
  intros l Hl%elem_of_seq. apply HR; lia.
Qed.

(** Cutting what corresponds to a concatenation of equally long lists. *)
Lemma chunks_concat {A B} (R : A → B → Prop) (ls : list (list A)) k zs :
  Forall (λ l, length l = k) ls → Forall2 R (concat ls) zs →
  Forall2 (Forall2 R) ls (chunks (length ls) k zs).
Proof.
  intros Hk. revert zs; induction Hk as [|l ls Hl _ IH]; intros zs Hz; cbn [length chunks]; [constructor|].
  cbn [concat] in Hz. apply Forall2_app_inv_l in Hz as (z1 & z2 & H1 & H2 & ->).
  pose proof (Forall2_length _ _ _ H1) as Hlen.
  rewrite take_app_length', drop_app_length' by lia. constructor; [done|by apply IH].
Qed.

Lemma pairs_length n m : length (pairs n m) = (n * m)%nat.
Proof.
  pose proof (triple_loop_length n m 1 (λ _ _ _, tt)) as H.
  rewrite triple_loop_pairs, length_concat, map_map in H.
  rewrite (map_ext _ (λ _, 1%nat)) in H by done. rewrite Nat.mul_1_r in H. rewrite <- H.
  generalize (pairs n m). induction l; [done|]. simpl. f_equal. exact IHl.
Qed.

(** What an entry of a product is, up to the rounding of its [w] products. *)
Definition product_entry (k : nat) (va vb : list (list Z)) (i j : nat) : Z :=
  Zsum (map (λ l, entry va i l * entry vb l j) (seq 0 k)).

Definition close (B : Z) (k : nat) (va vb : list (list Z)) (ij : nat * nat) (z : sharing) : Prop :=
  FShares (Z.of_nat k * mul_bound T B) z (Zsum z)
  ∧ Z.abs (shift * Zsum z - product_entry k va vb ij.1 ij.2) ≤ Z.of_nat k * shift.

Lemma entries_close B n m k va vb zs :
  Forall2 (λ vu z, product (T := T) B vu.1 vu.2 z)
    (triple_loop n m k (λ i j l, (entry va i l, entry vb l j))) zs →
  Forall2 (close B k va vb) (pairs n m) (map Math.sum (chunks (n * m) k zs)).
Proof.
  rewrite triple_loop_pairs. intros Hz. rewrite <- (pairs_length n m).
  pose proof (chunks_concat (λ vu z, product (T := T) B vu.1 vu.2 z) (map (λ ij, map (λ l, (entry va ij.1 l, entry vb l ij.2)) (seq 0 k))
    (pairs n m)) k zs) as Hc.
  rewrite length_map in Hc. apply Forall2_fmap_r.
  specialize (Hc ltac:(apply Forall_fmap, Forall_true; intros ij; unfold compose; by rewrite length_map, length_seq) Hz).
  apply (proj1 (Forall2_fmap_l (λ ij, map (λ l, (entry va ij.1 l, entry vb l ij.2)) (seq 0 k)) _ _ _)) in Hc.
  eapply Forall2_impl; [exact Hc|]. intros [i j] l Hl. cbn [fst snd] in Hl.
  unfold close, Math.sum. cbn [fst snd].
  assert (length l = k) as Hlk
    by (apply Forall2_length in Hl; rewrite length_map, length_seq in Hl; done).
  assert (map (λ l, (entry va i l, entry vb l j)) (seq 0 k)
          = zip (map (entry va i) (seq 0 k)) (map (λ l, entry vb l j) (seq 0 k))) as Hzip
    by (generalize (seq 0 k); induction l0; cbn; [done|by f_equal]).
  pose proof (sum_products (T := T) B (map (entry va i) (seq 0 k)) (map (λ l, entry vb l j) (seq 0 k)) l) as Hs.
  unfold dot in Hs. rewrite <- Hzip in Hs. destruct (Hs Hl) as (H1 & H2 & _).
  rewrite Hlk in H1, H2. split; [done|].
  rewrite map_map in H2. exact H2.
Qed.

Lemma make_rect (rows : list (list sharing)) m :
  rows ≠ [] → Forall (λ r, length r = m) rows → make rows = Ok (mkMatrix (length rows) m rows).
Proof.
  intros Hne Hr. unfold make. destruct rows as [|r0 rows]; [done|].
  assert (length r0 = m) as H0 by (by apply Forall_cons in Hr as [? _]). rewrite H0.
  rewrite (traverse_map _ id); [by rewrite map_id|].
  intros r Hin. rewrite Forall_forall in Hr. specialize (Hr r Hin). cbn in Hr.
  rewrite Hr, Nat.leb_refl, take_ge by lia. done.
Qed.

Lemma mul_fp B a b va vb w0 :
  Holds B a va → Holds B b vb → w a = h b → h a ≠ 0%nat → 0 ≤ B → opened T B < wire →
  runs (mul a b) w0 (λ m w', h m = h a ∧ w m = w b ∧ length (mat m) = h a
    ∧ Forall2 (Forall2 (close B (w a) va vb))
        (map (λ i, map (λ j, (i, j)) (seq 0 (w b))) (seq 0 (h a))) (mat m)).
Proof.
  intros Ha Hb Hw Hh HB Ho. unfold mul. rewrite (proj2 (Nat.eqb_eq _ _) Hw). cbn [negb].
  eapply runs_bind.
  { apply (v_mul_fp _ _
      (triple_loop (h a) (w b) (w a) (λ i j k, entry va i k))
      (triple_loop (h a) (w b) (w a) (λ i j k, entry vb k j)) B); [| | |done|done].
    - apply triple_loop_Forall2. intros. by apply Holds_at.
    - apply triple_loop_Forall2. intros. apply Holds_at; [done|lia|done].
    - by rewrite !triple_loop_length. }
  intros zs w1 [Hzs _]. rewrite triple_loop_zip in Hzs.
  pose proof (entries_close B _ _ _ va vb zs Hzs) as Hs. unfold pairs in Hs.
  apply (chunks_concat _ _ (w b)) in Hs;
    [|apply Forall_fmap, Forall_true; intros i; unfold compose; by rewrite length_map, length_seq].
  rewrite length_map, length_seq in Hs.
  pose proof (Forall2_length _ _ _ Hs) as Hl. rewrite length_map, length_seq in Hl.
  eapply runs_mono; [apply runs_lift_eq, (make_rect _ (w b))|].
  - intros E'. rewrite E' in Hl. simpl in Hl. lia.
  - apply Forall_lookup. intros i r Hr. destruct (Forall2_lookup_r _ _ _ _ _ Hs Hr) as (l & Hl' & Hrow).
    apply list_lookup_fmap_Some in Hl' as (i' & -> & _).
    apply Forall2_length in Hrow. by rewrite length_map, length_seq in Hrow.
  - intros m w2 [-> _]. cbn [h w mat]. split_and!; [by rewrite <- Hl|done|by rewrite <- Hl|exact Hs].
Qed.

(** The values the parties open. *)
Lemma open_fp B k va vb ijs rows w0 :
  Forall2 (Forall2 (close B k va vb)) ijs rows → 0 ≤ Z.of_nat k * mul_bound T B < wire →
  runs (mmap open_recons_vec rows) w0 (λ vm w', w' = w0 ∧ vm = map (map Zsum) rows).
Proof.
  intros Hr Hb. revert w0; induction Hr as [|ij r ijs rows Hrow _ IH]; intros w0; cbn [mmap].
  - by apply runs_ret.
  - eapply runs_bind.
    { eapply runs_lift_eq, (recons_vec_fp sp_id (Z.of_nat k * mul_bound T B) _ (map Zsum r)); [|apply Hb].
      clear -Hrow. induction Hrow as [|? z ? ? [Hz _]]; simpl; by constructor. }
    intros vs w1 [-> ->]. eapply runs_bind; [apply IH|]. intros vm w2 [-> ->]. by apply runs_ret.
Qed.
End MatrixLaws.

(** ** A concrete decimal type

    Exact rationals; the first character of a string tells a number that was
    printed from an integer. *)
Definition rat_dec : DecFloat := {|
  D := Q;
  d_of_Z := inject_Z;
  d_mul := Qmult;
  d_div := Qdiv;
  d_isinf := λ _, false;
  d_max := 0%Q;
  d_to_Z := λ q, Z.quot (Qnum q) (Zpos (Qden q));
  d_str20 := λ q, String ltac:(let c := eval cbv in (Ascii.ascii_of_nat 35) in exact c)
    (TripleHandler.to_string (Z.quot (Qnum q * FixedPoint.shift) (Zpos (Qden q))));
  d_of_str := λ s,
    match NilZero.int_of_string s with
    | Some z => Ok (inject_Z (Z.of_int z))
    | None =>
        match s with
        | String _ s =>
            match NilZero.int_of_string s with
            | Some z => Ok (Qmake (Z.of_int z) 100000000)
            | None => Throw (RuntimeError "not a number")
            end
        | EmptyString => Throw (RuntimeError "not a number")
        end
    end
|}.

Lemma read_to_string z :
  NilZero.int_of_string (TripleHandler.to_string z) = Some (Z.to_int z).
Proof.
  unfold TripleHandler.to_string. destruct (Z.eq_dec z 0) as [->|Hz]; [reflexivity|].
  apply NilZero.isi; intros E; apply (f_equal Z.of_int) in E; rewrite DecimalZ.of_to in E;
    cbv in E; congruence.
Qed.

#[export] Instance rat_laws : DecLaws rat_dec.
Proof.
  split.
  - intros x _. unfold FixedPoint.of_string, FixedPoint.getStrVal, FixedPoint.finite. cbn -[Z.quot].
    rewrite read_to_string, DecimalZ.of_to. cbn -[Z.quot]. f_equal.
    rewrite Z.mul_1_r, Z.quot_mul by done. cbn -[Z.quot].
    destruct (NilEmpty.uint_of_string (TripleHandler.to_string x)); cbn -[Z.quot]; f_equal;
      by apply Z.quot_mul.
  - intros z _. unfold FixedPoint.of_string. cbn -[Z.quot]. rewrite read_to_string.
    cbn -[Z.quot]. rewrite DecimalZ.of_to. f_equal. by rewrite Z.quot_1_r.
  - intros x y _ [Hy _]. unfold FixedPoint.div, FixedPoint.finite. cbn -[Z.quot].
    assert (∀ q n d, 0 < d → q = Z.quot n d → Z.abs (q * d - n) ≤ d) as Hq.
    { intros q n d Hd ->. pose proof (Z.quot_rem' n d). pose proof (Z.rem_bound_abs n d). lia. }
    destruct y as [|y|y]; [done| |]; cbn -[Z.quot].
    + apply (Hq _ _ (Z.pos y)); [done|]. f_equal; lia.
    + pose proof (Hq _ _ (Z.pos y) eq_refl eq_refl : Z.abs (Z.quot (x * -1 * 100000000) (Z.pos y) * Z.pos y - (x * -1 * 100000000)) ≤ Z.pos y) as H.
      unfold FixedPoint.shift. match goal with |- Z.abs (?q * _ - _) ≤ _ =>
        replace q with (Z.quot (x * -1 * 100000000) (Z.pos y)) by (f_equal; lia) end. lia.
Qed.

#[export] Instance demo_triples : TripleLaws 36 demo_env.
Proof. split; [simpl; lia|reflexivity|reflexivity]. Qed.

(** * Theorems *)

Import FixedPoint ShareMatrix.

(** C15: multiplying shares of two fixed-point numbers is total, all parties
    reconstruct the same number, and it differs from the exact product by less
    than one unit in the last place whatever the number of parties (only the
    public product of the opened values is rounded); the vector product is as
    exact in every position. *)
Theorem fp_mul_one_ulp `{DL : DecLaws} {E : Env} {V : ValidEnv E} {T} {TL : TripleLaws T E}
    B x y v u xs ys vs us w :
  FShares B x v → FShares B y u →
  Forall2 (FShares B) xs vs → Forall2 (FShares B) ys us →
  0 ≤ B → opened T B < wire → mul_bound T B < wire →
  (∃ z w' r, @s_mul fp_value E x y w = Ok (z, w')
    ∧ (∀ me, @recons_at fp_value E me z = Ok r) ∧ Z.abs (shift * r - v * u) < shift)
  ∧ (length xs = length ys →
     ∃ zs w' rs, @v_mul fp_value E xs ys w = Ok (zs, w')
       ∧ (∀ me, @recons_vec_at fp_value E me zs = Ok rs)
       ∧ Forall2 (λ vu r, Z.abs (shift * r - vu.1 * vu.2) < shift) (zip vs us) rs).
Proof.
  intros Hx Hy Hxs Hys HB Ho Hm. split.
  - destruct (s_mul_fp x y v u B w Hx Hy Ho) as (z & w' & He & [Hz Ha] & _).
    exists z, w', (Zsum z). split_and!; [exact He|intros me; by eapply recons_fp|exact Ha].
  - intros Hl. destruct (v_mul_fp xs ys vs us B w Hxs Hys Hl HB Ho) as (zs & w' & He & Hzs & _).
    exists zs, w', (map Zsum zs). split_and!; [exact He| |].
    + intros me. eapply (recons_vec_fp me (mul_bound T B)); [|done]. clear -Hzs.
      induction Hzs as [|? z ? ? [Hz _]]; simpl; by constructor.
    + clear -Hzs. induction Hzs as [|? z ? ? [_ Ha]]; simpl; by constructor.
Qed.

Lemma fp_mul_one_ulp_witness :
  ∃ z w' r, @s_mul (@fp_value rat_dec) demo_env [shift; 2 * shift; 50] [7; 1; - shift] world0 = Ok (z, w')
    ∧ (∀ me, @recons_at (@fp_value rat_dec) demo_env me z = Ok r)
    ∧ Z.abs (shift * r - (3 * shift + 50) * (8 - shift)) < shift.
Proof.
  refine (proj1 (@fp_mul_one_ulp rat_dec rat_laws demo_env _ 36 _ (2 * shift) _ _
    (3 * shift + 50) (8 - shift) [] [] [] [] world0 _ _ _ _ _ _ _));
    try (by constructor); try (split_and!; [reflexivity| |reflexivity]; repeat constructor; vm_compute; discriminate);
    vm_compute; (reflexivity || discriminate).
Defined.

(** [smean] and [variance] are total on a column whose length is an [int],
    and what the parties reconstruct is the mean up to [n_parties] units, and
    the mean of the squared deviations from that mean up to [n_parties + 1]
    units; [n] is the length of the column. *)
Theorem mean_variance_error `{DL : DecLaws} {E : Env} {V : ValidEnv E} {T} {TL : TripleLaws T E}
    B v vs w :
  Forall2 (FShares B) v vs → v ≠ [] → 0 ≤ B → Z.of_nat (length v) < 2 ^ 31 →
  let n := Z.of_nat (length v) in
  let B' := B + (n * B + 1) in
  opened T B' < wire → n * mul_bound T B' + 1 < wire → n * B + 1 < wire →
  ∃ mean_share mean var_share w' var,
    Math.smean v = Ok mean_share ∧ (∀ me, @recons_at fp_value E me mean_share = Ok mean)
    ∧ Z.abs (n * mean - Zsum vs) ≤ Z.of_nat n_parties * n
    ∧ Math.variance v w = Ok (var_share, w') ∧ (∀ me, @recons_at fp_value E me var_share = Ok var)
    ∧ Z.abs (shift * n * var - Zsum (map (λ x, (x - mean) * (x - mean)) vs))
      ≤ (Z.of_nat n_parties + 1) * n * shift.
Proof.
  intros Hv Hne HB Hl n B' Ho Hm Hn.
  destruct (smean_fp B v vs Hv Hne HB Hl ltac:(fold n; lia)) as (avg & Havg & Ha & He).
  destruct (variance_fp B v vs w Hv Hne HB Hl Ho ltac:(unfold B', n in *; lia) ltac:(unfold n in *; lia))
    as (avg' & Havg' & x & w' & Hx & Hxs & Hxe).
  rewrite Havg in Havg'. injection Havg' as <-.
  exists avg, (Zsum avg), x, w', (Zsum x). split_and!; [done| |exact He|exact Hx| |exact Hxe].
  - intros me. by eapply recons_fp.
  - intros me. by eapply recons_fp.
Qed.

Ltac demo_share :=
  apply Forall2_cons; split;
  [split_and!; [reflexivity|repeat constructor; vm_compute; discriminate|reflexivity]|].

Lemma mean_variance_error_witness :
  let v := [[shift; 2; 1]; [3; 4 * shift; 0]] in
  let vs := [shift + 3; 4 * shift + 3] in
  let n := Z.of_nat (length v) in
  ∃ mean_share mean var_share w' var,
    @Math.smean rat_dec demo_env v = Ok mean_share
    ∧ (∀ me, @recons_at (@fp_value rat_dec) demo_env me mean_share = Ok mean)
    ∧ Z.abs (n * mean - Zsum vs) ≤ Z.of_nat (@n_parties demo_env) * n
    ∧ @Math.variance rat_dec demo_env v world0 = Ok (var_share, w')
    ∧ (∀ me, @recons_at (@fp_value rat_dec) demo_env me var_share = Ok var)
    ∧ Z.abs (shift * n * var - Zsum (map (λ x, (x - mean) * (x - mean)) vs))
      ≤ (Z.of_nat (@n_parties demo_env) + 1) * n * shift.
Proof.
  intros v vs n.
  apply (@mean_variance_error rat_dec rat_laws demo_env _ 36 _ (4 * shift) v vs world0).
  - repeat demo_share. apply Forall2_nil; exact I.
  - discriminate.
  - vm_compute; discriminate.
  - vm_compute; reflexivity.
  - vm_compute; reflexivity.
  - vm_compute; reflexivity.
  - vm_compute; reflexivity.
Defined.

(** The share-matrix product multiplies matrices: it throws when the inner
    dimensions differ, and otherwise returns a matrix of the outer dimensions
    whose opened entries are the sums of [w] products of the two matrices'
    entries, each up to [w] units in the last place. *)
Theorem matrix_mul_error `{DL : DecLaws} {E : Env} {V : ValidEnv E} {T} {TL : TripleLaws T E}
    B a b va vb w0 :
  Holds B a va → Holds B b vb → h a ≠ 0%nat → 0 ≤ B →
  opened T B < wire → 0 ≤ Z.of_nat (w a) * mul_bound T B < wire →
  (w a = h b →
   ∃ m w' vm, mul a b w0 = Ok (m, w') ∧ h m = h a ∧ w m = w b
     ∧ open_and_recons m w' = Ok (vm, w')
     ∧ ∀ i j, (i < h a)%nat → (j < w b)%nat →
       Z.abs (shift * entry vm i j - Zsum (map (λ k, entry va i k * entry vb k j) (seq 0 (w a))))
       ≤ Z.of_nat (w a) * shift)
  ∧ (w a ≠ h b → mul a b w0 = Throw (RuntimeError "Matrix Mul Error!")).
Proof.
  intros Ha Hb Hh HB Ho Hm. split; intros Hw.
  - destruct (mul_fp B a b va vb w0 Ha Hb Hw Hh HB Ho) as (m & w' & He & Hhm & Hwm & Hl & Hc).
    destruct (open_fp B _ va vb _ _ w' Hc Hm) as (vm & w2 & Ho' & -> & ->).
    exists m, w', (map (map Zsum) (mat m)). split_and!; [exact He|done|done|exact Ho'|].
    intros i j Hi Hj.
    destruct (lookup_lt_is_Some_2 (mat m) i ltac:(lia)) as [r Hr].
    destruct (Forall2_lookup_r _ _ _ _ _ Hc Hr) as (l & Hl' & Hrow).
    apply list_lookup_fmap_Some in Hl' as (i' & -> & Hi'). apply lookup_seq in Hi' as [-> _].
    pose proof (Forall2_length _ _ _ Hrow) as Hlr. rewrite length_map, length_seq in Hlr.
    destruct (lookup_lt_is_Some_2 r j ltac:(lia)) as [z Hz].
    destruct (Forall2_lookup_r _ _ _ _ _ Hrow Hz) as (ij & Hij & _ & Hz').
    apply list_lookup_fmap_Some in Hij as (j' & -> & Hj'). apply lookup_seq in Hj' as [-> _].
    unfold entry at 1. rewrite (nth_lookup_Some _ _ _ (map Zsum r)) by (by rewrite list_lookup_fmap, Hr).
    rewrite (nth_lookup_Some _ _ _ (Zsum z)) by (by rewrite list_lookup_fmap, Hz). exact Hz'.
  - unfold mul. by rewrite (proj2 (Nat.eqb_neq _ _) Hw).
Qed.

Ltac demo_holds :=
  split_and!; [reflexivity|repeat constructor|];
  repeat (apply Forall2_cons; split; [repeat demo_share; apply Forall2_nil; exact I|]);
  apply Forall2_nil; exact I.

Lemma matrix_mul_error_witness :
  let a := mkMatrix 1 2 [[[shift; 0; 0]; [0; 2 * shift; 0]]] in
  let b := mkMatrix 2 1 [[[0; 3 * shift; 0]]; [[0; 0; shift]]] in
  let va := [[shift; 2 * shift]] in
  let vb := [[3 * shift]; [shift]] in
  ∃ m w' vm, @mul rat_dec demo_env a b world0 = Ok (m, w') ∧ h m = h a ∧ w m = w b
    ∧ @open_and_recons rat_dec demo_env m w' = Ok (vm, w')
    ∧ ∀ i j, (i < h a)%nat → (j < w b)%nat →
      Z.abs (shift * entry vm i j - Zsum (map (λ k, entry va i k * entry vb k j) (seq 0 (w a))))
      ≤ Z.of_nat (w a) * shift.
Proof.
  intros a b va vb.
  apply (@matrix_mul_error rat_dec rat_laws demo_env _ 36 _ (3 * shift) a b va vb world0).
  - demo_holds.
  - demo_holds.
  - discriminate.
  - vm_compute; discriminate.
  - vm_compute; reflexivity.
  - split; vm_compute; (reflexivity || discriminate).
  - reflexivity.
Defined.
