(* ===== verification/Double.v ===== *)
(** * [double]  (the language's floating-point type, as the code uses it)

    IEEE 754 binary64 with round-to-nearest-even, as C++ on the supported
    platforms has it: every finite double is a whole multiple of the smallest
    subnormal [2^-1074], and an operation is the exact rational result rounded
    once.  Signed zeros are identified: no operation of the code tells them
    apart.  [FixedPointImpl]'s constructor from [double] and its [getDoubleVal]
    (FixedPoint/FixedPoint.hpp) are at the end, with the conversion of [cpp_int]
    to [double] as a parameter. *)
From stdpp Require Import base list numbers strings.
From Stdlib Require Import ZArith Lia.
From S2P Require Import Prelude FixedPoint.
#[local] Open Scope Z_scope.

Module Double.

(** [Fin k] is the number [k / unit]. *)
Inductive double : Type :=
  | Fin (k : Z)
  | Inf (negative : bool)
  | NaN.

Definition unit : Z := Z.shiftl 1 1074.
Definition precision : Z := 53.
(** The first power of two that is too large: [2^1024]. *)
Definition limit : Z := Z.shiftl 1 2098.

(** The integer nearest to [n / d], the even one of two; [0 ≤ n], [0 < d]. *)
Definition nearest_even (n d : Z) : Z :=
  let q := n / d in
  match 2 * (n mod d) ?= d with
  | Lt => q
  | Eq => if Z.even q then q else q + 1
  | Gt => q + 1
  end.

(** The double nearest to [n / d] units, [0 < d]. *)
Definition exponent (q : Z) : Z := Z.max 0 (Z.log2 q - (precision - 1)).
Definition overflow (k : Z) (negative : bool) : double :=
  if limit <=? k then Inf negative else Fin (if negative then - k else k).
Definition round_to (n d : Z) : double :=
  let a := Z.abs n in
  let e := exponent (a / d) in
  overflow (nearest_even a (Z.shiftl d e) * Z.shiftl 1 e) (n <? 0).

Definition of_Z (z : Z) : double := round_to (z * unit) 1.
(** The literal [n / d]. *)
Definition lit (n d : Z) : double := round_to (n * unit) d.
(** [std::pow(2, m)] for a small non-negative [int]. *)
Definition pow2 (m : Z) : double := Fin (Z.shiftl unit m).
Definition max_double : double := Fin (limit - Z.shiftl 1 2045).

Definition isinf (x : double) : bool := match x with Inf _ => true | _ => false end.
Definition neg (x : double) : double :=
  match x with Fin k => Fin (- k) | Inf s => Inf (negb s) | NaN => NaN end.

Definition add (x y : double) : double :=
  match x, y with
  | Fin a, Fin b => round_to (a + b) 1
  | NaN, _ | _, NaN => NaN
  | Inf s, Inf t => if Bool.eqb s t then Inf s else NaN
  | Inf s, Fin _ | Fin _, Inf s => Inf s
  end.
Definition sub (x y : double) : double := add x (neg y).

Definition negative (k : Z) : bool := k <? 0.
Definition mul (x y : double) : double :=
  match x, y with
  | Fin a, Fin b => round_to (a * b) unit
  | NaN, _ | _, NaN => NaN
  | Inf s, Inf t => Inf (xorb s t)
  | Inf s, Fin b | Fin b, Inf s => if b =? 0 then NaN else Inf (xorb s (negative b))
  end.

Definition div (x y : double) : double :=
  match x, y with
  | Fin a, Fin b =>
      if b =? 0 then (if a =? 0 then NaN else Inf (negative a))
      else round_to (Z.sgn b * a * unit) (Z.abs b)
  | NaN, _ | _, NaN => NaN
  | Inf _, Inf _ => NaN
  | Inf s, Fin b => Inf (xorb s (negative b))
  | Fin _, Inf _ => Fin 0
  end.

(** [std::sqrt]: the nearest double to the exact root, which is never halfway
    between two. *)
Definition sqrt (x : double) : double :=
  match x with
  | Fin k =>
      if k <? 0 then NaN
      else
        let n := k * unit in
        let s := Z.sqrt n in
        let e := exponent s in
        let q := Z.shiftr s e in
        let half := Z.shiftl (2 * q + 1) e in
        Fin (Z.shiftl (if half * half <? 4 * n then q + 1 else q) e)
  | Inf false => Inf false
  | _ => NaN
  end.

(** [std::floor], [std::round] (halves away from zero): exact. *)
Definition floor (x : double) : double :=
  match x with Fin k => Fin (k / unit * unit) | _ => x end.
Definition round_Z (k : Z) : Z := Z.sgn k * ((2 * Z.abs k + unit) / (2 * unit)).
Definition round (x : double) : double :=
  match x with Fin k => Fin (round_Z k * unit) | _ => x end.

(** Comparisons: false when an operand is not a number. *)
Definition ltb (x y : double) : bool :=
  match x, y with
  | Fin a, Fin b => a <? b
  | Inf true, Fin _ | Inf true, Inf false | Fin _, Inf false => true
  | _, _ => false
  end.
Definition eqb (x y : double) : bool :=
  match x, y with
  | Fin a, Fin b => a =? b
  | Inf s, Inf t => Bool.eqb s t
  | _, _ => false
  end.
Definition leb (x y : double) : bool := ltb x y || eqb x y.

(** Conversion to an integer type without a bound: truncation. *)
Definition to_Z (x : double) : result Z :=
  match x with
  | Fin k => Ok (Z.quot k unit)
  | _ => Throw (Undefined "integer from a double that is not finite")
  end.
(** Conversion to a [w]-bit signed type: undefined out of range. *)
Definition to_signed (w : Z) (x : double) : result Z :=
  rbind (to_Z x) (λ z,
  if (- 2 ^ (w - 1) <=? z) && (z <? 2 ^ (w - 1)) then Ok z
  else Throw (Undefined "integer from a double out of range")).

(** ** Lemmas *)

Lemma unit_pos : 0 < unit.
Proof. vm_compute. reflexivity. Qed.

Lemma unit_pow : unit = 2 ^ 1074.
Proof. vm_compute. reflexivity. Qed.

Lemma limit_pow : limit = 2 ^ 2098.
Proof. vm_compute. reflexivity. Qed.

#[global] Opaque unit limit.

Lemma nearest_even_bound n d : 0 < d → 2 * Z.abs (d * nearest_even n d - n) ≤ d.
Proof.
  intros Hd. unfold nearest_even. pose proof (Z.div_mod n d ltac:(lia)) as Hn.
  pose proof (Z.mod_pos_bound n d Hd) as Hr.
  revert Hn Hr; generalize (n mod d) (n / d); intros r q -> Hr.
  destruct (Z.compare_spec (2 * r) d) as [H|H|H]; [destruct (Z.even q)|..]; nia.
Qed.

Lemma nearest_even_exact q d : 0 < d → nearest_even (q * d) d = q.
Proof.
  intros Hd. unfold nearest_even. rewrite Z.mod_mul, Z.div_mul by lia.
  destruct (Z.compare_spec (2 * 0) d); lia.
Qed.

Lemma nearest_even_nonneg n d : 0 ≤ n → 0 < d → 0 ≤ nearest_even n d.
Proof.
  intros Hn Hd. unfold nearest_even. pose proof (Z.div_pos n d Hn Hd).
  destruct (_ ?= _); [destruct (Z.even _)|..]; lia.
Qed.

Lemma exponent_nonneg q : 0 ≤ exponent q.
Proof. unfold exponent. lia. Qed.

(** The unit of the rounding is at most [2^-52] of the number. *)
Lemma exponent_small q : 0 ≤ q → 0 < exponent q → 2 ^ exponent q * 2 ^ 52 ≤ q.
Proof.
  intros Hq. unfold exponent, precision. intros H.
  assert (q ≠ 0) by (intros ->; vm_compute in H; discriminate).
  rewrite Z.max_r, <- Z.pow_add_r by lia. replace (Z.log2 q - (53 - 1) + 52) with (Z.log2 q) by lia.
  apply Z.log2_spec. lia.
Qed.

(** *** The rounding error: at most half a unit in the 53rd place. *)
Lemma round_to_finite n d :
  0 < d → Z.abs n < limit / 2 * d →
  ∃ k, round_to n d = Fin k
    ∧ 2 * Z.abs (k * d - n) ≤ Z.max d (Z.abs n / 2 ^ 52)
    ∧ (0 ≤ n → 0 ≤ k) ∧ (n ≤ 0 → k ≤ 0).
Proof.
  intros Hd Hn. unfold round_to. set (a := Z.abs n) in *. set (e := exponent (a / d)).
  assert (0 ≤ a / d) as Hq by (apply Z.div_pos; lia).
  assert (0 ≤ e) as He by apply exponent_nonneg.
  rewrite !Z.shiftl_mul_pow2, Z.mul_1_l by lia.
  assert (0 < 2 ^ e) as Hp by (apply Z.pow_pos_nonneg; lia).
  set (m := nearest_even a (d * 2 ^ e)).
  assert (2 * Z.abs (d * 2 ^ e * m - a) ≤ d * 2 ^ e) as Hm
    by (apply nearest_even_bound; nia).
  assert (0 ≤ m) as Hm0 by (apply nearest_even_nonneg; unfold a; nia).
  assert (d * 2 ^ e ≤ Z.max d (a / 2 ^ 52)) as Hde.
  { destruct (Z.eq_dec e 0) as [->|Hne]; [rewrite Z.pow_0_r; lia|].
    pose proof (exponent_small (a / d) Hq ltac:(fold e; lia)) as Hs. fold e in Hs.
    apply Z.max_le_iff; right. apply Z.div_le_lower_bound; [lia|].
    pose proof (Z.mul_div_le a d Hd). nia. }
  assert (0 ≤ a / 2 ^ 52 ≤ a) as Ha52.
  { unfold a. split; [apply Z.div_pos; lia|]. apply Z.div_le_upper_bound; lia. }
  assert (2 ≤ limit / 2) as Hlim by (rewrite limit_pow; vm_compute; discriminate).
  assert (2 * (limit / 2) = limit) as Hl2 by (rewrite limit_pow; reflexivity).
  assert (m * 2 ^ e < limit) as Hlt.
  { apply (Z.mul_lt_mono_pos_r d); [lia|]. nia. }
  unfold overflow. destruct (Z.leb_spec limit (m * 2 ^ e)); [lia|].
  eexists; split; [reflexivity|].
  destruct (Z.ltb_spec n 0); split_and!; try (unfold a in *; nia);
    (replace (Z.abs _) with (Z.abs (d * 2 ^ e * m - a)) by (unfold a; lia)); lia.
Qed.

(** *** Numbers with 53 significant bits are represented exactly. *)
Definition representable (k : Z) : Prop :=
  ∃ m e, 0 ≤ e ∧ Z.abs m ≤ 2 ^ 53 ∧ k = m * 2 ^ e.

Lemma representable_exponent k :
  representable k → (2 ^ exponent (Z.abs k) | Z.abs k).
Proof.
  intros (m & e & He & Hm & ->). rewrite Z.abs_mul, (Z.abs_eq (2 ^ e)) by (apply Z.pow_nonneg; lia).
  destruct (Z.eq_dec m 0) as [->|Hm0]; [apply Z.divide_0_r|].
  set (a := Z.abs m) in *. assert (1 ≤ a ≤ 2 ^ 53) as Ha by (unfold a; lia).
  assert (Z.log2 (a * 2 ^ e) = Z.log2 a + e) as Hl.
  { rewrite Z.log2_mul_pow2 by lia. lia. }
  unfold exponent, precision. rewrite Hl.
  destruct (Z.eq_dec a (2 ^ 53)) as [->|Hne].
  - rewrite Z.log2_pow2, Z.max_r by lia. replace (53 + e - (53 - 1)) with (e + 1) by lia.
    exists (2 ^ 52). rewrite (Z.pow_add_r 2 e 1) by lia. change (2 ^ 53) with (2 ^ 52 * 2 ^ 1). ring.
  - assert (Z.log2 a < 53) as Hlt by (apply Z.log2_lt_pow2; lia).
    exists (a * 2 ^ (e - Z.max 0 (Z.log2 a + e - (53 - 1)))).
    rewrite <- Z.mul_assoc, <- Z.pow_add_r by lia. f_equal. f_equal. lia.
Qed.

Lemma round_to_exact k d :
  0 < d → representable k → Z.abs k < limit → round_to (k * d) d = Fin k.
Proof.
  intros Hd Hk Hl. unfold round_to. rewrite Z.abs_mul, (Z.abs_eq d), Z.div_mul by lia.
  destruct (representable_exponent k Hk) as [q Hq]. pose proof (exponent_nonneg (Z.abs k)) as He.
  set (e := exponent (Z.abs k)) in *. rewrite !Z.shiftl_mul_pow2, Z.mul_1_l by done.
  assert (0 < 2 ^ e) as Hp by (apply Z.pow_pos_nonneg; lia).
  replace (Z.abs k * d) with (q * (d * 2 ^ e)) by (rewrite Hq; ring).
  rewrite nearest_even_exact by nia. rewrite <- Hq. unfold overflow.
  destruct (Z.leb_spec limit (Z.abs k)); [lia|]. f_equal.
  destruct (Z.ltb_spec (k * d) 0); nia.
Qed.

Lemma representable_int z : Z.abs z ≤ 2 ^ 53 → representable (z * unit).
Proof. intros Hz. exists z, 1074. rewrite unit_pow. lia. Qed.

Lemma limit_unit : limit = 2 ^ 1024 * unit.
Proof. rewrite limit_pow, unit_pow, <- Z.pow_add_r by lia. f_equal. Qed.

Lemma of_Z_exact z : Z.abs z ≤ 2 ^ 53 → of_Z z = Fin (z * unit).
Proof.
  intros Hz. unfold of_Z. pose proof (round_to_exact (z * unit) 1) as H.
  rewrite Z.mul_1_r in H. apply H; [lia|by apply representable_int|].
  rewrite limit_unit, Z.abs_mul, (Z.abs_eq unit) by (pose proof unit_pos; lia).
  pose proof unit_pos. apply Z.mul_lt_mono_pos_r; [done|].
  eapply Z.le_lt_trans; [exact Hz|]. vm_compute. reflexivity.
Qed.

(** A perfect square has its exact root. *)
Lemma sqrt_square r : 0 ≤ r ≤ 2 ^ 53 → sqrt (Fin (r * r * unit)) = Fin (r * unit).
Proof.
  intros Hr. unfold sqrt. pose proof unit_pos as Hu.
  destruct (Z.ltb_spec (r * r * unit) 0); [nia|].
  replace (r * r * unit * unit) with ((r * unit) * (r * unit)) by ring.
  rewrite Z.sqrt_square by nia.
  destruct (representable_exponent (r * unit) (representable_int r ltac:(lia))) as [q Hq].
  rewrite (Z.abs_eq (r * unit)) in Hq by nia.
  pose proof (exponent_nonneg (r * unit)) as He. set (e := exponent (r * unit)) in *.
  assert (0 < 2 ^ e) as Hp by (apply Z.pow_pos_nonneg; lia).
  rewrite !Z.shiftl_mul_pow2, Z.shiftr_div_pow2 by done.
  assert (r * unit / 2 ^ e = q) as Hq' by (rewrite Hq; apply Z.div_mul; lia). rewrite Hq'.
  assert (0 ≤ q) as Hq0 by nia.
  destruct (Z.ltb_spec ((2 * q + 1) * 2 ^ e * ((2 * q + 1) * 2 ^ e)) (4 * (r * unit * (r * unit))));
    [exfalso|by rewrite <- Hq].
  rewrite Hq in *. nia.
Qed.

Lemma round_Z_close k : 2 * Z.abs (round_Z k * unit - k) ≤ unit.
Proof.
  unfold round_Z. pose proof unit_pos as Hu.
  pose proof (Z.div_mod (2 * Z.abs k + unit) (2 * unit) ltac:(lia)) as H.
  pose proof (Z.mod_pos_bound (2 * Z.abs k + unit) (2 * unit) ltac:(lia)) as Hr.
  revert H Hr. generalize ((2 * Z.abs k + unit) mod (2 * unit)) ((2 * Z.abs k + unit) / (2 * unit)).
  intros r q H Hr.
  assert (2 * Z.abs (q * unit - Z.abs k) ≤ unit) as Hq by nia.
  destruct (Z.sgn_spec k) as [[Hk ->]|[[Hk ->]|[Hk ->]]]; nia.
Qed.
End Double.

(** ** FixedPoint/FixedPoint.hpp *)

(** [cpp_int::convert_to<double>]. *)
Class CppInt := int_to_double : Z → Double.double.

(** What the code relies on: up to 53 bits the conversion is exact, beyond it
    keeps the first 52 bits. *)
Class CppIntLaws (CI : CppInt) : Prop := {
  int_exact : ∀ z, Z.abs z ≤ 2 ^ 53 → int_to_double z = Double.Fin (z * Double.unit);
  int_close : ∀ z, Z.abs z < 2 ^ 900 → ∃ k, int_to_double z = Double.Fin k
    ∧ 2 ^ 52 * Z.abs (k - z * Double.unit) ≤ Z.abs z * Double.unit
}.

Module FixedDouble.
Import Double.

(** The constructor from a floating-point type. *)
Definition of_double (v : double) : result Z :=
  if isinf v then to_Z max_double else to_Z (mul v (of_Z FixedPoint.shift)).

Section GetDoubleVal.
Context `{CppInt}.

Definition getDoubleVal (x : Z) : double :=
  let ret := int_to_double x in
  let ret := if isinf ret then max_double else ret in
  div ret (of_Z FixedPoint.shift).
End GetDoubleVal.
End FixedDouble.

(** ** Lemmas *)

Section DoubleLaws.
Context `{CL : CppIntLaws}.
Import FixedPoint Double FixedDouble.

Lemma of_Z_shift : of_Z shift = Fin (shift * unit).
Proof. apply of_Z_exact. vm_compute. discriminate. Qed.

Lemma shift_unit_pos : 0 < shift * unit.
Proof. pose proof shift_pos. pose proof unit_pos. nia. Qed.

Lemma unit_small z n : 0 ≤ n ≤ 900 → Z.abs z ≤ 2 ^ n → Z.abs (z * unit) < limit.
Proof.
  intros Hn Hz. rewrite limit_unit, Z.abs_mul, (Z.abs_eq unit) by (pose proof unit_pos; lia).
  pose proof unit_pos. apply Z.mul_lt_mono_pos_r; [done|].
  eapply Z.le_lt_trans; [exact Hz|]. apply Z.pow_lt_mono_r; lia.
Qed.

(** Whole numbers survive both conversions. *)
Lemma getDoubleVal_int z : Z.abs z * shift ≤ 2 ^ 53 → getDoubleVal (z * shift) = Fin (z * unit).
Proof.
  intros Hz. unfold getDoubleVal. pose proof shift_pos as Hs. pose proof unit_pos as Hu.
  rewrite int_exact by (rewrite Z.abs_mul; unfold shift in *; lia). cbn [isinf].
  rewrite of_Z_shift. unfold div. pose proof shift_unit_pos as Hsu.
  rewrite (proj2 (Z.eqb_neq _ _)) by lia.
  rewrite (Z.sgn_pos (shift * unit)), (Z.abs_eq (shift * unit)) by lia.
  replace (1 * (z * shift * unit) * unit) with (z * unit * (shift * unit)) by ring.
  assert (Z.abs z ≤ 2 ^ 53) as Hz' by (unfold shift in *; lia).
  apply round_to_exact; [done|by apply representable_int|by apply (unit_small z 53)].
Qed.

Lemma of_double_int z : Z.abs z ≤ 2 ^ 34 → of_double (Fin (z * unit)) = Ok (z * shift).
Proof.
  intros Hz. unfold of_double. cbn [isinf]. rewrite of_Z_shift. unfold mul.
  replace (z * unit * (shift * unit)) with (z * shift * unit * unit) by ring.
  pose proof unit_pos as Hu. rewrite round_to_exact; [|done| |].
  - cbn [to_Z]. rewrite Z.quot_mul by lia. done.
  - exists (z * 390625), 1082. rewrite unit_pow. unfold shift. split_and!; [lia|lia|].
    change 1082 with (8 + 1074). rewrite Z.pow_add_r by lia. change (2 ^ 8) with 256. ring.
  - apply (unit_small _ 61); [lia|]. unfold shift. lia.
Qed.

(** The error of a conversion followed by a division. *)
Lemma quotient_error u s x i k :
  0 < u → 2 ^ 53 * Z.abs (k * (s * u) - i * u) ≤ 2 ^ 52 * (s * u) + Z.abs i * u →
  2 ^ 52 * Z.abs (i - x * u) ≤ Z.abs x * u → 2 ^ 60 * (2 ^ 52 * s) ≤ Z.abs x * u →
  2 ^ 51 * Z.abs (k * s - x * u) ≤ Z.abs x * u.
Proof.
  intros Hu He Hc Hb. replace (k * (s * u) - i * u) with (u * (k * s - i)) in He by ring.
  rewrite Z.abs_mul, (Z.abs_eq u) in He by lia.
  assert (2 ^ 53 * Z.abs (k * s - i) ≤ 2 ^ 52 * s + Z.abs i) as He'
    by (apply (Z.mul_le_mono_pos_r _ _ u); lia).
  lia.
Qed.

(** The largest numbers the conversions meet are far below [limit]. *)
Lemma half_limit : limit / 2 = 2 ^ 1023 * unit.
Proof.
  rewrite limit_unit. change (2 ^ 1024) with (2 ^ (1023 + 1)). rewrite Z.pow_add_r by done.
  rewrite <- Z.mul_assoc, (Z.mul_comm (2 ^ 1)), Z.mul_assoc. by apply Z.div_mul.
Qed.

Lemma double_room x i :
  Z.abs x < 2 ^ 900 → Z.abs i ≤ 2 * (Z.abs x * unit) → Z.abs i < limit / 2.
Proof.
  intros Hx Hi. rewrite half_limit. eapply Z.le_lt_trans; [exact Hi|].
  rewrite Z.mul_assoc. apply Z.mul_lt_mono_pos_r; [exact unit_pos|].
  eapply Z.lt_le_trans; [apply Z.mul_lt_mono_pos_l; [done|exact Hx]|].
  rewrite <- Z.pow_succ_r by done. by apply Z.pow_le_mono_r.
Qed.

Lemma unit_large n : 0 ≤ n ≤ 1074 → 2 ^ n ≤ unit.
Proof. intros [_ Hn]. rewrite unit_pow. by apply Z.pow_le_mono_r. Qed.

Lemma getDoubleVal_close x : Z.abs x < 2 ^ 900 →
  ∃ k, getDoubleVal x = Fin k ∧ 2 ^ 51 * Z.abs (k * shift - x * unit) ≤ Z.abs x * unit.
Proof.
  intros Hx. destruct (int_close x Hx) as (i & Hi & Hc). pose proof (double_room x i Hx) as Hroom. clear Hx.
  unfold getDoubleVal. rewrite Hi. cbn [isinf]. rewrite of_Z_shift. unfold div.
  pose proof shift_unit_pos as Hsu. rewrite (proj2 (Z.eqb_neq _ _)) by lia.
  rewrite (Z.sgn_pos (shift * unit)), (Z.abs_eq (shift * unit)) by lia.
  pose proof unit_pos as Hu. pose proof shift_pos as Hs.
  assert (Z.abs (1 * i * unit) < limit / 2 * (shift * unit)) as Hb.
  { specialize (Hroom ltac:(nia)). rewrite Z.mul_1_l, Z.abs_mul, (Z.abs_eq unit) by lia. nia. }
  destruct (round_to_finite (1 * i * unit) (shift * unit) ltac:(lia) Hb) as (k & Hk & He & Hk0 & Hk1).
  exists k. split; [exact Hk|]. clear Hk Hb Hroom Hi. rewrite Z.mul_1_l in He.
  destruct (Z.eq_dec x 0) as [->|Hx0].
  { assert (i = 0) as -> by lia. specialize (Hk0 ltac:(done)). specialize (Hk1 ltac:(done)). lia. }
  assert (Z.abs (i * unit) / 2 ^ 52 * 2 ^ 52 ≤ Z.abs i * unit) as Hq.
  { rewrite Z.mul_comm, Z.abs_mul, (Z.abs_eq unit) by lia. apply Z.mul_div_le. lia. }
  assert (2 ^ 53 * Z.abs (k * (shift * unit) - i * unit)
          ≤ 2 ^ 52 * (shift * unit) + Z.abs i * unit) as He2 by lia.
  apply (quotient_error unit shift x i k); [done|exact He2|exact Hc|].
  clear He He2 Hq Hc Hk0 Hk1. pose proof (unit_large 140 ltac:(done)) as Hbig.
  transitivity (2 ^ 140); [done|]. nia.
Qed.

(** The integer next to a fixed-point number, by way of [double]. *)
Lemma round_getDoubleVal x : Z.abs x < 2 ^ 900 →
  ∃ r, round (getDoubleVal x) = Fin (r * unit) ∧ 2 ^ 51 * (2 * Z.abs (r * shift - x) - shift) ≤ 2 * Z.abs x.
Proof.
  intros Hx. destruct (getDoubleVal_close x Hx) as (k & -> & Hk). cbn [round].
  exists (round_Z k). split; [done|]. pose proof (round_Z_close k) as Hr.
  pose proof unit_pos as Hu. pose proof shift_pos as Hs.
  set (r := round_Z k) in *. clearbody r.
  apply (Z.mul_le_mono_pos_r _ _ unit); [done|].
  assert (2 * Z.abs (r * unit * shift - k * shift) ≤ unit * shift) as Hr'.
  { replace (r * unit * shift - k * shift) with (shift * (r * unit - k)) by ring.
    rewrite Z.abs_mul, (Z.abs_eq shift) by lia. nia. }
  assert (Z.abs (r * shift - x) * unit = Z.abs (r * unit * shift - x * unit)) as Habs.
  { replace (r * unit * shift - x * unit) with ((r * shift - x) * unit) by ring.
    rewrite Z.abs_mul, (Z.abs_eq unit) by lia. done. }
  replace (2 ^ 51 * (2 * Z.abs (r * shift - x) - shift) * unit)
    with (2 ^ 51 * (2 * (Z.abs (r * shift - x) * unit) - unit * shift)) by ring.
  rewrite Habs. lia.
Qed.
End DoubleLaws.

(** A concrete conversion: round to nearest. *)
Definition nearest : CppInt := Double.of_Z.

Lemma nearest_laws : @CppIntLaws nearest.
Proof.
  split.
  - intros z Hz. by apply Double.of_Z_exact.
  - intros z Hz. pose proof Double.unit_pos as Hu.
    assert (Z.abs (z * Double.unit) = Z.abs z * Double.unit) as Ha
      by (rewrite Z.abs_mul, (Z.abs_eq Double.unit); lia).
    destruct (Double.round_to_finite (z * Double.unit) 1) as (k & Hk & He & _); [lia| |].
    + rewrite Ha, Double.limit_unit. change (2 ^ 1024) with (2 ^ 1023 * 2).
      replace (2 ^ 1023 * 2 * Double.unit) with (2 ^ 1023 * Double.unit * 2) by ring.
      rewrite Z.div_mul, Z.mul_1_r by lia. apply Z.mul_lt_mono_pos_r; [done|].
      eapply Z.lt_trans; [exact Hz|]. vm_compute. reflexivity.
    + exists k. split; [exact Hk|]. rewrite Z.mul_1_r, Ha in He.
      destruct (Z.eq_dec z 0) as [->|Hz0].
      { unfold Double.of_Z in Hk. assert (k = 0) as -> by (vm_compute in Hk; congruence). lia. }
      pose proof (Z.mul_div_le (Z.abs z * Double.unit) (2 ^ 52) ltac:(lia)).
      assert (2 ^ 53 ≤ Z.abs z * Double.unit).
      { rewrite Double.unit_pow. transitivity (1 * 2 ^ 1074); [vm_compute; discriminate|].
        apply Z.mul_le_mono_nonneg_r; lia. }
      lia.
Qed.

(** * Properties *)

Section RoundTrip.
Context `{CL : CppIntLaws}.
Import FixedPoint Double FixedDouble.

(** A fixed-point number below [2^49] units that goes through [double]
    ([FixedPoint(x.getDoubleVal())]) comes back as itself or as the number one
    unit nearer to zero: the two roundings of [double] stay below a unit, and
    the constructor truncates. *)
Theorem double_roundtrip x : Z.abs x ≤ 2 ^ 49 →
  ∃ y, of_double (getDoubleVal x) = Ok y ∧ (y = x ∨ y = x - Z.sgn x).
Proof.
  intros Hx. destruct (getDoubleVal_close x) as (k & -> & Hk).
  { eapply Z.le_lt_trans; [exact Hx|]. vm_compute. reflexivity. }
  unfold of_double. cbn [isinf]. rewrite of_Z_shift. unfold mul.
  replace (k * (shift * unit)) with (k * shift * unit) by ring.
  pose proof unit_pos as Hu. pose proof shift_pos as Hs.
  assert (Z.abs (k * shift) ≤ 2 ^ 50 * unit) as Hks by nia.
  assert (2 ^ 51 * 2 ≤ limit / 2 / unit) as Hlim.
  { rewrite limit_unit. change (2 ^ 1024) with (2 ^ 1023 * 2).
    replace (2 ^ 1023 * 2 * unit) with (2 ^ 1023 * unit * 2) by ring.
    rewrite Z.div_mul, Z.div_mul by lia. vm_compute. discriminate. }
  pose proof (Z.mul_div_le (limit / 2) unit Hu) as Hl2.
  destruct (round_to_finite (k * shift * unit) unit Hu) as (j & -> & Hj & _).
  { rewrite Z.abs_mul, (Z.abs_eq unit) by lia. apply Z.mul_lt_mono_pos_r; [done|]. nia. }
  cbn [to_Z]. eexists. split; [reflexivity|].
  rewrite Z.abs_mul, (Z.abs_eq unit) in Hj by lia.
  replace (j * unit - k * shift * unit) with (unit * (j - k * shift)) in Hj by ring.
  rewrite Z.abs_mul, (Z.abs_eq unit) in Hj by lia.
  pose proof (Z.mul_div_le (Z.abs (k * shift) * unit) (2 ^ 52) ltac:(lia)) as Hd.
  assert (2 ^ 53 * Z.abs (j - k * shift) ≤ 2 ^ 52 + Z.abs (k * shift)) as Hj'.
  { apply (Z.mul_le_mono_pos_r _ _ unit); [done|]. lia. }
  clear Hj Hd Hl2 Hlim.
  assert (2 ^ 60 ≤ unit) as Hbig by (rewrite unit_pow; vm_compute; discriminate).
  assert (Z.abs (j - x * unit) < unit) as Hc by lia. clear Hj' Hks Hk.
  pose proof (Z.quot_rem' j unit) as Hq. pose proof (Z.rem_bound_abs j unit ltac:(lia)) as Hr.
  pose proof (Z.rem_sign_nz j unit ltac:(lia)) as Hsg.
  destruct (Z.eq_dec (Z.rem j unit) 0) as [H0|H0];
    [left; nia|]. specialize (Hsg H0).
  destruct (Z.sgn_spec x) as [[Hxs ->]|[[Hxs ->]|[Hxs ->]]]; nia.
Qed.
End RoundTrip.

Lemma double_roundtrip_witness :
  ∃ y, FixedDouble.of_double (@FixedDouble.getDoubleVal nearest 29000000) = Ok y
    ∧ (y = 29000000 ∨ y = 29000000 - Z.sgn 29000000).
Proof.
  refine (@double_roundtrip nearest nearest_laws 29000000 _).
  vm_compute; discriminate.
Defined.
