(* ===== verification/FixedCompare.v ===== *)
(** * Comparisons, floor and remainder of fixed-point shares
      (Share/Share.hpp, Share/Compare.cpp)

    The protocols that extract bits from a share of a fixed-point number: a
    random bit as the sign of a random square root, the least significant bit
    of a masked number, [getFloor] and [LTZ] (less than zero) that halve bit
    by bit, and the operators [<], [==], [%] built on them.  They work with
    approximations: the "bit" is off by some units, every multiplication by
    [0.5] rounds at every party, and the opened number is rounded through
    [double].  The theorems follow these errors to the end.

    [while (true)] runs on fuel; it counts the draws of one random bit. *)
From stdpp Require Import base list numbers sets strings.
From Stdlib Require Import ZArith Lia.
From S2P Require Import Prelude FixedPoint Random TripleHandler Share SharePF ShareFP Double.
#[local] Open Scope Z_scope.
#[local] Open Scope qmpc_scope.

(** [std::stod] and [std::to_string(double)]. *)
Class DoubleText := {
  stod : string → result Double.double;
  to_string_double : Double.double → string
}.

Module FixedCompare.
Import FixedPoint FixedDouble.

(** [FixedPoint(c)] of a constant [c], and [FixedPoint(0.5)]. *)
Definition fp (c : Z) : Z := c * shift.
Definition half : Z := 50000000.

Section FixedCompare.
Context `{DF : DecFloat} `{E : Env} `{CI : CppInt}.
Context (fuel : nat).
#[local] Existing Instance fp_value.

(** [r / sqrt(r^2)], moved from -1, 1 to 0, 1. *)
Definition sign_bit (r : sharing) (square_r_rec : Z) : result sharing :=
  let! r_dash := of_double (Double.sqrt (getDoubleVal square_r_rec)) in
  let inv_r_dash := div (fp 1) r_dash in
  Ok (s_mulc (s_addc (s_mulc r inv_r_dash) (fp 1)) half).

Definition nonzero (square_r_rec : Z) : bool :=
  negb (Double.eqb (getDoubleVal square_r_rec) (Double.Fin 0)).

Fixpoint getRandBitShare_loop (fuel : nat) : M sharing :=
  match fuel with
  | O => throw OutOfFuel
  | S fuel =>
      let* r := getRand (-1000) 1000 in
      let* square_r := s_mul r r in
      let* square_r_rec := open_recons square_r in
      if nonzero square_r_rec then lift (sign_bit r square_r_rec)
      else getRandBitShare_loop fuel
  end.
Definition getRandBitShare : M sharing := getRandBitShare_loop fuel.

(** The version for [n] bits: a zero is redrawn one by one. *)
Definition getRandBitShare_vec (n : nat) : M (list sharing) :=
  let* r := getRandShares (-1000) 1000 n in
  let* square_r := v_mul r r in
  let* square_r_rec := open_recons_vec square_r in
  mmap (λ '(r_i, sq_i), if nonzero sq_i then lift (sign_bit r_i sq_i) else getRandBitShare)
    (zip r square_r_rec).

(** [T(std::round(c.getDoubleVal())) % T(2)] *)
Definition round_mod2 (c : Z) : result Z :=
  let! c := of_double (Double.round (getDoubleVal c)) in modulo c (fp 2).

(** [c + r0 - T(2) * c * r0]: exclusive or with a public bit. *)
Definition xor_public (c : Z) (r0 : sharing) : sharing :=
  s_sub (s_addc r0 c) (s_mulc r0 (mul (fp 2) c)).

Definition getLSBShare (y : sharing) : M sharing :=
  let* r0 := getRandBitShare in
  let* r_dash := getRand 1 1000 in
  let t := s_add (s_add y r0) (s_mulc r_dash (fp 2)) in
  let* c := open_recons t in
  let* c := lift (round_mod2 c) in
  ret (xor_public c r0).

Definition getLSBShare_vec (y : list sharing) : M (list sharing) :=
  let* r0 := getRandBitShare_vec (length y) in
  let* r_dash := getRandShares 0 1000 (length y) in
  let* t := v_add y r0 in
  let* t := v_add t (v_mulc r_dash (fp 2)) in
  let* c := open_recons_vec t in
  let* c := lift (traverse round_mod2 c) in
  ret (zip_with xor_public c r0).

(** One turn of the loops of [getFloor] and [LTZ]: [(y - b) * 0.5]. *)
Definition halve (y b : sharing) : sharing := s_mulc (s_sub y b) half.

Definition m_bits : nat := 16.
Definition k_bits : nat := 32.

Definition getFloor (s : sharing) : M sharing :=
  let x := s_mulc s (fp (2 ^ Z.of_nat m_bits)) in
  let y := s_addc x (fp (2 ^ Z.of_nat k_bits)) in
  let* y := mfold (λ y (_ : nat), let* b := getLSBShare y in ret (halve y b)) (seq 0 m_bits) y in
  ret (s_subc y (fp (2 ^ Z.of_nat (k_bits - m_bits)))).

Definition getFloor_vec (s : list sharing) : M (list sharing) :=
  let x := v_mulc s (fp (2 ^ Z.of_nat m_bits)) in
  let y := v_addc x (fp (2 ^ Z.of_nat k_bits)) in
  let* y := mfold (λ y (_ : nat),
      let* b := getLSBShare_vec y in let* d := v_sub y b in ret (v_mulc d half))
    (seq 0 m_bits) y in
  ret (map (λ y_j, s_subc y_j (fp (2 ^ Z.of_nat (k_bits - m_bits)))) y).

(** [LTZ]: [z] collects the bits of [2^k + x]. *)
Definition ltz_step (zy : sharing * sharing) (i : nat) : M (sharing * sharing) :=
  let '(z, y) := zy in
  let* b := getLSBShare y in
  ret (s_add z (s_mulc b (fp (2 ^ Z.of_nat i))), halve y b).

Definition LTZ (s : sharing) : M sharing :=
  let x := s_mulc s (fp (2 ^ Z.of_nat m_bits)) in
  let y := s_addc x (fp (2 ^ Z.of_nat k_bits)) in
  let* z := getLSBShare y in
  let y := halve y z in
  let* zy := mfold ltz_step (seq 1 (k_bits - 1)) (z, y) in
  ret (Math.s_divc (s_sub zy.1 x) (fp (2 ^ Z.of_nat k_bits))).

(** The common end of the four operators. *)
Definition decide_value (ret : Z) : result bool :=
  let v := getDoubleVal ret in
  if Double.ltb (Double.lit 95 100) v then Ok true
  else if Double.leb (Double.lit 5 10) v then Throw ExitFailure
  else if Double.leb (Double.lit 5 100) v then Throw ExitFailure
  else Ok false.

Definition less_than_zero (s : sharing) : M bool :=
  let* s_ltz := LTZ s in
  let* ret := open_recons s_ltz in
  lift (decide_value ret).

(** [operator<(const Share &, const Share &)] and [(const Share &, const FixedPoint &)] *)
Definition lt_share (left right : sharing) : M bool := less_than_zero (s_sub left right).
Definition lt_fp (left : sharing) (right : Z) : M bool := less_than_zero (s_subc left right).

(** [(FixedPoint(1) - x_ret) * (FixedPoint(1) - y_ret)] *)
Definition fp_of_bool (b : bool) : Z := if b then fp 1 else fp 0.
Definition neither (x_ret y_ret : bool) : result bool :=
  decide_value (mul (sub (fp 1) (fp_of_bool x_ret)) (sub (fp 1) (fp_of_bool y_ret))).

Definition eq_share (left right : sharing) : M bool :=
  let* x_ret := lt_share left right in
  let* y_ret := lt_share right left in
  lift (neither x_ret y_ret).

(** [right < left] of a [FixedPoint] and a [Share] is boost's [left > right];
    with no [operator>] for these types it converts [right] by the constructor
    [Share(const SV &)], which gives the value to every party. *)
Definition eq_fp (left : sharing) (right : Z) : M bool :=
  let* x_ret := lt_fp left right in
  let* y_ret := lt_share (s_lit right) left in
  lift (neither x_ret y_ret).

(** [sqrt(share)]: fifty Newton steps. *)
Definition sqrt (share : sharing) : M sharing :=
  let x := Math.s_divc (s_addc share (fp 1)) (fp 2) in
  mfold (λ x (_ : nat), let* q := s_div share x in ret (Math.s_divc (s_add x q) (fp 2)))
    (seq 0 50) x.

(** [operator%(const Share &, const SV &)] *)
Section Modulo.
Context `{DoubleText}.

(** [(long long int)(right.getMaxInt() / std::stod(right.getStrVal()))] *)
Definition rand_max_value (right : Z) : result Z :=
  let! r := stod (getStrVal right) in
  Double.to_signed 64 (Double.div (Double.of_Z maxInt) r).

(** [p * {-r / p}], rounded. *)
Definition fraction_of (p r : Double.double) : Double.double :=
  let tmp := Double.neg (Double.div r p) in
  Double.round (Double.mul p (Double.sub tmp (Double.floor tmp))).

Definition modulo_share (left : sharing) (right : Z) : M Z :=
  let* rmax := lift (rand_max_value right) in
  let rmin := - rmax in
  let '(lo, hi) := if rmax <? rmin then (rmax, rmin) else (rmin, rmax) in
  let* k := getRand lo hi in
  let r_share := s_sub (s_mulc k right) left in
  let* r_recons := open_recons r_share in
  let* p := lift (stod (getStrVal right)) in
  let* r := lift (stod (getStrVal r_recons)) in
  lift (of_string (to_string_double (fraction_of p r))).
End Modulo.
End FixedCompare.
End FixedCompare.

(** * Lemmas *)

(** A power of two that the constructor gets exactly: [2^(j - 1)] for [j ≤ 35]. *)
Lemma of_double_half_pow j : 0 ≤ j ≤ 35 →
  FixedDouble.of_double (Double.Fin (2 ^ j * 2 ^ 1073)) = Ok (2 ^ j * 50000000).
Proof.
  intros Hj. pose proof Double.unit_pos as Hu. unfold FixedDouble.of_double. cbn [Double.isinf].
  rewrite of_Z_shift. unfold Double.mul.
  assert (Double.unit = 2 * 2 ^ 1073) as Hh by (rewrite Double.unit_pow; exact (Z.pow_succ_r 2 1073 ltac:(done))).
  replace (2 ^ j * 2 ^ 1073 * (FixedPoint.shift * Double.unit)) with (2 ^ j * 50000000 * Double.unit * Double.unit)
    by (rewrite Hh; change FixedPoint.shift with (2 * 50000000); ring).
  assert (0 < 2 ^ j ≤ 2 ^ 35) as Hp by (split; [apply Z.pow_pos_nonneg|apply Z.pow_le_mono_r]; lia).
  rewrite Double.round_to_exact; [|done| |].
  - cbn [Double.to_Z]. rewrite Z.quot_mul by (clear Hh; lia). done.
  - exists 50000000, (j + 1074). split_and!; [clear Hh; lia|done|].
    rewrite Z.pow_add_r, <- Double.unit_pow by (clear Hh; lia). ring.
  - apply (unit_small _ 61); [done|]. clear Hh Hu. rewrite Z.abs_eq by lia. change (2 ^ 61) with (2 ^ 35 * 2 ^ 26).
    apply Z.mul_le_mono_nonneg; lia.
Qed.

Lemma lit_half : Double.lit 1 2 = Double.Fin (2 ^ 0 * 2 ^ 1073).
Proof.
  unfold Double.lit. rewrite Double.unit_pow. change (2 ^ 1074) with (2 ^ (1 + 1073)).
  rewrite Z.pow_add_r, Z.mul_1_l, (Z.mul_comm (2 ^ 1)) by done. apply Double.round_to_exact; [done| |].
  - exists 1, 1073. split_and!; [done|done|]. by rewrite Z.mul_1_l.
  - rewrite Double.limit_pow, Z.pow_0_r, Z.mul_1_l, Z.abs_eq by (by apply Z.pow_nonneg). by apply Z.pow_lt_mono_r.
Qed.

(** The constants are what the constructors give. *)
Lemma fixed_constants :
  FixedDouble.of_double (Double.lit 1 2) = Ok FixedCompare.half
  ∧ FixedDouble.of_double (Double.of_Z 1) = Ok (FixedCompare.fp 1)
  ∧ FixedPoint.of_integral 2 = Ok (FixedCompare.fp 2)
  ∧ ∀ i : Z, 0 ≤ i ≤ 32 → FixedDouble.of_double (Double.pow2 i) = Ok (FixedCompare.fp (2 ^ i)).
Proof.
  split_and!; [rewrite lit_half; by rewrite of_double_half_pow| |reflexivity|].
  - rewrite Double.of_Z_exact by done. by rewrite of_double_int.
  - intros i Hi. unfold Double.pow2. rewrite Z.shiftl_mul_pow2, Z.mul_comm by lia.
    rewrite of_double_int; [done|]. rewrite Z.abs_eq by (apply Z.pow_nonneg; lia). apply Z.pow_le_mono_r; lia.
Qed.

(** ** Doubles at the rounding of a masked number *)

Section DoubleFacts.
Context `{CL : CppIntLaws}.
Import FixedPoint Double FixedDouble.

Lemma of_double_close k : Z.abs k ≤ 2 ^ 60 →
  ∃ q, of_double (Fin (k * unit)) = Ok q
    ∧ 2 ^ 53 * Z.abs (q - k * shift) ≤ Z.abs k * shift + 2 ^ 53 ∧ (0 ≤ k → 0 ≤ q) ∧ (k ≤ 0 → q ≤ 0).
Proof.
  intros Hk. unfold of_double. cbn [isinf]. rewrite of_Z_shift. unfold mul.
  pose proof unit_pos as Hu. pose proof shift_pos as Hs.
  replace (k * unit * (shift * unit)) with (k * shift * unit * unit) by ring.
  assert (2 ^ 100 < limit / 2 / unit) as Hlim.
  { rewrite limit_unit. change (2 ^ 1024) with (2 ^ 1023 * 2).
    replace (2 ^ 1023 * 2 * unit) with (2 ^ 1023 * unit * 2) by ring.
    rewrite Z.div_mul, Z.div_mul by lia. vm_compute. reflexivity. }
  pose proof (Z.mul_div_le (limit / 2) unit Hu) as Hl2.
  assert (Z.abs (k * shift * unit) = Z.abs k * shift * unit) as Hab by (rewrite !Z.abs_mul; lia).
  destruct (round_to_finite (k * shift * unit * unit) unit Hu) as (j & -> & Hj & Hj0 & Hj1).
  { rewrite Z.abs_mul, Hab, (Z.abs_eq unit) by lia. apply Z.mul_lt_mono_pos_r; [done|].
    unfold shift in *. nia. }
  clear Hlim Hl2. cbn [to_Z]. eexists. split; [reflexivity|].
  rewrite Z.abs_mul, Hab, (Z.abs_eq unit) in Hj by lia.
  replace (j * unit - k * shift * unit * unit) with (unit * (j - k * shift * unit)) in Hj by ring.
  rewrite Z.abs_mul, (Z.abs_eq unit) in Hj by lia.
  pose proof (Z.mul_div_le (Z.abs k * shift * unit * unit) (2 ^ 52) ltac:(lia)) as Hd.
  assert (2 ^ 53 * Z.abs (j - k * shift * unit) ≤ 2 ^ 52 + Z.abs k * shift * unit) as Hj'.
  { apply (Z.mul_le_mono_pos_r _ _ unit); [done|]. lia. }
  pose proof (Z.quot_rem' j unit) as Hq. pose proof (Z.rem_bound_abs j unit ltac:(lia)) as Hr.
  split_and!.
  - assert (2 ^ 53 * Z.abs (unit * (Z.quot j unit - k * shift)) < (Z.abs k * shift + 2 ^ 53 + 1) * unit)
      as Hf.
    { assert (2 ^ 53 ≤ unit) as Hbig by (rewrite unit_pow; vm_compute; discriminate).
      replace (unit * (Z.quot j unit - k * shift))
        with (j - k * shift * unit - Z.rem j unit) by lia. lia. }
    rewrite Z.abs_mul, (Z.abs_eq unit) in Hf by lia. nia.
  - intros H. apply Z.quot_pos; [apply Hj0; nia|done].
  - intros H. specialize (Hj1 ltac:(nia)).
    rewrite <- (Z.opp_involutive j), Z.quot_opp_l by lia.
    pose proof (Z.quot_pos (- j) unit ltac:(lia) Hu). lia.
Qed.

(** What the four operators read off the opened value. *)
Lemma thresholds : ∃ a b c,
  Double.lit 95 100 = Fin a ∧ Double.lit 5 10 = Fin b ∧ Double.lit 5 100 = Fin c
  ∧ 1000 * a ≤ 955 * unit ∧ 495 * unit ≤ 1000 * b ∧ 45 * unit ≤ 1000 * c.
Proof.
  do 3 eexists. split_and!; [vm_compute; reflexivity..|vm_compute; discriminate|vm_compute; discriminate|].
  vm_compute; discriminate.
Qed.

Lemma decide_high x : 96000000 ≤ x < 2 ^ 900 → FixedCompare.decide_value x = Ok true.
Proof.
  intros Hx. unfold FixedCompare.decide_value.
  destruct (getDoubleVal_close x ltac:(lia)) as (k & -> & Hk).
  destruct thresholds as (a & b & c & -> & -> & -> & Ha & _). cbn [ltb].
  pose proof unit_pos as Hu. rewrite (proj2 (Z.ltb_lt a k)); [done|].
  unfold shift in *. clear -Hx Hk Ha Hu.
  assert (96000000 * unit ≤ x * unit) by nia. lia.
Qed.

Lemma decide_low x : - 2 ^ 900 < x ≤ 4000000 → FixedCompare.decide_value x = Ok false.
Proof.
  intros Hx. unfold FixedCompare.decide_value.
  destruct (getDoubleVal_close x ltac:(lia)) as (k & -> & Hk).
  destruct thresholds as (a & b & c & Ea & -> & -> & Ha & Hb & Hc).
  assert (500 * unit ≤ 1000 * a) as Ha'.
  { assert (a = match Double.lit 95 100 with Fin a => a | _ => 0 end) as -> by (by rewrite Ea).
    vm_compute. discriminate. }
  rewrite Ea. unfold leb. cbn [ltb eqb].
  pose proof unit_pos as Hu.
  assert (k * 1000 < 45 * unit) as Hk'.
  { unfold shift in *. clear -Hx Hk Hu. assert (x * unit ≤ 4000000 * unit) by nia. lia. }
  rewrite (proj2 (Z.ltb_ge a k)), (proj2 (Z.ltb_ge b k)), (proj2 (Z.ltb_ge c k)) by lia.
  rewrite (proj2 (Z.eqb_neq b k)), (proj2 (Z.eqb_neq c k)) by lia. done.
Qed.
End DoubleFacts.
