(* ===== verification/FixedCompareCorrect.v ===== *)
(** * The fixed-point comparisons decide  (Share/Share.hpp, Share/Compare.cpp)

    The random bit is a bit up to [501] units per party; a masked number is
    opened, rounded through [double] and reduced, which gives the low bit of an
    integer next to it; halving keeps the distance to that integer bounded
    ([drift]), so the top of [2^32 + x] after 32 turns tells its sign. *)
From stdpp Require Import base list numbers sets strings.
From Stdlib Require Import ZArith Lia.
From S2P Require Import Prelude FixedPoint Random TripleHandler Share SharePF ShareFP Double FixedCompare.
#[local] Open Scope Z_scope.
#[local] Open Scope qmpc_scope.
Import FixedCompare.

#[local] Abbreviation n := (Z.of_nat n_parties).

(** ** Local arithmetic *)

Section Local.
Context `{DL : DecLaws} `{E : Env} `{V : !ValidEnv E}.
#[local] Existing Instance fp_value.
Import FixedPoint.

(** Every party truncates its own product. *)
Lemma s_mulc_fp B x v c C :
  FShares B x v → Z.abs c ≤ C → 0 ≤ B →
  let z := s_mulc x c in
  FShares (B * C / shift) z (Zsum z) ∧ Z.abs (shift * Zsum z - v * c) ≤ n * (shift - 1).
Proof.
  intros (Hl & Hb & <-) Hc HB z. unfold z, s_mulc, FShares. rewrite <- Hl. clear Hl.
  split; [split_and!; [by rewrite length_map| |done]|].
  - apply Forall_fmap. eapply Forall_impl; [exact Hb|]. cbn. intros a Ha.
    change (sv_mul a c) with (mul a c). unfold mul. pose proof shift_pos as Hs.
    rewrite <- (Z.abs_eq shift) at 1 by lia. rewrite <- Z.quot_abs by lia.
    rewrite Z.quot_div_nonneg by lia. rewrite (Z.abs_eq shift) by lia.
    apply Z.div_le_mono; [lia|]. rewrite Z.abs_mul. nia.
  - clear Hb z. induction x as [|a x IH]; [simpl; rewrite Zsum_nil; lia|].
    cbn [map length]. rewrite !Zsum_cons. change (sv_mul a c) with (mul a c).
    pose proof (mul_error a c). lia.
Qed.

(** A whole factor is exact. *)
Lemma s_mulc_fp_whole B x v c : FShares B x v → FShares (B * Z.abs c) (s_mulc x (fp c)) (v * c).
Proof.
  intros (Hl & Hb & <-). unfold s_mulc.
  rewrite (map_ext _ (λ a, a * c)) by (intros a; apply mul_exact). split_and!.
  - by rewrite length_map.
  - apply Forall_fmap. eapply Forall_impl; [exact Hb|]. intros a Ha. unfold compose. cbv beta in Ha.
    rewrite Z.abs_mul. nia.
  - clear. induction x as [|a x IH]; [done|]. cbn [map]. rewrite !Zsum_cons, IH. ring.
Qed.

(** [x * T(0.5)] *)
Lemma s_mulc_half B x v :
  FShares B x v → 0 ≤ B →
  let z := s_mulc x half in FShares (B / 2) z (Zsum z) ∧ Z.abs (2 * Zsum z - v) ≤ n.
Proof.
  intros (Hl & Hb & <-) HB z. unfold z, s_mulc, FShares. rewrite <- Hl. clear Hl.
  assert (∀ a, mul a half = Z.quot a 2) as Hm.
  { intros a. unfold mul, half. change shift with (2 * 50000000).
    by rewrite Z.quot_mul_cancel_r. }
  split; [split_and!; [by rewrite length_map| |done]|].
  - apply Forall_fmap. eapply Forall_impl; [exact Hb|]. cbn. intros a Ha.
    change (sv_mul a half) with (mul a half). rewrite Hm.
    change 2 with (Z.abs 2) at 1. rewrite <- Z.quot_abs by lia.
    rewrite Z.quot_div_nonneg by lia. apply Z.div_le_mono; lia.
  - clear Hb z. induction x as [|a x IH]; [simpl; rewrite Zsum_nil; lia|].
    cbn [map length]. rewrite !Zsum_cons. change (sv_mul a half) with (mul a half). rewrite Hm.
    pose proof (Z.quot_rem' a 2). pose proof (Z.rem_bound_abs a 2). lia.
Qed.

Lemma FShares_subc B C x v c :
  FShares B x v → Z.abs c ≤ C → FShares (B + C) (s_subc x c) (v - c).
Proof. intros Hx Hc. apply (FShares_addc B C x v (- c) Hx). lia. Qed.

(** [(y - b) * 0.5] *)
Lemma halve_fp B C y b v u :
  FShares B y v → FShares C b u → 0 ≤ B → 0 ≤ C →
  let z := halve y b in FShares ((B + C) / 2) z (Zsum z) ∧ Z.abs (2 * Zsum z - (v - u)) ≤ n.
Proof. intros Hy Hb HB HC. apply s_mulc_half; [by apply FShares_sub|lia]. Qed.

(** ** Draws *)

Definition draws (mn mx : Z) (w : World) : list Z :=
  map (λ i, entropy i (draw_pos w i) mod (mx - mn) + mn) parties.

Lemma getRand_fp_runs mn mx w :
  mn < mx → - 2 ^ 30 ≤ mn → mx < 2 ^ 30 →
  runs (getRand mn mx) w (λ x w', x = whole (draws mn mx w)
    ∧ w' = mkWorld (S (all_draws w)) (sp_draws w) (triples w)).
Proof.
  intros H1 H2 H3. unfold getRand, runs. eexists _, _. split.
  - rewrite (traverse_map _ (λ i, (entropy i (draw_pos w i) mod (mx - mn) + mn) * shift)).
    + rewrite rbind_ok. reflexivity.
    + intros i _. change (sv_rand ?a mn mx) with (RandGenerator.getRand_fp a mn mx).
      unfold RandGenerator.getRand_fp.
      destruct (RandomFacts.getRand_ll_ok (entropy i (draw_pos w i)) mn mx) as [-> Hb]; try lia.
      rewrite rbind_ok. unfold of_integral. apply RandomFacts.int64_ok. unfold shift. lia.
  - split; [|done]. unfold whole, draws. by rewrite map_map.
Qed.

Lemma draws_FShares mn mx w C :
  mn < mx → - C ≤ mn → mx ≤ C + 1 → FShares C (draws mn mx w) (Zsum (draws mn mx w)).
Proof.
  intros H1 H2 H3. unfold draws. split_and!; [by rewrite length_map, parties_length| |done].
  apply Forall_fmap, Forall_true. intros i. cbn.
  pose proof (Z.mod_pos_bound (entropy i (draw_pos w i)) (mx - mn) ltac:(lia)). lia.
Qed.

Lemma draws_pos mn mx w : 1 ≤ mn < mx → 1 ≤ Zsum (draws mn mx w).
Proof.
  intros H. unfold draws. pose proof sp_valid as Hsp.
  assert (n_parties = S (pred n_parties)) as Hn by lia. unfold parties. rewrite Hn. cbn [seq map].
  rewrite Zsum_cons.
  assert (∀ l, 0 ≤ Zsum (map (λ i, entropy i (draw_pos w i) mod (mx - mn) + mn) l)) as Hl.
  { induction l as [|i l IH]; [done|]. cbn [map]. rewrite Zsum_cons.
    pose proof (Z.mod_pos_bound (entropy i (draw_pos w i)) (mx - mn) ltac:(lia)). lia. }
  specialize (Hl (seq 2 (pred n_parties))).
  pose proof (Z.mod_pos_bound (entropy 1 (draw_pos w 1)) (mx - mn) ltac:(lia)). lia.
Qed.

(** The world after joint draws and multiplications. *)
Definition later (w w' : World) : Prop :=
  (all_draws w ≤ all_draws w')%nat ∧ sp_draws w' = sp_draws w.

Lemma later_refl w : later w w.
Proof. by split. Qed.

Lemma later_trans w w1 w2 : later w w1 → later w1 w2 → later w w2.
Proof. unfold later. intros [? ->] [? ->]. split; [lia|done]. Qed.

(** Among any [fuel] successive joint draws from [-1000, 1000) there is one
    whose sum over the parties is not zero. *)
Definition fair (fuel : nat) (w : World) : Prop :=
  ∀ k, (all_draws w ≤ k)%nat →
    ∃ j, (j < fuel)%nat ∧ Zsum (draws (-1000) 1000 (mkWorld (k + j) (sp_draws w) 0)) ≠ 0.

Lemma fair_later fuel w w' : fair fuel w → later w w' → fair fuel w'.
Proof. intros H [Hl Hs] k Hk. rewrite Hs. apply H. lia. Qed.

Lemma draws_triples mn mx k s t t' : draws mn mx (mkWorld k s t) = draws mn mx (mkWorld k s t').
Proof. done. Qed.

(** A product with a whole number is exact. *)
Lemma approx_whole_r v k z : approx v (k * shift) z → z = v * k.
Proof.
  unfold approx. pose proof shift_pos as Hs. intros H.
  replace (shift * z - v * (k * shift)) with (shift * (z - v * k)) in H by ring.
  rewrite Z.abs_mul, (Z.abs_eq shift) in H by lia. nia.
Qed.

Lemma approx_whole a b z : approx (a * shift) (b * shift) z → z = a * b * shift.
Proof. intros H. apply approx_whole_r in H. lia. Qed.
End Local.

(** ** The random bit *)

Section RandBit.
Context `{DL : DecLaws} `{E : Env} `{V : !ValidEnv E} {T : Z} `{TL : !TripleLaws T E} `{CL : CppIntLaws}.
#[local] Existing Instance fp_value.
Import FixedPoint FixedDouble.

(** The sizes the protocols need: the squares of the draws stay below [2^53]
    units, and the masked values of a product fit the wire. *)
Hypothesis few : n ≤ 9.
Hypothesis small : opened T (1000 * shift) < wire ∧ mul_bound T (1000 * shift) < wire.

(** The local values of a random bit. *)
Definition bit_size : Z := 501 * shift.

(** [x] shares the bit [b] up to [501] units per party. *)
Definition near_bit (x : sharing) (b : Z) : Prop :=
  (b = 0 ∨ b = 1) ∧ FShares bit_size x (Zsum x) ∧ Z.abs (Zsum x - b * shift) ≤ 501 * n.

Lemma inverse_of_root R :
  R ≠ 0 → Z.abs R ≤ 9000 →
  let inv := div (fp 1) (Z.abs R * shift) in
  Z.abs (inv * Z.abs R - shift) ≤ Z.abs R ∧ Z.abs inv ≤ shift + 1.
Proof.
  intros HR HR9 inv. pose proof shift_pos as Hs.
  assert (Z.abs (inv * (Z.abs R * shift) - fp 1 * shift) ≤ Z.abs (Z.abs R * shift)) as H.
  { apply dec_div; unfold fp, shift, wire; lia. }
  rewrite (Z.abs_eq (Z.abs R * shift)) in H by lia. unfold fp in H.
  assert (Z.abs (inv * Z.abs R - shift) ≤ Z.abs R) as H1.
  { apply (Z.mul_le_mono_pos_r _ _ shift); [done|].
    rewrite <- (Z.abs_eq shift) at 2 by lia. rewrite <- Z.abs_mul.
    by replace ((inv * Z.abs R - shift) * shift) with (inv * (Z.abs R * shift) - 1 * shift * shift) by ring. }
  split; [exact H1|]. clearbody inv. unfold shift in *. nia.
Qed.

Lemma square_double R : Z.abs R ≤ 9000 →
  getDoubleVal (R * R * shift) = Double.Fin (R * R * Double.unit).
Proof. intros HR. apply getDoubleVal_int. unfold shift. nia. Qed.

Lemma nonzero_square R : Z.abs R ≤ 9000 → nonzero (R * R * shift) = bool_decide (R ≠ 0).
Proof.
  intros HR. unfold nonzero. rewrite square_double by done. cbn [Double.eqb].
  pose proof Double.unit_pos. destruct (decide (R = 0)) as [->|Hne]; [done|].
  rewrite bool_decide_true by done. rewrite (proj2 (Z.eqb_neq _ _)) by nia. done.
Qed.

Lemma sign_bit_fp rl R :
  FShares 1000 rl R → R ≠ 0 →
  ∃ r0 b, sign_bit (whole rl) (R * R * shift) = Ok r0 ∧ near_bit r0 b.
Proof.
  intros Hr HR. pose proof (FShares_abs _ _ _ Hr) as HRn.
  assert (Z.abs R ≤ 9000) as HR9 by lia.
  unfold sign_bit. rewrite square_double by done.
  replace (R * R) with (Z.abs R * Z.abs R) by lia.
  rewrite Double.sqrt_square, of_double_int, rbind_ok by lia.
  destruct (inverse_of_root R HR HR9) as [Hi Hi1].
  set (inv := div (fp 1) (Z.abs R * shift)) in *. clearbody inv. cbv zeta.
  rewrite s_mulc_whole.
  pose proof (FShares_scale rl R inv Hr) as H1.
  pose proof (FShares_addc _ shift _ _ (fp 1) H1 ltac:(unfold fp, shift; lia)) as H2.
  destruct (s_mulc_half _ _ _ H2) as [H3 H4]; [unfold shift; lia|].
  eexists _, (if 0 <? R then 1 else 0). split; [reflexivity|].
  split; [destruct (0 <? R); lia|]. split.
  - eapply FShares_weaken; [exact H3|]. unfold bit_size.
    apply Z.div_le_upper_bound; [lia|]. unfold shift in *. lia.
  - revert H4. generalize (Zsum (s_mulc (s_addc (map (λ a, a * inv) rl) (fp 1)) half)).
    intros z H4. unfold fp in H4.
    destruct (Z.ltb_spec 0 R); [assert (Z.abs R = R) as HA by lia|assert (Z.abs R = - R) as HA by lia];
      rewrite HA in *; lia.
Qed.

Lemma whole_FShares C l v : FShares C l v → FShares (C * shift) (whole l) (v * shift).
Proof. intros H. apply (FShares_scale l v shift H). Qed.

Lemma getRandBit_fp fuel w :
  (∃ j, (j < fuel)%nat ∧ Zsum (draws (-1000) 1000 (mkWorld (all_draws w + j) (sp_draws w) 0)) ≠ 0) →
  runs (getRandBitShare_loop fuel) w (λ r0 w', later w w' ∧ ∃ b, near_bit r0 b).
Proof.
  revert w; induction fuel as [|fuel IH]; intros w (j & Hj & Hne); [lia|]. cbn [getRandBitShare_loop].
  eapply runs_bind; [by apply getRand_fp_runs|]. intros r w1 [-> ->].
  set (rl := draws (-1000) 1000 w). set (R := Zsum rl).
  assert (FShares 1000 rl R) as Hrl by (by apply draws_FShares).
  pose proof (FShares_abs _ _ _ Hrl) as HR.
  pose proof (whole_FShares _ _ _ Hrl) as Hw. destruct small as [Hs1 Hs2].
  eapply runs_bind; [by apply (s_mul_fp _ _ _ _ _ _ Hw Hw)|].
  intros z w2 [[Hz Ha] [Hm1 Hm2]]. apply approx_whole in Ha. cbn [all_draws sp_draws] in Hm1, Hm2.
  eapply runs_bind; [by eapply runs_lift_eq, (recons_fp sp_id)|]. intros ? ? [-> ->].
  rewrite Ha, nonzero_square by lia.
  destruct (decide (R = 0)) as [H0|H0].
  - rewrite bool_decide_false by tauto. destruct j as [|j].
    { exfalso. apply Hne. rewrite Nat.add_0_r. exact H0. }
    eapply runs_mono; [apply (IH w2)|].
    + exists j. split; [lia|]. replace (all_draws w2 + j)%nat with (all_draws w + S j)%nat by lia.
      replace (sp_draws w2) with (sp_draws w) by lia. exact Hne.
    + cbv beta. intros r0 w' [[H1 H2] Hb]. split; [|done]. split; [lia|]. rewrite H2, Hm2. lia.
  - rewrite bool_decide_true by done.
    destruct (sign_bit_fp rl R Hrl H0) as (r0 & b & Hr0 & Hb).
    eapply runs_mono; [by apply runs_lift_eq|]. intros ? ? [-> ->].
    split; [split; [lia|rewrite Hm2; lia]|]. by exists b.
Qed.

Lemma getRandBitShare_fp fuel w :
  fair fuel w → runs (getRandBitShare fuel) w (λ r0 w', later w w' ∧ ∃ b, near_bit r0 b).
Proof. intros H. apply getRandBit_fp. apply H. lia. Qed.
End RandBit.

(** ** The low bit *)

(** [N] is the integer next to [v / shift], [N'] what is left of it after the
    bit [vb] was taken off.  [M] bounds [v]; the two terms with [M] are the
    rounding errors of [double]. *)
Record low_bit `{Env} (M v vb N N' : Z) : Prop := {
  lb_close : 2 ^ 51 * Z.abs (v - N * FixedPoint.shift)
    ≤ 2 ^ 50 * FixedPoint.shift + 2 ^ 51 * (501 * n) + (M + 18004) * FixedPoint.shift;
  lb_bit : 2 ^ 53 * Z.abs (vb - (N - 2 * N') * FixedPoint.shift)
    ≤ 2 ^ 53 * (2506 * n + 8) + 3 * M * FixedPoint.shift;
  lb_digit : -2 ≤ N - 2 * N' ≤ 3;
  lb_small : 0 ≤ N ≤ 2 ^ 33 → N' = N / 2;
  lb_neg : N < 0 → N' < 0;
  lb_big : 2 ^ 33 < N → 2 ^ 32 ≤ N'
}.

Section LowBit.
Context `{DL : DecLaws} `{E : Env} `{V : !ValidEnv E} {T : Z} `{TL : !TripleLaws T E} `{CL : CppIntLaws}.
#[local] Existing Instance fp_value.
Import FixedPoint FixedDouble.

(** The reduced digit [k - 2 * (q / 2)] of the rounded number. *)
Lemma reduced_digit k q :
  2 ^ 53 * Z.abs (q - k * shift) ≤ Z.abs k * shift + 2 ^ 53 → Z.abs k ≤ 2 ^ 49 →
  (0 ≤ k → 0 ≤ q) → (k ≤ 0 → q ≤ 0) → (Z.abs k ≤ 2 ^ 34 → q = k * shift) →
  let g := k - 2 * Z.quot q (2 * shift) in
  (0 ≤ k → 0 ≤ g ≤ 2) ∧ (k ≤ 0 → -2 ≤ g ≤ 0) ∧ (0 ≤ k ≤ 2 ^ 34 → g = k mod 2).
Proof.
  intros He Hk Hq0 Hq1 Hex g. pose proof shift_pos as Hs.
  pose proof (Z.quot_rem' q (2 * shift)) as Hqr.
  assert (g * shift = Z.rem q (2 * shift) - (q - k * shift)) as Hg by (unfold g; lia).
  assert (Z.abs (q - k * shift) < shift) as Hes by (unfold shift in *; lia).
  clearbody g. split_and!.
  - intros H. pose proof (Z.rem_bound_pos q (2 * shift) (Hq0 H) ltac:(lia)). nia.
  - intros H. pose proof (Z.rem_nonpos q (2 * shift) ltac:(lia) (Hq1 H)).
    pose proof (Z.rem_bound_abs q (2 * shift) ltac:(lia)). nia.
  - intros H. rewrite Hex in Hg by lia.
    rewrite Z.rem_mod_nonneg in Hg by lia.
    rewrite (Z.mul_mod_distr_r k 2 shift) in Hg by lia. nia.
Qed.

(** The bit that [xor_public] leaves. *)
Lemma xor_value r bit c w g e :
  (bit = 0 ∨ bit = 1) → -2 ≤ g ≤ 2 → Z.abs (r - bit * shift) ≤ e → e ≤ shift → Z.abs c ≤ 2 * shift →
  Z.abs (shift * w - r * (2 * c)) ≤ n * (shift - 1) →
  Z.abs (r + c - w - (g + bit - 2 * g * bit) * shift) ≤ 5 * e + n + 3 * Z.abs (c - g * shift).
Proof.
  intros Hb Hg Hr He Hc Hw. pose proof shift_pos as Hs.
  assert (Z.abs (shift * (w - 2 * g * bit * shift)) ≤ shift * (n + 4 * e + 2 * Z.abs (c - g * shift))) as Hw'.
  { replace (shift * (w - 2 * g * bit * shift))
      with ((shift * w - r * (2 * c)) + (2 * c * (r - bit * shift) + 2 * bit * shift * (c - g * shift))) by ring.
    assert (Z.abs (2 * c * (r - bit * shift)) ≤ shift * (4 * e)) by (rewrite !Z.abs_mul; nia).
    assert (Z.abs (2 * bit * shift * (c - g * shift)) ≤ shift * (2 * Z.abs (c - g * shift)))
      by (rewrite !Z.abs_mul; destruct Hb as [-> | ->]; nia).
    lia. }
  rewrite Z.abs_mul, (Z.abs_eq shift) in Hw' by lia. apply Z.mul_le_mono_pos_l in Hw'; [|done].
  lia.
Qed.

Lemma low_bit_arith M v r bit d k q w :
  n ≤ 9 → Z.abs v ≤ M * shift → 0 ≤ M ≤ 2 ^ 48 + 4 → (bit = 0 ∨ bit = 1) →
  Z.abs (r - bit * shift) ≤ 501 * n → 1 ≤ d ≤ 9000 →
  let t := v + r + d * 2 * shift in
  2 ^ 51 * (2 * Z.abs (k * shift - t) - shift) ≤ 2 * Z.abs t →
  2 ^ 53 * Z.abs (q - k * shift) ≤ Z.abs k * shift + 2 ^ 53 →
  (0 ≤ k → 0 ≤ q) → (k ≤ 0 → q ≤ 0) → (Z.abs k ≤ 2 ^ 34 → q = k * shift) →
  let c := Z.rem q (2 * shift) in
  Z.abs (shift * w - r * (2 * c)) ≤ n * (shift - 1) →
  ∃ N N', low_bit M v (r + c - w) N N'.
Proof.
  intros Hn Hv HM Hbit Hr Hd t Hk Hq Hq0 Hq1 Hex c Hw. pose proof shift_pos as Hs.
  assert (Z.abs t ≤ (M + 18002) * shift) as Ht
    by (unfold t, shift in *; clear -Hv Hr Hbit Hd Hn; lia).
  assert (Z.abs k ≤ M + 18004) as HkM by (unfold shift in *; clearbody t; clear -Hk Ht HM; lia).
  destruct (reduced_digit k q Hq ltac:(lia) Hq0 Hq1 Hex) as (Hg0 & Hg1 & Hg2).
  assert (c = q - 2 * shift * Z.quot q (2 * shift)) as Hc
    by (pose proof (Z.quot_rem' q (2 * shift)); unfold c; lia).
  pose proof (Z.rem_bound_abs q (2 * shift) ltac:(lia)) as Hcb. fold c in Hcb.
  set (j := Z.quot q (2 * shift)) in *. set (g := k - 2 * j) in *.
  assert (c - g * shift = q - k * shift) as Hcg by (unfold g; rewrite Hc; ring).
  assert (-2 ≤ g ≤ 2) as Hg by (clearbody g; clear -Hg0 Hg1; lia).
  assert (501 * n ≤ shift) as He by (unfold shift; clear -Hn; lia).
  assert (Z.abs c ≤ 2 * shift) as Hcs by (clear -Hcb Hs; lia).
  pose proof (xor_value r bit c w g (501 * n) Hbit Hg Hr He Hcs Hw) as Hx.
  rewrite Hcg in Hx. clearbody c j.
  exists (k - bit - 2 * d), (j - bit - d + g * bit).
  assert (k - bit - 2 * d - 2 * (j - bit - d + g * bit) = g + bit - 2 * g * bit) as HN
    by (unfold g; ring).
  split.
  - assert (Z.abs (v - (k - bit - 2 * d) * shift) ≤ Z.abs (k * shift - t) + 501 * n) as H
      by (unfold t; clear -Hr; lia).
    clearbody t. clear -H Hk Ht Hs. lia.
  - rewrite HN. clearbody g t. clear -Hx Hq HkM Hs Hn. unfold shift in *. lia.
  - rewrite HN. clearbody g. clear -Hg Hbit. destruct Hbit as [-> | ->]; lia.
  - intros HNr. clear Hx Hw Hk Ht Hq Hc Hcb Hcg Hv. specialize (Hg2 ltac:(lia)).
    assert (g + bit - 2 * g * bit = 0 ∨ g + bit - 2 * g * bit = 1) as Hbb.
    { pose proof (Z.mod_pos_bound k 2 ltac:(lia)).
      destruct Hbit as [-> | ->]; lia. }
    apply (Z.div_unique _ _ _ (g + bit - 2 * g * bit)); lia.
  - intros HNr. clear Hx Hw Hk Ht Hq Hc Hcb Hcg Hv. destruct (Z.le_gt_cases 0 k) as [Hk0|Hk0].
    + specialize (Hg2 ltac:(lia)). pose proof (Z.mod_pos_bound k 2 ltac:(lia)).
      destruct Hbit as [-> | ->]; lia.
    + specialize (Hg1 ltac:(lia)). destruct Hbit as [-> | ->]; lia.
  - intros HNr. clear Hx Hw Hk Ht Hq Hc Hcb Hcg Hv. specialize (Hg0 ltac:(lia)). destruct Hbit as [-> | ->]; lia.
Qed.
End LowBit.

(** ** The protocols *)

Section Protocol.
Context `{DL : DecLaws} `{E : Env} `{V : !ValidEnv E} {T : Z} `{TL : !TripleLaws T E} `{CL : CppIntLaws}.
#[local] Existing Instance fp_value.
Import FixedPoint FixedDouble.
Context (fuel : nat).
Hypothesis few : n ≤ 9.
Hypothesis small : opened T (1000 * shift) < wire ∧ mul_bound T (1000 * shift) < wire.

Definition lsb_size : Z := 2508 * shift.

Lemma round_mod2_fp t : Z.abs t ≤ 2 ^ 80 →
  ∃ k q, round_mod2 t = Ok (Z.rem q (2 * shift))
    ∧ 2 ^ 51 * (2 * Z.abs (k * shift - t) - shift) ≤ 2 * Z.abs t
    ∧ 2 ^ 53 * Z.abs (q - k * shift) ≤ Z.abs k * shift + 2 ^ 53
    ∧ (0 ≤ k → 0 ≤ q) ∧ (k ≤ 0 → q ≤ 0) ∧ (Z.abs k ≤ 2 ^ 34 → q = k * shift).
Proof.
  intros Ht. destruct (round_getDoubleVal t) as (k & Hk & He).
  { eapply Z.le_lt_trans; [exact Ht|]. vm_compute. reflexivity. }
  assert (Z.abs k ≤ 2 ^ 60) as Hk60 by (unfold shift in He; lia).
  destruct (of_double_close k Hk60) as (q & Hq & Hqk & Hq0 & Hq1).
  exists k, q. split_and!; [|exact He|exact Hqk|exact Hq0|exact Hq1|].
  - unfold round_mod2. rewrite Hk, Hq, rbind_ok. done.
  - intros H34. rewrite of_double_int in Hq by done. by injection Hq.
Qed.

Lemma getLSB_fp M B y v w :
  FShares B y v → 0 ≤ B → B + 3000 * shift < wire → Z.abs v ≤ M * shift → 0 ≤ M ≤ 2 ^ 48 + 4 →
  fair fuel w →
  runs (getLSBShare fuel y) w (λ b w', later w w' ∧ FShares lsb_size b (Zsum b)
    ∧ ∃ N N', low_bit M v (Zsum b) N N').
Proof.
  intros Hy HB HBw Hv HM Hf. unfold getLSBShare.
  eapply runs_bind; [by apply (getRandBitShare_fp few small)|].
  intros r0 w1 (Hw1 & bit & Hbit & Hr0 & Hr). set (r := Zsum r0) in *.
  eapply runs_bind; [by apply getRand_fp_runs|]. intros rd w2 [-> ->].
  set (dl := draws 1 1000 w1). set (d := Zsum dl).
  assert (FShares 1000 dl d) as Hdl by (by apply draws_FShares).
  assert (1 ≤ d ≤ 9000) as Hd.
  { split; [by apply draws_pos|]. pose proof (FShares_abs _ _ _ Hdl). lia. }
  pose proof (s_mulc_fp_whole _ _ _ 2 (whole_FShares _ _ _ Hdl)) as Hd2.
  pose proof (FShares_add _ _ _ _ _ _ (FShares_add _ _ _ _ _ _ Hy Hr0) Hd2) as Ht.
  replace (d * shift * 2) with (d * 2 * shift) in Ht by ring.
  eapply runs_bind.
  { eapply runs_lift_eq, (recons_fp sp_id); [exact Ht|]. clear -HBw. unfold bit_size, shift in *. lia. }
  intros ? ? [-> ->].
  destruct (round_mod2_fp (v + r + d * 2 * shift)) as (k & q & Hmod & Hk & Hq & Hq0 & Hq1 & Hex).
  { clearbody d r. clear -Hv HM Hr Hbit Hd few. unfold shift in *. lia. }
  eapply runs_bind; [by apply runs_lift_eq|]. intros ? ? [-> ->]. apply runs_ret.
  set (c := Z.rem q (2 * shift)) in *.
  assert (Z.abs c ≤ 2 * shift) as Hc 
    by (unfold c; clear; pose proof (Z.rem_bound_abs q (2 * shift)); unfold shift in *; lia).
  split; [destruct Hw1; split; simpl; lia|].
  unfold xor_public. change (fp 2) with (2 * shift). rewrite mul_whole.
  destruct (s_mulc_fp bit_size r0 r (2 * c) (4 * shift) Hr0) as [Hm Hw]; [lia|done|].
  set (wv := Zsum (s_mulc r0 (2 * c))) in *.
  pose proof (FShares_sub _ _ _ _ _ _ (FShares_addc _ _ _ _ _ Hr0 Hc) Hm) as Hb.
  rewrite (proj2 (proj2 Hb)). split.
  - eapply FShares_weaken; [exact Hb|]. vm_compute. discriminate.
  - by apply (low_bit_arith M v r bit d k q wv).
Qed.

(** ** Halving *)

(** What [N] has to do with the first integer [N0] after [i] turns: on which
    side of the threshold it is, and its value when [N0] has 33 bits. *)
Record top (N0 : Z) (i : nat) (N : Z) : Prop := {
  top_ge : 2 ^ 32 ≤ N0 → 2 ^ (32 - Z.of_nat i) ≤ N;
  top_lt : N0 < 2 ^ 32 → N < 2 ^ (32 - Z.of_nat i);
  top_eq : 0 ≤ N0 ≤ 2 ^ 33 → N = N0 / 2 ^ Z.of_nat i
}.

Lemma top_0 N0 : top N0 0 N0.
Proof. split; [lia|lia|]. intros _. by rewrite Z.pow_0_r, Z.div_1_r. Qed.

Lemma top_S N0 i N N' M v vb :
  (i < 32)%nat → top N0 i N → low_bit M v vb N N' → top N0 (S i) N'.
Proof.
  intros Hi [H1 H2 H3] [_ _ _ Hs Hn Hb].
  assert (0 < 2 ^ (32 - Z.of_nat (S i))) as Hp by (apply Z.pow_pos_nonneg; lia).
  assert (2 ^ (32 - Z.of_nat i) = 2 * 2 ^ (32 - Z.of_nat (S i))) as Hpow.
  { rewrite <- Z.pow_succ_r by lia. f_equal. lia. }
  assert (2 ^ (32 - Z.of_nat (S i)) ≤ 2 ^ 31) as H31 by (apply Z.pow_le_mono_r; lia).
  pose proof (Z.div_mod N 2 ltac:(lia)) as Hdm. pose proof (Z.mod_pos_bound N 2 ltac:(lia)) as Hmb.
  split.
  - intros H. specialize (H1 H). destruct (Z.le_gt_cases N (2 ^ 33)); [|lia]. lia.
  - intros H. specialize (H2 H). destruct (Z.le_gt_cases 0 N); lia.
  - intros H. specialize (H3 H).
    assert (0 < 2 ^ Z.of_nat i) by (apply Z.pow_pos_nonneg; lia).
    assert (0 ≤ N ≤ 2 ^ 33) as HN.
    { rewrite H3. split; [apply Z.div_pos; lia|]. apply Z.div_le_upper_bound; [done|]. nia. }
    rewrite Hs, H3, Z.div_div by lia. f_equal. rewrite Nat2Z.inj_succ, Z.pow_succ_r by lia. ring.
Qed.

(** The distance to the integer: the first one is up to [0.63], and it halves;
    [D] is what one turn adds at most. *)
Definition D : Z := 2507 * n + 10.
Definition drift (i : nat) (v N : Z) : Prop :=
  100 * 2 ^ Z.of_nat i * Z.abs (v - N * shift) ≤ (63 + 10 * Z.of_nat i) * shift + 100 * 2 ^ Z.of_nat i * D.
Definition height (i : nat) : Z := 2 ^ (48 - Z.of_nat i) + 4.

Lemma height_S i : (i < 32)%nat → height i = 2 * height (S i) - 4 ∧ 0 ≤ height (S i).
Proof.
  intros Hi. unfold height.
  assert (0 < 2 ^ (48 - Z.of_nat (S i))) by (apply Z.pow_pos_nonneg; lia).
  replace (48 - Z.of_nat i) with (Z.succ (48 - Z.of_nat (S i))) by lia.
  rewrite Z.pow_succ_r by lia. lia.
Qed.

Lemma height_bound i : (i ≤ 32)%nat → 0 ≤ height i ≤ 2 ^ 48 + 4.
Proof.
  intros Hi. unfold height. pose proof (Z.pow_le_mono_r 2 (48 - Z.of_nat i) 48 ltac:(lia) ltac:(lia)).
  pose proof (Z.pow_nonneg 2 (48 - Z.of_nat i)). lia.
Qed.

Lemma drift_0 M v vb N N' : 0 ≤ M ≤ height 0 → low_bit M v vb N N' → drift 0 v N.
Proof.
  intros HM [H _ _ _ _ _]. unfold drift, D, height, shift in *. cbn -[Z.mul Z.pow] in *.
  rewrite Z.pow_0_r. change (2 ^ (48 - 0)) with (2 ^ 48) in HM. lia.
Qed.

Lemma drift_S i v vb v' N N' :
  (i < 32)%nat → drift i v N → low_bit (height i) v vb N N' → Z.abs (2 * v' - (v - vb)) ≤ n →
  drift (S i) v' N'.
Proof.
  intros Hi Hd [_ Hb _ _ _ _] Hv. unfold drift in *.
  rewrite Nat2Z.inj_succ, Z.pow_succ_r by lia.
  assert (2 ^ Z.of_nat i * height i = 2 ^ 48 + 4 * 2 ^ Z.of_nat i) as Hh.
  { unfold height. rewrite Z.mul_add_distr_l, <- Z.pow_add_r by lia. f_equal; [f_equal; lia|lia]. }
  assert (0 < 2 ^ Z.of_nat i) as Hp by (apply Z.pow_pos_nonneg; lia).
  set (p := 2 ^ Z.of_nat i) in *. set (h := height i) in *. clearbody p h.
  assert (Z.abs (2 * (v' - N' * shift)) ≤ Z.abs (v - N * shift) + Z.abs (vb - (N - 2 * N') * shift) + n) as Ht by lia.
  set (a := Z.abs (v - N * shift)) in *. set (b := Z.abs (vb - (N - 2 * N') * shift)) in *.
  rewrite Z.abs_mul in Ht. change (Z.abs 2) with 2 in Ht. set (a' := Z.abs (v' - N' * shift)) in *.
  clearbody a b a'.
  assert (2 ^ 53 * (p * b) ≤ 2 ^ 53 * (p * (2506 * n + 8)) + 3 * ((2 ^ 48 + 4 * p) * shift)) as Hb'
    by (rewrite <- Hh; nia).
  assert (p * (2 * a') ≤ p * (a + b + n)) as Ht' by (apply Z.mul_le_mono_nonneg_l; lia).
  unfold D, shift in *. nia.
Qed.

Lemma low_bit_weaken M M' v vb N N' : low_bit M v vb N N' → M ≤ M' → low_bit M' v vb N N'.
Proof.
  intros [H1 H2 H3 H4 H5 H6] HM. pose proof shift_pos as Hs.
  assert (M * shift ≤ M' * shift) by (apply Z.mul_le_mono_nonneg_r; lia).
  split; [lia|lia|exact H3|exact H4|exact H5|exact H6].
Qed.

(** From the second turn on the integer is determined. *)
Lemma same_integer i v vb N N1 N' :
  (0 < i ≤ 32)%nat → drift i v N → low_bit (height i) v vb N1 N' → N1 = N.
Proof.
  intros Hi Hd [Hc _ _ _ _ _]. unfold drift in Hd.
  assert (Z.of_nat i + 1 ≤ 2 ^ Z.of_nat i) as Hp1
    by (pose proof (Z.pow_gt_lin_r 2 (Z.of_nat i)); lia).
  assert (2 * 2 ^ Z.of_nat (pred i) = 2 ^ Z.of_nat i) as Hp2
    by (rewrite <- Z.pow_succ_r by lia; f_equal; lia).
  pose proof (Z.pow_pos_nonneg 2 (Z.of_nat (pred i)) ltac:(lia) ltac:(lia)) as Hp3.
  assert (height i ≤ 2 ^ 47 + 4) as Hh.
  { unfold height. pose proof (Z.pow_le_mono_r 2 (48 - Z.of_nat i) 47 ltac:(lia) ltac:(lia)). lia. }
  set (p := 2 ^ Z.of_nat i) in *. set (h := height i) in *. clearbody p h.
  set (a := Z.abs (v - N * shift)) in *. assert (0 ≤ a) as Ha by (unfold a; lia).
  assert (100 * a ≤ 37 * shift + 100 * D) as Ha'.
  { apply (Z.mul_le_mono_pos_l _ _ p); [lia|]. unfold shift in *. clear -Hd Hp1 Hp2 Hp3 Hi. nia. }
  unfold D, shift in *. unfold a in *. clear -few Ha' Hc Hh. lia.
Qed.

(** What the first turn fixes: an integer next to [v0]. *)
Definition start (M v0 N0 : Z) : Prop :=
  2 ^ 51 * Z.abs (v0 - N0 * shift) ≤ 2 ^ 50 * shift + 2 ^ 51 * (501 * n) + (M + 18004) * shift.

Definition aligned (M v0 : Z) (i : nat) (v : Z) : Prop :=
  Z.abs v ≤ height i * shift
  ∧ match i with
    | O => v = v0 ∧ Z.abs v0 ≤ M * shift
    | S _ => ∃ N0 N, start M v0 N0 ∧ drift i v N ∧ top N0 i N
    end.

Lemma turn_tail M v0 i v vb v' N0 N N' :
  (i < 32)%nat → start M v0 N0 → drift i v N → top N0 i N → low_bit (height i) v vb N N' →
  Z.abs v ≤ height i * shift → Z.abs (2 * v' - (v - vb)) ≤ n → aligned M v0 (S i) v'.
Proof.
  intros Hi Hs Hd Ht Hl Hv Hv'. split.
  - destruct (height_S i Hi) as [Hh _]. pose proof (height_bound i ltac:(lia)) as Hb.
    destruct Hl as [_ Hl Hdig _ _ _]. rewrite Hh in Hv, Hl.
    assert (Z.abs ((N - 2 * N') * shift) ≤ 3 * shift) as H3 by (unfold shift; lia).
    set (u := (N - 2 * N') * shift) in *. set (h := height (S i)) in *. clearbody u h.
    unfold shift in *. clear -Hv Hl H3 Hv' few Hh Hb. lia.
  - exists N0, N'. split; [done|]. split; [by apply (drift_S i v vb v' N N')|by eapply top_S].
Qed.

Lemma turn_fp M v0 i B y v w :
  (i < 32)%nat → aligned M v0 i v → 0 ≤ M ≤ height 0 →
  FShares B y v → lsb_size ≤ B → B + 3000 * shift < wire → fair fuel w →
  runs (getLSBShare fuel y) w (λ b w', later w w' ∧ FShares lsb_size b (Zsum b)
    ∧ ∃ v', FShares B (halve y b) v' ∧ Z.abs (2 * v' - (v - Zsum b)) ≤ n ∧ aligned M v0 (S i) v').
Proof.
  intros Hi [Hh Ha] HM Hy HB HBw Hf.
  assert (0 ≤ B) as HB0 by (unfold lsb_size, shift in HB; lia).
  assert (0 ≤ lsb_size) as Hl0 by (unfold lsb_size, shift; lia).
  assert (∀ b, FShares lsb_size b (Zsum b) →
    FShares B (halve y b) (Zsum (halve y b)) ∧ Z.abs (2 * Zsum (halve y b) - (v - Zsum b)) ≤ n) as Hhalf.
  { intros b Hb. destruct (halve_fp B lsb_size y b v (Zsum b) Hy Hb HB0 Hl0) as [H1 H2].
    split; [|done]. eapply FShares_weaken; [exact H1|]. apply Z.div_le_upper_bound; lia. }
  assert (∀ K, 0 ≤ K ≤ height i → Z.abs v ≤ K * shift →
    (∀ vb N N', low_bit K v vb N N' → ∃ N0, start M v0 N0 ∧ drift i v N ∧ top N0 i N) →
    runs (getLSBShare fuel y) w (λ b w', later w w' ∧ FShares lsb_size b (Zsum b)
    ∧ ∃ v', FShares B (halve y b) v' ∧ Z.abs (2 * v' - (v - Zsum b)) ≤ n ∧ aligned M v0 (S i) v')) as Hrun.
  { intros K HK HvK Hstart. pose proof (height_bound i ltac:(lia)).
    eapply runs_mono; [apply (getLSB_fp K B y v w); (done || lia)|].
    cbv beta. intros b w' (Hw & Hb & N & N' & Hl). split; [done|]. split; [done|].
    destruct (Hhalf b Hb) as [H1 H2]. exists (Zsum (halve y b)). split; [done|]. split; [done|].
    destruct (Hstart _ _ _ Hl) as (N0 & Hs & Hd & Ht).
    apply (turn_tail M v0 i v (Zsum b) _ N0 N N'); try done.
    eapply low_bit_weaken; [exact Hl|lia]. }
  destruct i as [|i].
  - destruct Ha as [-> Hv0]. apply (Hrun M); [lia|done|].
    intros vb N N' Hl. exists N. split; [apply Hl|]. split; [|apply top_0].
    eapply drift_0; [|exact Hl]. lia.
  - destruct Ha as (N0 & N & Hs & Hd & Ht). apply (Hrun (height (S i))); [|done|].
    + pose proof (height_bound (S i) ltac:(lia)). lia.
    + intros vb N1 N' Hl. rewrite (same_integer (S i) v vb N N1 N' ltac:(lia) Hd Hl). by exists N0.
Qed.

(** ** [LTZ] and [getFloor] *)

(** [2^32 + 2^16 * s] *)
Definition lifted (sv : Z) : Z := sv * 2 ^ 16 + 2 ^ 32 * shift.

Lemma lifted_fp Bs s sv :
  FShares Bs s sv →
  FShares (Bs * 2 ^ 16 + 2 ^ 32 * shift) (s_addc (s_mulc s (fp (2 ^ 16))) (fp (2 ^ 32))) (lifted sv).
Proof.
  intros Hs. unfold lifted. apply FShares_addc; [|done].
  apply (s_mulc_fp_whole Bs s sv (2 ^ 16) Hs).
Qed.

(** The bounds of the numbers that [LTZ] and [getFloor] halve. *)
Lemma lifted_bounds Bs B : 0 ≤ Bs → 2 ^ 17 * Bs < wire → B = Bs * 2 ^ 16 + 2 ^ 32 * shift →
  0 ≤ B ∧ lsb_size ≤ B ∧ B + 3000 * shift < wire.
Proof. intros HBs HBw ->. unfold lsb_size, shift, wire in *. clear -HBs HBw. lia. Qed.

Lemma aligned_end M v0 i v :
  (16 ≤ i)%nat → aligned M v0 i v →
  ∃ N0 N, start M v0 N0 ∧ top N0 i N ∧ drift i v N.
Proof. intros Hi [_ Ha]. destruct i; [lia|]. destruct Ha as (N0 & N & ? & ? & ?). by exists N0, N. Qed.

Definition LTZ_inv (M B v0 : Z) (w : World) (i : nat) (zy : sharing * sharing) (w' : World) : Prop :=
  later w w' ∧ ∃ zv v, FShares (2 ^ Z.of_nat i * lsb_size) zy.1 zv ∧ FShares B zy.2 v
    ∧ aligned M v0 i v ∧ Z.abs (zv - (v0 - 2 ^ Z.of_nat i * v)) ≤ n * (2 ^ Z.of_nat i - 1).

Lemma ltz_step_fp M B v0 w0 i zy w :
  (1 ≤ i < 32)%nat → 0 ≤ M ≤ height 0 → lsb_size ≤ B → B + 3000 * shift < wire → fair fuel w0 →
  LTZ_inv M B v0 w0 i zy w →
  runs (ltz_step fuel zy i) w (LTZ_inv M B v0 w0 (S i)).
Proof.
  intros Hi HM HB HBw Hf (Hl & zv & v & Hz & Hy & Ha & He). destruct zy as [z y]. cbn [fst snd] in *.
  unfold ltz_step. eapply runs_bind.
  { apply (turn_fp M v0 i B y v w); try done; [lia|by eapply fair_later]. }
  intros b w1 (Hl1 & Hb & v' & Hy' & Hv' & Ha'). apply runs_ret.
  split; [by eapply later_trans|]. cbn [fst snd].
  assert (0 < 2 ^ Z.of_nat i) as Hp by (apply Z.pow_pos_nonneg; lia).
  pose proof (FShares_add _ _ _ _ _ _ Hz (s_mulc_fp_whole _ _ _ (2 ^ Z.of_nat i) Hb)) as Hz'.
  rewrite (Z.abs_eq (2 ^ Z.of_nat i)) in Hz' by lia.
  exists (zv + Zsum b * 2 ^ Z.of_nat i), v'. rewrite Nat2Z.inj_succ, Z.pow_succ_r by lia.
  split; [|split; [exact Hy'|split; [exact Ha'|]]].
  - eapply FShares_weaken; [exact Hz'|]. lia.
  - set (p := 2 ^ Z.of_nat i) in *. clearbody p.
    replace (zv + Zsum b * p - (v0 - 2 * p * v'))
      with ((zv - (v0 - p * v)) + p * (2 * v' - (v - Zsum b))) by ring.
    assert (Z.abs (p * (2 * v' - (v - Zsum b))) ≤ p * n)
      by (rewrite Z.abs_mul, (Z.abs_eq p) by lia; apply Z.mul_le_mono_nonneg_l; lia).
    lia.
Qed.

Lemma drift_32 v N : drift 32 v N → Z.abs (v - N * shift) ≤ D + 1.
Proof. unfold drift, shift. intros H. lia. Qed.

Lemma LTZ_fp M Bs s sv w :
  FShares Bs s sv → 0 ≤ Bs → 2 ^ 17 * Bs < wire → Z.abs (lifted sv) ≤ M * shift → 0 ≤ M ≤ height 0 →
  fair fuel w →
  runs (LTZ fuel s) w (λ x w', later w w' ∧ ∃ N0 N, start M (lifted sv) N0 ∧ top N0 32 N
    ∧ FShares (2 ^ 17 * Bs + 2 ^ 50 * lsb_size) x (Zsum x)
    ∧ Z.abs (Zsum x - (1 - N) * shift) ≤ 2509 * n + 11).
Proof.
  intros Hs HBs HBw Hv HM Hf. unfold LTZ.
  change (fp (2 ^ Z.of_nat m_bits)) with (fp (2 ^ 16)). change (fp (2 ^ Z.of_nat k_bits)) with (fp (2 ^ 32)).
  pose proof (s_mulc_fp_whole Bs s sv (2 ^ 16) Hs) as Hx. change (Z.abs (2 ^ 16)) with (2 ^ 16) in Hx.
  pose proof (lifted_fp Bs s sv Hs) as Hy.
  set (x := s_mulc s (fp (2 ^ 16))) in *. set (y := s_addc x (fp (2 ^ 32))) in *.
  destruct (lifted_bounds Bs _ HBs HBw eq_refl) as (_ & HlB & HBw').
  set (B := Bs * 2 ^ 16 + 2 ^ 32 * shift) in *. set (v0 := lifted sv) in *.
  assert (Z.abs v0 ≤ height 0 * shift) as Hv0
    by (unfold shift in *; clear -Hv HM; lia).
  eapply runs_bind.
  { apply (turn_fp M v0 0 B y v0 w); try done; lia. }
  intros z w1 (Hl1 & Hz & v1 & Hy1 & Hv1 & Ha1).
  eapply runs_bind.
  { change (k_bits - 1)%nat with 31%nat. apply (runs_mfold_seq _ 1 31 (LTZ_inv M B v0 w)).
    - split; [done|]. exists (Zsum z), v1. cbn [fst snd]. change (2 ^ Z.of_nat 1) with 2.
      split; [eapply FShares_weaken; [exact Hz|unfold lsb_size, shift; lia]|].
      split; [exact Hy1|]. split; [exact Ha1|]. clear -Hv1. lia.
    - intros i zy w' Hi. apply ltz_step_fp; done || lia. }
  intros [zl yl] w2 (Hl2 & zv & v & Hzl & _ & Ha & He). cbn [fst snd] in *. apply runs_ret.
  split; [done|]. destruct (aligned_end M v0 (1 + 31) v ltac:(lia) Ha) as (N0 & N & Hst & Ht & Hd).
  exists N0, N. split; [done|]. split; [done|]. apply drift_32 in Hd.
  pose proof (FShares_sub _ _ _ _ _ _ Hzl Hx) as Hzx.
  destruct (s_divc_fp _ _ _ (2 ^ 32) Hzx) as [Hq Hqe]; [|done|unfold shift, wire; lia|].
  { unfold lsb_size, shift, wire in *. change (2 ^ Z.of_nat (1 + 31)) with (2 ^ 32). clear -HBs HBw. lia. }
  split.
  - eapply FShares_weaken; [exact Hq|]. change (2 ^ Z.of_nat (1 + 31)) with (2 ^ 32).
    unfold lsb_size, shift. clear -HBs. lia.
  - change (2 ^ Z.of_nat (1 + 31)) with (2 ^ 32) in *.
    change (fp (2 ^ 32)) with (2 ^ 32 * shift).
    set (r := Zsum (Math.s_divc (s_sub zl x) (2 ^ 32 * shift))) in *. clearbody r.
    assert (v0 = sv * 2 ^ 16 + 2 ^ 32 * shift) as Hv0' by reflexivity. clearbody v0.
    unfold D, shift in *. clear -Hqe He Hd Hv0'. lia.
Qed.

(** The tightest bound, and which side of the threshold [start] puts us on. *)
Definition reach (sv : Z) : Z := Z.abs (lifted sv) / shift + 1.

Lemma reach_ok sv :
  Z.abs sv ≤ (2 ^ 32 - 2 ^ 16) * shift →
  Z.abs (lifted sv) ≤ reach sv * shift ∧ 0 ≤ reach sv ≤ height 0
  ∧ (reach sv - 1) * shift ≤ Z.abs (lifted sv).
Proof.
  intros H. unfold reach. pose proof shift_pos as Hs.
  pose proof (Z.div_mod (Z.abs (lifted sv)) shift ltac:(lia)) as Hd.
  pose proof (Z.mod_pos_bound (Z.abs (lifted sv)) shift Hs) as Hm.
  assert (Z.abs (lifted sv) ≤ 2 ^ 48 * shift) as Hl by (unfold lifted, shift in *; clear -H; lia).
  set (l := Z.abs (lifted sv)) in *. assert (0 ≤ l) as Hl0 by (unfold l; clear; lia). clearbody l.
  set (q := l / shift) in *. set (r := l mod shift) in *. clearbody q r.
  change (height 0) with (2 ^ 48 + 4). unfold shift in *. clear -Hl Hl0 Hd Hm. lia.
Qed.

Lemma start_side sv N0 :
  Z.abs sv ≤ (2 ^ 32 - 2 ^ 16) * shift → start (reach sv) (lifted sv) N0 →
  (-762 ≤ sv → 2 ^ 32 ≤ N0) ∧ (sv ≤ -764 → N0 < 2 ^ 32).
Proof.
  intros H Hst. destruct (reach_ok sv H) as (_ & HM & HM1). unfold start in Hst.
  set (M := reach sv) in *. clearbody M. change (height 0) with (2 ^ 48 + 4) in HM.
  unfold lifted, shift in *. clear -few H Hst HM HM1.
  split; intros Hsv.
  - destruct (Z.le_gt_cases 0 sv); [lia|]. assert (M ≤ 2 ^ 32 + 2) by lia. lia.
  - destruct (Z.le_gt_cases M (2 ^ 33)); lia.
Qed.

Lemma less_than_zero_fp Bs s sv w :
  FShares Bs s sv → 0 ≤ Bs → 2 ^ 18 * Bs < wire → Z.abs sv ≤ (2 ^ 32 - 2 ^ 16) * shift → fair fuel w →
  runs (less_than_zero fuel s) w (λ ans w', later w w'
    ∧ (-762 ≤ sv → ans = false) ∧ (sv ≤ -764 → ans = true)).
Proof.
  intros Hs HBs HBw Hsv Hf. destruct (reach_ok sv Hsv) as (H1 & H2 & _). unfold less_than_zero.
  eapply runs_bind.
  { apply (LTZ_fp (reach sv) Bs s sv w); try done. clear -HBs HBw. lia. }
  intros x w1 (Hl & N0 & N & Hst & Ht & Hx & He).
  assert (2 ^ 17 * Bs + 2 ^ 50 * lsb_size < wire) as Hw
    by (unfold lsb_size, shift, wire in *; clear -HBs HBw; lia).
  pose proof (FShares_abs _ _ _ Hx) as Hxa.
  assert (Z.abs (Zsum x) < 2 ^ 900) as Hx900.
  { apply (Z.lt_trans _ (9 * 10 ^ 36)); [|vm_compute; reflexivity].
    unfold wire in Hw. unfold lsb_size, shift in *. clear -Hxa Hw few HBs. nia. }
  eapply runs_bind.
  { eapply runs_lift_eq, (recons_fp sp_id); [exact Hx|exact Hw]. }
  intros ? ? [-> ->]. destruct (start_side sv N0 Hsv Hst) as [Hge Hlt].
  destruct Ht as [T1 T2 _]. change (2 ^ (32 - Z.of_nat 32)) with 1 in *.
  assert (runs (lift (decide_value (Zsum x))) w1 (λ ans w', ans = (N0 <? 2 ^ 32) ∧ w' = w1)) as Hrun.
  { apply runs_lift_eq. destruct (Z.ltb_spec N0 (2 ^ 32)) as [Hn|Hn].
    - specialize (T2 Hn). apply decide_high. split; [|clear -Hx900; lia].
      unfold shift in *. clear -few He T2. nia.
    - specialize (T1 Hn). apply decide_low. split; [clear -Hx900; lia|].
      unfold shift in *. clear -few He T1. nia. }
  eapply runs_mono; [exact Hrun|]. intros ? ? [-> ->]. split; [done|]. split; intros H.
  - apply Z.ltb_ge. by apply Hge.
  - apply Z.ltb_lt. by apply Hlt.
Qed.

Lemma neither_fp a b : neither a b = Ok (negb a && negb b).
Proof.
  unfold neither. destruct a, b; cbn [negb andb fp_of_bool]; [| | |];
    [apply decide_low; vm_compute; split; [reflexivity|discriminate]..|].
  apply decide_high. split; [vm_compute; discriminate|vm_compute; reflexivity].
Qed.

Definition floor_inv (B v0 : Z) (w : World) (i : nat) (y : sharing) (w' : World) : Prop :=
  later w w' ∧ ∃ v, FShares B y v ∧ aligned (2 ^ 33) v0 i v.

Lemma floor_inv_0 B v0 w y : FShares B y v0 → Z.abs v0 ≤ 2 ^ 33 * shift → floor_inv B v0 w 0 y w.
Proof.
  intros Hy Hv. split; [apply later_refl|]. exists v0. split; [exact Hy|]. split; [|done].
  change (height 0) with (2 ^ 48 + 4). unfold shift in *. clear -Hv. lia.
Qed.

Lemma floor_turn_fp B v0 w i y w1 :
  (i < 16)%nat → lsb_size ≤ B → B + 3000 * shift < wire → fair fuel w → floor_inv B v0 w i y w1 →
  runs (let* b := getLSBShare fuel y in ret (halve y b)) w1 (floor_inv B v0 w (S i)).
Proof.
  intros Hi HB HBw Hf (Hl & v & Hyv & Ha).
  eapply runs_bind; [apply (turn_fp (2 ^ 33) v0 i B y v w1); try done; [lia|by eapply fair_later]|].
  intros b w2 (Hl2 & _ & v' & Hy' & _ & Ha'). apply runs_ret.
  split; [by eapply later_trans|]. by exists v'.
Qed.

Lemma getFloor_fp Bs s sv w :
  FShares Bs s sv → 0 ≤ Bs → 2 ^ 17 * Bs < wire → Z.abs sv ≤ (2 ^ 16 - 1) * shift → fair fuel w →
  runs (getFloor fuel s) w (λ x w', later w w'
    ∧ FShares (2 ^ 17 * Bs + 2 ^ 34 * shift) x (Zsum x)
    ∧ (sv mod shift ≤ shift - 764 → Z.abs (Zsum x - sv / shift * shift) ≤ 2507 * n + 3420)
    ∧ (shift - 762 ≤ sv mod shift → Z.abs (Zsum x - (sv / shift + 1) * shift) ≤ 2507 * n + 3420)).
Proof.
  intros Hs HBs HBw Hsv Hf. unfold getFloor.
  change (fp (2 ^ Z.of_nat m_bits)) with (fp (2 ^ 16)). change (fp (2 ^ Z.of_nat k_bits)) with (fp (2 ^ 32)).
  pose proof (lifted_fp Bs s sv Hs) as Hy. set (v0 := lifted sv) in *.
  destruct (lifted_bounds Bs _ HBs HBw eq_refl) as (_ & HlB & HBw').
  set (B := Bs * 2 ^ 16 + 2 ^ 32 * shift) in *.
  assert (Z.abs v0 ≤ 2 ^ 33 * shift) as Hv0 by (unfold v0, lifted, shift in *; clear -Hsv; lia).
  eapply runs_bind.
  { apply (runs_mfold_seq _ 0 m_bits (floor_inv B v0 w)); [by apply floor_inv_0|].
    intros i y w1 Hi. change m_bits with 16%nat in Hi. apply floor_turn_fp; done || lia. }
  intros y w1 (Hl & v & Hyv & Ha). apply runs_ret. split; [done|].
  destruct (aligned_end (2 ^ 33) v0 16 v ltac:(lia) Ha) as (N0 & N & Hst & [_ _ Ht] & Hd).
  change (fp (2 ^ Z.of_nat (k_bits - m_bits))) with (2 ^ 16 * shift).
  pose proof (FShares_subc B (2 ^ 16 * shift) y v (2 ^ 16 * shift) Hyv ltac:(vm_compute; discriminate)) as Hr.
  rewrite (proj2 (proj2 Hr)).
  split; [eapply FShares_weaken; [exact Hr|unfold B, shift; clear -HBs; lia]|].
  unfold start in Hst. unfold drift, D in Hd. change (2 ^ Z.of_nat 16) with (2 ^ 16) in *.
  assert (v0 = sv * 2 ^ 16 + 2 ^ 32 * shift) as Hv0' by reflexivity. clearbody v0.
  pose proof (Z.div_mod sv shift ltac:(done)) as Hdm. pose proof (Z.mod_pos_bound sv shift ltac:(done)) as Hmb.
  set (f := sv / shift) in *. set (r := sv mod shift) in *. clearbody f r.
  assert (0 ≤ N0 ≤ 2 ^ 33) as HN0 by (unfold shift in *; clear -Hst Hv0' Hsv few; lia).
  specialize (Ht HN0).
  pose proof (Z.div_mod N0 (2 ^ 16) ltac:(lia)) as Hdn. pose proof (Z.mod_pos_bound N0 (2 ^ 16) ltac:(lia)) as Hmn.
  rewrite <- Ht in Hdn. set (m := N0 mod 2 ^ 16) in *. clearbody m. clear Ht HN0.
  unfold shift in *. split; intros H.
  - assert (N = 2 ^ 16 + f) as -> by (clear -Hst Hv0' Hdm Hmb Hdn Hmn H few; lia).
    clear -Hd few. lia.
  - assert (N = 2 ^ 16 + (f + 1)) as -> by (clear -Hst Hv0' Hdm Hmb Hdn Hmn H few; lia).
    clear -Hd few. lia.
Qed.
End Protocol.

(** * Theorems *)

Import FixedPoint.

(** Where the protocols are meant to run: at most nine parties, so that the
    squares of the draws stay below [2^53] units; triples and draws that fit
    the wire; and draws that are not all zero [fuel] times in a row. *)
Record setting `{E : Env} (T : Z) (fuel : nat) (w : World) : Prop := {
  set_few : n ≤ 9;
  set_small : opened T (1000 * shift) < wire ∧ mul_bound T (1000 * shift) < wire;
  set_fair : fair fuel w
}.

Lemma setting_later `{E : Env} T fuel w w' : setting T fuel w → later w w' → setting T fuel w'.
Proof. intros [H1 H2 H3] Hl. split; [done|done|by eapply fair_later]. Qed.

(** [operator<] and [operator==] of two shares as steps of a longer run. *)
Lemma lt_share_runs `{DL : DecLaws} {E : Env} {V : ValidEnv E} {T} {TL : TripleLaws T E}
    `{CL : CppIntLaws} fuel B x y v u w :
  setting T fuel w → FShares B x v → FShares B y u → 0 ≤ B → 2 ^ 19 * B < wire →
  Z.abs (v - u) ≤ (2 ^ 32 - 2 ^ 16) * shift →
  runs (@lt_share _ E _ fuel x y) w (λ ans w', later w w'
    ∧ (u ≤ v + 762 → ans = false) ∧ (v + 764 ≤ u → ans = true)).
Proof.
  intros [H1 H2 H3] Hx Hy HB Hw Hd. unfold lt_share. eapply runs_mono.
  { apply (less_than_zero_fp fuel H1 H2 (B + B) _ (v - u) w); [by apply FShares_sub|lia..|done]. }
  cbv beta. intros ans w' (Hl & Hf & Ht). split_and!; [done|intros; apply Hf; lia|intros; apply Ht; lia].
Qed.

Lemma eq_share_runs `{DL : DecLaws} {E : Env} {V : ValidEnv E} {T} {TL : TripleLaws T E}
    `{CL : CppIntLaws} fuel B x y v u w :
  setting T fuel w → FShares B x v → FShares B y u → 0 ≤ B → 2 ^ 19 * B < wire →
  Z.abs (v - u) ≤ (2 ^ 32 - 2 ^ 16) * shift →
  runs (@eq_share _ E _ fuel x y) w (λ ans w', later w w'
    ∧ (Z.abs (v - u) ≤ 762 → ans = true) ∧ (764 ≤ Z.abs (v - u) → ans = false)).
Proof.
  intros Hset Hx Hy HB Hw Hd. unfold eq_share. eapply runs_bind; [by eapply lt_share_runs|].
  cbv beta. intros a w1 (Hl1 & Ha1 & Ha2).
  eapply runs_bind; [eapply (lt_share_runs fuel B y x u v); try done; [by eapply setting_later|lia]|].
  cbv beta. intros b w2 (Hl2 & Hb1 & Hb2). eapply runs_lift; [apply neither_fp|].
  split_and!; [by eapply later_trans| |]; intros H.
  - by rewrite Ha1, Hb1 by lia.
  - destruct (Z.le_gt_cases v u); [rewrite Ha2 by lia|rewrite Hb2 by lia; by rewrite andb_false_r]; done.
Qed.

(** [getRandBitShare] ends (its retry needs one draw whose sum over the
    parties is not zero) and returns a share of 0 or 1 up to [501] units per
    party; a sum of zero is never mistaken for a bit, because the square of
    whole shares is exact. *)
Theorem rand_bit_is_a_bit `{DL : DecLaws} {E : Env} {V : ValidEnv E} {T} {TL : TripleLaws T E}
    `{CL : CppIntLaws} fuel w :
  setting T fuel w →
  ∃ x w' v, @getRandBitShare _ E _ fuel w = Ok (x, w')
    ∧ (∀ me, @recons_at fp_value E me x = Ok v)
    ∧ (Z.abs v ≤ 501 * n ∨ Z.abs (v - shift) ≤ 501 * n).
Proof.
  intros [H1 H2 H3]. destruct (getRandBitShare_fp H1 H2 fuel w H3) as (x & w' & Hx & _ & b & Hb & Hs & He).
  exists x, w', (Zsum x). split; [done|]. split; [intros me; by eapply recons_fp|].
  destruct Hb as [-> | ->]; [left|right]; by rewrite ?Z.mul_0_l, ?Z.sub_0_r, ?Z.mul_1_l in He.
Qed.

(** [operator<] decides the order of two fixed-point shares, and of a share
    and a public number, for every difference below [2^32 - 2^16]: it ends,
    never in [std::exit], and the answer is [left < right] unless [right] is
    the larger one by less than [2^-17] (762 units), which counts as equal; only
    at 763 units the answer depends on the random bits. *)
Theorem lt_decides `{DL : DecLaws} {E : Env} {V : ValidEnv E} {T} {TL : TripleLaws T E}
    `{CL : CppIntLaws} fuel B x y v u w :
  setting T fuel w → FShares B x v → FShares B y u → 0 ≤ B → Z.abs u ≤ B → 2 ^ 19 * B < wire →
  Z.abs (v - u) ≤ (2 ^ 32 - 2 ^ 16) * shift →
  (∃ ans w', @lt_share _ E _ fuel x y w = Ok (ans, w')
     ∧ (u ≤ v + 762 → ans = false) ∧ (v + 764 ≤ u → ans = true))
  ∧ (∃ ans w', @lt_fp _ E _ fuel x u w = Ok (ans, w')
     ∧ (u ≤ v + 762 → ans = false) ∧ (v + 764 ≤ u → ans = true)).
Proof.
  intros [H1 H2 H3] Hx Hy HB Hu Hw Hd.
  assert (∀ s, FShares (B + B) s (v - u) →
    ∃ ans w', less_than_zero fuel s w = Ok (ans, w')
     ∧ (u ≤ v + 762 → ans = false) ∧ (v + 764 ≤ u → ans = true)) as H.
  { intros s Hs. destruct (less_than_zero_fp fuel H1 H2 (B + B) s (v - u) w Hs) as (ans & w' & Ha & _ & Hf & Ht);
      [lia|lia|done|done|].
    exists ans, w'. split; [done|]. split; intros; [apply Hf|apply Ht]; lia. }
  split; apply H; [by apply FShares_sub|by apply FShares_subc].
Qed.

(** [operator==] on fixed-point shares is equality up to 762 units
    ([2^-17]), and inequality from 764 units on, for every difference below
    [2^32 - 2^16]; it always ends with an answer. *)
Theorem eq_share_decides `{DL : DecLaws} {E : Env} {V : ValidEnv E} {T} {TL : TripleLaws T E}
    `{CL : CppIntLaws} fuel B x y v u w :
  setting T fuel w → FShares B x v → FShares B y u → 0 ≤ B → 2 ^ 19 * B < wire →
  Z.abs (v - u) ≤ (2 ^ 32 - 2 ^ 16) * shift →
  ∃ ans w', @eq_share _ E _ fuel x y w = Ok (ans, w')
    ∧ (Z.abs (v - u) ≤ 762 → ans = true) ∧ (764 ≤ Z.abs (v - u) → ans = false).
Proof.
  intros Hset Hx Hy HB Hw Hd.
  destruct (eq_share_runs fuel B x y v u w Hset Hx Hy HB Hw Hd) as (ans & w' & H & _ & Ha). by exists ans, w'.
Qed.

(** [operator==] of a share and a public number [u] is not equality: the
    number is compared from above as a share every party holds, that is as
    [n * u], so with [n] parties every secret between [u] and [n * u] equals
    [u]. *)
Theorem eq_fp_is_an_interval `{DL : DecLaws} {E : Env} {V : ValidEnv E} {T} {TL : TripleLaws T E}
    `{CL : CppIntLaws} fuel B x v u w :
  setting T fuel w → FShares B x v → 0 ≤ B → Z.abs u ≤ B → 2 ^ 19 * B < wire →
  Z.abs (v - u) ≤ (2 ^ 32 - 2 ^ 16) * shift → Z.abs (n * u - v) ≤ (2 ^ 32 - 2 ^ 16) * shift →
  ∃ ans w', @eq_fp _ E _ fuel x u w = Ok (ans, w')
    ∧ (u ≤ v + 762 → v ≤ n * u + 762 → ans = true)
    ∧ (v + 764 ≤ u ∨ n * u + 764 ≤ v → ans = false).
Proof.
  intros [H1 H2 H3] Hx HB Hu Hw Hd Hd2.
  assert (runs (eq_fp fuel x u) w (λ ans _,
    (u ≤ v + 762 → v ≤ n * u + 762 → ans = true)
    ∧ (v + 764 ≤ u ∨ n * u + 764 ≤ v → ans = false))) as (ans & w' & H & Ha).
  { unfold eq_fp, lt_fp, lt_share. eapply runs_bind.
    { apply (less_than_zero_fp fuel H1 H2 (B + B) _ (v - u) w); [by apply FShares_subc|lia..|done]. }
    intros a w1 (Hl & Ha1 & Ha2).
    assert (FShares B (s_lit u) (n * u)) as Hlit.
    { unfold s_lit. split_and!; [apply length_replicate|by apply Forall_replicate|apply Zsum_replicate]. }
    eapply runs_bind.
    { apply (less_than_zero_fp fuel H1 H2 (B + B) _ (n * u - v) w1); [by apply FShares_sub|lia..|].
      by eapply fair_later. }
    intros b w2 (_ & Hb1 & Hb2). eapply runs_lift; [apply neither_fp|]. split.
    - intros. by rewrite Ha1, Hb1 by lia.
    - intros [H|H]; [rewrite Ha2 by lia|rewrite Hb2 by lia; by rewrite andb_false_r]; done. }
  by exists ans, w'.
Qed.

(** [getFloor] rounds down: for a secret below [2^16 - 1] it ends with a
    share of the greatest integer below it, up to [2507 * n + 3420] units,
    unless the secret is less than [2^-17] below the next integer, where that
    integer is returned. *)
Theorem getFloor_rounds_down `{DL : DecLaws} {E : Env} {V : ValidEnv E} {T} {TL : TripleLaws T E}
    `{CL : CppIntLaws} fuel B x v w :
  setting T fuel w → FShares B x v → 0 ≤ B → 2 ^ 18 * B < wire → Z.abs v ≤ (2 ^ 16 - 1) * shift →
  ∃ z w' r, @getFloor _ E _ fuel x w = Ok (z, w') ∧ (∀ me, @recons_at fp_value E me z = Ok r)
    ∧ (v mod shift ≤ shift - 764 → Z.abs (r - v / shift * shift) ≤ 2507 * n + 3420)
    ∧ (shift - 762 ≤ v mod shift → Z.abs (r - (v / shift + 1) * shift) ≤ 2507 * n + 3420).
Proof.
  intros [H1 H2 H3] Hx HB Hw Hv.
  destruct (getFloor_fp fuel H1 H2 B x v w Hx HB ltac:(lia) Hv H3) as (z & w' & Hz & _ & Hs & He).
  exists z, w', (Zsum z). split; [done|]. split; [|done]. intros me. eapply recons_fp; [exact Hs|].
  unfold shift, wire in *. clear -HB Hw. lia.
Qed.

(** ** Witnesses: three parties that always draw 500 *)

Definition steady_env : Env := {|
  n_parties := 3; sp_id := 1; entropy := λ _ _, 1500; bts := @bts demo_env
|}.
#[export] Instance steady_valid : ValidEnv steady_env.
Proof. split; simpl; lia. Qed.
#[export] Instance steady_triples : TripleLaws 36 steady_env.
Proof. split; [simpl; lia|reflexivity|reflexivity]. Qed.

Lemma steady_setting : @setting steady_env 36 1 world0.
Proof.
  split; [simpl; lia|split; vm_compute; reflexivity|].
  intros k _. exists 0%nat. split; [lia|]. vm_compute. discriminate.
Qed.

Lemma rand_bit_is_a_bit_witness :
  ∃ x w' v, @getRandBitShare rat_dec steady_env nearest 1 world0 = Ok (x, w')
    ∧ (∀ me, @recons_at (@fp_value rat_dec) steady_env me x = Ok v)
    ∧ (Z.abs v ≤ 501 * Z.of_nat (@n_parties steady_env)
       ∨ Z.abs (v - shift) ≤ 501 * Z.of_nat (@n_parties steady_env)).
Proof.
  refine (@rand_bit_is_a_bit rat_dec rat_laws steady_env _ 36 _ nearest nearest_laws 1 world0 _).
  exact steady_setting.
Defined.

Ltac demo_fshares := split_and!; [reflexivity|repeat constructor; vm_compute; discriminate|reflexivity].

Lemma lt_decides_witness :
  let x := [5 * shift; - shift; 7] in
  let y := [0; 3 * shift; 5 * shift] in
  let v := 4 * shift + 7 in
  let u := 8 * shift in
  (∃ ans w', @lt_share rat_dec steady_env nearest 1 x y world0 = Ok (ans, w')
     ∧ (u ≤ v + 762 → ans = false) ∧ (v + 764 ≤ u → ans = true))
  ∧ (∃ ans w', @lt_fp rat_dec steady_env nearest 1 x u world0 = Ok (ans, w')
     ∧ (u ≤ v + 762 → ans = false) ∧ (v + 764 ≤ u → ans = true)).
Proof.
  intros x y v u.
  refine (@lt_decides rat_dec rat_laws steady_env _ 36 _ nearest nearest_laws 1 (8 * shift) x y v u world0
    _ _ _ _ _ _ _).
  - exact steady_setting.
  - demo_fshares.
  - demo_fshares.
  - vm_compute; discriminate.
  - vm_compute; discriminate.
  - vm_compute; reflexivity.
  - vm_compute; discriminate.
Defined.

Lemma eq_share_decides_witness :
  let x := [5 * shift; - shift; 7] in
  let y := [0; 3 * shift; shift] in
  let v := 4 * shift + 7 in
  let u := 4 * shift in
  ∃ ans w', @eq_share rat_dec steady_env nearest 1 x y world0 = Ok (ans, w')
    ∧ (Z.abs (v - u) ≤ 762 → ans = true) ∧ (764 ≤ Z.abs (v - u) → ans = false).
Proof.
  intros x y v u.
  refine (@eq_share_decides rat_dec rat_laws steady_env _ 36 _ nearest nearest_laws 1 (8 * shift) x y v u world0
    _ _ _ _ _ _).
  - exact steady_setting.
  - demo_fshares.
  - demo_fshares.
  - vm_compute; discriminate.
  - vm_compute; reflexivity.
  - vm_compute; discriminate.
Defined.

(** A share of 2 is not 1, and is reported to be equal to 1. *)
Lemma eq_fp_is_an_interval_witness :
  let x := [5 * shift; - shift; - 2 * shift] in
  let v := 2 * shift in
  let u := shift in
  let n := Z.of_nat (@n_parties steady_env) in
  (∃ ans w', @eq_fp rat_dec steady_env nearest 1 x u world0 = Ok (ans, w')
    ∧ (u ≤ v + 762 → v ≤ n * u + 762 → ans = true)
    ∧ (v + 764 ≤ u ∨ n * u + 764 ≤ v → ans = false))
  ∧ u ≤ v + 762 ∧ v ≤ n * u + 762 ∧ u ≠ v.
Proof.
  intros x v u n. split; [|split_and!; vm_compute; discriminate].
  refine (@eq_fp_is_an_interval rat_dec rat_laws steady_env _ 36 _ nearest nearest_laws 1 (8 * shift) x v u world0
    _ _ _ _ _ _ _).
  - exact steady_setting.
  - demo_fshares.
  - vm_compute; discriminate.
  - vm_compute; discriminate.
  - vm_compute; reflexivity.
  - vm_compute; discriminate.
  - vm_compute; discriminate.
Defined.

Lemma getFloor_rounds_down_witness :
  let x := [5 * shift; - shift; 7] in
  let v := 4 * shift + 7 in
  ∃ z w' r, @getFloor rat_dec steady_env nearest 1 x world0 = Ok (z, w')
    ∧ (∀ me, @recons_at (@fp_value rat_dec) steady_env me z = Ok r)
    ∧ (v mod shift ≤ shift - 764
       → Z.abs (r - v / shift * shift) ≤ 2507 * Z.of_nat (@n_parties steady_env) + 3420)
    ∧ (shift - 762 ≤ v mod shift
       → Z.abs (r - (v / shift + 1) * shift) ≤ 2507 * Z.of_nat (@n_parties steady_env) + 3420).
Proof.
  intros x v.
  refine (@getFloor_rounds_down rat_dec rat_laws steady_env _ 36 _ nearest nearest_laws 1 (8 * shift) x v world0
    _ _ _ _ _).
  - exact steady_setting.
  - demo_fshares.
  - vm_compute; discriminate.
  - vm_compute; reflexivity.
  - vm_compute; discriminate.
Defined.
