(* ===== verification/RoundsFixed.v ===== *)
(** * Comparisons of fixed-point shares over the network  (Share/Share.hpp, Share/Compare.cpp)

    The programs that each party runs for the random bit, the least significant
    bit, [LTZ], [getFloor] and [operator<] of [FixedCompare.v].
    The joint run of these protocols is right within bounds only: a value travels
    as a decimal string that is exact below [wire].  So the lemmas here are about
    the runs from one state of the parties ([realises_at]), with the bounds of
    [FixedCompareCorrect.v]. *)
From stdpp Require Import base list numbers sets strings gmap relations.
From Stdlib Require Import ZArith Lia.
From S2P Require Import Prelude FixedPoint Random TripleHandler Share SharePF Mailbox Rounds RoundsDivision RoundsVector RoundsRealises ShareFP Double FixedCompare FixedCompareCorrect.
Import Address Message Server.
#[local] Open Scope Z_scope.
#[local] Open Scope qmpc_scope.
Import FixedCompare.

Lemma fp_wire `{DecFloat} v : sv_wire (ShareValue := fp_value) v = FixedPoint.of_string (FixedPoint.getStrVal v).
Proof. done. Qed.
Definition fp_text `{DecFloat} : Wire fp_value := {|
  str_of := FixedPoint.getStrVal; of_str := FixedPoint.of_string; wire_law := fp_wire
|}.

Module AtPartyFixed.
Import FixedPoint FixedDouble AtParty.

Section Programs.
Context `{DF : DecFloat} `{E : Env} `{CI : CppInt} {R : Type} (id : nat → AddressId) (me : nat).
(** The attempts of a random bit. *)
Context (fuel : nat).
#[local] Existing Instance fp_value.
#[local] Existing Instance fp_text.
#[local] Abbreviation L := (@L R).
#[local] Abbreviation l_mul := (l_mul (R := R) id me).
#[local] Abbreviation l_open := (l_open (R := R) id me).
#[local] Abbreviation l_addc := (l_addc me).

Definition l_subc (x c : Z) : Z := if (me =? sp_id)%nat then sub x c else x.

Definition l_sign_bit (r square_r_rec : Z) : result Z :=
  let! r_dash := of_double (Double.sqrt (getDoubleVal square_r_rec)) in
  let inv_r_dash := div (fp 1) r_dash in
  Ok (mul (l_addc (mul r inv_r_dash) (fp 1)) half).

Fixpoint l_getRandBitShare_loop (fuel : nat) : L Z :=
  match fuel with
  | O => throw OutOfFuel
  | S fuel =>
      let& r := l_getRand me (-1000) 1000 in
      let& square_r := l_mul r r in
      let& square_r_rec := l_open square_r in
      if nonzero square_r_rec then lift (l_sign_bit r square_r_rec)
      else l_getRandBitShare_loop fuel
  end.
Definition l_getRandBitShare : L Z := l_getRandBitShare_loop fuel.

Definition l_xor_public (c r0 : Z) : Z :=
  sub (l_addc r0 c) (mul r0 (mul (fp 2) c)).

Definition l_getLSBShare (y : Z) : L Z :=
  let& r0 := l_getRandBitShare in
  let& r_dash := l_getRand me 1 1000 in
  let t := add (add y r0) (mul r_dash (fp 2)) in
  let& c := l_open t in
  let& c := lift (round_mod2 c) in
  ret (l_xor_public c r0).

Definition l_halve (y b : Z) : Z := mul (sub y b) half.

Definition l_getFloor (s : Z) : L Z :=
  let x := mul s (fp (2 ^ Z.of_nat m_bits)) in
  let y := l_addc x (fp (2 ^ Z.of_nat k_bits)) in
  let& y := mfold (λ y (_ : nat), let& b := l_getLSBShare y in ret (l_halve y b)) (seq 0 m_bits) y in
  ret (l_subc y (fp (2 ^ Z.of_nat (k_bits - m_bits)))).

Definition l_ltz_step (zy : Z * Z) (i : nat) : L (Z * Z) :=
  let& b := l_getLSBShare zy.2 in
  ret (add zy.1 (mul b (fp (2 ^ Z.of_nat i))), l_halve zy.2 b).

Definition l_LTZ (s : Z) : L Z :=
  let x := mul s (fp (2 ^ Z.of_nat m_bits)) in
  let y := l_addc x (fp (2 ^ Z.of_nat k_bits)) in
  let& z := l_getLSBShare y in
  let y := l_halve y z in
  let& zy := mfold l_ltz_step (seq 1 (k_bits - 1)) (z, y) in
  ret (div (sub zy.1 x) (fp (2 ^ Z.of_nat k_bits))).

Definition l_less_than_zero (s : Z) : L bool :=
  let& s_ltz := l_LTZ s in
  let& ret := l_open s_ltz in
  lift (decide_value ret).

Definition l_lt_share (left right : Z) : L bool := l_less_than_zero (sub left right).
Definition l_lt_fp (left right : Z) : L bool := l_less_than_zero (l_subc left right).
End Programs.
End AtPartyFixed.

(** * Lemmas *)

Section Realised.
Context `{DL : DecLaws} `{E : Env} `{V : !ValidEnv E} {T : Z} `{TL : !TripleLaws T E} `{CL : CppIntLaws} {Res : Type}.
Context (fuel : nat).
#[local] Existing Instance fp_value.
#[local] Existing Instance fp_text.
#[local] Abbreviation realises := (realises (Res := Res)).
#[local] Abbreviation realises_at := (realises_at (Res := Res)).
Import FixedPoint FixedDouble AtPartyFixed.

(** ** Local operators *)

Lemma part_add x y x' y' : part x x' → part y y' → part (s_add x y) (λ me, add (x' me) (y' me)).
Proof. apply part_zip. Qed.
Lemma part_sub x y x' y' : part x x' → part y y' → part (s_sub x y) (λ me, sub (x' me) (y' me)).
Proof. apply part_zip. Qed.
Lemma part_mulc x c x' : part x x' → part (s_mulc x c) (λ me, mul (x' me) c).
Proof. apply (part_map (λ v, mul v c)). Qed.
Lemma part_divc x c x' : part x x' → part (Math.s_divc x c) (λ me, div (x' me) c).
Proof. apply (part_map (λ v, div v c)). Qed.
Lemma part_add_public x c x' : part x x' → part (s_addc x c) (λ me, AtParty.l_addc me (x' me) c).
Proof. intros Hx. by apply (part_addc x c x' (λ _, c)). Qed.
Lemma part_subc x c x' : part x x' → part (s_subc x c) (λ me, l_subc me (x' me) c).
Proof. intros Hx. by apply (part_at_sp (λ v, sub v c) (λ _ v, sub v c)). Qed.
#[local] Hint Resolve part_add part_sub part_mulc part_divc part_add_public part_subc : local.

(** ** Rounds *)

Lemma realises_at_open_fp w x x' B v : FShares B x v → B < wire → part x x' →
  realises_at w pub (Share.open_recons x) (λ id me, AtParty.l_open id me (x' me)).
Proof. intros Hx HB Hp. eapply realises_at_open; [done|]. intros me _. by eapply recons_fp. Qed.

Lemma realises_at_mul_wire w x y x' y' B v u : FShares B x v → FShares B y u → B + T * shift < wire →
  part x x' → part y y' → realises_at w part (Share.s_mul x y) (λ id me, AtParty.l_mul id me (x' me) (y' me)).
Proof.
  intros Hx Hy HB Px Py. destruct (triple_at_fp (Share.triples w)) as (t & Ht & Hg).
  destruct (masked x v t B Hg Hx) as [[Hd _] _]. destruct (masked y u t B Hg Hy) as [[_ He] _].
  eapply realises_at_mul; [done|done|exact Ht|]. intros me _.
  eapply (recons_vec_fp me (B + T * shift)); [|done]. by repeat apply Forall2_cons_2.
Qed.

Lemma realises_at_mul_fp w x y x' y' B v u : FShares B x v → FShares B y u → opened T B < wire →
  part x x' → part y y' → realises_at w part (Share.s_mul x y) (λ id me, AtParty.l_mul id me (x' me) (y' me)).
Proof.
  intros Hx Hy HB. apply (realises_at_mul_wire _ _ _ _ _ B v u Hx Hy), opened_wire; [by eapply FShares_nonneg|done].
Qed.

Lemma getTriples_eq {B} (l : list B) (w : World) : ∃ ts,
  mmap (λ _, getTriple1) l w = Ok (ts, mkWorld (all_draws w) (sp_draws w) (Share.triples w + length l))
  ∧ Forall2 (λ i t, triple_at i = Ok t) (seq (Share.triples w) (length l)) ts
  ∧ Forall (good_triple (T := T)) ts ∧ Forall full_triple ts.
Proof.
  revert w. induction l as [|x l IH]; intros w; cbn [mmap length seq].
  - exists []. rewrite Nat.add_0_r. by destruct w.
  - destruct (triple_at_fp (Share.triples w)) as (t & Ht & Hg).
    destruct (IH (mkWorld (all_draws w) (sp_draws w) (S (Share.triples w)))) as (ts & Hts & Hf & Hgs & Hfull).
    exists (t :: ts). unfold bind, getTriple1 at 1. rewrite Ht. cbn [rbind]. rewrite Hts. cbn [rbind all_draws sp_draws Share.triples].
    split; [unfold ret; by rewrite Nat.add_succ_r|]. split; [by constructor|]. split; [by constructor|]. constructor; [|done].
    by apply (triple_at_own _ t sp_id Ht sp_party).
Qed.

(** The joint product of vectors, with the triples and the opened values. *)
Lemma v_mul_eq xs ys vs us B (w : World) :
  Forall2 (FShares B) xs vs → Forall2 (FShares B) ys us → length xs = length ys → B + T * shift < wire →
  ∃ ts des,
    let de := zip_with (λ x (abc : sharing * sharing * sharing), s_sub x abc.1.1) xs ts
              ++ zip_with (λ y (abc : sharing * sharing * sharing), s_sub y abc.1.2) ys ts in
    let zs := zip_with beaver ts (zip (take (length xs) des) (drop (length xs) des)) in
    Share.v_mul xs ys w = Ok (zs, mkWorld (all_draws w) (sp_draws w) (Share.triples w + length xs))
    ∧ Forall2 (λ i t, triple_at i = Ok t) (seq (Share.triples w) (length xs)) ts ∧ Forall full_triple ts
    ∧ length de = (length xs + length xs)%nat ∧ (∀ me, recons_vec_at me de = Ok des) ∧ Forall full zs.
Proof.
  intros Hx Hy Hl Hw. destruct (getTriples_eq (seq 0 (length xs)) w) as (ts & Hts & Hat & Hg & Hfull).
  rewrite length_seq in Hts, Hat.
  pose proof (Forall2_length _ _ _ Hat) as Hlt. rewrite length_seq in Hlt.
  destruct (masks_fp xs vs ts B Hg ltac:(lia) Hx) as [Hd _]. destruct (masks_fp ys us ts B Hg ltac:(lia) Hy) as [_ He].
  pose proof (Forall2_app Hd He) as Hde. exists ts. eexists. cbv zeta. split_and!.
  - unfold Share.v_mul. rewrite (proj2 (Nat.eqb_eq _ _) Hl). cbn [negb]. unfold bind, open_recons_vec, lift, Share.getTriple. rewrite Hts.
    cbn [rbind]. rewrite (recons_vec_fp sp_id _ _ _ Hde Hw). reflexivity.
  - done.
  - done.
  - rewrite length_app, !length_zip_with. lia.
  - intros me. by apply (recons_vec_fp me _ _ _ Hde Hw).
  - apply Forall_forall. intros z Hz. apply elem_of_lookup_zip_with in Hz as (i & t & de & -> & Ht & _).
    rewrite Forall_forall in Hfull. by apply full_beaver, Hfull, (list_elem_of_lookup_2 _ i).
Qed.

Lemma realises_at_v_mul_fp w xs ys xs' ys' vs us B :
  Forall2 (FShares B) xs vs → Forall2 (FShares B) ys us → length xs = length ys → B + T * shift < wire →
  lst part xs xs' → lst part ys ys' →
  realises_at w (lst part) (Share.v_mul xs ys) (λ id me, AtParty.l_v_mul id me (xs' me) (ys' me)).
Proof.
  intros Hx Hy Hl Hw Px Py. destruct (v_mul_eq xs ys vs us B w Hx Hy Hl Hw) as (ts & des & Hrun & Hts & _ & _ & Hrec & _).
  eapply realises_at_v_mul; [done|done|done|exact Hts|intros me _; apply Hrec|exact Hrun].
Qed.

(** ** The random bit *)

Hypothesis few : Z.of_nat n_parties ≤ 9.
Hypothesis small : opened T (1000 * shift) < wire ∧ mul_bound T (1000 * shift) < wire.

Lemma realises_sign_bit r r' q : part r r' →
  realises part (Share.lift (sign_bit r q)) (λ _ me, AtParty.lift (l_sign_bit me (r' me) q)).
Proof.
  intros Hr. unfold sign_bit, l_sign_bit. destruct (of_double _) as [d|e]; cbn [rbind]; [|by intros w a w' i].
  apply (realises_ret part _ (λ me, mul (AtParty.l_addc me (mul (r' me) (div (fp 1) d)) (fp 1)) half)). eauto with local.
Qed.

Lemma realises_at_getRandBit k w :
  realises_at w part (getRandBitShare_loop k) (λ id me, l_getRandBitShare_loop id me k).
Proof.
  revert w. induction k as [|k IH]; intros w; cbn [getRandBitShare_loop l_getRandBitShare_loop]; [apply realises_throw|].
  eapply realises_at_bind_runs; [by apply getRand_fp_runs|apply realises_draw|]. intros r r' w1 [-> ->] Hr.
  assert (FShares 1000 (draws (-1000) 1000 w) (Zsum (draws (-1000) 1000 w))) as Hd by (by apply draws_FShares).
  pose proof (whole_FShares _ _ _ Hd) as Hw. destruct small as [Hs1 Hs2].
  eapply realises_at_bind_runs; [by apply (s_mul_fp _ _ _ _ _ _ Hw Hw)|by apply (realises_at_mul_fp _ _ _ _ _ _ _ _ Hw Hw)|].
  intros z z' w2 [[Hz _] _] Pz.
  eapply realises_at_bind_pub; [by eapply runs_lift_eq, (recons_fp sp_id)|by apply (realises_at_open_fp _ _ _ _ _ Hz)|].
  intros c w3 _. destruct (nonzero c); [by apply realises_sign_bit|apply IH].
Qed.

(** ** The least significant bit *)

Lemma realises_at_getLSB B y y' v w :
  FShares B y v → part y y' → 0 ≤ B → B + 3000 * shift < wire → fair fuel w →
  realises_at w part (getLSBShare fuel y) (λ id me, l_getLSBShare id me fuel (y' me)).
Proof.
  intros Hy Py HB HBw Hf. unfold getLSBShare, l_getLSBShare.
  eapply realises_at_bind_runs; [by apply (getRandBitShare_fp few small)|apply realises_at_getRandBit|].
  intros r0 r0' w1 (_ & bit & _ & Hr0 & _) P0.
  eapply realises_at_bind_runs; [by apply getRand_fp_runs|apply realises_draw|]. intros rd rd' w2 [-> ->] Prd.
  set (dl := draws 1 1000 w1) in *.
  assert (FShares 1000 dl (Zsum dl)) as Hdl by (by apply draws_FShares).
  pose proof (s_mulc_fp_whole _ _ _ 2 (whole_FShares _ _ _ Hdl)) as Hd2.
  pose proof (FShares_add _ _ _ _ _ _ (FShares_add _ _ _ _ _ _ Hy Hr0) Hd2) as Ht.
  assert (B + bit_size + 1000 * shift * Z.abs 2 < wire) as HBt by (clear -HBw; unfold bit_size, shift in *; lia).
  eapply realises_at_bind_pub; [by eapply runs_lift_eq, (recons_fp sp_id)|apply (realises_at_open_fp _ _ _ _ _ Ht HBt)|].
  { eauto 6 with local. }
  intros c w3 _. apply realises_bind_lift. intros d _. apply realises_ret.
  unfold xor_public, l_xor_public. eauto with local.
Qed.

Lemma part_halve y b y' b' : part y y' → part b b' → part (halve y b) (λ me, l_halve (y' me) (b' me)).
Proof. intros Hy Hb. unfold halve, l_halve. eauto with local. Qed.
#[local] Hint Resolve part_halve : local.

(** ** [LTZ], [getFloor] and the operators *)

Lemma part_lifted s s' : part s s' → part (s_addc (s_mulc s (fp (2 ^ 16))) (fp (2 ^ 32)))
  (λ me, AtParty.l_addc me (mul (s' me) (fp (2 ^ 16))) (fp (2 ^ 32))).
Proof. eauto with local. Qed.

Lemma realises_at_ltz_step M B v0 w0 i zy zy' w :
  lsb_size ≤ B → B + 3000 * shift < wire → fair fuel w0 →
  LTZ_inv M B v0 w0 i zy w → pair part part zy zy' →
  realises_at w (pair part part) (ltz_step fuel zy i) (λ id me, l_ltz_step id me fuel (zy' me) i).
Proof.
  intros HB HBw Hf (Hl & zv & v & _ & Hy & _) [Pz Py]. destruct zy as [z y]. cbn [fst snd] in *. unfold ltz_step, l_ltz_step.
  eapply realises_at_bind.
  { apply (realises_at_getLSB B y (λ me, (zy' me).2) v); [done|done| |done|by eapply fair_later].
    clear -HB. unfold lsb_size, shift in HB. lia. }
  intros b b' w1 _ Pb. apply (realises_ret (pair part part) _
    (λ me, (add (zy' me).1 (mul (b' me) (fp (2 ^ Z.of_nat i))), l_halve (zy' me).2 (b' me)))).
  split; cbn [fst snd]; eauto with local.
Qed.

Lemma realises_at_LTZ M Bs s s' sv w :
  FShares Bs s sv → part s s' → 0 ≤ Bs → 2 ^ 17 * Bs < wire → Z.abs (lifted sv) ≤ M * shift → 0 ≤ M ≤ height 0 →
  fair fuel w → realises_at w part (LTZ fuel s) (λ id me, l_LTZ id me fuel (s' me)).
Proof.
  intros Hs Ps HBs HBw Hv HM Hf. unfold LTZ, l_LTZ.
  change (fp (2 ^ Z.of_nat m_bits)) with (fp (2 ^ 16)). change (fp (2 ^ Z.of_nat k_bits)) with (fp (2 ^ 32)).
  change (k_bits - 1)%nat with 31%nat.
  pose proof (lifted_fp Bs s sv Hs) as Hy. pose proof (part_lifted s s' Ps) as Py.
  destruct (lifted_bounds Bs _ HBs HBw eq_refl) as (HB0 & HlB & HBw').
  assert (Z.abs (lifted sv) ≤ height 0 * shift) as Hv0 by (unfold shift in *; clear -Hv HM; lia).
  set (B := Bs * 2 ^ 16 + 2 ^ 32 * shift) in *. set (y := s_addc _ _) in *. set (v0 := lifted sv) in *.
  eapply realises_at_bind_runs.
  { apply (turn_fp fuel few small M v0 0 B y v0 w); try done; lia. }
  { by apply (realises_at_getLSB B y _ v0). }
  intros z z' w1 (Hl1 & Hz & v1 & Hy1 & Hv1 & Ha1) Pz.
  eapply (realises_at_bind w1 (pair part part)).
  { apply (realises_at_mfold (pair part part) (LTZ_inv M B v0 w) (ltz_step fuel) (λ id me, l_ltz_step id me fuel) 1 31 _
      (λ me, (z' me, l_halve (AtParty.l_addc me (mul (s' me) (fp (2 ^ 16))) (fp (2 ^ 32))) (z' me)))).
    - split; [done|]. exists (Zsum z), v1. cbn [fst snd]. change (2 ^ Z.of_nat 1) with 2.
      split; [eapply FShares_weaken; [exact Hz|unfold lsb_size, shift; lia]|].
      split; [exact Hy1|]. split; [exact Ha1|]. clear -Hv1. lia.
    - split; cbn [fst snd]; [done|by apply part_halve].
    - intros i zy zy' w2 Hi HI Hp. split; [apply ltz_step_fp; done || lia|by eapply realises_at_ltz_step]. }
  intros [zl yl] zy' w2 _ [Pzl _]. cbn [fst snd] in Pzl.
  apply (realises_ret part _ (λ me, div (sub (zy' me).1 (mul (s' me) (fp (2 ^ 16)))) (fp (2 ^ 32)))). eauto with local.
Qed.

Lemma realises_at_less_than_zero Bs s s' sv w :
  FShares Bs s sv → part s s' → 0 ≤ Bs → 2 ^ 18 * Bs < wire → Z.abs sv ≤ (2 ^ 32 - 2 ^ 16) * shift → fair fuel w →
  realises_at w pub (less_than_zero fuel s) (λ id me, l_less_than_zero id me fuel (s' me)).
Proof.
  intros Hs Ps HBs HBw Hsv Hf. destruct (reach_ok sv Hsv) as (H1 & H2 & _). unfold less_than_zero, l_less_than_zero.
  assert (2 ^ 17 * Bs < wire) as HBw' by (clear -HBs HBw; lia).
  eapply realises_at_bind_runs; [by apply (LTZ_fp fuel few small (reach sv) Bs s sv w)|by eapply realises_at_LTZ|].
  intros x x' w1 (_ & _ & _ & _ & _ & Hx & _) Px.
  assert (2 ^ 17 * Bs + 2 ^ 50 * lsb_size < wire) as Hw by (unfold lsb_size, shift, wire in *; clear -HBs HBw; lia).
  eapply realises_at_bind_pub; [by eapply runs_lift_eq, (recons_fp sp_id)|by eapply realises_at_open_fp|].
  intros c w2 _. apply realises_lift, pub_const.
Qed.

Lemma realises_at_getFloor Bs s s' sv w :
  FShares Bs s sv → part s s' → 0 ≤ Bs → 2 ^ 17 * Bs < wire → Z.abs sv ≤ (2 ^ 16 - 1) * shift → fair fuel w →
  realises_at w part (getFloor fuel s) (λ id me, l_getFloor id me fuel (s' me)).
Proof.
  intros Hs Ps HBs HBw Hsv Hf. unfold getFloor, l_getFloor.
  change (fp (2 ^ Z.of_nat m_bits)) with (fp (2 ^ 16)). change (fp (2 ^ Z.of_nat k_bits)) with (fp (2 ^ 32)).
  pose proof (lifted_fp Bs s sv Hs) as Hy. pose proof (part_lifted s s' Ps) as Py.
  destruct (lifted_bounds Bs _ HBs HBw eq_refl) as (HB0 & HlB & HBw').
  assert (Z.abs (lifted sv) ≤ 2 ^ 33 * shift) as Hv0 by (unfold lifted, shift in *; clear -Hsv; lia).
  set (B := Bs * 2 ^ 16 + 2 ^ 32 * shift) in *. set (y := s_addc _ _) in *. set (v0 := lifted sv) in *.
  eapply (realises_at_bind w part).
  { apply (realises_at_mfold part (floor_inv B v0 w)
      (λ y (_ : nat), let* b := getLSBShare fuel y in ret (halve y b))
      (λ id me y (_ : nat), let& b := l_getLSBShare id me fuel y in AtParty.ret (l_halve y b)) 0 m_bits);
      [by apply floor_inv_0|exact Py|].
    intros i z z' w1 Hi HI Pz. change m_bits with 16%nat in Hi. split; [apply floor_turn_fp; done || lia|].
    destruct HI as (Hl & v & Hz & _).
    eapply realises_at_bind; [apply (realises_at_getLSB B z z' v); try done; by eapply fair_later|].
    intros b b' w2 _ Pb. apply (realises_ret part _ (λ me, l_halve (z' me) (b' me))). by apply part_halve. }
  intros z z' w2 _ Pz. apply (realises_ret part _ (λ me, l_subc me (z' me) (fp (2 ^ Z.of_nat (k_bits - m_bits))))).
  by apply part_subc.
Qed.
End Realised.

Section Networked.
Context `{DL : DecLaws} `{E : Env} `{V : !ValidEnv E} {T : Z} `{TL : !TripleLaws T E} `{CL : CppIntLaws}.
#[local] Existing Instance fp_value.
Import FixedPoint AtPartyFixed.

Lemma FShares_part B x v : FShares B x v → part x (λ me, own me x).
Proof. intros (Hf & _). by apply part_own. Qed.

(** The sign of a shared number, jointly and by the programs. *)
Lemma less_than_zero_networked fuel Bs s s' sv w :
  setting T fuel w → FShares Bs s sv → part s s' → 0 ≤ Bs → 2 ^ 18 * Bs < wire → Z.abs sv ≤ (2 ^ 32 - 2 ^ 16) * shift →
  ∃ ans w', less_than_zero fuel s w = Ok (ans, w') ∧ (-762 ≤ sv → ans = false) ∧ (sv ≤ -764 → ans = true)
    ∧ over_the_network w (λ id me, l_less_than_zero id me fuel (s' me)) (λ _, ans).
Proof.
  intros [H1 H2 H3] Hs Ps HB Hw Hsv.
  destruct (less_than_zero_fp fuel H1 H2 Bs s sv w Hs HB Hw Hsv H3) as (ans & w' & Hrun & _ & Hf & Ht).
  exists ans, w'. split_and!; [done|done|done|].
  destruct (realised_runs w pub _ _ ans w' (realises_at_less_than_zero fuel H1 H2 Bs s s' sv w Hs Ps HB Hw Hsv H3) Hrun)
    as (z' & Hz & Hn).
  eapply over_the_network_ext; [|exact Hn]. intros me Hme. by rewrite Hz.
Qed.
End Networked.

(** * Theorems *)

(** C10: the order of two shared fixed-point numbers, and of a shared and a public
    one, decided over the network.  [operator<] ends, never in [std::exit], and
    answers [left < right] unless [right] is the larger one by less than [2^-17]
    (762 units), which counts as equal; only at 763 units the answer depends on
    the random bits.  The programs of the parties, with the random bits, the
    masked openings and the 32 halvings of [LTZ], all end in that one answer, in
    every interleaving of their messages, and can always end. *)
Theorem less_than_over_the_network `{DL : DecLaws} {E : Env} {V : ValidEnv E} {T} {TL : TripleLaws T E}
    `{CL : CppIntLaws} fuel B x y v u w :
  setting T fuel w → FShares B x v → FShares B y u → 0 ≤ B → Z.abs u ≤ B → 2 ^ 19 * B < wire →
  Z.abs (v - u) ≤ (2 ^ 32 - 2 ^ 16) * FixedPoint.shift →
  (∃ ans w', lt_share fuel x y w = Ok (ans, w')
     ∧ (u ≤ v + 762 → ans = false) ∧ (v + 764 ≤ u → ans = true)
     ∧ over_the_network w (λ id me, AtPartyFixed.l_lt_share id me fuel
         (own (SVI := fp_value) me x) (own (SVI := fp_value) me y)) (λ _, ans))
  ∧ (∃ ans w', lt_fp fuel x u w = Ok (ans, w')
     ∧ (u ≤ v + 762 → ans = false) ∧ (v + 764 ≤ u → ans = true)
     ∧ over_the_network w (λ id me, AtPartyFixed.l_lt_fp id me fuel (own (SVI := fp_value) me x) u) (λ _, ans)).
Proof.
  intros Hset Hx Hy HB Hu Hw Hd.
  assert (∀ s s', FShares (B + B) s (v - u) → part (SVI := fp_value) s s' →
    ∃ ans w', less_than_zero fuel s w = Ok (ans, w') ∧ (u ≤ v + 762 → ans = false) ∧ (v + 764 ≤ u → ans = true)
      ∧ over_the_network w (λ id me, AtPartyFixed.l_less_than_zero id me fuel (s' me)) (λ _, ans)) as H.
  { intros s s' Hs Ps. destruct (less_than_zero_networked fuel (B + B) s s' (v - u) w Hset Hs Ps)
      as (ans & w' & Ha & Hf & Ht & Hn); [lia|lia|done|].
    exists ans, w'. split_and!; [done|intros; apply Hf; lia|intros; apply Ht; lia|done]. }
  pose proof (FShares_part B x v Hx) as Px. pose proof (FShares_part B y u Hy) as Py. split.
  - apply (H _ _ (FShares_sub _ _ _ _ _ _ Hx Hy) (part_sub _ _ _ _ Px Py)).
  - apply (H _ _ (FShares_subc _ _ _ _ _ Hx Hu) (part_subc _ _ _ Px)).
Qed.

Lemma less_than_over_the_network_witness :
  let x := [5 * FixedPoint.shift; - FixedPoint.shift; 7] in
  let y := [0; 3 * FixedPoint.shift; 5 * FixedPoint.shift] in
  let l id me := AtPartyFixed.l_lt_share (DF := rat_dec) (E := steady_env) (CI := nearest) (R := bool) id me 1
    (own (SVI := @fp_value rat_dec) me x) (own (SVI := @fp_value rat_dec) me y) in
  (∃ w', @lt_share rat_dec steady_env nearest 1 x y world0 = Ok (true, w'))
  ∧ ∃ s', rtc (step (EI := steady_env)) (Rounds.start (λ me, l job_address me (pos_at (E := steady_env) world0 0 me) (λ a _, Ret a)) (λ _, ∅)) s'
      ∧ ∀ me, me ∈ @parties steady_env → program (s' me) = Ret true.
Proof.
  intros x y l.
  destruct (@less_than_over_the_network rat_dec rat_laws steady_env _ 36 _ nearest nearest_laws 1
    (8 * FixedPoint.shift) x y (4 * FixedPoint.shift + 7) (8 * FixedPoint.shift) world0) as [(ans & w' & Hr & _ & Ht & Hn) _].
  - exact steady_setting.
  - demo_fshares.
  - demo_fshares.
  - vm_compute; discriminate.
  - vm_compute; discriminate.
  - vm_compute; reflexivity.
  - vm_compute; discriminate.
  - rewrite Ht in Hr, Hn by (vm_compute; discriminate). split; [by exists w'|exact (over_the_network_ends _ _ _ Hn)].
Defined.

(** C16: [getFloor] over the network rounds down: for a secret below [2^16 - 1] it
    yields shares of the greatest integer below it, up to [2507 * n + 3420] units,
    unless the secret is less than [2^-17] below the next integer, where that
    integer is returned; each party's program ends with its entry of these
    shares, in every interleaving, and all can always end. *)
Theorem floor_over_the_network `{DL : DecLaws} {E : Env} {V : ValidEnv E} {T} {TL : TripleLaws T E}
    `{CL : CppIntLaws} fuel B x v w :
  setting T fuel w → FShares B x v → 0 ≤ B → 2 ^ 18 * B < wire → Z.abs v ≤ (2 ^ 16 - 1) * FixedPoint.shift →
  let n := Z.of_nat n_parties in
  let shift := FixedPoint.shift in
  ∃ z w' r, getFloor fuel x w = Ok (z, w') ∧ (∀ me, recons_at (H := fp_value) me z = Ok r)
    ∧ (v mod shift ≤ shift - 764 → Z.abs (r - v / shift * shift) ≤ 2507 * n + 3420)
    ∧ (shift - 762 ≤ v mod shift → Z.abs (r - (v / shift + 1) * shift) ≤ 2507 * n + 3420)
    ∧ over_the_network w (λ id me, AtPartyFixed.l_getFloor id me fuel (own (SVI := fp_value) me x))
        (λ me, own (SVI := fp_value) me z).
Proof.
  intros [H1 H2 H3] Hx HB Hw Hv n shift.
  destruct (getFloor_fp fuel H1 H2 B x v w Hx HB ltac:(lia) Hv H3) as (z & w' & Hz & _ & Hs & He1 & He2).
  exists z, w', (Zsum z). split_and!; [done| |done|done|].
  - intros me. eapply recons_fp; [exact Hs|]. unfold FixedPoint.shift, wire in *. clear -HB Hw. lia.
  - destruct (realised_runs w (part (SVI := fp_value)) _ _ z w' (realises_at_getFloor fuel H1 H2 B x _ v w Hx
      (FShares_part B x v Hx) HB ltac:(lia) Hv H3) Hz) as (z' & (_ & Hz') & Hn).
    by eapply over_the_network_ext; [|exact Hn]; intros me Hme; rewrite Hz'.
Qed.

Lemma floor_over_the_network_witness :
  let x := [5 * FixedPoint.shift; - FixedPoint.shift; 7] in
  let l id me := AtPartyFixed.l_getFloor (DF := rat_dec) (E := steady_env) (CI := nearest) (R := Z) id me 1 (own (SVI := @fp_value rat_dec) me x) in
  ∃ z w' r, @getFloor rat_dec steady_env nearest 1 x world0 = Ok (z, w')
    ∧ (∀ me, @recons_at (@fp_value rat_dec) steady_env me z = Ok r) ∧ Z.abs (r - 4 * FixedPoint.shift) ≤ 10941
    ∧ ∃ s', rtc (step (EI := steady_env)) (Rounds.start (λ me, l job_address me (pos_at (E := steady_env) world0 0 me) (λ a _, Ret a)) (λ _, ∅)) s'
      ∧ ∀ me, me ∈ @parties steady_env → program (s' me) = Ret (own (SVI := @fp_value rat_dec) me z).
Proof.
  intros x l.
  destruct (@floor_over_the_network rat_dec rat_laws steady_env _ 36 _ nearest nearest_laws 1
    (8 * FixedPoint.shift) x (4 * FixedPoint.shift + 7) world0) as (z & w' & r & Hr & Hz & Hd & _ & Hn).
  - exact steady_setting.
  - demo_fshares.
  - vm_compute; discriminate.
  - vm_compute; reflexivity.
  - vm_compute; discriminate.
  - exists z, w', r. split; [exact Hr|]. split; [exact Hz|]. split; [|exact (over_the_network_ends _ _ _ Hn)].
    apply Hd. vm_compute. discriminate.
Defined.
