(* ===== verification/FixedWhole.v ===== *)
(** * Shares of whole fixed-point numbers

    The triples are whole numbers, so a product of whole numbers loses nothing,
    and the size of its local values depends on the secrets only, not on the
    local values it was computed from.  Bit vectors and everything the decision
    trees count are of this kind: [WShares B x k] reads "local values of size
    [B] that share the whole number [k]". *)
From stdpp Require Import base list numbers sets strings.
From Stdlib Require Import ZArith Lia.
From S2P Require Import Prelude FixedPoint Random TripleHandler Share SharePF ShareFP Double FixedCompare.
From S2P Require Import FixedCompareCorrect.
#[local] Open Scope Z_scope.
#[local] Open Scope qmpc_scope.
#[local] Abbreviation n := (Z.of_nat n_parties).

Create HintDb whole discriminated.

Section Whole.
Context `{DL : DecLaws} `{E : Env} `{V : !ValidEnv E} {T : Z} `{TL : !TripleLaws T E}.
#[local] Existing Instance fp_value.
Import FixedPoint FixedCompare.

Definition WShares (B : Z) (x : sharing) (k : Z) : Prop := FShares B x (k * shift).

Lemma WShares_weaken B B' x k : WShares B x k → B ≤ B' → WShares B' x k.
Proof. apply FShares_weaken. Qed.

Lemma WShares_eq B x k k' : WShares B x k → k = k' → WShares B x k'.
Proof. by intros H ->. Qed.

Lemma WShares_zero : WShares 0 s_zero 0.
Proof. apply FShares_zero. Qed.

Lemma WShares_add B C x y k l : WShares B x k → WShares C y l → WShares (B + C) (s_add x y) (k + l).
Proof.
  intros Hx Hy. unfold WShares. replace ((k + l) * shift) with (k * shift + l * shift) by ring.
  by apply FShares_add.
Qed.

Lemma WShares_addc B x k c : WShares B x k → WShares (B + Z.abs c * shift) (s_addc x (fp c)) (k + c).
Proof.
  intros Hx. unfold WShares. replace ((k + c) * shift) with (k * shift + fp c) by (unfold fp; ring).
  apply FShares_addc; [done|]. unfold fp. rewrite Z.abs_mul. unfold shift. lia.
Qed.

Lemma WShares_mulc B x k c : WShares B x k → WShares (B * Z.abs c) (s_mulc x (fp c)) (k * c).
Proof.
  intros Hx. unfold WShares. replace (k * c * shift) with (k * shift * c) by ring.
  by apply s_mulc_fp_whole.
Qed.

Lemma WShares_const c : WShares (Z.abs c * shift) (getConstantShare (fp c)) c.
Proof. eapply WShares_weaken; [apply (WShares_addc 0 s_zero 0 c WShares_zero)|lia]. Qed.

Lemma WShares_sum B v ks :
  Forall2 (WShares B) v ks → WShares (Z.of_nat (length v) * B) (Math.sum v) (Zsum ks).
Proof.
  intros Hv. unfold WShares, Math.sum.
  assert (Forall2 (FShares B) v (map (λ k, shift * id k) ks)) as Hv'.
  { apply Forall2_fmap_r. eapply Forall2_impl; [exact Hv|]. intros x k Hx. unfold compose, id.
    rewrite Z.mul_comm. exact Hx. }
  pose proof (FShares_sum _ _ _ _ _ _ Hv' FShares_zero) as H.
  rewrite Zsum_map_mul, map_id in H. replace (Zsum ks * shift) with (0 + shift * Zsum ks) by ring.
  eapply FShares_weaken; [exact H|lia].
Qed.

Lemma recons_whole me B x k : WShares B x k → B < wire → recons_at me x = Ok (k * shift).
Proof. apply recons_fp. Qed.

(** The size of the local values of a product of secrets up to [K]. *)
Definition whole_size (K : Z) : Z := (T + 2 * (T * (K + n * T)) + (K + n * T) * (K + n * T)) * shift.

Lemma beaver_whole t x y k l B K :
  good_triple (T := T) t → WShares B x k → WShares B y l → Z.abs k ≤ K → Z.abs l ≤ K →
  WShares (whole_size K) (beaver t (k * shift - Zsum t.1.1, l * shift - Zsum t.1.2)) (k * l).
Proof.
  intros Ht Hx Hy Hk Hl.
  destruct (beaver_fp t x y _ _ B Ht Hx Hy) as [Hz Ha]. apply approx_whole in Ha.
  destruct Ht as (al & bl & cl & -> & Hal & Hbl & Hcl & Habc). cbn [fst snd] in *.
  pose proof (FShares_abs _ _ _ Hal) as Ha1. pose proof (FShares_abs _ _ _ Hbl) as Hb1.
  rewrite (proj2 (proj2 (FShares_whole _ _ Hal))), (proj2 (proj2 (FShares_whole _ _ Hbl))) in *.
  set (a := Zsum al) in *. set (b := Zsum bl) in *.
  replace (k * shift - a * shift) with ((k - a) * shift) in * by ring.
  replace (l * shift - b * shift) with ((l - b) * shift) in * by ring.
  assert (∀ d, Z.abs d ≤ K + n * T → Z.abs (d * shift) ≤ (K + n * T) * shift) as Hd
    by (intros d Hd; rewrite Z.abs_mul; unfold shift; lia).
  assert (Z.abs (k - a) ≤ K + n * T) as Hka by lia. assert (Z.abs (l - b) ≤ K + n * T) as Hlb by lia.
  pose proof T_nonneg (T := T) as HT. pose proof shift_pos as Hs.
  assert (∀ ul u d, FShares T ul u → Z.abs d ≤ K + n * T →
    FShares (T * ((K + n * T) * shift)) (map (λ v, v * (d * shift)) ul) (u * (d * shift))) as Hsc.
  { intros ul u d Hu Hd'. eapply FShares_weaken; [exact (FShares_scale ul u (d * shift) Hu)|].
    specialize (Hd d Hd'). by apply Z.mul_le_mono_nonneg_l. }
  unfold beaver in *. rewrite !s_mulc_whole in *. change (sv_mul ?d ?e) with (mul d e) in *.
  rewrite mul_exact in *.
  assert (Z.abs ((k - a) * shift * (l - b)) ≤ (K + n * T) * (K + n * T) * shift) as Hde.
  { rewrite !Z.abs_mul, (Z.abs_eq shift) by lia.
    assert (Z.abs (k - a) * Z.abs (l - b) ≤ (K + n * T) * (K + n * T)) by (apply Z.mul_le_mono_nonneg; lia).
    nia. }
  pose proof (FShares_addc _ _ _ _ _
    (FShares_add _ _ _ _ _ _ (FShares_add _ _ _ _ _ _ (FShares_whole _ _ Hcl) (Hsc _ _ _ Hbl Hka))
       (Hsc _ _ _ Hal Hlb)) Hde) as (H1 & H2 & _).
  split_and!; [exact H1| |exact Ha]. eapply Forall_impl; [exact H2|]. cbv beta. intros v Hv.
  unfold whole_size. lia.
Qed.

Lemma s_mul_whole x y k l B K w :
  WShares B x k → WShares B y l → Z.abs k ≤ K → Z.abs l ≤ K → 0 ≤ B → B + T * shift < wire →
  runs (s_mul x y) w (λ z _, WShares (whole_size K) z (k * l)).
Proof.
  intros Hx Hy Hk Hl HB Hw. unfold s_mul. eapply runs_bind; [apply getTriple_fp|].
  intros ts w1 (Hts & Hlt & Hw1). destruct ts as [|t [|]]; try discriminate Hlt.
  apply Forall_cons in Hts as [Ht _].
  destruct (masked x _ t B Ht Hx) as [[Hd _] _]. destruct (masked y _ t B Ht Hy) as [[_ He] _].
  pose proof (beaver_whole t x y k l B K Ht Hx Hy Hk Hl) as Hz.
  destruct t as [[a b] c]. cbn [fst snd] in *.
  eapply runs_bind.
  { eapply runs_lift_eq, (recons_vec_fp sp_id (B + T * shift)); [|exact Hw].
    constructor; [exact Hd|constructor; [exact He|constructor]]. }
  intros de w2 [-> ->]. apply runs_ret. exact Hz.
Qed.

Lemma WShares_FShares B xs ks : Forall2 (WShares B) xs ks → Forall2 (FShares B) xs (map (λ k, k * shift) ks).
Proof. intros H. apply Forall2_fmap_r. exact H. Qed.

Lemma v_mul_whole xs ys ks ls B K w :
  Forall2 (WShares B) xs ks → Forall2 (WShares B) ys ls → length xs = length ys →
  Forall (λ k, Z.abs k ≤ K) ks → Forall (λ l, Z.abs l ≤ K) ls → 0 ≤ B → B + T * shift < wire →
  runs (v_mul xs ys) w (λ zs _, Forall2 (WShares (whole_size K)) zs (zip_with Z.mul ks ls)).
Proof.
  intros Hx Hy Hl Hks Hls HB Hw. unfold v_mul. rewrite (proj2 (Nat.eqb_eq _ _) Hl). cbn [negb].
  eapply runs_bind; [apply getTriple_fp|]. intros ts w1 (Hts & Hlt & _).
  destruct (masks_fp xs _ ts B Hts Hlt (WShares_FShares _ _ _ Hx)) as [Hd _].
  destruct (masks_fp ys _ ts B Hts ltac:(lia) (WShares_FShares _ _ _ Hy)) as [_ He].
  eapply runs_bind.
  { eapply runs_lift_eq, (recons_vec_fp sp_id (B + T * shift)); [|exact Hw].
    apply Forall2_app; [exact Hd|exact He]. }
  intros de w2 [-> ->]. apply runs_ret.
  pose proof (Forall2_length _ _ _ Hx) as Hlx.
  rewrite take_app_length', drop_app_length' by (rewrite length_zip_with, length_map; lia).
  clear Hd He Hlx. revert ts ys ls Hts Hlt Hl Hks Hls Hy.
  induction Hx as [|x k xs ks Hx _ IH]; intros [|t ts] ys ls Hts Hlt Hl Hks Hls Hy;
    destruct Hy as [|y l ys ls Hy Hys]; try discriminate Hl; try discriminate Hlt; [constructor|].
  apply Forall_cons in Hts as [Ht Hts]. apply Forall_cons in Hks as [Hk Hks]. apply Forall_cons in Hls as [Hl' Hls].
  cbn [zip_with zip map]. constructor.
  - by apply (beaver_whole t x y k l B K).
  - apply (IH ts ys ls); auto.
Qed.

(** Opening a vector. *)
Lemma recons_vec_whole me B xs ks :
  Forall2 (WShares B) xs ks → B < wire → recons_vec_at me xs = Ok (map (λ k, k * shift) ks).
Proof. intros Hx HB. eapply recons_vec_fp; [|exact HB]. apply Forall2_fmap_r. exact Hx. Qed.

Lemma open_whole B x k w : WShares B x k → B < wire →
  runs (open_recons x) w (λ v w', v = k * shift ∧ w' = w).
Proof. intros Hx HB. apply runs_lift_eq. by eapply recons_whole. Qed.
End Whole.
