(* ===== verification/FixedInverse.v ===== *)
(** * Inverses and quotients of fixed-point shares  (Share/Share.hpp)

    [getInv] blinds its operand with a sum of draws, inverts the opened product
    with eight decimal places and multiplies by the draws again: the rounding
    of the opened inverse is scaled by the draws, so the inverse has an
    absolute error of up to [999] units per party, whatever its size. *)
From stdpp Require Import base list numbers sets strings.
From Stdlib Require Import ZArith Lia.
From S2P Require Import Prelude FixedPoint Random TripleHandler Share SharePF ShareFP Double FixedCompare.
From S2P Require Import FixedCompareCorrect.
#[local] Open Scope Z_scope.
#[local] Open Scope qmpc_scope.
#[local] Abbreviation n := (Z.of_nat n_parties).

Section Inverse.
Context `{DL : DecLaws} `{E : Env} `{V : !ValidEnv E} {T : Z} `{TL : !TripleLaws T E}.
#[local] Existing Instance fp_value.
Import FixedPoint.

Lemma getRand_sp_fp mn mx (w : World) :
  mn < mx → - 2 ^ 30 ≤ mn → mx < 2 ^ 30 →
  runs (getRand_sp mn mx) w (λ x _, ∃ k, x = k * shift ∧ mn ≤ k < mx).
Proof.
  intros H1 H2 H3. eexists _, _. unfold getRand_sp. split.
  - change (sv_rand ?a mn mx) with (RandGenerator.getRand_fp a mn mx).
    unfold RandGenerator.getRand_fp.
    rewrite (proj1 (RandomFacts.getRand_ll_ok _ mn mx H1 ltac:(lia) ltac:(lia) ltac:(lia))), rbind_ok.
    unfold of_integral. rewrite RandomFacts.int64_ok, rbind_ok; [reflexivity|].
    pose proof (Z.mod_pos_bound (entropy sp_id (draw_pos w sp_id)) (mx - mn) ltac:(lia)).
    unfold shift. lia.
  - eexists. split; [reflexivity|].
    pose proof (Z.mod_pos_bound (entropy sp_id (draw_pos w sp_id)) (mx - mn) ltac:(lia)). lia.
Qed.

Lemma fold_left_add rs acc : fold_left sv_add rs acc = acc + Zsum rs.
Proof.
  revert acc; induction rs as [|r rs IH]; intros acc; cbn [fold_left].
  - rewrite Zsum_nil. lia.
  - rewrite IH, Zsum_cons. change (sv_add acc r) with (acc + r). lia.
Qed.

(** [sharize] shares the very number. *)
Lemma sharize_fp secret w :
  runs (sharize secret) w (λ x _, FShares (Z.abs secret + 1000 * shift * n) x secret).
Proof.
  unfold sharize. eapply runs_bind.
  { apply (runs_mmap _ _ (λ _ r, ∃ k, r = k * shift ∧ 1 ≤ k < 1000) (λ _ _, True) 0 w I).
    intros i j w1 _ _. eapply runs_mono; [by apply getRand_sp_fp|]. by intros. }
  intros rs w1 [Hrs _]. pose proof (Forall2_length _ _ _ Hrs) as Hlen. rewrite others_length in Hlen.
  assert (Forall (λ r, Z.abs r ≤ 1000 * shift) rs) as Hb.
  { apply Forall_forall. intros r (i & Hi)%list_elem_of_lookup.
    destruct (Forall2_lookup_r _ _ _ _ _ Hrs Hi) as (_ & _ & k & -> & Hk). unfold shift. lia. }
  eapply runs_bind.
  { apply (runs_lift_eq _ rs). rewrite (traverse_map _ (λ x, x)), map_id; [done|]. intros r Hr.
    apply dec_wire. rewrite Forall_forall in Hb. specialize (Hb r Hr). cbn in Hb. unfold shift, wire in *. lia. }
  intros rs' w2 [-> ->]. apply runs_ret. pose proof sp_valid as Hsp. rewrite fold_left_add.
  change sv_zero with 0. rewrite Z.add_0_l. change (sv_sub secret (Zsum rs)) with (secret - Zsum rs).
  pose proof (Zsum_abs _ _ Hb) as Hsum.
  assert (Z.abs (Zsum rs) ≤ 1000 * shift * (n - 1)) as Hsum'.
  { eapply Z.le_trans; [exact Hsum|]. rewrite <- Hlen. unfold shift. lia. }
  split_and!.
  - rewrite length_app, length_take. cbn [length]. rewrite length_drop. lia.
  - apply Forall_app. assert (Forall (λ a, Z.abs a ≤ Z.abs secret + 1000 * shift * n) rs) as Hb'.
    { eapply Forall_impl; [exact Hb|]. cbn. unfold shift. intros a Ha. lia. }
    split; [by apply Forall_take|]. constructor; [unfold shift in *; lia|by apply Forall_drop].
  - rewrite Zsum_app, Zsum_cons.
    assert (Zsum rs = Zsum (take (sp_id - 1) rs) + Zsum (drop (sp_id - 1) rs)) as Ht
      by (rewrite <- Zsum_app; by rewrite take_drop).
    lia.
Qed.

(** The sizes an inversion works with, for operands of at least [L] units. *)
Definition inv_operand (B : Z) : Z := Z.max B (1000 * shift).
Definition inv_size (L : Z) : Z := shift * shift / L + 1 + 1000 * shift * n.
Definition invertible (L B : Z) : Prop :=
  opened T (inv_operand B) < wire ∧ n * mul_bound T (inv_operand B) < wire
  ∧ opened T (inv_size L) < wire.

Lemma inv_size_ge L : 0 < L → 1000 * shift ≤ inv_size L.
Proof.
  intros HL. assert (0 ≤ shift * shift / L) as HL0 by (apply Z.div_pos; [unfold shift|]; lia).
  pose proof sp_valid. unfold inv_size, shift in *. lia.
Qed.

(** What [z] has to be to stand for [1 / v]. *)
Definition inverse_of (v z : Z) : Prop := Z.abs (z * v - shift * shift) ≤ 999 * n * Z.abs v.

Lemma mul_bound_nonneg B : 0 ≤ B → 0 ≤ mul_bound T B.
Proof.
  intros HB. unfold mul_bound, opened. pose proof T_nonneg (T := T). pose proof shift_pos.
  assert (0 ≤ n * (B + T * shift)) by nia.
  assert (0 ≤ n * (B + T * shift) * (n * (B + T * shift)) / shift) by (apply Z.div_pos; nia). nia.
Qed.

(** The blinded value [u] of a secret [v], the inverse of what it opens to, and
    the sizes of both. *)
Lemma blinded_bounds L B v R u :
  0 < L ≤ Z.abs v → 0 ≤ B → invertible L B → 1 ≤ R ≤ 999 * n → product (T := T) (inv_operand B) v (R * shift) u →
  let i := getInv (Zsum u) in
  FShares (mul_bound T (inv_operand B)) u (Zsum u) ∧ mul_bound T (inv_operand B) < wire ∧ Zsum u = v * R
  ∧ Z.abs (i * Zsum u - shift * shift) ≤ Z.abs (Zsum u) ∧ Z.abs i ≤ shift * shift / L + 1.
Proof.
  intros Hv HB (_ & H2 & _) HR [Hu Hua] i. apply approx_whole_r in Hua.
  assert (0 ≤ mul_bound T (inv_operand B)) as Hm0 by (apply mul_bound_nonneg; unfold inv_operand; lia).
  pose proof (FShares_abs _ _ _ Hu) as Hub. pose proof sp_valid as Hsp.
  assert (Z.abs (i * Zsum u - shift * shift) ≤ Z.abs (Zsum u)) as Hi.
  { apply (dec_div shift (Zsum u)); [done|]. rewrite Hua in *. nia. }
  split_and!; [done|nia|done|done|]. clearbody i. rewrite Hua in *. assert (L ≤ Z.abs (v * R)) as Hp by nia.
  assert (0 ≤ shift * shift / L) as HL0 by (apply Z.div_pos; [unfold shift|]; lia).
  assert (Z.abs i * Z.abs (v * R) ≤ shift * shift + Z.abs (v * R)) as Hp2
    by (rewrite <- Z.abs_mul; unfold shift in *; lia).
  assert (Z.abs i - 1 ≤ shift * shift / L); [|lia]. apply Z.div_le_lower_bound; [lia|]. nia.
Qed.

(** The blinding number. *)
Lemma blinder w : let rl := draws 1 1000 w in
  1 ≤ Zsum rl ≤ 999 * n ∧ ∀ C, 1000 * shift ≤ C → FShares C (whole rl) (Zsum rl * shift).
Proof.
  intros rl. assert (FShares 999 rl (Zsum rl)) as Hrl by (by apply draws_FShares). split.
  - split; [by apply draws_pos|]. pose proof (FShares_abs _ _ _ Hrl). lia.
  - intros C HC. eapply FShares_weaken; [apply (FShares_scale rl _ shift Hrl)|]. unfold shift in *. lia.
Qed.

(** What the special party computes in the clear. *)
Lemma inverted_runs L B v R u w :
  0 < L ≤ Z.abs v → 0 ≤ B → invertible L B → 1 ≤ R ≤ 999 * n → product (T := T) (inv_operand B) v (R * shift) u →
  runs (bind (lift (recons_at sp_id u)) (λ c, lift (sv_inv c))) w (λ i w', i = getInv (Zsum u) ∧ w' = w).
Proof.
  intros Hv HB Hinv HR Hu. destruct (blinded_bounds L B v R u Hv HB Hinv HR Hu) as (Hf & Hw & _).
  eapply runs_bind; [by eapply runs_lift_eq, (recons_fp sp_id)|]. intros ? ? [-> ->]. by apply runs_lift_eq.
Qed.

Lemma getInv_fp L B s v w :
  FShares B s v → 0 < L ≤ Z.abs v → 0 ≤ B → invertible L B →
  runs (s_getInv s) w (λ z _, FShares (mul_bound T (inv_size L)) z (Zsum z) ∧ inverse_of v (Zsum z)).
Proof.
  intros Hs Hv HB Hinv. pose proof Hinv as (H1 & H2 & H3). unfold s_getInv.
  eapply runs_bind; [by apply getRand_fp_runs|]. intros r w1 [-> _].
  set (rl := draws 1 1000 w). destruct (blinder w) as [HR Hr]. fold rl in HR, Hr. set (R := Zsum rl) in *.
  assert (FShares (inv_operand B) s v) as Hs' by (eapply FShares_weaken; [exact Hs|unfold inv_operand; lia]).
  eapply runs_bind; [apply (s_mul_fp _ _ _ _ _ _ Hs' (Hr (inv_operand B) ltac:(unfold inv_operand; lia)) H1)|].
  intros u w2 [Hu _]. destruct (blinded_bounds L B v R u Hv HB Hinv HR Hu) as (Huf & Huw & Hua & Hi & Hi1).
  eapply runs_bind; [by eapply runs_lift_eq, (recons_fp sp_id)|]. intros ? ? [-> ->].
  set (i := getInv (Zsum u)) in *.
  eapply runs_bind; [by apply (runs_lift_eq _ i)|]. intros ? ? [-> ->].
  eapply runs_bind; [apply sharize_fp|]. intros x w4 Hx.
  assert (FShares (inv_size L) x i) as Hx' by (eapply FShares_weaken; [exact Hx|unfold inv_size; lia]).
  eapply runs_mono; [apply (s_mul_fp _ _ _ _ _ _ Hx' (Hr (inv_size L) (inv_size_ge L ltac:(lia))) H3)|].
  cbv beta. intros z w5 [[Hz Hza] _]. split; [exact Hz|]. apply approx_whole_r in Hza.
  unfold inverse_of. rewrite Hza. rewrite Hua in Hi.
  replace (i * R * v - shift * shift) with (i * (v * R) - shift * shift) by ring.
  eapply Z.le_trans; [exact Hi|]. rewrite Z.abs_mul, (Z.abs_eq R) by lia. nia.
Qed.

(** A quotient: the error of the inverse is scaled by the dividend. *)
Definition quotient_of (v u q : Z) : Prop :=
  shift * Z.abs (q * u - v * shift) ≤ Z.abs u * (shift + 999 * n * Z.abs v).

Lemma quotient_of_inverse v u i q : inverse_of u i → approx v i q → quotient_of v u q.
Proof.
  unfold inverse_of, approx, quotient_of. pose proof shift_pos as Hs. intros Hi Hq.
  rewrite <- (Z.abs_eq shift) at 1 by lia. rewrite <- Z.abs_mul.
  replace (shift * (q * u - v * shift))
    with ((shift * q - v * i) * u + v * (i * u - shift * shift)) by ring.
  assert (Z.abs ((shift * q - v * i) * u) ≤ shift * Z.abs u) by (rewrite Z.abs_mul; nia).
  assert (Z.abs (v * (i * u - shift * shift)) ≤ Z.abs v * (999 * n * Z.abs u)) by (rewrite Z.abs_mul; nia).
  lia.
Qed.

Definition quot_size (L B : Z) : Z := Z.max B (mul_bound T (inv_size L)).

Lemma s_div_fp L B x y v u w :
  FShares B x v → FShares B y u → 0 < L ≤ Z.abs u → 0 ≤ B → invertible L B →
  opened T (quot_size L B) < wire →
  runs (s_div x y) w (λ q _, FShares (mul_bound T (quot_size L B)) q (Zsum q) ∧ quotient_of v u (Zsum q)).
Proof.
  intros Hx Hy Hu HB Hinv Ho. unfold s_div.
  eapply runs_bind; [by apply (getInv_fp L B y u)|]. intros i w1 [Hi Hii].
  eapply runs_mono.
  { apply (s_mul_fp x i v (Zsum i) (quot_size L B)); [| |exact Ho].
    - eapply FShares_weaken; [exact Hx|unfold quot_size; lia].
    - eapply FShares_weaken; [exact Hi|unfold quot_size; lia]. }
  cbv beta. intros q w2 [[Hq Hqa] _]. split; [exact Hq|]. by eapply quotient_of_inverse.
Qed.
End Inverse.

(** * Theorems *)

Import FixedPoint.

(** The inverse of a fixed-point share whose secret [v] is not zero (at
    least [L] units) opens to
    a number [z] within [999] units per party of [1 / v] (in units:
    [|z * v - shift^2| <= 999 * n * |v|]), and a quotient [v / u] to a number
    within [1 + 999 * n * |v|] units of it, [|v|] being the dividend as a
    number: the error does not depend on the size of the result. *)
Theorem share_quotient_error `{DL : DecLaws} {E : Env} {V : ValidEnv E} {T} {TL : TripleLaws T E}
    L B x y v u w :
  FShares B x v → FShares B y u → 0 < L ≤ Z.abs u → 0 ≤ B → invertible (T := T) L B →
  opened T (quot_size (T := T) L B) < wire → mul_bound T (quot_size (T := T) L B) < wire →
  (∃ z w' r, @s_getInv fp_value E y w = Ok (z, w') ∧ (∀ me, @recons_at fp_value E me z = Ok r)
     ∧ Z.abs (r * u - shift * shift) ≤ 999 * n * Z.abs u)
  ∧ (∃ q w' r, @s_div fp_value E x y w = Ok (q, w') ∧ (∀ me, @recons_at fp_value E me q = Ok r)
     ∧ shift * Z.abs (r * u - v * shift) ≤ Z.abs u * (shift + 999 * n * Z.abs v)).
Proof.
  intros Hx Hy Hu HB Hinv Ho Hm. pose proof (mul_bound_nonneg (T := T)) as Hmb.
  assert (0 ≤ inv_size L) as Hi0.
  { unfold inv_size. pose proof (Z.div_pos (shift * shift) L). unfold shift in *. lia. } split.
  - destruct (getInv_fp L B y u w Hy Hu HB Hinv) as (z & w' & Hz & Hs & Hi).
    exists z, w', (Zsum z). split; [done|]. split; [|exact Hi]. intros me. eapply recons_fp; [exact Hs|].
    unfold quot_size in Ho, Hm. unfold opened in Ho.
    pose proof sp_valid. pose proof (T_nonneg (T := T)). pose proof shift_pos. specialize (Hmb _ Hi0). nia.
  - destruct (s_div_fp L B x y v u w Hx Hy Hu HB Hinv Ho) as (q & w' & Hq & Hs & Hqe).
    exists q, w', (Zsum q). split; [done|]. split; [|exact Hqe]. intros me. by eapply recons_fp.
Qed.

Lemma share_quotient_error_witness :
  let x := [shift; 0; 2 * shift] in
  let y := [shift; shift; 0] in
  let v := 3 * shift in
  let u := 2 * shift in
  let n := Z.of_nat (@n_parties demo_env) in
  (∃ z w' r, @s_getInv (@fp_value rat_dec) demo_env y world0 = Ok (z, w')
     ∧ (∀ me, @recons_at (@fp_value rat_dec) demo_env me z = Ok r)
     ∧ Z.abs (r * u - shift * shift) ≤ 999 * n * Z.abs u)
  ∧ (∃ q w' r, @s_div (@fp_value rat_dec) demo_env x y world0 = Ok (q, w')
     ∧ (∀ me, @recons_at (@fp_value rat_dec) demo_env me q = Ok r)
     ∧ shift * Z.abs (r * u - v * shift) ≤ Z.abs u * (shift + 999 * n * Z.abs v)).
Proof.
  intros x y v u n.
  refine (@share_quotient_error rat_dec rat_laws demo_env _ 36 _ shift (2 * shift) x y v u world0 _ _ _ _ _ _ _).
  - demo_fshares.
  - demo_fshares.
  - split; vm_compute; (reflexivity || discriminate).
  - vm_compute; discriminate.
  - split_and!; vm_compute; reflexivity.
  - vm_compute; reflexivity.
  - vm_compute; reflexivity.
Defined.

(** The inverse of 100000, [1000] units, is lost when three parties draw 502:
    it opens to 0. *)
Lemma inverse_underflows :
  match @s_getInv (@fp_value rat_dec) steady_env [100000 * shift; 0; 0] world0 with
  | Ok (z, _) => Zsum z = 0
  | Throw _ => False
  end.
Proof. vm_compute. reflexivity. Qed.
