(* ===== verification/Sized.v ===== *)
(** * Products sized by their secrets

    [mul_bound] of [ShareFP.v] estimates the local values of a product from the
    local values of its operands, so a chain of products soon looks too large
    for the wire.  What a product leaves behind depends only on the opened
    differences, that is on the secrets and the masks: [Sized B V x v] reads
    "local values of size [B] that share [v], which is at most [K]", and a
    product of such shares has local values of size [prod_size K]. *)
From stdpp Require Import base list numbers sets strings.
From Stdlib Require Import ZArith Lia.
From S2P Require Import Prelude FixedPoint Random TripleHandler Share SharePF ShareFP Double FixedCompare.
From S2P Require Import FixedCompareCorrect FixedWhole FixedInverse.
#[local] Open Scope Z_scope.
#[local] Open Scope qmpc_scope.
#[local] Abbreviation n := (Z.of_nat n_parties).

Section Sized.
Context `{DL : DecLaws} `{E : Env} `{V : !ValidEnv E} {T : Z} `{TL : !TripleLaws T E}.
#[local] Existing Instance fp_value.
Import FixedPoint.

Definition Sized (B K : Z) (x : sharing) (v : Z) : Prop := FShares B x v ∧ Z.abs v ≤ K.

Lemma Sized_weaken B B' K K' x v : Sized B K x v → B ≤ B' → K ≤ K' → Sized B' K' x v.
Proof. intros [Hx Hv] HB HV. split; [by eapply FShares_weaken|lia]. Qed.

(** The opened difference to a mask, and the local values of the product. *)
Definition gap (K : Z) : Z := K + n * (T * shift).
Definition prod_size (K : Z) : Z := T * shift + 2 * (T * gap K) + gap K * gap K / shift.

Lemma gap_abs v t K : good_triple (T := T) t → Z.abs v ≤ K →
  Z.abs (v - Zsum t.1.1) ≤ gap K ∧ Z.abs (v - Zsum t.1.2) ≤ gap K.
Proof.
  intros (al & bl & cl & -> & Ha & Hb & _) Hv. cbn [fst snd]. unfold gap.
  pose proof (FShares_abs _ _ _ (FShares_whole _ _ Ha)) as H1. pose proof (FShares_abs _ _ _ (FShares_whole _ _ Hb)) as H2.
  rewrite <- (proj2 (proj2 (FShares_whole _ _ Ha))) in H1. rewrite <- (proj2 (proj2 (FShares_whole _ _ Hb))) in H2. lia.
Qed.

Lemma gap_nonneg K : 0 ≤ K → 0 ≤ gap K.
Proof. intros HK. unfold gap. pose proof (T_nonneg (T := T)). pose proof shift_pos. nia. Qed.

Lemma beaver_sized t x y v u B K :
  good_triple (T := T) t → FShares B x v → FShares B y u → Z.abs v ≤ K → Z.abs u ≤ K →
  let z := beaver t (v - Zsum t.1.1, u - Zsum t.1.2) in
  FShares (prod_size K) z (Zsum z) ∧ approx v u (Zsum z).
Proof.
  intros Ht Hx Hy Hv Hu z. split; [|by apply (beaver_fp (T := T) t x y v u B)].
  destruct (gap_abs v t K Ht Hv) as [Hd _]. destruct (gap_abs u t K Ht Hu) as [_ He].
  destruct Ht as (al & bl & cl & -> & Ha & Hb & Hc & Habc). cbn [fst snd] in *.
  set (d := v - Zsum (whole al)) in *. set (e := u - Zsum (whole bl)) in *.
  assert (FShares (prod_size K) z (Zsum cl * shift + Zsum bl * d + Zsum al * e + mul d e)) as Hz.
  { unfold z, beaver. rewrite !s_mulc_whole. change (sv_mul d e) with (mul d e).
    eapply FShares_weaken.
    - apply FShares_addc; [|by apply (quot_bound d e (gap K))].
      apply FShares_add; [apply FShares_add|]; [by apply (FShares_whole (T := T))|by apply (FShares_scale (T := T))
                                               |by apply (FShares_scale (T := T))].
    - unfold prod_size. pose proof (T_nonneg (T := T)). nia. }
  assert (Zsum z = Zsum cl * shift + Zsum bl * d + Zsum al * e + mul d e) as Hs by apply Hz.
  by rewrite Hs.
Qed.

(** The product [z] of two secrets up to [K]. *)
Definition product_of (K v u : Z) (z : sharing) : Prop := FShares (prod_size K) z (Zsum z) ∧ approx v u (Zsum z).

Lemma s_mul_sized x y v u B K w :
  FShares B x v → FShares B y u → Z.abs v ≤ K → Z.abs u ≤ K → B + T * shift < wire →
  runs (s_mul x y) w (λ z w', product_of K v u z ∧ moved w 0 0 w').
Proof.
  intros Hx Hy Hv Hu HB. unfold s_mul. eapply runs_bind; [apply getTriple_fp|].
  intros ts w1 (Hts & Hl & Hw1). destruct ts as [|t [|]]; try discriminate Hl.
  apply Forall_cons in Hts as [Ht _].
  destruct (masked x v t B Ht Hx) as [[Hd _] _]. destruct (masked y u t B Ht Hy) as [[_ He] _].
  pose proof (beaver_sized t x y v u B K Ht Hx Hy Hv Hu) as Hz. destruct t as [[a b] c]. cbn [fst snd] in *.
  eapply runs_bind.
  { eapply runs_lift_eq, (recons_vec_fp sp_id (B + T * shift)); [|exact HB].
    constructor; [exact Hd|constructor; [exact He|constructor]]. }
  intros de w2 [-> ->]. apply runs_ret. split; [exact Hz|done].
Qed.

Lemma beavers_sized xs ys vs us ts B K :
  Forall (good_triple (T := T)) ts → length ts = length xs → length xs = length ys →
  Forall2 (FShares B) xs vs → Forall2 (FShares B) ys us →
  Forall (λ v, Z.abs v ≤ K) vs → Forall (λ u, Z.abs u ≤ K) us →
  let zs := zip_with beaver ts (zip (zip_with (λ v abc, v - Zsum abc.1.1) vs ts)
                                    (zip_with (λ u abc, u - Zsum abc.1.2) us ts)) in
  Forall2 (λ vu z, product_of K vu.1 vu.2 z) (zip vs us) zs.
Proof.
  intros Hts Hl Hl' Hx. revert ts ys us Hts Hl Hl'.
  induction Hx as [|x v xs vs Hx _ IH]; intros [|t ts] ys us Hts Hl Hl' Hy Hvs Hus;
    destruct Hy as [|y u ys us Hy Hys]; try discriminate Hl; try discriminate Hl'; [constructor|].
  apply Forall_cons in Hts as [Ht Hts]. apply Forall_cons in Hvs as [Hv Hvs]. apply Forall_cons in Hus as [Hu Hus].
  cbn [zip_with zip]. constructor; [by apply (beaver_sized t x y v u B)|apply (IH ts ys us); auto].
Qed.

Lemma v_mul_sized xs ys vs us B K w :
  Forall2 (FShares B) xs vs → Forall2 (FShares B) ys us → length xs = length ys →
  Forall (λ v, Z.abs v ≤ K) vs → Forall (λ u, Z.abs u ≤ K) us → B + T * shift < wire →
  runs (v_mul xs ys) w (λ zs w', Forall2 (λ vu z, product_of K vu.1 vu.2 z) (zip vs us) zs ∧ moved w 0 0 w').
Proof.
  intros Hx Hy Hl Hvs Hus HB. unfold v_mul. rewrite (proj2 (Nat.eqb_eq _ _) Hl). cbn [negb].
  eapply runs_bind; [apply getTriple_fp|]. intros ts w1 (Hts & Hlt & Hw1).
  destruct (masks_fp xs vs ts B Hts Hlt Hx) as [Hd _].
  destruct (masks_fp ys us ts B Hts ltac:(lia) Hy) as [_ He].
  eapply runs_bind.
  { eapply runs_lift_eq, (recons_vec_fp sp_id (B + T * shift)); [apply Forall2_app; [exact Hd|exact He]|exact HB]. }
  intros de w2 [-> ->]. apply runs_ret. split; [|done].
  pose proof (Forall2_length _ _ _ Hx).
  rewrite take_app_length', drop_app_length' by (rewrite length_zip_with; lia).
  by apply (beavers_sized xs ys vs us ts B).
Qed.

Lemma approx_whole_l k v z : approx (k * shift) v z → z = k * v.
Proof. unfold approx. intros H. rewrite (Z.mul_comm _ v) in H. apply approx_whole_r in H. lia. Qed.

(** Magnitudes: a product is at most [K^2 / shift + 1]. *)
Lemma approx_abs v u z W U : approx v u z → Z.abs v ≤ W → Z.abs u ≤ U → shift * Z.abs z ≤ W * U + shift.
Proof.
  unfold approx. intros H Hv Hu. assert (Z.abs (v * u) ≤ W * U) by (rewrite Z.abs_mul; nia).
  pose proof shift_pos. assert (Z.abs (shift * z) ≤ W * U + shift) as H' by lia.
  by rewrite Z.abs_mul, (Z.abs_eq shift) in H' by lia.
Qed.

(** Sums of products: the errors add up. *)
Lemma sum_sized K vs us zs :
  Forall2 (λ vu z, product_of K vu.1 vu.2 z) (zip vs us) zs →
  let z := Math.sum zs in
  FShares (Z.of_nat (length zs) * prod_size K) z (Zsum z)
  ∧ Z.abs (shift * Zsum z - dot vs us) ≤ Z.of_nat (length zs) * shift.
Proof.
  intros Hz z.
  assert (Forall2 (FShares (prod_size K)) zs (map Zsum zs)) as Hf.
  { clear z. induction Hz as [|vu y l zs Hy _ IH]; simpl; constructor; [apply Hy|done]. }
  pose proof (FShares_sum _ _ _ _ _ _ Hf FShares_zero) as Hsum. fold (Math.sum zs) in Hsum. fold z in Hsum.
  assert (Zsum z = Zsum (map Zsum zs)) as Hzs by (rewrite (proj2 (proj2 Hsum)); lia).
  split; [rewrite Hzs; by eapply FShares_weaken; [apply Hsum|]; lia|].
  rewrite Hzs. clear Hzs Hsum Hf z. unfold dot. revert Hz. generalize (zip vs us).
  intros l Hz. induction Hz as [|[v u] y l zs [_ Hy] _ IH]; [done|].
  unfold approx in Hy. cbn [map fst snd length] in *. rewrite !Zsum_cons. lia.
Qed.

Lemma dot_sized xs ys vs us B K w :
  Forall2 (FShares B) xs vs → Forall2 (FShares B) ys us → length xs = length ys →
  Forall (λ v, Z.abs v ≤ K) vs → Forall (λ u, Z.abs u ≤ K) us → B + T * shift < wire →
  runs (v_mul xs ys) w (λ zs _, let z := Math.sum zs in
    FShares (Z.of_nat (length xs) * prod_size K) z (Zsum z)
    ∧ Z.abs (shift * Zsum z - dot vs us) ≤ Z.of_nat (length xs) * shift).
Proof.
  intros Hx Hy Hl Hv Hu HB. eapply runs_mono; [by apply (v_mul_sized xs ys vs us B K)|].
  intros zs w' [Hz _].
  assert (length zs = length xs) as Hlz.
  { apply Forall2_length in Hz. rewrite length_zip_with in Hz. apply Forall2_length in Hx, Hy. lia. }
  rewrite <- Hlz. by apply sum_sized.
Qed.
End Sized.
