(* ===== verification/Json.v ===== *)
(** * JSON values  (the interface to nlohmann::json)

    The library is a parameter: the constructors the code builds values with and
    the accessors it reads them with.  [JsonLaws] is its documented behaviour on
    values the code itself has built; [json_tree] is a concrete instance. *)
From stdpp Require Import base list numbers strings.
From Stdlib Require Import ZArith Lia.
From S2P Require Import Prelude Double.
#[local] Open Scope Z_scope.

Class JsonLib := {
  json : Type;
  j_double : Double.double → json;
  j_int : Z → json;
  j_string : string → json;
  j_array : list json → json;
  j_object : list (string * json) → json;
  at_key : json → string → result json;          (* operator[](key) const *)
  contains : json → string → bool;               (* also find(key) != end() *)
  elements : json → list json;                   (* the range of a for loop *)
  get_double : json → result Double.double;
  get_int : json → result Z;
  get_string : json → result string;
  get_strings : json → result (list string)
}.

(** [ret[key] = value] *)
Definition field `{JsonLib} (k : string) (v : json) : string * json := (k, v).

Class JsonLaws (JL : JsonLib) : Prop := {
  get_double_of : ∀ k, get_double (j_double (Double.Fin k)) = Ok (Double.Fin k);
  get_int_of : ∀ z, - 2 ^ 31 ≤ z < 2 ^ 31 → get_int (j_int z) = Ok z;
  get_string_of : ∀ s, get_string (j_string s) = Ok s;
  get_strings_of : ∀ l, get_strings (j_array (map j_string l)) = Ok l;
  elements_of : ∀ l, elements (j_array l) = l;
  at_key_of : ∀ kvs k v, NoDup kvs.*1 → (k, v) ∈ kvs → at_key (j_object kvs) k = Ok v;
  contains_of : ∀ kvs k, contains (j_object kvs) k = bool_decide (k ∈ kvs.*1)
}.

(** ** A concrete instance *)

Inductive jtree : Type :=
  | JDouble (d : Double.double)
  | JInt (z : Z)
  | JString (s : string)
  | JArray (l : list jtree)
  | JObject (kvs : list (string * jtree)).

Fixpoint assoc {A} (kvs : list (string * A)) (k : string) : option A :=
  match kvs with
  | [] => None
  | (k', v) :: kvs => if String.eqb k k' then Some v else assoc kvs k
  end.

Definition type_error : exn := JsonError "type_error".

Definition jtree_string (j : jtree) : result string :=
  match j with JString s => Ok s | _ => Throw type_error end.

Definition json_tree : JsonLib := {|
  json := jtree;
  j_double := JDouble;
  j_int := JInt;
  j_string := JString;
  j_array := JArray;
  j_object := JObject;
  at_key j k := match j with
                | JObject kvs => match assoc kvs k with
                                 | Some v => Ok v
                                 | None => Throw (Undefined "json key")
                                 end
                | _ => Throw type_error
                end;
  contains j k := match j with
                  | JObject kvs => match assoc kvs k with Some _ => true | None => false end
                  | _ => false
                  end;
  elements j := match j with
                | JArray l => l
                | JObject kvs => map snd kvs
                | _ => [j]
                end;
  get_double j := match j with
                  | JDouble d => Ok d
                  | JInt z => Ok (Double.of_Z z)
                  | _ => Throw type_error
                  end;
  get_int j := match j with
               | JInt z => Ok z
               | JDouble d => Double.to_signed 32 d
               | _ => Throw type_error
               end;
  get_string := jtree_string;
  get_strings j := match j with JArray l => traverse jtree_string l | _ => Throw type_error end
|}.

Lemma assoc_elem {A} (kvs : list (string * A)) k v :
  NoDup kvs.*1 → (k, v) ∈ kvs → assoc kvs k = Some v.
Proof.
  induction kvs as [|[k' v'] kvs IH]; intros Hnd Hin; [by apply elem_of_nil in Hin|]. cbn [assoc].
  apply NoDup_cons in Hnd as [Hk Hnd]. destruct (String.eqb_spec k k') as [->|Hne].
  - apply elem_of_cons in Hin as [[= ->]|Hin]; [done|].
    exfalso. apply Hk. by apply (list_elem_of_fmap_2 fst kvs (k', v)).
  - apply elem_of_cons in Hin as [[= ]|Hin]; [done|]. by apply IH.
Qed.

Lemma assoc_contains {A} (kvs : list (string * A)) k :
  match assoc kvs k with Some _ => true | None => false end = bool_decide (k ∈ kvs.*1).
Proof.
  induction kvs as [|[k' v'] kvs IH]; [done|]. cbn [assoc fmap list_fmap fst].
  destruct (String.eqb_spec k k') as [->|Hne].
  - symmetry. apply bool_decide_eq_true. by constructor.
  - rewrite IH. apply bool_decide_ext. rewrite elem_of_cons. naive_solver.
Qed.

#[export] Instance json_tree_laws : JsonLaws json_tree.
Proof.
  split; try done.
  - intros l. cbn. rewrite (traverse_map _ (λ j, match j with JString s => s | _ => "" end)).
    + f_equal. rewrite map_map. induction l; [done|]. cbn. by f_equal.
    + intros x Hx. apply list_elem_of_In, in_map_iff in Hx as (s & <- & _). done.
  - intros kvs k v Hnd Hin.
    exact (f_equal (λ o, match o with Some v => Ok v | None => Throw (Undefined "json key") end)
             (assoc_elem (A := jtree) kvs k v Hnd Hin)).
  - intros kvs k. exact (assoc_contains (A := jtree) kvs k).
Qed.
