(* ===== verification/SID3.v ===== *)
(** * The secure ID3 decision tree  (GBDT/SID3.hpp, GBDT/SID3.cpp)

    Rows, attributes and classes are bit vectors of shares: [T] says which rows
    are in a node, [S] holds, per attribute and attribute value, the rows that
    have it, [targets] per class the rows that belong to it.  A tree is built by
    [createTree], turned into JSON at every party, read back and asked for the
    class of a row by [predict].

    A node keeps what [predict] and [createTreeJson] read; [Y] is the type of
    its class [y]: a sharing in the joint run, one party's value in its JSON. *)
From stdpp Require Import base list numbers sets strings.
From Stdlib Require Import ZArith Lia.
From S2P Require Import Prelude FixedPoint Random TripleHandler Share SharePF ShareFP Double FixedCompare.
From S2P Require Import Json.
#[local] Open Scope Z_scope.
#[local] Open Scope qmpc_scope.

Module SID3.
Import FixedPoint FixedDouble FixedCompare.

(** [att_class] is not initialised in a leaf read from JSON. *)
Inductive node (Y : Type) : Type :=
  mkNode (gini_index : Double.double) (size : Z) (y : Y) (att_class : option Z) (children : list (node Y)).
Arguments mkNode {Y} gini_index size y att_class children.

Definition gini_index {Y} (t : node Y) : Double.double := let '(mkNode g _ _ _ _) := t in g.
Definition size {Y} (t : node Y) : Z := let '(mkNode _ s _ _ _) := t in s.
Definition y {Y} (t : node Y) : Y := let '(mkNode _ _ y _ _) := t in y.
Definition att_class {Y} (t : node Y) : option Z := let '(mkNode _ _ _ a _) := t in a.
Definition children {Y} (t : node Y) : list (node Y) := let '(mkNode _ _ _ _ c) := t in c.

Definition isTerminal {Y} (t : node Y) : bool :=
  match children t with [] => true | _ => false end.

Definition eps : Double.double := Double.lit 1 1000000.

(** [std::max_element] of pairs with [operator<] on the first, then the second
    component; [None] is the end iterator. *)
Definition max_element {A} (lt : A → A → bool) (l : list A) : option A :=
  match l with
  | [] => None
  | x :: l => Some (fold_left (λ largest it, if lt largest it then it else largest) l x)
  end.
Definition lt_int (a b : Z * Z) : bool := (a.1 <? b.1) || (negb (b.1 <? a.1) && (a.2 <? b.2)).
Definition lt_gini (a b : Double.double * Z) : bool :=
  Double.ltb a.1 b.1 || (negb (Double.ltb b.1 a.1) && (a.2 <? b.2)).

Section SID3.
Context `{DF : DecFloat} `{E : Env} `{CI : CppInt}.
#[local] Existing Instance fp_value.

Definition dot (x y : list sharing) : M sharing :=
  let* ret := v_mul x y in Share.ret (Math.sum ret).

Definition dataSize (T : list sharing) : M Z :=
  let* size := open_recons (Math.sum T) in
  lift (Double.to_signed 32 (Double.add (getDoubleVal size) (Double.lit 1 10))).

Definition splitTransaction (T : list sharing) (targets : list (list sharing)) : M (list (list sharing)) :=
  mmap (λ target, v_mul target T) targets.

(** The counts are truncated to [int]; of equal counts the last class wins. *)
Definition majorityClass (U : list (list sharing)) : M sharing :=
  let* base_count := mmap (λ u,
      let* count := open_recons (Math.sum u) in
      lift (Double.to_signed 32 (getDoubleVal count))) U in
  match max_element lt_int (zip base_count (map Z.of_nat (seq 0 (length base_count)))) with
  | None => throw (Undefined "max_element of an empty range")
  | Some (max_num, max_num_index) =>
      let* c := lift (of_integral max_num_index) in ret (getConstantShare c)
  end.

(** One entry of [Gini]: [x] are the class counts of an attribute value. *)
Definition gini_entry (U : list (list sharing)) (S_rj : list sharing) : M sharing :=
  let* x := mmap (λ U_i, dot U_i S_rj) U in
  let y := Math.sum x in
  let* xx_ := v_mul x x in
  let xx := Math.sum xx_ in
  let y := s_mulc y (fp 8) in
  let y := s_addc y (fp 1) in
  s_div xx y.

(** [R] is the set of attributes, in ascending order. *)
Definition calcGini (S : list (list (list sharing))) (U : list (list sharing)) (R : list Z) :
    M (list (Double.double * Z)) :=
  let* entries := mmap (λ r,
      let* S_r := lift (vec_at S r) in
      let* gs := mmap (gini_entry U) S_r in
      ret (map (λ g, (g, r)) gs)) R in
  let Gini := concat entries in
  let* recGini := open_recons_vec (map fst Gini) in
  ret (zip (map getDoubleVal recGini) (map snd Gini)).

Definition getMaxGini (S : list (list (list sharing))) (U : list (list sharing)) (R : list Z) :
    M (Double.double * Z) :=
  let* gini_indexies := calcGini S U R in
  match max_element lt_gini gini_indexies with
  | None => ret (Double.of_Z (-1), -1)
  | Some m => ret m
  end.

(** The conditions under which a node stays a leaf; [T.size() / 2u] is unsigned. *)
Definition stop (rows : nat) (size : Z) (gini : Double.double) (R : list Z) : bool :=
  match R with [] => true | _ => false end
  || (size mod 2 ^ 32 <=? Z.of_nat rows / 2) || (0 =? size) || Double.leb gini eps.

Definition erase (R : list Z) (a : Z) : list Z := filter (λ r, r ≠ a) R.

Fixpoint createTree (fuel : nat) (T : list sharing) (S : list (list (list sharing)))
    (targets : list (list sharing)) (R : list Z) : M (node sharing) :=
  match fuel with
  | O => throw OutOfFuel
  | S fuel =>
      let* size := dataSize T in
      let* U := splitTransaction T targets in
      let* y := majorityClass U in
      let* g := getMaxGini S U R in
      let '(gini_index, att_class) := g in
      if stop (length T) size gini_index R then ret (mkNode gini_index size y (Some att_class) [])
      else
        let R_ := erase R att_class in
        let* S_att := lift (vec_at S att_class) in
        let* children := mmap (λ S_j,
            let* T_ := v_mul T S_j in createTree fuel T_ S targets R_) S_att in
        ret (mkNode gini_index size y (Some att_class) children)
  end.

(** [predict]: the sum over the children, weighted by the row's attribute bits. *)
Fixpoint weighted {A} (f : A → M sharing) (attribute_value : list sharing)
    (cs : list A) (index : Z) (acc : sharing) : M sharing :=
  match cs with
  | [] => ret acc
  | child :: cs =>
      let* p := f child in
      let* v := lift (vec_at attribute_value index) in
      let* m := s_mul v p in
      weighted f attribute_value cs (index + 1) (s_add acc m)
  end.

Fixpoint predict (t : node sharing) (data : list (list sharing)) : M sharing :=
  let '(mkNode _ _ y att_class children) := t in
  match children with
  | [] => ret y
  | _ =>
      let* a := match att_class with Some a => ret a | None => throw (Undefined "att_class") end in
      let* attribute_value := lift (vec_at data a) in
      weighted (λ child, predict child data) attribute_value children 0 s_zero
  end.
End SID3.

(** ** JSON, at one party *)

Section JSON.
Context `{CI : CppInt} `{JL : JsonLib}.

Fixpoint createTreeJson (t : node Z) : json :=
  let '(mkNode gini_index size y att_class children) := t in
  j_object ([field "gini" (j_double gini_index); field "size" (j_int size);
             field "class" (j_double (getDoubleVal y))]
    ++ match children, att_class with
       | _ :: _, Some a => [field "att_class" (j_int a)]
       | _, _ => []
       end
    ++ [field "children" (j_array (map createTreeJson children))]).

(** The constructor from JSON; the fuel bounds the depth. *)
Fixpoint of_json (fuel : nat) (j : json) : result (node Z) :=
  match fuel with
  | O => Throw OutOfFuel
  | S fuel =>
      let! gini := at_key j "gini" in let! gini_index := get_double gini in
      let! size := at_key j "size" in let! size := get_int size in
      let! c := at_key j "class" in let! c := get_double c in let! y := of_double c in
      let! att_class := (if contains j "att_class"
                         then let! a := at_key j "att_class" in rmap Some (get_int a)
                         else Ok None) in
      let! cs := at_key j "children" in
      let! children := traverse (of_json fuel) (elements cs) in
      Ok (mkNode gini_index size y att_class children)
  end.
End JSON.

(** What party [i] has of a joint tree. *)
Fixpoint local (i : nat) (t : node sharing) : node Z :=
  let '(mkNode g s y a cs) := t in mkNode g s (nth (i - 1) y 0) a (map (local i) cs).

Fixpoint depth {Y} (t : node Y) : nat :=
  let '(mkNode _ _ _ _ cs) := t in S (fold_right Nat.max 0%nat (map depth cs)).
End SID3.
