(* ===== verification/SID3Correct.v ===== *)
(** * The decision tree is the tree of its training rows  (GBDT/SID3.cpp)

    Counting on shares of bits is exact ([FixedWhole.v]), so although the Gini
    values that choose the attributes are approximations, every node of the
    tree [createTree] returns knows the exact number of its rows and their
    majority class ([grown]); it ends because every split uses up an attribute.
    [predict] on a one-hot row opens to the class at the end of the row's path,
    and a tree survives the way through JSON at every party. *)
From stdpp Require Import base list numbers sets strings.
From Stdlib Require Import ZArith Lia.
From S2P Require Import Prelude FixedPoint Random TripleHandler Share SharePF ShareFP Double FixedCompare.
From S2P Require Import FixedCompareCorrect FixedWhole FixedInverse Json SID3.
#[local] Open Scope Z_scope.
#[local] Open Scope qmpc_scope.
#[local] Abbreviation n := (Z.of_nat n_parties).
Import SID3.

(** ** Induction on trees *)

Lemma node_induction {Y} (P : node Y → Prop) :
  (∀ g s y a cs, Forall P cs → P (mkNode g s y a cs)) → ∀ t, P t.
Proof.
  intros H. fix IH 1. intros [g s y a cs]. apply H.
  induction cs as [|c cs IHcs]; constructor; [apply IH|exact IHcs].
Qed.

(** [Forall2] by recursion, for use inside a recursive definition. *)
Section All2.
Context {A B : Type} (P : A → B → Prop).
Fixpoint all2 (l : list A) (k : list B) : Prop :=
  match l, k with
  | [], [] => True
  | x :: l, y :: k => P x y ∧ all2 l k
  | _, _ => False
  end.

Lemma all2_Forall2 l k : all2 l k ↔ Forall2 P l k.
Proof.
  revert k; induction l as [|x l IH]; intros [|y k]; cbn [all2].
  - split; [constructor|done].
  - split; [done|inversion 1].
  - split; [done|inversion 1].
  - rewrite IH. split; [intros [? ?]; by constructor|inversion 1; by split].
Qed.
End All2.

(** ** The greatest pair *)

Section MaxElement.
Context {A : Type} (lt : A → A → bool) (le : A → A → Prop).
Hypothesis lt_le : ∀ a b, lt a b = true → le a b.
Hypothesis not_lt_le : ∀ a b, lt a b = false → le b a.
Hypothesis le_refl : ∀ a, le a a.
Hypothesis le_trans : ∀ a b c, le a b → le b c → le a c.

Lemma max_element_spec l :
  match max_element lt l with
  | None => l = []
  | Some x => x ∈ l ∧ ∀ y, y ∈ l → le y x
  end.
Proof.
  destruct l as [|x l]; [done|]. cbn [max_element].
  assert (∀ l x (seen : list A), x ∈ seen → (∀ y, y ∈ seen → le y x) →
    let z := fold_left (λ largest it, if lt largest it then it else largest) l x in
    z ∈ seen ++ l ∧ ∀ y, y ∈ seen ++ l → le y z) as H.
  { clear x l. induction l as [|a l IH]; intros x seen Hx Hle; cbn [fold_left].
    - rewrite app_nil_r. done.
    - specialize (IH (if lt x a then a else x) (seen ++ [a])). rewrite <- app_assoc in IH. apply IH.
      + destruct (lt x a); set_solver.
      + intros y [Hy|Hy%list_elem_of_singleton]%elem_of_app.
        * destruct (lt x a) eqn:E; [|by apply Hle]. eapply le_trans; [by apply Hle|by apply lt_le].
        * subst y. destruct (lt x a) eqn:E; [done|by apply not_lt_le]. }
  apply (H l x [x]); [set_solver|]. intros y ->%list_elem_of_singleton. done.
Qed.
End MaxElement.

Definition le_int (a b : Z * Z) : Prop := a.1 < b.1 ∨ (a.1 = b.1 ∧ a.2 ≤ b.2).

Lemma max_element_int l :
  match max_element lt_int l with
  | None => l = []
  | Some x => x ∈ l ∧ ∀ y, y ∈ l → le_int y x
  end.
Proof. apply (max_element_spec lt_int le_int); unfold lt_int, le_int; intros; lia. Qed.

(** For the Gini pairs it is enough that the result is one of them. *)
Lemma max_element_elem {A} (lt : A → A → bool) l :
  match max_element lt l with None => l = [] | Some x => x ∈ l end.
Proof.
  pose proof (max_element_spec lt (λ _ _, True)) as H.
  specialize (H ltac:(done) ltac:(done) ltac:(done) ltac:(done) l).
  destruct (max_element lt l); [apply H|done].
Qed.

(** ** Conversions of counts *)

Section Counts.
Context `{CL : CppIntLaws}.
Import FixedPoint Double FixedDouble.

Lemma count_to_int c : 0 ≤ c ≤ 2 ^ 26 → to_signed 32 (getDoubleVal (c * shift)) = Ok c.
Proof.
  intros Hc. rewrite getDoubleVal_int by (unfold shift; lia).
  unfold to_signed. cbn [to_Z]. pose proof unit_pos. rewrite Z.quot_mul, rbind_ok by lia.
  destruct (Z.leb_spec (- 2 ^ (32 - 1)) c), (Z.ltb_spec c (2 ^ (32 - 1))); (done || lia).
Qed.

(** [static_cast<int>(size.getDoubleVal() + 0.1)] *)
Lemma tenth : ∃ k, lit 1 10 = Fin k ∧ unit ≤ 20 * k ∧ 2 * k ≤ unit.
Proof. eexists. split; [vm_compute; reflexivity|]. split; vm_compute; discriminate. Qed.

Lemma count_add_tenth c : 0 ≤ c ≤ 2 ^ 26 →
  to_signed 32 (add (getDoubleVal (c * shift)) (lit 1 10)) = Ok c.
Proof.
  intros Hc. rewrite getDoubleVal_int by (unfold shift; lia).
  destruct tenth as (k & -> & Hk0 & Hk). cbn [add]. pose proof unit_pos as Hu.
  assert (2 ^ 30 * unit ≤ limit / 2) as Hlim.
  { rewrite limit_unit. change (2 ^ 1024) with (2 ^ 1023 * 2).
    replace (2 ^ 1023 * 2 * unit) with (2 ^ 1023 * unit * 2) by ring.
    rewrite Z.div_mul by lia. apply Z.mul_le_mono_nonneg_r; [lia|]. vm_compute. discriminate. }
  assert (Z.abs (c * unit + k) ≤ (2 ^ 26 + 1) * unit) as Hx by (clear Hlim; nia).
  destruct (round_to_finite (c * unit + k) 1) as (j & -> & Hj & _); [lia|clear -Hx Hlim Hu; lia|].
  assert (c * unit ≤ j < (c + 1) * unit) as Hjb.
  { rewrite Z.mul_1_r in Hj.
    assert (Z.abs (c * unit + k) / 2 ^ 52 * 2 ^ 25 ≤ unit) as Hd.
    { pose proof (Z.mul_div_le (Z.abs (c * unit + k)) (2 ^ 52) ltac:(lia)) as H.
      set (X := Z.abs (c * unit + k)) in *. set (Y := X / 2 ^ 52) in *. clearbody Y X.
      clear -H Hx Hu. lia. }
    assert (2 ^ 60 ≤ unit) as Hbig by (rewrite unit_pow; vm_compute; discriminate).
    lia. }
  unfold to_signed. cbn [to_Z].
  assert (Z.quot j unit = c) as ->.
  { rewrite Z.quot_div_nonneg by nia. symmetry. apply (Z.div_unique _ _ _ (j - c * unit)); lia. }
  rewrite rbind_ok. destruct (Z.leb_spec (- 2 ^ (32 - 1)) c), (Z.ltb_spec c (2 ^ (32 - 1))); (done || lia).
Qed.
End Counts.

(** ** Protocol loops whose turns do not depend on the world *)

Lemma runs_mmap_forall {A B} (f : A → M B) l (R : A → B → Prop) w :
  (∀ x w, x ∈ l → runs (f x) w (λ y _, R x y)) → runs (mmap f l) w (λ ys _, Forall2 R l ys).
Proof.
  intros Hf. eapply runs_mono; [apply (runs_mmap f l R (λ _ _, True) 0 w I)|].
  - intros i x w' Hi _. eapply runs_mono; [apply Hf; by eapply list_elem_of_lookup_2|]. by intros.
  - by intros ys w' [H _].
Qed.

Definition bit (k : Z) : Prop := k = 0 ∨ k = 1.

(** The rows of [T] in class [tv]. *)
Definition inter (ks ls : list Z) : list Z := zip_with Z.mul ks ls.

Lemma inter_bits ks ls : Forall bit ks → Forall bit ls → Forall bit (inter ks ls).
Proof.
  intros Hk. revert ls; induction Hk as [|k ks Hk _ IH]; intros ls Hl; [constructor|].
  destruct Hl as [|l ls Hl Hls]; [constructor|]. cbn. constructor; [|by apply IH].
  unfold bit in *. lia.
Qed.

Lemma ones_bounds ks : Forall bit ks → 0 ≤ Zsum ks ≤ Z.of_nat (length ks).
Proof.
  induction 1 as [|k ks Hk _ IH]; [rewrite Zsum_nil; simpl; lia|]. rewrite Zsum_cons. cbn [length].
  unfold bit in Hk. lia.
Qed.

(** The majority: a greatest count, the last one of equals. *)
Definition majority (counts : list Z) (i : nat) : Prop :=
  ∃ c, counts !! i = Some c ∧ ∀ j c', counts !! j = Some c' → c' < c ∨ (c' = c ∧ (j ≤ i)%nat).

Lemma majority_max counts :
  counts ≠ [] →
  ∃ m i, max_element lt_int (zip counts (map Z.of_nat (seq 0 (length counts)))) = Some (m, Z.of_nat i)
    ∧ (i < length counts)%nat ∧ majority counts i.
Proof.
  intros Hne. pose proof (max_element_int (zip counts (map Z.of_nat (seq 0 (length counts))))) as H.
  assert (∀ j c, counts !! j = Some c → (c, Z.of_nat j) ∈ zip counts (map Z.of_nat (seq 0 (length counts)))) as Hin.
  { intros j c Hj. apply list_elem_of_lookup. exists j. apply lookup_zip_with_Some. exists c, (Z.of_nat j).
    split; [done|]. split; [done|]. rewrite list_lookup_fmap.
    rewrite lookup_seq_lt by (by eapply lookup_lt_Some). done. }
  destruct (max_element _ _) as [[m z]|] eqn:E.
  - destruct H as [Hz Hle]. apply list_elem_of_lookup in Hz as (i & Hz).
    apply lookup_zip_with_Some in Hz as (c & z' & [= -> ->] & Hi & Hz).
    apply list_lookup_fmap_Some in Hz as (i' & -> & Hi'). apply lookup_seq in Hi' as [-> Hi'].
    cbn in *. exists c, i. split; [done|]. split; [done|]. exists c. split; [done|].
    intros j c' Hj. specialize (Hle _ (Hin _ _ Hj)). unfold le_int in Hle. cbn in Hle. lia.
  - destruct counts as [|c counts]; [done|].
    specialize (Hin 0%nat c eq_refl). rewrite H in Hin. by apply elem_of_nil in Hin.
Qed.

(** ** What [createTree] computes, on the secrets

    [sv] and [tv] are the secrets of [S] and [targets]. *)
Section Grown.
Context `{E : Env} `{SV : ShareValue} (sv : list (list (list Z))) (tv : list (list Z)).

(** The node of the rows [Tv]: their number, and the constant share of their
    majority class. *)
Definition node_of (Tv : list Z) (g : Double.double) (s : Z) (y : sharing) : Prop :=
  s = Zsum Tv ∧ (∃ k, g = Double.Fin k)
  ∧ ∃ i, majority (map (λ t, Zsum (inter t Tv)) tv) i
      ∧ y = getConstantShare (FixedCompare.fp (Z.of_nat i)).

(** A node that is split has more than half of all rows; its children have the
    rows of the attribute's values, and may not use the attribute again. *)
Fixpoint grown (t : node sharing) (Tv : list Z) (R : list Z) : Prop :=
  let '(mkNode g s y a cs) := t in
  node_of Tv g s y
  ∧ match cs with
    | [] => a = None ∨ a = Some (-1) ∨ ∃ r, a = Some r ∧ r ∈ R
    | _ =>
        Z.of_nat (length Tv) / 2 < s
        ∧ ∃ r sa, a = Some r ∧ r ∈ R ∧ vec_at sv r = Ok sa
          ∧ all2 (λ c col, grown c (inter Tv col) (erase R r)) cs sa
    end.
End Grown.

Section Grow.
Context `{DL : DecLaws} `{E : Env} `{V : !ValidEnv E} {TB : Z} `{TL : !TripleLaws TB E} `{CL : CppIntLaws}.
#[local] Existing Instance fp_value.
Import FixedPoint FixedDouble FixedCompare.

(** *** Sizes of the local values, for [m] rows and [k] classes *)

Definition bit_product : Z := whole_size (T := TB) 1.
Definition x_size (m : nat) : Z := Z.of_nat m * bit_product.
Definition g_operand (m k : nat) : Z :=
  Z.max (Z.of_nat k * whole_size (T := TB) (Z.of_nat m)) (Z.of_nat k * x_size m * 8 + shift).
Definition g_size (m k : nat) : Z := mul_bound TB (quot_size (T := TB) shift (g_operand m k)).

(** What counting needs. *)
Record bit_sizes (Q : Z) (m : nat) : Prop := {
  sz_rows : Z.of_nat m ≤ 2 ^ 26;
  sz_bits : bit_product ≤ Q;
  sz_mul : Q + TB * shift < wire;
  sz_sum : Z.of_nat m * Q < wire
}.

Record sizes (Q : Z) (m k : nat) : Prop := {
  sz_base : bit_sizes Q m;
  sz_classes : (0 < k)%nat ∧ Z.of_nat k ≤ 2 ^ 20;
  sz_x : x_size m + TB * shift < wire;
  sz_inv : invertible (T := TB) shift (g_operand m k);
  sz_quot : opened TB (quot_size (T := TB) shift (g_operand m k)) < wire;
  sz_gini : g_size m k < wire
}.

Definition Bits (Q : Z) (m : nat) (xs : list sharing) (ks : list Z) : Prop :=
  Forall2 (WShares Q) xs ks ∧ length ks = m ∧ Forall bit ks.

Context {Q : Z} {m : nat}.

Lemma bit_product_nonneg : 0 ≤ bit_product.
Proof.
  unfold bit_product, whole_size. pose proof T_nonneg (T := TB). pose proof shift_pos. nia.
Qed.

Lemma Bits_length xs ks : Bits Q m xs ks → length xs = m.
Proof. intros (H & <- & _). by eapply Forall2_length. Qed.

Lemma bits_abs ks : Forall bit ks → Forall (λ k, Z.abs k ≤ 1) ks.
Proof. intros H. eapply Forall_impl; [exact H|]. unfold bit. intros a Ha. lia. Qed.

(** *** Counting *)

Section Counting.
Context (BS : bit_sizes Q m).

Lemma v_mul_bits' xs ys ks ls w :
  Bits Q m xs ks → Bits Q m ys ls →
  runs (v_mul xs ys) w (λ zs _, Forall2 (WShares bit_product) zs (inter ks ls)
    ∧ length (inter ks ls) = m ∧ Forall bit (inter ks ls)).
Proof.
  intros Hx Hy. pose proof bit_product_nonneg as Hp. destruct BS.
  eapply runs_mono.
  - apply (v_mul_whole xs ys ks ls Q 1); [apply Hx|apply Hy| |by apply bits_abs, Hx|by apply bits_abs, Hy|lia|done].
    by rewrite (Bits_length _ _ Hx), (Bits_length _ _ Hy).
  - intros zs w' Hz. split; [exact Hz|]. destruct Hx as (_ & Hl & Hb), Hy as (_ & Hl' & Hb').
    split; [|by apply inter_bits]. unfold inter. rewrite length_zip_with. lia.
Qed.

Lemma v_mul_bits xs ys ks ls w :
  Bits Q m xs ks → Bits Q m ys ls → runs (v_mul xs ys) w (λ zs _, Bits Q m zs (inter ks ls)).
Proof.
  intros Hx Hy. eapply runs_mono; [by apply v_mul_bits'|]. intros zs w' (Hz & Hl & Hb).
  split; [|done]. eapply Forall2_impl; [exact Hz|]. intros x l H. eapply WShares_weaken; [exact H|apply BS].
Qed.

Lemma sum_bits xs ks : Bits Q m xs ks → WShares (Z.of_nat m * Q) (Math.sum xs) (Zsum ks).
Proof. intros Hx. rewrite <- (Bits_length _ _ Hx). apply WShares_sum, Hx. Qed.

Lemma dot_bits xs ys ks ls w :
  Bits Q m xs ks → Bits Q m ys ls →
  runs (dot xs ys) w (λ z _, WShares (x_size m) z (Zsum (inter ks ls))).
Proof.
  intros Hx Hy. unfold dot. eapply runs_bind; [by apply v_mul_bits'|]. intros zs w' (Hz & Hl & _).
  apply runs_ret. unfold x_size. rewrite <- Hl, <- (Forall2_length _ _ _ Hz). by apply WShares_sum.
Qed.

Lemma dataSize_runs T Tv w : Bits Q m T Tv → runs (dataSize T) w (λ s _, s = Zsum Tv).
Proof.
  intros HT. unfold dataSize. eapply runs_bind.
  { eapply open_whole; [by apply sum_bits|apply BS]. }
  intros ? ? [-> ->]. pose proof (ones_bounds _ (proj2 (proj2 HT))) as Hc.
  rewrite (proj1 (proj2 HT)) in Hc. pose proof (sz_rows _ _ BS).
  eapply runs_lift; [apply count_add_tenth; lia|done].
Qed.

End Counting.

Context {k : nat} (SZ : sizes Q m k).
#[local] Abbreviation BS := (sz_base _ _ _ SZ).

(** *** The nodes *)

Lemma splitTransaction_runs T Tv targets tv w :
  Bits Q m T Tv → Forall2 (Bits Q m) targets tv →
  runs (splitTransaction T targets) w (λ U _, Forall2 (Bits Q m) U (map (λ t, inter t Tv) tv)).
Proof.
  intros HT Ht. unfold splitTransaction. revert w. induction Ht as [|x t targets tv Hx _ IH]; intros w; cbn [mmap].
  - apply runs_ret. constructor.
  - eapply runs_bind; [by apply (v_mul_bits BS)|]. intros u w1 Hu.
    eapply runs_bind; [apply IH|]. intros U w2 HU. apply runs_ret. by constructor.
Qed.

Lemma majorityClass_runs U uv w :
  Forall2 (Bits Q m) U uv → length uv = k →
  runs (majorityClass U) w (λ y _, ∃ i, (i < k)%nat ∧ majority (map Zsum uv) i
    ∧ y = getConstantShare (fp (Z.of_nat i))).
Proof.
  intros HU Hl. unfold majorityClass. destruct (sz_classes _ _ _ SZ) as [Hk0 Hk].
  eapply runs_bind.
  { instantiate (1 := λ cs _, cs = map Zsum uv). clear Hl. revert w.
    induction HU as [|u v U uv Hu _ IH]; intros w; cbn [mmap map]; [by apply runs_ret|].
    eapply runs_bind.
    { eapply runs_bind; [eapply open_whole; [by apply sum_bits|apply BS]|]. intros ? ? [-> ->].
      pose proof (ones_bounds _ (proj2 (proj2 Hu))) as Hc. rewrite (proj1 (proj2 Hu)) in Hc.
      pose proof (sz_rows _ _ BS). apply runs_lift_eq, count_to_int. lia. }
    intros ? w1 [-> ->]. eapply runs_bind; [apply IH|]. intros ? w2 ->. by apply runs_ret. }
  intros ? w1 ->.
  destruct (majority_max (map Zsum uv)) as (c & i & -> & Hi & Hm).
  { intros E'. apply (f_equal length) in E'. rewrite length_map in E'. simpl in E'. lia. }
  rewrite length_map in Hi.
  eapply runs_bind.
  { apply runs_lift_eq, RandomFacts.int64_ok. unfold shift. lia. }
  intros ? ? [-> ->]. apply runs_ret. exists i. split; [lia|]. split; [done|]. done.
Qed.

(** *** The Gini values: approximations, but values of attributes that are left *)

Lemma size_nonneg : 0 ≤ x_size m ∧ 0 ≤ g_operand m k ∧ 0 ≤ Q.
Proof.
  pose proof bit_product_nonneg. pose proof (sz_bits _ _ BS). unfold g_operand, x_size.
  split; [nia|]. split; [|lia]. unfold shift. nia.
Qed.

(** The rows of each class that have a value of an attribute. *)
Definition class_counts (uv : list (list Z)) (col : list Z) : list Z := map (λ u, Zsum (inter u col)) uv.

Lemma class_counts_bounds U uv S_rj col :
  Forall2 (Bits Q m) U uv → Bits Q m S_rj col → Forall (λ c, 0 ≤ c ≤ Z.of_nat m) (class_counts uv col).
Proof.
  intros HU HS. unfold class_counts. apply Forall_fmap, Forall_forall. intros u Hu. unfold compose.
  apply list_elem_of_lookup in Hu as (i & Hu). destruct (Forall2_lookup_r _ _ _ _ _ HU Hu) as (x & _ & Hx).
  pose proof (inter_bits u col (proj2 (proj2 Hx)) (proj2 (proj2 HS))) as Hb.
  apply ones_bounds in Hb. unfold inter in Hb. rewrite length_zip_with in Hb.
  by rewrite (proj1 (proj2 Hx)), (proj1 (proj2 HS)), Nat.min_id in Hb.
Qed.

Lemma class_counts_runs U uv S_rj col w :
  Forall2 (Bits Q m) U uv → Bits Q m S_rj col →
  runs (mmap (λ U_i, dot U_i S_rj) U) w (λ xs _, Forall2 (WShares (x_size m)) xs (class_counts uv col)).
Proof.
  intros HU HS. unfold class_counts. revert w. induction HU as [|x u U uv Hx _ IH]; intros w; cbn [mmap map]; [apply runs_ret; constructor|].
  eapply runs_bind; [by apply (dot_bits BS)|]. intros z w1 Hz. eapply runs_bind; [apply IH|].
  intros zs w2 Hzs. apply runs_ret. by constructor.
Qed.

Lemma squares_runs U uv S_rj col xs w :
  Forall2 (Bits Q m) U uv → Bits Q m S_rj col → Forall2 (WShares (x_size m)) xs (class_counts uv col) →
  runs (v_mul xs xs) w (λ xx _, Forall2 (WShares (whole_size (T := TB) (Z.of_nat m))) xx
    (zip_with Z.mul (class_counts uv col) (class_counts uv col))).
Proof.
  intros HU HS Hxs. pose proof (class_counts_bounds _ _ _ _ HU HS) as Hc. destruct size_nonneg as (Hx0 & _ & _).
  assert (Forall (λ c, Z.abs c ≤ Z.of_nat m) (class_counts uv col)) as Hca
    by (eapply Forall_impl; [exact Hc|]; cbn; intros; lia).
  apply (v_mul_whole xs xs _ _ (x_size m) (Z.of_nat m)); try done; apply SZ.
Qed.

(** The two operands of the division. *)
Lemma gini_operands U uv S_rj col xs xx :
  Forall2 (Bits Q m) U uv → length uv = k → Bits Q m S_rj col → Forall2 (WShares (x_size m)) xs (class_counts uv col) →
  Forall2 (WShares (whole_size (T := TB) (Z.of_nat m))) xx (zip_with Z.mul (class_counts uv col) (class_counts uv col)) →
  ∃ v u, FShares (g_operand m k) (Math.sum xx) v
    ∧ FShares (g_operand m k) (s_addc (s_mulc (Math.sum xs) (fp 8)) (fp 1)) u ∧ 0 < shift ≤ Z.abs u.
Proof.
  intros HU Hk HS Hxs Hxx. pose proof (class_counts_bounds _ _ _ _ HU HS) as Hc.
  assert (length xs = k) as Hlx by (rewrite (Forall2_length _ _ _ Hxs); unfold class_counts; by rewrite length_map).
  assert (length xx = k) as Hlxx.
  { rewrite (Forall2_length _ _ _ Hxx), length_zip_with, <- (Forall2_length _ _ _ Hxs). lia. }
  pose proof (WShares_sum _ _ _ Hxx) as Hxs2. pose proof (WShares_sum _ _ _ Hxs) as Hy.
  rewrite Hlxx in Hxs2. rewrite Hlx in Hy.
  pose proof (WShares_addc _ _ _ 1 (WShares_mulc _ _ _ 8 Hy)) as Hd.
  assert (0 ≤ Zsum (class_counts uv col)) as Hpos.
  { clear -Hc. induction Hc; [done|]. rewrite Zsum_cons. lia. }
  eexists _, _. split; [eapply FShares_weaken; [exact Hxs2|unfold g_operand; lia]|].
  split; [eapply FShares_weaken; [exact Hd|unfold g_operand; lia]|].
  split; [done|]. rewrite Z.abs_eq; unfold shift; lia.
Qed.

Lemma gini_entry_runs U uv S_rj col w :
  Forall2 (Bits Q m) U uv → length uv = k → Bits Q m S_rj col →
  runs (gini_entry U S_rj) w (λ q _, FShares (g_size m k) q (Zsum q)).
Proof.
  intros HU Hk HS. unfold gini_entry. destruct size_nonneg as (_ & Hg0 & _).
  eapply runs_bind; [by apply class_counts_runs|]. intros xs w1 Hxs.
  eapply runs_bind; [by eapply squares_runs|]. intros xx w2 Hxx.
  destruct (gini_operands U uv S_rj col xs xx HU Hk HS Hxs Hxx) as (v & u & Hv & Hu & Hu0).
  eapply runs_mono; [by apply (s_div_fp (TL := TL) shift (g_operand m k) _ _ v u); try done; apply SZ|].
  cbv beta. intros q w3 [Hq _]. exact Hq.
Qed.

Lemma finite_double x : Z.abs x < wire * 2 ^ 31 → ∃ g, getDoubleVal x = Double.Fin g.
Proof.
  intros Hx. destruct (getDoubleVal_close x) as (g & -> & _); [|by exists g].
  eapply Z.lt_trans; [exact Hx|]. vm_compute. reflexivity.
Qed.

Lemma gini_entries_runs S sv U uv R w :
  Forall2 (Forall2 (Bits Q m)) S sv → Forall2 (Bits Q m) U uv → length uv = k →
  Forall (λ r, 0 ≤ r < Z.of_nat (length S)) R →
  runs (mmap (λ r, let* S_r := lift (vec_at S r) in let* gs := mmap (gini_entry U) S_r in
                   ret (map (λ g, (g, r)) gs)) R) w
    (λ entries _, Forall (λ gr : sharing * Z, FShares (g_size m k) gr.1 (Zsum gr.1) ∧ gr.2 ∈ R) (concat entries)).
Proof.
  intros HS HU Hk HR. eapply runs_mono.
  { apply (runs_mmap_forall _ _ (λ r l, Forall (λ gr : sharing * Z,
      FShares (g_size m k) gr.1 (Zsum gr.1) ∧ gr.2 = r) l)). intros r w1 Hr.
    rewrite Forall_forall in HR. specialize (HR r Hr). cbn in HR.
    destruct (lookup_lt_is_Some_2 S (Z.to_nat r)) as [S_r HSr]; [lia|].
    destruct (Forall2_lookup_l _ _ _ _ _ HS HSr) as (s_r & _ & Hs).
    eapply runs_bind.
    { apply (runs_lift_eq _ S_r). rewrite <- (Z2Nat.id r) by lia. by apply vec_at_lookup. }
    intros ? ? [-> ->]. eapply runs_bind.
    { apply (runs_mmap_forall _ _ (λ _ q, FShares (g_size m k) q (Zsum q))). intros S_rj w2 Hj.
      apply list_elem_of_lookup in Hj as (j & Hj). destruct (Forall2_lookup_l _ _ _ _ _ Hs Hj) as (col & _ & Hc).
      by eapply gini_entry_runs. }
    intros gs w2 Hgs. apply runs_ret. apply Forall_fmap.
    eapply Forall2_Forall_r; [exact Hgs|]. apply Forall_true. intros S_rj q Hq. by split. }
  cbv beta. intros entries w1 He. apply Forall_concat. apply Forall_forall. intros l Hl. apply list_elem_of_lookup in Hl as (i & Hl).
  destruct (Forall2_lookup_r _ _ _ _ _ He Hl) as (r & Hr & Hrl).
  eapply Forall_impl; [exact Hrl|]. intros gr [H ->]. split; [done|]. by eapply list_elem_of_lookup_2.
Qed.

Lemma calcGini_runs S sv U uv R w :
  Forall2 (Forall2 (Bits Q m)) S sv → Forall2 (Bits Q m) U uv → length uv = k →
  Forall (λ r, 0 ≤ r < Z.of_nat (length S)) R →
  runs (calcGini S U R) w (λ l _, Forall (λ gr, gr.2 ∈ R ∧ ∃ g, gr.1 = Double.Fin g) l).
Proof.
  intros HS HU Hk HR. unfold calcGini. eapply runs_bind; [by eapply gini_entries_runs|].
  cbv beta. intros entries w1 Hc. set (Gini := concat entries) in *. clearbody Gini.
  eapply runs_bind.
  { eapply runs_lift_eq, (recons_vec_fp sp_id (g_size m k) _ (map (λ gr : sharing * Z, Zsum gr.1) Gini)).
    - apply Forall2_fmap_2. apply Forall_Forall2_diag. eapply Forall_impl; [exact Hc|]. by intros gr [H _].
    - apply SZ. }
  intros ? ? [-> ->]. apply runs_ret. rewrite map_map.
  pose proof (sz_gini _ _ _ SZ) as Hg. pose proof n_valid as Hn.
  induction Hc as [|gr Gini [Hgr Hr] _ IH]; [constructor|]. cbn [map zip zip_with]. constructor; [|exact IH].
  cbn [fst snd]. split; [done|]. apply finite_double. pose proof (FShares_abs _ _ _ Hgr).
  assert (n * g_size m k ≤ n * wire) by (apply Z.mul_le_mono_nonneg_l; lia).
  assert (n * wire < 2 ^ 31 * wire) by (apply Z.mul_lt_mono_pos_r; [reflexivity|lia]). lia.
Qed.

Lemma getMaxGini_runs S sv U uv R w :
  Forall2 (Forall2 (Bits Q m)) S sv → Forall2 (Bits Q m) U uv → length uv = k →
  Forall (λ r, 0 ≤ r < Z.of_nat (length S)) R →
  runs (getMaxGini S U R) w (λ ga _, (∃ g, ga.1 = Double.Fin g)
    ∧ (ga.2 ∈ R ∨ (ga.2 = -1 ∧ Double.leb ga.1 eps = true))).
Proof.
  intros HS HU Hk HR. unfold getMaxGini. eapply runs_bind; [by eapply calcGini_runs|].
  intros l w1 Hl. pose proof (max_element_elem lt_gini l) as Hm.
  destruct (max_element lt_gini l) as [[g a]|]; apply runs_ret.
  - rewrite Forall_forall in Hl. destruct (Hl _ Hm) as [Ha Hg]. cbn in *. tauto.
  - cbn [fst snd]. split; [eexists; vm_compute; reflexivity|]. right. split; [done|]. vm_compute. reflexivity.
Qed.

(** *** The tree *)

Lemma erase_length R r : r ∈ R → (length (erase R r) < length R)%nat.
Proof. intros Hr. unfold erase. apply (length_filter_lt _ R r); [done|tauto]. Qed.

Lemma erase_Forall (P : Z → Prop) R r : Forall P R → Forall P (erase R r).
Proof. rewrite !Forall_forall. intros H x Hx. apply H. unfold erase in Hx. by apply list_elem_of_filter in Hx as [_ Hx]. Qed.

Lemma createTree_runs fuel T Tv S sv targets tv R w :
  Bits Q m T Tv → Forall2 (Forall2 (Bits Q m)) S sv → Forall2 (Bits Q m) targets tv → length tv = k →
  Forall (λ r, 0 ≤ r < Z.of_nat (length S)) R → (length R < fuel)%nat →
  runs (createTree fuel T S targets R) w (λ t _, grown sv tv t Tv R).
Proof.
  intros HT HS Htg Hk. revert T Tv R w HT. induction fuel as [|fuel IH]; intros T Tv R w HT HR Hf; [lia|].
  cbn [createTree].
  eapply runs_bind; [by apply (dataSize_runs BS)|]. intros ? w1 ->.
  eapply runs_bind; [by apply (splitTransaction_runs T Tv targets tv)|]. intros U w2 HU.
  assert (length (map (λ t, inter t Tv) tv) = k) as Hlu by (by rewrite length_map).
  eapply runs_bind; [exact (majorityClass_runs U _ w2 HU Hlu)|]. intros y w3 (i & _ & Hmaj & Hy).
  rewrite map_map in Hmaj.
  eapply runs_bind; [exact (getMaxGini_runs S sv U _ R w3 HS HU Hlu HR)|]. intros [g a] w4 [Hg Ha]. cbn [fst snd] in *.
  assert (node_of tv Tv g (Zsum Tv) y) as Hnode.
  { split; [done|]. split; [done|]. by exists i. }
  destruct (stop (length T) (Zsum Tv) g R) eqn:Estop.
  - apply runs_ret. cbn [grown]. split; [done|].
    destruct Ha as [Ha|[-> _]]; [right; right; by exists a|right; by left].
  - unfold stop in Estop. rewrite !orb_false_iff in Estop. destruct Estop as [[[_ Es] _] Eg].
    destruct Ha as [Ha|[_ Ha]]; [|by rewrite Ha in Eg].
    pose proof (ones_bounds _ (proj2 (proj2 HT))) as Hc. rewrite (proj1 (proj2 HT)) in Hc.
    pose proof (sz_rows _ _ BS). rewrite Z.mod_small in Es by lia. apply Z.leb_gt in Es.
    rewrite Forall_forall in HR. pose proof (HR a Ha) as Hra. cbn in Hra. rewrite <- Forall_forall in HR.
    destruct (lookup_lt_is_Some_2 S (Z.to_nat a)) as [S_a HSa]; [lia|].
    destruct (Forall2_lookup_l _ _ _ _ _ HS HSa) as (sa & Hsa & Hs).
    eapply runs_bind.
    { apply (runs_lift_eq _ S_a). rewrite <- (Z2Nat.id a) by lia. by apply vec_at_lookup. }
    intros ? ? [-> ->].
    eapply runs_bind.
    { instantiate (1 := λ cs _, Forall2 (λ c col, grown sv tv c (inter Tv col) (erase R a)) cs sa).
      clear HSa Hsa. revert w4. induction Hs as [|S_j col S_a sa Hj _ IHs]; intros w4; cbn [mmap];
        [apply runs_ret; constructor|].
      eapply runs_bind.
      { eapply runs_bind; [by apply (v_mul_bits BS)|]. intros T_ w5 HT_.
        apply (IH T_ (inter Tv col)); [done|by apply erase_Forall|]. pose proof (erase_length R a Ha). lia. }
      intros c w5 Hc5. eapply runs_bind; [apply IHs|]. intros cs w6 Hcs. apply runs_ret. by constructor. }
    intros cs w5 Hcs. apply runs_ret. cbn [grown]. split; [done|].
    destruct cs as [|c0 cs0]; [right; right; by exists a|]. rewrite (Bits_length _ _ HT) in Es.
    rewrite (proj1 (proj2 HT)). split; [exact Es|].
    exists a, sa. split; [done|]. split; [done|]. split.
    { rewrite <- (Z2Nat.id a) by lia. by apply vec_at_lookup. }
    by apply all2_Forall2.
Qed.
End Grow.

(** ** Prediction *)

(** The bits of an attribute of [len] values that has the value [v]. *)
Definition onehot (len v : nat) : list Z := map (λ i, if (i =? v)%nat then 1 else 0) (seq 0 len).

(** The class at the end of a row's path; 0 when there is no branch for it. *)
Fixpoint path_class (t : node sharing) (vals : list nat) : Z :=
  let '(mkNode _ _ y a cs) := t in
  match cs with
  | [] => Zsum y / FixedPoint.shift
  | _ => match a with
         | Some r => nth (nth (Z.to_nat r) vals 0%nat) (map (λ c, path_class c vals) cs) 0
         | None => 0
         end
  end.

(** The value [weighted] adds up. *)
Fixpoint selected (cls : list Z) (i v : nat) : Z :=
  match cls with
  | [] => 0
  | c :: cls => (if (i =? v)%nat then 1 else 0) * c + selected cls (S i) v
  end.

Lemma selected_nth cls i v : selected cls i v = if decide (i ≤ v)%nat then nth (v - i) cls 0 else 0.
Proof.
  revert i; induction cls as [|c cls IH]; intros i; cbn [selected].
  - destruct (decide _); [|done]. by destruct (v - i)%nat.
  - rewrite IH. destruct (Nat.eqb_spec i v) as [->|Hne].
    + rewrite decide_False, decide_True by lia. rewrite Nat.sub_diag. cbn. lia.
    + destruct (decide (S i ≤ v)%nat).
      * rewrite decide_True by lia. replace (v - i)%nat with (S (v - S i)) by lia. cbn. lia.
      * rewrite decide_False by lia. lia.
Qed.

Section Predict.
Context `{DL : DecLaws} `{E : Env} `{V : !ValidEnv E} {TB : Z} `{TL : !TripleLaws TB E}.
#[local] Existing Instance fp_value.
Import FixedPoint FixedDouble FixedCompare.

(** Local values of a prediction, for [k] classes and at most [W] values per attribute. *)
Definition step_size (k : nat) : Z := whole_size (T := TB) (Z.of_nat k + 1).
Definition predict_size (k W : nat) : Z := Z.max (Z.of_nat k * shift) (Z.of_nat W * step_size k).

Context {Q : Z} {k W : nat}.
Hypothesis Q_nonneg : 0 ≤ Q.
Hypothesis predict_wire : Z.max Q (predict_size k W) + TB * shift < wire.

(** One row: for every attribute the shares of its bits. *)
Definition row_bits (data : list (list sharing)) (vals : list nat) : Prop :=
  Forall2 (λ xs v, Forall2 (WShares Q) xs (onehot (length xs) v)) data vals.

Lemma step_size_nonneg : 0 ≤ step_size k.
Proof.
  unfold step_size, whole_size. pose proof T_nonneg (T := TB). pose proof shift_pos.
  assert (0 ≤ n * TB) by nia. nia.
Qed.

Lemma weighted_runs {A} (f : A → M sharing) (cs : list A) (cls : list Z) bits v i acc a w :
  Forall2 (λ c cl, 0 ≤ cl ≤ Z.of_nat k ∧ ∀ w, runs (f c) w (λ x _, WShares (predict_size k W) x cl)) cs cls →
  Forall2 (WShares Q) bits (onehot (length bits) v) → (i + length cs ≤ length bits)%nat →
  WShares (Z.of_nat i * step_size k) acc a →
  runs (weighted f bits cs (Z.of_nat i) acc) w
    (λ x _, WShares (Z.of_nat (i + length cs) * step_size k) x (a + selected cls i v)).
Proof.
  intros Hcs Hb. revert i acc a w. induction Hcs as [|c cl cs cls [Hcl Hc] _ IH]; intros i acc a w Hl Ha;
    cbn [weighted selected length].
  - apply runs_ret. rewrite Nat.add_0_r. eapply WShares_eq; [exact Ha|lia].
  - cbn [length] in Hl. eapply runs_bind; [apply Hc|]. intros p w1 Hp.
    destruct (lookup_lt_is_Some_2 bits i ltac:(lia)) as [x Hx].
    destruct (Forall2_lookup_l _ _ _ _ _ Hb Hx) as (b & Hbv & Hxb).
    unfold onehot in Hbv. rewrite list_lookup_fmap, lookup_seq_lt in Hbv by lia. injection Hbv as <-.
    eapply runs_bind; [apply (runs_lift_eq _ x); by apply vec_at_lookup|]. intros ? ? [-> ->].
    pose proof predict_wire as Hw. pose proof step_size_nonneg as Hs0.
    eapply runs_bind.
    { apply (s_mul_whole x p (if (i =? v)%nat then 1 else 0) cl (Z.max Q (predict_size k W)) (Z.of_nat k + 1)).
      - eapply WShares_weaken; [exact Hxb|lia].
      - eapply WShares_weaken; [exact Hp|lia].
      - destruct (_ =? _)%nat; lia.
      - lia.
      - unfold predict_size. lia.
      - exact Hw. }
    intros z w2 Hz.
    replace (Z.of_nat i + 1) with (Z.of_nat (S i)) by lia.
    replace (i + S (length cs))%nat with (S i + length cs)%nat by lia.
    eapply runs_mono; [apply (IH (S i) (s_add acc z) (a + (if (i =? v)%nat then 1 else 0) * cl)); [lia|]|].
    + eapply WShares_weaken; [exact (WShares_add _ _ _ _ _ _ Ha Hz)|]. fold (step_size k). lia.
    + cbv beta. intros x' w3 Hx'. eapply WShares_eq; [exact Hx'|lia].
Qed.

Lemma Zsum_const_share i : Zsum (getConstantShare (fp i)) / shift = i.
Proof. rewrite (proj2 (proj2 (WShares_const i))). apply Z.div_mul. done. Qed.

Lemma majority_lt counts i : majority counts i → (i < length counts)%nat.
Proof. intros (c & Hc & _). by eapply lookup_lt_Some. Qed.

Lemma path_class_range sv tv t Tv R vals :
  length tv = k → grown sv tv t Tv R → 0 ≤ path_class t vals ≤ Z.of_nat k.
Proof.
  intros Hk. revert Tv R. induction t as [g s y a cs IH] using node_induction. intros Tv R [Hn Hc].
  cbn [path_class]. destruct cs as [|c0 cs0].
  - destruct Hn as (_ & _ & i & Hi & ->). rewrite Zsum_const_share.
    apply majority_lt in Hi. rewrite length_map in Hi. lia.
  - destruct Hc as (_ & r & sa & -> & _ & _ & Hall). apply all2_Forall2 in Hall.
    set (v := nth (Z.to_nat r) vals 0%nat). clearbody v. clear Hn.
    revert Hall. generalize (c0 :: cs0) IH. clear c0 cs0 IH. intros cs IH Hall.
    revert v. induction Hall as [|c col cs sa Hc _ IHc]; intros v; [destruct v; simpl; lia|].
    apply Forall_cons in IH as [IH1 IH2]. destruct v as [|v]; cbn [map nth]; [by eapply IH1|by apply IHc].
Qed.

Lemma predict_runs sv tv t Tv R data vals w :
  length tv = k → Forall (λ sa, (length sa ≤ W)%nat) sv →
  Forall2 (λ (xs : list sharing) (sa : list (list Z)), length xs = length sa) data sv →
  row_bits data vals → Forall (λ r, 0 ≤ r) R → grown sv tv t Tv R →
  runs (predict t data) w (λ x _, WShares (predict_size k W) x (path_class t vals)).
Proof.
  intros Hk HW Hd Hrow. revert Tv R w. induction t as [g s y a cs IH] using node_induction.
  intros Tv R w HR Hg. pose proof (λ c col r Hc, path_class_range sv tv c (inter Tv col) (erase R r) vals Hk Hc) as Hrange.
  destruct Hg as [Hn Hc]. cbn [predict path_class]. destruct cs as [|c0 cs0].
  - apply runs_ret. destruct Hn as (_ & _ & i & Hi & ->). rewrite Zsum_const_share.
    eapply WShares_weaken; [apply WShares_const|]. apply majority_lt in Hi. rewrite length_map in Hi.
    unfold predict_size, shift. lia.
  - destruct Hc as (_ & r & sa & -> & Hr & Hsa & Hall). apply all2_Forall2 in Hall.
    eapply (runs_bind _ _ _ (λ b w', b = r ∧ w' = w)); [by apply runs_ret|]. intros ? ? [-> ->].
    rewrite Forall_forall in HR. pose proof (HR r Hr) as Hr0. cbn in Hr0. rewrite <- Forall_forall in HR.
    assert (sv !! Z.to_nat r = Some sa) as Hsv.
    { unfold vec_at in Hsa. destruct (r <? 0); [done|]. destruct (sv !! Z.to_nat r); congruence. }
    destruct (Forall2_lookup_r _ _ _ _ _ Hd Hsv) as (bits & Hbits & Hlen).
    destruct (Forall2_lookup_l _ _ _ _ _ Hrow Hbits) as (v & Hv & Hb).
    rewrite (nth_lookup_Some _ _ _ _ Hv).
    eapply runs_bind.
    { apply (runs_lift_eq _ bits). rewrite <- (Z2Nat.id r) by lia. by apply vec_at_lookup. }
    intros ? ? [-> ->]. pose proof (Forall2_length _ _ _ Hall) as Hlc.
    pose proof (Forall_lookup_1 _ _ _ _ HW Hsv) as HWs. cbn in HWs. pose proof step_size_nonneg.
    eapply runs_mono.
    + apply (weighted_runs _ (c0 :: cs0) (map (λ c, path_class c vals) (c0 :: cs0)) bits v 0 s_zero 0); [|done|lia|].
      * clear Hlc Hn Hsa Hsv Hlen HWs. revert Hall IH. generalize (c0 :: cs0). intros cs Hall IH.
        induction Hall as [|c col cs sa' Hc _ IHc]; [constructor|].
        apply Forall_cons in IH as [IH1 IH2]. constructor; [|exact (IHc IH2)].
        split; [by eapply Hrange|]. intros w'. eapply IH1; [by apply erase_Forall|exact Hc].
      * eapply WShares_weaken; [apply WShares_zero|lia].
    + cbv beta. intros x w' Hx. rewrite selected_nth, decide_True, Nat.sub_0_r in Hx by lia.
      eapply WShares_weaken; [eapply WShares_eq; [exact Hx|lia]|].
      unfold predict_size. rewrite Nat.add_0_l, Hlc. nia.
Qed.
End Predict.

(** ** JSON *)

(** What the constructor from JSON gives back: a leaf has no attribute. *)
Fixpoint reread {Y} (t : node Y) : node Y :=
  let '(mkNode g s y a cs) := t in
  mkNode g s y (match cs with [] => None | _ => a end) (map reread cs).

Lemma predict_reread `{DF : DecFloat} `{E : Env} t data w : predict (reread t) data w = predict t data w.
Proof.
  revert w. induction t as [g s y a cs IH] using node_induction. intros w. cbn [reread predict].
  destruct cs as [|c0 cs0]; [done|]. cbn [map].
  change (reread c0 :: map reread cs0) with (map reread (c0 :: cs0)).
  assert (∀ attr i acc w, weighted (λ child, predict child data) attr (map reread (c0 :: cs0)) i acc w
    = weighted (λ child, predict child data) attr (c0 :: cs0) i acc w) as H.
  { intros attr. revert IH. generalize (c0 :: cs0). induction 1 as [|c cs Hc _ IHcs]; intros i acc w'; [done|].
    cbn [map weighted]. unfold bind. rewrite Hc. destruct (predict c data w') as [[p w1]|]; [|done]. cbn.
    destruct (vec_at attr i); [|done]. cbn. destruct (s_mul _ _ _) as [[z w2]|]; [|done]. cbn. apply IHcs. }
  unfold bind, lift. destruct a as [a|]; [|done]. cbn [Share.ret rbind].
  destruct (vec_at data a); cbn [rbind]; [apply H|done].
Qed.

Section JsonTrip.
Context `{CL : CppIntLaws} `{JL : JsonLib} `{JW : !JsonLaws JL}.
Import FixedPoint FixedDouble.

(** A tree whose numbers fit: the class is whole, sizes and attributes are [int]s. *)
Fixpoint writable (t : node Z) : Prop :=
  let '(mkNode g s y a cs) := t in
  (∃ k, g = Double.Fin k) ∧ - 2 ^ 31 ≤ s < 2 ^ 31
  ∧ (∃ j, y = j * shift ∧ Z.abs j ≤ 2 ^ 26)
  ∧ match cs with [] => True | _ => ∃ r, a = Some r ∧ - 2 ^ 31 ≤ r < 2 ^ 31 end
  ∧ fold_right and True (map writable cs).

Lemma class_trip j : Z.abs j ≤ 2 ^ 26 → of_double (getDoubleVal (j * shift)) = Ok (j * shift).
Proof.
  intros Hj. rewrite getDoubleVal_int by (unfold shift; lia). apply of_double_int. lia.
Qed.

(** Reading the fields of an object. *)
Lemma of_json_object fuel kvs kg s j a cs ts :
  NoDup kvs.*1 →
  field "gini" (j_double (Double.Fin kg)) ∈ kvs → field "size" (j_int s) ∈ kvs →
  field "class" (j_double (getDoubleVal (j * shift))) ∈ kvs → field "children" (j_array cs) ∈ kvs →
  match a with
  | None => "att_class"%string ∉ kvs.*1
  | Some r => field "att_class" (j_int r) ∈ kvs ∧ - 2 ^ 31 ≤ r < 2 ^ 31
  end →
  - 2 ^ 31 ≤ s < 2 ^ 31 → Z.abs j ≤ 2 ^ 26 → traverse (of_json fuel) cs = Ok ts →
  of_json (S fuel) (j_object kvs) = Ok (mkNode (Double.Fin kg) s (j * shift) a ts).
Proof.
  intros Hnd H1 H2 H3 H4 Ha Hs Hj Ht. cbn [of_json].
  rewrite (at_key_of _ _ _ Hnd H1), rbind_ok, get_double_of, rbind_ok.
  rewrite (at_key_of _ _ _ Hnd H2), rbind_ok, get_int_of, rbind_ok by done.
  rewrite (at_key_of _ _ _ Hnd H3), rbind_ok.
  pose proof (class_trip j Hj) as Hcl. rewrite getDoubleVal_int in Hcl |- * by (unfold shift; lia).
  rewrite get_double_of, rbind_ok, Hcl, rbind_ok, contains_of.
  destruct a as [r|].
  - destruct Ha as [Ha Hr]. rewrite bool_decide_eq_true_2 by exact (list_elem_of_fmap_2 fst kvs _ Ha).
    rewrite (at_key_of _ _ _ Hnd Ha), rbind_ok. unfold rmap. rewrite get_int_of, !rbind_ok by done.
    by rewrite (at_key_of _ _ _ Hnd H4), rbind_ok, elements_of, Ht.
  - rewrite bool_decide_eq_false_2, rbind_ok by done.
    by rewrite (at_key_of _ _ _ Hnd H4), rbind_ok, elements_of, Ht.
Qed.

Lemma json_trip t fuel : writable t → (depth t ≤ fuel)%nat → of_json fuel (createTreeJson t) = Ok (reread t).
Proof.
  revert fuel. induction t as [g s y a cs IH] using node_induction.
  intros fuel ((kg & ->) & Hs & (j & -> & Hj) & Ha & Hcs) Hf. destruct fuel as [|fuel]; [simpl in Hf; lia|].
  assert (traverse (of_json fuel) (map createTreeJson cs) = Ok (map reread cs)) as Ht.
  { assert (Forall (λ c, (depth c ≤ fuel)%nat) cs) as Hd.
    { cbn [depth] in Hf. apply le_S_n in Hf. clear -Hf. induction cs as [|c cs IHd]; [constructor|].
      cbn [map fold_right] in Hf. constructor; [lia|apply IHd; lia]. }
    clear Hf Ha. induction IH as [|c cs Hc _ IHcs]; [done|]. apply Forall_cons in Hd as [Hd1 Hd2].
    destruct Hcs as [Hw Hws]. cbn [map traverse]. rewrite (Hc fuel Hw Hd1), rbind_ok, (IHcs Hws Hd2). done. }
  cbn [createTreeJson reread]. destruct cs as [|c0 cs0].
  - apply (of_json_object _ _ _ _ _ _ (map createTreeJson [])); try done; try set_solver.
    cbn. apply (bool_decide_unpack _). vm_compute. done.
  - destruct Ha as (r & -> & Hr).
    apply (of_json_object _ _ _ _ _ _ (map createTreeJson (c0 :: cs0))); try done; try set_solver.
    cbn. apply (bool_decide_unpack _). vm_compute. done.
Qed.
End JsonTrip.

(** Every level uses up an attribute. *)
Lemma grown_depth `{E : Env} `{SV : ShareValue} sv tv t Tv R :
  grown sv tv t Tv R → (depth t ≤ length R + 1)%nat.
Proof.
  revert Tv R. induction t as [g s y a cs IH] using node_induction. intros Tv R [_ Hc]. cbn [depth].
  destruct cs as [|c0 cs0]; [simpl; lia|]. destruct Hc as (_ & r & sa & _ & Hr & _ & Hall).
  apply all2_Forall2 in Hall. pose proof (erase_length R r Hr) as Hl. revert IH Hall.
  generalize (c0 :: cs0). clear c0 cs0. intros cs IH Hall.
  enough (∀ b, (length (erase R r) + 1 ≤ b)%nat → (fold_right Nat.max 0 (map depth cs) ≤ b)%nat) as H
    by (specialize (H (length R) ltac:(lia)); lia).
  intros b Hb. induction Hall as [|c col cs sa Hc _ IHc]; [simpl; lia|].
  apply Forall_cons in IH as [IH1 IH2]. specialize (IH1 _ _ Hc). specialize (IHc IH2). cbn [map fold_right]. lia.
Qed.

(** What a party has of a tree of at most [2^26] rows can be written. *)
Lemma grown_writable `{E : Env} `{V : !ValidEnv E} `{DF : DecFloat} sv tv t Tv R i :
  @grown E fp_value sv tv t Tv R → Forall bit Tv → Forall (Forall (Forall bit)) sv → Z.of_nat (length Tv) ≤ 2 ^ 26 →
  Z.of_nat (length tv) ≤ 2 ^ 20 → Forall (λ r, 0 ≤ r < 2 ^ 31) R → writable (local i t).
Proof.
  intros Hg HT Hs Hl Hk HR. revert Tv R Hg HT Hl HR. induction t as [g s y a cs IH] using node_induction.
  intros Tv R [(-> & Hgk & j & Hj & ->) Hc] HT Hl HR. pose proof (ones_bounds _ HT) as Hcnt.
  apply majority_lt in Hj. rewrite length_map in Hj. cbn [local writable].
  split_and!; [exact Hgk|lia|lia| | |].
  - assert (Forall (λ v, ∃ c, v = c * FixedPoint.shift ∧ Z.abs c ≤ 2 ^ 26)
      (@getConstantShare fp_value E (FixedCompare.fp (Z.of_nat j)))) as Hall.
    { apply Forall_lookup. intros p v Hv. unfold getConstantShare, s_addc in Hv.
      apply lookup_zip_with_Some in Hv as (q & z & -> & _ & Hz).
      apply list_elem_of_lookup_2, elem_of_replicate_inv in Hz. subst z.
      destruct (q =? sp_id)%nat; [exists (Z.of_nat j)|exists 0]; (split; [reflexivity|lia]). }
    destruct (nth_in_or_default (i - 1) (@getConstantShare fp_value E (FixedCompare.fp (Z.of_nat j))) 0) as [Hi| ->].
    + rewrite Forall_forall in Hall. apply Hall, list_elem_of_In, Hi.
    + exists 0. split; [reflexivity|lia].
  - destruct cs as [|c0 cs0]; [done|]. destruct Hc as (_ & r & sa & -> & Hr & _).
    exists r. split; [done|]. rewrite Forall_forall in HR. specialize (HR r Hr). cbn in HR. lia.
  - destruct cs as [|c0 cs0]; [done|]. destruct Hc as (_ & r & sa & _ & Hr & Hsa & Hall).
    apply all2_Forall2 in Hall.
    assert (Forall (Forall bit) sa) as Hsb.
    { unfold vec_at in Hsa. destruct (r <? 0); [done|]. destruct (sv !! Z.to_nat r) as [sa'|] eqn:E'; [|done].
      injection Hsa as ->. by eapply Forall_lookup_1 in Hs. }
    clear Hsa. revert IH Hall. generalize (c0 :: cs0). clear c0 cs0. intros cs IH Hall.
    induction Hall as [|c col cs sa Hc _ IHc]; [done|]. apply Forall_cons in IH as [IH1 IH2].
    apply Forall_cons in Hsb as [Hcol Hsb]. cbn [map fold_right]. split; [|by apply IHc].
    apply (IH1 (inter Tv col) (erase R r)); [exact Hc|by apply inter_bits| |by apply erase_Forall].
    unfold inter. rewrite length_zip_with. lia.
Qed.

Lemma local_shape i t : local i (reread t) = reread (local i t) ∧ depth (local i t) = depth t.
Proof.
  induction t as [g s y a cs IH] using node_induction. cbn [local reread depth].
  assert (map (local i) (map reread cs) = map reread (map (local i) cs) ∧ map depth (map (local i) cs) = map depth cs)
    as [-> ->]; [|by destruct cs].
  induction IH as [|c cs [Hc Hd] _ [IH1 IH2]]; [done|]. cbn [map]. by rewrite Hc, Hd, IH1, IH2.
Qed.

(** * Theorems *)

(** [createTree] terminates (one call per level, and every split uses up an
    attribute, so the depth is at most their number plus one) and returns the
    tree of its rows: every node has the exact number of the training rows that
    reach it and the constant share of their majority class (the last of
    equals), a node is split only on an attribute that was not used above it
    and only while it has more than half of the rows, and its children have the
    rows of the attribute's values.  Only the choice of the attribute depends
    on the rounding of the Gini values. *)
Theorem createTree_grows `{DL : DecLaws} {E : Env} {V : ValidEnv E} {TB} {TL : TripleLaws TB E}
    `{CL : CppIntLaws} {Q m k} (SZ : sizes (TB := TB) Q m k) fuel T Tv S sv targets tv R w :
  Bits Q m T Tv → Forall2 (Forall2 (Bits Q m)) S sv → Forall2 (Bits Q m) targets tv → length tv = k →
  Forall (λ r, 0 ≤ r < Z.of_nat (length S)) R → (length R < fuel)%nat →
  ∃ t w', createTree fuel T S targets R w = Ok (t, w')
    ∧ @grown E fp_value sv tv t Tv R ∧ (depth t ≤ length R + 1)%nat.
Proof.
  intros HT HS Htg Hk HR Hf.
  destruct (createTree_runs SZ fuel T Tv S sv targets tv R w HT HS Htg Hk HR Hf) as (t & w' & Ht & Hg).
  exists t, w'. split; [done|]. split; [done|]. by eapply grown_depth.
Qed.

(** [predict] on the shares of a row (for every attribute the bits of its
    value) opens, at every party, to the class at the end of the row's path
    through the tree, and to nothing else: the branches not taken contribute 0.
    It says the same of the tree as it is read back from JSON. *)
Theorem predict_follows_path `{DL : DecLaws} {E : Env} {V : ValidEnv E} {TB} {TL : TripleLaws TB E}
    {Q k W} sv tv t Tv R data vals w :
  0 ≤ Q → Z.max Q (predict_size (TB := TB) k W) + TB * FixedPoint.shift < wire →
  length tv = k → Forall (λ sa, (length sa ≤ W)%nat) sv →
  Forall2 (λ (xs : list sharing) (sa : list (list Z)), length xs = length sa) data sv →
  row_bits (Q := Q) data vals → Forall (λ r, 0 ≤ r) R → @grown E fp_value sv tv t Tv R →
  ∃ x w', predict t data w = Ok (x, w') ∧ predict (reread t) data w = Ok (x, w')
    ∧ ∀ me, @recons_at fp_value E me x = Ok (path_class t vals * FixedPoint.shift).
Proof.
  intros HQ Hw Hk HW Hd Hrow HR Hg.
  destruct (predict_runs HQ Hw sv tv t Tv R data vals w Hk HW Hd Hrow HR Hg) as (x & w' & Hx & Hs).
  exists x, w'. split; [done|]. split; [by rewrite predict_reread|]. intros me.
  eapply recons_whole; [exact Hs|]. pose proof (T_nonneg (T := TB)). unfold FixedPoint.shift in *. lia.
Qed.

(** C27: the tree [createTree] returns survives the way through JSON at every
    party: reading what party [i] wrote of it gives party [i]'s part again
    (without the attribute of the leaves, which is not written). *)
Theorem tree_json_roundtrip `{DF : DecFloat} {E : Env} {V : ValidEnv E} `{CL : CppIntLaws}
    `{JL : JsonLib} {JW : JsonLaws JL} sv tv t Tv R i fuel :
  @grown E fp_value sv tv t Tv R → Forall bit Tv → Forall (Forall (Forall bit)) sv →
  Z.of_nat (length Tv) ≤ 2 ^ 26 → Z.of_nat (length tv) ≤ 2 ^ 20 → Forall (λ r, 0 ≤ r < 2 ^ 31) R →
  (depth t ≤ fuel)%nat →
  of_json fuel (createTreeJson (local i t)) = Ok (local i (reread t)).
Proof.
  intros Hg HT Hs Hl Hk HR Hf. destruct (local_shape i t) as [-> Hd].
  apply json_trip; [|by rewrite Hd].
  by eapply grown_writable.
Qed.

(** ** A training set of four rows, two attributes and two classes *)

Module Toy.
#[local] Existing Instance rat_dec.
#[local] Existing Instance steady_env.
#[local] Existing Instance nearest.

Definition Q : Z := bit_product (TB := 36).
Definition share_bit (k : Z) : sharing :=
  [(k + 3) * FixedPoint.shift; -2 * FixedPoint.shift; - FixedPoint.shift].
Definition share_bits : list Z → list sharing := map share_bit.
Definition Tv : list Z := [1; 1; 1; 1].
Definition sv : list (list (list Z)) := [[[1; 1; 0; 0]; [0; 0; 1; 1]]; [[1; 0; 1; 0]; [0; 1; 0; 1]]].
Definition tv : list (list Z) := [[1; 1; 0; 1]; [0; 0; 1; 0]].
Definition S : list (list (list sharing)) := map (map share_bits) sv.
Definition targets : list (list sharing) := map share_bits tv.

Ltac bits := unfold bit; repeat first [apply Forall_nil_2 | apply Forall_cons_2 | reflexivity | lia | split].

Lemma toy_bit_sizes : bit_sizes (TB := 36) Q 4.
Proof. split; [vm_compute; discriminate|vm_compute; discriminate|vm_compute; reflexivity|vm_compute; reflexivity]. Qed.

Lemma toy_sizes : sizes (TB := 36) Q 4 2.
Proof.
  split; [exact toy_bit_sizes| | |split; [|split]| |]; try (vm_compute; reflexivity).
  split; [lia|vm_compute; discriminate].
Qed.

Lemma share_bit_shares k : bit k → WShares Q (share_bit k) k.
Proof.
  intros [-> | ->]; (split_and!; [reflexivity|repeat constructor; vm_compute; discriminate|reflexivity]).
Qed.

Lemma share_bits_Bits ks : Forall bit ks → Bits Q (length ks) (share_bits ks) ks.
Proof.
  intros H. split; [|done]. unfold share_bits. apply Forall2_fmap_l.
  induction H; constructor; [by apply share_bit_shares|done].
Qed.

Lemma all_bits : Forall bit Tv ∧ Forall (Forall (Forall bit)) sv ∧ Forall (Forall bit) tv.
Proof. split_and!; bits. Qed.

Lemma columns_Bits cols :
  Forall (λ ks, Forall bit ks ∧ length ks = 4%nat) cols → Forall2 (Bits Q 4) (map share_bits cols) cols.
Proof.
  intros H. apply Forall2_fmap_l. induction H as [|ks cols [Hb Hl] _ IH]; constructor; [|exact IH].
  unfold compose. rewrite <- Hl. by apply share_bits_Bits.
Qed.

Lemma S_Bits : Forall2 (Forall2 (Bits Q 4)) S sv.
Proof. constructor; [|constructor; [|constructor]]; apply columns_Bits; bits. Qed.

Lemma targets_Bits : Forall2 (Bits Q 4) targets tv.
Proof. apply columns_Bits; bits. Qed.

(** The tree that is grown, and the state it leaves. *)
Definition grown_tree : node sharing * World :=
  match createTree 3 (share_bits Tv) S targets [0; 1] world0 with
  | Ok r => r
  | Throw _ => (mkNode (Double.Fin 0) 0 [] None [], world0)
  end.
Lemma toy_grown : @grown steady_env (@fp_value rat_dec) sv tv grown_tree.1 Tv [0; 1].
Proof.
  destruct (@createTree_runs rat_dec rat_laws steady_env _ 36 _ nearest nearest_laws Q 4 2 toy_sizes 3 (share_bits Tv) Tv S sv targets tv [0; 1] world0)
    as (t & w' & Ht & Hg).
  - apply share_bits_Bits, all_bits.
  - exact S_Bits.
  - exact targets_Bits.
  - reflexivity.
  - repeat constructor; vm_compute; (reflexivity || discriminate).
  - simpl; lia.
  - unfold grown_tree. rewrite Ht. exact Hg.
Qed.
End Toy.

Lemma createTree_grows_witness :
  ∃ t w', @createTree rat_dec steady_env nearest 3 (Toy.share_bits Toy.Tv) Toy.S Toy.targets [0; 1] world0 = Ok (t, w')
    ∧ @grown steady_env (@fp_value rat_dec) Toy.sv Toy.tv t Toy.Tv [0; 1] ∧ (depth t ≤ 2 + 1)%nat.
Proof.
  refine (@createTree_grows rat_dec rat_laws steady_env _ 36 _ nearest nearest_laws Toy.Q 4 2 Toy.toy_sizes 3
    (Toy.share_bits Toy.Tv) Toy.Tv Toy.S Toy.sv Toy.targets Toy.tv [0; 1] world0 _ _ _ _ _ _).
  - apply Toy.share_bits_Bits, Toy.all_bits.
  - exact Toy.S_Bits.
  - exact Toy.targets_Bits.
  - reflexivity.
  - repeat constructor; vm_compute; (reflexivity || discriminate).
  - simpl; lia.
Defined.

Lemma predict_follows_path_witness :
  let data := [Toy.share_bits [0; 1]; Toy.share_bits [1; 0]] in
  let t := Toy.grown_tree.1 in
  let w := Toy.grown_tree.2 in
  ∃ x w', @predict rat_dec steady_env t data w = Ok (x, w') ∧ @predict rat_dec steady_env (reread t) data w = Ok (x, w')
    ∧ ∀ me, @recons_at (@fp_value rat_dec) steady_env me x = Ok (path_class t [1%nat; 0%nat] * FixedPoint.shift).
Proof.
  intros data t w.
  refine (@predict_follows_path rat_dec rat_laws steady_env _ 36 _ Toy.Q 2 2 Toy.sv Toy.tv t Toy.Tv [0; 1]
    data [1%nat; 0%nat] w _ _ _ _ _ _ _ _).
  - vm_compute; discriminate.
  - vm_compute; reflexivity.
  - reflexivity.
  - repeat constructor.
  - repeat constructor.
  - constructor; [|constructor; [|constructor]]; (constructor; [|constructor; [|constructor]]); apply Toy.share_bit_shares; unfold bit; cbn; lia.
  - repeat constructor; discriminate.
  - exact Toy.toy_grown.
Defined.

Lemma tree_json_roundtrip_witness :
  let t := Toy.grown_tree.1 in
  @of_json json_tree 3 (@createTreeJson nearest json_tree (local 1 t)) = Ok (local 1 (reread t)).
Proof.
  intros t.
  refine (@tree_json_roundtrip rat_dec steady_env _ nearest nearest_laws json_tree _
    Toy.sv Toy.tv t Toy.Tv [0; 1] 1 3 _ _ _ _ _ _ _).
  - exact Toy.toy_grown.
  - apply Toy.all_bits.
  - apply Toy.all_bits.
  - vm_compute; discriminate.
  - vm_compute; discriminate.
  - repeat constructor; vm_compute; (reflexivity || discriminate).
  - exact (grown_depth _ _ _ _ _ Toy.toy_grown).
Defined.
