(* ===== verification/RoundsTrees.v ===== *)
(** * Decision trees over the network  (GBDT/SID3.cpp, Share/Share.hpp)

    The programs that each party runs to divide shares, to train the tree of
    [SID3.v] and to predict with it.  Training opens the sizes of the nodes, the
    class counts and the Gini values, so all parties take the same branches and
    build trees of one shape; [training_over_the_network] says that the tree of
    each party is its part of the joint tree. *)
From stdpp Require Import base list numbers sets strings gmap relations.
From Stdlib Require Import ZArith Lia.
From S2P Require Import Prelude FixedPoint Random TripleHandler Share SharePF Mailbox Rounds RoundsDivision RoundsVector RoundsRealises ShareFP Double FixedCompare FixedCompareCorrect RoundsFixed FixedWhole FixedInverse Json SID3 SID3Correct.
Import Address Message Server.
#[local] Open Scope Z_scope.
#[local] Open Scope qmpc_scope.
Import FixedCompare SID3.

Module AtPartyTrees.
Import FixedPoint FixedDouble AtParty.

Section Programs.
Context `{DF : DecFloat} `{E : Env} `{CI : CppInt} {R : Type} (id : nat → AddressId) (me : nat).
#[local] Existing Instance fp_value.
#[local] Existing Instance fp_text.
#[local] Abbreviation L := (@L R).
#[local] Abbreviation l_mul := (l_mul (R := R) id me).
#[local] Abbreviation l_v_mul := (l_v_mul (R := R) id me).
#[local] Abbreviation l_open := (l_open (R := R) id me).
#[local] Abbreviation l_open_vec := (l_open_vec (R := R) id me).
#[local] Abbreviation l_div := (l_div (R := R) id me).
#[local] Abbreviation l_addc := (l_addc me).

Definition l_sum (v : list Z) : Z := fold_left add v 0.

Definition l_dot (x y : list Z) : L Z := let& r := l_v_mul x y in ret (l_sum r).

Definition l_dataSize (T : list Z) : L Z :=
  let& size := l_open (l_sum T) in
  lift (Double.to_signed 32 (Double.add (getDoubleVal size) (Double.lit 1 10))).

Definition l_splitTransaction (T : list Z) (targets : list (list Z)) : L (list (list Z)) :=
  mmap (λ target, l_v_mul target T) targets.

Definition l_majorityClass (U : list (list Z)) : L Z :=
  let& base_count := mmap (λ u,
      let& count := l_open (l_sum u) in
      lift (Double.to_signed 32 (getDoubleVal count))) U in
  match max_element lt_int (zip base_count (map Z.of_nat (seq 0 (length base_count)))) with
  | None => throw (Undefined "max_element of an empty range")
  | Some (max_num, max_num_index) =>
      let& c := lift (of_integral max_num_index) in ret (l_addc 0 c)
  end.

Definition l_gini_entry (U : list (list Z)) (S_rj : list Z) : L Z :=
  let& x := mmap (λ U_i, l_dot U_i S_rj) U in
  let y := l_sum x in
  let& xx_ := l_v_mul x x in
  let xx := l_sum xx_ in
  let y := mul y (fp 8) in
  let y := l_addc y (fp 1) in
  l_div xx y.

Definition l_calcGini (S : list (list (list Z))) (U : list (list Z)) (R_ : list Z) : L (list (Double.double * Z)) :=
  let& entries := mmap (λ r,
      let& S_r := lift (vec_at S r) in
      let& gs := mmap (l_gini_entry U) S_r in
      ret (map (λ g, (g, r)) gs)) R_ in
  let Gini := concat entries in
  let& recGini := l_open_vec (map fst Gini) in
  ret (zip (map getDoubleVal recGini) (map snd Gini)).

Definition l_getMaxGini (S : list (list (list Z))) (U : list (list Z)) (R_ : list Z) : L (Double.double * Z) :=
  let& gini_indexies := l_calcGini S U R_ in
  match max_element lt_gini gini_indexies with
  | None => ret (Double.of_Z (-1), -1)
  | Some m => ret m
  end.

Fixpoint l_createTree (fuel : nat) (T : list Z) (S : list (list (list Z))) (targets : list (list Z)) (R_ : list Z) : L (node Z) :=
  match fuel with
  | O => throw OutOfFuel
  | Datatypes.S fuel =>
      let& size := l_dataSize T in
      let& U := l_splitTransaction T targets in
      let& y := l_majorityClass U in
      let& g := l_getMaxGini S U R_ in
      let '(gini_index, att_class) := g in
      if stop (length T) size gini_index R_ then ret (mkNode gini_index size y (Some att_class) [])
      else
        let R_' := erase R_ att_class in
        let& S_att := lift (vec_at S att_class) in
        let& children := mmap (λ S_j,
            let& T_ := l_v_mul T S_j in l_createTree fuel T_ S targets R_') S_att in
        ret (mkNode gini_index size y (Some att_class) children)
  end.

Fixpoint l_weighted {A} (f : A → L Z) (attribute_value : list Z) (cs : list A) (index : Z) (acc : Z) : L Z :=
  match cs with
  | [] => ret acc
  | child :: cs =>
      let& p := f child in
      let& v := lift (vec_at attribute_value index) in
      let& m := l_mul v p in
      l_weighted f attribute_value cs (index + 1) (add acc m)
  end.

Fixpoint l_predict (t : node Z) (data : list (list Z)) : L Z :=
  let '(mkNode _ _ y att_class children) := t in
  match children with
  | [] => ret y
  | _ =>
      let& a := match att_class with Some a => ret a | None => throw (Undefined "att_class") end in
      let& attribute_value := lift (vec_at data a) in
      l_weighted (λ child, l_predict child data) attribute_value children 0 0
  end.
End Programs.
End AtPartyTrees.

(** * Lemmas *)

(** ** Quotients *)

Section Quotients.
Context `{DL : DecLaws} `{E : Env} `{V : !ValidEnv E} {T : Z} `{TL : !TripleLaws T E} {Res : Type}.
#[local] Existing Instance fp_value.
#[local] Existing Instance fp_text.
#[local] Abbreviation realises_at := (realises_at (Res := Res)).
Import FixedPoint.

Lemma realises_at_getInv L B s s' v w :
  FShares B s v → part s s' → 0 < L ≤ Z.abs v → 0 ≤ B → invertible (T := T) L B →
  realises_at w part (s_getInv s) (λ id me, AtParty.l_getInv id me (s' me)).
Proof.
  intros Hs Ps Hv HB Hinv. pose proof Hinv as (H1 & H2 & H3). unfold s_getInv, AtParty.l_getInv.
  eapply realises_at_bind_runs; [by apply getRand_fp_runs|apply realises_draw|]. intros r r' w1 [-> _] Pr.
  set (rl := draws 1 1000 w) in *. destruct (blinder w) as [HR Hr]. fold rl in HR, Hr. set (R := Zsum rl) in *.
  assert (FShares (inv_operand B) s v) as Hs' by (eapply FShares_weaken; [exact Hs|unfold inv_operand; lia]).
  pose proof (Hr (inv_operand B) ltac:(unfold inv_operand; lia)) as Hr1.
  eapply realises_at_bind_runs; [apply (s_mul_fp _ _ _ _ _ _ Hs' Hr1 H1)|by apply (realises_at_mul_fp _ _ _ _ _ _ _ _ Hs' Hr1 H1)|].
  intros u u' w2 [Hu _] Pu. destruct (blinded_bounds L B v R u Hv HB Hinv HR Hu) as (_ & _ & _ & _ & Hi1).
  eapply realises_at_eq; [apply bind_assoc|].
  eapply realises_at_bind_runs; [by eapply (inverted_runs L B v R u)|by apply realises_at_invert|].
  intros i i' w3 [-> ->] Pi.
  eapply realises_at_bind_runs; [apply sharize_fp|by apply realises_share|]. intros x x' w4 Hx Px.
  assert (FShares (inv_size L) x (getInv (Zsum u))) as Hx' by (eapply FShares_weaken; [exact Hx|unfold inv_size; lia]).
  by apply (realises_at_mul_fp _ _ _ _ _ _ _ _ Hx' (Hr (inv_size L) (inv_size_ge L ltac:(lia))) H3).
Qed.

Lemma realises_at_div L B x y x' y' v u w :
  FShares B x v → FShares B y u → part x x' → part y y' → 0 < L ≤ Z.abs u → 0 ≤ B → invertible (T := T) L B →
  opened T (quot_size (T := T) L B) < wire →
  realises_at w part (s_div x y) (λ id me, AtParty.l_div id me (x' me) (y' me)).
Proof.
  intros Hx Hy Px Py Hu HB Hinv Ho. unfold s_div, AtParty.l_div.
  eapply realises_at_bind_runs; [by apply (getInv_fp L B y u)|by eapply (realises_at_getInv L B y y' u)|].
  intros i i' w1 [Hi _] Pi.
  assert (FShares (quot_size (T := T) L B) x v) as Hx' by (eapply FShares_weaken; [exact Hx|unfold quot_size; lia]).
  assert (FShares (quot_size (T := T) L B) i (Zsum i)) as Hi' by (eapply FShares_weaken; [exact Hi|unfold quot_size; lia]).
  by apply (realises_at_mul_fp _ _ _ _ _ _ _ _ Hx' Hi' Ho).
Qed.
End Quotients.

(** ** Training *)

Lemma vec_at_elem {A} (l : list A) i x : vec_at l i = Ok x → x ∈ l.
Proof.
  unfold vec_at. destruct (i <? 0); [done|]. destruct (l !! Z.to_nat i) as [y|] eqn:Hy; [|done].
  intros [= <-]. by eapply list_elem_of_lookup_2.
Qed.

Lemma Forall2_elem_l {A B} (P : A → B → Prop) l k x : Forall2 P l k → x ∈ l → ∃ y, P x y.
Proof.
  intros Hl Hx. apply list_elem_of_lookup in Hx as (i & Hi). destruct (Forall2_lookup_l _ _ _ _ _ Hl Hi) as (y & _ & Hy). by exists y.
Qed.

(** The trees of the parties are their parts of the joint tree. *)
Definition tree_of `{E : Env} : rel (node sharing) (node Z) := λ t t', ∀ me, me ∈ parties → t' me = local me t.

Section Training.
Context `{DL : DecLaws} `{E : Env} `{V : !ValidEnv E} {TB : Z} `{TL : !TripleLaws TB E} `{CL : CppIntLaws} {Res : Type}.
#[local] Existing Instance fp_value.
#[local] Existing Instance fp_text.
#[local] Abbreviation realises := (realises (Res := Res)).
#[local] Abbreviation realises_at := (realises_at (Res := Res)).
Import FixedPoint FixedDouble AtPartyTrees.
Lemma part_sum xs xs' : lst part xs xs' → part (Math.sum xs) (λ me, l_sum (xs' me)).
Proof.
  intros (ls & Hls & Hl). apply (part_closed _ (λ me, l_sum (map (λ f, f me) ls))); [|intros me Hme; by rewrite Hl].
  unfold Math.sum, l_sum. clear Hl.
  assert (∀ acc acc', part acc acc' →
    part (fold_left s_add xs acc) (λ me, fold_left add (map (λ f, f me) ls) (acc' me))) as H; [|exact (H _ _ part_zero)].
  induction Hls as [|x x' xs ls Hx _ IH]; intros acc acc' Ha; [exact Ha|].
  cbn [fold_left map]. by apply (IH (s_add acc x) (λ me, add (acc' me) (x' me))), part_zip.
Qed.

Lemma realises_at_v_mul_whole w xs ys xs' ys' ks ls B : Forall2 (WShares B) xs ks → Forall2 (WShares B) ys ls →
  length xs = length ys → B + TB * shift < wire → lst part xs xs' → lst part ys ys' →
  realises_at w (lst part) (Share.v_mul xs ys) (λ id me, AtParty.l_v_mul id me (xs' me) (ys' me)).
Proof.
  intros Hx Hy Hl Hw Px Py.
  by apply (realises_at_v_mul_fp w xs ys xs' ys' _ _ B (WShares_FShares _ _ _ Hx) (WShares_FShares _ _ _ Hy)).
Qed.

Section Counting.
Context {Q : Z} {m : nat} (BS : bit_sizes (TB := TB) Q m).

Lemma realises_v_mul_bits xs ys xs' ys' ks ls : Bits Q m xs ks → Bits Q m ys ls → lst part xs xs' → lst part ys ys' →
  realises (lst part) (Share.v_mul xs ys) (λ id me, AtParty.l_v_mul id me (xs' me) (ys' me)).
Proof.
  intros Hx Hy Px Py w. apply (realises_at_v_mul_whole w xs ys xs' ys' ks ls Q); [apply Hx|apply Hy| |apply BS|done|done].
  by rewrite (Bits_length _ _ Hx), (Bits_length _ _ Hy).
Qed.

Lemma realises_dot xs ys xs' ys' ks ls : Bits Q m xs ks → Bits Q m ys ls → lst part xs xs' → lst part ys ys' →
  realises part (dot xs ys) (λ id me, l_dot id me (xs' me) (ys' me)).
Proof.
  intros Hx Hy Px Py. unfold dot, l_dot. eapply realises_bind; [by eapply realises_v_mul_bits|].
  intros zs zs' Pz. apply (realises_ret part _ (λ me, l_sum (zs' me))). by apply part_sum.
Qed.

(** Opening the number of rows of a node or of a class. *)
Lemma realises_open_bits xs xs' ks : Bits Q m xs ks → lst part xs xs' →
  realises pub (Share.open_recons (Math.sum xs)) (λ id me, AtParty.l_open id me (l_sum (xs' me))).
Proof.
  intros Hx Px w. apply (realises_at_open_fp _ _ _ (Z.of_nat m * Q) _ (sum_bits _ _ Hx)); [apply BS|by apply part_sum].
Qed.

Lemma realises_dataSize T T' Tv : Bits Q m T Tv → lst part T T' → realises pub (dataSize T) (λ id me, l_dataSize id me (T' me)).
Proof.
  intros HT PT. unfold dataSize, l_dataSize. eapply realises_bind_pub; [by eapply realises_open_bits|].
  intros s. apply realises_lift, pub_const.
Qed.

End Counting.

Context {Q : Z} {m k : nat} (SZ : sizes (TB := TB) Q m k).
#[local] Abbreviation BS := (sz_base _ _ _ SZ).

Lemma realises_splitTransaction T T' Tv targets targets' tv : Bits Q m T Tv → Forall2 (Bits Q m) targets tv →
  lst part T T' → lst (lst part) targets targets' →
  realises (lst (lst part)) (splitTransaction T targets) (λ id me, l_splitTransaction id me (T' me) (targets' me)).
Proof.
  intros HT Ht PT Pt. unfold splitTransaction, l_splitTransaction.
  apply (realises_mmap_lst (lst part) (lst part) _ (λ id me target, AtParty.l_v_mul id me target (T' me))); [done|].
  intros x x' Hx Px. destruct (Forall2_elem_l _ _ _ _ Ht Hx) as (t & Hb). by eapply (realises_v_mul_bits BS).
Qed.

Lemma realises_majorityClass U U' uv : Forall2 (Bits Q m) U uv → lst (lst part) U U' →
  realises part (majorityClass U) (λ id me, l_majorityClass id me (U' me)).
Proof.
  intros HU PU w. unfold majorityClass, l_majorityClass.
  eapply realises_bind_vec.
  { apply (realises_mmap_lst (lst part) pub _ (λ id me u, let& count := AtParty.l_open id me (l_sum u) in
      AtParty.lift (Double.to_signed 32 (getDoubleVal count)))); [done|].
    intros u u' Hu Pu. destruct (Forall2_elem_l _ _ _ _ HU Hu) as (v & Hb).
    eapply realises_bind_pub; [by eapply (realises_open_bits BS)|]. intros c. apply realises_lift, pub_const. }
  intros counts w1. destruct (max_element _ _) as [[c i]|]; [|apply realises_throw].
  apply realises_bind_lift. intros y _. apply (realises_ret part _ (λ me, AtParty.l_addc me 0 y)).
  exact (part_add_public s_zero y (λ _, 0) part_zero).
Qed.

Lemma realises_gini_entry U U' uv S_rj S_rj' col : Forall2 (Bits Q m) U uv → length uv = k → Bits Q m S_rj col →
  lst (lst part) U U' → lst part S_rj S_rj' →
  realises part (gini_entry U S_rj) (λ id me, l_gini_entry id me (U' me) (S_rj' me)).
Proof.
  intros HU Hk HS PU PS w. unfold gini_entry, l_gini_entry.
  eapply realises_at_bind_runs; [by apply (class_counts_runs SZ U uv S_rj col)| |].
  { apply (realises_mmap_lst (lst part) part _ (λ id me u, l_dot id me u (S_rj' me))); [done|].
    intros u u' Hu Pu. destruct (Forall2_elem_l _ _ _ _ HU Hu) as (v & Hb). by eapply (realises_dot BS). }
  intros xs xs' w1 Hxs Px. cbv beta in Hxs.
  eapply realises_at_bind_runs; [by apply (squares_runs SZ U uv S_rj col xs)| |].
  { apply (realises_at_v_mul_whole w1 xs xs xs' xs' _ _ (x_size (TB := TB) m) Hxs Hxs); [done|apply SZ|done|done]. }
  intros xx xx' w2 Hxx Pxx. cbv beta in Hxx.
  destruct (gini_operands U uv S_rj col xs xx HU Hk HS Hxs Hxx) as (v & u & Hv & Hu & Hu0).
  destruct (size_nonneg SZ) as (_ & Hg0 & _).
  eapply (realises_at_div shift _ _ _ _ _ v u); [exact Hv|exact Hu|by apply part_sum| |done|done|apply SZ|apply SZ].
  apply part_add_public, part_mulc. by apply part_sum.
Qed.

Lemma realises_calcGini S S' sv U U' uv R : Forall2 (Forall2 (Bits Q m)) S sv → Forall2 (Bits Q m) U uv →
  length uv = k → Forall (λ r, 0 ≤ r < Z.of_nat (length S)) R → lst (lst (lst part)) S S' → lst (lst part) U U' →
  realises pub (calcGini S U R) (λ id me, l_calcGini id me (S' me) (U' me) R).
Proof.
  intros HS HU Hk HR PS PU w. unfold calcGini, l_calcGini.
  eapply realises_at_bind_runs; [by eapply (gini_entries_runs SZ S sv U uv R)| |].
  { apply (realises_mmap (lst (pair part pub)) _ (λ id me r, let& S_r := AtParty.lift (vec_at (S' me) r) in
      let& gs := AtParty.mmap (l_gini_entry id me (U' me)) S_r in AtParty.ret (map (λ g, (g, r)) gs))).
    intros r _ w1. eapply realises_at_bind; [by apply realises_vec_at|]. intros S_r S_r' w2 Hr PSr.
    apply rbind_Ok_inv in Hr as (? & Hr%vec_at_elem & [= -> _]).
    destruct (Forall2_elem_l _ _ _ _ HS Hr) as (s_r & Hs). eapply realises_bind.
    - apply (realises_mmap_lst (lst part) part _ (λ id me, l_gini_entry id me (U' me))); [done|].
      intros S_rj S_rj' Hj Pj. destruct (Forall2_elem_l _ _ _ _ Hs Hj) as (col & Hc). by eapply realises_gini_entry.
    - intros gs gs' Pgs. apply (realises_ret (lst (pair part pub)) _ (λ me, map (λ g, (g, r)) (gs' me))).
      apply (lst_map part (pair part pub) _ (λ _ g, (g, r))); [|done]. intros x x' Hx. by split. }
  intros entries entries' w1 He Pe. apply lst_concat in Pe. set (Gini := concat entries) in *.
  pose proof (lst_map _ part fst (λ _, fst) _ _ (λ _ _ H, proj1 H) Pe) as Px.
  pose proof (lst_map _ pub snd (λ _, snd) _ _ (λ _ _ H, proj2 H) Pe) as Pr.
  eapply realises_at_bind_pub; [| |].
  3: { intros rec w2 _. apply (realises_ret pub _ (λ me, zip (map getDoubleVal rec) (map snd (concat (entries' me))))).
    intros me Hme. by rewrite (lst_pub_inv _ _ Pr me Hme). }
  - eapply runs_lift_eq, (recons_vec_fp sp_id (g_size (TB := TB) m k) _ (map (λ gr : sharing * Z, Zsum gr.1) Gini)).
    + apply Forall2_fmap_2. apply Forall_Forall2_diag. eapply Forall_impl; [exact He|]. by intros gr [H _].
    + apply SZ.
  - apply (realises_at_open_vec _ _ _ (map (λ gr : sharing * Z, Zsum gr.1) Gini)); [by apply lst_part_full|].
    intros me _. apply (recons_vec_fp me (g_size (TB := TB) m k)); [|apply SZ].
    apply Forall2_fmap_2. apply Forall_Forall2_diag. eapply Forall_impl; [exact He|]. by intros gr [H _].
Qed.

Lemma realises_getMaxGini S S' sv U U' uv R : Forall2 (Forall2 (Bits Q m)) S sv → Forall2 (Bits Q m) U uv →
  length uv = k → Forall (λ r, 0 ≤ r < Z.of_nat (length S)) R → lst (lst (lst part)) S S' → lst (lst part) U U' →
  realises pub (getMaxGini S U R) (λ id me, l_getMaxGini id me (S' me) (U' me) R).
Proof.
  intros HS HU Hk HR PS PU. unfold getMaxGini, l_getMaxGini.
  eapply realises_bind_pub; [by eapply realises_calcGini|]. intros l.
  destruct (max_element lt_gini l) as [g|]; apply (realises_ret pub _ (λ _, _)), pub_const.
Qed.

Lemma tree_of_node g s a y y' cs cs' : part y y' → lst tree_of cs cs' →
  tree_of (mkNode g s y a cs) (λ me, mkNode g s (y' me) a (cs' me)).
Proof.
  intros (_ & Hy) (ls & Hls & Hl) me Hme. cbn [local]. rewrite Hl, Hy by done. f_equal.
  clear Hl. induction Hls as [|c c' cs ls Hc _ IH]; [done|]. cbn [map]. by rewrite IH, (Hc me Hme).
Qed.

(** Every party builds the nodes of the joint tree, in the same order. *)
Lemma realises_createTree fuel T T' Tv S S' sv targets targets' tv R :
  Bits Q m T Tv → Forall2 (Forall2 (Bits Q m)) S sv → Forall2 (Bits Q m) targets tv → length tv = k →
  Forall (λ r, 0 ≤ r < Z.of_nat (length S)) R →
  lst part T T' → lst (lst (lst part)) S S' → lst (lst part) targets targets' →
  realises tree_of (createTree fuel T S targets R)
    (λ id me, l_createTree id me fuel (T' me) (S' me) (targets' me) R).
Proof.
  intros HT HS Htg Hk HR PT PS Ptg. revert T T' Tv R HT HR PT.
  induction fuel as [|fuel IH]; intros T T' Tv R HT HR PT; [apply realises_throw|].
  cbn [createTree l_createTree]. eapply realises_bind_pub; [by eapply (realises_dataSize BS)|]. intros size w.
  eapply realises_at_bind_runs; [by apply (splitTransaction_runs SZ T Tv targets tv)|by eapply realises_splitTransaction|].
  intros U U' w1 HU PU. cbv beta in HU. assert (length (map (λ t, inter t Tv) tv) = k) as Hlu by (by rewrite length_map).
  eapply realises_bind; [by eapply realises_majorityClass|]. intros y y' Py.
  eapply realises_bind_pub; [by eapply realises_getMaxGini|]. intros [g a].
  eapply realises_ext; [intros id me s k' Hme; cbv beta; rewrite (lst_length _ _ _ PT me Hme); reflexivity|].
  destruct (stop (length T) size g R).
  { apply (realises_ret tree_of _ (λ me, mkNode g size (y' me) (Some a) [])), tree_of_node; [done|apply lst_nil]. }
  clear w w1 HU. intros w. eapply realises_at_bind; [by apply realises_vec_at|]. intros S_a S_a' w1 Ha PSa.
  apply rbind_Ok_inv in Ha as (? & Ha%vec_at_elem & [= -> _]). destruct (Forall2_elem_l _ _ _ _ HS Ha) as (sa & Hsa).
  eapply realises_bind.
  { apply (realises_mmap_lst (lst part) tree_of _ (λ id me S_j, let& T_ := AtParty.l_v_mul id me (T' me) S_j in
      l_createTree id me fuel T_ (S' me) (targets' me) (erase R a))); [done|].
    intros S_j S_j' Hj Pj w2. destruct (Forall2_elem_l _ _ _ _ Hsa Hj) as (col & Hc).
    eapply realises_at_bind_runs; [by apply (v_mul_bits BS)|by eapply (realises_v_mul_bits BS)|].
    intros T_ T_' w3 HT_ PT_. apply (IH T_ T_' (inter Tv col)); [done|by apply erase_Forall|done]. }
  intros cs cs' Pcs. apply (realises_ret tree_of _ (λ me, mkNode g size (y' me) (Some a) (cs' me))). by apply tree_of_node.
Qed.
End Training.

(** ** Prediction *)

Section Predicting.
Context `{DL : DecLaws} `{E : Env} `{V : !ValidEnv E} {TB : Z} `{TL : !TripleLaws TB E} {Res : Type}.
#[local] Existing Instance fp_value.
#[local] Existing Instance fp_text.
#[local] Abbreviation realises := (realises (Res := Res)).
#[local] Abbreviation realises_at := (realises_at (Res := Res)).
Import FixedPoint FixedDouble AtPartyTrees.
Context {Q : Z} {k W : nat}.
Hypothesis Q_nonneg : 0 ≤ Q.
Hypothesis predict_wire : Z.max Q (predict_size (TB := TB) k W) + TB * shift < wire.

(** The sum over the children, each of which the parties predict with in turn. *)
Lemma realises_weighted {A A'} (loc : nat → A → A') (f : A → M sharing) f' B cs bits bits' v i acc acc' :
  B + TB * shift < wire →
  Forall (λ c, realises part (f c) (λ id me, f' id me (loc me c)) ∧ ∀ w, ∃ cl, runs (f c) w (λ x _, FShares B x cl)) cs →
  Forall2 (WShares B) bits v → lst part bits bits' → part acc acc' →
  realises part (weighted f bits cs i acc)
    (λ id me, l_weighted id me (f' id me) (bits' me) (map (loc me) cs) i (acc' me)).
Proof.
  intros HB Hcs Hb Pb. revert i acc acc'. induction Hcs as [|c cs [Hc Hcr] _ IH]; intros i acc acc' Pa;
    cbn [weighted l_weighted map]; [by apply realises_ret|].
  intros w. destruct (Hcr w) as (cl & Hr). eapply realises_at_bind_runs; [exact Hr|apply Hc|]. intros p p' w1 Hp Pp.
  eapply realises_at_bind; [by apply realises_vec_at|]. intros b b' w2 Hv Pbit.
  apply rbind_Ok_inv in Hv as (? & Hv%vec_at_elem & [= -> _]). destruct (Forall2_elem_l _ _ _ _ Hb Hv) as (u & Hu).
  eapply realises_at_bind.
  { by apply (realises_at_mul_wire w2 b p b' p' B (u * shift) cl). }
  intros z z' w3 _ Pz. by apply (IH (i + 1) (s_add acc z) (λ me, add (acc' me) (z' me))), part_zip.
Qed.

Lemma realises_predict sv tv t Tv R data data' vals :
  length tv = k → Forall (λ sa, (length sa ≤ W)%nat) sv →
  Forall2 (λ (xs : list sharing) (sa : list (list Z)), length xs = length sa) data sv →
  row_bits (Q := Q) data vals → Forall (λ r, 0 ≤ r) R → grown sv tv t Tv R → lst (lst part) data data' →
  realises part (predict t data) (λ id me, l_predict id me (local me t) (data' me)).
Proof.
  intros Hk HW Hd Hrow HR Hg Pd. revert Tv R HR Hg. induction t as [g s y a cs IH] using node_induction.
  intros Tv R HR [Hn Hc]. cbn [predict l_predict local]. destruct cs as [|c0 cs0].
  - destruct Hn as (_ & _ & i & _ & ->). apply (realises_ret part _ (λ me, nth (me - 1) (getConstantShare (FixedCompare.fp (Z.of_nat i))) 0)).
    exact (part_own _ (proj1 (WShares_const (Z.of_nat i)))).
  - destruct Hc as (_ & r & sa & -> & Hr & _ & Hall). apply all2_Forall2 in Hall. cbn [map].
    eapply realises_bind_pub; [apply (realises_ret pub r (λ _, r)), pub_const|]. intros r0 w.
    eapply realises_at_bind; [by apply realises_vec_at|]. intros bits bits' w1 Hv Pb.
    apply rbind_Ok_inv in Hv as (? & Hv%vec_at_elem & [= -> _]).
    destruct (Forall2_elem_l _ _ _ _ Hrow Hv) as (v & Hb).
    set (B := Z.max Q (predict_size (TB := TB) k W)) in *.
    apply (realises_weighted local (λ child, predict child data) (λ id me child, l_predict id me child (data' me)) B
      (c0 :: cs0) bits bits' (onehot (length bits) v) 0 s_zero (λ _, 0)); [exact predict_wire| | |done|exact part_zero];
      [|eapply Forall2_impl; [exact Hb|]; intros x b Hx; eapply WShares_weaken; [exact Hx|lia]].
    revert Hall IH. generalize (c0 :: cs0). intros cs Hall IH. clear Hn Hv.
    induction Hall as [|c col cs sa' Hc _ IHc]; [constructor|].
    apply Forall_cons in IH as [IH1 IH2]. constructor; [|exact (IHc IH2)].
    split; [eapply IH1; [by apply (erase_Forall _ R r)|exact Hc]|]. intros w2. eexists. eapply runs_mono.
    { by eapply (predict_runs Q_nonneg predict_wire sv tv c _ (erase R r)); [..|apply erase_Forall|]. }
    cbv beta. intros x w3 Hx. eapply FShares_weaken; [exact Hx|unfold B; lia].
Qed.
End Predicting.

(** ** What each party starts with *)

Section Inputs.
Context `{DF : DecFloat} `{E : Env} `{V : !ValidEnv E}.
#[local] Existing Instance fp_value.

(** The entries of party [me]. *)
Definition own_vec (me : nat) : list sharing → list Z := map (own me).
Definition own_mat (me : nat) : list (list sharing) → list (list Z) := map (own_vec me).

Lemma FShares_own B xs vs : Forall2 (FShares B) xs vs → lst part xs (λ me, own_vec me xs).
Proof.
  intros Hx. apply lst_part_own. eapply Forall2_Forall_l; [exact Hx|]. apply Forall_true. by intros x v (? & _).
Qed.

Lemma WShares_own Q xs ks : Forall2 (WShares Q) xs ks → lst part xs (λ me, own_vec me xs).
Proof. intros Hx. eapply FShares_own. by apply WShares_FShares. Qed.

Lemma bits_columns Q m xss kss : Forall2 (Bits Q m) xss kss → lst (lst part) xss (λ me, own_mat me xss).
Proof.
  intros Hx. apply lst_self. eapply Forall2_Forall_l; [exact Hx|]. apply Forall_true. intros xs ks Hb. by eapply WShares_own, Hb.
Qed.

Lemma bits_table Q m S sv : Forall2 (Forall2 (Bits Q m)) S sv → lst (lst (lst part)) S (λ me, map (own_mat me) S).
Proof.
  intros Hx. apply lst_self. eapply Forall2_Forall_l; [exact Hx|]. apply Forall_true. intros xs ks Hb. by eapply bits_columns.
Qed.

Lemma bits_row Q data vals : row_bits (Q := Q) data vals → lst (lst part) data (λ me, own_mat me data).
Proof.
  intros Hx. apply lst_self. eapply Forall2_Forall_l; [exact Hx|]. apply Forall_true. intros xs ks Hb. by eapply WShares_own.
Qed.
End Inputs.

(** * Theorems *)

(** C11: training a decision tree over the network.  On tables of shared bits that
    fit (at most [2^26] rows; sizes of [SZ]), with more fuel than attributes,
    [createTree] returns a decision tree of its rows: every node has the exact
    number of the training rows that reach it and the constant share of their
    majority class (the last of equals), a node is split only on an attribute that
    was not used above it and only while it has more than half of the rows, and
    its children have the rows of the attribute's values (the choice of the
    attribute depends on the rounding of the Gini values).  The programs of
    the parties, each with its own shares of the table and with the rounds of all
    products, openings and quotients, end with their parts of this one tree, in
    every interleaving of their messages, and can always end: the opened counts
    and Gini values take all parties down the same branches. *)
Theorem training_over_the_network `{DL : DecLaws} {E : Env} {V : ValidEnv E} {TB} {TL : TripleLaws TB E}
    `{CL : CppIntLaws} {Q m k} (SZ : sizes (TB := TB) Q m k) fuel T Tv S sv targets tv R w :
  Bits Q m T Tv → Forall2 (Forall2 (Bits Q m)) S sv → Forall2 (Bits Q m) targets tv → length tv = k →
  Forall (λ r, 0 ≤ r < Z.of_nat (length S)) R → (length R < fuel)%nat →
  ∃ t w', createTree fuel T S targets R w = Ok (t, w')
    ∧ @grown E fp_value sv tv t Tv R ∧ (depth t ≤ length R + 1)%nat
    ∧ over_the_network w (λ id me, AtPartyTrees.l_createTree id me fuel (own_vec me T) (map (own_mat me) S)
        (own_mat me targets) R) (λ me, local me t).
Proof.
  intros HT HS Htg Hk HR Hf.
  destruct (createTree_grows SZ fuel T Tv S sv targets tv R w HT HS Htg Hk HR Hf) as (t & w' & Ht & Hg & Hd).
  exists t, w'. split_and!; [done|done|done|].
  destruct (realised_runs w tree_of _ _ t w' (realises_createTree SZ fuel T _ Tv S _ sv targets _ tv R HT HS Htg Hk HR
    (WShares_own _ _ _ (proj1 HT)) (bits_table _ _ _ _ HS) (bits_columns _ _ _ _ Htg) w) Ht) as (t' & Ht' & Hn).
  eapply over_the_network_ext; [|exact Hn]. intros me Hme. by rewrite Ht'.
Qed.

(** C12: predicting over the network.  [predict] on the shares of a row (for every
    attribute the bits of its value) opens, at every party, to the class at the
    end of the row's path through the tree, and to nothing else: the branches not
    taken contribute 0.  It says the same of the tree as it is read back from
    JSON.  Each party's program, from its part of the tree and of the row, ends
    with its entry of the shares of that class, in every interleaving, and all can
    always end. *)
Theorem prediction_over_the_network `{DL : DecLaws} {E : Env} {V : ValidEnv E} {TB} {TL : TripleLaws TB E}
    {Q k W} sv tv t Tv R data vals w :
  0 ≤ Q → Z.max Q (predict_size (TB := TB) k W) + TB * FixedPoint.shift < wire →
  length tv = k → Forall (λ sa, (length sa ≤ W)%nat) sv →
  Forall2 (λ (xs : list sharing) (sa : list (list Z)), length xs = length sa) data sv →
  row_bits (Q := Q) data vals → Forall (λ r, 0 ≤ r) R → @grown E fp_value sv tv t Tv R →
  ∃ x w', predict t data w = Ok (x, w') ∧ predict (reread t) data w = Ok (x, w')
    ∧ (∀ me, @recons_at fp_value E me x = Ok (path_class t vals * FixedPoint.shift))
    ∧ over_the_network w (λ id me, AtPartyTrees.l_predict id me (local me t) (own_mat me data))
        (λ me, own (SVI := fp_value) me x).
Proof.
  intros HQ Hw Hk HW Hd Hrow HR Hg.
  destruct (predict_follows_path sv tv t Tv R data vals w HQ Hw Hk HW Hd Hrow HR Hg) as (x & w' & Hx & Hx' & Hr).
  exists x, w'. split_and!; [done|done|done|].
  destruct (realised_runs w (part (SVI := fp_value)) _ _ x w' (realises_predict HQ Hw sv tv t Tv R data _ vals Hk HW Hd
    Hrow HR Hg (bits_row _ _ _ Hrow) w) Hx) as (x' & (_ & Hxp) & Hn).
  eapply over_the_network_ext; [|exact Hn]. intros me Hme. by rewrite Hxp.
Qed.

(** C33: quotients of fixed-point shares over the network.  The inverse of a share
    whose secret [u] is not zero (at least [L] units) opens to a number [r] within
    [999] units per party of [1 / u] (in units: [|r * u - shift^2| <= 999 * n * |u|]),
    and a quotient [v / u] to a number within [1 + 999 * n * |v|] units of it,
    [|v|] being the dividend as a number: the error does not depend on the size of
    the result.  The programs of the parties, in which the special party alone
    reconstructs and inverts the blinded divisor while the others go on and wait
    for its shares, end with their entries of these shares, in every interleaving,
    and can always end. *)
Theorem fixed_quotient_over_the_network `{DL : DecLaws} {E : Env} {V : ValidEnv E} {T} {TL : TripleLaws T E}
    L B x y v u w :
  FShares B x v → FShares B y u → 0 < L ≤ Z.abs u → 0 ≤ B → invertible (T := T) L B →
  opened T (quot_size (T := T) L B) < wire → mul_bound T (quot_size (T := T) L B) < wire →
  let n := Z.of_nat n_parties in
  let shift := FixedPoint.shift in
  (∃ z w' r, @s_getInv fp_value E y w = Ok (z, w') ∧ (∀ me, @recons_at fp_value E me z = Ok r)
     ∧ Z.abs (r * u - shift * shift) ≤ 999 * n * Z.abs u
     ∧ over_the_network w (λ id me, AtParty.l_getInv (WT := fp_text) id me (own (SVI := fp_value) me y))
         (λ me, own (SVI := fp_value) me z))
  ∧ (∃ q w' r, @s_div fp_value E x y w = Ok (q, w') ∧ (∀ me, @recons_at fp_value E me q = Ok r)
     ∧ shift * Z.abs (r * u - v * shift) ≤ Z.abs u * (shift + 999 * n * Z.abs v)
     ∧ over_the_network w (λ id me, AtParty.l_div (WT := fp_text) id me (own (SVI := fp_value) me x) (own (SVI := fp_value) me y))
         (λ me, own (SVI := fp_value) me q)).
Proof.
  intros Hx Hy Hu HB Hinv Ho Hm n shift.
  destruct (share_quotient_error L B x y v u w Hx Hy Hu HB Hinv Ho Hm) as [(z & w1 & r & Hz & Hr & He) (q & w2 & s & Hq & Hs & Hd)].
  pose proof (FShares_part B x v Hx) as Px. pose proof (FShares_part B y u Hy) as Py. split.
  - exists z, w1, r. split_and!; [done|done|done|].
    destruct (realised_runs w (part (SVI := fp_value)) _ _ z w1 (realises_at_getInv L B y _ u w Hy Py Hu HB Hinv) Hz) as (z' & (_ & Hz') & Hn).
    eapply over_the_network_ext; [|exact Hn]. intros me Hme. by rewrite Hz'.
  - exists q, w2, s. split_and!; [done|done|done|].
    destruct (realised_runs w (part (SVI := fp_value)) _ _ q w2 (realises_at_div L B x y _ _ v u w Hx Hy Px Py Hu HB Hinv Ho) Hq) as (q' & (_ & Hq') & Hn).
    eapply over_the_network_ext; [|exact Hn]. intros me Hme. by rewrite Hq'.
Qed.

(** The training set of four rows, from fresh state. *)
Lemma training_over_the_network_witness :
  let l id me := AtPartyTrees.l_createTree (DF := rat_dec) (E := steady_env) (CI := nearest) (R := node Z) id me 3
    (own_vec (DF := rat_dec) me (Toy.share_bits Toy.Tv)) (map (own_mat (DF := rat_dec) me) Toy.S) (own_mat (DF := rat_dec) me Toy.targets) [0; 1] in
  ∃ t w', @createTree rat_dec steady_env nearest 3 (Toy.share_bits Toy.Tv) Toy.S Toy.targets [0; 1] world0 = Ok (t, w')
    ∧ @grown steady_env (@fp_value rat_dec) Toy.sv Toy.tv t Toy.Tv [0; 1] ∧ (depth t ≤ 2 + 1)%nat
    ∧ ∃ s', rtc (step (EI := steady_env)) (Rounds.start (λ me, l job_address me (pos_at (E := steady_env) world0 0 me) (λ a _, Ret a)) (λ _, ∅)) s'
      ∧ ∀ me, me ∈ @parties steady_env → program (s' me) = Ret (local me t).
Proof.
  intros l.
  destruct (@training_over_the_network rat_dec rat_laws steady_env _ 36 _ nearest nearest_laws Toy.Q 4 2 Toy.toy_sizes 3
    (Toy.share_bits Toy.Tv) Toy.Tv Toy.S Toy.sv Toy.targets Toy.tv [0; 1] world0) as (t & w' & Ht & Hg & Hd & Hn).
  - apply Toy.share_bits_Bits, Toy.all_bits.
  - exact Toy.S_Bits.
  - exact Toy.targets_Bits.
  - reflexivity.
  - repeat constructor; vm_compute; (reflexivity || discriminate).
  - simpl; lia.
  - exists t, w'. split_and!; [exact Ht|exact Hg|exact Hd|exact (over_the_network_ends _ _ _ Hn)].
Defined.

(** The row with the second value of the first attribute and the first of the second. *)
Lemma prediction_over_the_network_witness :
  let data := [Toy.share_bits [0; 1]; Toy.share_bits [1; 0]] in
  let t := Toy.grown_tree.1 in
  let w := Toy.grown_tree.2 in
  let l id me := AtPartyTrees.l_predict (DF := rat_dec) (E := steady_env) (R := Z) id me (local me t) (own_mat (DF := rat_dec) me data) in
  ∃ x w', @predict rat_dec steady_env t data w = Ok (x, w')
    ∧ (∀ me, @recons_at (@fp_value rat_dec) steady_env me x = Ok (path_class t [1%nat; 0%nat] * FixedPoint.shift))
    ∧ ∃ s', rtc (step (EI := steady_env)) (Rounds.start (λ me, l job_address me (pos_at (E := steady_env) w 0 me) (λ a _, Ret a)) (λ _, ∅)) s'
      ∧ ∀ me, me ∈ @parties steady_env → program (s' me) = Ret (own (SVI := @fp_value rat_dec) me x).
Proof.
  intros data t w l.
  destruct (@prediction_over_the_network rat_dec rat_laws steady_env _ 36 _ Toy.Q 2 2 Toy.sv Toy.tv t Toy.Tv [0; 1]
    data [1%nat; 0%nat] w) as (x & w' & Hx & _ & Hr & Hn).
  - vm_compute; discriminate.
  - vm_compute; reflexivity.
  - reflexivity.
  - repeat constructor.
  - repeat constructor.
  - constructor; [|constructor; [|constructor]]; (constructor; [|constructor; [|constructor]]); apply Toy.share_bit_shares; unfold bit; cbn; lia.
  - repeat constructor; discriminate.
  - exact Toy.toy_grown.
  - exists x, w'. split_and!; [exact Hx|exact Hr|exact (over_the_network_ends _ _ _ Hn)].
Defined.

(** [3 / 2], and the inverse of 2. *)
Lemma fixed_quotient_over_the_network_witness :
  let x := [FixedPoint.shift; 0; 2 * FixedPoint.shift] in
  let y := [FixedPoint.shift; FixedPoint.shift; 0] in
  let n := Z.of_nat (@n_parties steady_env) in
  let l id me := AtParty.l_div (WT := @fp_text rat_dec) (E := steady_env) (R := Z) id me
    (own (SVI := @fp_value rat_dec) me x) (own (SVI := @fp_value rat_dec) me y) in
  ∃ q w' r, @s_div (@fp_value rat_dec) steady_env x y world0 = Ok (q, w')
    ∧ (∀ me, @recons_at (@fp_value rat_dec) steady_env me q = Ok r)
    ∧ FixedPoint.shift * Z.abs (r * (2 * FixedPoint.shift) - 3 * FixedPoint.shift * FixedPoint.shift)
        ≤ 2 * FixedPoint.shift * (FixedPoint.shift + 999 * n * (3 * FixedPoint.shift))
    ∧ ∃ s', rtc (step (EI := steady_env)) (Rounds.start (λ me, l job_address me (pos_at (E := steady_env) world0 0 me) (λ a _, Ret a)) (λ _, ∅)) s'
      ∧ ∀ me, me ∈ @parties steady_env → program (s' me) = Ret (own (SVI := @fp_value rat_dec) me q).
Proof.
  intros x y n l.
  destruct (@fixed_quotient_over_the_network rat_dec rat_laws steady_env _ 36 _ FixedPoint.shift (2 * FixedPoint.shift) x y
    (3 * FixedPoint.shift) (2 * FixedPoint.shift) world0) as [_ (q & w' & r & Hq & Hr & He & Hn)].
  - demo_fshares.
  - demo_fshares.
  - split; vm_compute; (reflexivity || discriminate).
  - vm_compute; discriminate.
  - split_and!; vm_compute; reflexivity.
  - vm_compute; reflexivity.
  - vm_compute; reflexivity.
  - exists q, w', r. split_and!; [exact Hq|exact Hr|exact He|exact (over_the_network_ends _ _ _ Hn)].
Defined.
