(* ===== verification/Columns.v ===== *)
(** * Columns of a table and the attributes they spell
      (Job/Jobs/SID3Job.hpp, Model/Models/SID3Model.hpp and the [parse_table]s
      of the other jobs and models)

    A job names its columns by their numbers, counted from 1.  The columns of a
    categorical attribute hold one bit per value and are called
    [attribute#value]; a value that begins with [0] starts the next attribute.
    [getAttrSizeList] recovers the sizes of the attributes from the names, and
    [getBitvector] cuts the columns by them: by column for training, by row for
    prediction.

    The functions are the same for every type of cell; the lemmas relate their
    results on related tables, so that a table of shares is cut as the table of
    its secrets. *)
From stdpp Require Import base list numbers sets strings.
From Stdlib Require Import Ascii ZArith Lia.
From Stdlib Require String.
From S2P Require Import Prelude.
#[local] Open Scope Z_scope.
#[local] Open Scope qmpc_scope.

Module Columns.

(** [row[j - 1]] for the chosen columns [j]. *)
Definition select {A} (row : list A) (arg : list Z) : result (list A) :=
  traverse (λ j, vec_at row (j - 1)) arg.

(** The cells [from] to [from + size - 1] of a row. *)
Definition range (from size : Z) : list Z := map (λ i, from + Z.of_nat i) (seq 0 (Z.to_nat size)).
Definition slice {A} (row : list A) (from size : Z) : result (list A) :=
  traverse (vec_at row) (range from size).

Definition hash : ascii := ascii_of_nat 35.
Definition zero : ascii := ascii_of_nat 48.

(** The loop over the characters of [s] from its end, [prev] being the one
    visited before: is the character behind the last [#] a [0]?  At the end of
    the string there is none; with [size = 0] it is not looked at. *)
Fixpoint rfind (size : Z) (prev : option ascii) (rs : list ascii) : result bool :=
  match rs with
  | [] => Ok false
  | c :: rs =>
      if Ascii.eqb c hash then
        if 0 <? size then
          match prev with
          | None => Throw (Undefined "*std::prev(rbegin)")
          | Some p => Ok (Ascii.eqb p zero)
          end
        else Ok false
      else rfind size (Some c) rs
  end.
Definition starts (size : Z) (s : string) : result bool :=
  rfind size None (rev (String.list_ascii_of_string s)).

Fixpoint sizes_loop (schemas : list string) (attrSizeList : list Z) (size : Z) : result (list Z) :=
  match schemas with
  | [] => Ok (attrSizeList ++ [size])
  | s :: schemas =>
      let! next := starts size s in
      let '(attrSizeList, size) := if next : bool then (attrSizeList ++ [size], 0) else (attrSizeList, size) in
      sizes_loop schemas attrSizeList (size + 1)
  end.
Definition getAttrSizeList (schemas : list string) : result (list Z) := sizes_loop schemas [] 0.
End Columns.

(** * Lemmas *)

(** ** Related tables *)

Section Related.
Context {A B : Type} (P : A → B → Prop).

(** Two results are related when both are values, and those are. *)
Definition ok_rel {A B} (P : A → B → Prop) (x : result A) (y : result B) : Prop :=
  match x, y with Ok a, Ok b => P a b | Throw e, Throw e' => e = e' | _, _ => False end.

Lemma vec_at_rel l k i : Forall2 P l k → ok_rel P (vec_at l i) (vec_at k i).
Proof.
  intros H. unfold vec_at. destruct (i <? 0); [done|].
  destruct (l !! Z.to_nat i) as [x|] eqn:E.
  - destruct (Forall2_lookup_l _ _ _ _ _ H E) as (y & -> & Hy). exact Hy.
  - apply lookup_ge_None in E. rewrite (Forall2_length _ _ _ H) in E.
    apply lookup_ge_None in E. by rewrite E.
Qed.

Lemma traverse_rel {X Y} (Q : X → Y → Prop) (f : X → result A) (g : Y → result B) l k :
  Forall2 Q l k → (∀ x y, Q x y → ok_rel P (f x) (g y)) →
  ok_rel (Forall2 P) (traverse f l) (traverse g k).
Proof.
  intros H Hf. induction H as [|x y l k Hxy _ IH]; [constructor|]. cbn [traverse].
  specialize (Hf x y Hxy). unfold ok_rel in Hf, IH |- *. destruct (f x), (g y); try done. cbn.
  destruct (traverse f l), (traverse g k); try done. by constructor.
Qed.

Lemma traverse_rel_same {X} (f : X → result A) (g : X → result B) l :
  (∀ x, ok_rel P (f x) (g x)) → ok_rel (Forall2 P) (traverse f l) (traverse g l).
Proof.
  intros H. apply (traverse_rel (=)); [by apply Forall_Forall2_diag, Forall_true|]. by intros x ? ->.
Qed.

Lemma select_rel row k arg : Forall2 P row k → ok_rel (Forall2 P) (Columns.select row arg) (Columns.select k arg).
Proof. intros H. apply traverse_rel_same. intros j. by apply vec_at_rel. Qed.

Lemma slice_rel row k from size :
  Forall2 P row k → ok_rel (Forall2 P) (Columns.slice row from size) (Columns.slice k from size).
Proof. intros H. apply traverse_rel_same. intros j. by apply vec_at_rel. Qed.
End Related.

Lemma ok_rel_Ok_r {A B} (P : A → B → Prop) x b : ok_rel P x (Ok b) → ∃ a, x = Ok a ∧ P a b.
Proof. destruct x; [by eauto|done]. Qed.

Lemma ok_rel_Ok_l {A B} (P : A → B → Prop) a y : ok_rel P (Ok a) y → ∃ b, y = Ok b ∧ P a b.
Proof. destruct y; [by eauto|done]. Qed.

Lemma ok_rel_bind {A B C D} (P : A → B → Prop) (Q : C → D → Prop) x y f g :
  ok_rel P x y → (∀ a b, P a b → ok_rel Q (f a) (g b)) → ok_rel Q (rbind x f) (rbind y g).
Proof. destruct x, y; try done. intros H Hf. by apply Hf. Qed.

(** ** Slices *)

Lemma range_lookup from size v :
  0 ≤ from → (v < Z.to_nat size)%nat → Columns.range from size !! v = Some (from + Z.of_nat v).
Proof. intros _ Hv. unfold Columns.range. by rewrite list_lookup_fmap, lookup_seq_lt. Qed.

Lemma slice_ok {A} (row : list A) from size :
  0 ≤ from → 0 ≤ size → from + size ≤ Z.of_nat (length row) →
  Columns.slice row from size = Ok (take (Z.to_nat size) (drop (Z.to_nat from) row)).
Proof.
  intros Hf Hs Hl. unfold Columns.slice, Columns.range. rewrite <- (Z2Nat.id size) in Hl by done.
  generalize dependent (Z.to_nat size). clear Hs size. intros k. revert from Hf.
  induction k as [|k IH]; intros from Hf Hl; [by rewrite take_0|].
  cbn [seq map traverse]. rewrite <- seq_shift, map_map.
  destruct (lookup_lt_is_Some_2 row (Z.to_nat from)) as [x Hx]; [lia|].
  rewrite (drop_S _ _ _ Hx). cbn [take].
  unfold vec_at at 1. replace (from + Z.of_nat 0) with from by lia.
  destruct (Z.ltb_spec from 0); [lia|]. rewrite Hx, rbind_ok.
  rewrite (map_ext _ (λ i, (from + 1) + Z.of_nat i)) by (intros; lia).
  rewrite (IH (from + 1)) by lia. cbn. by replace (Z.to_nat (from + 1)) with (S (Z.to_nat from)) by lia.
Qed.

Lemma sizes_loop_nonneg schemas acc size sizes :
  Columns.sizes_loop schemas acc size = Ok sizes → 0 ≤ size → Forall (λ k, 0 ≤ k) acc → Forall (λ k, 0 ≤ k) sizes.
Proof.
  revert acc size; induction schemas as [|s schemas IH]; intros acc size H Hs Ha; cbn [Columns.sizes_loop] in H.
  - injection H as <-. apply Forall_app. by repeat constructor.
  - apply rbind_Ok_inv in H as (next & _ & H). destruct next; apply IH in H; try lia; try done.
    apply Forall_app. by repeat constructor.
Qed.

(** ** Names *)

(** An attribute: its name and the texts of its values, in the order of the columns. *)
Record attribute := mkAttribute { label : string; values : list string }.

Definition column_name (a v : string) : string := a +:+ String Columns.hash v.
Definition column_names (a : attribute) : list string := map (column_name (label a)) (values a).

(** A value: not empty, no [#] in it; [first] when it begins with [0]. *)
Definition value_text (first : bool) (v : string) : Prop :=
  match v with
  | String c v' => Ascii.eqb c Columns.zero = first ∧ Columns.hash ∉ c :: String.list_ascii_of_string v'
  | EmptyString => False
  end.
Definition attribute_ok (a : attribute) : Prop :=
  match values a with [] => False | v :: vs => value_text true v ∧ Forall (value_text false) vs end.

Lemma list_ascii_app a b :
  String.list_ascii_of_string (a +:+ b) = String.list_ascii_of_string a ++ String.list_ascii_of_string b.
Proof. induction a as [|c a IH]; [done|]. simpl. by rewrite IH. Qed.

Lemma rfind_no_hash size prev l r : Columns.hash ∉ l →
  Columns.rfind size prev (l ++ r) = Columns.rfind size (match last l with Some c => Some c | None => prev end) r.
Proof.
  revert prev; induction l as [|c l IH]; intros prev Hl; [done|].
  apply not_elem_of_cons in Hl as [Hc Hl]. cbn [app Columns.rfind].
  destruct (Ascii.eqb_spec c Columns.hash); [congruence|]. rewrite IH by done.
  rewrite last_cons. by destruct (last l).
Qed.

Lemma starts_name size a v first : 0 < size → value_text first v →
  Columns.starts size (column_name a v) = Ok first.
Proof.
  intros Hs Hv. unfold Columns.starts, column_name. destruct v as [|c v]; [done|]. destruct Hv as [<- Hv].
  rewrite list_ascii_app. cbn [String.list_ascii_of_string].
  change (Columns.hash :: c :: String.list_ascii_of_string v)
    with ([Columns.hash] ++ (c :: String.list_ascii_of_string v)).
  rewrite !rev_app_distr, <- app_assoc. cbn [rev app].
  rewrite rfind_no_hash.
  2: { rewrite elem_of_app, list_elem_of_singleton, list_elem_of_In, <- in_rev, <- list_elem_of_In. rewrite not_elem_of_cons in Hv. tauto. }
  rewrite last_snoc. cbn [Columns.rfind]. rewrite Ascii.eqb_refl.
  by rewrite (proj2 (Z.ltb_lt 0 size)).
Qed.

Lemma rfind_zero prev rs : Columns.rfind 0 prev rs = Ok false.
Proof. revert prev; induction rs as [|c rs IH]; intros prev; [done|]. cbn. by destruct (Ascii.eqb _ _). Qed.

Lemma sizes_values a vs schemas acc size : 0 < size → Forall (value_text false) vs →
  Columns.sizes_loop (map (column_name a) vs ++ schemas) acc size
  = Columns.sizes_loop schemas acc (size + Z.of_nat (length vs)).
Proof.
  intros Hs H. revert size Hs. induction H as [|v vs Hv _ IH]; intros size Hs; cbn [map app length Columns.sizes_loop].
  - by rewrite Z.add_0_r.
  - rewrite (starts_name _ _ _ false), rbind_ok, IH by (done || lia). f_equal. lia.
Qed.

Lemma sizes_attributes l acc size : 0 < size → Forall attribute_ok l →
  Columns.sizes_loop (concat (map column_names l)) acc size
  = Ok (acc ++ size :: map (λ a, Z.of_nat (length (values a))) l).
Proof.
  intros Hs H. revert acc size Hs. induction H as [|[a vs] l Ha _ IH]; intros acc size Hs; [done|].
  cbn [map concat]. unfold attribute_ok in Ha. unfold column_names at 1. cbn [label values] in *.
  destruct vs as [|v vs]; [done|]. destruct Ha as [Hv Hvs]. cbn [map app Columns.sizes_loop].
  rewrite (starts_name _ _ _ true), rbind_ok, sizes_values, IH by (done || lia).
  rewrite <- app_assoc. cbn. do 4 f_equal. lia.
Qed.

Lemma sizes_of_attributes l : l ≠ [] → Forall attribute_ok l →
  Columns.getAttrSizeList (concat (map column_names l)) = Ok (map (λ a, Z.of_nat (length (values a))) l).
Proof.
  intros Hne H. destruct H as [|[a vs] l Ha Hl]; [done|]. unfold Columns.getAttrSizeList. cbn [map concat].
  unfold attribute_ok in Ha. unfold column_names at 1. cbn [label values] in *.
  destruct vs as [|v vs]; [done|]. destruct Ha as [Hv Hvs]. cbn [map app Columns.sizes_loop].
  unfold Columns.starts at 1. rewrite rfind_zero, rbind_ok, sizes_values, sizes_attributes by (done || lia).
  cbn. do 3 f_equal. lia.
Qed.
