(* ===== verification/SID3Jobs.v ===== *)
(** * Training and applying the decision tree
      (Job/Jobs/SID3Job.hpp, Model/Models/SID3Model.hpp)

    [SID3Job.compute] cuts a table into attributes and classes, grows the tree
    and returns, at every party, the JSON of the party's part of it;
    [SID3Model.predict] reads the parts back and asks the tree for the class of
    every row of another table.

    The parties read their parts one by one; [joint] puts them together as the
    run of all parties sees them, and fails when they are not parts of one
    tree, since the parties would then no longer run the same protocol. *)
From stdpp Require Import base list numbers sets strings.
From Stdlib Require Import ZArith Lia.
From S2P Require Import Prelude FixedPoint Random TripleHandler Share SharePF ShareFP Double FixedCompare.
From S2P Require Import FixedCompareCorrect FixedWhole FixedInverse Json SID3 SID3Correct Columns.
#[local] Open Scope Z_scope.
#[local] Open Scope qmpc_scope.

(** ** The parts of a tree *)

Section JointChildren.
Context {A B : Type} (f : A → list A → result B).
Fixpoint joint_children (cs : list A) (others : list (list A)) : result (list B) :=
  match cs with
  | [] => Ok []
  | c :: cs =>
      let! hs := traverse (λ l, vec_at l 0) others in
      let! r := f c hs in
      let! rs := joint_children cs (map tail others) in
      Ok (r :: rs)
  end.
End JointChildren.

Fixpoint joint (t : SID3.node Z) (others : list (SID3.node Z)) : result (SID3.node sharing) :=
  let '(SID3.mkNode g s y a cs) := t in
  if forallb (λ o, bool_decide (SID3.att_class o = a) && (length (SID3.children o) =? length cs)%nat) others
  then
    let! cs := joint_children joint cs (map SID3.children others) in
    Ok (SID3.mkNode g s (y :: map SID3.y others) a cs)
  else Throw (Undefined "the parties read different trees").

Module SID3Job.
Import SID3 FixedPoint.

Section Parse.
Context {A : Type}.

Definition parse_table (table : list (list A)) (arg : list (list Z)) : result (list (list A) * list (list A)) :=
  let! arg0 := vec_at arg 0 in
  let! x := traverse (λ row, Columns.select row arg0) table in
  let! arg1 := vec_at arg 1 in
  let! y := traverse (λ row, Columns.select row arg1) table in
  Ok (x, y).

Definition parse_schema (schemas : list string) (arg : list (list Z)) : result (list string * list string) :=
  let! arg0 := vec_at arg 0 in
  let! schemaX := Columns.select schemas arg0 in
  let! arg1 := vec_at arg 1 in
  let! schemaY := Columns.select schemas arg1 in
  Ok (schemaX, schemaY).

(** [S[attribute][value][row]] *)
Fixpoint bitvector_loop (table : list (list A)) (from : Z) (attrSizeList : list Z) :
    result (list (list (list A))) :=
  match attrSizeList with
  | [] => Ok []
  | size :: attrSizeList =>
      let! tmpRow := traverse (λ i, traverse (λ row, vec_at row i) table) (Columns.range from size) in
      let! S_ := bitvector_loop table (from + size) attrSizeList in
      Ok (tmpRow :: S_)
  end.
Definition getBitvector (table : list (list A)) (attrSizeList : list Z) : result (list (list (list A))) :=
  bitvector_loop table 0 attrSizeList.

(** The data [compute] prepares: [S], [target] and the number of attributes. *)
Definition inputs (table : list (list A)) (schemas : list string) (arg : list (list Z)) :
    result (list (list (list A)) * list (list A) * nat) :=
  let! xy := parse_table table arg in
  let! schemaXY := parse_schema schemas arg in
  let! attrXSizeList := Columns.getAttrSizeList schemaXY.1 in
  let! attrYSizeList := Columns.getAttrSizeList schemaXY.2 in
  let! S_ := getBitvector xy.1 attrXSizeList in
  let! targets := getBitvector xy.2 attrYSizeList in
  let! target := vec_at targets 0 in
  Ok (S_, target, length attrXSizeList).
End Parse.

Section Compute.
Context `{DF : DecFloat} `{E : Env} `{CI : CppInt} `{JL : JsonLib}.
#[local] Existing Instance fp_value.

(** The fuel of [createTree] is one more than the number of attributes. *)
Definition compute (table : list (list sharing)) (schemas : list string) (arg : list (list Z)) : M (list json) :=
  let* input := lift (inputs table schemas arg) in
  let '(S_, target, attrs) := input in
  let* one := lift (FixedPoint.of_string "1") in
  let T := replicate (length table) (getConstantShare one) in
  let R := map Z.of_nat (seq 0 attrs) in
  let* tree := createTree (S attrs) T S_ target R in
  ret (map (λ i, createTreeJson (local i tree)) parties).
End Compute.
End SID3Job.

Module SID3Model.
Import SID3 FixedPoint.

Definition parseTable {A} (table : list (list A)) (arg : list Z) : result (list (list A)) :=
  traverse (λ row, Columns.select row arg) table.
Definition parseSchema (schema : list string) (arg : list Z) : result (list string) := Columns.select schema arg.
Definition getAttrSizeList (schemas : list string) : result (list Z) := Columns.getAttrSizeList schemas.

(** [data[row][attribute][value]] *)
Fixpoint row_bitvector {A} (row : list A) (from : Z) (attr_size_list : list Z) : result (list (list A)) :=
  match attr_size_list with
  | [] => Ok []
  | size :: attr_size_list =>
      let! tmp := Columns.slice row from size in
      let! tmp_row := row_bitvector row (from + size) attr_size_list in
      Ok (tmp :: tmp_row)
  end.
Definition getBitvector {A} (table : list (list A)) (attr_size_list : list Z) : result (list (list (list A))) :=
  traverse (λ row, row_bitvector row 0 attr_size_list) table.

(** The data [predict] prepares. *)
Definition inputs {A} (table : list (list A)) (schemas : list string) (arg : list Z) :
    result (list (list (list A))) :=
  let! x := parseTable table arg in
  let! schema := parseSchema schemas arg in
  let! attr_size_list := getAttrSizeList schema in
  getBitvector x attr_size_list.

Section Predict.
Context `{DF : DecFloat} `{E : Env} `{CI : CppInt} `{JL : JsonLib}.
#[local] Existing Instance fp_value.

(** [SID3(sid3_param_json)] at every party; [jsons] are the answers of
    [readModelparamJson], and [fuel] bounds the depth. *)
Definition read_tree (fuel : nat) (jsons : list json) : result (node sharing) :=
  let! ts := traverse (of_json fuel) jsons in
  match ts with
  | [] => Throw (Undefined "no party")
  | t :: ts => joint t ts
  end.

Definition predict (fuel : nat) (jsons : list json) (table : list (list sharing)) (schemas : list string)
    (arg : list Z) : M (list sharing) :=
  let* sid3_tree := lift (read_tree fuel jsons) in
  let* data := lift (inputs table schemas arg) in
  mmap (SID3.predict sid3_tree) data.
End Predict.
End SID3Model.

(** * Lemmas *)

(** ** The parts of one tree are put together again *)

Section Joint.
Context `{E : Env}.

(** Every node has a value for each of the [n] parties. *)
Fixpoint shaped (n : nat) (t : SID3.node sharing) : Prop :=
  let '(SID3.mkNode _ _ y _ cs) := t in length y = n ∧ fold_right and True (map (shaped n) cs).

Lemma joint_children_local (ps : list nat) (f : SID3.node Z → list (SID3.node Z) → result (SID3.node sharing)) i0 cs :
  Forall (λ c, f (SID3.local i0 c) (map (λ i, SID3.local i c) ps) = Ok c) cs →
  joint_children f (map (SID3.local i0) cs) (map (λ i, map (SID3.local i) cs) ps) = Ok cs.
Proof.
  induction 1 as [|c cs Hc _ IH]; [done|]. cbn [map joint_children].
  rewrite (traverse_map _ (λ l, nth 0 l (SID3.local i0 c))).
  2: { intros l Hl. apply list_elem_of_fmap in Hl as (i & -> & _). done. }
  rewrite rbind_ok, map_map. cbn [map nth]. rewrite Hc, rbind_ok, map_map. cbn [map tail]. by rewrite IH.
Qed.

Lemma nth_all (y : sharing) n : length y = S n → nth 0 y 0 :: map (λ i, nth (i - 1) y 0) (seq 2 n) = y.
Proof.
  destruct y as [|v y]; [done|]. intros [= Hl]. cbn [nth]. f_equal.
  apply list_eq. intros j. rewrite list_lookup_fmap. destruct (decide (j < n)%nat) as [Hj|Hj].
  - rewrite lookup_seq_lt by done. cbn. replace (2 + j - 1)%nat with (S j) by lia. cbn.
    destruct (y !! j) as [x|] eqn:Ej; [by rewrite (nth_lookup_Some _ _ _ _ Ej)|].
    apply lookup_ge_None in Ej. lia.
  - rewrite lookup_seq_ge, (proj2 (lookup_ge_None y j)) by lia. done.
Qed.

Lemma joint_local t n : shaped (S n) t →
  joint (SID3.local 1 t) (map (λ i, SID3.local i t) (seq 2 n)) = Ok t.
Proof.
  induction t as [g s y a cs IH] using node_induction. intros [Hy Hcs]. cbn [SID3.local joint].
  replace (forallb _ _) with true.
  2: { symmetry. apply forallb_forall. intros o Ho. apply in_map_iff in Ho as (i & <- & _).
       cbn [SID3.local SID3.att_class SID3.children]. rewrite !length_map, Nat.eqb_refl.
       by rewrite bool_decide_eq_true_2. }
  rewrite map_map. cbn [SID3.local SID3.children].
  rewrite (joint_children_local (seq 2 n) joint 1 cs).
  - rewrite rbind_ok, map_map. cbn [SID3.y SID3.local]. do 2 f_equal. by apply nth_all.
  - clear -IH Hcs. induction IH as [|c cs Hc _ IHc]; [constructor|]. destruct Hcs as [H1 H2].
    constructor; [by apply Hc|by apply IHc].
Qed.
End Joint.

(** ** The data of the shares are the shares of the data *)

Section Inputs.
Context {A B : Type} (P : A → B → Prop).
#[local] Abbreviation rows_rel := (Forall2 (Forall2 P)).

Lemma parse_table_rel table k arg :
  rows_rel table k → ok_rel (λ x y, rows_rel x.1 y.1 ∧ rows_rel x.2 y.2)
    (SID3Job.parse_table table arg) (SID3Job.parse_table k arg).
Proof.
  intros H. unfold SID3Job.parse_table. destruct (vec_at arg 0) as [arg0|]; [|done]. cbn [rbind].
  eapply ok_rel_bind; [apply (traverse_rel (Forall2 P) (Forall2 P) _ _ _ _ H); intros x y Hxy; by apply select_rel|].
  intros x x' Hx. destruct (vec_at arg 1) as [arg1|]; [|done]. cbn [rbind].
  eapply ok_rel_bind; [apply (traverse_rel (Forall2 P) (Forall2 P) _ _ _ _ H); intros ? ? Hxy; by apply select_rel|].
  intros y y' Hy. by split.
Qed.

Lemma bitvector_rel table k from sizes :
  rows_rel table k → ok_rel (Forall2 rows_rel) (SID3Job.bitvector_loop table from sizes)
    (SID3Job.bitvector_loop k from sizes).
Proof.
  intros H. revert from; induction sizes as [|size sizes IH]; intros from; [constructor|].
  cbn [SID3Job.bitvector_loop]. eapply ok_rel_bind.
  { apply (traverse_rel_same (Forall2 P)). intros i. apply (traverse_rel P (Forall2 P) _ _ _ _ H).
    intros row row' Hrow. by apply vec_at_rel. }
  intros t t' Ht. eapply ok_rel_bind; [apply IH|]. intros S_ S' HS. by constructor.
Qed.

Lemma inputs_rel table k schemas arg :
  rows_rel table k →
  ok_rel (λ x y, Forall2 rows_rel x.1.1 y.1.1 ∧ rows_rel x.1.2 y.1.2 ∧ x.2 = y.2)
    (SID3Job.inputs table schemas arg) (SID3Job.inputs k schemas arg).
Proof.
  intros H. unfold SID3Job.inputs. eapply ok_rel_bind; [by apply parse_table_rel|]. intros xy xy' [Hx Hy].
  destruct (SID3Job.parse_schema schemas arg) as [sxy|]; [|done]. cbn [rbind].
  destruct (Columns.getAttrSizeList sxy.1) as [ax|]; [|done]. cbn [rbind].
  destruct (Columns.getAttrSizeList sxy.2) as [ay|]; [|done]. cbn [rbind].
  eapply ok_rel_bind; [by apply bitvector_rel|]. intros S_ S' HS.
  eapply ok_rel_bind; [by apply bitvector_rel|]. intros tg tg' Htg.
  eapply ok_rel_bind; [by apply (vec_at_rel rows_rel)|]. intros t t' Ht. done.
Qed.

Lemma row_bitvector_rel row k from sizes :
  Forall2 P row k → ok_rel rows_rel (SID3Model.row_bitvector row from sizes) (SID3Model.row_bitvector k from sizes).
Proof.
  intros H. revert from; induction sizes as [|size sizes IH]; intros from; [constructor|].
  cbn [SID3Model.row_bitvector]. eapply ok_rel_bind; [by apply slice_rel|]. intros t t' Ht.
  eapply ok_rel_bind; [apply IH|]. intros r r' Hr. by constructor.
Qed.

Lemma model_inputs_rel table k schemas arg :
  rows_rel table k →
  ok_rel (Forall2 rows_rel) (SID3Model.inputs table schemas arg) (SID3Model.inputs k schemas arg).
Proof.
  intros H. unfold SID3Model.inputs, SID3Model.parseTable. eapply ok_rel_bind.
  { apply (traverse_rel (Forall2 P) (Forall2 P) _ _ _ _ H). intros row row' Hrow. by apply select_rel. }
  intros x x' Hx. destruct (SID3Model.parseSchema schemas arg); [|done]. cbn [rbind].
  destruct (SID3Model.getAttrSizeList _); [|done]. cbn [rbind].
  apply (traverse_rel rows_rel (Forall2 P) _ _ _ _ Hx). intros row row' Hrow. by apply row_bitvector_rel.
Qed.
End Inputs.

(** The columns have a cell for each row, and there is one entry per attribute. *)
Lemma bitvector_shape {A} (table : list (list A)) from sizes S_ :
  SID3Job.bitvector_loop table from sizes = Ok S_ →
  length S_ = length sizes ∧ Forall (Forall (λ col, length col = length table)) S_.
Proof.
  revert from S_; induction sizes as [|size sizes IH]; intros from S_ H; cbn [SID3Job.bitvector_loop] in H.
  - injection H as <-. by split; [|constructor].
  - apply rbind_Ok_inv in H as (tmp & Htmp & H). apply rbind_Ok_inv in H as (rest & Hrest & [= <-]).
    apply IH in Hrest as [Hl Hf]. split; [cbn; by rewrite Hl|]. constructor; [|done].
    apply Forall_lookup. intros i col Hi. pose proof (traverse_length _ _ _ Htmp) as Hlt.
    destruct (lookup_lt_is_Some_2 (Columns.range from size) i) as [j Hj];
      [rewrite <- Hlt; by eapply lookup_lt_Some|].
    destruct (traverse_lookup _ _ _ _ _ Htmp Hj) as (col' & Hc & Hcol). rewrite Hi in Hc. injection Hc as <-.
    by apply traverse_length in Hcol.
Qed.

(** Both jobs cut the columns at the same places. *)
Lemma bitvector_sizes {A} (table : list (list A)) from sizes S_ :
  SID3Job.bitvector_loop table from sizes = Ok S_ → Forall (λ k, 0 ≤ k) sizes →
  sizes = map (λ sa, Z.of_nat (length sa)) S_.
Proof.
  revert from S_; induction sizes as [|size sizes IH]; intros from S_ H Hs; cbn [SID3Job.bitvector_loop] in H.
  - by injection H as <-.
  - apply rbind_Ok_inv in H as (tmp & Htmp & H). apply rbind_Ok_inv in H as (rest & Hrest & [= <-]).
    apply Forall_cons in Hs as [H0 Hs]. cbn [map]. rewrite <- (IH _ _ Hrest Hs).
    apply traverse_length in Htmp. rewrite Htmp. unfold Columns.range.
    rewrite length_map, length_seq, Z2Nat.id by done. done.
Qed.

(** ** What the columns of a table of categories are *)

(** The cells of one block of columns, column by column. *)
Definition block_columns {A} (d : A) (a n : nat) (rows : list (list (list A))) : list (list A) :=
  map (λ j, map (λ blocks, nth j (nth a blocks []) d) rows) (seq 0 n).

Lemma column_of_blocks {A} (d : A) (rs : list (list A * list (list A))) from n ns j :
  Forall (λ r, length r.1 = from ∧ map length r.2 = n :: ns) rs → (j < n)%nat →
  traverse (λ row, vec_at row (Z.of_nat from + Z.of_nat j)) (map (λ r, r.1 ++ concat r.2) rs)
  = Ok (map (λ blocks, nth j (nth 0 blocks []) d) (map snd rs)).
Proof.
  intros Hrs Hj. induction Hrs as [|[pre [|b bs]] rs [Hp Hb] _ IH]; [done|done|].
  cbn [map fst snd concat traverse nth] in *. injection Hb as Hb _. rewrite IH.
  assert (vec_at (pre ++ b ++ concat bs) (Z.of_nat from + Z.of_nat j) = Ok (nth j b d)) as ->; [|done].
  unfold vec_at. rewrite (proj2 (Z.ltb_ge _ 0)) by lia.
  replace (Z.to_nat (Z.of_nat from + Z.of_nat j)) with (length pre + j)%nat by lia.
  rewrite lookup_app_r by lia. replace (length pre + j - length pre)%nat with j by lia.
  destruct (lookup_lt_is_Some_2 b j) as [x Hx]; [lia|].
  by rewrite lookup_app_l, Hx, (nth_lookup_Some _ _ _ _ Hx) by lia.
Qed.

(** Rows made of blocks of the given sizes are cut into the blocks' columns. *)
Lemma bitvector_blocks {A} (d : A) ns (rs : list (list A * list (list A))) from :
  Forall (λ r, length r.1 = from ∧ map length r.2 = ns) rs →
  SID3Job.bitvector_loop (map (λ r, r.1 ++ concat r.2) rs) (Z.of_nat from) (map Z.of_nat ns)
  = Ok (imap (λ a n, block_columns d a n (map snd rs)) ns).
Proof.
  revert rs from. induction ns as [|n ns IH]; intros rs from Hrs; [done|].
  cbn [map SID3Job.bitvector_loop imap].
  rewrite (traverse_map _ (λ i, map (λ blocks, nth (Z.to_nat i - from) (nth 0 blocks []) d) (map snd rs))).
  2:{ intros i Hi. unfold Columns.range in Hi. rewrite Nat2Z.id in Hi. apply list_elem_of_fmap in Hi as (j & -> & Hj).
      apply elem_of_seq in Hj. rewrite (column_of_blocks d rs from n ns) by (done || lia).
      by replace (Z.to_nat (Z.of_nat from + Z.of_nat j) - from)%nat with j by lia. }
  rewrite rbind_ok.
  set (rs' := map (λ r, (r.1 ++ nth 0 r.2 [], tail r.2)) rs).
  assert (map (λ r, r.1 ++ concat r.2) rs = map (λ r, r.1 ++ concat r.2) rs') as Heq.
  { unfold rs'. rewrite map_map. apply map_ext_in. intros [pre bs] Hr%list_elem_of_In.
    rewrite Forall_forall in Hrs. destruct (Hrs _ Hr) as [_ Hb]. destruct bs as [|b bs]; [done|].
    cbn [fst snd nth tail concat]. by rewrite app_assoc. }
  rewrite Heq. replace (Z.of_nat from + Z.of_nat n) with (Z.of_nat (from + n)) by lia. rewrite (IH rs').
  - rewrite rbind_ok. f_equal. f_equal.
    + unfold block_columns, Columns.range. rewrite Nat2Z.id, map_map. apply map_ext. intros j.
      by replace (Z.to_nat (Z.of_nat from + Z.of_nat j) - from)%nat with j by lia.
    + apply imap_ext. intros a m _. unfold block_columns, rs', compose. apply map_ext. intros j.
      rewrite !map_map. apply map_ext. intros [pre [|b bs]]; cbn [fst snd tail nth]; [by destruct a|done].
  - unfold rs'. apply Forall_map. eapply Forall_impl; [exact Hrs|]. intros [pre [|b bs]] [Hp Hb]; [done|].
    cbn [fst snd nth tail map] in *. injection Hb as Hb1 Hb2. by rewrite length_app, Hp, Hb1.
Qed.

(** A row that has value [vs !! a] of the attribute [a] is written as one block
    per attribute with a 1 at the value. *)
Definition sizes_of (l : list attribute) : list nat := map (λ a, length (values a)) l.
Definition blocks_of (l : list attribute) (vs : list nat) : list (list Z) := zip_with onehot (sizes_of l) vs.
Definition encode (l : list attribute) (vs : list nat) : list Z := concat (blocks_of l vs).

(** What the columns of the attributes and of the class are to be: a 1 in the
    rows that have the value. *)
Definition attribute_columns (l : list attribute) (rows : list (list nat)) : list (list (list Z)) :=
  imap (λ a n, map (λ v, map (λ vs, if decide (vs !! a = Some v) then 1 else 0) rows) (seq 0 n)) (sizes_of l).
Definition class_columns (cl : attribute) (classes : list nat) : list (list Z) :=
  map (λ v, map (λ c, if decide (c = v) then 1 else 0) classes) (seq 0 (length (values cl))).

Lemma onehot_nth n v j : (j < n)%nat → nth j (onehot n v) 0 = if decide (v = j) then 1 else 0.
Proof.
  intros Hj. unfold onehot. rewrite (nth_lookup_Some _ _ _ (if (j =? v)%nat then 1 else 0)).
  - destruct (Nat.eqb_spec j v), (decide (v = j)); congruence.
  - by rewrite list_lookup_fmap, lookup_seq_lt.
Qed.

Lemma blocks_length l vs : length vs = length l → map length (blocks_of l vs) = sizes_of l.
Proof.
  intros Hl. unfold blocks_of. assert (length vs = length (sizes_of l)) as H by (unfold sizes_of; by rewrite length_map).
  clear Hl. revert vs H. induction (sizes_of l) as [|n ns IH]; intros [|v vs] H; try done.
  cbn [zip_with map]. f_equal; [unfold onehot; by rewrite length_map, length_seq|]. apply IH. by injection H.
Qed.

Lemma block_columns_encoded l rows a n : Forall (λ vs : list nat, length vs = length l) rows →
  sizes_of l !! a = Some n →
  block_columns 0 a n (map (blocks_of l) rows)
  = map (λ v, map (λ vs, if decide (vs !! a = Some v) then 1 else 0) rows) (seq 0 n).
Proof.
  intros Hrows Hn. unfold block_columns. apply map_ext_in. intros j Hj%in_seq. rewrite map_map.
  apply map_ext_in. intros vs Hvs%list_elem_of_In. rewrite Forall_forall in Hrows. specialize (Hrows _ Hvs).
  apply lookup_lt_Some in Hn as Ha. unfold sizes_of in Ha. rewrite length_map, <- Hrows in Ha.
  destruct (lookup_lt_is_Some_2 vs a Ha) as [v Hv].
  rewrite (nth_lookup_Some (blocks_of l vs) a [] (onehot n v)); [|apply lookup_zip_with_Some; eauto].
  rewrite onehot_nth by lia. rewrite Hv. destruct (decide (v = j)), (decide (Some v = Some j)); congruence.
Qed.

(** Training rows: the numbers of their values, and that of their class. *)
Definition training_rows (l : list attribute) (cl : attribute) (train : list (list nat * nat))
    (secrets : list (list Z)) (src tgt : list Z) : Prop :=
  Forall (λ e : list nat * nat, length e.1 = length l) train
  ∧ traverse (λ row, Columns.select row src) secrets = Ok (map (λ e, encode l e.1) train)
  ∧ traverse (λ row, Columns.select row tgt) secrets = Ok (map (λ e, onehot (length (values cl)) e.2) train).

Lemma map_Z_sizes l : map (λ a, Z.of_nat (length (values a))) l = map Z.of_nat (sizes_of l).
Proof. unfold sizes_of. by rewrite map_map. Qed.

Lemma bitvector_encoded l rows : Forall (λ vs : list nat, length vs = length l) rows →
  SID3Job.getBitvector (map (encode l) rows) (map Z.of_nat (sizes_of l)) = Ok (attribute_columns l rows).
Proof.
  intros Hrows. pose proof (bitvector_blocks 0 (sizes_of l) (map (λ vs, ([], blocks_of l vs)) rows) 0) as H.
  rewrite !map_map in H. unfold SID3Job.getBitvector. etrans; [apply H|].
  - apply Forall_map. eapply Forall_impl; [exact Hrows|]. intros vs Hvs. split; [done|]. by apply blocks_length.
  - f_equal. apply imap_ext. intros a n Hn. by apply block_columns_encoded.
Qed.

(** [compute] prepares just these columns. *)
Lemma inputs_of_training l cl train secrets schemas src tgt :
  l ≠ [] → Forall attribute_ok l → attribute_ok cl →
  Columns.select schemas src = Ok (concat (map column_names l)) → Columns.select schemas tgt = Ok (column_names cl) →
  training_rows l cl train secrets src tgt →
  SID3Job.inputs secrets schemas [src; tgt]
  = Ok (attribute_columns l (map fst train), class_columns cl (map snd train), length l).
Proof.
  intros Hne Hl Hcl Hs1 Hs2 (Hlen & Hr1 & Hr2). unfold SID3Job.inputs, SID3Job.parse_table, SID3Job.parse_schema.
  change (vec_at [src; tgt] 0) with (Ok src). change (vec_at [src; tgt] 1) with (Ok tgt).
  cbn [rbind]. rewrite Hr1. cbn [rbind]. rewrite Hr2. cbn [rbind]. rewrite Hs1. cbn [rbind]. rewrite Hs2. cbn [rbind fst snd].
  rewrite (sizes_of_attributes l Hne Hl), rbind_ok, map_Z_sizes.
  rewrite <- (app_nil_r (column_names cl)). change (column_names cl ++ []) with (concat (map column_names [cl])).
  rewrite (sizes_of_attributes [cl]), rbind_ok, map_Z_sizes by (done || by constructor).
  rewrite <- (map_map fst (encode l)), bitvector_encoded, rbind_ok by by apply Forall_map.
  pose proof (bitvector_encoded [cl] (map (λ e, [e.2]) train)) as Hc. rewrite map_map in Hc.
  rewrite (map_ext _ (λ e, encode [cl] [e.2])) by (intros e; unfold encode; cbn; by rewrite app_nil_r).
  rewrite Hc by (apply Forall_map, Forall_true; done). rewrite rbind_ok.
  assert (attribute_columns [cl] (map (λ e, [e.2]) train) = [class_columns cl (map snd train)]) as ->.
  { unfold attribute_columns, class_columns. cbn [imap sizes_of map]. f_equal. apply map_ext. intros v.
    rewrite !map_map. apply map_ext. intros e. cbn. destruct (decide (Some e.2 = Some v)), (decide (e.2 = v)); congruence. }
  cbn [vec_at Z.ltb Z.compare Z.to_nat lookup list_lookup rbind]. unfold sizes_of. by rewrite !length_map.
Qed.

Lemma row_bitvector_concat {A} (pre : list A) ls :
  SID3Model.row_bitvector (pre ++ concat ls) (Z.of_nat (length pre)) (map (λ l, Z.of_nat (length l)) ls) = Ok ls.
Proof.
  revert pre; induction ls as [|l ls IH]; intros pre; [done|]. cbn [map SID3Model.row_bitvector concat].
  rewrite slice_ok by (rewrite ?length_app; lia).
  rewrite !Nat2Z.id, drop_app_length, take_app_length, rbind_ok.
  specialize (IH (pre ++ l)). rewrite length_app, Nat2Z.inj_add, <- app_assoc in IH. by rewrite IH.
Qed.

Lemma inputs_shape {A} (table : list (list A)) schemas arg S_ t attrs :
  SID3Job.inputs table schemas arg = Ok (S_, t, attrs) →
  length S_ = attrs ∧ Forall (Forall (λ col, length col = length table)) S_
  ∧ Forall (λ col, length col = length table) t.
Proof.
  unfold SID3Job.inputs. intros H. apply rbind_Ok_inv in H as ([x y] & Hxy & H). cbn [fst snd] in H.
  apply rbind_Ok_inv in H as (sxy & _ & H). apply rbind_Ok_inv in H as (ax & _ & H).
  apply rbind_Ok_inv in H as (ay & _ & H). apply rbind_Ok_inv in H as (S' & HS & H).
  apply rbind_Ok_inv in H as (tg & Htg & H). apply rbind_Ok_inv in H as (t' & Ht & [= -> -> <-]).
  unfold SID3Job.parse_table in Hxy. apply rbind_Ok_inv in Hxy as (arg0 & _ & Hxy).
  apply rbind_Ok_inv in Hxy as (x' & Hx & Hxy). apply rbind_Ok_inv in Hxy as (arg1 & _ & Hxy).
  apply rbind_Ok_inv in Hxy as (y' & Hy & [= -> ->]).
  apply traverse_length in Hx, Hy. apply bitvector_shape in HS as [HSl HS], Htg as [_ Htg].
  rewrite Hx in HS. rewrite Hy in Htg. split; [done|]. split; [done|].
  unfold vec_at in Ht. cbn in Ht. destruct tg as [|t0 tg]; [done|]. injection Ht as ->.
  by apply Forall_cons in Htg as [Htg _].
Qed.

(** ** From training to prediction *)

Section Trip.
Context `{DL : DecLaws} `{E : Env} `{V : !ValidEnv E} `{CL : CppIntLaws} `{JL : JsonLib} `{JW : !JsonLaws JL}.
#[local] Existing Instance fp_value.

Lemma shaped_reread n t : shaped n t → shaped n (reread t).
Proof.
  induction t as [g s y a cs IH] using node_induction. intros [Hy Hcs]. cbn [reread shaped]. split; [done|].
  induction IH as [|c cs Hc _ IHc]; [done|]. destruct Hcs as [H1 H2]. split; [by apply Hc|by apply IHc].
Qed.

Lemma grown_shaped sv tv t Tv R : grown sv tv t Tv R → shaped n_parties t.
Proof.
  revert Tv R. induction t as [g s y a cs IH] using node_induction. intros Tv R [(_ & _ & i & _ & ->) Hc].
  cbn [shaped]. split.
  { unfold getConstantShare, s_addc, s_zero. rewrite length_zip_with, length_replicate.
    unfold parties. rewrite length_seq. lia. }
  destruct cs as [|c0 cs0]; [done|]. destruct Hc as (_ & r & sa & _ & _ & _ & Hall).
  apply all2_Forall2 in Hall. revert IH Hall. generalize (c0 :: cs0). clear c0 cs0. intros cs IH Hall.
  induction Hall as [|c col cs sa Hc _ IHc]; [done|]. apply Forall_cons in IH as [IH1 IH2].
  split; [by eapply IH1|by apply IHc].
Qed.

(** What the parties wrote of one tree is that tree. *)
Lemma read_tree_written fuel sv tv t Tv R :
  grown sv tv t Tv R → Forall bit Tv → Forall (Forall (Forall bit)) sv → Z.of_nat (length Tv) ≤ 2 ^ 26 →
  Z.of_nat (length tv) ≤ 2 ^ 20 → Forall (λ r, 0 ≤ r < 2 ^ 31) R → (length R + 1 ≤ fuel)%nat →
  SID3Model.read_tree fuel (map (λ i, SID3.createTreeJson (SID3.local i t)) parties) = Ok (reread t).
Proof.
  intros Hg HT Hs Hl Hk HR Hf. unfold SID3Model.read_tree.
  pose proof (grown_depth _ _ _ _ _ Hg) as Hd.
  assert (traverse (SID3.of_json fuel) (map (λ i, SID3.createTreeJson (SID3.local i t)) parties)
    = Ok (map (λ i, SID3.local i (reread t)) parties)) as ->.
  { induction parties as [|i ps IH]; [done|]. cbn [map traverse]. destruct (local_shape i t) as [-> Hdi].
    rewrite json_trip; [by rewrite rbind_ok, IH|exact (grown_writable sv tv t Tv R i Hg HT Hs Hl Hk HR)|lia]. }
  rewrite rbind_ok. pose proof n_valid as Hn. pose proof (shaped_reread _ _ (grown_shaped _ _ _ _ _ Hg)) as Hsh.
  pose proof sp_valid as Hsp. destruct (Nat.lt_exists_pred 0 n_parties) as (np & Hnp & _); [lia|].
  unfold parties. rewrite Hnp in Hsh |- *. cbn [seq map]. by apply joint_local.
Qed.
End Trip.

Section TrainPredict.
Context `{DL : DecLaws} `{E : Env} `{V : !ValidEnv E} {TB : Z} `{TL : !TripleLaws TB E} `{CL : CppIntLaws}
  `{JL : JsonLib} `{JW : !JsonLaws JL}.
#[local] Existing Instance fp_value.

(** A cell: a share of a bit. *)
Definition bit_cell (Q : Z) (x : sharing) (b : Z) : Prop := WShares Q x b ∧ bit b.

Lemma cells_Bits Q m xs ks : Forall2 (bit_cell Q) xs ks → length ks = m → Bits Q m xs ks.
Proof.
  intros H Hl. split; [eapply Forall2_impl; [exact H|]; by intros ? ? []|]. split; [done|].
  eapply Forall2_Forall_r; [exact H|]. apply Forall_true. by intros x y [].
Qed.

Lemma columns_cells Q m X K :
  Forall2 (Forall2 (bit_cell Q)) X K → Forall (λ col, length col = m) K → Forall2 (Bits Q m) X K.
Proof.
  induction 1 as [|x k X K Hx _ IH]; intros HK; constructor; apply Forall_cons in HK as [Hk HK];
    [by apply cells_Bits|by apply IH].
Qed.

(** The value a row has of every attribute. *)
Definition onehots (sv : list (list (list Z))) (vals : list nat) : list (list Z) :=
  zip_with (λ sa v, onehot (length sa) v) sv vals.

Lemma onehots_blocks l rows vs : onehots (attribute_columns l rows) vs = blocks_of l vs.
Proof.
  unfold onehots, blocks_of, attribute_columns. generalize (sizes_of l). intros ns.
  assert (∀ f : nat → nat → list (list Z), (∀ a n, length (f a n) = n) →
    zip_with (λ sa v, onehot (length sa) v) (imap f ns) vs = zip_with onehot ns vs) as H.
  { revert vs. induction ns as [|n ns IH]; intros vs f Hf; [done|]. destruct vs as [|v vs]; [done|].
    cbn [imap zip_with]. rewrite Hf. f_equal. apply IH. intros a m. apply Hf. }
  apply H. intros a n. by rewrite length_map, length_seq.
Qed.

Lemma attribute_columns_length l rows : length (attribute_columns l rows) = length l.
Proof. unfold attribute_columns, sizes_of. by rewrite length_imap, length_map. Qed.

Lemma onehots_lengths sv v : length v = length sv →
  map (λ l, Z.of_nat (length l)) (onehots sv v) = map (λ sa, Z.of_nat (length sa)) sv.
Proof.
  revert v; induction sv as [|sa sv IH]; intros [|k v] Hv; try discriminate Hv; [done|].
  unfold onehots in *. cbn [zip_with map]. rewrite IH by (by injection Hv). f_equal.
  unfold onehot. by rewrite length_map, length_seq.
Qed.

(** Rows that have one value of every attribute, column after column, are cut
    into these values. *)
Lemma model_inputs_onehots (secrets row_secrets : list (list Z)) schemas src tgt sv tv attrs vals :
  SID3Job.inputs secrets schemas [src; tgt] = Ok (sv, tv, attrs) →
  traverse (λ row, Columns.select row src) row_secrets = Ok (map (λ v, concat (onehots sv v)) vals) →
  Forall (λ v : list nat, length v = length sv) vals →
  SID3Model.inputs row_secrets schemas src = Ok (map (onehots sv) vals).
Proof.
  intros Hin Hrows Hv. unfold SID3Job.inputs in Hin.
  apply rbind_Ok_inv in Hin as (xy & _ & Hin). apply rbind_Ok_inv in Hin as ([sx sy] & Hs & Hin).
  apply rbind_Ok_inv in Hin as (ax & Hax & Hin). apply rbind_Ok_inv in Hin as (ay & _ & Hin).
  apply rbind_Ok_inv in Hin as (S' & HS & Hin). apply rbind_Ok_inv in Hin as (tg & _ & Hin).
  apply rbind_Ok_inv in Hin as (t' & _ & [= -> _ _]). cbn [fst] in Hax.
  unfold SID3Job.parse_schema in Hs. change (vec_at [src; tgt] 0) with (Ok src) in Hs.
  change (vec_at [src; tgt] 1) with (Ok tgt) in Hs. rewrite rbind_ok in Hs.
  apply rbind_Ok_inv in Hs as (sx' & Hsx & Hs). rewrite rbind_ok in Hs.
  apply rbind_Ok_inv in Hs as (sy' & _ & [= -> ->]).
  unfold SID3Model.inputs, SID3Model.parseTable, SID3Model.parseSchema, SID3Model.getAttrSizeList.
  rewrite Hrows, rbind_ok, Hsx, rbind_ok, Hax, rbind_ok.
  pose proof (bitvector_sizes _ _ _ _ HS (sizes_loop_nonneg _ _ _ _ Hax ltac:(lia) ltac:(constructor))) as ->.
  unfold SID3Model.getBitvector. clear -Hv.
  induction Hv as [|v vals Hv _ IH]; [done|]. cbn [map traverse].
  pose proof (row_bitvector_concat [] (onehots sv v)) as Hr. rewrite (onehots_lengths sv v Hv) in Hr.
  change (SID3Model.row_bitvector (concat (onehots sv v)) 0 (map (λ sa, Z.of_nat (length sa)) sv) = Ok (onehots sv v)) in Hr.
  by rewrite Hr, rbind_ok, IH.
Qed.

Lemma compute_runs Q m table secrets schemas arg sv tv attrs w :
  sizes (TB := TB) Q m (length tv) → length table = m →
  Forall2 (Forall2 (bit_cell Q)) table secrets → SID3Job.inputs secrets schemas arg = Ok (sv, tv, attrs) →
  runs (SID3Job.compute table schemas arg) w (λ jsons _, ∃ t,
    grown sv tv t (replicate m 1) (map Z.of_nat (seq 0 attrs))
    ∧ jsons = map (λ i, SID3.createTreeJson (SID3.local i t)) parties).
Proof.
  intros SZ Hm Ht Hin. unfold SID3Job.compute.
  pose proof (inputs_rel (bit_cell Q) table secrets schemas arg Ht) as Hrel. rewrite Hin in Hrel.
  apply ok_rel_Ok_r in Hrel as ([[S_ target] attrs'] & Hi & HS & Htg & Heq). cbn [fst snd] in HS, Htg, Heq.
  subst attrs'. destruct (inputs_shape _ _ _ _ _ _ Hin) as (Hattrs & HSc & Htc).
  rewrite <- (Forall2_length _ _ _ Ht), Hm in HSc, Htc.
  eapply runs_bind; [by apply runs_lift_eq|]. intros ? ? [-> ->]. cbn [snd].
  eapply runs_bind.
  { apply runs_lift_eq. change "1"%string with (TripleHandler.to_string 1). apply (dec_int 1).
    reflexivity. }
  intros ? ? [-> ->].
  pose proof (Forall2_length _ _ _ HS) as HSl.
  eapply runs_bind.
  { apply (createTree_runs SZ _ _ (replicate m 1) S_ sv target tv (map Z.of_nat (seq 0 attrs))).
    - rewrite <- Hm. apply cells_Bits; [|by rewrite length_replicate].
      apply Forall2_replicate. split; [|by right]. eapply WShares_weaken; [apply (WShares_const 1)|].
      pose proof (sz_bits _ _ (sz_base _ _ _ SZ)) as HQ. unfold bit_product, whole_size in HQ.
      pose proof (T_nonneg (T := TB)). pose proof n_valid. unfold FixedPoint.shift in *. nia.
    - clear -HS HSc. induction HS as [|X K S_ sv HX _ IH]; constructor; apply Forall_cons in HSc as [H1 H2];
        [by apply columns_cells|by apply IH].
    - by apply columns_cells.
    - done.
    - apply Forall_fmap, Forall_forall. intros i [_ Hi2]%elem_of_seq. unfold compose. rewrite HSl. lia.
    - rewrite length_map, length_seq. lia. }
  intros t w1 Hg. apply runs_ret. by exists t.
Qed.

Lemma input_bits Q table secrets schemas arg sv tv attrs :
  Forall2 (Forall2 (bit_cell Q)) table secrets → SID3Job.inputs secrets schemas arg = Ok (sv, tv, attrs) →
  Forall (Forall (Forall bit)) sv.
Proof.
  intros Ht Hin. pose proof (inputs_rel (bit_cell Q) table secrets schemas arg Ht) as Hrel. rewrite Hin in Hrel.
  apply ok_rel_Ok_r in Hrel as ([[S_ target] attrs'] & _ & HS & _). cbn [fst] in HS.
  eapply Forall2_Forall_r; [exact HS|]. apply Forall_true. intros X K HX.
  eapply Forall2_Forall_r; [exact HX|]. apply Forall_true. intros x k Hx.
  eapply Forall2_Forall_r; [exact Hx|]. apply Forall_true. by intros ? ? [].
Qed.

Lemma bind_lift_ok {A B} (r : result A) (a : A) (f : A → M B) w : r = Ok a → bind (lift r) f w = f a w.
Proof. by intros ->. Qed.

Lemma predict_rows_runs Q k W sv tv t Tv R data secrets vals w :
  0 ≤ Q → Z.max Q (predict_size (TB := TB) k W) + TB * FixedPoint.shift < wire →
  length tv = k → Forall (λ sa, (length sa ≤ W)%nat) sv → Forall (λ r, 0 ≤ r) R → grown sv tv t Tv R →
  Forall2 (Forall2 (Forall2 (WShares Q))) data secrets → secrets = map (onehots sv) vals →
  Forall (λ v : list nat, length v = length sv) vals →
  runs (mmap (SID3.predict (reread t)) data) w
    (λ xs _, Forall2 (λ x v, WShares (predict_size (TB := TB) k W) x (path_class t v)) xs vals).
Proof.
  intros HQ Hw Hk HW HR Hg Hd -> Hv. revert data w Hd. induction Hv as [|v vals Hv _ IH]; intros data w Hd;
    cbn [map] in Hd.
  - apply Forall2_nil_inv_r in Hd as ->. apply runs_ret. constructor.
  - apply Forall2_cons_inv_r in Hd as (row & data' & Hrow & Hdata & ->). cbn [mmap].
    eapply (runs_bind _ _ _ (λ x _, WShares (predict_size (TB := TB) k W) x (path_class t v))).
    { destruct (predict_runs HQ Hw sv tv t Tv R row v w) as (x & w' & Hx & Hs); try done.
      - clear -Hrow Hv. unfold onehots in Hrow. revert row v Hrow Hv.
        induction sv as [|sa sv IH]; intros row [|v vs] Hrow Hv; try discriminate Hv; cbn in Hrow.
        + apply Forall2_nil_inv_r in Hrow as ->. constructor.
        + apply Forall2_cons_inv_r in Hrow as (xs & row' & Hx & Hrow & ->). constructor; [|by eapply IH; eauto].
          rewrite (Forall2_length _ _ _ Hx). unfold onehot. by rewrite length_map, length_seq.
      - clear -Hrow Hv. unfold onehots in Hrow. revert row v Hrow Hv.
        induction sv as [|sa sv IH]; intros row [|v vs] Hrow Hv; try discriminate Hv; cbn in Hrow.
        + apply Forall2_nil_inv_r in Hrow as ->. constructor.
        + apply Forall2_cons_inv_r in Hrow as (xs & row' & Hx & Hrow & ->). constructor; [|by apply IH; auto].
          replace (length xs) with (length sa); [done|].
          rewrite (Forall2_length _ _ _ Hx). unfold onehot. by rewrite length_map, length_seq.
      - exists x, w'. split; [by rewrite predict_reread|exact Hs]. }
    intros x w1 Hx. eapply runs_bind; [by apply IH|]. intros xs w2 Hxs. apply runs_ret. by constructor.
Qed.
(** The trained tree, read again by the parties, on new rows. *)
Lemma predict_trained Q m W (secrets : list (list Z)) schemas src tgt sv tv attrs fuel t rows row_secrets vals w2 :
  sizes (TB := TB) Q m (length tv) → Z.max Q (predict_size (TB := TB) (length tv) W) + TB * FixedPoint.shift < wire →
  SID3Job.inputs secrets schemas [src; tgt] = Ok (sv, tv, attrs) → Forall (Forall (Forall bit)) sv →
  Z.of_nat attrs ≤ 2 ^ 31 → Forall (λ sa, (length sa ≤ W)%nat) sv → (attrs + 1 ≤ fuel)%nat →
  grown sv tv t (replicate m 1) (map Z.of_nat (seq 0 attrs)) →
  Forall2 (Forall2 (WShares Q)) rows row_secrets →
  traverse (λ row, Columns.select row src) row_secrets = Ok (map (λ v, concat (onehots sv v)) vals) →
  Forall (λ v : list nat, length v = length sv) vals →
  ∃ xs w3, SID3Model.predict fuel (map (λ i, SID3.createTreeJson (SID3.local i t)) parties) rows schemas src w2 = Ok (xs, w3)
    ∧ Forall2 (λ x v, ∀ me, recons_at me x = Ok (path_class t v * FixedPoint.shift)) xs vals.
Proof.
  intros SZ Hw Hin Hbits Hattrs HW Hf Hg Hrows Hins Hv.
  assert (Forall (λ r, 0 ≤ r < 2 ^ 31) (map Z.of_nat (seq 0 attrs))) as HR.
  { apply Forall_fmap, Forall_forall. intros i [_ Hi]%elem_of_seq. unfold compose. lia. }
  unfold SID3Model.predict.
  rewrite (bind_lift_ok _ (reread t)).
  2: { eapply read_tree_written; [exact Hg| |exact Hbits| |apply SZ|exact HR|by rewrite length_map, length_seq].
       - apply Forall_replicate. by right.
       - rewrite length_replicate. apply (sz_rows _ _ (sz_base _ _ _ SZ)). }
  pose proof (model_inputs_rel (WShares Q) rows row_secrets schemas src Hrows) as Hrel.
  rewrite (model_inputs_onehots secrets row_secrets schemas src tgt sv tv attrs vals Hin Hins Hv) in Hrel.
  apply ok_rel_Ok_r in Hrel as (data & Hi & Hd). rewrite (bind_lift_ok _ data) by done.
  destruct (size_nonneg SZ) as (_ & _ & HQ).
  assert (Forall (λ r, 0 ≤ r) (map Z.of_nat (seq 0 attrs))) as HR0 by (eapply Forall_impl; [exact HR|]; cbn; lia).
  destruct (predict_rows_runs Q (length tv) W sv tv t _ _ data _ vals w2 HQ Hw eq_refl HW HR0 Hg Hd eq_refl Hv)
    as (xs & w3 & Hx & Hxs).
  exists xs, w3. split; [exact Hx|]. eapply Forall2_impl; [exact Hxs|]. intros x v Hxv me.
  eapply recons_whole; [exact Hxv|]. pose proof (T_nonneg (T := TB)). unfold FixedPoint.shift in *. lia.
Qed.
End TrainPredict.

(** * Theorems *)

(** The sizes of the attributes are recovered from the names of the
    columns: for attributes whose values are named [label#value], the first one
    beginning with [0] and the others not, [getAttrSizeList] returns their
    numbers of values, in order, whatever the labels contain. *)
Theorem attribute_sizes_recovered l :
  l ≠ [] → Forall attribute_ok l →
  Columns.getAttrSizeList (concat (map column_names l)) = Ok (map (λ a, Z.of_nat (length (values a))) l).
Proof. apply sizes_of_attributes. Qed.

Ltac texts :=
  repeat match goal with
  | |- Forall _ [] => apply Forall_nil_2
  | |- Forall _ (_ :: _) => apply Forall_cons_2
  | |- attribute_ok _ => split
  | |- value_text _ _ => split; [reflexivity|apply (bool_decide_unpack _); vm_compute; exact I]
  end.

Lemma attribute_sizes_recovered_witness :
  Columns.getAttrSizeList ["age#0"; "age#1"; "age#2"; "no#0"; "no#1"]%string = Ok [3; 2].
Proof.
  refine (attribute_sizes_recovered [mkAttribute "age" ["0"; "1"; "2"]; mkAttribute "no" ["0"; "1"]] _ _)%string.
  - discriminate.
  - texts.
Defined.

(** C13: training and prediction agree on the meaning of the columns.  The names
    of the columns [src] are those of some attributes, in order, and the names
    of [tgt] those of the values of a class; the parties hold shares of a table
    whose rows have, in these columns, a 1 at their value of each attribute and
    at their class.  Then [SID3Job.compute] returns, at every party, the JSON of
    the party's part of a tree grown from the columns that say, for every
    attribute and value, which rows have the value, and for every class which
    rows have the class; and [SID3Model.predict], given these JSON texts and
    shares of rows that have one value of every attribute in the same columns,
    returns shares that open, at every party, to the classes at the ends of the
    paths of these values. *)
Theorem trained_tree_predicts `{DL : DecLaws} {E : Env} {V : ValidEnv E} {TB} {TL : TripleLaws TB E}
    `{CL : CppIntLaws} `{JL : JsonLib} {JW : JsonLaws JL} Q m W table secrets schemas src tgt l cl train fuel w :
  sizes (TB := TB) Q m (length (values cl)) →
  Z.max Q (predict_size (TB := TB) (length (values cl)) W) + TB * FixedPoint.shift < wire →
  length table = m → Forall2 (Forall2 (bit_cell Q)) table secrets →
  l ≠ [] → Forall attribute_ok l → attribute_ok cl →
  Columns.select schemas src = Ok (concat (map column_names l)) → Columns.select schemas tgt = Ok (column_names cl) →
  training_rows l cl train secrets src tgt →
  Z.of_nat (length l) ≤ 2 ^ 31 → Forall (λ a, (length (values a) ≤ W)%nat) l → (length l + 1 ≤ fuel)%nat →
  ∃ t jsons w', SID3Job.compute table schemas [src; tgt] w = Ok (jsons, w')
    ∧ @grown E fp_value (attribute_columns l (map fst train)) (class_columns cl (map snd train)) t (replicate m 1)
        (map Z.of_nat (seq 0 (length l)))
    ∧ ∀ rows row_secrets vals w2,
        Forall2 (Forall2 (WShares Q)) rows row_secrets →
        traverse (λ row, Columns.select row src) row_secrets = Ok (map (encode l) vals) →
        Forall (λ v : list nat, length v = length l) vals →
        ∃ xs w3, SID3Model.predict fuel jsons rows schemas src w2 = Ok (xs, w3)
          ∧ Forall2 (λ x v, ∀ me, @recons_at fp_value E me x = Ok (path_class t v * FixedPoint.shift)) xs vals.
Proof.
  intros SZ Hw Hm Ht Hne Hl Hcl Hs1 Hs2 Htr Hattrs HW Hf.
  pose proof (inputs_of_training l cl train secrets schemas src tgt Hne Hl Hcl Hs1 Hs2 Htr) as Hin.
  set (sv := attribute_columns l (map fst train)) in *. set (tv := class_columns cl (map snd train)) in *.
  assert (length tv = length (values cl)) as Htv by (unfold tv, class_columns; by rewrite length_map, length_seq).
  rewrite <- Htv in SZ, Hw.
  destruct (compute_runs Q m table secrets schemas _ sv tv (length l) w SZ Hm Ht Hin) as (jsons & w' & Hc & t & Hg & ->).
  exists t, (map (λ i, SID3.createTreeJson (SID3.local i t)) parties), w'. split; [done|]. split; [done|].
  intros rows row_secrets vals w2 Hrows Hins Hv. eapply (predict_trained Q m W secrets schemas src tgt sv tv (length l) fuel
    t rows row_secrets vals w2); try done; [by eapply input_bits| | |].
  - unfold sv, attribute_columns, sizes_of. apply Forall_lookup. intros a sa Ha. apply list_lookup_imap_Some in Ha as (n & Hn & ->).
    rewrite length_map, length_seq. apply list_lookup_fmap_Some in Hn as (at_ & -> & Hat).
    rewrite Forall_lookup in HW. by eapply HW.
  - rewrite Hins. f_equal. apply map_ext. intros v. unfold encode, sv. by rewrite onehots_blocks.
  - unfold sv. by rewrite attribute_columns_length.
Qed.

(** The training set of [Toy] as a table. *)
Definition toy_names : list string := ["a#0"; "a#1"; "b#0"; "b#1"; "class#0"; "class#1"]%string.
Definition toy_rows : list (list Z) :=
  [[1; 0; 1; 0; 1; 0]; [1; 0; 0; 1; 1; 0]; [0; 1; 1; 0; 0; 1]; [0; 1; 0; 1; 1; 0]].
Definition toy_table : list (list sharing) := map Toy.share_bits toy_rows.
Definition toy_attributes : list attribute := [mkAttribute "a" ["0"; "1"]; mkAttribute "b" ["0"; "1"]]%string.
Definition toy_class : attribute := mkAttribute "class" ["0"; "1"]%string.
Definition toy_train : list (list nat * nat) := [([0; 0], 0); ([0; 1], 0); ([1; 0], 1); ([1; 1], 0)]%nat.

Lemma trained_tree_predicts_witness :
  let R := [0; 1] in
  ∃ t jsons w', @SID3Job.compute rat_dec steady_env nearest json_tree toy_table toy_names [[1; 2; 3; 4]; [5; 6]] world0
      = Ok (jsons, w')
    ∧ @grown steady_env (@fp_value rat_dec) Toy.sv Toy.tv t (replicate 4 1) R
    ∧ ∀ rows row_secrets vals w2,
        Forall2 (Forall2 (@WShares steady_env Toy.Q)) rows row_secrets →
        traverse (λ row, Columns.select row [1; 2; 3; 4]) row_secrets = Ok (map (encode toy_attributes) vals) →
        Forall (λ v : list nat, length v = 2%nat) vals →
        ∃ xs w3, @SID3Model.predict rat_dec steady_env json_tree 3 jsons rows toy_names [1; 2; 3; 4] w2 = Ok (xs, w3)
          ∧ Forall2 (λ x v, ∀ me, @recons_at (@fp_value rat_dec) steady_env me x
                                  = Ok (path_class t v * FixedPoint.shift)) xs vals.
Proof.
  intros R.
  refine (@trained_tree_predicts rat_dec rat_laws steady_env _ 36 _ nearest nearest_laws json_tree _ Toy.Q 4 2
    toy_table toy_rows toy_names [1; 2; 3; 4] [5; 6] toy_attributes toy_class toy_train 3 world0
    _ _ _ _ _ _ _ _ _ _ _ _ _).
  - exact Toy.toy_sizes.
  - vm_compute; reflexivity.
  - reflexivity.
  - unfold toy_table. apply Forall2_fmap_l, Forall_Forall2_diag.
    repeat (apply Forall_cons_2 || apply Forall_nil_2); unfold compose, Toy.share_bits;
      apply Forall2_fmap_l, Forall_Forall2_diag; repeat (apply Forall_cons_2 || apply Forall_nil_2);
      (split; [apply Toy.share_bit_shares|]); unfold bit; lia.
  - discriminate.
  - unfold toy_attributes. texts.
  - unfold toy_class. texts.
  - vm_compute; reflexivity.
  - vm_compute; reflexivity.
  - split_and!; [by repeat constructor|vm_compute; reflexivity|vm_compute; reflexivity].
  - vm_compute; discriminate.
  - repeat constructor.
  - simpl; lia.
Defined.

(** A row with the second value of the first attribute and the first of the second. *)
Lemma toy_row : traverse (λ row, Columns.select row [1; 2; 3; 4]) [[0; 1; 1; 0]]
  = Ok (map (encode toy_attributes) [[1%nat; 0%nat]]).
Proof. reflexivity. Qed.
