(* ===== verification/MathFunctions.v ===== *)
(** * Exponential, sigmoid, deviation and correlation  (Math/Math.cpp)
      and the correlation and mesh-code jobs
      (Job/Jobs/CorrelJob.hpp, Job/Jobs/MeshCodeJob.hpp)

    [exp] is the Maclaurin polynomial of degree 99 on shares; [open_sigmoid]
    opens its argument, takes the exponential in [double] and shares it again;
    [stdev] opens the variance and takes the root with 100 decimal digits.
    [std::exp] and the 100-digit type are parameters. *)
From stdpp Require Import base list numbers sets strings.
From Stdlib Require Import ZArith Lia.
From S2P Require Import Prelude FixedPoint Random TripleHandler Share SharePF ShareFP Double FixedCompare.
From S2P Require Import FixedCompareCorrect FixedWhole FixedInverse Columns.
#[local] Open Scope Z_scope.
#[local] Open Scope qmpc_scope.
#[local] Abbreviation n := (Z.of_nat n_parties).

(** [std::exp(double)] *)
Class CppExp := exp_double : Double.double → Double.double.

(** [cpp_dec_float_100]: construction from a string, [value < 0], [value = 0],
    [sqrt], and the conversion [static_cast<T>(v * shift)] to units. *)
Class Dec100 := {
  D100 : Type;
  d100_of_str : string → result D100;
  d100_negative : D100 → bool;
  d100_zero : D100;
  d100_sqrt : D100 → D100;
  d100_units : D100 → Z
}.

(** A non-negative number printed with 20 places keeps its units, and its root
    in units is exact up to one. *)
Class Dec100Laws `(DF : DecFloat) `(D1 : Dec100) : Prop := {
  d100_read : ∀ x, Z.abs x < wire → ∃ v, d100_of_str (FixedPoint.getStrVal x) = Ok v
    ∧ (d100_negative v = true ↔ x < 0)
    ∧ (0 ≤ x → Z.abs (d100_units (d100_sqrt v) - Z.sqrt (x * FixedPoint.shift)) ≤ 1);
  d100_sqrt_zero : d100_units (d100_sqrt d100_zero) = 0
}.

Module MathF.
Import FixedPoint FixedDouble FixedCompare.

Section Functions.
Context `{DF : DecFloat} `{E : Env} `{CI : CppInt}.
#[local] Existing Instance fp_value.

(** ** The exponential *)

Definition N : nat := 100.

(** [px[i] = px[i - 1] * x] for the next [n] indices. *)
Fixpoint powers (n : nat) (px x : sharing) : M (list sharing) :=
  match n with
  | O => ret []
  | S n => let* q := s_mul px x in let* qs := powers n q x in ret (q :: qs)
  end.

(** [k[i] = k[i - 1] * i] *)
Fixpoint factorials (n : nat) (i k : Z) : list Z :=
  match n with
  | O => []
  | S n => let k := mul k (fp i) in k :: factorials n (i + 1) k
  end.

Definition exp (x : sharing) : M sharing :=
  let one := s_addc s_zero (fp 1) in
  let* px := powers (N - 1) one x in
  let k := factorials (N - 1) 1 (fp 1) in
  ret (fold_left s_add (one :: zip_with Math.s_divc px k) (s_lit 0)).

Definition sigmoid (x : sharing) (a : Z) : M sharing :=
  let* exp_ := exp (s_mulc x a) in
  let* exp_inv := s_getInv exp_ in
  let exp_1 := s_addc exp_inv (fp 1) in
  s_getInv exp_1.

(** Every party looks at its own value for an infinity. *)
Definition infinite (x : sharing) : list bool := map (λ v, Double.isinf (int_to_double v)) x.

(** The second call passes the opened number, which becomes a share by
    [Share(const SV &)], and not [a]. *)
Fixpoint open_sigmoid `{CppExp} (fuel : nat) (x_s : sharing) (a : Z) : M sharing :=
  match fuel with
  | O => throw OutOfFuel
  | S fuel =>
      let* s := open_recons x_s in
      let* E := lift (of_double (exp_double (Double.neg (getDoubleVal (mul s a))))) in
      let* E_s := sharize E in
      let* one := lift (of_string "1") in
      let one_s := getConstantShare one in
      let* r := s_div one_s (s_add one_s E_s) in
      if forallb negb (infinite r) then ret r
      else if forallb id (infinite r) then open_sigmoid fuel (s_lit s) (fp 1)
      else throw (Undefined "the parties disagree")
  end.

(** [a] is not passed on. *)
Definition open_sigmoid_vector `{CppExp} (fuel : nat) (v_s : list sharing) (a : Z) : M sharing :=
  open_sigmoid fuel (Math.sum v_s) (fp 1).

(** ** Standard deviation and correlation *)

Definition stdev `{Dec100} (v : list sharing) : M Z :=
  let* var := Math.variance v in
  let* stdev := open_recons var in
  let* value := lift (d100_of_str (getStrVal stdev)) in
  let value := if d100_negative value then d100_zero else value in
  ret (d100_units (d100_sqrt value)).

(** [FixedPoint(0.001)], as the constructor from double truncates it. *)
Definition milli : Z := 100000.

(** A deviation of at most [0.001] counts as [FixedPoint("0.001")]. *)
Definition at_least (stde : Z) : result Z :=
  if leb stde milli && geb stde (- milli) then of_string "0.001" else Ok stde.

Definition correl `{Dec100} (x y : list sharing) : M sharing :=
  if negb (length x =? length y)%nat then throw (RuntimeError "input Size is not Equal")
  else
    let* aveX := lift (Math.smean x) in
    let* aveY := lift (Math.smean y) in
    let* stdeX := stdev x in
    let* stdeY := stdev y in
    let* stdeX := lift (at_least stdeX) in
    let* stdeY := lift (at_least stdeY) in
    let tmpX := map (λ x_i, s_sub x_i aveX) x in
    let tmpY := map (λ y_i, s_sub y_i aveY) y in
    let* tmpVec := v_mul tmpX tmpY in
    let r := fold_left s_add tmpVec s_zero in
    let* size := lift (of_integral (Z.of_nat (length x))) in
    ret (Math.s_divc (Math.s_divc (Math.s_divc r stdeX) stdeY) size).
End Functions.
End MathF.

Module CorrelJob.
Section CorrelJob.
Context `{DF : DecFloat} `{E : Env} `{Dec100}.

(** Column [w] of the table. *)
Definition column (table : list (list sharing)) (w : Z) : result (list sharing) :=
  traverse (λ row, vec_at row (w - 1)) table.

(** A row per target, with its correlation to every column. *)
Definition compute (table : list (list sharing)) (arg : list (list Z)) : M (list (list sharing)) :=
  match table with
  | [] => throw (Undefined "table[0]")
  | _ =>
      let* arg0 := lift (vec_at arg 0) in
      let* cols := lift (traverse (column table) arg0) in
      let* arg1 := lift (vec_at arg 1) in
      let* targets := lift (traverse (column table) arg1) in
      mmap (λ target, mmap (λ col, MathF.correl col target) cols) targets
  end.
End CorrelJob.
End CorrelJob.

(** [MeshCodeFunction] and its job. *)
Module MeshCode.
Import FixedPoint FixedCompare.
Section MeshCode.
Context `{DF : DecFloat} `{E : Env} `{CI : CppInt}.
Context (fuel : nat).
#[local] Existing Instance fp_value.

(** [FixedPoint("c") * v] and [v / FixedPoint("c")], which multiplies by
    [SV(1.0) / c]. *)
Definition times (c : string) (v : list sharing) : M (list sharing) :=
  let* c := lift (of_string c) in ret (v_mulc v c).
Definition over (v : list sharing) (c : string) : M (list sharing) :=
  let* c := lift (of_string c) in ret (v_mulc v (div (fp 1) c)).
Definition minus_times (a : list sharing) (c : string) (v : list sharing) : M (list sharing) :=
  let* cv := times c v in v_sub a cv.
Definition floor_over (v : list sharing) (c : string) : M (list sharing) :=
  let* q := over v c in getFloor_vec fuel q.
(** [v * FixedPoint("2") + (w + FixedPoint("1"))] *)
Definition twice_plus (v w : list sharing) : M (list sharing) :=
  let* two := lift (of_string "2") in
  let* one := lift (of_string "1") in
  v_add (v_mulc v two) (v_addc w one).

Definition meshcode_transform (latitude longitude : list sharing) : M (list (list sharing)) :=
  let* l15 := times "1.5" latitude in
  let* p := getFloor_vec fuel l15 in
  let* l60 := times "60" latitude in
  let* a := minus_times l60 "40" p in
  let* q := floor_over a "5" in
  let* b := minus_times a "5" q in
  let* b2 := times "2" b in
  let* r := getFloor_vec fuel b2 in
  let* b60 := times "60" b in
  let* c := minus_times b60 "30" r in
  let* s := floor_over c "15" in
  let* d := minus_times c "15" s in
  let* t := floor_over d "7.5" in
  let* e := minus_times d "7.5" t in
  let* hundred := lift (of_string "100") in
  let* u := getFloor_vec fuel (v_subc longitude hundred) in
  let* f := v_sub (v_subc longitude hundred) u in
  let* f8 := times "8" f in
  let* v := getFloor_vec fuel f8 in
  let* f60 := times "60" f in
  let* g := minus_times f60 "7.5" v in
  let* g60 := times "60" g in
  let* w := floor_over g60 "45" in
  let* h := minus_times g60 "45" w in
  let* x := floor_over h "22.5" in
  let* i := minus_times h "22.5" x in
  let* y := floor_over i "11.25" in
  let* j := minus_times i "11.25" y in
  let* m := twice_plus s x in
  let* n := twice_plus t y in
  lift (traverse (λ i, traverse (λ col, vec_at col (Z.of_nat i)) [p; u; q; v; r; w; m; n])
          (seq 0 (length latitude))).

(** [compute]: the first two rows of the table are latitudes and longitudes. *)
Definition compute (table : list (list sharing)) (arg : list (list Z)) : M (list (list sharing)) :=
  let* arg0 := lift (vec_at arg 0) in
  let* cells := lift (traverse (λ index,
      let! row0 := vec_at table 0 in let! la := vec_at row0 (index - 1) in
      let! row1 := vec_at table 1 in let! lo := vec_at row1 (index - 1) in Ok (la, lo)) arg0) in
  meshcode_transform (map fst cells) (map snd cells).
End MeshCode.
End MeshCode.

(** * Lemmas *)

Section Sigmoid.
Context `{DL : DecLaws} `{E : Env} `{V : !ValidEnv E} {TB : Z} `{TL : !TripleLaws TB E} `{CL : CppIntLaws}
  `{CE : CppExp}.
#[local] Existing Instance fp_value.
Import FixedPoint FixedDouble FixedCompare MathF.

(** Local values of [one_s + E_s] for exponentials up to [e]. *)
Definition sigmoid_size (e : Z) : Z := shift + e + 1000 * shift * n.
Definition sigmoid_bound (e : Z) : Z := mul_bound TB (quot_size (T := TB) shift (sigmoid_size e)).

Lemma not_infinite B x v : FShares B x v → B < 2 ^ 900 → forallb negb (infinite x) = true.
Proof.
  intros (_ & Hb & _) HB. unfold infinite. apply forallb_forall. intros b Hb'.
  apply in_map_iff in Hb' as (a & <- & Ha). rewrite Forall_forall in Hb.
  apply list_elem_of_In in Ha. specialize (Hb a Ha). cbn in Hb.
  destruct (int_close a) as (k & -> & _); [lia|done].
Qed.

Lemma sigmoid_size_nonneg e e_max : 0 ≤ e ≤ e_max → 0 ≤ sigmoid_size e_max.
Proof. intros He. unfold sigmoid_size, shift. lia. Qed.

Lemma one_string : of_string "1" = Ok (1 * shift).
Proof. change "1"%string with (TripleHandler.to_string 1). apply (dec_int 1). reflexivity. Qed.

(** The two operands of the division. *)
Lemma sigmoid_operands E_s e e_max : 0 ≤ e ≤ e_max → FShares (Z.abs e + 1000 * shift * n) E_s e →
  FShares (sigmoid_size e_max) (getConstantShare (1 * shift)) shift
  ∧ FShares (sigmoid_size e_max) (s_add (getConstantShare (1 * shift)) E_s) (shift + e).
Proof.
  intros He HE. pose proof (WShares_const (E := E) 1) as H1. pose proof sp_valid as Hsp. split.
  - eapply FShares_weaken; [exact H1|]. unfold sigmoid_size, shift in *. lia.
  - eapply FShares_weaken; [exact (FShares_add _ _ _ _ _ _ H1 HE)|]. unfold sigmoid_size, shift in *. lia.
Qed.

Lemma open_sigmoid_runs fuel B x v a e e_max w :
  FShares B x v → B < wire →
  of_double (exp_double (Double.neg (getDoubleVal (mul v a)))) = Ok e → 0 ≤ e ≤ e_max →
  invertible (T := TB) shift (sigmoid_size e_max) → opened TB (quot_size (T := TB) shift (sigmoid_size e_max)) < wire →
  sigmoid_bound e_max < wire →
  runs (open_sigmoid (S fuel) x a) w (λ y _, FShares (sigmoid_bound e_max) y (Zsum y)
    ∧ quotient_of shift (shift + e) (Zsum y)).
Proof.
  intros Hx HB He Hee Hinv Ho Hs. cbn [open_sigmoid].
  eapply runs_bind; [by eapply runs_lift_eq, recons_fp|]. intros ? ? [-> ->].
  eapply runs_bind; [by eapply runs_lift_eq|]. intros ? ? [-> ->].
  eapply runs_bind; [apply sharize_fp|]. intros E_s w1 HE.
  eapply runs_bind; [apply runs_lift_eq, one_string|]. intros ? ? [-> ->].
  destruct (sigmoid_operands E_s e e_max Hee HE) as [H1 Hd].
  eapply runs_bind.
  { apply (s_div_fp shift (sigmoid_size e_max) _ _ _ _ _ H1 Hd); [unfold shift in *; lia|by eapply sigmoid_size_nonneg|exact Hinv|exact Ho]. }
  cbv beta. intros r w2 [Hr Hq]. fold (sigmoid_bound e_max) in Hr.
  rewrite (not_infinite _ _ _ Hr).
  - by apply runs_ret.
  - eapply Z.lt_trans; [exact Hs|]. vm_compute. reflexivity.
Qed.
End Sigmoid.

Section Deviation.
Context `{DL : DecLaws} `{E : Env} `{V : !ValidEnv E} {TB : Z} `{TL : !TripleLaws TB E} `{D1 : Dec100} `{!Dec100Laws DF D1}.
#[local] Existing Instance fp_value.
Import FixedPoint MathF.

Lemma root_of_opened x : Z.abs x < wire → ∃ v, d100_of_str (getStrVal x) = Ok v
  ∧ Z.abs (d100_units (d100_sqrt (if d100_negative v then d100_zero else v)) - Z.sqrt (Z.max 0 x * shift)) ≤ 1.
Proof.
  intros Hx. destruct (d100_read x Hx) as (v & Hv & Hn & Hs). exists v. split; [done|].
  destruct (d100_negative v).
  - pose proof (proj1 Hn eq_refl). rewrite d100_sqrt_zero, Z.max_l, Z.mul_0_l by lia. by cbn.
  - assert (0 ≤ x) by (destruct (Z.lt_ge_cases x 0); [|done]; discriminate (proj2 Hn ltac:(done))). rewrite Z.max_r by lia. by apply Hs.
Qed.
End Deviation.

(** * Theorems *)

Import FixedPoint FixedDouble MathF.

(** [open_sigmoid] opens to the sigmoid of its secret: with [e] the units
    of [std::exp(-x * a)], the opened result [r] is within [1 + 999 * n] units
    of [1 / (1 + e)] (in units: [shift^2 / (shift + e)]), and the first attempt
    is kept. *)
Theorem open_sigmoid_close `{DL : DecLaws} {E : Env} {V : ValidEnv E} {TB} {TL : TripleLaws TB E}
    `{CL : CppIntLaws} {CE : CppExp} fuel B x v a e e_max w :
  FShares B x v → B < wire →
  of_double (exp_double (Double.neg (getDoubleVal (mul v a)))) = Ok e → 0 ≤ e ≤ e_max →
  invertible (T := TB) shift (sigmoid_size e_max) → opened TB (quot_size (T := TB) shift (sigmoid_size e_max)) < wire →
  sigmoid_bound (TB := TB) e_max < wire →
  ∃ y w' r, open_sigmoid (S fuel) x a w = Ok (y, w') ∧ (∀ me, @recons_at fp_value E me y = Ok r)
    ∧ Z.abs (r * (shift + e) - shift * shift) ≤ (shift + e) * (1 + 999 * n).
Proof.
  intros Hx HB He Hee Hinv Ho Hs.
  destruct (open_sigmoid_runs fuel B x v a e e_max w Hx HB He Hee Hinv Ho Hs) as (y & w' & Hy & Hys & Hq).
  exists y, w', (Zsum y). split; [exact Hy|]. split; [intros me; by eapply recons_fp|].
  unfold quotient_of in Hq. rewrite (Z.abs_eq (shift + e)), (Z.abs_eq shift) in Hq by (unfold shift in *; lia).
  apply (Z.mul_le_mono_pos_l _ _ shift); [done|]. lia.
Qed.

(** [stdev] opens to the root of the variance (as shares compute it, 0 if
    it opens to less), exact up to one unit of the last place. *)
Theorem stdev_is_root `{DL : DecLaws} {E : Env} {V : ValidEnv E} {TB} {TL : TripleLaws TB E}
    `{D1 : Dec100} {DL1 : Dec100Laws DF D1} B v vs w :
  Forall2 (FShares B) v vs → v ≠ [] → 0 ≤ B → Z.of_nat (length v) < 2 ^ 31 →
  let k := Z.of_nat (length v) in
  let B' := B + (k * B + 1) in
  opened TB B' < wire → n * (k * mul_bound TB B' + 1) < wire → k * B + 1 < wire →
  ∃ m var s w', stdev v w = Ok (s, w')
    ∧ Z.abs (k * m - Zsum vs) ≤ n * k
    ∧ Z.abs (shift * k * var - Zsum (map (λ x, (x - m) * (x - m)) vs)) ≤ (n + 1) * k * shift
    ∧ Z.abs (s - Z.sqrt (Z.max 0 var * shift)) ≤ 1.
Proof.
  intros Hv Hne HB Hl k B' Ho Hm Hn. pose proof sp_valid as Hsp.
  assert (0 ≤ k * mul_bound TB B') as Hmb.
  { apply Z.mul_nonneg_nonneg; [lia|]. apply (mul_bound_nonneg (T := TB)). unfold B'. nia. }
  assert (k * mul_bound TB B' + 1 < wire) as Hm' by nia.
  destruct (variance_fp B v vs w Hv Hne HB Hl Ho ltac:(unfold B', k in *; lia) ltac:(unfold k in *; lia))
    as (avg & Havg & x & w' & Hx & Hxs & Hxe).
  destruct (smean_fp B v vs Hv Hne HB Hl ltac:(fold k; lia)) as (avg' & Havg' & Ha & Hae).
  rewrite Havg in Havg'. injection Havg' as <-.
  pose proof (FShares_abs _ _ _ Hxs) as Hxa.
  destruct (root_of_opened (Zsum x)) as (d & Hd & Hr).
  { eapply Z.le_lt_trans; [exact Hxa|]. exact Hm. }
  exists (Zsum avg), (Zsum x), (d100_units (d100_sqrt (if d100_negative d then d100_zero else d))), w'.
  split_and!; [|exact Hae|exact Hxe|exact Hr].
  unfold stdev, bind. rewrite Hx. cbn [rbind]. unfold open_recons, lift.
  rewrite (recons_fp sp_id _ _ _ Hxs) by exact Hm'. cbn [rbind]. by rewrite Hd.
Qed.

(** ** Concrete parameters *)

Definition exp_one : CppExp := λ _, Double.of_Z 1.

(** Numbers of units, and the integer root. *)
Definition units_100 : Dec100 := {|
  D100 := Z;
  d100_of_str := @FixedPoint.of_string rat_dec;
  d100_negative := λ v, v <? 0;
  d100_zero := 0;
  d100_sqrt := λ v, Z.sqrt (v * shift);
  d100_units := λ v, v
|}.
#[export] Instance units_100_laws : Dec100Laws rat_dec units_100.
Proof.
  split; [|reflexivity]. intros x Hx. exists x. split; [by apply (dec_wire (DecLaws := rat_laws))|].
  cbn. split; [apply Z.ltb_lt|]. intros _. lia.
Qed.

(** At 0 the exponential is 1. *)
Lemma open_sigmoid_close_witness :
  let x := [5 * shift; - shift; - 4 * shift] in
  let n := Z.of_nat (@n_parties steady_env) in
  ∃ y w' r, @open_sigmoid rat_dec steady_env nearest exp_one 1 x shift world0 = Ok (y, w')
    ∧ (∀ me, @recons_at (@fp_value rat_dec) steady_env me y = Ok r)
    ∧ Z.abs (r * (shift + shift) - shift * shift) ≤ (shift + shift) * (1 + 999 * n).
Proof.
  intros x n.
  refine (@open_sigmoid_close rat_dec rat_laws steady_env _ 36 _ nearest nearest_laws exp_one 0 (5 * shift) x 0 shift
    shift shift world0 _ _ _ _ _ _ _).
  - demo_fshares.
  - vm_compute; reflexivity.
  - vm_compute; reflexivity.
  - split; vm_compute; discriminate.
  - split_and!; vm_compute; reflexivity.
  - vm_compute; reflexivity.
  - vm_compute; reflexivity.
Defined.

Lemma stdev_is_root_witness :
  let v := [[2 * shift; - shift; 0]; [shift; shift; shift]] in
  let vs := [shift; 3 * shift] in
  let n := Z.of_nat (@n_parties demo_env) in
  let k := Z.of_nat (length v) in
  ∃ m var s w', @stdev rat_dec demo_env units_100 v world0 = Ok (s, w')
    ∧ Z.abs (k * m - Zsum vs) ≤ n * k
    ∧ Z.abs (shift * k * var - Zsum (map (λ x, (x - m) * (x - m)) vs)) ≤ (n + 1) * k * shift
    ∧ Z.abs (s - Z.sqrt (Z.max 0 var * shift)) ≤ 1.
Proof.
  intros v vs n k.
  refine (@stdev_is_root rat_dec rat_laws demo_env _ 36 _ units_100 _ (2 * shift) v vs world0 _ _ _ _ _ _ _).
  - repeat (apply Forall2_cons; split); [demo_fshares|demo_fshares|constructor].
  - discriminate.
  - vm_compute; discriminate.
  - vm_compute; reflexivity.
  - vm_compute; reflexivity.
  - vm_compute; reflexivity.
  - vm_compute; reflexivity.
Defined.
