(* ===== verification/Regression.v ===== *)
(** * Regression trees and boosting
      (GBDT/SID3Regression.hpp, GBDT/SID3Regression.cpp, GBDT/SGBM.hpp)

    A regression tree predicts the mean target of the training rows in a node
    and splits on the attribute with the least squared error; [grad] collects
    the predictions of the leaves for the training rows.  [SGBM] fits tree after
    tree to what is left of the targets and adds up their gradients. *)
From stdpp Require Import base list numbers sets strings.
From Stdlib Require Import ZArith Lia.
From S2P Require Import Prelude FixedPoint Random TripleHandler Share SharePF ShareFP Double FixedCompare.
From S2P Require Import FixedCompareCorrect FixedWhole FixedInverse Sized Json SID3 SID3Correct.
#[local] Open Scope Z_scope.
#[local] Open Scope qmpc_scope.
#[local] Abbreviation n := (Z.of_nat n_parties).

Module SID3Regression.
Import FixedPoint FixedDouble FixedCompare.

(** [rows] is [T.size()]; [error_value] and [att_class] are set by [IG]. *)
Inductive node : Type :=
  mkNode (rows : nat) (size : Z) (y : sharing) (grads : list sharing)
    (error_value : Double.double) (att_class : Z) (children : list node).

Definition size (t : node) : Z := let '(mkNode _ s _ _ _ _ _) := t in s.
Definition children (t : node) : list node := let '(mkNode _ _ _ _ _ _ c) := t in c.

(** [std::min_element] of pairs; the first of equals. *)
Definition min_element {A} (lt : A → A → bool) (l : list A) : option A :=
  match l with
  | [] => None
  | x :: l => Some (fold_left (λ smallest it, if lt it smallest then it else smallest) l x)
  end.

Section SID3Regression.
Context `{DF : DecFloat} `{E : Env} `{CI : CppInt}.
#[local] Existing Instance fp_value.

Definition dot (x y : list sharing) : M sharing :=
  let* ret := v_mul x y in Share.ret (Math.sum ret).

(** ** The gradients of the training rows *)

(** [ret[i] += child_grad[i]] for [i] below [size]. *)
Fixpoint add_rows (k : nat) (ret child_grad : list sharing) : result (list sharing) :=
  match k with
  | O => Ok ret
  | S k =>
      match ret, child_grad with
      | r :: ret, c :: child_grad => let! rs := add_rows k ret child_grad in Ok (s_add r c :: rs)
      | _, _ => Throw (Undefined "vector index")
      end
  end.

Section Collect.
Context {A : Type} (grad : A → result (list sharing)) (size : nat).
Fixpoint collect (cs : list A) (ret : list sharing) : result (list sharing) :=
  match cs with
  | [] => Ok ret
  | child :: cs =>
      let! child_grad := grad child in
      let! ret := add_rows size ret child_grad in
      collect cs ret
  end.
End Collect.

(** The loop over the rows runs to [size], the number of rows in the node, and
    not to [T.size()]. *)
Fixpoint grad (t : node) : result (list sharing) :=
  let '(mkNode rows size _ grads _ _ children) := t in
  match children with
  | [] => Ok grads
  | _ => collect grad (Z.to_nat size) children (replicate rows s_zero)
  end.

(** ** Training *)

(** The squared error of the rows of a category, from their mean. *)
Definition infomationGain (T targets category : list sharing) : M sharing :=
  let* mask := v_mul category T in
  let mask_size_share := Math.sum mask in
  let* mask_size := open_recons mask_size_share in
  if FixedPoint.eqb mask_size (fp 0) then ret (s_lit (fp 1000000000))
  else
    let* d := dot mask targets in
    let average := Math.s_divc d mask_size in
    let* average_mask := v_mul (replicate (length T) average) mask in
    let* target_mask := v_mul targets mask in
    let* ret := mfold (λ acc (ta : sharing * sharing),
        let cur := s_sub ta.1 ta.2 in
        let* cur := s_mul cur cur in
        Share.ret (s_add acc cur)) (zip target_mask average_mask) s_zero in
    Share.ret (Math.s_divc ret (fp 2)).

Definition IG (T targets : list sharing) (S_ : list (list (list sharing))) (R : list Z) :
    M (Double.double * Z) :=
  let* categoryErrors := mmap (λ r,
      let* categories := lift (vec_at S_ r) in
      let* sumError := mfold (λ acc category,
          let* g := infomationGain T targets category in ret (s_add acc g)) categories s_zero in
      let* categoryError := open_recons sumError in
      ret (getDoubleVal categoryError, r)) R in
  match min_element SID3.lt_gini categoryErrors with
  | None => ret (Double.of_Z (-1), -1)
  | Some m => ret m
  end.

Definition dataSize (T : list sharing) : M Z := SID3.dataSize T.

(** The constructor: the number of rows, their mean target, and the mean in
    the rows of the node. *)
Definition make (T targets : list sharing) : M (Z * sharing * list sharing) :=
  let* size := dataSize T in
  let* y := dot targets T in
  let* y := (if 1 <? size then let* s := lift (of_integral size) in ret (Math.s_divc y s) else ret y) in
  let* grads := v_mul (replicate (length T) y) T in
  ret (size, y, grads).

(** [T.size() >= 3 * size] compares as [size_t]. *)
Definition stop (rows : nat) (size : Z) (R : list Z) : bool :=
  match R with [] => true | _ => false end
  || ((3 * size) mod 2 ^ 64 <=? Z.of_nat rows) || (0 =? size).

Fixpoint createTree (fuel : nat) (T : list sharing) (S_ : list (list (list sharing)))
    (targets : list sharing) (R : list Z) : M node :=
  match fuel with
  | O => throw OutOfFuel
  | S fuel =>
      let* c := make T targets in
      let '(size, y, grads) := c in
      let* ea := IG T targets S_ R in
      let '(error_value, att_class) := ea in
      if stop (length T) size R then ret (mkNode (length T) size y grads error_value att_class [])
      else
        let R_ := SID3.erase R att_class in
        let* S_att := lift (vec_at S_ att_class) in
        let* children := mmap (λ S_j,
            let* T_ := v_mul T S_j in createTree fuel T_ S_ targets R_) S_att in
        ret (mkNode (length T) size y grads error_value att_class children)
  end.

(** ** Prediction *)

Fixpoint predict (t : node) (data : list (list sharing)) : M sharing :=
  let '(mkNode _ _ y _ _ att_class children) := t in
  match children with
  | [] => ret y
  | _ =>
      let* attribute_value := lift (vec_at data att_class) in
      SID3.weighted (λ child, predict child data) attribute_value children 0 s_zero
  end.

(** What party [i] writes. *)
Fixpoint createTreeJson `{JL : JsonLib} (i : nat) (t : node) : json :=
  let '(mkNode _ size y _ error_value att_class children) := t in
  j_object ([field "size" (j_int size)]
    ++ match children with [] => [] | _ => [field "att_class" (j_int att_class)] end
    ++ [field "error_value" (j_double error_value)]
    ++ match children with [] => [field "y_dash" (j_double (getDoubleVal (nth (i - 1) y 0)))] | _ => [] end
    ++ [field "children" (j_array (map (createTreeJson i) children))]).
End SID3Regression.
End SID3Regression.

Module SGBM.
Import FixedPoint FixedDouble FixedCompare.

(** The object: the trees so far and the first guess. *)
Record SGBM := mkSGBM { trees : list SID3Regression.node; init : sharing }.

Section SGBM.
Context `{DF : DecFloat} `{E : Env} `{CI : CppInt}.
#[local] Existing Instance fp_value.
Context (lr : Z) (T : list sharing) (S_ : list (list (list sharing))) (targets : list sharing) (R : list Z).

(** One iteration: a tree for what is left, its gradient added with the rate. *)
Definition iteration (state : list SID3Regression.node * list sharing) (_ : nat) :
    M (list SID3Regression.node * list sharing) :=
  let '(trees, currentY) := state in
  let* _ := (if (length targets <? length T)%nat then throw (Undefined "targets[i]") else ret ()) in
  let diff := zip_with s_sub targets currentY in
  let* tree := SID3Regression.createTree (S (length R)) T S_ diff R in
  let* grad := lift (SID3Regression.grad tree) in
  ret (trees ++ [tree], zip_with (λ y g, s_add y (s_mulc g lr)) currentY grad).

(** On a new object, whose list of trees is empty. *)
Definition boosting (numIterations : nat) : M (SGBM * list sharing) :=
  let* init := lift (Math.smean targets) in
  let* s := mfold iteration (seq 0 numIterations) ([], replicate (length T) init) in
  ret (mkSGBM s.1 init, s.2).

Definition predict (m : SGBM) (data : list (list sharing)) : M sharing :=
  mfold (λ acc tree,
      let* p := SID3Regression.predict tree data in ret (s_add acc (s_mulc p lr))) (trees m) (init m).

Definition getJson `{JL : JsonLib} (i : nat) (m : SGBM) : list json :=
  map (SID3Regression.createTreeJson i) (trees m).
End SGBM.
End SGBM.

(** * Lemmas *)

Import SID3Regression.

(** Which of several least elements is returned does not matter here. *)
Lemma min_element_elem {A} (lt : A → A → bool) l :
  match min_element lt l with None => l = [] | Some x => x ∈ l end.
Proof.
  destruct l as [|x l]; [done|]. cbn [min_element].
  assert (∀ l acc, fold_left (λ smallest it, if lt it smallest then it else smallest) l acc ∈ acc :: l) as H.
  { clear. induction l as [|y l IH]; intros acc; cbn [fold_left]; [by left|].
    destruct (lt y acc); [right; apply IH|]. specialize (IH acc). set_solver. }
  apply H.
Qed.

Lemma rnode_induction (P : node → Prop) :
  (∀ m s y g e a cs, Forall P cs → P (mkNode m s y g e a cs)) → ∀ t, P t.
Proof.
  intros H. fix IH 1. intros [m s y g e a cs]. apply H.
  induction cs as [|c cs IHcs]; constructor; [apply IH|exact IHcs].
Qed.

(** ** The gradient of an inner node *)

Section Grad.
Context `{DF : DecFloat} `{E : Env}.

Lemma add_rows_spec k ret g ret' : add_rows k ret g = Ok ret' →
  length ret' = length ret ∧ (∀ i, (k ≤ i)%nat → ret' !! i = ret !! i).
Proof.
  revert ret g ret'; induction k as [|k IH]; intros ret g ret' H; cbn [add_rows] in H; [by injection H as <-|].
  destruct ret as [|r ret], g as [|c g]; try discriminate H.
  apply rbind_Ok_inv in H as (rs & Hrs & [= <-]). apply IH in Hrs as [Hl Hi]. cbn. split; [by rewrite Hl|].
  intros [|i] Hk; [lia|]. apply Hi. lia.
Qed.

Lemma collect_spec {A} (f : A → result (list sharing)) k cs ret ret' : collect f k cs ret = Ok ret' →
  length ret' = length ret ∧ (∀ i, (k ≤ i)%nat → ret' !! i = ret !! i).
Proof.
  revert ret; induction cs as [|c cs IH]; intros ret H; cbn [collect] in H; [by injection H as <-|].
  apply rbind_Ok_inv in H as (g & _ & H). apply rbind_Ok_inv in H as (r1 & Hr1 & H).
  apply add_rows_spec in Hr1 as [Hl1 Hi1]. apply IH in H as [Hl Hi]. split; [lia|].
  intros i Hk. by rewrite Hi, Hi1.
Qed.
End Grad.

(** ** Training on the secrets *)

(** The node of the rows [Tv] with targets [us] (in units): their number, and
    their mean up to one unit per party; a single row's target is exact. *)
Definition mean_node `{E : Env} (us Tv : list Z) (s : Z) (y : sharing) : Prop :=
  s = Zsum Tv
  ∧ (1 < s → Z.abs (s * Zsum y - Zsum (inter Tv us)) ≤ n * s)
  ∧ (s ≤ 1 → Zsum y = Zsum (inter Tv us)).

(** The means are shared with local values up to [B] and are at most [K]; the
    gradients are the mean in the rows of the node.  A node that is split has
    more than a third of all rows. *)
Fixpoint fitted `{E : Env} `{SV : ShareValue} (B K : Z) (sv : list (list (list Z))) (us : list Z)
    (t : node) (Tv : list Z) (R : list Z) : Prop :=
  let '(mkNode m s y g e a cs) := t in
  mean_node us Tv s y ∧ m = length Tv
  ∧ (FShares B y (Zsum y) ∧ Z.abs (Zsum y) ≤ K)
  ∧ map Zsum g = inter Tv (replicate m (Zsum y))
  ∧ match cs with
    | [] => R = [] ∨ 3 * s ≤ Z.of_nat m ∨ ∃ r, r ∈ R ∧ vec_at sv r = Ok []
    | _ => Z.of_nat m < 3 * s ∧ ∃ sa, a ∈ R ∧ vec_at sv a = Ok sa
        ∧ all2 (λ c col, fitted B K sv us c (inter Tv col) (SID3.erase R a)) cs sa
    end.

(** The mean at the end of a row's path; 0 when there is no branch for it. *)
Fixpoint path_mean (t : node) (vals : list nat) : Z :=
  let '(mkNode _ _ y _ _ a cs) := t in
  match cs with
  | [] => Zsum y
  | _ => nth (nth (Z.to_nat a) vals 0%nat) (map (λ c, path_mean c vals) cs) 0
  end.

Section Fit.
Context `{DL : DecLaws} `{E : Env} `{V : !ValidEnv E} {TB : Z} `{TL : !TripleLaws TB E} `{CL : CppIntLaws}.
#[local] Existing Instance fp_value.
Import FixedPoint FixedDouble FixedCompare.

(** Magnitudes of the secrets, for targets up to [U] units and [m] rows. *)
Definition mean_max (U : Z) (m : nat) : Z := Z.of_nat m * U + n + 1.
Definition sum_size (U : Z) (m : nat) : Z := Z.of_nat m * prod_size (T := TB) (Z.max shift U) + 1.
Definition residue_size (U : Z) (m : nat) : Z :=
  prod_size (T := TB) (Z.max shift U) + prod_size (T := TB) (Z.max shift (mean_max U m)).
Definition error_size (U : Z) (m : nat) : Z := Z.of_nat m * prod_size (T := TB) (U + mean_max U m).
Definition gain_size (U : Z) (m : nat) : Z := Z.max (fp 1000000000) (error_size U m + 1).

Record fit_sizes (Q U : Z) (m W : nat) : Prop := {
  fs_base : bit_sizes (TB := TB) Q m;
  fs_U : 0 ≤ U;
  fs_sum : sum_size U m + TB * shift < wire;
  fs_residue : residue_size U m + TB * shift < wire;
  fs_error : error_size U m < wire;
  fs_gain : Z.of_nat W * gain_size U m < wire
}.

Context {Q U : Z} {m W : nat} (FS : fit_sizes Q U m W).
#[local] Abbreviation BS := (fs_base _ _ _ _ FS).

Lemma fit_Q : 0 ≤ Q.
Proof. pose proof (bit_product_nonneg (TB := TB)). pose proof (sz_bits _ _ BS). lia. Qed.

Lemma prod_size_nonneg K : 0 ≤ K → 0 ≤ prod_size (T := TB) K.
Proof.
  intros HK. pose proof (gap_nonneg (T := TB) K HK). unfold prod_size. pose proof (T_nonneg (T := TB)). pose proof shift_pos.
  assert (0 ≤ gap (T := TB) K * gap (T := TB) K / shift) by (apply Z.div_pos; nia). nia.
Qed.

Lemma zip_map_l {A B C} (f : A → B) (l : list A) (r : list C) :
  zip (map f l) r = map (λ p, (f p.1, p.2)) (zip l r).
Proof. revert r; induction l as [|x l IH]; intros [|y r]; try done. cbn. by rewrite <- IH. Qed.

Lemma zip_map_r {A B C} (f : A → B) (l : list A) (r : list C) :
  zip r (map f l) = map (λ p, (p.2, f p.1)) (zip l r).
Proof. revert r; induction l as [|x l IH]; intros [|y r]; try done. cbn. by rewrite <- IH. Qed.

(** Products with bits are exact. *)
Lemma masks_exact ks us zs K :
  Forall2 (λ ku z, product_of (T := TB) K (ku.1 * shift) ku.2 z) (zip ks us) zs →
  Forall2 (FShares (prod_size (T := TB) K)) zs (inter ks us).
Proof.
  unfold inter. revert us zs; induction ks as [|k ks IH]; intros us zs Hz; cbn [zip zip_with] in *.
  - by apply Forall2_nil_inv_l in Hz as ->.
  - destruct us as [|u us]; [by apply Forall2_nil_inv_l in Hz as ->|].
    cbn [zip zip_with] in *. apply Forall2_cons_inv_l in Hz as (z & zs' & [Hz He] & Hzs & ->).
    constructor; [|by apply IH]. cbn [fst snd] in He. rewrite <- (approx_whole_l _ _ _ He). exact Hz.
Qed.

Lemma bits_scaled ks K : Forall bit ks → shift ≤ K → Forall (λ v, Z.abs v ≤ K) (map (λ k, k * shift) ks).
Proof. intros Hk HK. apply Forall_fmap. eapply Forall_impl; [exact Hk|]. unfold bit, compose, shift in *. intros; lia. Qed.

Section Mask.
Context (mask ys : list sharing) (ks us : list Z) (K Q' : Z).
Context (Hx : Forall2 (WShares Q') mask ks) (Hk : Forall bit ks) (Hy : Forall2 (FShares Q') ys us)
  (Hu : Forall (λ u, Z.abs u ≤ K) us) (Hl : length mask = length ys) (HK : shift ≤ K) (HQ : Q' + TB * shift < wire).

Lemma v_mul_mask w : runs (v_mul mask ys) w (λ zs _, Forall2 (FShares (prod_size (T := TB) K)) zs (inter ks us)).
Proof.
  eapply runs_mono.
  - apply (v_mul_sized mask ys (map (λ k, k * shift) ks) us Q' K);
      [by apply Forall2_fmap_r|exact Hy|exact Hl|by apply bits_scaled|exact Hu|exact HQ].
  - cbv beta. intros zs w' [Hz _]. apply masks_exact. rewrite zip_map_l in Hz. by apply Forall2_fmap_l in Hz.
Qed.

Lemma v_mul_mask_r w : runs (v_mul ys mask) w (λ zs _, Forall2 (FShares (prod_size (T := TB) K)) zs (inter ks us)).
Proof.
  eapply runs_mono.
  - apply (v_mul_sized ys mask us (map (λ k, k * shift) ks) Q' K);
      [exact Hy|by apply Forall2_fmap_r|by symmetry|exact Hu|by apply bits_scaled|exact HQ].
  - cbv beta. intros zs w' [Hz _]. apply masks_exact. rewrite zip_map_r in Hz. apply Forall2_fmap_l in Hz.
    eapply Forall2_impl; [exact Hz|]. intros [k u] z [H He]. split; [exact H|]. cbn [fst snd] in *.
    unfold approx in *. by rewrite (Z.mul_comm (k * shift)).
Qed.
End Mask.

Lemma inter_abs ks us K : Forall bit ks → Forall (λ u, Z.abs u ≤ K) us → 0 ≤ K → Forall (λ u, Z.abs u ≤ K) (inter ks us).
Proof.
  intros Hk. revert us; induction Hk as [|k ks Hk _ IH]; intros us Hu HK; [constructor|].
  destruct Hu as [|u us Hu Hus]; [constructor|]. cbn. constructor; [|by apply IH].
  destruct Hk as [-> | ->]; lia.
Qed.

Definition Targets (targets : list sharing) (us : list Z) : Prop :=
  Forall2 (FShares Q) targets us ∧ length us = m ∧ Forall (λ u, Z.abs u ≤ U) us.

Lemma sum_shares B (v : list sharing) (vs : list Z) : Forall2 (FShares B) v vs →
  FShares (Z.of_nat (length v) * B) (Math.sum v) (Zsum vs).
Proof. intros H. exact (FShares_sum _ _ _ _ _ _ H FShares_zero). Qed.

(** The sum of the targets of the rows in a mask. *)
Lemma masked_sum zs ks us :
  length ks = m → Forall bit ks → length us = m → Forall (λ u, Z.abs u ≤ U) us →
  Forall2 (FShares (prod_size (T := TB) (Z.max shift U))) zs (inter ks us) →
  FShares (sum_size U m - 1) (Math.sum zs) (Zsum (inter ks us)) ∧ Z.abs (Zsum (inter ks us)) ≤ Z.of_nat m * U.
Proof.
  intros Hlk Hk Hlu Hu Hz. pose proof (sum_shares _ _ _ Hz) as Hs.
  pose proof (Zsum_abs U (inter ks us) (inter_abs ks us U Hk Hu (fs_U _ _ _ _ FS))) as Ha.
  assert (length zs = m ∧ length (inter ks us) = m) as [Hlz Hli].
  { apply Forall2_length in Hz. unfold inter in *. rewrite length_zip_with, Hlk, Hlu in *. lia. }
  rewrite Hli in Ha. split; [|exact Ha]. eapply FShares_weaken; [exact Hs|].
  rewrite Hlz. unfold sum_size. lia.
Qed.

Section Dot.
Context (mask targets : list sharing) (ks us : list Z) (Hm : Bits Q m mask ks) (Htg : Targets targets us).

Let dot_sum (d : sharing) : Prop :=
  FShares (sum_size U m - 1) d (Zsum (inter ks us)) ∧ Z.abs (Zsum (inter ks us)) ≤ Z.of_nat m * U.

Lemma target_abs : Forall (λ u, Z.abs u ≤ Z.max shift U) us.
Proof. destruct Htg as (_ & _ & Hu). eapply Forall_impl; [exact Hu|]. cbn. intros; lia. Qed.

Lemma mask_length : length mask = length targets.
Proof. destruct Htg as (Ht & Hl & _). by rewrite (Bits_length _ _ Hm), (Forall2_length _ _ _ Ht). Qed.

Lemma dot_targets w : runs (SID3Regression.dot mask targets) w (λ d _, dot_sum d).
Proof.
  destruct Htg as (Ht & Hl & Hu). unfold SID3Regression.dot. eapply runs_bind.
  - apply (v_mul_mask mask targets ks us (Z.max shift U) Q);
      [apply Hm|apply Hm|exact Ht|exact target_abs|exact mask_length|lia|apply BS].
  - intros zs w1 Hz. apply runs_ret. apply masked_sum; [apply Hm|apply Hm|done|done|exact Hz].
Qed.

Lemma masked_targets w :
  runs (v_mul targets mask) w (λ zs _, Forall2 (FShares (prod_size (T := TB) (Z.max shift U))) zs (inter ks us)).
Proof.
  apply (v_mul_mask_r mask targets ks us (Z.max shift U) Q);
    [apply Hm|apply Hm|apply Htg|exact target_abs|exact mask_length|lia|apply BS].
Qed.

Lemma dot_targets_r w : runs (SID3Regression.dot targets mask) w (λ d _, dot_sum d).
Proof.
  destruct Htg as (Ht & Hl & Hu). unfold SID3Regression.dot. eapply runs_bind; [apply masked_targets|].
  intros zs w1 Hz. apply runs_ret. apply masked_sum; [apply Hm|apply Hm|done|done|exact Hz].
Qed.
End Dot.

(** The mean of [c] numbers that share [d]. *)
Lemma mean_shares B d D c :
  FShares B d D → 0 ≤ B < wire → 1 ≤ c ≤ 2 ^ 26 → Z.abs D ≤ Z.of_nat m * U →
  let y := Math.s_divc d (c * shift) in
  FShares (B + 1) y (Zsum y) ∧ Z.abs (c * Zsum y - D) ≤ n * c ∧ Z.abs (Zsum y) ≤ mean_max U m.
Proof.
  intros Hd HB Hc HD y. destruct (s_divc_fp B d D c Hd HB ltac:(lia) ltac:(unfold shift, wire; lia)) as [Hy He].
  split; [exact Hy|]. split; [exact He|]. unfold mean_max. pose proof (fs_U _ _ _ _ FS).
  assert (c * Z.abs (Zsum y) ≤ Z.of_nat m * U + n * c) as H'.
  { rewrite <- (Z.abs_eq c) at 1 by lia. rewrite <- Z.abs_mul. fold y in He. lia. }
  assert (0 ≤ Z.of_nat m * U) by lia.
  clear -H' Hc H0. nia.
Qed.

Lemma sum_size_wire : 0 ≤ sum_size U m - 1 < wire ∧ 0 ≤ mean_max U m.
Proof.
  pose proof (fs_U _ _ _ _ FS) as HU. pose proof (fs_sum _ _ _ _ FS). pose proof (T_nonneg (T := TB)). pose proof shift_pos.
  pose proof (prod_size_nonneg (Z.max shift U) ltac:(lia)). unfold sum_size in *. unfold mean_max.
  assert (0 ≤ TB * shift) by nia. split; [split; [nia|lia]|lia].
Qed.

(** A mean in the rows of a mask. *)
Definition wide : Z := Z.max Q (sum_size U m).

Lemma wide_wire : wide + TB * shift < wire.
Proof. pose proof (sz_mul _ _ BS). pose proof (fs_sum _ _ _ _ FS). unfold wide. lia. Qed.

Lemma wide_bits mask ks : Bits Q m mask ks → Forall2 (WShares wide) mask ks.
Proof.
  intros (H & _). eapply Forall2_impl; [exact H|]. intros x k Hx. eapply WShares_weaken; [exact Hx|unfold wide; lia].
Qed.

Lemma wide_mean y : FShares (sum_size U m) y (Zsum y) → Forall2 (FShares wide) (replicate m y) (replicate m (Zsum y)).
Proof. intros Hy. apply Forall2_replicate. eapply FShares_weaken; [exact Hy|unfold wide; lia]. Qed.

Lemma spread_runs mask ks y w :
  Bits Q m mask ks → FShares (sum_size U m) y (Zsum y) → Z.abs (Zsum y) ≤ mean_max U m →
  runs (v_mul (replicate m y) mask) w (λ zs _,
    Forall2 (FShares (prod_size (T := TB) (Z.max shift (mean_max U m)))) zs (inter ks (replicate m (Zsum y)))).
Proof.
  intros Hm Hy Ha. apply (v_mul_mask_r mask (replicate m y) ks (replicate m (Zsum y)) (Z.max shift (mean_max U m)) wide);
    [by apply wide_bits|apply Hm|by apply wide_mean|apply Forall_replicate; lia|by rewrite length_replicate, (Bits_length _ _ Hm)|lia|exact wide_wire].
Qed.

(** The squared residues add up to shares of small numbers. *)
Lemma errors_runs ts ms tv mv A acc w :
  Forall2 (FShares (prod_size (T := TB) (Z.max shift U))) ts tv →
  Forall2 (FShares (prod_size (T := TB) (Z.max shift (mean_max U m)))) ms mv →
  Forall (λ v, Z.abs v ≤ U) tv → Forall (λ v, Z.abs v ≤ mean_max U m) mv → length ts = length ms →
  FShares A acc (Zsum acc) →
  runs (mfold (λ acc (ta : sharing * sharing),
      let cur := s_sub ta.1 ta.2 in
      let* cur := s_mul cur cur in
      Share.ret (s_add acc cur)) (zip ts ms) acc) w
    (λ r _, FShares (A + Z.of_nat (length ts) * prod_size (T := TB) (U + mean_max U m)) r (Zsum r)).
Proof.
  intros Ht. revert ms mv A acc w. induction Ht as [|t v ts tv Ht _ IH]; intros ms mv A acc w Hm Hv Hmv Hl Hacc.
  { destruct Hm; [|discriminate Hl]. apply runs_ret. eapply FShares_weaken; [exact Hacc|]. cbn. lia. }
  destruct Hm as [|a u ms mv Ha Hm]; [discriminate Hl|].
  apply Forall_cons in Hv as [Hv Hvs]. apply Forall_cons in Hmv as [Hu Hus]. cbn [zip zip_with mfold fst snd].
  pose proof (FShares_sub _ _ _ _ _ _ Ht Ha) as Hd.
  eapply (runs_bind _ _ _ (λ acc' _, FShares (A + prod_size (T := TB) (U + mean_max U m)) acc' (Zsum acc'))).
  - eapply runs_bind.
    + apply (s_mul_sized _ _ (v - u) (v - u) _ (U + mean_max U m) _ Hd Hd); [lia|lia|apply FS].
    + intros z w1 [[Hz _] _]. apply runs_ret. by destruct (FShares_add _ _ _ _ _ _ Hacc Hz) as (? & ? & ?).
  - intros acc' w1 Hacc'.
    eapply runs_mono; [apply (IH ms mv _ acc' w1 Hm Hvs Hus ltac:(by injection Hl) Hacc')|].
    cbv beta. intros r w' Hr. eapply FShares_weaken; [exact Hr|]. cbn [length]. lia.
Qed.

(** The mean of the rows of a mask that are not none. *)
Lemma average_shares mask ks us d : Bits Q m mask ks → FixedPoint.eqb (Zsum ks * shift) (fp 0) = false →
  FShares (sum_size U m - 1) d (Zsum (inter ks us)) ∧ Z.abs (Zsum (inter ks us)) ≤ Z.of_nat m * U →
  let average := Math.s_divc d (Zsum ks * shift) in
  FShares (sum_size U m) average (Zsum average) ∧ Z.abs (Zsum average) ≤ mean_max U m.
Proof.
  intros Hmask E0 [Hd HdU]. destruct sum_size_wire as [HD _].
  pose proof (ones_bounds _ (proj2 (proj2 Hmask))) as Hcb. rewrite (proj1 (proj2 Hmask)) in Hcb.
  pose proof (sz_rows _ _ BS) as Hrows.
  assert (1 ≤ Zsum ks) as Hc1 by (destruct (Z.eq_dec (Zsum ks) 0) as [E1|]; [by rewrite E1 in E0|lia]).
  destruct (mean_shares _ d _ (Zsum ks) Hd HD ltac:(lia) HdU) as (Hav & _ & HavU).
  split; [eapply FShares_weaken; [exact Hav|lia]|exact HavU].
Qed.

Lemma infomationGain_runs T Tv targets us category col w :
  Bits Q m T Tv → Targets targets us → Bits Q m category col →
  runs (infomationGain T targets category) w (λ g _, FShares (gain_size U m) g (Zsum g)).
Proof.
  intros HT Htg Hc. unfold infomationGain. pose proof (fs_U _ _ _ _ FS) as HU. pose proof fit_Q as HQ.
  destruct sum_size_wire as [HD HM].
  eapply runs_bind; [by apply (v_mul_bits BS)|]. intros mask w1 Hmask. cbv beta in Hmask.
  eapply runs_bind; [apply (open_whole _ _ _ _ (sum_bits _ _ Hmask)), BS|]. intros ? ? [-> ->].
  set (ks := inter col Tv) in *.
  destruct (FixedPoint.eqb (Zsum ks * shift) (fp 0)) eqn:E0.
  { apply runs_ret. pose proof n_valid. unfold s_lit, gain_size. eapply FShares_weaken; [|apply Z.le_max_l].
    split_and!; [apply length_replicate| |done]. apply Forall_replicate. unfold fp, shift. lia. }
  eapply runs_bind; [by apply (dot_targets mask targets ks us)|]. intros d w2 Hd.
  destruct (average_shares mask ks us d Hmask E0 Hd) as [Hav HavU].
  set (average := Math.s_divc d (Zsum ks * shift)) in *.
  rewrite (Bits_length _ _ HT). eapply runs_bind; [by apply (spread_runs mask ks average)|].
  intros am w3 Ham. eapply runs_bind; [by apply (masked_targets mask targets ks us)|]. intros tm w4 Htm.
  destruct Htg as (_ & Htl & Htu).
  assert (length tm = m ∧ length am = m) as [Hltm Hlam].
  { apply Forall2_length in Htm, Ham. unfold inter in Htm, Ham. rewrite length_zip_with in Htm, Ham.
    rewrite length_replicate in Ham. pose proof (proj1 (proj2 Hmask)) as H. fold ks in H. lia. }
  eapply runs_bind.
  { apply (errors_runs tm am _ _ 0 s_zero w4 Htm Ham); [| |lia|by destruct FShares_zero as (? & ? & _)].
    - by apply inter_abs; [apply Hmask| |].
    - apply inter_abs; [apply Hmask|by apply Forall_replicate|done]. }
  intros r w5 Hr. rewrite Hltm in Hr. apply runs_ret.
  assert (0 ≤ error_size U m) as He0.
  { unfold error_size. pose proof (prod_size_nonneg (U + mean_max U m) ltac:(lia)). nia. }
  destruct (s_divc_fp _ r _ 2 Hr) as [Hg _]; [|lia|unfold shift, wire; lia|].
  { split; [exact He0|exact (fs_error _ _ _ _ FS)]. }
  eapply FShares_weaken; [exact Hg|]. unfold gain_size, error_size in *. lia.
Qed.

(** The errors of the attributes: approximations, but of attributes that are left. *)
Lemma gain_nonneg : 0 ≤ gain_size U m ∧ gain_size U m < 2 ^ 31 * wire.
Proof. unfold gain_size, fp, shift, wire. pose proof (fs_error _ _ _ _ FS). unfold wire in *. lia. Qed.

(** The error of an attribute travels exactly. *)
Lemma sum_error_wire (len : nat) : (len ≤ W)%nat → 0 + Z.of_nat len * gain_size U m < wire.
Proof. intros Hl. pose proof (fs_gain _ _ _ _ FS). destruct gain_nonneg as [Hg _]. nia. Qed.

Lemma sum_error_runs T Tv targets us cats cols acc A w :
  Bits Q m T Tv → Targets targets us → Forall2 (Bits Q m) cats cols → FShares A acc (Zsum acc) →
  runs (mfold (λ acc category,
      let* g := infomationGain T targets category in ret (s_add acc g)) cats acc) w
    (λ r _, FShares (A + Z.of_nat (length cats) * gain_size U m) r (Zsum r)).
Proof.
  intros HT Htg HC. revert acc A w. induction HC as [|category col cats cols Hc _ IH]; intros acc A w Hacc; cbn [mfold].
  { apply runs_ret. eapply FShares_weaken; [exact Hacc|]. cbn. lia. }
  eapply (runs_bind _ _ _ (λ acc' _, FShares (A + gain_size U m) acc' (Zsum acc'))).
  - eapply runs_bind; [by eapply infomationGain_runs|]. intros g w1 Hg. apply runs_ret.
    by destruct (FShares_add _ _ _ _ _ _ Hacc Hg) as (? & ? & ?).
  - intros acc' w1 Hacc'. eapply runs_mono; [exact (IH acc' _ w1 Hacc')|].
    cbv beta. intros r w' Hr. eapply FShares_weaken; [exact Hr|]. cbn [length]. lia.
Qed.

Lemma IG_runs T Tv targets us S sv R w :
  Bits Q m T Tv → Targets targets us → Forall2 (Forall2 (Bits Q m)) S sv →
  Forall (λ cols, length cols ≤ W)%nat sv → Forall (λ r, 0 ≤ r < Z.of_nat (length S)) R →
  runs (IG T targets S R) w (λ ea _, ea.2 ∈ R ∨ R = []).
Proof.
  intros HT Htg HS HW HR. unfold IG. eapply runs_bind.
  { apply (runs_mmap_forall _ _ (λ r e, e.2 = r)). intros r w1 Hr.
    rewrite Forall_forall in HR. specialize (HR r Hr). cbn in HR.
    destruct (lookup_lt_is_Some_2 S (Z.to_nat r)) as [S_r HSr]; [lia|].
    destruct (Forall2_lookup_l _ _ _ _ _ HS HSr) as (s_r & Hsr & Hs).
    pose proof (Forall_lookup_1 _ _ _ _ HW Hsr) as HWr. cbn in HWr. rewrite <- (Forall2_length _ _ _ Hs) in HWr.
    eapply runs_bind.
    { apply (runs_lift_eq _ S_r). rewrite <- (Z2Nat.id r) by lia. by apply vec_at_lookup. }
    intros ? ? [-> ->]. eapply runs_bind.
    { apply (sum_error_runs T Tv targets us S_r s_r s_zero 0); [done|done|done|].
      by destruct FShares_zero as (? & ? & _). }
    intros e w2 He. cbv beta in He. eapply runs_bind.
    { eapply runs_lift_eq, (recons_fp sp_id _ _ _ He). by apply sum_error_wire. }
    intros ? ? [-> ->]. by apply runs_ret. }
  intros es w1 Hes. pose proof (min_element_elem SID3.lt_gini es) as Hm.
  destruct (min_element _ es) as [[e a]|]; apply runs_ret.
  - left. apply list_elem_of_lookup in Hm as (i & Hi).
    destruct (Forall2_lookup_r _ _ _ _ _ Hes Hi) as (r & Hr & <-). by eapply list_elem_of_lookup_2.
  - right. rewrite Hm in Hes. by apply Forall2_nil_inv_r in Hes.
Qed.

(** The mean of a node; that of at most one row is not divided. *)
Lemma node_mean_runs T Tv targets us d w :
  Bits Q m T Tv → Targets targets us →
  FShares (sum_size U m - 1) d (Zsum (inter Tv us)) ∧ Z.abs (Zsum (inter Tv us)) ≤ Z.of_nat m * U →
  runs (if 1 <? Zsum Tv then let* s := lift (of_integral (Zsum Tv)) in ret (Math.s_divc d s) else ret d) w
    (λ y _, (FShares (sum_size U m) y (Zsum y) ∧ Z.abs (Zsum y) ≤ mean_max U m) ∧ mean_node us Tv (Zsum Tv) y).
Proof.
  intros HT Htg [Hd HdU]. destruct sum_size_wire as [HD HM].
  pose proof (ones_bounds _ (proj2 (proj2 HT))) as Hc. rewrite (proj1 (proj2 HT)) in Hc.
  pose proof (sz_rows _ _ BS) as Hrows. pose proof (fs_U _ _ _ _ FS) as HU. pose proof n_valid as Hn.
  pose proof (proj2 (proj2 Hd)) as Hs. destruct (Z.ltb_spec 1 (Zsum Tv)) as [H1|H1].
  - eapply runs_bind; [apply runs_lift_eq, RandomFacts.int64_ok; unfold shift; lia|]. intros ? ? [-> ->].
    apply runs_ret. destruct (mean_shares _ d _ (Zsum Tv) Hd HD ltac:(lia) HdU) as (Hy & He & Ha).
    split; [split; [eapply FShares_weaken; [exact Hy|lia]|exact Ha]|]. split; [done|]. split; [|lia]. intros _. lia.
  - apply runs_ret. rewrite <- Hs in Hd, HdU. split; [split; [eapply FShares_weaken; [exact Hd|lia]|unfold mean_max; lia]|].
    split; [done|]. split; [lia|]. intros _. exact Hs.
Qed.

Lemma make_runs T Tv targets us w :
  Bits Q m T Tv → Targets targets us →
  runs (make T targets) w (λ c _, mean_node us Tv c.1.1 c.1.2
    ∧ (FShares (sum_size U m) c.1.2 (Zsum c.1.2) ∧ Z.abs (Zsum c.1.2) ≤ mean_max U m)
    ∧ map Zsum c.2 = inter Tv (replicate m (Zsum c.1.2))).
Proof.
  intros HT Htg. unfold make.
  eapply runs_bind; [by apply (dataSize_runs BS)|]. intros ? w1 ->.
  eapply runs_bind; [by apply (dot_targets_r T targets Tv us)|]. intros d w2 Hd.
  eapply runs_bind; [by apply (node_mean_runs T Tv targets us)|]. intros y w3 ((Hy & HyM) & Hnode).
  rewrite (Bits_length _ _ HT). eapply runs_bind; [by apply (spread_runs T Tv y)|].
  intros grads w4 Hg. apply runs_ret. cbn [fst snd]. split; [done|]. split; [done|].
  clear -Hg. induction Hg as [|x v xs vs Hx _ IH]; [done|]. cbn. by rewrite IH, (proj2 (proj2 Hx)).
Qed.

Lemma regression_tree_runs fuel T Tv S sv targets us R w :
  Bits Q m T Tv → Targets targets us → Forall2 (Forall2 (Bits Q m)) S sv →
  Forall (λ cols, length cols ≤ W)%nat sv → Forall (λ r, 0 ≤ r < Z.of_nat (length S)) R → (length R < fuel)%nat →
  runs (createTree fuel T S targets R) w (λ t _, fitted (sum_size U m) (mean_max U m) sv us t Tv R).
Proof.
  intros HT Htg HS HW. revert T Tv R w HT. induction fuel as [|fuel IH]; intros T Tv R w HT HR Hf; [lia|].
  cbn [createTree].
  eapply runs_bind; [by apply make_runs|]. intros [[s y] grads] w1 (Hnode & Hsz & Hgr). cbn [fst snd] in *.
  rewrite <- (Bits_length _ _ HT) in Hgr.
  eapply runs_bind; [by eapply IG_runs|]. intros [e a] w2 Ha. cbn [fst snd] in *.
  assert (length T = length Tv) as Hl by (rewrite (Bits_length _ _ HT); symmetry; apply HT).
  pose proof (ones_bounds _ (proj2 (proj2 HT))) as Hc. rewrite (proj1 (proj2 HT)) in Hc.
  pose proof (sz_rows _ _ BS) as Hrows. pose proof (proj1 Hnode) as Hs.
  assert ((3 * s) mod 2 ^ 64 = 3 * s) as Hmod by (apply Z.mod_small; lia).
  destruct (stop (length T) s R) eqn:Estop; unfold stop in Estop; rewrite Hmod in Estop.
  - apply runs_ret. cbn [fitted]. do 4 (split; [done|]).
    rewrite !orb_true_iff, Z.leb_le, Z.eqb_eq in Estop. destruct Estop as [[HRn|H]|H]; [|right; left; lia|right; left; lia].
    left. by destruct R.
  - rewrite !orb_false_iff, Z.leb_gt in Estop. destruct Estop as [[HRn Es] _].
    destruct Ha as [Ha|Ha]; [|by rewrite Ha in HRn].
    rewrite Forall_forall in HR. pose proof (HR a Ha) as Hra. cbn in Hra. rewrite <- Forall_forall in HR.
    destruct (lookup_lt_is_Some_2 S (Z.to_nat a)) as [S_a HSa]; [lia|].
    destruct (Forall2_lookup_l _ _ _ _ _ HS HSa) as (sa & Hsa & Hsc).
    assert (vec_at sv a = Ok sa) as Hva by (rewrite <- (Z2Nat.id a) by lia; by apply vec_at_lookup).
    eapply runs_bind.
    { apply (runs_lift_eq _ S_a). rewrite <- (Z2Nat.id a) by lia. by apply vec_at_lookup. }
    intros ? ? [-> ->].
    eapply runs_bind.
    { instantiate (1 := λ cs _, Forall2 (λ c col, fitted (sum_size U m) (mean_max U m) sv us c (inter Tv col) (SID3.erase R a)) cs sa).
      clear HSa Hsa Hva. revert w2. induction Hsc as [|S_j col S_a sa Hj _ IHs]; intros w2; cbn [mmap];
        [apply runs_ret; constructor|].
      eapply runs_bind.
      { eapply runs_bind; [by apply (v_mul_bits BS)|]. intros T_ w5 HT_.
        apply (IH T_ (inter Tv col)); [done|by apply erase_Forall|]. pose proof (erase_length R a Ha). lia. }
      intros c w5 Hc5. eapply runs_bind; [apply IHs|]. intros cs w6 Hcs. apply runs_ret. by constructor. }
    intros cs w5 Hcs. apply runs_ret. cbn [fitted]. do 4 (split; [done|]). rewrite Hl in *.
    destruct cs as [|c0 cs0].
    { right; right. exists a. split; [done|]. by apply Forall2_nil_inv_l in Hcs as ->. }
    split; [exact Es|]. exists sa. split; [done|]. split; [done|]. by apply all2_Forall2.
Qed.
End Fit.

(** ** Prediction *)

Section Predict.
Context `{DL : DecLaws} `{E : Env} `{V : !ValidEnv E} {TB : Z} `{TL : !TripleLaws TB E}.
#[local] Existing Instance fp_value.
Import FixedPoint FixedDouble FixedCompare.

(** Local values of a prediction: a leaf, or [W] products with a bit. *)
Definition pick_size (K : Z) : Z := prod_size (T := TB) (Z.max shift K).
Definition predict_size (B K : Z) (W : nat) : Z := Z.max B (Z.of_nat W * pick_size K).

Context {Q B K : Z} {W : nat}.
Hypothesis K_nonneg : 0 ≤ K.
Hypothesis predict_wire : Z.max Q (predict_size B K W) + TB * shift < wire.

Lemma pick_nonneg : 0 ≤ pick_size K.
Proof. apply prod_size_nonneg. lia. Qed.

Lemma exact_weighted_runs {A} (f : A → M sharing) (cs : list A) (cls : list Z) bits v i acc a w :
  Forall2 (λ c cl, Z.abs cl ≤ K ∧ ∀ w, runs (f c) w (λ x _, FShares (predict_size B K W) x cl)) cs cls →
  Forall2 (WShares Q) bits (onehot (length bits) v) → (i + length cs ≤ length bits)%nat →
  FShares (Z.of_nat i * pick_size K) acc a →
  runs (SID3.weighted f bits cs (Z.of_nat i) acc) w
    (λ x _, FShares (Z.of_nat (i + length cs) * pick_size K) x (a + selected cls i v)).
Proof.
  intros Hcs Hb. revert i acc a w. induction Hcs as [|c cl cs cls [Hcl Hc] _ IH]; intros i acc a w Hl Ha;
    cbn [SID3.weighted selected length].
  - apply runs_ret. by rewrite Nat.add_0_r, Z.add_0_r.
  - cbn [length] in Hl. eapply runs_bind; [apply Hc|]. intros p w1 Hp.
    destruct (lookup_lt_is_Some_2 bits i ltac:(lia)) as [x Hx].
    destruct (Forall2_lookup_l _ _ _ _ _ Hb Hx) as (b & Hbv & Hxb).
    unfold onehot in Hbv. rewrite list_lookup_fmap, lookup_seq_lt in Hbv by lia. injection Hbv as <-.
    eapply runs_bind; [apply (runs_lift_eq _ x); by apply vec_at_lookup|]. intros ? ? [-> ->].
    set (b := if (i =? v)%nat then 1 else 0) in *. assert (0 ≤ b ≤ 1) as Hb01 by (unfold b; destruct (_ =? _)%nat; lia).
    pose proof predict_wire as Hw. pose proof shift_pos as Hsh.
    eapply runs_bind.
    { apply (s_mul_sized x p (b * shift) cl (Z.max Q (predict_size B K W)) (Z.max shift K));
        [eapply FShares_weaken; [exact Hxb|lia]|eapply FShares_weaken; [exact Hp|lia]|nia|lia|exact Hw]. }
    intros z w2 [[Hz He] _]. rewrite (approx_whole_l _ _ _ He) in Hz.
    replace (Z.of_nat i + 1) with (Z.of_nat (S i)) by lia.
    replace (i + S (length cs))%nat with (S i + length cs)%nat by lia.
    eapply runs_mono; [apply (IH (S i) (s_add acc z) (a + b * cl)); [lia|]|].
    + eapply FShares_weaken; [exact (FShares_add _ _ _ _ _ _ Ha Hz)|]. fold (pick_size K). lia.
    + cbv beta. intros x' w3 Hx'. by rewrite <- Z.add_assoc in Hx'.
Qed.

Lemma path_mean_abs sv us t Tv R vals : fitted B K sv us t Tv R → Z.abs (path_mean t vals) ≤ K.
Proof.
  revert Tv R. induction t as [m s y g e a cs IH] using rnode_induction. intros Tv R (_ & _ & [_ Hy] & _ & Hc).
  cbn [path_mean]. destruct cs as [|c0 cs0]; [exact Hy|].
  destruct Hc as (_ & sa & _ & _ & Hall). apply all2_Forall2 in Hall.
  set (v := nth (Z.to_nat a) vals 0%nat). clearbody v. clear Hy.
  revert Hall. generalize (c0 :: cs0) IH. clear c0 cs0 IH. intros cs IH Hall.
  revert v. induction Hall as [|c col cs sa Hc _ IHc]; intros v; [destruct v; simpl; lia|].
  apply Forall_cons in IH as [IH1 IH2]. destruct v as [|v]; cbn [map nth]; [by eapply IH1|by apply IHc].
Qed.

Lemma regression_predict_runs sv us t Tv R data vals w :
  Forall (λ sa, (length sa ≤ W)%nat) sv →
  Forall2 (λ (xs : list sharing) (sa : list (list Z)), length xs = length sa) data sv →
  row_bits (Q := Q) data vals → Forall (λ r, 0 ≤ r) R → fitted B K sv us t Tv R →
  runs (predict t data) w (λ x _, FShares (predict_size B K W) x (path_mean t vals)).
Proof.
  intros HW Hd Hrow. revert Tv R w. induction t as [m s y g e a cs IH] using rnode_induction.
  intros Tv R w HR (_ & _ & [Hy _] & _ & Hc). cbn [predict path_mean]. destruct cs as [|c0 cs0].
  - apply runs_ret. eapply FShares_weaken; [exact Hy|unfold predict_size; lia].
  - destruct Hc as (_ & sa & Hr & Hsa & Hall). apply all2_Forall2 in Hall.
    pose proof (λ c col Hc, path_mean_abs sv us c (inter Tv col) (SID3.erase R a) vals Hc) as Habs.
    rewrite Forall_forall in HR. pose proof (HR a Hr) as Hr0. cbn in Hr0. rewrite <- Forall_forall in HR.
    assert (sv !! Z.to_nat a = Some sa) as Hsv.
    { unfold vec_at in Hsa. destruct (a <? 0); [done|]. destruct (sv !! Z.to_nat a); congruence. }
    destruct (Forall2_lookup_r _ _ _ _ _ Hd Hsv) as (bits & Hbits & Hlen).
    destruct (Forall2_lookup_l _ _ _ _ _ Hrow Hbits) as (v & Hv & Hb).
    rewrite (nth_lookup_Some _ _ _ _ Hv).
    eapply runs_bind.
    { apply (runs_lift_eq _ bits). rewrite <- (Z2Nat.id a) by lia. by apply vec_at_lookup. }
    intros ? ? [-> ->]. pose proof (Forall2_length _ _ _ Hall) as Hlc.
    pose proof (Forall_lookup_1 _ _ _ _ HW Hsv) as HWs. cbn in HWs. pose proof pick_nonneg.
    eapply runs_mono.
    + apply (exact_weighted_runs _ (c0 :: cs0) (map (λ c, path_mean c vals) (c0 :: cs0)) bits v 0 s_zero 0); [|done|lia|].
      * clear Hlc Hsa Hsv Hlen HWs. revert Hall IH. generalize (c0 :: cs0). intros cs Hall IH.
        induction Hall as [|c col cs sa' Hc _ IHc]; [constructor|].
        apply Forall_cons in IH as [IH1 IH2]. constructor; [|exact (IHc IH2)].
        split; [by eapply Habs|]. intros w'. eapply IH1; [by apply erase_Forall|exact Hc].
      * eapply FShares_weaken; [apply FShares_zero|lia].
    + cbv beta. intros x w' Hx. rewrite Z.add_0_l, selected_nth, decide_True, Nat.sub_0_r in Hx by lia.
      eapply FShares_weaken; [exact Hx|]. unfold predict_size. rewrite Nat.add_0_l, Hlc. nia.
Qed.
End Predict.

(** * Theorems *)

(** The prediction of a regression tree for the shares of a row opens, at
    every party, to the mean at the end of the row's path, exactly: the products
    with the row's bits lose nothing, and the branches not taken contribute 0. *)
Theorem regression_predict_path `{DL : DecLaws} {E : Env} {V : ValidEnv E} {TB} {TL : TripleLaws TB E}
    {Q B K W} sv us t Tv R data vals w :
  0 ≤ K → Z.max Q (predict_size (TB := TB) B K W) + TB * FixedPoint.shift < wire →
  Forall (λ sa, (length sa ≤ W)%nat) sv →
  Forall2 (λ (xs : list sharing) (sa : list (list Z)), length xs = length sa) data sv →
  row_bits (Q := Q) data vals → Forall (λ r, 0 ≤ r) R → @fitted E fp_value B K sv us t Tv R →
  ∃ x w', predict t data w = Ok (x, w') ∧ ∀ me, @recons_at fp_value E me x = Ok (path_mean t vals).
Proof.
  intros HK Hw HW Hd Hrow HR Hg.
  destruct (regression_predict_runs HK Hw sv us t Tv R data vals w HW Hd Hrow HR Hg) as (x & w' & Hx & Hs).
  exists x, w'. split; [done|]. intros me. eapply recons_fp; [exact Hs|].
  pose proof (T_nonneg (T := TB)). unfold FixedPoint.shift in *. lia.
Qed.

(** The gradient of an inner node is zero for every training row whose
    index is at least the number of rows in the node: the loop of [grad] runs
    to the node's size and not over all rows.  The rows of a node need not come
    first, so boosting leaves out rows that the leaves below predict. *)
Theorem grad_drops_rows `{DF : DecFloat} {E : Env} rows s y g e a cs ret i :
  cs ≠ [] → @SID3Regression.grad DF E (mkNode rows s y g e a cs) = Ok ret →
  s ≤ Z.of_nat i → (i < rows)%nat → ret !! i = Some (@s_zero fp_value E).
Proof.
  intros Hcs Hret Hs Hi. cbn [SID3Regression.grad] in Hret. destruct cs as [|c cs]; [done|].
  apply collect_spec in Hret as [_ Hret]. rewrite Hret by lia. by apply lookup_replicate.
Qed.

(** ** The training set of [Toy] with numbers as targets *)

Module ToyRegression.
#[local] Existing Instance rat_dec.
#[local] Existing Instance steady_env.
#[local] Existing Instance nearest.

Definition us : list Z := map (λ k, k * FixedPoint.shift) [10; 20; 30; 40].
Definition targets : list sharing := map Toy.share_bit [10; 20; 30; 40].
Definition U : Z := 40 * FixedPoint.shift.
Definition B : Z := sum_size (TB := 36) U 4.
Definition K : Z := mean_max U 4.

Lemma toy_fit : fit_sizes (TB := 36) Toy.Q U 4 2.
Proof. split; [exact Toy.toy_bit_sizes|..]; vm_compute; (reflexivity || discriminate). Qed.

Lemma toy_targets : Targets (Q := Toy.Q) (U := U) (m := 4) targets us.
Proof.
  split; [|split; [reflexivity|]].
  - repeat constructor; vm_compute; discriminate.
  - repeat constructor; vm_compute; discriminate.
Qed.

(** The second child of the root, which has the rows 2 and 3, split once more. *)
Definition leaf (g : list Z) : node :=
  mkNode 4 1 (Toy.share_bit 0) (Toy.share_bits g) (Double.Fin 0) (-1) [].
Definition leaves : list node := [leaf [0; 0; 30; 0]; leaf [0; 0; 0; 40]].
Definition inner : node :=
  mkNode 4 2 (Toy.share_bit 35) (Toy.share_bits [0; 0; 35; 35]) (Double.Fin 0) 1 leaves.

(** A tree for the training set. *)
Definition fitted_tree : node * World :=
  match createTree 3 (Toy.share_bits Toy.Tv) Toy.S targets [0; 1] world0 with
  | Ok r => r
  | Throw _ => (leaf [], world0)
  end.

Lemma toy_fitted :
  @fitted steady_env (@fp_value rat_dec) B K Toy.sv us fitted_tree.1 Toy.Tv [0; 1].
Proof.
  destruct (@regression_tree_runs rat_dec rat_laws steady_env _ 36 _ nearest nearest_laws Toy.Q U 4 2 toy_fit 3
    (Toy.share_bits Toy.Tv) Toy.Tv Toy.S Toy.sv targets us [0; 1] world0) as (t & w' & Ht & Hg).
  - apply Toy.share_bits_Bits, Toy.all_bits.
  - exact toy_targets.
  - exact Toy.S_Bits.
  - repeat constructor.
  - repeat constructor; vm_compute; (reflexivity || discriminate).
  - simpl; lia.
  - unfold fitted_tree. rewrite Ht. exact Hg.
Qed.
End ToyRegression.

Lemma grad_drops_rows_witness :
  ∃ ret, @SID3Regression.grad rat_dec steady_env ToyRegression.inner = Ok ret
    ∧ ret !! 2%nat = Some (@s_zero (@fp_value rat_dec) steady_env).
Proof.
  eexists. split; [vm_compute; reflexivity|].
  refine (@grad_drops_rows rat_dec steady_env 4 2 (Toy.share_bit 35) (Toy.share_bits [0; 0; 35; 35]) (Double.Fin 0) 1
    ToyRegression.leaves _ 2 _ _ _ _); [discriminate|vm_compute; reflexivity|lia|lia].
Defined.

Lemma regression_predict_path_witness :
  let data := [Toy.share_bits [0; 1]; Toy.share_bits [1; 0]] in
  let t := ToyRegression.fitted_tree.1 in
  ∃ x w', @predict rat_dec steady_env t data world0 = Ok (x, w')
    ∧ ∀ me, @recons_at (@fp_value rat_dec) steady_env me x = Ok (path_mean t [1%nat; 0%nat]).
Proof.
  intros data t.
  refine (@regression_predict_path rat_dec rat_laws steady_env _ 36 _ Toy.Q ToyRegression.B
    ToyRegression.K 2 Toy.sv ToyRegression.us t Toy.Tv [0; 1] data [1%nat; 0%nat] world0 _ _ _ _ _ _ _).
  - vm_compute; discriminate.
  - vm_compute; reflexivity.
  - repeat constructor.
  - repeat constructor.
  - constructor; [|constructor; [|constructor]]; (constructor; [|constructor; [|constructor]]); apply Toy.share_bit_shares; unfold bit; cbn; lia.
  - repeat constructor; discriminate.
  - exact ToyRegression.toy_fitted.
Defined.
