(* ===== verification/Optimizers.v ===== *)
(** * Optimizers  (Optimizer/*.hpp, ObjectiveFunction/ObjectiveFunctionInterface.hpp)

    [ObjectiveFunction] is the interface of the optimizers to what they
    minimise: the gradient over all data and over [num] samples.  The number of
    iterations is a natural number here; the recursive [optimize]s do not
    terminate on a negative one.

    [gradient_law] states what an objective promises of its gradient for
    parameters of a bounded size; the theorem on descent is proved against it,
    and [CrossEntropy.v] proves it of the cross entropy. *)
From stdpp Require Import base list numbers sets strings.
From Stdlib Require Import ZArith Lia.
From S2P Require Import Prelude FixedPoint Random TripleHandler Share SharePF ShareFP Double FixedCompare.
From S2P Require Import FixedCompareCorrect FixedWhole FixedInverse Sized.
#[local] Open Scope Z_scope.
#[local] Open Scope qmpc_scope.
#[local] Abbreviation n := (Z.of_nat n_parties).

(** [ObjectiveFunctionInterface] *)
Class ObjectiveFunction := {
  df : list sharing → M (list sharing);
  df_batch : Z → list sharing → M (list sharing)
}.

Module Optimizer.
Import FixedPoint FixedDouble FixedCompare.

Section Optimizers.
Context `{DF : DecFloat} `{E : Env} `{CI : CppInt}.
#[local] Existing Instance fp_value.

(** The loops index gradients by the positions of the parameters. *)
Definition indexed {A} (theta g : list A) : M (list A) :=
  if (length g <? length theta)%nat then throw (Undefined "vector index") else ret (take (length theta) g).

(** [next_theta[i] -= alpha * dfx[i]], one product after the other. *)
Fixpoint step (alpha : sharing) (theta dfx : list sharing) : M (list sharing) :=
  match theta with
  | [] => ret []
  | t :: theta =>
      match dfx with
      | [] => throw (Undefined "dfx[i]")
      | d :: dfx =>
          let* p := s_mul alpha d in
          let* next := step alpha theta dfx in
          ret (s_sub t p :: next)
      end
  end.

(** The recursion of [GradientDescent] and [SGD]; the opened gradient is only
    for a log line. *)
Fixpoint descend (grad : list sharing → M (list sharing)) (alpha : sharing) (iterationNum : nat)
    (theta : list sharing) : M (list sharing) :=
  match iterationNum with
  | O => ret theta
  | S iterationNum =>
      let* dfx := grad theta in
      let* _ := open_recons_vec dfx in
      let* next_theta := step alpha theta dfx in
      descend grad alpha iterationNum next_theta
  end.

Definition GradientDescent_optimize (alpha : sharing) (iterationNum : nat) (f : ObjectiveFunction)
    (theta : list sharing) : M (list sharing) := descend df alpha iterationNum theta.

Definition SGD_optimize (alpha : sharing) (batch_size : Z) (iterationNum : nat) (f : ObjectiveFunction)
    (theta : list sharing) : M (list sharing) := descend (df_batch batch_size) alpha iterationNum theta.

(** [Momentum::moment] *)
Fixpoint moment (alpha beta : Z) (batch_size : Z) (iterationNum : nat) (f : ObjectiveFunction)
    (vt theta : list sharing) : M (list sharing) :=
  match iterationNum with
  | O => ret theta
  | S iterationNum =>
      let* dfx := df_batch batch_size theta in
      let* dfx := indexed theta dfx in
      let vt := zip_with (λ v d, s_add (s_mulc v beta) d) vt dfx in
      let theta := zip_with (λ t v, s_sub t (s_mulc v alpha)) theta vt in
      moment alpha beta batch_size iterationNum f vt theta
  end.

Definition Momentum_optimize (alpha beta : Z) (batch_size : Z) (iterationNum : nat) (f : ObjectiveFunction)
    (theta : list sharing) : M (list sharing) :=
  moment alpha beta batch_size iterationNum f (replicate (length theta) s_zero) theta.

(** [Adam::adapt]: the powers of the rates are doubles. *)
Section Adam.
Context (alpha beta1 beta2 eps : Z).

Definition one_double : Double.double := Double.of_Z 1.

(** [theta[i] - alpha * mt[i] * FixedPoint(b_t) / (sqrt(vt[i]) + eps)] *)
Definition adam_step (b_t : Double.double) (theta mt vt : sharing) : M sharing :=
  let* b := lift (of_double b_t) in
  let* root := FixedCompare.sqrt vt in
  let* q := s_div (s_mulc (s_mulc mt alpha) b) (s_addc root eps) in
  ret (s_sub theta q).

Fixpoint adam_steps (b_t : Double.double) (theta mt vt : list sharing) : M (list sharing) :=
  match theta, mt, vt with
  | t :: theta, m :: mt, v :: vt =>
      let* t' := adam_step b_t t m v in
      let* theta' := adam_steps b_t theta mt vt in
      ret (t' :: theta')
  | _, _, _ => ret []
  end.

Fixpoint adapt (iterationNum : nat) (f : ObjectiveFunction) (beta1_pow beta2_pow : Double.double)
    (mt vt theta : list sharing) : M (list sharing) :=
  match iterationNum with
  | O => ret theta
  | S iterationNum =>
      let* l1 := df_batch 1 theta in
      let* l2 := v_mul l1 l1 in
      let* l1 := indexed theta l1 in
      let* l2 := indexed theta l2 in
      let mt := zip_with (λ m l, s_add (s_mulc m beta1) (s_mulc l (sub (fp 1) beta1))) mt l1 in
      let vt := zip_with (λ v l, s_add (s_mulc v beta2) (s_mulc l (sub (fp 1) beta2))) vt l2 in
      let beta1_pow := Double.mul beta1_pow (getDoubleVal beta1) in
      let beta2_pow := Double.mul beta2_pow (getDoubleVal beta2) in
      let b_t := Double.div (Double.sqrt (Double.sub one_double beta2_pow)) (Double.sub one_double beta1_pow) in
      let* theta := adam_steps b_t theta mt vt in
      adapt iterationNum f beta1_pow beta2_pow mt vt theta
  end.

Definition Adam_optimize (iterationNum : nat) (f : ObjectiveFunction) (theta : list sharing) : M (list sharing) :=
  let zeros := replicate (length theta) s_zero in
  adapt iterationNum f one_double one_double zeros zeros theta.
End Adam.
End Optimizers.
End Optimizer.

(** * Descent *)

Section Descent.
Context `{DL : DecLaws} `{E : Env} `{V : !ValidEnv E} {TB : Z} `{TL : !TripleLaws TB E}.
#[local] Existing Instance fp_value.
Import FixedPoint FixedDouble FixedCompare Optimizer.

(** For [d] parameters up to [P] units, shared with local values up to [B], the
    gradient is shared with local values up to [G], is at most [K], and is
    related by [R] to the parameters. *)
Class GradientLaw (R : list Z → list Z → Prop) (d : nat) (B P G K : Z)
    (grad : list sharing → M (list sharing)) : Prop :=
  gradient_runs : ∀ theta vs w,
    Forall2 (FShares B) theta vs → length vs = d → Forall (λ v, Z.abs v ≤ P) vs →
    runs (grad theta) w (λ g _, ∃ gv, Forall2 (FShares G) g gv ∧ length gv = d
      ∧ Forall (λ v, Z.abs v ≤ K) gv ∧ R vs gv).

(** [N] steps with rate [a] on the secrets: every product with the rate is
    exact up to one unit. *)
Inductive descent (R : list Z → list Z → Prop) (a : Z) : nat → list Z → list Z → Prop :=
  | descent_O vs : descent R a 0 vs vs
  | descent_S N vs gv ps vs' : R vs gv → Forall2 (λ g p, approx a g p) gv ps →
      descent R a N (zip_with Z.sub vs ps) vs' → descent R a (S N) vs vs'.

(** How far one step can move a parameter. *)
Definition move (A K : Z) : Z := A * K / shift + 1.

Lemma approx_move a g p A K : approx a g p → Z.abs a ≤ A → Z.abs g ≤ K → Z.abs p ≤ move A K.
Proof.
  intros Hp Ha Hg. pose proof (approx_abs a g p A K Hp Ha Hg) as H. unfold move. pose proof shift_pos.
  assert (Z.abs p - 1 ≤ A * K / shift) by (apply Z.div_le_lower_bound; lia). lia.
Qed.

Context {d : nat} {B P G K A Ba : Z} {R : list Z → list Z → Prop}.
Context (grad : list sharing → M (list sharing)) `{GL : !GradientLaw R d B P G K grad}.
Context (alpha : sharing) (a : Z) (Halpha : FShares Ba alpha a) (Ha : Z.abs a ≤ A).
Context (HwA : Z.max Ba G + TB * shift < wire).

Lemma step_runs B0 theta vs dfx gv w :
  Forall2 (FShares B0) theta vs → Forall2 (FShares G) dfx gv → length vs = length gv →
  Forall (λ g, Z.abs g ≤ K) gv →
  runs (step alpha theta dfx) w (λ next _, ∃ ps, Forall2 (λ g p, approx a g p) gv ps
    ∧ Forall2 (FShares (B0 + prod_size (T := TB) (Z.max A K))) next (zip_with Z.sub vs ps)).
Proof.
  intros Ht. revert dfx gv w. induction Ht as [|t v theta vs Ht _ IH]; intros dfx gv w Hd Hl HK; cbn [step].
  - destruct gv; [|discriminate Hl]. apply runs_ret. exists []. by split; constructor.
  - destruct Hd as [|x g dfx gv Hx Hd]; [discriminate Hl|]. apply Forall_cons in HK as [Hg HK].
    eapply runs_bind.
    { apply (s_mul_sized alpha x a g (Z.max Ba G) (Z.max A K)); [| |lia|lia|exact HwA];
        [eapply FShares_weaken; [exact Halpha|lia]|eapply FShares_weaken; [exact Hx|lia]]. }
    intros p w1 [[Hp Hpa] _]. eapply runs_bind; [apply IH; [exact Hd|by injection Hl|exact HK]|].
    intros next w2 (ps & Hps & Hn). apply runs_ret. exists (Zsum p :: ps). split; [by constructor|].
    cbn [zip_with]. constructor; [exact (FShares_sub _ _ _ _ _ _ Ht Hp)|exact Hn].
Qed.

Lemma descend_runs N B0 P0 theta vs w :
  Forall2 (FShares B0) theta vs → length vs = d → Forall (λ v, Z.abs v ≤ P0) vs → 0 ≤ A → 0 ≤ K →
  B0 + Z.of_nat N * prod_size (T := TB) (Z.max A K) ≤ B → P0 + Z.of_nat N * move A K ≤ P →
  runs (descend grad alpha N theta) w (λ t _, ∃ vs', Forall2 (FShares B) t vs' ∧ descent R a N vs vs').
Proof.
  intros Ht Hl HP HA HK. revert B0 P0 theta vs w Ht Hl HP.
  assert (0 ≤ prod_size (T := TB) (Z.max A K) ∧ 0 ≤ move A K) as [Hp0 Hm0].
  { pose proof shift_pos. unfold move. assert (0 ≤ A * K / shift) by (apply Z.div_pos; nia). split; [|lia].
    pose proof (gap_nonneg (T := TB) (Z.max A K) ltac:(lia)). pose proof (T_nonneg (T := TB)). unfold prod_size.
    set (q := gap (Z.max A K)) in *. assert (0 ≤ q * q / shift) by (apply Z.div_pos; nia). nia. }
  induction N as [|N IH]; intros B0 P0 theta vs w Ht Hl HP HB HPN; cbn [descend].
  - apply runs_ret. exists vs. split; [|constructor]. eapply Forall2_impl; [exact Ht|]. intros x v Hx.
    eapply FShares_weaken; [exact Hx|lia].
  - eapply runs_bind.
    { apply (gradient_runs (GradientLaw := GL) theta vs); [|exact Hl|].
      - eapply Forall2_impl; [exact Ht|]. intros x v Hx. eapply FShares_weaken; [exact Hx|nia].
      - eapply Forall_impl; [exact HP|]. cbn. intros; nia. }
    intros dfx w1 (gv & Hg & Hlg & HgK & HR).
    eapply runs_bind.
    { eapply runs_lift_eq, (recons_vec_fp sp_id G _ _ Hg). pose proof (T_nonneg (T := TB)). pose proof shift_pos. nia. }
    intros ? w2 _. eapply runs_bind; [apply (step_runs B0 theta vs dfx gv w2 Ht Hg ltac:(lia) HgK)|].
    intros next w3 (ps & Hps & Hn). eapply runs_mono.
    + apply (IH (B0 + prod_size (T := TB) (Z.max A K)) (P0 + move A K) next (zip_with Z.sub vs ps) w3 Hn);
        [pose proof (Forall2_length _ _ _ Hps); rewrite length_zip_with; lia| |lia|lia].
      clear -Hps HgK Ha HP. revert vs HP. induction Hps as [|g p gv ps Hp _ IH]; intros vs HP; [destruct vs; constructor|].
      apply Forall_cons in HgK as [Hg HgK]. destruct HP as [|v vs Hv HP]; [constructor|].
      cbn [zip_with]. constructor; [|by apply IH]. pose proof (approx_move _ _ _ _ _ Hp Ha Hg). lia.
    + cbv beta. intros t w' (vs' & Ht' & Hd). exists vs'. split; [exact Ht'|]. by econstructor.
Qed.
End Descent.

(** * Theorem *)

Import Optimizer.

(** C32: stochastic gradient descent, for every objective function that keeps
    the promise [GradientLaw] of its batch gradient: after [N] iterations the
    optimizer returns shares of the [N]-th point of a descent on the secrets,
    [v - a * g] with the rate [a] and a gradient [g] of the current point, every
    product being exact up to one unit of the last place.  The sizes grow
    linearly with the number of iterations. *)
Theorem sgd_descends `{DL : DecLaws} {E : Env} {V : ValidEnv E} {TB} {TL : TripleLaws TB E}
    {R d B P G K} (f : ObjectiveFunction) batch {GL : GradientLaw R d B P G K (df_batch batch)}
    alpha a A Ba N B0 P0 theta vs w :
  FShares Ba alpha a → Z.abs a ≤ A → 0 ≤ K → Z.max Ba G + TB * FixedPoint.shift < wire → B < wire →
  Forall2 (FShares B0) theta vs → length vs = d → Forall (λ v, Z.abs v ≤ P0) vs →
  B0 + Z.of_nat N * prod_size (T := TB) (Z.max A K) ≤ B → P0 + Z.of_nat N * move A K ≤ P →
  ∃ theta' w' vs', SGD_optimize alpha batch N f theta w = Ok (theta', w')
    ∧ (∀ me, @recons_vec_at fp_value E me theta' = Ok vs') ∧ descent R a N vs vs'.
Proof.
  intros Hal Ha HK Hw HB Ht Hl HP HBN HPN.
  destruct (descend_runs (df_batch batch) alpha a Hal Ha Hw N B0 P0 theta vs w Ht Hl HP ltac:(lia) HK HBN HPN)
    as (theta' & w' & He & vs' & Hs & Hd).
  exists theta', w', vs'. split; [exact He|]. split; [|exact Hd]. intros me. by eapply recons_vec_fp.
Qed.

(** ** Half the squared norm: the gradient is the point itself *)

Definition half_square : ObjectiveFunction := {| df := ret; df_batch := λ _, ret |}.

Lemma half_square_law `{DF : DecFloat} {E : Env} d B P :
  GradientLaw (E := E) (λ vs gv, gv = vs) d B P B P (df_batch (ObjectiveFunction := half_square) 1).
Proof. intros theta vs w Ht Hl Hv. apply runs_ret. by exists vs. Qed.

(** Two steps with rate 1/4 from the point (4, -8). *)
Lemma sgd_descends_witness :
  let unit := FixedPoint.shift in
  let theta := [[5 * unit; - unit; 0]; [- 9 * unit; 0; unit]] in
  let alpha := [unit / 4; 0; 0] in
  ∃ theta' w' vs', @SGD_optimize rat_dec steady_env alpha 1 2 half_square theta world0 = Ok (theta', w')
    ∧ (∀ me, @recons_vec_at (@fp_value rat_dec) steady_env me theta' = Ok vs')
    ∧ descent (λ vs gv, gv = vs) (unit / 4) 2 [4 * unit; - 8 * unit] vs'.
Proof.
  intros unit theta alpha.
  refine (@sgd_descends rat_dec rat_laws steady_env _ 36 _ (λ vs gv, gv = vs) 2 (10 ^ 18) (100 * unit) (10 ^ 18) (100 * unit)
    half_square 1 (@half_square_law rat_dec steady_env _ _ _) alpha (unit / 4) (unit / 4) unit 2 (9 * unit) (8 * unit) theta
    [4 * unit; - 8 * unit] world0 _ _ _ _ _ _ _ _ _ _).
  - demo_fshares.
  - vm_compute; discriminate.
  - vm_compute; discriminate.
  - vm_compute; reflexivity.
  - vm_compute; reflexivity.
  - repeat (apply Forall2_cons; split); [demo_fshares|demo_fshares|constructor].
  - reflexivity.
  - repeat constructor; vm_compute; discriminate.
  - vm_compute; discriminate.
  - vm_compute; discriminate.
Defined.
