(* ===== verification/CrossEntropy.v ===== *)
(** * The cross entropy and the logistic regression
      (ObjectiveFunction/CrossEntropyError.hpp, Job/Jobs/LogisticRegressionJob.hpp)

    [CrossEntropyError] is the objective of the logistic regression: the
    gradient over all rows or over a random batch.  The special party shuffles
    the row numbers and shares the first of them; [Shuffle] stands for
    [std::shuffle] with a Mersenne twister seeded by [std::random_device]. *)
From stdpp Require Import base list numbers sets strings sorting.
From Stdlib Require Import ZArith Lia.
From S2P Require Import Prelude FixedPoint Random TripleHandler Share SharePF ShareFP Double FixedCompare.
From S2P Require Import FixedCompareCorrect FixedWhole FixedInverse Sized SID3Correct Columns MathFunctions Optimizers.
#[local] Open Scope Z_scope.
#[local] Open Scope qmpc_scope.
#[local] Abbreviation n := (Z.of_nat n_parties).

(** [std::shuffle] of a list, as it comes out in a state of the world. *)
Class Shuffle := shuffle : World → list Z → list Z.
Class ShuffleLaws (SH : Shuffle) : Prop := shuffle_permutes : ∀ w l, shuffle w l ≡ₚ l.

Module CrossEntropyError.
Import FixedPoint FixedDouble FixedCompare.

Record CrossEntropyError := mkCrossEntropyError { x : list (list sharing); t : list sharing }.

Section CrossEntropyError.
Context `{DF : DecFloat} `{E : Env} `{CI : CppInt} `{CE : CppExp} `{SH : Shuffle}.
Context (fuel : nat).
#[local] Existing Instance fp_value.

(** [open_sigmoid_vector(x[i] * theta) - t[i]] *)
Definition residual (f : CrossEntropyError) (theta : list sharing) (xi : list sharing) (i : Z) : M sharing :=
  let* p := v_mul xi theta in
  let* y := MathF.open_sigmoid_vector fuel p (fp 1) in
  let* ti := lift (vec_at (t f) i) in
  ret (s_sub y ti).

(** [sum(hy * x_t[i])] for the first [dim] rows of the transposed matrix. *)
Definition columns (hy : list sharing) (rows : list (list sharing)) (dim : nat) : M (list sharing) :=
  let* m := lift (ShareMatrix.make rows) in
  let x_t := ShareMatrix.get_row (ShareMatrix.transpose m) in
  mmap (λ i, let* row := lift (vec_at x_t (Z.of_nat i)) in
             let* p := v_mul hy row in ret (Math.sum p)) (seq 0 dim).

Definition df (f : CrossEntropyError) (theta : list sharing) : M (list sharing) :=
  let* hy := mmap (λ i, let* xi := lift (vec_at (x f) i) in residual f theta xi i)
                  (map Z.of_nat (seq 0 (length (x f)))) in
  columns hy (x f) (length theta).

(** The special party adds the shuffled numbers to its zero shares; the opened
    numbers are read back as integers. *)
Definition get_random_x (num size : Z) : M (list Z) :=
  if size <? num then throw (RuntimeError "sgd index count error")
  else if num <? 0 then throw (LogicError "cannot create std::vector larger than max_size()")
  else
    let* shuffle_index := (λ w, Ok (shuffle w (map Z.of_nat (seq 0 (Z.to_nat size))), w)) in
    let* values := lift (traverse of_integral (take (Z.to_nat num) shuffle_index)) in
    let s_index := map (s_addc s_zero) values in
    let* common_index := open_recons_vec s_index in
    lift (traverse (λ i, Double.to_signed 32 (getDoubleVal i)) common_index).

Definition df_batch (f : CrossEntropyError) (num : Z) (theta : list sharing) : M (list sharing) :=
  let* shuffle_index := get_random_x num (Z.of_nat (length (x f))) in
  let* parts := mmap (λ i,
      let* xi := lift (vec_at (x f) i) in
      let* h := residual f theta xi i in ret (xi, h)) shuffle_index in
  columns (map snd parts) (map fst parts) (length theta).

Definition objective (f : CrossEntropyError) : ObjectiveFunction :=
  {| Optimizers.df := df f; Optimizers.df_batch := df_batch f |}.
End CrossEntropyError.
End CrossEntropyError.

(** [LogisticRegressionJob] *)
Module LogisticRegressionJob.
Import FixedPoint FixedDouble FixedCompare.
Section LogisticRegressionJob.
Context `{DF : DecFloat} `{E : Env} `{CI : CppInt} `{CE : CppExp} `{SH : Shuffle}.
#[local] Existing Instance fp_value.

(** A row of the design matrix begins with the constant 1. *)
Definition design (one : Z) (table : list (list sharing)) (arg0 : list Z) : result (list (list sharing)) :=
  traverse (λ row, let! xs := Columns.select row arg0 in Ok (getConstantShare one :: xs)) table.
Definition front (l : list Z) : result Z :=
  match l with [] => Throw (Undefined "front of an empty list") | j :: _ => Ok j end.

Definition parse_table (table : list (list sharing)) (arg : list (list Z)) :
    result (list (list sharing) * list sharing) :=
  let! arg0 := vec_at arg 0 in
  let! one := of_string "1" in
  let! x := design one table arg0 in
  let! arg1 := vec_at arg 1 in
  let! j := front arg1 in
  let! y := traverse (λ row, vec_at row (j - 1)) table in
  Ok (x, y).

Definition iterateNum : nat := 100.

Definition compute (fuel : nat) (table : list (list sharing)) (arg : list (list Z)) : M (list sharing) :=
  let* xy := lift (parse_table table arg) in
  let '(x, y) := xy in
  let f := CrossEntropyError.mkCrossEntropyError x y in
  let batch_size := Z.quot (Z.of_nat (length x)) 2 in
  let* one := lift (of_string "1") in
  let* x0 := lift (vec_at x 0) in
  let theta := replicate (length x0) s_zero in
  Optimizer.SGD_optimize (getConstantShare one) batch_size iterateNum (CrossEntropyError.objective fuel f) theta.
End LogisticRegressionJob.
End LogisticRegressionJob.

(** * Lemmas *)

Section Batch.
Context `{DL : DecLaws} `{E : Env} `{V : !ValidEnv E} `{CL : CppIntLaws} `{CE : CppExp} `{SL : ShuffleLaws}.
#[local] Existing Instance fp_value.
Import FixedPoint FixedDouble FixedCompare CrossEntropyError.

Definition row_numbers (size : Z) : list Z := map Z.of_nat (seq 0 (Z.to_nat size)).

Lemma row_numbers_bounds size : 0 ≤ size → Forall (λ i, 0 ≤ i < size) (row_numbers size).
Proof. intros Hs. unfold row_numbers. apply Forall_fmap, Forall_forall. intros k Hk%elem_of_seq. unfold compose. lia. Qed.

Definition batch (num size : Z) (w : World) : list Z := take (Z.to_nat num) (shuffle w (row_numbers size)).

Lemma batch_spec num size w : 0 ≤ num ≤ size →
  NoDup (batch num size w) ∧ Forall (λ i, 0 ≤ i < size) (batch num size w) ∧ length (batch num size w) = Z.to_nat num.
Proof.
  intros Hn. unfold batch. pose proof (shuffle_permutes w (row_numbers size)) as Hp. split_and!.
  - assert (NoDup (shuffle w (row_numbers size))) as Hd.
    { rewrite Hp. unfold row_numbers. apply (NoDup_fmap_2 Z.of_nat), NoDup_seq. }
    rewrite <- (take_drop (Z.to_nat num)) in Hd. by apply NoDup_app in Hd as [Hd _].
  - apply Forall_take. rewrite Hp. apply row_numbers_bounds. lia.
  - rewrite length_take, (Permutation_length Hp). unfold row_numbers. rewrite length_map, length_seq. lia.
Qed.

Lemma get_random_x_runs num size w : 0 ≤ num ≤ size → size ≤ 2 ^ 26 →
  runs (get_random_x num size) w (λ idx w', idx = batch num size w ∧ w' = w).
Proof.
  intros Hn Hs. unfold get_random_x.
  rewrite (proj2 (Z.ltb_ge size num) ltac:(lia)), (proj2 (Z.ltb_ge num 0) ltac:(lia)).
  eapply (runs_bind _ _ _ (λ l w', l = shuffle w (row_numbers size) ∧ w' = w)); [by eexists _, _|].
  intros ? ? [-> ->]. destruct (batch_spec num size w Hn) as (_ & Hb & _). fold (batch num size w).
  set (b := batch num size w) in *. clearbody b.
  eapply runs_bind.
  { apply runs_lift_eq, (traverse_map _ fp). intros i Hi. rewrite Forall_forall in Hb. specialize (Hb i Hi). cbn in Hb.
    apply RandomFacts.int64_ok. unfold fp, shift. lia. }
  intros ? ? [-> ->].
  eapply runs_bind.
  { eapply runs_lift_eq, (recons_vec_whole sp_id (2 ^ 26 * shift) _ b); [|reflexivity].
    rewrite map_map. apply Forall2_fmap_l, Forall_Forall2_diag. eapply Forall_impl; [exact Hb|]. cbn. intros i Hi.
    eapply WShares_weaken; [apply (WShares_const i)|]. unfold shift. lia. }
  intros ? ? [-> ->]. apply runs_lift_eq.
  induction Hb as [|i b Hi _ IH]; [done|]. cbn [map traverse]. rewrite count_to_int, IH by lia. done.
Qed.
End Batch.

(** ** The gradient of the cross entropy on the secrets *)

(** The exponential [exp(-s)] of an opened sum, in units. *)
Definition exponential `{CppInt} `{CppExp} (s e : Z) : Prop :=
  FixedDouble.of_double (exp_double (Double.neg (FixedDouble.getDoubleVal
    (FixedPoint.mul s (FixedCompare.fp 1))))) = Ok e.

(** [h] is what the sigmoid of a row, up to the rounding of its weighted sum
    and of the quotient, exceeds the row's target by. *)
Definition exceeds `{CppInt} `{CppExp} `{E : Env} (vs xv : list Z) (tv h : Z) : Prop :=
  ∃ s e, Z.abs (FixedPoint.shift * s - dot xv vs) ≤ Z.of_nat (length xv) * FixedPoint.shift
    ∧ exponential s e ∧ quotient_of FixedPoint.shift (FixedPoint.shift + e) (h + tv).

(** Entry [j] of the gradient is the sum of [h * x_j] over the rows. *)
Definition gradient_entry (rows : list (list Z)) (hs : list Z) (j : nat) : Z :=
  dot hs (map (λ xv, nth j xv 0) rows).

Lemma dot_cons v vs u us : dot (v :: vs) (u :: us) = v * u + dot vs us.
Proof. unfold dot. cbn [zip zip_with map]. by rewrite Zsum_cons. Qed.

Lemma dot_abs xs ys A B : Forall (λ v, Z.abs v ≤ A) xs → Forall (λ v, Z.abs v ≤ B) ys → 0 ≤ A → 0 ≤ B →
  Z.abs (dot xs ys) ≤ Z.of_nat (length xs) * (A * B).
Proof.
  intros Hx Hy HA HB. revert ys Hy. induction Hx as [|x xs Hx _ IH]; intros ys Hy; [done|].
  destruct Hy as [|y ys Hy Hys]; [apply (Z.mul_nonneg_nonneg (Z.of_nat _)); [lia|nia]|].
  rewrite dot_cons. specialize (IH ys Hys). assert (Z.abs (x * y) ≤ A * B) by (rewrite Z.abs_mul; nia).
  cbn [length]. lia.
Qed.

(** The size of a sum of rounded products. *)
Lemma dot_rounded_abs xs ys s A B :
  Forall (λ v, Z.abs v ≤ A) xs → Forall (λ v, Z.abs v ≤ B) ys → 0 ≤ A → 0 ≤ B →
  let d := Z.of_nat (length xs) in
  Z.abs (FixedPoint.shift * s - dot xs ys) ≤ d * FixedPoint.shift → Z.abs s ≤ d * (A * B / FixedPoint.shift + 1) + d.
Proof.
  intros Hx Hy HA HB d Hs. pose proof FixedPoint.shift_pos as Hsh.
  pose proof (dot_abs xs ys A B Hx Hy HA HB) as Hd. fold d in Hd.
  set (S := FixedPoint.shift) in *. clearbody S.
  assert (S * Z.abs s ≤ d * (A * B) + d * S) as H.
  { rewrite <- (Z.abs_eq S) at 1 by lia. rewrite <- Z.abs_mul. lia. }
  pose proof (Z.div_mod (A * B) S ltac:(lia)). pose proof (Z.mod_pos_bound (A * B) S Hsh).
  set (q := A * B / S) in *. assert (0 ≤ d) by lia. apply (Z.mul_le_mono_pos_l _ _ S); [done|]. nia.
Qed.

Section Gradient.
Context `{DL : DecLaws} `{E : Env} `{V : !ValidEnv E} {TB : Z} `{TL : !TripleLaws TB E} `{CL : CppIntLaws}.
Context `{CE : CppExp} `{SL : ShuffleLaws}.
#[local] Existing Instance fp_value.
Import FixedPoint FixedDouble FixedCompare CrossEntropyError.

(** Magnitudes: rows and parameters up to [K], exponentials up to [e_max]. *)
Definition residual_max (K : Z) : Z := shift + 1 + 999 * n + K.
Definition weight_max (d : nat) (K : Z) : Z := Z.of_nat d * (K * K / shift + 1) + Z.of_nat d.

Record entropy_sizes (Q K e_max : Z) (d m : nat) : Prop := {
  es_dim : (0 < d)%nat;
  es_rows : Z.of_nat m ≤ 2 ^ 26;
  es_Q : 0 ≤ Q;
  es_K : 0 ≤ K;
  es_mul : Q + TB * shift < wire;
  es_weight : Z.of_nat d * prod_size (T := TB) K < wire;
  es_exp : ∀ s, Z.abs s ≤ weight_max d K → ∃ e, exponential s e ∧ 0 ≤ e ≤ e_max;
  es_inv : invertible (T := TB) shift (sigmoid_size e_max);
  es_quot : opened TB (quot_size (T := TB) shift (sigmoid_size e_max)) < wire;
  es_sigmoid : sigmoid_bound (TB := TB) e_max + Q + TB * shift < wire
}.

Context {Q K e_max : Z} {d m : nat} (ES : entropy_sizes Q K e_max d m).

Lemma sigmoid_value_abs e y : 0 ≤ e → quotient_of shift (shift + e) y → Z.abs y ≤ shift + 1 + 999 * n.
Proof.
  intros He Hq. unfold quotient_of in Hq. pose proof shift_pos as Hs. pose proof n_valid.
  rewrite (Z.abs_eq (shift + e)), (Z.abs_eq shift) in Hq by lia.
  assert (Z.abs (y * (shift + e) - shift * shift) ≤ (shift + e) * (1 + 999 * n)) as Hq'
    by (apply (Z.mul_le_mono_pos_l _ _ shift); [done|]; lia).
  assert (Z.abs y * (shift + e) ≤ (shift + e) * (1 + 999 * n) + shift * shift) as Ha.
  { rewrite <- (Z.abs_eq (shift + e)) at 1 by lia. rewrite <- Z.abs_mul. lia. }
  apply (Z.mul_le_mono_pos_r _ _ (shift + e)); [lia|]. nia.
Qed.

Lemma weight_abs xv vs s : length xv = d → Forall (λ v, Z.abs v ≤ K) xv → Forall (λ v, Z.abs v ≤ K) vs →
  Z.abs (shift * s - dot xv vs) ≤ Z.of_nat d * shift → Z.abs s ≤ weight_max d K.
Proof.
  intros <- Hx Hv Hs. pose proof (es_K _ _ _ _ _ ES) as HK. unfold weight_max. by apply (dot_rounded_abs xv vs).
Qed.

Lemma sigmoid_nonneg : 0 ≤ sigmoid_bound (TB := TB) e_max.
Proof.
  pose proof (es_K _ _ _ _ _ ES) as HK. pose proof shift_pos. pose proof n_valid.
  destruct (es_exp _ _ _ _ _ ES 0) as (e & _ & He).
  { unfold weight_max. assert (0 ≤ K * K / shift) by (apply Z.div_pos; nia). nia. }
  apply mul_bound_nonneg. unfold quot_size, sigmoid_size. lia.
Qed.

Lemma residual_runs fuel x t theta vs xi xv i ti tv w :
  Forall2 (FShares Q) xi xv → Forall2 (FShares Q) theta vs → length xv = d → length vs = d →
  Forall (λ v, Z.abs v ≤ K) xv → Forall (λ v, Z.abs v ≤ K) vs →
  vec_at t i = Ok ti → FShares Q ti tv → Z.abs tv ≤ K →
  runs (residual (S fuel) (mkCrossEntropyError x t) theta xi i) w (λ h _,
    FShares (sigmoid_bound (TB := TB) e_max + Q) h (Zsum h)
    ∧ Z.abs (Zsum h) ≤ residual_max K ∧ exceeds vs xv tv (Zsum h)).
Proof.
  intros Hx Ht Hlx Hlv HxK HvK Hti Htv HtK. unfold residual. pose proof n_valid.
  assert (length xi = d) as Hlxi by (by rewrite (Forall2_length _ _ _ Hx)).
  eapply runs_bind.
  { apply (dot_sized xi theta xv vs Q K); [exact Hx|exact Ht| |exact HxK|exact HvK|apply ES].
    by rewrite (Forall2_length _ _ _ Ht), Hlv. }
  intros p w1 [Hp Hs]. rewrite Hlxi in Hp, Hs. set (sum := Zsum (Math.sum p)) in *.
  destruct (es_exp _ _ _ _ _ ES sum (weight_abs xv vs sum Hlx HxK HvK Hs)) as (e & He & Hee).
  eapply runs_bind.
  { unfold MathF.open_sigmoid_vector. eapply (open_sigmoid_runs fuel _ _ _ _ e e_max); [exact Hp|apply ES|exact He|exact Hee|apply ES..|].
    pose proof (es_sigmoid _ _ _ _ _ ES). pose proof (T_nonneg (T := TB)).
    pose proof (es_Q _ _ _ _ _ ES).
    unfold shift in *. lia. }
  intros y w2 [Hy Hq]. eapply runs_bind; [by eapply runs_lift_eq|]. intros ? ? [-> ->]. apply runs_ret.
  pose proof (FShares_sub _ _ _ _ _ _ Hy Htv) as Hh. pose proof (proj2 (proj2 Hh)) as Hv. rewrite Hv.
  split; [exact Hh|]. pose proof (sigmoid_value_abs e (Zsum y) (proj1 Hee) Hq). split; [unfold residual_max; lia|].
  exists sum, e. rewrite Hlx. split; [exact Hs|]. split; [exact He|]. by replace (Zsum y - tv + tv) with (Zsum y) by lia.
Qed.

Lemma map_nth_seq {A B} (f : A → B) (l : list A) dflt :
  map f l = map (λ i, f (nth i l dflt)) (seq 0 (length l)).
Proof.
  apply list_eq. intros i. rewrite !list_lookup_fmap. destruct (decide (i < length l)%nat) as [Hi|Hi].
  - rewrite lookup_seq_lt by done. destruct (lookup_lt_is_Some_2 l i Hi) as [a Ha]. rewrite Ha. cbn.
    by rewrite (nth_lookup_Some _ _ _ _ Ha).
  - by rewrite !lookup_ge_None_2 by (rewrite ?length_seq; lia).
Qed.

(** Local values and magnitudes of the entries of a gradient over [num] rows. *)
Definition entry_size (num : nat) : Z := Z.of_nat num * prod_size (T := TB) (Z.max (residual_max K) K).

Lemma columns_runs hy hs rows xvs w :
  let num := length rows in
  Forall2 (FShares (sigmoid_bound (TB := TB) e_max + Q)) hy hs → Forall (λ h, Z.abs h ≤ residual_max K) hs →
  Forall2 (Forall2 (FShares Q)) rows xvs → Forall (λ xv, length xv = d ∧ Forall (λ v, Z.abs v ≤ K) xv) xvs →
  length hy = num → rows ≠ [] →
  runs (columns hy rows d) w (λ g _, ∃ gv, Forall2 (FShares (entry_size num)) g gv
    ∧ length gv = d ∧ ∀ j, (j < d)%nat →
      Z.abs (shift * nth j gv 0 - gradient_entry xvs hs j) ≤ Z.of_nat num * shift).
Proof.
  intros num Hh HhK Hr HxK Hl Hne. unfold columns. pose proof (es_Q _ _ _ _ _ ES) as HQ. pose proof sigmoid_nonneg as Hsig.
  assert (Forall (λ r, length r = d) rows) as Hd.
  { apply Forall_lookup. intros i r Hi. destruct (Forall2_lookup_l _ _ _ _ _ Hr Hi) as (xv & Hxv & Hrow).
    rewrite (Forall2_length _ _ _ Hrow). by apply (Forall_lookup_1 _ _ _ _ HxK Hxv). }
  eapply runs_bind; [by apply runs_lift_eq, (make_rect rows d)|]. intros ? ? [-> ->].
  fold num. set (mt := ShareMatrix.mkMatrix num d rows).
  assert (Holds Q mt xvs) as HM by done.
  assert (∀ j, (j < d)%nat → let row := map (λ i, ShareMatrix.at_ mt i j) (seq 0 num) in
    vec_at (ShareMatrix.get_row (ShareMatrix.transpose mt)) (Z.of_nat j) = Ok row
    ∧ Forall2 (FShares Q) row (map (λ xv, nth j xv 0) xvs)) as Hrows.
  { intros j Hj row. split.
    - apply vec_at_lookup. unfold ShareMatrix.get_row, ShareMatrix.transpose. cbn [ShareMatrix.mat ShareMatrix.w ShareMatrix.h mt].
      by rewrite list_lookup_fmap, lookup_seq_lt by done.
    - rewrite (map_nth_seq _ xvs []), <- (Forall2_length _ _ _ Hr). apply Forall2_map_diag.
      intros i Hi%elem_of_seq. apply (Holds_at Q mt xvs i j HM); cbn; lia. }
  eapply runs_mono.
  { apply (runs_mmap_forall _ _ (λ j g, FShares (entry_size num) g (Zsum g)
      ∧ Z.abs (shift * Zsum g - gradient_entry xvs hs j) ≤ Z.of_nat num * shift)).
    intros j w1 Hj%elem_of_seq. destruct (Hrows j ltac:(lia)) as [Hv Hrow].
    eapply runs_bind; [by apply runs_lift_eq|]. intros ? ? [-> ->].
    eapply runs_bind.
    { apply (dot_sized hy _ hs (map (λ xv, nth j xv 0) xvs) (sigmoid_bound (TB := TB) e_max + Q) (Z.max (residual_max K) K));
        [exact Hh| | | | |apply ES].
      - eapply Forall2_impl; [exact Hrow|]. intros a v Ha. eapply FShares_weaken; [exact Ha|lia].
      - by rewrite length_map, length_seq.
      - eapply Forall_impl; [exact HhK|]. cbn. intros; lia.
      - apply Forall_fmap. eapply Forall_impl; [exact HxK|]. unfold compose. intros xv [Hxl Hxv].
        destruct (lookup_lt_is_Some_2 xv j ltac:(lia)) as [v Hvj]. rewrite (nth_lookup_Some _ _ _ _ Hvj).
        pose proof (Forall_lookup_1 _ _ _ _ Hxv Hvj) as H. cbn in H. lia. }
    intros p w2 Hp. rewrite Hl in Hp. by apply runs_ret. }
  cbv beta. intros g w1 Hg. exists (map Zsum g). split_and!.
  - apply Forall2_fmap_r. eapply Forall2_Forall_r in Hg; [|apply Forall_true; intros j z [Hz _]; exact Hz].
    apply Forall_Forall2_diag. eapply Forall_impl; [exact Hg|]. done.
  - rewrite length_map, <- (Forall2_length _ _ _ Hg). apply length_seq.
  - intros j Hj. destruct (Forall2_lookup_l _ _ _ j j Hg) as (z & Hz & Hzs); [by apply lookup_seq_lt|].
    rewrite (nth_lookup_Some (map Zsum g) _ _ (Zsum z)); [apply Hzs|]. by rewrite list_lookup_fmap, Hz.
Qed.

(** *** The gradient over a batch *)

Definition gradient_max (num : nat) : Z := Z.of_nat num * (residual_max K * K / shift + 1) + Z.of_nat num.

(** The data: [m] rows of [d] numbers, and their targets. *)
Definition row (xvs : list (list Z)) (i : Z) : list Z := nth (Z.to_nat i) xvs [].
Definition target (tvs : list Z) (i : Z) : Z := nth (Z.to_nat i) tvs 0.

Record Data (x : list (list sharing)) (t : list sharing) (xvs : list (list Z)) (tvs : list Z) : Prop := {
  data_rows : Forall2 (Forall2 (FShares Q)) x xvs;
  data_targets : Forall2 (FShares Q) t tvs;
  data_length : length x = m ∧ length t = m;
  data_row : Forall (λ xv, length xv = d ∧ Forall (λ v, Z.abs v ≤ K) xv) xvs;
  data_target : Forall (λ v, Z.abs v ≤ K) tvs
}.

(** The gradient [gv] at [vs] over some [num] different rows. *)
Definition batch_gradient (xvs : list (list Z)) (tvs : list Z) (num : nat) (vs gv : list Z) : Prop :=
  ∃ idx hs, length idx = num ∧ NoDup idx ∧ Forall (λ i, 0 ≤ i < Z.of_nat (length xvs)) idx
    ∧ Forall2 (λ i h, exceeds vs (row xvs i) (target tvs i) h) idx hs
    ∧ ∀ j, (j < d)%nat →
        Z.abs (shift * nth j gv 0 - gradient_entry (map (row xvs) idx) hs j) ≤ Z.of_nat num * shift.

Lemma df_batch_runs fuel x t xvs tvs num theta vs w :
  Data x t xvs tvs → (0 < num ≤ m)%nat →
  Forall2 (FShares Q) theta vs → length vs = d → Forall (λ v, Z.abs v ≤ K) vs →
  runs (df_batch (S fuel) (mkCrossEntropyError x t) (Z.of_nat num) theta) w (λ g _, ∃ gv,
    Forall2 (FShares (entry_size num)) g gv ∧ length gv = d ∧ Forall (λ v, Z.abs v ≤ gradient_max num) gv
    ∧ batch_gradient xvs tvs num vs gv).
Proof.
  intros [Hx Ht [Hlx Hlt] HxK HtK] Hnum Hth Hlv HvK. unfold df_batch. cbn [CrossEntropyError.x CrossEntropyError.t].
  rewrite Hlx. pose proof (es_rows _ _ _ _ _ ES) as Hrows.
  eapply runs_bind; [apply get_random_x_runs; lia|]. intros ? ? [-> ->].
  destruct (batch_spec (Z.of_nat num) (Z.of_nat m) w ltac:(lia)) as (Hnd & Hb & Hlb). rewrite Nat2Z.id in Hlb.
  set (idx := batch (Z.of_nat num) (Z.of_nat m) w) in *. clearbody idx.
  set (P := λ i (xh : list sharing * sharing), Forall2 (FShares Q) xh.1 (row xvs i)
    ∧ FShares (sigmoid_bound (TB := TB) e_max + Q) xh.2 (Zsum xh.2)
    ∧ Z.abs (Zsum xh.2) ≤ residual_max K ∧ exceeds vs (row xvs i) (target tvs i) (Zsum xh.2)).
  assert (∀ i, i ∈ idx → ∃ xi ti, vec_at x i = Ok xi ∧ vec_at t i = Ok ti
    ∧ Forall2 (FShares Q) xi (row xvs i) ∧ FShares Q ti (target tvs i)
    ∧ length (row xvs i) = d ∧ Forall (λ v, Z.abs v ≤ K) (row xvs i) ∧ Z.abs (target tvs i) ≤ K) as Hat.
  { intros i Hi. rewrite Forall_forall in Hb. specialize (Hb i Hi). cbn in Hb.
    destruct (lookup_lt_is_Some_2 x (Z.to_nat i)) as [xi Hxi]; [lia|].
    destruct (lookup_lt_is_Some_2 t (Z.to_nat i)) as [ti Hti]; [lia|].
    destruct (Forall2_lookup_l _ _ _ _ _ Hx Hxi) as (xv & Hxv & Hxx).
    destruct (Forall2_lookup_l _ _ _ _ _ Ht Hti) as (tv & Htv & Htt).
    unfold row, target. rewrite (nth_lookup_Some _ _ _ _ Hxv), (nth_lookup_Some _ _ _ _ Htv). exists xi, ti.
    pose proof (Forall_lookup_1 _ _ _ _ HxK Hxv) as [? ?]. pose proof (Forall_lookup_1 _ _ _ _ HtK Htv).
    split; [rewrite <- (Z2Nat.id i) by lia; by apply vec_at_lookup|].
    split; [rewrite <- (Z2Nat.id i) by lia; by apply vec_at_lookup|]. done. }
  eapply runs_bind.
  { apply (runs_mmap_forall _ _ P). intros i w1 Hi. destruct (Hat i Hi) as (xi & ti & Hxi & Hti & Hxr & Htr & Hl & Hk & Htk).
    eapply runs_bind; [by apply runs_lift_eq|]. intros ? ? [-> ->].
    eapply runs_bind; [by apply (residual_runs fuel x t theta vs xi (row xvs i) i ti (target tvs i))|].
    intros h w2 Hh. by apply runs_ret. }
  intros parts w1 Hp.
  assert (length theta = d) as Hlth by (by rewrite (Forall2_length _ _ _ Hth)). rewrite Hlth.
  assert (length parts = num) as Hlp by (by rewrite <- (Forall2_length _ _ _ Hp)).
  set (hs := map (λ xh : list sharing * sharing, Zsum xh.2) parts). set (xb := map (row xvs) idx).
  assert (Forall2 (Forall2 (FShares Q)) (map fst parts) xb) as Hxb.
  { unfold xb. clear -Hp. induction Hp as [|i xh idx parts [H _] _ IH]; cbn; by constructor. }
  assert (Forall (λ xv, length xv = d ∧ Forall (λ v, Z.abs v ≤ K) xv) xb) as HxbK.
  { apply Forall_fmap, Forall_forall. intros i Hi. by destruct (Hat i Hi) as (? & ? & ? & ? & ? & ? & ? & ? & ?). }
  assert (Forall2 (FShares (sigmoid_bound (TB := TB) e_max + Q)) (map snd parts) hs) as Hhs.
  { unfold hs. clear -Hp. induction Hp as [|i xh idx parts (_ & H & _) _ IH]; cbn; by constructor. }
  assert (Forall (λ h, Z.abs h ≤ residual_max K) hs) as HhK.
  { unfold hs. clear -Hp. induction Hp as [|i xh idx parts (_ & _ & H & _) _ IH]; cbn; by constructor. }
  eapply runs_mono.
  - apply (columns_runs (map snd parts) hs (map fst parts) xb w1 Hhs HhK Hxb HxbK); [by rewrite !length_map|].
    destruct parts; [cbn in Hlp; lia|done].
  - cbv beta. rewrite length_map, Hlp. intros g w2 (gv & Hg & Hlg & Hj). exists gv. split; [exact Hg|]. split; [exact Hlg|]. split.
    + apply Forall_lookup. intros j v Hv. pose proof (lookup_lt_Some _ _ _ Hv) as Hjl.
      specialize (Hj j ltac:(lia)). rewrite (nth_lookup_Some _ _ _ _ Hv) in Hj.
      pose proof (es_K _ _ _ _ _ ES). pose proof n_valid. pose proof shift_pos.
      assert (length hs = num) as Hlh by (unfold hs; by rewrite length_map). unfold gradient_max. rewrite <- Hlh in *.
      apply (dot_rounded_abs hs (map (λ xv, nth j xv 0) xb) v _ _ HhK); [|unfold residual_max; lia|done|exact Hj].
      apply Forall_fmap. eapply Forall_impl; [exact HxbK|]. unfold compose. intros xv [Hxl Hxv].
      destruct (lookup_lt_is_Some_2 xv j ltac:(lia)) as [u Hu]. rewrite (nth_lookup_Some _ _ _ _ Hu).
      exact (Forall_lookup_1 _ _ _ _ Hxv Hu).
    + exists idx, hs. split; [done|]. split; [done|]. split; [by rewrite <- (Forall2_length _ _ _ Hx), Hlx|]. split; [|exact Hj].
      unfold hs. clear -Hp. induction Hp as [|i xh idx parts (_ & _ & _ & H) _ IH]; cbn; by constructor.
Qed.

(** The cross entropy keeps the promise of the optimizers' interface. *)
#[export] Instance cross_entropy_law fuel x t xvs tvs num :
  Data x t xvs tvs → (0 < num ≤ m)%nat →
  GradientLaw (batch_gradient xvs tvs num) d Q K (entry_size num) (gradient_max num)
    (df_batch (S fuel) (mkCrossEntropyError x t) (Z.of_nat num)).
Proof. intros HD Hn theta vs w Hth Hl Hv. by apply df_batch_runs. Qed.
End Gradient.

Lemma bind_ok {A B} (m : M A) (f : A → M B) w a w' : m w = Ok (a, w') → bind m f w = f a w'.
Proof. intros H. unfold bind. by rewrite H. Qed.

Lemma bind_throw {A B} (m : M A) (f : A → M B) w e : m w = Throw e → bind m f w = Throw e.
Proof. intros H. unfold bind. by rewrite H. Qed.

(** * Theorems *)

Import CrossEntropyError.

(** A batch of [num] rows: every party obtains the same row numbers, the
    first [num] of the special party's shuffle, all different and all below
    [size]; asking for more rows than there are is an error. *)
Theorem batch_rows_distinct `{DL : DecLaws} {E : Env} {V : ValidEnv E} `{CL : CppIntLaws}
    {SH : Shuffle} {SL : ShuffleLaws SH} num size w :
  (0 ≤ num ≤ size → size ≤ 2 ^ 26 →
   ∃ idx, get_random_x num size w = Ok (idx, w) ∧ length idx = Z.to_nat num
     ∧ NoDup idx ∧ Forall (λ i, 0 ≤ i < size) idx ∧ idx = batch num size w)
  ∧ (size < num → get_random_x num size w = Throw (RuntimeError "sgd index count error")).
Proof.
  split.
  - intros Hn Hs. destruct (get_random_x_runs num size w Hn Hs) as (idx & w' & He & -> & ->).
    destruct (batch_spec num size w Hn) as (H1 & H2 & H3). eexists. split; [exact He|]. done.
  - intros Hn. unfold get_random_x. by rewrite (proj2 (Z.ltb_lt size num)).
Qed.

(** C31: the gradient of the cross entropy over a batch: every party opens the
    same numbers [gv], one for every parameter, and there are [num] different
    rows such that entry [j] is, up to [num] units, the sum over these rows of
    [h * x_j], where [h] exceeds minus the target the sigmoid of the row's
    weighted sum, up to the rounding of the sum and of the quotient. *)
Theorem cross_entropy_gradient `{DL : DecLaws} {E : Env} {V : ValidEnv E} {TB} {TL : TripleLaws TB E}
    `{CL : CppIntLaws} {CE : CppExp} {SH : Shuffle} {SL : ShuffleLaws SH}
    {Q K e_max d m} (ES : entropy_sizes (TB := TB) Q K e_max d m) fuel x t xvs tvs num theta vs w :
  Data (Q := Q) (K := K) (d := d) (m := m) x t xvs tvs → (0 < num ≤ m)%nat → entry_size (TB := TB) (K := K) num < wire →
  Forall2 (FShares Q) theta vs → length vs = d → Forall (λ v, Z.abs v ≤ K) vs →
  ∃ g w' gv, df_batch (S fuel) (mkCrossEntropyError x t) (Z.of_nat num) theta w = Ok (g, w')
    ∧ (∀ me, @recons_vec_at fp_value E me g = Ok gv) ∧ length gv = d
    ∧ batch_gradient (d := d) xvs tvs num vs gv.
Proof.
  intros HD Hn Hw Ht Hl Hv.
  destruct (df_batch_runs ES fuel x t xvs tvs num theta vs w HD Hn Ht Hl Hv) as (g & w' & He & gv & Hg & Hlg & _ & Hgr).
  exists g, w', gv. split; [exact He|]. split; [|done]. intros me. by eapply recons_vec_fp.
Qed.

(** A logistic regression over a single row is undefined: the batch is half
    the number of rows, rounded down, so it is empty, and the matrix of its rows
    is made from an empty vector, whose first row is read. *)
Theorem logistic_single_row `{DL : DecLaws} {E : Env} {V : ValidEnv E} `{CL : CppIntLaws} {CE : CppExp} {SH : Shuffle}
    {SL : ShuffleLaws SH} fuel table arg x y w :
  LogisticRegressionJob.parse_table table arg = Ok (x, y) → length table = 1%nat →
  LogisticRegressionJob.compute fuel table arg w = Throw (Undefined "mat_v[0]").
Proof.
  intros Hp Hl. assert (∃ x0, x = [x0]) as (x0 & ->).
  { unfold LogisticRegressionJob.parse_table in Hp. apply rbind_Ok_inv in Hp as (arg0 & _ & Hp).
    apply rbind_Ok_inv in Hp as (one & _ & Hp). apply rbind_Ok_inv in Hp as (x' & Hx & Hp).
    apply rbind_Ok_inv in Hp as (arg1 & _ & Hp). apply rbind_Ok_inv in Hp as (j & _ & Hp).
    apply rbind_Ok_inv in Hp as (y' & _ & [= -> _]). apply traverse_length in Hx. rewrite Hl in Hx.
    destruct x as [|x0 [|]]; try discriminate Hx. by exists x0. }
  unfold LogisticRegressionJob.compute. rewrite bind_ok with (a := ([x0], y)) (w' := w) by (unfold lift; by rewrite Hp).
  cbn [length]. rewrite bind_ok with (a := FixedPoint.shift) (w' := w).
  2: { unfold lift. change "1"%string with (TripleHandler.to_string 1). by rewrite (dec_int 1). }
  rewrite bind_ok with (a := x0) (w' := w) by done.
  change LogisticRegressionJob.iterateNum with (S 99). unfold Optimizer.SGD_optimize. cbn [Optimizer.descend].
  change (Z.quot (Z.of_nat 1) 2) with 0. apply bind_throw. cbn [Optimizers.df_batch objective]. unfold df_batch.
  cbn [CrossEntropyError.x length].
  destruct (get_random_x_runs 0 (Z.of_nat 1) w ltac:(lia) ltac:(lia)) as (idx & w' & Hi & -> & ->).
  rewrite (bind_ok _ _ _ _ _ Hi). done.
Qed.

(** ** Two rows of a constant and a number *)

Module ToyLogistic.
#[local] Existing Instance rat_dec.
#[local] Existing Instance steady_env.
#[local] Existing Instance nearest.
#[local] Existing Instance exp_one.

Definition unshuffled : Shuffle := λ _ l, l.
#[local] Instance unshuffled_laws : ShuffleLaws unshuffled.
Proof. by intros w l. Qed.

Definition unit : Z := FixedPoint.shift.
Definition K : Z := 5 * unit.
Definition xvs : list (list Z) := map (map (λ k, k * unit)) [[1; 2]; [1; 3]].
Definition tvs : list Z := [unit; 0].
Definition x : list (list sharing) := map Toy.share_bits [[1; 2]; [1; 3]].
Definition t : list sharing := Toy.share_bits [1; 0].
Definition theta : list sharing := Toy.share_bits [0; 1].
Definition vs : list Z := [0; unit].

Lemma toy_entropy : entropy_sizes (TB := 36) Toy.Q K unit 2 2.
Proof.
  split.
  - lia.
  - vm_compute; discriminate.
  - vm_compute; discriminate.
  - vm_compute; discriminate.
  - vm_compute; reflexivity.
  - vm_compute; reflexivity.
  - intros s _. exists unit. split; [|split; vm_compute; discriminate].
    unfold exponential, exp_double, exp_one. vm_compute. reflexivity.
  - split_and!; vm_compute; reflexivity.
  - vm_compute; reflexivity.
  - vm_compute; reflexivity.
Qed.

Lemma toy_data : Data (Q := Toy.Q) (K := K) (d := 2) (m := 2) x t xvs tvs.
Proof.
  split.
  - repeat constructor; vm_compute; discriminate.
  - repeat constructor; vm_compute; discriminate.
  - done.
  - repeat constructor; vm_compute; discriminate.
  - repeat constructor; vm_compute; discriminate.
Qed.
End ToyLogistic.

Lemma batch_rows_distinct_witness :
  ∃ idx, @get_random_x rat_dec steady_env nearest ToyLogistic.unshuffled 2 3 world0 = Ok (idx, world0)
    ∧ length idx = Z.to_nat 2 ∧ NoDup idx ∧ Forall (λ i, 0 ≤ i < 3) idx ∧ idx = @batch ToyLogistic.unshuffled 2 3 world0.
Proof.
  apply (@batch_rows_distinct rat_dec rat_laws steady_env _ nearest nearest_laws ToyLogistic.unshuffled ToyLogistic.unshuffled_laws 2 3 world0);
    [split; discriminate|vm_compute; discriminate].
Defined.

Lemma cross_entropy_gradient_witness :
  ∃ g w' gv, @df_batch rat_dec steady_env nearest exp_one ToyLogistic.unshuffled 1
      (mkCrossEntropyError ToyLogistic.x ToyLogistic.t) 2 ToyLogistic.theta world0 = Ok (g, w')
    ∧ (∀ me, @recons_vec_at (@fp_value rat_dec) steady_env me g = Ok gv) ∧ length gv = 2%nat
    ∧ @batch_gradient steady_env nearest exp_one 2 ToyLogistic.xvs ToyLogistic.tvs 2 ToyLogistic.vs gv.
Proof.
  refine (@cross_entropy_gradient rat_dec rat_laws steady_env _ 36 _ nearest nearest_laws exp_one ToyLogistic.unshuffled ToyLogistic.unshuffled_laws
    Toy.Q ToyLogistic.K ToyLogistic.unit 2 2 ToyLogistic.toy_entropy 0 ToyLogistic.x ToyLogistic.t ToyLogistic.xvs
    ToyLogistic.tvs 2 ToyLogistic.theta ToyLogistic.vs world0 _ _ _ _ _ _).
  - exact ToyLogistic.toy_data.
  - lia.
  - vm_compute; reflexivity.
  - repeat constructor; vm_compute; discriminate.
  - reflexivity.
  - repeat constructor; vm_compute; discriminate.
Defined.

Lemma logistic_single_row_witness :
  let table := [Toy.share_bits [2; 1]] in
  @LogisticRegressionJob.compute rat_dec steady_env nearest exp_one ToyLogistic.unshuffled 1 table [[1]; [2]] world0
  = Throw (Undefined "mat_v[0]").
Proof.
  intros table.
  refine (@logistic_single_row rat_dec rat_laws steady_env _ nearest nearest_laws exp_one ToyLogistic.unshuffled ToyLogistic.unshuffled_laws
    1 table [[1]; [2]] [[@getConstantShare (@fp_value rat_dec) steady_env FixedPoint.shift; Toy.share_bit 2]] [Toy.share_bit 1]
    world0 _ _).
  - vm_compute; reflexivity.
  - reflexivity.
Defined.
