(* ===== verification/NormalEquations.v ===== *)
(** * The inverse of a share matrix and the linear regression
      (Share/Matrix.cpp, Job/Jobs/LinearRegressionJob.hpp)

    The parties blind the matrix with a random one, open the product, invert it
    in the clear and multiply the random matrix to the shared inverse.  The
    inverse of Eigen's LU module is the parameter [EigenInverse]; what the
    theorem needs of it is stated for the matrix it is applied to. *)
From stdpp Require Import base list numbers sets strings.
From Stdlib Require Import ZArith Lia.
From S2P Require Import Prelude FixedPoint Random TripleHandler Share SharePF ShareFP Double FixedCompare.
From S2P Require Import FixedCompareCorrect FixedWhole FixedInverse Sized SID3Correct Columns CrossEntropy.
#[local] Open Scope Z_scope.
#[local] Open Scope qmpc_scope.
#[local] Abbreviation n := (Z.of_nat n_parties).

(** [mat.inverse()] of an Eigen matrix of fixed-point numbers. *)
Class EigenInverse := eigen_inverse : list (list Z) → list (list Z).

(** ** The inverse *)

Module MatrixInverse.
Import FixedPoint FixedDouble FixedCompare ShareMatrix.
Section MatrixInverse.
Context `{DF : DecFloat} `{E : Env} `{EI : EigenInverse}.
#[local] Existing Instance fp_value.

(** [getRand<FixedPoint>(0, 100) / 50.0], at every party. *)
Definition blinder : M sharing :=
  let* rnd := getRand 0 100 in ret (Math.s_divc rnd (fp 50)).

(** [Matrix::sharize_mat] *)
Definition sharize_mat (m : list (list Z)) : M ShareMatrix :=
  let* rows := mmap (mmap sharize) m in lift (make rows).

(** The first half: the random matrix, and what the parties open. *)
Definition blind (a : ShareMatrix) : M (ShareMatrix * list (list Z)) :=
  let* R_ := mmap (λ _, mmap (λ _, blinder) (seq 0 (w a))) (seq 0 (h a)) in
  let* R := lift (make R_) in
  let* U_s := mul R a in
  let* U := open_and_recons U_s in
  ret (R, U).

Definition inverse (a : ShareMatrix) : M ShareMatrix :=
  let* RU := blind a in
  let* U_inv_s := sharize_mat (eigen_inverse RU.2) in
  mul U_inv_s RU.1.
End MatrixInverse.
End MatrixInverse.

(** [LinearRegressionJob] *)
Module LinearRegressionJob.
Import FixedPoint FixedDouble FixedCompare ShareMatrix.
Section LinearRegressionJob.
Context `{DF : DecFloat} `{E : Env} `{EI : EigenInverse}.
#[local] Existing Instance fp_value.

Definition parse_table (table : list (list sharing)) (arg : list (list Z)) :
    result (list (list sharing) * list (list sharing)) :=
  let! xy := LogisticRegressionJob.parse_table table arg in
  Ok (xy.1, map (λ y, [y]) xy.2).

(** [w = (X^T * X)^{-1} * X^T * y] *)
Definition compute (table : list (list sharing)) (arg : list (list Z)) : M (list sharing) :=
  let* xy := lift (parse_table table arg) in
  let* mat_x := lift (make xy.1) in
  let* mat_y := lift (make xy.2) in
  let mat_x_trans := transpose mat_x in
  let* mat_mul := mul mat_x_trans mat_x in
  let* mat_mul_inv := MatrixInverse.inverse mat_mul in
  let* p := mul mat_mul_inv mat_x_trans in
  let* w := mul p mat_y in
  lift (vec_at (get_row (transpose w)) 0).
End LinearRegressionJob.
End LinearRegressionJob.


(** * Lemmas *)

(** [V] is an inverse of the [k] by [k] matrix [U] of numbers in units, up to
    [eta], with entries up to [v_max]. *)
Definition inverts (k : nat) (v_max eta : Z) (U V : list (list Z)) : Prop :=
  length V = k ∧ Forall (λ r, length r = k ∧ Forall (λ v, Z.abs v ≤ v_max) r) V
  ∧ ∀ i j, (i < k)%nat → (j < k)%nat →
      Z.abs (product_entry k V U i j - (if (i =? j)%nat then FixedPoint.shift * FixedPoint.shift else 0)) ≤ eta.

(** ** Sums over indices *)

Definition sum_to (k : nat) (f : nat → Z) : Z := Zsum (map f (seq 0 k)).

Lemma sum_to_S k f : sum_to (S k) f = sum_to k f + f k.
Proof. unfold sum_to. rewrite seq_S, map_app, Zsum_app. cbn [map]. by rewrite Zsum_singleton. Qed.

Lemma sum_to_ext k f g : (∀ i, (i < k)%nat → f i = g i) → sum_to k f = sum_to k g.
Proof. intros H. induction k as [|k IH]; [done|]. rewrite !sum_to_S. f_equal; [apply IH; intros; apply H; lia|apply H; lia]. Qed.

Lemma sum_to_add k f g : sum_to k (λ i, f i + g i) = sum_to k f + sum_to k g.
Proof. induction k as [|k IH]; [done|]. rewrite !sum_to_S, IH. lia. Qed.

Lemma sum_to_mul k c f : sum_to k (λ i, c * f i) = c * sum_to k f.
Proof. induction k as [|k IH]; [by rewrite Z.mul_0_r|]. rewrite !sum_to_S, IH. lia. Qed.

Lemma sum_to_swap k l (f : nat → nat → Z) :
  sum_to k (λ i, sum_to l (f i)) = sum_to l (λ j, sum_to k (λ i, f i j)).
Proof.
  induction k as [|k IH].
  - symmetry. rewrite (sum_to_ext l _ (λ _, 0 * 0)) by done. by rewrite sum_to_mul.
  - rewrite sum_to_S, IH, <- sum_to_add. apply sum_to_ext. intros j _. by rewrite sum_to_S.
Qed.

Lemma sum_to_abs k f B : (∀ i, (i < k)%nat → Z.abs (f i) ≤ B) → Z.abs (sum_to k f) ≤ Z.of_nat k * B.
Proof.
  intros H. induction k as [|k IH]; [done|]. rewrite sum_to_S.
  pose proof (H k ltac:(lia)). specialize (IH ltac:(intros; apply H; lia)). lia.
Qed.

(** The errors of the two products and of the inverse in the clear: [X] is
    [V R], [U] is [R A] and [V U] is the unit matrix, each up to an error. *)
Lemma inverse_error k s (X V R A U : nat → nat → Z) (D v_max a_max eta : Z) i j :
  0 < s → (i < k)%nat → (j < k)%nat →
  (∀ l, (l < k)%nat → Z.abs (s * X i l - sum_to k (λ p, V i p * R p l)) ≤ Z.of_nat k * s) →
  (∀ p, (p < k)%nat → Z.abs (s * U p j - sum_to k (λ l, R p l * A l j)) ≤ Z.of_nat k * s) →
  (∀ p, (p < k)%nat → Z.abs (V i p) ≤ v_max) → (∀ l, (l < k)%nat → Z.abs (A l j) ≤ a_max) →
  0 ≤ v_max → 0 ≤ a_max →
  Z.abs (sum_to k (λ p, V i p * U p j) - D) ≤ eta →
  Z.abs (sum_to k (λ l, X i l * A l j) - D) ≤ eta + Z.of_nat k * Z.of_nat k * (v_max + a_max).
Proof.
  intros Hs Hi Hj HX HU HV HA Hv0 Ha0 HD.
  set (E2 := λ l, s * X i l - sum_to k (λ p, V i p * R p l)) in *.
  set (E1 := λ p, s * U p j - sum_to k (λ l, R p l * A l j)) in *.
  assert (s * sum_to k (λ l, X i l * A l j)
          = s * sum_to k (λ p, V i p * U p j) + (sum_to k (λ l, E2 l * A l j) + sum_to k (λ p, -1 * (V i p * E1 p)))) as He.
  { rewrite <- !sum_to_mul.
    rewrite (sum_to_ext k (λ l, s * (X i l * A l j)) (λ l, E2 l * A l j + sum_to k (λ p, V i p * R p l * A l j))).
    2: { intros l _. unfold E2. rewrite (sum_to_ext k (λ p, V i p * R p l * A l j) (λ p, A l j * (V i p * R p l)))
           by (intros; lia). rewrite sum_to_mul. lia. }
    rewrite (sum_to_ext k (λ p, s * (V i p * U p j)) (λ p, V i p * E1 p + sum_to k (λ l, V i p * R p l * A l j))).
    2: { intros p _. unfold E1. rewrite (sum_to_ext k (λ l, V i p * R p l * A l j) (λ l, V i p * (R p l * A l j)))
           by (intros; lia). rewrite sum_to_mul. lia. }
    rewrite !sum_to_add, (sum_to_swap k k (λ l p, V i p * R p l * A l j)), sum_to_mul. lia. }
  assert (Z.abs (sum_to k (λ l, E2 l * A l j)) ≤ Z.of_nat k * (Z.of_nat k * s * a_max)) as H2.
  { apply sum_to_abs. intros l Hl. specialize (HX l Hl). specialize (HA l Hl). fold (E2 l) in HX. rewrite Z.abs_mul. nia. }
  assert (Z.abs (sum_to k (λ p, -1 * (V i p * E1 p))) ≤ Z.of_nat k * (Z.of_nat k * s * v_max)) as H1.
  { apply sum_to_abs. intros p Hp. specialize (HU p Hp). specialize (HV p Hp). fold (E1 p) in HU.
    rewrite !Z.abs_mul. change (Z.abs (-1)) with 1. nia. }
  set (X' := sum_to k (λ l, X i l * A l j)) in *. set (U' := sum_to k (λ p, V i p * U p j)) in *.
  clearbody X' U'. clear HX HU HV HA. clearbody E1 E2.
  apply (Z.mul_le_mono_pos_l _ _ s); [done|].
  assert (Z.abs (s * (U' - D)) ≤ s * eta) by (rewrite Z.abs_mul, (Z.abs_eq s) by lia; nia).
  rewrite <- (Z.abs_eq s) at 1 by lia. rewrite <- Z.abs_mul. lia.
Qed.

(** ** The protocol *)

Section Inverse.
Context `{DL : DecLaws} `{E : Env} `{V : !ValidEnv E} {TB : Z} `{TL : !TripleLaws TB E} `{EI : EigenInverse}.
#[local] Existing Instance fp_value.
Import FixedPoint FixedDouble FixedCompare ShareMatrix MatrixInverse.

Lemma Holds_weaken B B' m vm : Holds B m vm → B ≤ B' → Holds B' m vm.
Proof.
  intros (Hh & Hw & Hm) HB. split; [done|]. split; [done|]. eapply Forall2_impl; [exact Hm|].
  intros r vr Hr. by eapply FShares_Forall2_weaken.
Qed.

(** A product holds the products' sums, and is opened to what it holds. *)
Lemma mul_holds B a b va vb w0 :
  Holds B a va → Holds B b vb → w a = h b → h a ≠ 0%nat → 0 ≤ B → opened TB B < wire →
  runs (mul a b) w0 (λ m _, ∃ vm, Holds (Z.of_nat (w a) * mul_bound TB B) m vm ∧ h m = h a ∧ w m = w b
    ∧ ∀ i j, (i < h a)%nat → (j < w b)%nat →
      Z.abs (shift * entry vm i j - product_entry (w a) va vb i j) ≤ Z.of_nat (w a) * shift).
Proof.
  intros Ha Hb Hw Hh HB Ho. eapply runs_mono; [by apply (mul_fp B a b va vb w0 Ha Hb Hw Hh HB Ho)|].
  intros m w1 (Hhm & Hwm & Hl & Hc). exists (map (map Zsum) (mat m)).
  assert (∀ r, r ∈ mat m → length r = w b) as Hrow.
  { intros r Hr. apply list_elem_of_lookup in Hr as (i & Hr). destruct (Forall2_lookup_r _ _ _ _ _ Hc Hr) as (l & Hl' & Hrow).
    apply list_lookup_fmap_Some in Hl' as (i' & -> & _). apply Forall2_length in Hrow.
    by rewrite length_map, length_seq in Hrow. }
  split; [|split; [done|]; split; [done|]].
  - split; [lia|]. split; [rewrite Hwm; by apply Forall_forall|]. clear -Hc. revert Hc.
    generalize (map (λ i, map (λ j, (i, j)) (seq 0 (w b))) (seq 0 (h a))). intros l Hc.
    induction Hc as [|ij r l rows Hr _ IH]; constructor; [|exact IH].
    induction Hr as [|p z ps zs [Hz _] _ IHr]; by constructor.
  - intros i j Hi Hj. destruct (lookup_lt_is_Some_2 (mat m) i ltac:(lia)) as [r Hr].
    destruct (Forall2_lookup_r _ _ _ _ _ Hc Hr) as (l & Hl' & Hlr).
    apply list_lookup_fmap_Some in Hl' as (i' & -> & Hi'). apply lookup_seq in Hi' as [-> _].
    pose proof (Hrow r (list_elem_of_lookup_2 _ _ _ Hr)) as Hlr'.
    destruct (lookup_lt_is_Some_2 r j ltac:(lia)) as [z Hz].
    destruct (Forall2_lookup_r _ _ _ _ _ Hlr Hz) as (ij & Hij & _ & Hz').
    apply list_lookup_fmap_Some in Hij as (j' & -> & Hj'). apply lookup_seq in Hj' as [-> _].
    unfold entry at 1. rewrite (nth_lookup_Some _ _ _ (map Zsum r)) by (by rewrite list_lookup_fmap, Hr).
    rewrite (nth_lookup_Some _ _ _ (Zsum z)) by (by rewrite list_lookup_fmap, Hz). exact Hz'.
Qed.

Lemma open_holds B m vm w0 : Holds B m vm → B < wire → runs (open_and_recons m) w0 (λ v w', v = vm ∧ w' = w0).
Proof.
  intros (_ & _ & Hm) HB. unfold open_and_recons. revert w0.
  induction Hm as [|r vr rows vm Hr _ IH]; intros w0; cbn [mmap]; [by apply runs_ret|].
  eapply runs_bind; [by eapply runs_lift_eq, recons_vec_fp|]. intros ? ? [-> ->].
  eapply runs_bind; [apply IH|]. intros ? ? [-> ->]. by apply runs_ret.
Qed.

Lemma make_holds B rows vm k w0 :
  Forall2 (Forall2 (FShares B)) rows vm → rows ≠ [] → Forall (λ r, length r = k) rows →
  runs (lift (make rows)) w0 (λ m _, Holds B m vm ∧ h m = length rows ∧ w m = k).
Proof.
  intros Hr Hne Hl. eapply runs_mono; [by apply runs_lift_eq, (make_rect rows k)|].
  intros ? ? [-> _]. by split.
Qed.

Definition blinder_size : Z := 100 * shift + 1.

Lemma blinder_runs w0 : runs blinder w0 (λ x _, FShares blinder_size x (Zsum x)).
Proof.
  unfold blinder. eapply runs_bind; [by apply getRand_fp_runs|]. intros x w1 [-> _]. apply runs_ret.
  pose proof (draws_FShares 0 100 w0 100 ltac:(done) ltac:(done) ltac:(done)) as Hd.
  assert (FShares (100 * shift) (whole (draws 0 100 w0)) (Zsum (whole (draws 0 100 w0)))) as Hw.
  { destruct Hd as (Hl & Hb & _). split_and!; [unfold whole; by rewrite length_map| |done].
    apply Forall_fmap. eapply Forall_impl; [exact Hb|]. unfold compose, shift. intros; lia. }
  by apply (s_divc_fp (100 * shift) _ _ 50 Hw).
Qed.

Lemma blinders_runs k w0 :
  runs (mmap (λ _, mmap (λ _, blinder) (seq 0 k)) (seq 0 k)) w0 (λ R _,
    Forall2 (Forall2 (FShares blinder_size)) R (map (map Zsum) R) ∧ length R = k ∧ Forall (λ r, length r = k) R).
Proof.
  assert (∀ w1, runs (mmap (λ _, blinder) (seq 0 k)) w1 (λ r _,
    Forall2 (FShares blinder_size) r (map Zsum r) ∧ length r = k)) as Hrow.
  { intros w1. eapply runs_mono; [apply (runs_mmap_forall _ _ (λ _ x, FShares blinder_size x (Zsum x)))|].
    - intros i w2 _. apply blinder_runs.
    - cbv beta. intros r w2 Hr. pose proof (Forall2_length _ _ _ Hr) as Hl. rewrite length_seq in Hl. split; [|done].
      clear Hl. induction Hr; cbn; by constructor. }
  eapply runs_mono; [apply (runs_mmap_forall _ _ (λ _ r, Forall2 (FShares blinder_size) r (map Zsum r) ∧ length r = k))|].
  - intros i w2 _. apply Hrow.
  - cbv beta. intros R w2 HR. pose proof (Forall2_length _ _ _ HR) as Hl. rewrite length_seq in Hl.
    assert (Forall (λ r, Forall2 (FShares blinder_size) r (map Zsum r) ∧ length r = k) R) as HF
      by (clear -HR; induction HR; by constructor).
    split; [|split; [done|eapply Forall_impl; [exact HF|]; by intros r [_ H]]].
    clear -HF. induction HF as [|r R [H _] _ IH]; cbn; by constructor.
Qed.

(** Sizes for a [k] by [k] matrix with local values up to [B] and an inverse in
    the clear with entries up to [v_max]. *)
Definition blind_operand (B : Z) : Z := Z.max B blinder_size.
Definition inverse_operand (v_max : Z) : Z := Z.max (v_max + 1000 * shift * n) blinder_size.

Record inverse_sizes (k : nat) (B v_max : Z) : Prop := {
  is_dim : (0 < k)%nat;
  is_v_max : 0 ≤ v_max;
  is_blind : opened TB (blind_operand B) < wire;
  is_open : Z.of_nat k * mul_bound TB (blind_operand B) < wire;
  is_unblind : opened TB (inverse_operand v_max) < wire;
  is_result : Z.of_nat k * mul_bound TB (inverse_operand v_max) < wire
}.

Context {k : nat} {B v_max : Z} (IS : inverse_sizes k B v_max).

Lemma blind_runs a va w0 : Holds B a va → h a = k → w a = k →
  runs (blind a) w0 (λ RU _, ∃ vR, Holds blinder_size RU.1 vR ∧ h RU.1 = k ∧ w RU.1 = k
    ∧ ∀ i j, (i < k)%nat → (j < k)%nat →
      Z.abs (shift * entry RU.2 i j - product_entry k vR va i j) ≤ Z.of_nat k * shift).
Proof.
  intros Ha Hh Hw. pose proof (is_dim _ _ _ IS) as Hk. unfold blind. rewrite Hh, Hw.
  eapply runs_bind; [apply blinders_runs|]. intros R_ w1 (HR & HlR & Hrows).
  eapply runs_bind; [apply (make_holds _ _ _ k w1 HR); [destruct R_; [cbn in HlR; lia|done]|done]|].
  intros R w2 (HR2 & HhR & HwR). rewrite HlR in HhR.
  assert (0 ≤ blind_operand B) as HB0 by (unfold blind_operand, blinder_size, shift; lia).
  eapply runs_bind.
  { apply (mul_holds (blind_operand B) R a (map (map Zsum) R_) va);
      [eapply Holds_weaken; [exact HR2|unfold blind_operand; lia]|eapply Holds_weaken; [exact Ha|unfold blind_operand; lia]
      |lia|lia|done|apply IS]. }
  intros U_s w3 (vU & HU & _ & _ & He). rewrite HwR, HhR, Hw in *.
  eapply runs_bind; [apply (open_holds _ _ _ _ HU), IS|]. intros ? ? [-> ->]. apply runs_ret.
  cbn [fst snd]. by exists (map (map Zsum) R_).
Qed.

Lemma sharize_mat_runs (m : list (list Z)) w0 :
  length m = k → Forall (λ r, length r = k ∧ Forall (λ v, Z.abs v ≤ v_max) r) m →
  runs (sharize_mat m) w0 (λ s _, Holds (v_max + 1000 * shift * n) s m ∧ h s = k ∧ w s = k).
Proof.
  intros Hl Hr. unfold sharize_mat. eapply runs_bind.
  { apply (runs_mmap_forall _ _ (λ r s, Forall2 (FShares (v_max + 1000 * shift * n)) s r ∧ length s = k)).
    intros r w1 Hin. rewrite Forall_forall in Hr. destruct (Hr r Hin) as [Hlr Hv].
    eapply runs_mono; [apply (runs_mmap_forall _ _ (λ v x, FShares (v_max + 1000 * shift * n) x v))|].
    - intros v w2 Hvin. rewrite Forall_forall in Hv. specialize (Hv v Hvin). cbn in Hv.
      eapply runs_mono; [apply sharize_fp|]. intros x w3 Hx. eapply FShares_weaken; [exact Hx|lia].
    - cbv beta. intros s w2 Hs. pose proof (Forall2_length _ _ _ Hs). split; [by apply Forall2_flip|lia]. }
  intros rows w1 Hrows. pose proof (Forall2_length _ _ _ Hrows) as Hlr. pose proof (is_dim _ _ _ IS).
  eapply runs_mono; [apply (make_holds (v_max + 1000 * shift * n) rows m k)|].
  - apply Forall2_flip. eapply Forall2_impl; [exact Hrows|]. by intros r s [Hs _].
  - destruct rows; [cbn in Hlr; lia|done].
  - apply Forall_lookup. intros i s Hs. by destruct (Forall2_lookup_r _ _ _ _ _ Hrows Hs) as (r & _ & _ & ?).
  - cbv beta. intros s w2 (Hs & Hh & Hw). split; [exact Hs|]. split; [lia|done].
Qed.
End Inverse.

Lemma entry_abs k v_max (m : list (list Z)) i j :
  length m = k → Forall (λ r, length r = k ∧ Forall (λ v, Z.abs v ≤ v_max) r) m →
  (i < k)%nat → (j < k)%nat → Z.abs (entry m i j) ≤ v_max.
Proof.
  intros Hl Hm Hi Hj. unfold entry. destruct (lookup_lt_is_Some_2 m i ltac:(lia)) as [r Hr].
  destruct (Forall_lookup_1 _ _ _ _ Hm Hr) as [Hlr Hv]. rewrite (nth_lookup_Some m _ _ _ Hr).
  destruct (lookup_lt_is_Some_2 r j ltac:(lia)) as [v Hvj]. rewrite (nth_lookup_Some _ _ _ _ Hvj).
  exact (Forall_lookup_1 _ _ _ _ Hv Hvj).
Qed.

(** * Theorem *)

Import ShareMatrix MatrixInverse.

(** The inverse of a square share matrix, by blinding: if the inverse in the
    clear of the opened matrix has entries up to [v_max] and multiplies with it
    to the unit matrix up to [eta], then [inverse] terminates and the matrix all
    parties can open multiplies with the original one to the unit matrix, up to
    [eta] and [k^2] times the largest entries of the two matrices: blinding with
    any random matrix cancels out, and only the rounding of the two share
    products is added. *)
Theorem blinded_inverse_close `{DL : DecLaws} {E : Env} {V : ValidEnv E} {TB} {TL : TripleLaws TB E} {EI : EigenInverse}
    {k B v_max} (IS : inverse_sizes (TB := TB) k B v_max) eta a_max a va w0 :
  Holds B a va → h a = k → w a = k → 0 ≤ a_max →
  (∀ i j, (i < k)%nat → (j < k)%nat → Z.abs (entry va i j) ≤ a_max) →
  (∀ R U w1, blind a w0 = Ok (R, U, w1) → inverts k v_max eta U (eigen_inverse U)) →
  ∃ m w' vm, inverse a w0 = Ok (m, w') ∧ h m = k ∧ w m = k ∧ open_and_recons m w' = Ok (vm, w')
    ∧ ∀ i j, (i < k)%nat → (j < k)%nat →
      Z.abs (product_entry k vm va i j - (if (i =? j)%nat then FixedPoint.shift * FixedPoint.shift else 0))
      ≤ eta + Z.of_nat k * Z.of_nat k * (v_max + a_max).
Proof.
  intros Ha Hh Hw Ha0 Hamax Hinv.
  destruct (blind_runs IS a va w0 Ha Hh Hw) as ([R U] & w1 & Hb & vR & HR & HhR & HwR & HU). cbn [fst snd] in *.
  destruct (Hinv R U w1 Hb) as (HlV & HV & HVU). set (Vm := eigen_inverse U) in *.
  destruct (sharize_mat_runs IS Vm w1 HlV HV) as (s & w2 & Hs & HsV & Hhs & Hws).
  pose proof (is_dim _ _ _ IS) as Hk. pose proof (is_v_max _ _ _ IS) as Hv0. pose proof FixedPoint.shift_pos as Hsh.
  destruct (mul_holds (inverse_operand v_max) s R Vm vR w2) as (m & w3 & Hm & vm & Hmv & Hhm & Hwm & Hme).
  - eapply Holds_weaken; [exact HsV|unfold inverse_operand; lia].
  - eapply Holds_weaken; [exact HR|unfold inverse_operand; lia].
  - lia.
  - lia.
  - unfold inverse_operand, blinder_size. lia.
  - apply IS.
  - rewrite Hws, HwR, Hhs in *. exists m, w3, vm.
    split; [unfold inverse; rewrite (bind_ok _ _ _ _ _ Hb); cbn [fst snd]; by rewrite (bind_ok _ _ _ _ _ Hs)|].
    split; [done|]. split; [done|]. split.
    + destruct (open_holds _ _ _ w3 Hmv) as (v & w4 & Ho & -> & ->); [apply IS|exact Ho].
    + intros i j Hi Hj.
      apply (inverse_error k FixedPoint.shift (entry vm) (entry Vm) (entry vR) (entry va) (entry U) _ v_max a_max eta i j);
        [done|done|done|intros l Hl; by apply Hme|intros p Hp; by apply HU|intros p Hp; by eapply entry_abs
        |intros l Hl; by apply Hamax|done|done|by apply HVU].
Qed.

(** ** A matrix of one entry, the number 2 *)

(** Three parties that always draw 25, so that the random matrix is 3/2. *)
Definition half_env : Env := {|
  n_parties := 3; sp_id := 1; entropy := λ _ _, 1525; bts := @bts demo_env
|}.
#[export] Instance half_valid : ValidEnv half_env.
Proof. split; simpl; lia. Qed.
#[export] Instance half_triples : TripleLaws 36 half_env.
Proof. split; [simpl; lia|reflexivity|reflexivity]. Qed.

(** The inverse of a one-by-one matrix, rounded to units. *)
Definition inverse_of_one : EigenInverse :=
  λ U, [[FixedPoint.shift * FixedPoint.shift / entry U 0 0]].
Definition one_entry : ShareMatrix := mkMatrix 1 1 [[Toy.share_bit 2]].
Definition one_bound : Z := 10 * FixedPoint.shift.

Lemma one_entry_blinded R U w1 :
  @blind rat_dec half_env one_entry world0 = Ok (R, U, w1) →
  inverts 1 one_bound one_bound U (inverse_of_one U).
Proof.
  intros H. assert (U = [[3 * FixedPoint.shift]]) as -> by (vm_compute in H; by injection H as _ <- _).
  split; [done|]. split.
  - repeat constructor. vm_compute; discriminate.
  - intros [|i] [|j] Hi Hj; try lia. vm_compute; discriminate.
Qed.

Lemma blinded_inverse_close_witness :
  ∃ m w' vm, @inverse rat_dec half_env inverse_of_one one_entry world0 = Ok (m, w') ∧ h m = 1%nat ∧ w m = 1%nat
    ∧ @open_and_recons rat_dec half_env m w' = Ok (vm, w')
    ∧ ∀ i j, (i < 1)%nat → (j < 1)%nat →
      Z.abs (product_entry 1 vm [[2 * FixedPoint.shift]] i j
             - (if (i =? j)%nat then FixedPoint.shift * FixedPoint.shift else 0))
      ≤ one_bound + 1 * 1 * (one_bound + 2 * FixedPoint.shift).
Proof.
  refine (@blinded_inverse_close rat_dec rat_laws half_env _ 36 _ inverse_of_one 1 one_bound one_bound _ one_bound
    (2 * FixedPoint.shift) one_entry [[2 * FixedPoint.shift]] world0 _ _ _ _ _ _).
  - split; [lia|vm_compute; discriminate|vm_compute; reflexivity..].
  - demo_holds.
  - reflexivity.
  - reflexivity.
  - vm_compute; discriminate.
  - intros [|i] [|j] Hi Hj; try lia. vm_compute; discriminate.
  - exact one_entry_blinded.
Defined.
