(* ===== verification/TransactionQueue.v ===== *)
(** * The bounded blocking queue  (TransactionQueue/TransactionQueue.hpp)

    [pop] waits for an element and [push] for room; both hold the queue's mutex,
    so an operation is one step and a waiting one is no step. *)
From stdpp Require Import base list numbers.
From Stdlib Require Import Lia.
From S2P Require Import Prelude.

Module TransactionQueue.
Section Queue.
Context {T : Type} (max_size : nat).

(** [None] while the predicate of the wait is false. *)
Definition pop (q : list T) : option (T * list T) :=
  match q with [] => None | x :: q => Some (x, q) end.
Definition push (x : T) (q : list T) : option (list T) :=
  if (length q <? max_size)%nat then Some (q ++ [x]) else None.
Definition size (q : list T) : nat := length q.
Definition empty (q : list T) : bool := match q with [] => true | _ => false end.

(** What the threads did to the queue, in the order of its mutex. *)
Inductive op := Pushed (x : T) | Popped (x : T).

Inductive step : list T → op → list T → Prop :=
  | step_pop q x q' : pop q = Some (x, q') → step q (Popped x) q'
  | step_push q x q' : push x q = Some q' → step q (Pushed x) q'.

Inductive run : list T → list op → list T → Prop :=
  | run_nil q : run q [] q
  | run_cons q o q1 os q2 : step q o q1 → run q1 os q2 → run q (o :: os) q2.

Definition pushed (os : list op) : list T := omap (λ o, match o with Pushed x => Some x | _ => None end) os.
Definition popped (os : list op) : list T := omap (λ o, match o with Popped x => Some x | _ => None end) os.
End Queue.
Arguments op : clear implicits.
End TransactionQueue.

Module TransactionQueueFacts.
Import TransactionQueue.
Section Queue.
Context {T : Type} (max_size : nat).

Lemma run_fifo (q : list T) os q' :
  run max_size q os q' → q ++ pushed os = popped os ++ q'.
Proof.
  induction 1 as [q|q o q1 os q2 Hs _ IH]; [by rewrite app_nil_r|].
  destruct Hs as [q x q1 Hp|q x q1 Hp].
  - destruct q; [done|]. injection Hp as -> ->.
    change (x :: (q1 ++ pushed os) = x :: (popped os ++ q2)). by rewrite IH.
  - unfold push in Hp. destruct (_ <? _)%nat; [|done]. injection Hp as <-.
    change (q ++ x :: pushed os = popped os ++ q2). rewrite <- IH, <- app_assoc. done.
Qed.

Lemma run_bounded (q : list T) os q' :
  run max_size q os q' → length q ≤ max_size → length q' ≤ max_size.
Proof.
  induction 1 as [q|q o q1 os q2 Hs _ IH]; [done|]. intros Hq. apply IH. clear IH.
  destruct Hs as [q x q1 Hp|q x q1 Hp].
  - destruct q; [done|]. injection Hp as -> ->. simpl in *. lia.
  - unfold push in Hp. destruct (Nat.ltb_spec (length q) max_size); [|done].
    injection Hp as <-. rewrite length_app. simpl. lia.
Qed.
End Queue.
End TransactionQueueFacts.

(** * Theorems *)

(** In every interleaving of producers and consumers the queue is first in
    first out (what was popped, followed by what is left, is what was pushed, in
    order), never holds more than its capacity, and with a positive capacity
    never blocks both sides: a waiting [pop] means that [push] can go on. *)
Theorem transaction_queue_fifo {T} (max_size : nat) os (q : list T) :
  TransactionQueue.run max_size [] os q →
  TransactionQueue.pushed os = TransactionQueue.popped os ++ q
  ∧ length q ≤ max_size
  ∧ (0 < max_size → TransactionQueue.pop q = None → ∀ x, TransactionQueue.push max_size x q = Some [x])
  ∧ (0 < max_size → ∀ x, TransactionQueue.push max_size x q = None →
     ∃ y q', TransactionQueue.pop q = Some (y, q')).
Proof.
  intros Hr. split_and!.
  - apply (TransactionQueueFacts.run_fifo max_size [] os q Hr).
  - apply (TransactionQueueFacts.run_bounded max_size [] os q Hr). simpl. lia.
  - intros Hm Hp x. destruct q; [|done]. unfold TransactionQueue.push. cbn [length].
    by rewrite (proj2 (Nat.ltb_lt 0 max_size) Hm).
  - intros Hm x Hp. unfold TransactionQueue.push in Hp.
    destruct (Nat.ltb_spec (length q) max_size); [done|].
    destruct q as [|y q]; [simpl in *; lia|by exists y, q].
Qed.

Lemma transaction_queue_fifo_witness :
  @TransactionQueue.pushed nat [TransactionQueue.Pushed 7; TransactionQueue.Pushed 8; TransactionQueue.Popped 7]
  = TransactionQueue.popped [TransactionQueue.Pushed 7; TransactionQueue.Pushed 8; TransactionQueue.Popped 7] ++ [8].
Proof.
  apply (transaction_queue_fifo 5).
  repeat (eapply TransactionQueue.run_cons;
    [first [apply TransactionQueue.step_push; reflexivity|apply TransactionQueue.step_pop; reflexivity]|]).
  apply TransactionQueue.run_nil.
Defined.
