(* ===== verification/RemoteCall.v ===== *)
(** * Remote calls
    (the loops of Client/ComputationToComputationContainerForJob/Client.cpp and
    Client/ComputationToComputationContainer/Client.cpp)

    The status of a gRPC call, what can become of a call on its way, and the loop
    that repeats it until it is answered OK.  [JobManager] starts jobs with it
    and [Clients.Peer] sends shares. *)
From stdpp Require Import base list numbers.
From Stdlib Require Import Lia.
From S2P Require Import Prelude.
#[local] Open Scope qmpc_scope.

(** [grpc::StatusCode]. *)
Module Grpc.
Inductive StatusCode :=
  | OK | CANCELLED | UNKNOWN | INVALID_ARGUMENT | DEADLINE_EXCEEDED | NOT_FOUND | ALREADY_EXISTS
  | PERMISSION_DENIED | RESOURCE_EXHAUSTED | FAILED_PRECONDITION | ABORTED | OUT_OF_RANGE
  | UNIMPLEMENTED | INTERNAL | UNAVAILABLE | DATA_LOSS | UNAUTHENTICATED.

#[export] Instance StatusCode_eq_dec : EqDecision StatusCode.
Proof. solve_decision. Defined.

Definition ok (c : StatusCode) : bool := bool_decide (c = OK).
End Grpc.

Module RemoteCall.
Import Grpc.

(** What becomes of a call: it is answered, the answer is lost after the handler
    ran, or it does not arrive.  The client sees the given status in the last
    two cases. *)
Inductive delivery := Answered | AnswerLost (seen : StatusCode) | NotDelivered (seen : StatusCode).

(** A lost call is seen as a failure. *)
Definition honest (d : delivery) : bool :=
  match d with Answered => true | AnswerLost c | NotDelivered c => negb (ok c) end.
Definition handled (d : delivery) : bool := match d with NotDelivered _ => false | _ => true end.

Definition remote {Q W : Type} (handler : Q → W → W * StatusCode) (d : delivery) (request : Q) (server : W) :
    W * StatusCode :=
  match d with
  | Answered => handler request server
  | AnswerLost c => (fst (handler request server), c)
  | NotDelivered c => (server, c)
  end.

(** [while (true)] with a sleep of ten seconds after a failure.  [net k] is what
    becomes of the [k]-th call to the server. *)
Fixpoint until_ok {Q W : Type} (handler : Q → W → W * StatusCode) (net : nat → delivery) (fuel : nat)
    (request : Q) (server : W) (calls : nat) : result (bool * W * nat) :=
  match fuel with
  | O => Throw OutOfFuel
  | S fuel =>
      let '(server, status) := remote handler (net calls) request server in
      if negb (ok status) then until_ok handler net fuel request server (S calls)
      else Ok (true, server, S calls)
  end.
End RemoteCall.

(** * Lemmas *)

Module RemoteCallFacts.
Import Grpc RemoteCall.

Section Until.
Context {Q W : Type} (handler : Q → W → W * StatusCode) (net : nat → delivery) (request : Q).
Hypothesis always_ok : ∀ w, snd (handler request w) = OK.

(** The calls [k, ..., k + d - 1] fail and the next is answered. *)
Definition answered_after (k d : nat) : Prop :=
  (∀ j, j < d → net (k + j) ≠ Answered ∧ honest (net (k + j)) = true) ∧ net (k + d) = Answered.

(** How many of them reached the handler. *)
Definition lost_answers (k d : nat) : nat := length (filter (λ x, handled x = true) (map net (seq k d))).

Lemma lost_answers_S k d :
  lost_answers k (S d) = (if handled (net k) then 1 else 0) + lost_answers (S k) d.
Proof. unfold lost_answers. cbn [seq map]. rewrite filter_cons. by destruct (handled (net k)). Qed.

Lemma iter_comm n w :
  Nat.iter n (λ w, fst (handler request w)) (fst (handler request w))
  = Nat.iter (S n) (λ w, fst (handler request w)) w.
Proof. induction n as [|n IH]; [done|]. simpl. f_equal. f_equal. exact IH. Qed.

Lemma until_ok_answered d fuel k w :
  answered_after k d → d < fuel →
  until_ok handler net fuel request w k
  = Ok (true, Nat.iter (S (lost_answers k d)) (λ w, fst (handler request w)) w, S (k + d)).
Proof.
  revert fuel k w. induction d as [|d IH]; intros fuel k w [Hf Ha] Hd; (destruct fuel as [|fuel]; [lia|]);
    cbn [until_ok].
  - rewrite Nat.add_0_r in *. rewrite Ha. cbn [remote]. pose proof (always_ok w) as Hok.
    destruct (handler request w) as [w' c] eqn:E. cbn [snd] in Hok. subst c. cbn. by rewrite E.
  - destruct (Hf 0 ltac:(lia)) as [Hn Hh]. rewrite Nat.add_0_r in Hn, Hh.
    assert (answered_after (S k) d) as Hnext.
    { split; [|by replace (S k + d) with (k + S d) by lia].
      intros j Hj. replace (S k + j) with (k + S j) by lia. apply Hf. lia. }
    rewrite lost_answers_S. destruct (net k) as [|c|c]; [done| |]; cbn [remote honest handled] in *;
      rewrite Hh, (IH fuel) by (done || lia); do 2 f_equal; try lia.
    by rewrite iter_comm.
Qed.

Lemma until_ok_never fuel k w :
  (∀ j, net (k + j) ≠ Answered ∧ honest (net (k + j)) = true) →
  until_ok handler net fuel request w k = Throw OutOfFuel.
Proof.
  revert k w. induction fuel as [|fuel IH]; intros k w Hn; [done|]. cbn [until_ok].
  destruct (Hn 0) as [H0 Hh]. rewrite Nat.add_0_r in H0, Hh.
  assert (∀ w, until_ok handler net fuel request w (S k) = Throw OutOfFuel) as Hnext.
  { intros w'. apply IH. intros j. replace (S k + j) with (k + S j) by lia. apply Hn. }
  destruct (net k) as [|c|c]; [done| |]; cbn [remote honest] in *; by rewrite Hh, Hnext.
Qed.
End Until.
End RemoteCallFacts.
