(* ===== verification/Jobs.v ===== *)
(** * Jobs  (Job/JobStatus.hpp, Job/JobBase.hpp, Job/JobSelector.hpp,
    Job/JobManager.hpp, Server/ManageToComputationContainer/Server.cpp,
    Server/ and Client/ComputationToComputationContainerForJob)

    [StatusManager] walks a job through its states and writes each to the
    database; [JobBase::run] reads the table, computes and writes the result
    between those steps; [JobSelector] picks the job of a method; [JobManager]
    gives each request one of five job ids, starts it at every party with calls
    that are repeated until they are answered OK ([RemoteCall]), and takes the id
    back when a thread of the triggering party ends.  The database and the
    computation are parameters that may raise. *)
From stdpp Require Import base list numbers sets strings relations.
From Stdlib Require Import ZArith Lia.
From S2P Require Import Prelude TransactionQueue RemoteCall.

(** An exception as [JobBase::run] and [asyncRun] tell it apart: does it derive
    from [std::exception], and was it thrown by [throw_with_trace]? *)
Record raised := mkRaised { what : exn; is_std : bool; traced : bool }.
Definition throw_with_trace (e : exn) : raised := mkRaised e true true.

Module JobStatus.

Inductive Status := UNKNOWN | PRE_JOB | READ_DB | COMPUTE | WRITE_DB | COMPLETED.

#[export] Instance Status_eq_dec : EqDecision Status.
Proof. solve_decision. Defined.

(** The values of the protobuf enum, in the order of its descriptor. *)
Definition descriptor : list (Status * Z) :=
  [(UNKNOWN, 0%Z); (PRE_JOB, 1%Z); (READ_DB, 2%Z); (COMPUTE, 3%Z); (WRITE_DB, 4%Z); (COMPLETED, 5%Z)].
Definition number (s : Status) : Z :=
  match s with
  | UNKNOWN => 0 | PRE_JOB => 1 | READ_DB => 2 | COMPUTE => 3 | WRITE_DB => 4 | COMPLETED => 5
  end.

(** [FindValueByNumber(number)->index()]. *)
Fixpoint find_index (n : Z) (vs : list (Status * Z)) (i : nat) : option nat :=
  match vs with
  | [] => None
  | (_, m) :: vs => if (m =? n)%Z then Some i else find_index n vs (S i)
  end.

(** Calls to the database, in the order they are made. *)
Inductive DbCall {R : Type} :=
  | RegisterJob (job_uuid : string) (status : Z)
  | UpdateJobStatus (job_uuid : string) (status : Z)
  | ReadTable
  | WriteComputationResult (job_uuid : string) (results : R).
Arguments DbCall : clear implicits.

Record StatusManager := mkManager { job_uuid : option string; status : Status }.

(** A job's state: its manager and the calls made so far. *)
Record St {R : Type} := mkSt { manager : StatusManager; calls : list (DbCall R) }.
Arguments St : clear implicits.
Arguments mkSt {R}.
Arguments manager {R}.
Arguments calls {R}.

(** A computation that may raise; undefined behaviour ends it with no state. *)
Definition J (R A : Type) : Type := St R → result ((raised + A) * St R).
Definition jret {R A} (a : A) : J R A := λ s, Ok (inr a, s).
Definition jraise {R A} (r : raised) : J R A := λ s, Ok (inl r, s).
Definition jbind {R A B} (m : J R A) (f : A → J R B) : J R B := λ s,
  rbind (m s) (λ '(r, s), match r with inl e => Ok (inl e, s) | inr a => f a s end).
Notation "'let$' x ':=' m 'in' k" := (jbind m (λ x, k))
  (at level 10, x binder, m at level 100, k at level 200) : qmpc_scope.
#[local] Open Scope qmpc_scope.

Section WithDb.
(** What is written as a result, and [executeQuery]: [Some] exception when the
    gateway fails. *)
Context {R : Type} (db : DbCall R → option raised).
#[local] Abbreviation J := (J R).

Definition call (c : DbCall R) : J unit := λ s,
  Ok (match db c with Some e => inl e | None => inr tt end, mkSt (manager s) (calls s ++ [c])).

(** [job_uuid.value()]. *)
Definition uuid : J string := λ s,
  match job_uuid (manager s) with
  | Some u => Ok (inr u, s)
  | None => Ok (inl (mkRaised (LogicError "bad_optional_access") true false), s)
  end.

Definition set_manager (m : StatusManager) : J unit := λ s, Ok (inr tt, mkSt m (calls s)).
Definition get_status : J Status := λ s, Ok (inr (status (manager s)), s).

Definition registerJob : J unit :=
  let$ u := uuid in let$ st := get_status in call (RegisterJob u (number st)).

(** [StatusManager()], and a job no member of which is initialised: it has made no calls. *)
Definition defaultManager : StatusManager := mkManager None UNKNOWN.
Definition unstarted : St R := mkSt defaultManager [].

(** [StatusManager(job_uuid)]. *)
Definition newManager (u : string) : J unit :=
  let$ _ := set_manager (mkManager (Some u) PRE_JOB) in registerJob.

Definition initJobID (u : string) : J unit := λ s,
  match job_uuid (manager s) with
  | Some _ => jraise (throw_with_trace (LogicError "JobStatusError: JobUUID is already initialized")) s
  | None => (let$ _ := set_manager (mkManager (Some u) PRE_JOB) in registerJob) s
  end.

Definition nextStatus : J unit := λ s,
  match find_index (number (status (manager s))) descriptor 0 with
  | None => Throw (Undefined "null EnumValueDescriptor")
  | Some i =>
      match descriptor !! S i with
      | None => jraise (throw_with_trace (OutOfRange "next status value is going to out of range")) s
      | Some (st, n) =>
          (let$ _ := set_manager (mkManager (job_uuid (manager s)) st) in
           let$ u := uuid in call (UpdateJobStatus u n)) s
      end
  end.
End WithDb.
End JobStatus.

Module JobBase.
Import JobStatus.
#[local] Open Scope qmpc_scope.
Section JobBase.
Context {V A R : Type} (db : DbCall R → option raised).
#[local] Abbreviation J := (J R).
(** The joined table the gateway answers with, the reading of a share from its
    string, the computation of the job and the strings of its result. *)
Context (table : list (list string) * list string) (to_share : string → raised + V).
Context (compute : list (list V) → list string → list (list Z) → raised + A) (toString : A → R).

Fixpoint jmap {X Y} (f : X → J Y) (l : list X) : J (list Y) :=
  match l with
  | [] => jret []
  | x :: l => let$ y := f x in let$ ys := jmap f l in jret (y :: ys)
  end.

(** [share_table[i][j] = values[i][j]], the width being that of the first row. *)
Definition cell (row : list string) (j : nat) : J V := λ s,
  match row !! j with
  | Some c => Ok (to_share c, s)
  | None => Throw (Undefined "values[i][j]")
  end.

Definition readDb : J (list (list V) * list string) :=
  let$ _ := nextStatus db in
  let$ _ := call db ReadTable in
  match fst table with
  | [] => λ _, Throw (Undefined "values[0]")
  | row0 :: _ =>
      let$ share_table := jmap (λ row, jmap (cell row) (seq 0 (length row0))) (fst table) in
      let$ _ := nextStatus db in
      jret (share_table, snd table)
  end.

Definition writeDb (values : A) : J unit :=
  let$ _ := nextStatus db in
  let results := toString values in
  let$ u := uuid in
  let$ _ := call db (WriteComputationResult u results) in
  nextStatus db.

Definition body (arg : list (list Z)) : J unit :=
  let$ t := readDb in
  match compute (fst t) (snd t) arg with
  | inl e => jraise e
  | inr result => writeDb result
  end.

(** [run]: both handlers read the trace the exception carries; an exception
    without one makes them dereference a null pointer, and one that is no
    [std::exception] passes them. *)
Definition run (src target : list Z) : J Z := λ s,
  rbind (body [src; target] s) (λ '(r, s),
  match r with
  | inr _ => Ok (inr (number (status (manager s))), s)
  | inl e =>
      if is_std e then
        if traced e then Ok (inr (number (status (manager s))), s)
        else Throw (Undefined "null get_error_info")
      else Ok (inl e, s)
  end).

(** The constructor, which constructs the [StatusManager], and [run] on the job. *)
Definition construct_and_run (job_uuid : string) (src target : list Z) : J Z :=
  let$ _ := newManager db job_uuid in run src target.
End JobBase.
End JobBase.

Module JobSelector.

Inductive Job :=
  | MeanJob | VarianceJob | SumJob | CorrelJob | LinearRegressionJob | LogisticRegressionJob
  | MeshCodeJob | SID3Job | JoinTableJob.

Definition select (method_id : Z) : option Job :=
  match method_id with
  | 1%Z => Some MeanJob
  | 2%Z => Some VarianceJob
  | 3%Z => Some SumJob
  | 4%Z => Some CorrelJob
  | 5%Z => Some LinearRegressionJob
  | 6%Z => Some LogisticRegressionJob
  | 7%Z => Some MeshCodeJob
  | 8%Z => Some SID3Job
  | 9%Z => Some JoinTableJob
  | _ => None
  end.
End JobSelector.

Module JobManager.
Section JobManager.
(** The parties in the order of their ids, and the one this manager runs at. *)
Context {Req : Type} (pts : list nat) (party_id : nat).

Definition MAX_JOB_NUM : nat := 5.
Definition max_size : nat := Z.to_nat 5000.

(** A job thread: where it runs, under which id, and whether it returns the id. *)
Record Run := mkRun { run_party : nat; run_id : nat; run_req : Req; is_job_trigger_party : bool }.

(** Where [runJobManager]'s loop is. *)
Inductive Phase :=
  | Idle                                        (** before [pollingPopJobReq] *)
  | HasReq (job_req : Req)                      (** before [pollingPopJobId] *)
  | Sending (job_req : Req) (job_id : nat) (todo : list nat).  (** in [sendJobInfo] *)

(** [running] are the live threads; [started] all that were ever started. *)
Record Manager := mkMgr {
  job_id_queue : list nat;
  job_req_queue : list Req;
  phase : Phase;
  running : list Run;
  started : list Run
}.

(** The constructor pushes the ids [1 .. MAX_JOB_NUM]. *)
Definition initial : Manager := mkMgr (seq 1 MAX_JOB_NUM) [] Idle [] [].

(** What can happen next: a request arrives at [ExecuteComputation]; the manager
    makes a step of its own; one call of [executeComputeFromSP]'s loop is made,
    with what becomes of it; the thread at a position of [running] ends, whatever
    its job returned or raised. *)
Inductive Event := Request (job_req : Req) | Step | Call (d : RemoteCall.delivery) | End_ (i : nat).

(** [asyncRun] at a party, and its handler [ExecuteComputeFromSP]. *)
Definition asyncRun (r : Run) (s : Manager) : Manager :=
  mkMgr (job_id_queue s) (job_req_queue s) (phase s) (running s ++ [r]) (started s ++ [r]).
Definition handler (r : Run) (s : Manager) : Manager * Grpc.StatusCode := (asyncRun r s, Grpc.OK).

Definition set_phase (s : Manager) (p : Phase) : Manager :=
  mkMgr (job_id_queue s) (job_req_queue s) p (running s) (started s).

(** [None]: the event has to wait, or is not possible. *)
Definition step (e : Event) (s : Manager) : option Manager :=
  match e with
  | Request r =>
      match TransactionQueue.push max_size r (job_req_queue s) with
      | Some q => Some (mkMgr (job_id_queue s) q (phase s) (running s) (started s))
      | None => None
      end
  | Step =>
      match phase s with
      | Idle =>
          match TransactionQueue.pop (job_req_queue s) with
          | Some (r, q) => Some (mkMgr (job_id_queue s) q (HasReq r) (running s) (started s))
          | None => None
          end
      | HasReq r =>
          match TransactionQueue.pop (job_id_queue s) with
          | Some (id, q) => Some (mkMgr q (job_req_queue s) (Sending r id pts) (running s) (started s))
          | None => None
          end
      | Sending r id [] => Some (mkMgr (job_id_queue s) (job_req_queue s) Idle (running s) (started s))
      | Sending _ _ (_ :: _) => None
      end
  | Call d =>
      match phase s with
      | Sending r id (pt :: todo) =>
          if RemoteCall.honest d then
            let '(s, status) := RemoteCall.remote handler d (mkRun pt id r (pt =? party_id)%nat) s in
            Some (set_phase s (Sending r id (if Grpc.ok status then todo else pt :: todo)))
          else None
      | _ => None
      end
  | End_ i =>
      match running s !! i with
      | None => None
      | Some run =>
          let rest := take i (running s) ++ drop (S i) (running s) in
          if is_job_trigger_party run
          then match TransactionQueue.push max_size (run_id run) (job_id_queue s) with
               | Some q => Some (mkMgr q (job_req_queue s) (phase s) rest (started s))
               | None => None
               end
          else Some (mkMgr (job_id_queue s) (job_req_queue s) (phase s) rest (started s))
      end
  end.

Fixpoint steps (es : list Event) (s : Manager) : option Manager :=
  match es with
  | [] => Some s
  | e :: es => match step e s with Some s => steps es s | None => None end
  end.

(** The ids that are not in the queue: the one being sent out, until its
    triggering party has answered, and those of the triggering party's threads. *)
Definition held (s : Manager) : list nat :=
  match phase s with
  | Sending _ id todo => if decide (party_id ∈ todo) then [id] else []
  | _ => []
  end.
Definition trigger_ids (runs : list Run) : list nat :=
  map run_id (filter (λ r, is_job_trigger_party r = true) runs).

(** The ids under which the triggering party started a job without the manager
    seeing the answer: the manager calls again. *)
Definition lost_id (e : Event) (s : Manager) : list nat :=
  match e, phase s with
  | Call (RemoteCall.AnswerLost _), Sending _ id (pt :: _) => if (pt =? party_id)%nat then [id] else []
  | _, _ => []
  end.
Fixpoint lost_ids (es : list Event) (s : Manager) : list nat :=
  match es with
  | [] => []
  | e :: es => lost_id e s ++ match step e s with Some s => lost_ids es s | None => [] end
  end.

(** What a party was told to start, in order. *)
Definition jobs_of (p : nat) (runs : list Run) : list (nat * Req) :=
  map (λ r, (run_id r, run_req r)) (filter (λ r, run_party r = p) runs).
End JobManager.
Arguments Manager : clear implicits.
Arguments Event : clear implicits.
Arguments Run : clear implicits.
End JobManager.

(** * Lemmas *)

Module JobManagerFacts.
Import JobManager RemoteCall.

(** The elements of a list in order, each once or more. *)
Inductive repeated {A} : list A → list A → Prop :=
  | repeated_nil : repeated [] []
  | repeated_cons x n l k : repeated l k → repeated (x :: l) (replicate (S n) x ++ k).

Lemma repeated_snoc {A} (x : A) n l k : repeated l k → repeated (l ++ [x]) (k ++ replicate (S n) x).
Proof.
  induction 1 as [|y m l k _ IH].
  - rewrite <- (app_nil_r ([] ++ replicate _ _)). apply (repeated_cons x n [] []). constructor.
  - rewrite <- app_assoc. by apply repeated_cons.
Qed.

Section Facts.
Context {Req : Type} (pts : list nat) (party_id : nat).
Hypothesis pts_nodup : NoDup pts.
Hypothesis party_in : party_id ∈ pts.

Definition ids_inv (extra : list nat) (s : Manager Req) : Prop :=
  job_id_queue s ++ held party_id s ++ trigger_ids (running s) ≡ₚ seq 1 MAX_JOB_NUM ++ extra
  ∧ (∀ r id todo, phase s = Sending r id todo → NoDup todo)
  ∧ Forall (λ r, is_job_trigger_party r = true ↔ run_party r = party_id) (running s)
  ∧ Forall (λ id, id ∈ seq 1 MAX_JOB_NUM) extra.

Lemma trigger_ids_app (l k : list (Run Req)) : trigger_ids (l ++ k) = trigger_ids l ++ trigger_ids k.
Proof. unfold trigger_ids. by rewrite filter_app, map_app. Qed.

Lemma trigger_ids_one (r : Run Req) :
  trigger_ids [r] = if is_job_trigger_party r then [run_id r] else [].
Proof. unfold trigger_ids. rewrite filter_cons, filter_nil. by destruct r as [? ? ? []]. Qed.

Lemma ids_inv_initial : ids_inv [] initial.
Proof. split_and!; [reflexivity|done|constructor|constructor]. Qed.

(** A call of the loop: what the manager sends, and to whom. *)
Lemma call_inv d (s s' : Manager Req) :
  step pts party_id (Call d) s = Some s' →
  ∃ r id pt todo, phase s = Sending r id (pt :: todo) ∧ honest d = true
    ∧ s' = set_phase (if handled d then asyncRun (mkRun pt id r (pt =? party_id)) s else s)
             (Sending r id (match d with Answered => todo | _ => pt :: todo end)).
Proof.
  cbn [step]. destruct (phase s) as [|r|r id [|pt todo]] eqn:Hph; try done.
  destruct (honest d) eqn:Hd; [|done]. intros H. exists r, id, pt, todo. split_and!; [done|done|].
  destruct d as [|c|c]; cbn in Hd, H; injection H as <-; [done| |];
    by rewrite (proj1 (negb_true_iff _) Hd).
Qed.

(** The threads and the ids after a thread has been started. *)
Lemma held_head pt id (r : Req) todo (s : Manager Req) :
  phase s = Sending r id (pt :: todo) → NoDup (pt :: todo) →
  held party_id s = (if (pt =? party_id) then [id] else [])
    ++ held party_id (set_phase s (Sending r id todo)).
Proof.
  intros Hph [Hpt _]%NoDup_cons. unfold held. rewrite Hph. cbn [phase set_phase].
  destruct (Nat.eqb_spec pt party_id) as [->|Hne].
  - rewrite decide_True by (by left). by rewrite decide_False.
  - assert (party_id ∈ pt :: todo ↔ party_id ∈ todo) as Hiff by set_solver. cbn [app].
    destruct (decide (party_id ∈ todo)); [rewrite decide_True by tauto|rewrite decide_False by tauto]; done.
Qed.

Lemma ids_inv_call extra d (s s' : Manager Req) :
  step pts party_id (Call d) s = Some s' → ids_inv extra s → ids_inv (extra ++ lost_id party_id (Call d) s) s'.
Proof.
  intros (r & id & pt & todo & Hph & Hd & ->)%call_inv (Hp & Hn & Hr & He).
  pose proof (Hn _ _ _ Hph) as Hnd. pose proof (held_head pt id r todo s Hph Hnd) as Hh.
  set (run := mkRun pt id r (pt =? party_id)).
  assert (Forall (λ r, is_job_trigger_party r = true ↔ run_party r = party_id) (running s ++ [run])) as Hr'.
  { apply Forall_app. split; [done|]. constructor; [|done]. apply Nat.eqb_eq. }
  assert (∀ l, job_id_queue s ++ l ++ trigger_ids (running s ++ [run])
    ≡ₚ (job_id_queue s ++ ((if pt =? party_id then [id] else []) ++ l) ++ trigger_ids (running s))) as Hswap.
  { intros l. rewrite trigger_ids_app, trigger_ids_one. cbn [is_job_trigger_party run_id run].
    destruct (pt =? party_id); cbn [app]; [|by rewrite app_nil_r].
    f_equiv. rewrite app_assoc, <- Permutation_cons_append. done. }
  unfold ids_inv, lost_id. rewrite Hph. destruct d as [|c|c]; cbn [handled asyncRun set_phase job_id_queue phase running].
  - rewrite app_nil_r. split_and!; [|intros ? ? ? [= <- <- <-]; by apply NoDup_cons in Hnd as []|done|done].
    etrans; [apply Hswap|]. rewrite <- Hp, Hh. done.
  - split_and!; [|by intros ? ? ? [= <- <- <-]|done|].
    + change (held party_id _) with (held party_id (set_phase s (Sending r id (pt :: todo)))).
      assert (held party_id (set_phase s (Sending r id (pt :: todo))) = held party_id s) as ->
        by (unfold held; by rewrite Hph).
      etrans; [apply Hswap|]. rewrite (app_assoc _ extra), <- Hp.
      generalize (if pt =? party_id then [id] else []). intros l. rewrite <- !app_assoc. f_equiv.
      rewrite (app_assoc (held _ _)). apply Permutation_app_comm.
    + apply Forall_app. split; [done|]. destruct (Nat.eqb_spec pt party_id) as [->|]; [|constructor].
      constructor; [|constructor]. assert (id ∈ job_id_queue s ++ held party_id s ++ trigger_ids (running s)) as Hid.
      { rewrite Hh. set_solver. }
      rewrite Hp in Hid. apply elem_of_app in Hid as [Hid|Hid]; [done|]. rewrite Forall_forall in He. by apply He.
  - rewrite app_nil_r. split_and!; [|by intros ? ? ? [= <- <- <-]|done|done].
    rewrite <- Hp. unfold held. cbn [phase]. by rewrite Hph.
Qed.

Lemma ids_inv_step extra e (s s' : Manager Req) :
  step pts party_id e s = Some s' → ids_inv extra s → ids_inv (extra ++ lost_id party_id e s) s'.
Proof.
  destruct e as [r| |d|i]; [| |apply ids_inv_call|]; intros Hs (Hp & Hn & Hr & He);
    cbn [step lost_id] in *; rewrite app_nil_r.
  - destruct (TransactionQueue.push _ _ _); [|done]. injection Hs as <-. by split_and!.
  - unfold ids_inv, held in *. destruct (phase s) as [|r|r id [|pt todo]] eqn:Hph; cbn in Hp; [| | |done].
    + destruct (TransactionQueue.pop _) as [[]|]; [|done]. injection Hs as <-. by split_and!.
    + destruct (job_id_queue s) as [|id q]; [done|]. injection Hs as <-. cbn in *.
      rewrite decide_True by done. split_and!; [|by intros ? ? ? [= <- <- <-]|done|done].
      rewrite <- Hp. symmetry. apply (Permutation_middle q).
    + injection Hs as <-. rewrite decide_False in Hp by apply not_elem_of_nil. by split_and!.
  - destruct (running s !! i) as [run|] eqn:Hi; [|done].
    pose proof (take_drop_middle _ _ _ Hi) as Hsplit.
    assert (Forall (λ r, is_job_trigger_party r = true ↔ run_party r = party_id)
      (take i (running s) ++ drop (S i) (running s))) as Hr'.
    { rewrite <- Hsplit in Hr. apply Forall_app in Hr as [H1 [_ H2]%Forall_cons]. by apply Forall_app. }
    unfold ids_inv. rewrite <- Hsplit in Hp.
    change (run :: drop (S i) (running s)) with ([run] ++ drop (S i) (running s)) in Hp.
    rewrite !trigger_ids_app, trigger_ids_one in Hp.
    destruct (is_job_trigger_party run).
    + unfold TransactionQueue.push in Hs. destruct (_ <? _)%nat; [|done]. injection Hs as <-.
      cbn [job_id_queue held phase running]. split_and!; [|done|done|done].
      etrans; [|exact Hp]. unfold held. cbn [phase]. rewrite trigger_ids_app.
      rewrite <- !app_assoc. f_equiv. cbn [app].
      rewrite <- !Permutation_middle. done.
    + injection Hs as <-. cbn [job_id_queue held phase running]. split_and!; [|done|done|done].
      etrans; [|exact Hp]. unfold held. cbn [phase app]. by rewrite trigger_ids_app.
Qed.

Lemma ids_inv_steps es extra s s' :
  steps pts party_id es s = Some s' → ids_inv extra s → ids_inv (extra ++ lost_ids pts party_id es s) s'.
Proof.
  revert extra s. induction es as [|e es IH]; intros extra s; cbn [steps lost_ids].
  - intros [= <-]. by rewrite app_nil_r.
  - destruct (step pts party_id e s) as [s1|] eqn:Hs; [|done].
    intros H1 HI. rewrite app_assoc. apply IH; [done|]. by apply ids_inv_step.
Qed.

(** Every party was started with the jobs sent out so far, in order, each at
    least once; so is the job being sent out by the parties done with. *)
Definition started_inv (s : Manager Req) : Prop := ∃ done, ∀ p, p ∈ pts →
  match phase s with
  | Sending r id todo => ∃ k m, repeated done k ∧ jobs_of p (started s) = k ++ replicate m (id, r)
      ∧ (p ∉ todo → m ≠ 0)
  | _ => repeated done (jobs_of p (started s))
  end.

Lemma jobs_of_app p (l k : list (Run Req)) : jobs_of p (l ++ k) = jobs_of p l ++ jobs_of p k.
Proof. unfold jobs_of. by rewrite filter_app, map_app. Qed.

Lemma started_inv_step e s s' :
  step pts party_id e s = Some s' → started_inv s → started_inv s'.
Proof.
  intros Hs [done Hd]. unfold started_inv. destruct e as [r| |d|i].
  - cbn [step] in Hs. destruct (TransactionQueue.push _ _ _); [|discriminate]. injection Hs as <-. by exists done.
  - cbn [step] in Hs. destruct (phase s) as [|r|r id [|pt todo]] eqn:Hph; [| | |discriminate].
    + destruct (TransactionQueue.pop _) as [[]|]; [|discriminate]. injection Hs as <-. by exists done.
    + destruct (TransactionQueue.pop _) as [[id q]|]; [|discriminate]. injection Hs as <-. exists done.
      intros p Hp. cbn [phase started]. exists (jobs_of p (started s)), 0. rewrite app_nil_r.
      split_and!; [by apply Hd|reflexivity|]. intros Hpt. by destruct Hpt.
    + injection Hs as <-. exists (done ++ [(id, r)]). intros p Hp. cbn [phase started].
      destruct (Hd p Hp) as (k & m & Hk & -> & Hm). specialize (Hm (not_elem_of_nil _)).
      destruct m as [|m]; [congruence|]. by apply repeated_snoc.
  - apply call_inv in Hs as (r & id & pt & todo & Hph & Hh & ->). rewrite Hph in Hd. exists done.
    intros p Hp. destruct (Hd p Hp) as (k & m & Hk & Hj & Hm). cbn [phase set_phase started].
    set (run := mkRun pt id r (pt =? party_id)).
    assert (jobs_of p [run] = if decide (pt = p) then [(id, r)] else []) as Hrun.
    { unfold jobs_of. rewrite filter_cons, filter_nil. cbn [run_party run]. by destruct (decide (pt = p)). }
    assert (∀ todo' : list nat, (p ∉ todo' → p ∉ pt :: todo ∨ pt = p) →
      ∃ k m, repeated done k ∧ jobs_of p (started s ++ [run]) = k ++ replicate m (id, r) ∧ (p ∉ todo' → m ≠ 0)) as Hadd.
    { intros todo' Ht. rewrite jobs_of_app, Hrun, Hj. destruct (decide (pt = p)) as [->|Hne].
      - exists k, (S m). rewrite <- app_assoc. split_and!; [done| |lia]. by rewrite <- replicate_S_end.
      - exists k, m. rewrite app_nil_r. split_and!; [done|reflexivity|]. intros Hp'.
        destruct (Ht Hp') as [Ht'|Ht']; [by apply Hm|done]. }
    destruct d as [|c|c]; cbn [handled]; [apply Hadd|apply Hadd|by exists k, m].
    + intros Ht. destruct (decide (pt = p)); [by right|left]. set_solver.
    + intros Ht. by left.
  - cbn [step] in Hs. destruct (running s !! i) as [run|]; [|discriminate].
    destruct (is_job_trigger_party run).
    + destruct (TransactionQueue.push _ _ _); [|discriminate]. injection Hs as <-. by exists done.
    + injection Hs as <-. by exists done.
Qed.

Lemma started_inv_steps es s s' :
  steps pts party_id es s = Some s' → started_inv s → started_inv s'.
Proof.
  revert s. induction es as [|e es IH]; intros s; cbn [steps]; [by intros [= <-]|].
  destruct (step pts party_id e s) as [s1|] eqn:Hs; [|done].
  intros H1 HS. apply (IH s1); [done|]. by eapply started_inv_step.
Qed.
End Facts.
End JobManagerFacts.

Module JobFacts.
Import JobStatus JobBase.

(** Reading a list that does not touch the state, and the reading of a table. *)
Fixpoint emap {X Y} (g : X → raised + Y) (l : list X) : raised + list Y :=
  match l with
  | [] => inr []
  | x :: l => match g x with
              | inl e => inl e
              | inr y => match emap g l with inl e => inl e | inr ys => inr (y :: ys) end
              end
  end.
Definition to_table {V} (to_share : string → raised + V) (rows : list (list string)) : raised + list (list V) :=
  match rows with
  | [] => inr []
  | row0 :: _ => emap (λ row, emap to_share (take (length row0) row)) rows
  end.

(** All rows are at least as long as the first, and there is one. *)
Definition wide (rows : list (list string)) : Prop :=
  match rows with [] => False | row0 :: _ => Forall (λ row, length row0 ≤ length row) rows end.

Lemma jmap_pure {R X Y} (f : X → J R Y) (g : X → raised + Y) l s :
  (∀ x, x ∈ l → f x s = Ok (g x, s)) → jmap f l s = Ok (emap g l, s).
Proof.
  induction l as [|x l IH]; intros Hf; [done|]. cbn [jmap emap]. unfold jbind at 1.
  rewrite (Hf x) by (by left). cbn [rbind]. destruct (g x) as [e|y]; [done|]. unfold jbind.
  rewrite IH by (intros z Hz; apply Hf; by right). cbn [rbind]. by destruct (emap g l).
Qed.

Lemma emap_map {X X' Y} (h : X → X') (g : X' → raised + Y) l : emap (λ x, g (h x)) l = emap g (map h l).
Proof. induction l as [|x l IH]; [done|]. cbn. by rewrite IH. Qed.

Lemma map_nth_take (row : list string) w :
  w ≤ length row → map (λ j, nth j row EmptyString) (seq 0 w) = take w row.
Proof.
  revert row. induction w as [|w IH]; intros row Hw; [done|]. destruct row as [|c row]; [simpl in Hw; lia|].
  cbn [seq map take nth]. rewrite <- (IH row) by (simpl in Hw; lia). by rewrite <- seq_shift, map_map.
Qed.

Lemma jmap_row {R V} (to_share : string → raised + V) row w (s : St R) :
  w ≤ length row → jmap (cell to_share row) (seq 0 w) s = Ok (emap to_share (take w row), s).
Proof.
  intros Hw. rewrite (jmap_pure _ (λ j, to_share (nth j row EmptyString))).
  - by rewrite (emap_map (λ j, nth j row EmptyString)), map_nth_take.
  - intros j [_ Hj]%elem_of_seq. unfold cell. destruct (lookup_lt_is_Some_2 row j) as [c Hc]; [lia|].
    by rewrite Hc, (nth_lookup_Some _ _ _ _ Hc).
Qed.

Lemma jmap_table {R V} (to_share : string → raised + V) row0 rows (s : St R) :
  wide (row0 :: rows) →
  jmap (λ row, jmap (cell to_share row) (seq 0 (length row0))) (row0 :: rows) s
  = Ok (to_table to_share (row0 :: rows), s).
Proof.
  intros Hw. apply jmap_pure. intros row Hrow. apply jmap_row.
  unfold wide in Hw. rewrite Forall_forall in Hw. by apply Hw.
Qed.

Section Facts.
Context {V A R : Type} (db : DbCall R → option raised).

(** The status updates and the results among the calls. *)
Definition updates (cs : list (DbCall R)) : list Z :=
  omap (λ c, match c with UpdateJobStatus _ n => Some n | _ => None end) cs.
Definition writes (cs : list (DbCall R)) : list (string * R) :=
  omap (λ c, match c with WriteComputationResult u r => Some (u, r) | _ => None end) cs.

Lemma updates_app l k : updates (l ++ k) = updates l ++ updates k.
Proof. apply omap_app. Qed.
Lemma writes_app l k : writes (l ++ k) = writes l ++ writes k.
Proof. apply omap_app. Qed.

(** The states of a job, by their number from [PRE_JOB] on. *)
Definition nth_status (k : nat) : Status :=
  match k with O => PRE_JOB | 1 => READ_DB | 2 => COMPUTE | 3 => WRITE_DB | _ => COMPLETED end.

(** [k] steps after [PRE_JOB]: the calls so far name the states passed, and the
    results [ws] have been written. *)
Definition passed (u : string) (k : nat) (ws : list (string * R)) (s : St R) : Prop :=
  manager s = mkManager (Some u) (nth_status k) ∧ updates (calls s) = map Z.of_nat (seq 2 k)
  ∧ writes (calls s) = ws.

Lemma nextStatus_step u k ws s :
  k < 4 → passed u k ws s →
  ∃ s', nextStatus db s
      = Ok (match db (UpdateJobStatus u (number (nth_status (S k)))) with Some e => inl e | None => inr tt end, s')
    ∧ passed u (S k) ws s'.
Proof.
  intros Hk (Hm & Hu & Hw). destruct s as [m cs]. cbn [manager calls] in *. subst m.
  assert (k = 0 ∨ k = 1 ∨ k = 2 ∨ k = 3) as Hcases by lia.
  destruct Hcases as [->|[->|[->| ->]]];
    (eexists; split; [reflexivity|]; split; [reflexivity|];
     cbn [calls]; rewrite updates_app, writes_app, Hu, Hw, app_nil_r; done).
Qed.

Lemma nextStatus_completed u ws s :
  passed u 4 ws s →
  nextStatus db s
  = Ok (inl (throw_with_trace (OutOfRange "next status value is going to out of range")), s).
Proof. intros [Hm _]. destruct s as [m cs]. cbn [manager] in Hm. by subst m. Qed.

Lemma number_nth_status k : k ≤ 4 → number (nth_status k) = (Z.of_nat k + 1)%Z.
Proof. intros Hk. assert (k = 0 ∨ k = 1 ∨ k = 2 ∨ k = 3 ∨ k = 4) as H by lia.
  by destruct H as [->|[->|[->|[->| ->]]]]. Qed.

Lemma jbind_inr {X Y} (m : J R X) (f : X → J R Y) s a s' : m s = Ok (inr a, s') → jbind m f s = f a s'.
Proof. unfold jbind. by intros ->. Qed.
Lemma jbind_inl {X Y} (m : J R X) (f : X → J R Y) s e s' : m s = Ok (inl e, s') → jbind m f s = Ok (inl e, s').
Proof. unfold jbind. by intros ->. Qed.

Lemma call_step c s :
  call db c s = Ok (match db c with Some e => inl e | None => inr tt end, mkSt (manager s) (calls s ++ [c])).
Proof. done. Qed.

Lemma passed_read u k ws s : passed u k ws s → passed u k ws (mkSt (manager s) (calls s ++ [ReadTable])).
Proof.
  intros (Hm & Hu & Hw). split_and!; [done| |]; cbn [calls];
    by rewrite ?updates_app, ?writes_app, ?Hu, ?Hw, app_nil_r.
Qed.
Lemma passed_write u k s r :
  passed u k [] s → passed u k [(u, r)] (mkSt (manager s) (calls s ++ [WriteComputationResult u r])).
Proof.
  intros (Hm & Hu & Hw). split_and!; [done| |]; cbn [calls];
    rewrite ?updates_app, ?writes_app, ?Hu, ?Hw; [by rewrite app_nil_r|done].
Qed.

Context (table : list (list string) * list string) (to_share : string → raised + V).
Context (compute : list (list V) → list string → list (list Z) → raised + A) (toString : A → R).

(** The result of the job on its table, without the gateway. *)
Definition outcome (arg : list (list Z)) : raised + A :=
  match to_table to_share (fst table) with
  | inl e => inl e
  | inr t => compute t (snd table) arg
  end.

(** Where a run of the body can end: at a state it reached, with an exception,
    or after the last one; a result is written in [WRITE_DB] and is that of the
    computation. *)
Definition ended (arg : list (list Z)) (u : string) (r : raised + unit) (s : St R) : Prop :=
  ∃ k ws, k ≤ 4 ∧ passed u k ws s
    ∧ (ws = [] ∨ 3 ≤ k ∧ ∃ res, outcome arg = inr res ∧ ws = [(u, toString res)])
    ∧ (r = inr tt → k = 4 ∧ ws ≠ []).

Lemma ended_raised arg u e k s : k ≤ 4 → passed u k [] s → ended arg u (inl e) s.
Proof. intros Hk Hp. exists k, []. split_and!; [done|done|by left|done]. Qed.

Lemma writeDb_ended arg u s res :
  passed u 2 [] s → outcome arg = inr res →
  ∃ r s', writeDb db toString res s = Ok (r, s') ∧ ended arg u r s'
    ∧ ((∀ c, db c = None) → r = inr tt).
Proof.
  intros Hp Ho. unfold writeDb.
  destruct (nextStatus_step u 2 [] s ltac:(lia) Hp) as (s1 & E1 & P1).
  destruct (db (UpdateJobStatus u _)) as [e|] eqn:D1.
  { exists (inl e), s1. rewrite (jbind_inl _ _ _ _ _ E1). split_and!; [done| |by intros Hd; rewrite Hd in D1].
    apply (ended_raised _ _ _ 3); [lia|done]. }
  rewrite (jbind_inr _ _ _ _ _ E1).
  rewrite (jbind_inr uuid _ s1 u s1) by (unfold uuid; by rewrite (proj1 P1)).
  apply passed_write with (r := toString res) in P1. set (s2 := mkSt _ _) in P1.
  pose proof (call_step (WriteComputationResult u (toString res)) s1) as E2. fold s2 in E2.
  destruct (db (WriteComputationResult u (toString res))) as [e|] eqn:D2.
  { exists (inl e), s2. rewrite (jbind_inl _ _ _ _ _ E2). split_and!; [done| |by intros Hd; rewrite Hd in D2].
    exists 3, [(u, toString res)]. split_and!; [lia|done| |done]. right. split; [lia|]. by exists res. }
  rewrite (jbind_inr _ _ _ _ _ E2).
  destruct (nextStatus_step u 3 _ s2 ltac:(lia) P1) as (s3 & E3 & P3). rewrite E3.
  eexists _, s3. split_and!; [done| |by intros ->]. exists 4, [(u, toString res)].
  split_and!; [lia|done| |done]. right. split; [lia|]. by exists res.
Qed.

Lemma body_ended u s arg :
  passed u 0 [] s → wide (fst table) →
  ∃ r s', body db table to_share compute toString arg s = Ok (r, s') ∧ ended arg u r s'
    ∧ ((∀ c, db c = None) → ∀ res, outcome arg = inr res → r = inr tt).
Proof.
  intros Hp Ht. unfold body, readDb.
  destruct (nextStatus_step u 0 [] s ltac:(lia) Hp) as (s1 & E1 & P1).
  destruct (db (UpdateJobStatus u _)) as [e|] eqn:D1.
  { exists (inl e), s1. rewrite (jbind_inl _ _ _ e s1) by (by rewrite (jbind_inl _ _ _ _ _ E1)).
    split_and!; [done| |by intros Hd; rewrite Hd in D1]. apply (ended_raised _ _ _ 1); [lia|done]. }
  pose proof (passed_read _ _ _ _ P1) as P2. set (s2 := mkSt _ _) in P2.
  pose proof (call_step ReadTable s1) as E2. fold s2 in E2.
  destruct (db ReadTable) as [e|] eqn:D2.
  { exists (inl e), s2. rewrite (jbind_inl _ _ _ e s2)
      by (rewrite (jbind_inr _ _ _ _ _ E1); by rewrite (jbind_inl _ _ _ _ _ E2)).
    split_and!; [done| |by intros Hd; rewrite Hd in D2]. apply (ended_raised _ _ _ 1); [lia|done]. }
  unfold outcome. destruct (fst table) as [|row0 rows] eqn:Et; [done|].
  pose proof (jmap_table to_share row0 rows s2 Ht) as Ej.
  destruct (to_table to_share (row0 :: rows)) as [e|t] eqn:Ett.
  { exists (inl e), s2. rewrite (jbind_inl _ _ _ e s2)
      by (rewrite (jbind_inr _ _ _ _ _ E1), (jbind_inr _ _ _ _ _ E2); by rewrite (jbind_inl _ _ _ _ _ Ej)).
    split_and!; [done| |done]. apply (ended_raised _ _ _ 1); [lia|done]. }
  destruct (nextStatus_step u 1 _ s2 ltac:(lia) P2) as (s3 & E3 & P3).
  destruct (db (UpdateJobStatus u (number (nth_status 2)))) as [e|] eqn:D3.
  { exists (inl e), s3. rewrite (jbind_inl _ _ _ e s3)
      by (rewrite (jbind_inr _ _ _ _ _ E1), (jbind_inr _ _ _ _ _ E2), (jbind_inr _ _ _ _ _ Ej);
          by rewrite (jbind_inl _ _ _ _ _ E3)).
    split_and!; [done| |by intros Hd; rewrite Hd in D3]. apply (ended_raised _ _ _ 2); [lia|done]. }
  rewrite (jbind_inr _ _ _ (t, snd table) s3)
    by (rewrite (jbind_inr _ _ _ _ _ E1), (jbind_inr _ _ _ _ _ E2), (jbind_inr _ _ _ _ _ Ej);
        by rewrite (jbind_inr _ _ _ _ _ E3)).
  cbn [fst snd]. destruct (compute t (snd table) arg) as [e|res] eqn:Ec.
  - exists (inl e), s3. split_and!; [done| |done]. by apply (ended_raised _ _ _ 2); [lia|].
  - destruct (writeDb_ended arg u s3 res P3) as (r & s' & Hb & He & Hr).
    { unfold outcome. by rewrite Et, Ett. }
    exists r, s'. split_and!; [done|done|]. intros Hd _ _. by apply Hr.
Qed.
End Facts.

Section Construct.
Context {V A R : Type} (db : DbCall R → option raised).

(** The constructor registers the job; when that raises there is no job to run. *)
Lemma newManager_calls u :
  ∃ s0, newManager db u unstarted
      = Ok (match db (RegisterJob u 1) with Some e => inl e | None => inr tt end, s0)
    ∧ calls s0 = [RegisterJob u 1].
Proof. by eexists. Qed.

Context (table : list (list string) * list string) (to_share : string → raised + V).
Context (compute : list (list V) → list string → list (list Z) → raised + A) (toString : A → R).

(** A job constructed and run: on a failed registration the constructor raises,
    otherwise the run goes on from the registered job. *)
Lemma construct_and_run_spec u src target :
  ∃ s0, newManager db u unstarted
      = Ok (match db (RegisterJob u 1) with Some e => inl e | None => inr tt end, s0)
    ∧ passed u 0 [] s0
    ∧ construct_and_run db table to_share compute toString u src target unstarted
      = match db (RegisterJob u 1) with
        | Some e => Ok (inl e, s0)
        | None => run db table to_share compute toString src target s0
        end.
Proof.
  eexists. split_and!; [reflexivity|done|]. unfold construct_and_run, jbind at 1.
  cbn. by destruct (db (RegisterJob u 1)).
Qed.
End Construct.
End JobFacts.

(** * Theorems *)

(** C36: constructing a job and running it, on a table that has a row and no row
    shorter than the first (on an empty one the code reads [values[0]], which is
    undefined): the constructor registers the job as [PRE_JOB]; when that raises,
    nothing runs.  Then the job writes the states 2, 3, ... in order, without a
    gap, up to the state it ends in; what it writes to the database as results
    is the strings of the computation's result on the table it read, once, in
    [WRITE_DB] or later, and always when the job completes, which it does when
    neither the gateway nor the computation fails.
    [run] returns the number of that state when the job completes (5, although
    the servers document 4) or fails with a traced exception; on an untraced
    [std::exception] its handlers dereference a null pointer, and anything else
    passes them. *)
Theorem job_run_reports_progress {V A R} db table (to_share : string → raised + V)
    (compute : list (list V) → list string → list (list Z) → raised + A) (toString : A → R) u src target :
  JobFacts.wide (fst table) →
  let job := JobBase.construct_and_run db table to_share compute toString u src target JobStatus.unstarted in
  let outcome := JobFacts.outcome table to_share compute [src; target] in
  match db (JobStatus.RegisterJob u 1%Z) with
  | Some e => ∃ s', job = Ok (inl e, s') ∧ JobStatus.calls s' = [JobStatus.RegisterJob u 1%Z]
  | None =>
      (∃ s0 r n s', JobStatus.newManager db u JobStatus.unstarted = Ok (inr tt, s0)
        ∧ JobStatus.calls s0 = [JobStatus.RegisterJob u 1%Z]
        ∧ JobBase.body db table to_share compute toString [src; target] s0 = Ok (r, s')
        ∧ n ≤ 4 ∧ JobFacts.updates (JobStatus.calls s') = map Z.of_nat (seq 2 n)
        ∧ (r = inr tt → n = 4 ∧ JobFacts.writes (JobStatus.calls s') ≠ [])
        ∧ (JobFacts.writes (JobStatus.calls s') = []
           ∨ 3 ≤ n ∧ ∃ res, outcome = inr res ∧ JobFacts.writes (JobStatus.calls s') = [(u, toString res)])
        ∧ match r with
          | inr _ => job = Ok (inr (Z.of_nat (S n)), s')
          | inl (mkRaised _ true true) => job = Ok (inr (Z.of_nat (S n)), s')
          | inl (mkRaised _ true false) => job = Throw (Undefined "null get_error_info")
          | inl (mkRaised w false t) => job = Ok (inl (mkRaised w false t), s')
          end)
      ∧ ((∀ c, db c = None) → ∀ res, outcome = inr res →
         ∃ s', job = Ok (inr 5%Z, s') ∧ JobFacts.writes (JobStatus.calls s') = [(u, toString res)])
  end.
Proof.
  intros Ht job outcome.
  destruct (JobFacts.construct_and_run_spec db table to_share compute toString u src target) as (s0 & E & Hp & Hjob).
  fold job in Hjob. pose proof (JobFacts.newManager_calls db u) as (s0' & E' & Hcalls).
  rewrite E in E'. injection E' as <-.
  destruct (db (JobStatus.RegisterJob u 1%Z)) as [e|] eqn:Hreg; [by exists s0|].
  destruct (JobFacts.body_ended db table to_share compute toString u s0 [src; target] Hp Ht) as (r & s' & Hb & He & Hc).
  destruct He as (k & ws & Hk & (Hm & Hu & Hw) & Hws & Hr).
  assert (JobStatus.number (JobStatus.status (JobStatus.manager s')) = Z.of_nat (S k)) as Hn.
  { rewrite Hm. cbn [JobStatus.status]. rewrite JobFacts.number_nth_status by done. lia. }
  split.
  - exists s0, r, k, s'. rewrite Hw, Hjob. split_and!; try done.
    unfold JobBase.run. rewrite Hb. cbn [rbind]. destruct r as [[w [] []]|[]]; cbn; by rewrite ?Hn.
  - intros Hdb res Hres. specialize (Hc Hdb res Hres). subst r. destruct (Hr eq_refl) as [-> Hne].
    exists s'. rewrite Hjob. unfold JobBase.run. rewrite Hb. cbn [rbind]. rewrite Hn. split; [done|]. rewrite Hw.
    destruct Hws as [?|(_ & res' & Hres' & ->)]; [done|]. unfold outcome in Hres. rewrite Hres in Hres'. by injection Hres' as <-.
Qed.

Lemma job_run_reports_progress_witness :
  let fails (c : JobStatus.DbCall (list (list nat))) :=
    match c with JobStatus.RegisterJob _ _ => Some (throw_with_trace (RuntimeError "down")) | _ => None end in
  (∃ s', JobBase.construct_and_run (λ _, None) ([["3"]], ["x"])%string (λ c, inr (String.length c)) (λ t _ _, inr t)
      (map (map (λ n, n + 1))) "job" [1%Z] [] JobStatus.unstarted = Ok (inr 5%Z, s')
    ∧ JobFacts.writes (JobStatus.calls s') = [("job"%string, [[2]])])
  ∧ ∃ s', JobBase.construct_and_run fails ([["3"]], ["x"])%string (λ c, inr (String.length c)) (λ t _ _, inr t)
      (map (map (λ n, n + 1))) "job" [1%Z] [] JobStatus.unstarted
      = Ok (inl (throw_with_trace (RuntimeError "down")), s')
    ∧ JobStatus.calls s' = [JobStatus.RegisterJob "job" 1%Z].
Proof.
  intros fails.
  assert (JobFacts.wide [["3"%string]]) as Hw by by repeat constructor.
  split.
  - exact (proj2 (job_run_reports_progress (λ _, None) ([["3"]], ["x"])%string (λ c, inr (String.length c))
      (λ t _ _, inr t) (map (map (λ n, n + 1))) "job"%string [1%Z] [] Hw) (λ _, eq_refl) [[1]] eq_refl).
  - exact (job_run_reports_progress fails ([["3"]], ["x"])%string (λ c, inr (String.length c))
      (λ t _ _, inr t) (map (map (λ n, n + 1))) "job"%string [1%Z] [] Hw).
Defined.

(** C20: in every interleaving of requests, dispatch, calls that are answered, lost
    or not delivered, and ends of job threads: the ids in the queue, the one the
    dispatcher holds and those of the live threads of the triggering party are
    together the ids 1 to 5 and, once more for every start whose answer the
    triggering party's manager did not see (the call is repeated, and the job
    runs twice under the id), that id.  So as long as no such answer is lost,
    and only so long, they are all different; then no two live threads of the
    triggering party share a job id and there are at most five. *)
Theorem job_ids_exclusive {Req} pts party_id es (s : JobManager.Manager Req) :
  NoDup pts → party_id ∈ pts → JobManager.steps pts party_id es JobManager.initial = Some s →
  let live := map JobManager.run_id (filter (λ r, JobManager.run_party r = party_id) (JobManager.running s)) in
  let ids := JobManager.job_id_queue s ++ JobManager.held party_id s ++ live in
  let lost := JobManager.lost_ids pts party_id es JobManager.initial in
  ids ≡ₚ [1; 2; 3; 4; 5] ++ lost
  ∧ (NoDup ids ↔ lost = [])
  ∧ (lost = [] → NoDup live ∧ length live ≤ JobManager.MAX_JOB_NUM).
Proof.
  intros Hnd Hin Hs live ids lost.
  destruct (JobManagerFacts.ids_inv_steps pts party_id Hnd Hin es [] _ _ Hs
    (JobManagerFacts.ids_inv_initial party_id)) as (Hp & _ & Hr & He). fold lost in Hp, He. cbn [app] in Hp, He.
  assert (live = JobManager.trigger_ids (JobManager.running s)) as Hlive.
  { unfold live, JobManager.trigger_ids. f_equal. clear -Hr.
    induction Hr as [|r l Hr _ IH]; [done|]. rewrite !filter_cons, IH.
    destruct (decide (JobManager.run_party r = party_id)), (decide (JobManager.is_job_trigger_party r = true));
      try done; tauto. }
  rewrite <- Hlive in Hp. fold ids in Hp.
  assert (NoDup ids ↔ lost = []) as Hiff.
  { rewrite Hp. split.
    - intros (_ & Hd & _)%NoDup_app. destruct lost as [|id lost']; [done|]. apply Forall_cons in He as [Hid _].
      destruct (Hd id Hid). by left.
    - intros ->. rewrite app_nil_r. apply NoDup_seq. }
  split_and!; [exact Hp|exact Hiff|]. intros Hl. pose proof (proj2 Hiff Hl) as (_ & _ & (_ & _ & Hn)%NoDup_app)%NoDup_app.
  split; [exact Hn|]. rewrite Hl in Hp. apply Permutation_length in Hp. unfold ids in Hp.
  rewrite !length_app, length_seq in Hp. clearbody live. change (length (@nil nat)) with 0 in Hp. lia.
Qed.

(** Two requests, the first one started twice at party 2 because an answer was
    lost there, and once at party 1 after a call that did not arrive. *)
Lemma job_ids_exclusive_witness :
  let es := [JobManager.Request 70; JobManager.Request 80; JobManager.Step; JobManager.Step;
    JobManager.Call (RemoteCall.NotDelivered Grpc.UNAVAILABLE); JobManager.Call RemoteCall.Answered;
    JobManager.Call (RemoteCall.AnswerLost Grpc.UNAVAILABLE); JobManager.Call RemoteCall.Answered;
    JobManager.Step; JobManager.Step; JobManager.Step; JobManager.Call RemoteCall.Answered] in
  ∃ s, JobManager.steps [1; 2] 1 es JobManager.initial = Some s
    ∧ map (λ r, (JobManager.run_party r, JobManager.run_id r)) (JobManager.running s) = [(1, 1); (2, 1); (2, 1); (1, 2)]
    ∧ [3; 4; 5] ++ [] ++ [1; 2] ≡ₚ [1; 2; 3; 4; 5] ++ []
    ∧ (NoDup ([3; 4; 5] ++ [] ++ [1; 2]) ↔ JobManager.lost_ids [1; 2] 1 es JobManager.initial = [])
    ∧ NoDup [1; 2].
Proof.
  intros es. eexists. split; [vm_compute; reflexivity|]. split; [reflexivity|].
  destruct (@job_ids_exclusive nat [1; 2] 1 es _ (NoDup_seq 1 2) ltac:(by left) eq_refl) as (H1 & H2 & H3).
  split_and!; [exact H1|exact H2|exact (proj1 (H3 eq_refl))].
Defined.

(** A lost answer makes an id circulate twice: the first job is started twice at
    the triggering party, both threads give the id 1 back, and later two
    different requests run there under it at the same time. *)
Theorem lost_answer_duplicates_id :
  ∃ es (s : JobManager.Manager nat), JobManager.steps [1] 1 es JobManager.initial = Some s
    ∧ map (λ r, (JobManager.run_id r, JobManager.run_req r)) (JobManager.running s)
      = [(2, 100); (3, 200); (4, 300); (5, 400); (1, 500); (1, 600)].
Proof.
  exists ([JobManager.Request 70; JobManager.Step; JobManager.Step;
           JobManager.Call (RemoteCall.AnswerLost Grpc.UNAVAILABLE); JobManager.Call RemoteCall.Answered;
           JobManager.Step; JobManager.End_ 0; JobManager.End_ 0]
          ++ concat (map (λ r, [JobManager.Request r; JobManager.Step; JobManager.Step;
                                JobManager.Call RemoteCall.Answered; JobManager.Step]) [100; 200; 300; 400; 500; 600])).
  eexists. split; vm_compute; reflexivity.
Qed.

(** All parties are started with the same jobs under the same ids in the same
    order: at any time there is a common list such that each party has been
    started with its jobs in order, each once or more (the calls are repeated),
    or with these and the one job that is being sent out. *)
Theorem jobs_in_same_order {Req} pts party_id es (s : JobManager.Manager Req) :
  NoDup pts → party_id ∈ pts → JobManager.steps pts party_id es JobManager.initial = Some s →
  ∃ common current, length current ≤ 1 ∧ ∀ p, p ∈ pts →
    JobManagerFacts.repeated common (JobManager.jobs_of p (JobManager.started s))
    ∨ JobManagerFacts.repeated (common ++ current) (JobManager.jobs_of p (JobManager.started s)).
Proof.
  intros Hnd Hin Hs.
  destruct (JobManagerFacts.started_inv_steps pts party_id Hnd Hin es _ _ Hs) as [common Hc].
  { exists []. intros p Hp. constructor. }
  exists common. destruct (JobManager.phase s) as [|r|r id todo].
  - exists []. split; [simpl; lia|]. intros p Hp. left. by apply Hc.
  - exists []. split; [simpl; lia|]. intros p Hp. left. by apply Hc.
  - exists [(id, r)]. split; [done|]. intros p Hp. destruct (Hc p Hp) as (k & m & Hk & -> & _).
    destruct m as [|m]; [left; by rewrite app_nil_r|right]. by apply JobManagerFacts.repeated_snoc.
Qed.

Lemma jobs_in_same_order_witness :
  ∃ common current : list (nat * nat), length current ≤ 1 ∧ ∀ p, p ∈ [1; 2] →
    JobManagerFacts.repeated common (JobManager.jobs_of p [JobManager.mkRun 1 1 70 true])
    ∨ JobManagerFacts.repeated (common ++ current) (JobManager.jobs_of p [JobManager.mkRun 1 1 70 true]).
Proof.
  refine (@jobs_in_same_order nat [1; 2] 1
    [JobManager.Request 70; JobManager.Step; JobManager.Step; JobManager.Call RemoteCall.Answered]
    (JobManager.mkMgr [2; 3; 4; 5] [] (JobManager.Sending 70 1 [2]) [JobManager.mkRun 1 1 70 true]
       [JobManager.mkRun 1 1 70 true]) _ _ eq_refl).
  - apply (NoDup_seq 1 2).
  - by left.
Defined.

(** The exclusiveness does not extend to the other parties: the id goes back
    when the triggering party's own thread ends, so a run exists (six requests,
    every call answered, the triggering party ahead of party 2) after which
    party 2 has two live threads with job id 1, whose shares have the same
    addresses. *)
Theorem job_id_reused_while_running :
  ∃ es (s : JobManager.Manager nat), JobManager.steps [1; 2] 1 es JobManager.initial = Some s
    ∧ map (λ r, (JobManager.run_id r, JobManager.run_req r))
        (filter (λ r, JobManager.run_party r = 2) (JobManager.running s))
      = [(1, 100); (2, 200); (3, 300); (4, 400); (5, 500); (1, 600)].
Proof.
  set (job := λ r : nat, [JobManager.Request r; JobManager.Step; JobManager.Step; JobManager.Call RemoteCall.Answered;
                    JobManager.Call RemoteCall.Answered; JobManager.Step]).
  exists (concat (map job [100; 200; 300; 400; 500]) ++ JobManager.End_ 0 :: job 600).
  eexists. split; vm_compute; reflexivity.
Qed.
