(* ===== verification/Clients.v ===== *)
(** * The remote calls of a computation container
    (Client/ComputationToBts/Client.cpp,
    Client/ComputationToComputationContainerForJob/Client.cpp with its server,
    Client/ComputationToComputationContainer/Client.cpp with its server)

    Every client repeats a call until it is answered OK ([RemoteCall]); only the
    client of the triple service gives up, on a status that it does not take for
    a passing one.  The network is a parameter: what became of the [k]-th call.
    [Bts] refines the supply of triples of [TripleHandler.v]; [ForJob] starts a
    job at a party at least once; [Peer] sends one share. *)
From stdpp Require Import base list numbers sets strings gmap.
From Stdlib Require Import ZArith Lia.
From S2P Require Import Prelude Field FixedPoint TripleHandler Share Mailbox RemoteCall Jobs.
#[local] Open Scope qmpc_scope.

(** ** The client of the triple service *)
Module Bts.
Import Grpc.

Record GetTriplesRequest := mkRequest { job_id : Z; amount : Z }.
Abbreviation Triple := (string * string * string)%type.

(** [std::to_string] of the three [int64] of an answer. *)
Definition triple_strings (triple : Z * Z * Z) : Triple :=
  (TripleHandler.to_string triple.1.1, TripleHandler.to_string triple.1.2, TripleHandler.to_string triple.2).

Definition retried (error_code : StatusCode) : bool :=
  bool_decide (error_code = DEADLINE_EXCEEDED) || bool_decide (error_code = UNAVAILABLE)
  || bool_decide (error_code = RESOURCE_EXHAUSTED).

Section Client.
(** The status and the triples of the [k]-th call of the process. *)
Context (GetTriples : nat → GetTriplesRequest → StatusCode * list (Z * Z * Z)).

Fixpoint readTriples_loop (fuel : nat) (request : GetTriplesRequest) (calls : nat) :
    result (list Triple * nat) :=
  match fuel with
  | O => Throw OutOfFuel
  | S fuel =>
      let '(status, response) := GetTriples calls request in
      if ok status then Ok (map triple_strings response, S calls)
      else if retried status then readTriples_loop fuel request (S calls)
      else Throw (RuntimeError "リカバリー不能なエラーが発生")
  end.
Definition readTriples (fuel : nat) (job_id amount : Z) (calls : nat) : result (list Triple * nat) :=
  readTriples_loop fuel (mkRequest job_id amount) calls.

(** [convertStr2Triple] on the strings it gets. *)
Definition convertStr2Triple_pf (n_parties : nat) (buf : Triple) : result (Z * Z * Z) :=
  let! a := PrimeField.make 1 in
  let! b := PrimeField.make 1 in
  let! c := PrimeField.make (Z.of_nat n_parties) in Ok (a, b, c).
Definition convertStr2Triple_fp `{DecFloat} (buf : Triple) : result (Z * Z * Z) :=
  let! a := FixedPoint.of_string buf.1.1 in
  let! b := FixedPoint.of_string buf.1.2 in
  let! c := FixedPoint.of_string buf.2 in Ok (a, b, c).

(** [takeOutTriple] and [getTriple] of TripleHandler.hpp with their calls. *)
Context {T : Type} (fuel : nat) (threshold : nat) (convert : Triple → result T) (thread_job_id : Z).

Record state := mkState { queue : list T; calls : nat }.

Definition takeOutTriple (s : state) : result (T * state) :=
  let! s := if (length (queue s) <? threshold)%nat
            then let! '(triples, k) := readTriples fuel thread_job_id (Z.of_nat threshold) (calls s) in
                 let! ts := traverse convert triples in
                 Ok (mkState (queue s ++ ts) k)
            else Ok s in
  match queue s with
  | [] => Throw (Undefined "front of empty queue")
  | t :: q => Ok (t, mkState q (calls s))
  end.

Fixpoint getTriple (needCount : nat) (s : state) : result (list T * state) :=
  match needCount with
  | O => Ok ([], s)
  | S k => let! '(t, s) := takeOutTriple s in
           let! '(ts, s) := getTriple k s in Ok (t :: ts, s)
  end.
End Client.
End Bts.

(** ** Starting a job at a party *)
Module ForJob.
Import Grpc RemoteCall.

(** The messages of the two services. *)
Record JoinOrder := mkJoinOrder { dataIds : list string; join : list Z; index : list Z }.
Record Input := mkInput { src : list Z; target : list Z }.
Record ExecuteComputationRequest := mkExec {
  method_id : Z; job_uuid : string; table : JoinOrder; arg : Input }.
Record ExecuteComputeFromSPRequest := mkFromSP {
  exec_request : ExecuteComputationRequest; job_id : Z; is_job_trigger_party : bool }.

(** A message as it is constructed, and the repeated fields' [add_]. *)
Definition empty_exec : ExecuteComputationRequest := mkExec 0 "" (mkJoinOrder [] [] []) (mkInput [] []).
Definition add_dataids (t : JoinOrder) (x : string) := mkJoinOrder (dataIds t ++ [x]) (join t) (index t).
Definition add_join (t : JoinOrder) (x : Z) := mkJoinOrder (dataIds t) (join t ++ [x]) (index t).
Definition add_index (t : JoinOrder) (x : Z) := mkJoinOrder (dataIds t) (join t) (index t ++ [x]).
Definition add_src (a : Input) (x : Z) := mkInput (src a ++ [x]) (target a).
Definition add_target (a : Input) (x : Z) := mkInput (src a) (target a ++ [x]).

Definition convertExecuteComputationRequest (r : ExecuteComputationRequest) : ExecuteComputeFromSPRequest :=
  let mc_request_table := table empty_exec in
  let mc_request_table := fold_left add_dataids (dataIds (table r)) mc_request_table in
  let mc_request_table := fold_left add_join (join (table r)) mc_request_table in
  let mc_request_table := fold_left add_index (index (table r)) mc_request_table in
  let mc_request_arg := arg empty_exec in
  let mc_request_arg := fold_left add_src (src (arg r)) mc_request_arg in
  let mc_request_arg := fold_left add_target (target (arg r)) mc_request_arg in
  mkFromSP (mkExec (method_id r) (job_uuid r) mc_request_table mc_request_arg) 0 false.

(** [JobParameter] and the thread [asyncRun] starts with it. *)
Record JobParameter := mkParam { getRequest : ExecuteComputationRequest; getJobId : Z }.
Definition Started := (JobParameter * bool)%type.

(** The handler of a party: [started] are the threads it has started so far. *)
Definition ExecuteComputeFromSP (request : ExecuteComputeFromSPRequest) (started : list Started) :
    list Started * StatusCode :=
  (started ++ [(mkParam (exec_request request) (job_id request), is_job_trigger_party request)], OK).

Definition executeComputeFromSP (net : nat → delivery) (fuel : nat) (r : ExecuteComputationRequest)
    (job_id : Z) (is_job_trigger_party : bool) (started : list Started) (calls : nat) :
    result (bool * list Started * nat) :=
  let request := convertExecuteComputationRequest r in
  let request := mkFromSP (exec_request request) job_id is_job_trigger_party in
  until_ok ExecuteComputeFromSP net fuel request started calls.

(** [JobManager::sendJobInfo]: the loop over the parties.  [servers] has what
    each party has started and the calls made to it. *)
Definition Servers := nat → list Started * nat.
Definition set_server (s : Servers) (pt : nat) (x : list Started * nat) : Servers :=
  λ p, if (p =? pt)%nat then x else s p.

Fixpoint sendJobInfo_loop (nets : nat → nat → delivery) (fuel : nat) (party_id : nat)
    (job_req : ExecuteComputationRequest) (job_id : Z) (pts : list nat) (s : Servers) : result Servers :=
  match pts with
  | [] => Ok s
  | pt :: pts =>
      let! '(_, started, calls) := executeComputeFromSP (nets pt) fuel job_req job_id
        (pt =? party_id)%nat (fst (s pt)) (snd (s pt)) in
      sendJobInfo_loop nets fuel party_id job_req job_id pts (set_server s pt (started, calls))
  end.
Definition sendJobInfo (nets : nat → nat → delivery) (fuel n_parties party_id : nat)
    (job_req : ExecuteComputationRequest) (job_id : Z) (s : Servers) : result Servers :=
  sendJobInfo_loop nets fuel party_id job_req job_id (seq 1 n_parties) s.
End ForJob.

(** ** Sending one share to another container *)
Module Peer.
Import Grpc RemoteCall Address Message Server.

(** The constructor of the server and [getClient]. *)
Definition make_clients {U : Type} (ip_addr_map : nat → U) (n_parties party_id : nat) : gmap nat U :=
  fold_left (λ ccClients pt_id,
      if negb (pt_id =? party_id)%nat then <[pt_id := ip_addr_map pt_id]> ccClients else ccClients)
    (seq 1 n_parties) ∅.
Definition getClient {U : Type} (ccClients : gmap nat U) (pt_id : nat) : result U :=
  match ccClients !! pt_id with
  | None => Throw (RuntimeError "Client non-existant")
  | Some c => Ok c
  end.

Definition handler (m : Shares) (shares : mailbox) : mailbox * StatusCode := (ExchangeShare m shares, OK).

Definition exchangeShare (net : nat → delivery) (fuel : nat) (value : string) (a : AddressId) (party_id : Z)
    (shares : mailbox) (calls : nat) : result (bool * mailbox * nat) :=
  until_ok handler net fuel (makeShare value a party_id) shares calls.
End Peer.

(** * Lemmas *)

Module BtsFacts.
Import Grpc Bts.

Lemma retried_not_ok c : retried c = true → ok c = false.
Proof. by destruct c. Qed.

Section Facts.
Context (GetTriples : nat → GetTriplesRequest → StatusCode * list (Z * Z * Z)) (request : GetTriplesRequest).
Abbreviation status k := (fst (GetTriples k request)).
Abbreviation answer k := (snd (GetTriples k request)).

(** The [d] calls from [k] on fail in a way that is repeated. *)
Definition passing (k d : nat) : Prop := ∀ j, j < d → retried (status (k + j)) = true.

Lemma loop_skip d f k :
  passing k d → readTriples_loop GetTriples (d + f) request k = readTriples_loop GetTriples f request (k + d).
Proof.
  revert k. induction d as [|d IH]; intros k Hp; [by rewrite Nat.add_0_r|].
  cbn [Nat.add readTriples_loop]. pose proof (Hp 0 ltac:(lia)) as H0. rewrite Nat.add_0_r in H0.
  destruct (GetTriples k request) as [c l]. cbn [fst] in H0. rewrite (retried_not_ok _ H0), H0.
  rewrite IH; [f_equal; lia|]. intros j Hj. replace (S k + j) with (k + S j) by lia. apply Hp. lia.
Qed.

Lemma loop_out d f k :
  passing k d → f ≤ d → readTriples_loop GetTriples f request k = Throw OutOfFuel.
Proof.
  intros Hp Hf. replace f with (f + 0) by lia. rewrite loop_skip; [done|]. intros j Hj. apply Hp. lia.
Qed.

Lemma loop_end d f k :
  passing k d → retried (status (k + d)) = false → d < f →
  readTriples_loop GetTriples f request k =
    if ok (status (k + d)) then Ok (map triple_strings (answer (k + d)), S (k + d))
    else Throw (RuntimeError "リカバリー不能なエラーが発生").
Proof.
  intros Hp Hr Hf. replace f with (d + S (f - d - 1)) by lia. rewrite loop_skip by done.
  cbn [readTriples_loop]. destruct (GetTriples (k + d) request) as [c l]. cbn [fst snd] in *. by rewrite Hr.
Qed.

(** Within [fuel] calls from any point on the service answers OK, after
    failures that are repeated only. *)
Definition steady (fuel : nat) : Prop := ∀ k, ∃ d, d < fuel ∧ passing k d ∧ ok (status (k + d)) = true.

Fixpoint first_ok (fuel k : nat) : nat :=
  match fuel with O => k | S fuel => if ok (status k) then k else first_ok fuel (S k) end.

(** The call the [i]-th read starts with, and the triples it gets. *)
Fixpoint starts (fuel i : nat) : nat := match i with O => 0 | S i => S (first_ok fuel (starts fuel i)) end.
Definition resp (fuel i : nat) : list (Z * Z * Z) := answer (first_ok fuel (starts fuel i)).

Lemma first_ok_skip fuel d k :
  d < fuel → passing k d → ok (status (k + d)) = true → first_ok fuel k = k + d.
Proof.
  revert d k. induction fuel as [|fuel IH]; intros d k Hd Hp Hok; [lia|]. cbn [first_ok].
  destruct d as [|d]; [by rewrite Nat.add_0_r in *; rewrite Hok|].
  pose proof (Hp 0 ltac:(lia)) as H0. rewrite Nat.add_0_r in H0. rewrite (retried_not_ok _ H0).
  rewrite (IH d); [lia|lia| |by replace (S k + d) with (k + S d) by lia].
  intros j Hj. replace (S k + j) with (k + S j) by lia. apply Hp. lia.
Qed.

Lemma read_steady fuel i :
  steady fuel →
  readTriples_loop GetTriples fuel request (starts fuel i)
  = Ok (map triple_strings (resp fuel i), starts fuel (S i)).
Proof.
  intros Hs. destruct (Hs (starts fuel i)) as (d & Hd & Hp & Hok).
  assert (retried (status (starts fuel i + d)) = false) as Hr.
  { destruct (retried _) eqn:E; [|done]. apply retried_not_ok in E. congruence. }
  rewrite (loop_end d) by done. rewrite Hok. unfold resp. cbn [starts].
  by rewrite (first_ok_skip fuel d) by done.
Qed.
End Facts.

Section Refine.
Context (GetTriples : nat → GetTriplesRequest → StatusCode * list (Z * Z * Z)).
Context {T : Type} (fuel threshold : nat) (convert : Triple → result T) (job : Z).
Context (conv : Z * Z * Z → result T).
Abbreviation request := (mkRequest job (Z.of_nat threshold)).
Hypothesis convert_strings : ∀ b, convert (triple_strings b) = conv b.
Hypothesis Hsteady : steady GetTriples request fuel.

(** The state of the queue and the number of calls made for it. *)
Definition lower (s : @TripleHandler.state T) : @Bts.state T :=
  mkState (TripleHandler.queue s) (starts GetTriples request fuel (TripleHandler.requests s)).

Lemma traverse_strings l : traverse convert (map triple_strings l) = traverse conv l.
Proof. induction l as [|b l IH]; [done|]. cbn [map traverse]. by rewrite convert_strings, IH. Qed.

Lemma takeOut_refines s :
  takeOutTriple GetTriples fuel threshold convert job (lower s)
  = rmap (λ '(t, s), (t, lower s))
      (TripleHandler.takeOutTriple threshold conv (resp GetTriples request fuel) s).
Proof.
  unfold takeOutTriple, TripleHandler.takeOutTriple. destruct s as [q r]. cbn [lower queue calls TripleHandler.queue TripleHandler.requests].
  unfold lower. cbn [TripleHandler.queue TripleHandler.requests queue calls].
  destruct (length q <? threshold).
  - unfold readTriples. rewrite read_steady by done. cbn [rbind]. rewrite traverse_strings.
    destruct (traverse conv _) as [ts|e]; cbn; [|done]. by destruct (q ++ ts).
  - cbn. by destruct q.
Qed.

Lemma getTriple_refines k s :
  getTriple GetTriples fuel threshold convert job k (lower s)
  = rmap (λ '(ts, s), (ts, lower s))
      (TripleHandler.getTriple threshold conv (resp GetTriples request fuel) k s).
Proof.
  revert s. induction k as [|k IH]; intros s; [done|]. cbn [getTriple TripleHandler.getTriple].
  rewrite takeOut_refines. destruct (TripleHandler.takeOutTriple _ _ _ s) as [[t s1]|e]; cbn; [|done].
  rewrite IH. by destruct (TripleHandler.getTriple _ _ _ k s1) as [[ts s2]|e].
Qed.
End Refine.
End BtsFacts.

Module ForJobFacts.
Import Grpc RemoteCall RemoteCallFacts ForJob.

(** Copying a repeated field one element at a time appends the list. *)
Lemma copy_field {A M} (add : M → A → M) (extend : M → list A → M) (l : list A) (m : M) :
  (∀ m, extend m [] = m) → (∀ m x l, extend (add m x) l = extend m (x :: l)) →
  fold_left add l m = extend m l.
Proof.
  intros H0 H1. revert m. induction l as [|x l IH]; intros m; cbn [fold_left]; [by rewrite H0|].
  by rewrite IH, H1.
Qed.

Lemma convert_copies r : convertExecuteComputationRequest r = mkFromSP r 0 false.
Proof.
  destruct r as [m u [d j i] [s t]]. unfold convertExecuteComputationRequest, empty_exec.
  cbn [method_id job_uuid table arg dataIds join index src target].
  rewrite (copy_field add_dataids (λ t l, mkJoinOrder (dataIds t ++ l) (join t) (index t))),
    (copy_field add_join (λ t l, mkJoinOrder (dataIds t) (join t ++ l) (index t))),
    (copy_field add_index (λ t l, mkJoinOrder (dataIds t) (join t) (index t ++ l))),
    (copy_field add_src (λ a l, mkInput (src a ++ l) (target a))),
    (copy_field add_target (λ a l, mkInput (src a) (target a ++ l)));
    try (intros []; cbn; by rewrite ?app_nil_r); try (intros [] x l; cbn; by rewrite <- app_assoc).
  done.
Qed.

Lemma iter_append {A} (l : list A) (x : A) n : Nat.iter n (λ l, l ++ [x]) l = l ++ replicate n x.
Proof.
  induction n as [|n IH]; [by rewrite app_nil_r|]. rewrite Nat.iter_succ, IH.
  by rewrite replicate_S_end, app_assoc.
Qed.

Definition entry (r : ExecuteComputationRequest) (id : Z) (trigger : bool) : Started :=
  (mkParam r id, trigger).

Lemma executeComputeFromSP_answered net d fuel r id trigger started k :
  answered_after net k d → d < fuel →
  executeComputeFromSP net fuel r id trigger started k
  = Ok (true, started ++ replicate (S (lost_answers net k d)) (entry r id trigger), S (k + d)).
Proof.
  intros Ha Hd. unfold executeComputeFromSP. rewrite convert_copies. cbn [exec_request].
  rewrite (until_ok_answered ExecuteComputeFromSP net _ (λ _, eq_refl) d) by done.
  cbn [ExecuteComputeFromSP fst exec_request job_id is_job_trigger_party].
  by rewrite iter_append.
Qed.

Lemma set_server_eq s p x : set_server s p x p = x.
Proof. unfold set_server. by rewrite Nat.eqb_refl. Qed.
Lemma set_server_ne s p q x : q ≠ p → set_server s p x q = s q.
Proof. intros Hne. unfold set_server. by apply Nat.eqb_neq in Hne as ->. Qed.

Lemma sendJobInfo_loop_ok nets fuel me r id pts (d : nat → nat) s :
  NoDup pts → (∀ p, p ∈ pts → answered_after (nets p) (snd (s p)) (d p) ∧ d p < fuel) →
  ∃ s', sendJobInfo_loop nets fuel me r id pts s = Ok s' ∧ ∀ p,
    s' p = if decide (p ∈ pts)
           then (fst (s p) ++ replicate (S (lost_answers (nets p) (snd (s p)) (d p))) (entry r id (p =? me)),
                 S (snd (s p) + d p))
           else s p.
Proof.
  revert s. induction pts as [|pt pts IH]; intros s Hnd Ha; cbn [sendJobInfo_loop]; [by exists s|].
  apply NoDup_cons in Hnd as [Hpt Hnd]. destruct (Ha pt ltac:(by left)) as [Hpa Hpd].
  rewrite (executeComputeFromSP_answered _ (d pt)) by done. cbn [rbind].
  set (x := (_, _)). destruct (IH (set_server s pt x) Hnd) as (s' & -> & Hs').
  { intros p Hp. rewrite set_server_ne by (by intros ->). apply Ha. by right. }
  exists s'. split; [done|]. intros p. rewrite Hs'. destruct (decide (p = pt)) as [->|Hne].
  - rewrite decide_False by done. rewrite decide_True by (by left). by rewrite set_server_eq.
  - rewrite set_server_ne by done.
    assert (p ∈ pt :: pts ↔ p ∈ pts) as Hiff by set_solver.
    destruct (decide (p ∈ pts)); [rewrite decide_True by tauto|rewrite decide_False by tauto]; done.
Qed.
End ForJobFacts.

(** ** One step of the manager *)
Module SendFacts.
Import RemoteCall RemoteCallFacts ForJob ForJobFacts.
Section Facts.
Context (pts : list nat) (party_id : nat).
Abbreviation Mgr := (JobManager.Manager ExecuteComputationRequest).

(** What the threads of a party in the manager's model stand for. *)
Definition started_at (p : nat) (s : Mgr) : list Started :=
  map (λ x, entry (JobManager.run_req x) (Z.of_nat (JobManager.run_id x)) (JobManager.is_job_trigger_party x))
    (filter (λ x, JobManager.run_party x = p) (JobManager.started s)).

(** The calls to a party up to the one that is answered, as events of the manager. *)
Definition calls_to (net : nat → delivery) (k d : nat) : list (JobManager.Event ExecuteComputationRequest) :=
  map (λ j, JobManager.Call (net (k + j))) (seq 0 (S d)).

Lemma steps_app es1 es2 (s : Mgr) :
  JobManager.steps pts party_id (es1 ++ es2) s
  = match JobManager.steps pts party_id es1 s with Some s => JobManager.steps pts party_id es2 s | None => None end.
Proof.
  revert s. induction es1 as [|e es1 IH]; intros s; [done|]. cbn [app JobManager.steps].
  by destruct (JobManager.step pts party_id e s).
Qed.

Lemma calls_to_S net k d : calls_to net k (S d) = JobManager.Call (net k) :: calls_to net (S k) d.
Proof.
  unfold calls_to. change (seq 0 (S (S d))) with (0 :: seq 1 (S d)). cbn [map]. rewrite Nat.add_0_r. f_equal.
  rewrite <- (seq_shift (S d) 0), map_map. apply map_ext. intros j. do 2 f_equal. lia.
Qed.

Lemma started_at_run p x (s : Mgr) ph :
  started_at p (JobManager.set_phase (JobManager.asyncRun x s) ph)
  = started_at p s ++ (if decide (JobManager.run_party x = p)
                       then [entry (JobManager.run_req x) (Z.of_nat (JobManager.run_id x)) (JobManager.is_job_trigger_party x)]
                       else []).
Proof.
  unfold started_at. cbn [JobManager.started JobManager.asyncRun JobManager.set_phase]. rewrite filter_app, map_app. f_equal.
  rewrite filter_cons, filter_nil. by destruct (decide _).
Qed.

(** One party: the thread is started once and once more for every lost answer. *)
Lemma calling_steps net r id pt todo d k s :
  JobManager.phase s = JobManager.Sending r id (pt :: todo) → answered_after net k d →
  ∃ s', JobManager.steps pts party_id (calls_to net k d) s = Some s'
    ∧ JobManager.phase s' = JobManager.Sending r id todo
    ∧ ∀ p, started_at p s' = started_at p s
        ++ (if decide (pt = p) then replicate (S (lost_answers net k d)) (entry r (Z.of_nat id) (p =? party_id)) else []).
Proof.
  set (x := JobManager.mkRun pt id r (pt =? party_id)).
  revert k s. induction d as [|d IH]; intros k s Hph [Hf Ha].
  - rewrite Nat.add_0_r in Ha. unfold calls_to. cbn [seq map JobManager.steps JobManager.step].
    rewrite Nat.add_0_r, Hph, Ha. exists (JobManager.set_phase (JobManager.asyncRun x s) (JobManager.Sending r id todo)).
    split_and!; [done|done|]. intros p. rewrite started_at_run.
    cbn [JobManager.run_party x]. destruct (decide (pt = p)) as [->|]; done.
  - destruct (Hf 0 ltac:(lia)) as [Hn Hh]. rewrite Nat.add_0_r in Hn, Hh.
    assert (answered_after net (S k) d) as Hnext.
    { split; [|by replace (S k + d) with (k + S d) by lia].
      intros j Hj. replace (S k + j) with (k + S j) by lia. apply Hf. lia. }
    rewrite calls_to_S. cbn [JobManager.steps JobManager.step]. rewrite Hph, Hh, lost_answers_S.
    destruct (net k) as [|c|c]; [done| |]; cbn [remote handled honest JobManager.handler fst] in *;
      rewrite (proj1 (negb_true_iff _) Hh).
    + destruct (IH (S k) (JobManager.set_phase (JobManager.asyncRun x s) (JobManager.Sending r id (pt :: todo)))
        eq_refl Hnext) as (s' & Hs & Hp & Hst).
      exists s'. split_and!; [exact Hs|exact Hp|]. intros p. rewrite Hst.
      rewrite started_at_run, <- app_assoc.
      cbn [JobManager.run_party x]. f_equal. destruct (decide (pt = p)) as [->|]; done.
    + destruct (IH (S k) (JobManager.set_phase s (JobManager.Sending r id (pt :: todo))) eq_refl Hnext) as (s' & Hs & Hp & Hst).
      exists s'. split_and!; [exact Hs|exact Hp|]. intros p. by rewrite Hst.
Qed.

(** All parties: the events of the calls made by [sendJobInfo]. *)
Definition calls_of (nets : nat → nat → delivery) (made d : nat → nat) (todo : list nat) :=
  concat (map (λ p, calls_to (nets p) (made p) (d p)) todo).

Lemma sending_steps nets made d r id todo s :
  NoDup todo → (∀ p, p ∈ todo → answered_after (nets p) (made p) (d p)) →
  JobManager.phase s = JobManager.Sending r id todo →
  ∃ s', JobManager.steps pts party_id (calls_of nets made d todo) s = Some s'
    ∧ JobManager.phase s' = JobManager.Sending r id []
    ∧ ∀ p, started_at p s' = started_at p s
        ++ (if decide (p ∈ todo)
            then replicate (S (lost_answers (nets p) (made p) (d p))) (entry r (Z.of_nat id) (p =? party_id)) else []).
Proof.
  revert s. induction todo as [|pt todo IH]; intros s Hnd Ha Hph; unfold calls_of; cbn [map concat].
  - exists s. split_and!; [done|done|]. intros p. rewrite decide_False by apply not_elem_of_nil. by rewrite app_nil_r.
  - apply NoDup_cons in Hnd as [Hpt Hnd]. rewrite steps_app.
    destruct (calling_steps (nets pt) r id pt todo (d pt) (made pt) s Hph (Ha pt ltac:(by left)))
      as (s1 & -> & Hph1 & Hst1).
    destruct (IH s1 Hnd ltac:(intros p Hp; apply Ha; by right) Hph1) as (s' & Hs & Hph' & Hst).
    exists s'. split_and!; [exact Hs|done|]. intros p. rewrite Hst, Hst1, <- app_assoc. f_equal.
    destruct (decide (pt = p)) as [->|Hne].
    + rewrite decide_False, decide_True by (done || by left). by rewrite app_nil_r.
    + assert (p ∈ pt :: todo ↔ p ∈ todo) as Hiff by set_solver. cbn [app].
      destruct (decide (p ∈ todo)); [rewrite decide_True by tauto|rewrite decide_False by tauto]; done.
Qed.
End Facts.
End SendFacts.

(** * Theorems *)

(** The read of triples repeats a call exactly as long as its status is one of
    the three that pass (deadline, unavailable, exhausted), whatever their
    number; at the first other status it returns the strings of the answer, if
    that status is OK, and raises otherwise.  It never gives up retrying, which
    the comment at its end takes for one of the two ways to get there. *)
Theorem readTriples_outcome GetTriples job amount calls d fuel :
  let status k := fst (GetTriples k (Bts.mkRequest job amount)) in
  (∀ j, j < d → Bts.retried (status (calls + j)) = true) →
  (fuel ≤ d → Bts.readTriples GetTriples fuel job amount calls = Throw OutOfFuel)
  ∧ (d < fuel → Bts.retried (status (calls + d)) = false →
     Bts.readTriples GetTriples fuel job amount calls =
       if Grpc.ok (status (calls + d))
       then Ok (map Bts.triple_strings (snd (GetTriples (calls + d) (Bts.mkRequest job amount))), S (calls + d))
       else Throw (RuntimeError "リカバリー不能なエラーが発生")).
Proof.
  intros status Hp. split; intros Hf; [by eapply BtsFacts.loop_out|]. intros Hr. by apply BtsFacts.loop_end.
Qed.

Lemma readTriples_outcome_witness :
  let GetTriples (k : nat) (_ : Bts.GetTriplesRequest) :=
    (if k <? 2 then Grpc.UNAVAILABLE else Grpc.OK, [(1, -2, 3)%Z]) in
  Bts.readTriples GetTriples 3 1 100000 0 = Ok ([("1", "-2", "3")%string], 3).
Proof.
  intros GetTriples. refine (proj2 (readTriples_outcome GetTriples 1 100000 0 2 3 _) _ _).
  - intros [|[|j]] Hj; [done|done|lia].
  - lia.
  - done.
Defined.

(** C24: over a service that answers OK within [fuel] calls from any point on,
    after failures that pass, the handler with its client is the handler whose
    [i]-th refill is the [i]-th OK answer: same triples, same errors, and the
    client's calls are those up to the answer used last. *)
Theorem triple_client_refines {T} GetTriples fuel threshold job
    (convert : Bts.Triple → result T) (conv : Z * Z * Z → result T) :
  let request := Bts.mkRequest job (Z.of_nat threshold) in
  (∀ b, convert (Bts.triple_strings b) = conv b) → BtsFacts.steady GetTriples request fuel →
  ∃ (starts : nat → nat) (resp : nat → list (Z * Z * Z)),
    starts 0 = 0
    ∧ (∀ i, ∃ d, d < fuel ∧ BtsFacts.passing GetTriples request (starts i) d
         ∧ GetTriples (starts i + d) request = (Grpc.OK, resp i) ∧ starts (S i) = S (starts i + d))
    ∧ ∀ k q r,
        Bts.getTriple GetTriples fuel threshold convert job k (Bts.mkState q (starts r))
        = rmap (λ '(ts, s), (ts, Bts.mkState (TripleHandler.queue s) (starts (TripleHandler.requests s))))
            (TripleHandler.getTriple threshold conv resp k (TripleHandler.mkState q r)).
Proof.
  intros request Hc Hs.
  exists (BtsFacts.starts GetTriples request fuel), (BtsFacts.resp GetTriples request fuel).
  split_and!; [done| |].
  - intros i. destruct (Hs (BtsFacts.starts GetTriples request fuel i)) as (d & Hd & Hp & Hok). exists d.
    unfold BtsFacts.resp. cbn [BtsFacts.starts]. rewrite (BtsFacts.first_ok_skip _ _ _ d) by done.
    split_and!; try done. apply bool_decide_eq_true in Hok.
    by destruct (GetTriples _ request) as [c l]; cbn in *; subst c.
  - intros k q r. by apply (BtsFacts.getTriple_refines GetTriples fuel threshold convert job conv Hc Hs k (TripleHandler.mkState q r)).
Qed.

Lemma triple_client_refines_witness :
  ∃ starts resp, starts 0 = 0
    ∧ (∀ i, ∃ d, d < 2 ∧ BtsFacts.passing (λ k _, (if Nat.even k then Grpc.UNAVAILABLE else Grpc.OK, [(1, 1, 3)%Z]))
           (Bts.mkRequest 1 1) (starts i) d
         ∧ (if Nat.even (starts i + d) then Grpc.UNAVAILABLE else Grpc.OK, [(1, 1, 3)%Z]) = (Grpc.OK, resp i)
         ∧ starts (S i) = S (starts i + d))
    ∧ ∀ k q r,
        Bts.getTriple (λ k _, (if Nat.even k then Grpc.UNAVAILABLE else Grpc.OK, [(1, 1, 3)%Z])) 2 1
          (Bts.convertStr2Triple_pf 3) 1 k (Bts.mkState q (starts r))
        = rmap (λ '(ts, s), (ts, Bts.mkState (TripleHandler.queue s) (starts (TripleHandler.requests s))))
            (TripleHandler.getTriple 1 (TripleHandler.convert_pf 3) resp k (TripleHandler.mkState q r)).
Proof.
  refine (triple_client_refines (λ k _, (if Nat.even k then Grpc.UNAVAILABLE else Grpc.OK, [(1, 1, 3)%Z])) 2 1 1
    (Bts.convertStr2Triple_pf 3) (TripleHandler.convert_pf 3) _ _).
  - intros b. reflexivity.
  - intros k. destruct (Nat.even k) eqn:Hk.
    + exists 1. split_and!; [lia| |].
      * intros [|j] Hj; [|lia]. rewrite Nat.add_0_r. cbn. by rewrite Hk.
      * rewrite Nat.add_1_r. cbn [fst]. rewrite Nat.even_succ, <- Nat.negb_even, Hk. done.
    + exists 0. split_and!; [lia| |].
      * intros j Hj. lia.
      * rewrite Nat.add_0_r. cbn [fst]. by rewrite Hk.
Defined.

(** C25: when every party answers within [fuel] calls, [sendJobInfo] returns and
    every party has started the job with the request, the id and the role the
    manager gave it, and nothing else, once and once more for every answer that
    was lost on the way; and that is what the manager's step function says of
    the same calls. *)
Theorem sendJobInfo_at_least_once nets fuel n_parties party_id r id (d : nat → nat) s :
  (∀ p, 1 ≤ p ≤ n_parties → RemoteCallFacts.answered_after (nets p) (snd (s p)) (d p) ∧ d p < fuel) →
  ∃ s', ForJob.sendJobInfo nets fuel n_parties party_id r (Z.of_nat id) s = Ok s'
    ∧ (∀ p, 1 ≤ p ≤ n_parties →
         fst (s' p) = fst (s p)
           ++ replicate (S (RemoteCallFacts.lost_answers (nets p) (snd (s p)) (d p)))
                (ForJob.mkParam r (Z.of_nat id), p =? party_id))
    ∧ ∀ m, JobManager.phase m = JobManager.Sending r id (seq 1 n_parties) →
        (∀ p, 1 ≤ p ≤ n_parties → SendFacts.started_at p m = fst (s p)) →
        ∃ m', JobManager.steps (seq 1 n_parties) party_id
                (SendFacts.calls_of nets (λ p, snd (s p)) d (seq 1 n_parties)) m = Some m'
          ∧ JobManager.phase m' = JobManager.Sending r id []
          ∧ ∀ p, 1 ≤ p ≤ n_parties → SendFacts.started_at p m' = fst (s' p).
Proof.
  intros Ha.
  assert (∀ p, p ∈ seq 1 n_parties ↔ 1 ≤ p ≤ n_parties) as Hin by (intros p; rewrite elem_of_seq; lia).
  destruct (ForJobFacts.sendJobInfo_loop_ok nets fuel party_id r (Z.of_nat id) (seq 1 n_parties) d s)
    as (s' & Hs & Hp); [apply NoDup_seq|by intros p Hp%Hin; apply Ha|].
  exists s'. split_and!; [exact Hs| |].
  - intros p Hpp. rewrite Hp, decide_True by by apply Hin. done.
  - intros m Hph Hm.
    destruct (SendFacts.sending_steps (seq 1 n_parties) party_id nets (λ p, snd (s p)) d r id (seq 1 n_parties) m)
      as (m' & Hsteps & Hph' & Hst); [apply NoDup_seq|by intros p Hpp%Hin; apply Ha|done|].
    exists m'. split_and!; [done|done|]. intros p Hpp.
    rewrite Hst, Hp, !decide_True by by apply Hin. by rewrite (Hm p Hpp).
Qed.

Lemma sendJobInfo_at_least_once_witness :
  let r := ForJob.mkExec 1 "job" (ForJob.mkJoinOrder ["t"%string] [] [1%Z]) (ForJob.mkInput [2%Z] []) in
  let nets p k := if (p =? 2) && (k =? 0) then RemoteCall.AnswerLost Grpc.UNAVAILABLE else RemoteCall.Answered in
  ∃ s', ForJob.sendJobInfo nets 2 2 1 r 4 (λ _, ([], 0)) = Ok s'
    ∧ fst (s' 1) = [(ForJob.mkParam r 4, true)]
    ∧ fst (s' 2) = [(ForJob.mkParam r 4, false); (ForJob.mkParam r 4, false)].
Proof.
  intros r nets.
  destruct (sendJobInfo_at_least_once nets 2 2 1 r 4 (λ p, p - 1) (λ _, ([], 0))) as (s' & H1 & H2 & _).
  - intros p Hp. assert (p = 1 ∨ p = 2) as [->| ->] by lia; (split; [|simpl; lia]).
    + split; [intros j Hj; simpl in Hj; lia|done].
    + split; [|done]. intros [|j] Hj; [done|simpl in Hj; lia].
  - exists s'. split_and!; [exact H1|apply (H2 1); lia|apply (H2 2); lia].
Defined.

(** Repeating the delivery of one share is harmless while nobody reads: the
    mailbox is the one of a single delivery, however many answers were lost. *)
Theorem exchangeShare_once net fuel value a party shares k d :
  RemoteCallFacts.answered_after net k d → d < fuel →
  Peer.exchangeShare net fuel value a party shares k
  = Ok (true, Server.ExchangeShare (Message.makeShare value a party) shares, S (k + d)).
Proof.
  intros Ha Hd. unfold Peer.exchangeShare.
  rewrite (RemoteCallFacts.until_ok_answered Peer.handler net _ (λ _, eq_refl) d) by done.
  do 3 f_equal. generalize (RemoteCallFacts.lost_answers net k d). intros m.
  induction m as [|m IH]; [done|]. rewrite Nat.iter_succ, IH. cbn. by rewrite insert_insert_eq.
Qed.

(** The clients of a container are those of the other parties; asking for one
    of another id, its own included, raises. *)
Theorem getClient_other_parties {U} (ip_addr_map : nat → U) n_parties party_id pt :
  Peer.getClient (Peer.make_clients ip_addr_map n_parties party_id) pt =
    if decide (1 ≤ pt ≤ n_parties ∧ pt ≠ party_id) then Ok (ip_addr_map pt)
    else Throw (RuntimeError "Client non-existant").
Proof.
  unfold Peer.getClient, Peer.make_clients.
  assert (∀ l (m : gmap nat U),
    fold_left (λ ccClients pt_id, if negb (pt_id =? party_id) then <[pt_id := ip_addr_map pt_id]> ccClients
       else ccClients) l m !! pt
    = if decide (pt ∈ l ∧ pt ≠ party_id) then Some (ip_addr_map pt) else m !! pt) as Hl.
  { induction l as [|x l IH]; intros m; cbn [fold_left].
    - rewrite decide_False by (intros [[]%not_elem_of_nil _]). done.
    - rewrite IH. destruct (Nat.eqb_spec x party_id) as [->|Hne]; cbn [negb].
      + destruct (decide (pt ∈ l ∧ _)), (decide (pt ∈ party_id :: l ∧ _)); set_solver.
      + destruct (decide (pt ∈ l ∧ _)); [rewrite decide_True by set_solver; done|].
        destruct (decide (x = pt)) as [->|Hx].
        * rewrite lookup_insert_eq, decide_True; [done|]. split; [by left|done].
        * rewrite lookup_insert_ne, decide_False by set_solver. done. }
  rewrite Hl. assert (pt ∈ seq 1 n_parties ↔ 1 ≤ pt ≤ n_parties) as Hin by (rewrite elem_of_seq; lia).
  destruct (decide (pt ∈ _ ∧ _)), (decide (1 ≤ pt ≤ _ ∧ _)); tauto || done.
Qed.
