(* ===== verification/Models.v ===== *)
(** * Prediction with stored models
      (Model/ModelBase.hpp, Model/ModelBase.cpp, Model/ModelManager.hpp,
      Model/Models/*.hpp, Server/ManageToComputationContainer/Server.cpp)

    [Server::Predict] asks [ModelManager] for the model of an id; [ModelBase::run]
    registers the prediction as a job, reads the table, predicts and writes the
    result, and returns the number of the state it ended in, from which the
    server makes its answer.  The models are a linear and a logistic regression,
    a list of decision trees over shares with JSON parameters, and the tree of
    [SID3Jobs.v]. *)
From stdpp Require Import base list numbers sets strings.
From Stdlib Require Import ZArith Lia.
From S2P Require Import Prelude FixedPoint Random TripleHandler Share SharePF ShareFP Double FixedCompare.
From S2P Require Import FixedCompareCorrect FixedInverse Json Columns MathFunctions TransactionQueue Jobs.
#[local] Open Scope Z_scope.
#[local] Open Scope qmpc_scope.
#[local] Abbreviation n := (Z.of_nat n_parties).

Module ModelBase.
Import JobStatus.
#[local] Open Scope qmpc_scope.

Section ModelBase.
(** The table the gateway answers with, the reading of a share from its string,
    the virtual [predict] and the strings of its result. *)
Context {V A R : Type} (db : DbCall R → option raised).
#[local] Abbreviation J := (J R).
Context (table : list (list string) * list string) (to_share : string → raised + V).
Context (predict : list (list V) → list string → list Z → string → raised + A) (toString : A → R).

(** The same loops as in [JobBase::readDb]. *)
Definition readDb : J (list (list V) * list string) :=
  let$ _ := nextStatus db in
  let$ _ := call db ReadTable in
  match fst table with
  | [] => λ _, Throw (Undefined "values[0]")
  | row0 :: _ =>
      let$ share_table := JobBase.jmap (λ row, JobBase.jmap (JobBase.cell to_share row) (seq 0 (length row0))) (fst table) in
      let$ _ := nextStatus db in
      jret (share_table, snd table)
  end.

Definition writeDb (job_uuid : string) (values : A) : J unit :=
  let$ _ := nextStatus db in
  let$ _ := call db (WriteComputationResult job_uuid (toString values)) in
  nextStatus db.

Definition body (job_uuid : string) (src : list Z) (model_param_job_uuid : string) : J unit :=
  let$ t := readDb in
  match predict (fst t) (snd t) src model_param_job_uuid with
  | inl e => jraise e
  | inr result => writeDb job_uuid result
  end.

(** The registration is outside of the handlers; both handlers only log. *)
Definition run (job_uuid : string) (src : list Z) (model_param_job_uuid : string) : J Z :=
  let$ _ := initJobID db job_uuid in
  λ s, rbind (body job_uuid src model_param_job_uuid s) (λ '(r, s),
    match r with
    | inr _ => Ok (inr (number (status (manager s))), s)
    | inl e => if is_std e then Ok (inr (number (status (manager s))), s) else Ok (inl e, s)
    end).
End ModelBase.

(** [toString] at one party. *)
Definition toString `{DecFloat} (values : list Z) : list string := map FixedPoint.getStrVal values.
End ModelBase.

Module ModelManager.
Import JobStatus.
#[local] Open Scope qmpc_scope.

Inductive Model := LinearRegression | LogisticRegression | DecisionTree | SID3Model.

Definition select (model_id : Z) : option Model :=
  match model_id with
  | 1 => Some LinearRegression
  | 2 => Some LogisticRegression
  | 3 => Some DecisionTree
  | 4 => Some SID3Model
  | _ => None
  end.

Section Push.
Context {V A R : Type} (db : DbCall R → option raised).
#[local] Abbreviation J := (J R).
Context (table : list (list string) * list string) (to_share : string → raised + V).
Context (predict : Model → list (list V) → list string → list Z → string → raised + A) (toString : A → R).

(** The thread is waited for, and an exception of its passes [get]. *)
Definition push (model_id : Z) (job_uuid : string) (src : list Z) (model_param_job_uuid : string) : J Z :=
  match select model_id with
  | None => jret 0
  | Some model => ModelBase.run db table to_share (predict model) toString job_uuid src model_param_job_uuid
  end.

(** ** [Server::Predict] *)

Inductive StatusCode := INVALID_ARGUMENT | INTERNAL | ABORTED.
Inductive answer := StatusOK | StatusError (code : StatusCode) (message : string).

Definition answer_of (status : Z) : answer :=
  match status with
  | 0 => StatusError INVALID_ARGUMENT "Predict Method Error"
  | 1 => StatusError INTERNAL "Read Db Error"
  | 2 => StatusError ABORTED "Computation Error"
  | _ => StatusOK
  end.

Definition Predict (model_id : Z) (job_uuid : string) (src : list Z) (model_param_job_uuid : string) : J answer :=
  let$ status := push model_id job_uuid src model_param_job_uuid in jret (answer_of status).
End Push.
End ModelManager.

Section Models.
Context `{DF : DecFloat} `{E : Env} `{CI : CppInt}.
#[local] Existing Instance fp_value.

(** A vector of shares of which every party reads its own strings:
    [strs] holds, per element, the string each party has. *)
Definition read_shares (strs : list (list string)) : result (list sharing) :=
  traverse (traverse FixedPoint.of_string) strs.
End Models.

Module LinearRegression.
Section LinearRegression.
Context `{DF : DecFloat} `{E : Env}.
#[local] Existing Instance fp_value.

Definition parse_table (table : list (list sharing)) (arg : list Z) : result (list (list sharing)) :=
  let! one := FixedPoint.of_string "1" in
  traverse (λ row, let! xs := Columns.select row arg in Ok (getConstantShare one :: xs)) table.

Definition predict_f (a x : list sharing) : M sharing :=
  let* axs := v_mul a x in ret (fold_left s_add axs s_zero).

Definition predict (a_str : list (list string)) (table : list (list sharing)) (arg : list Z) : M (list sharing) :=
  let* a := lift (read_shares a_str) in
  let* x := lift (parse_table table arg) in
  mmap (predict_f a) x.
End LinearRegression.
End LinearRegression.

Module LogisticRegression.
Section LogisticRegression.
Context `{DF : DecFloat} `{E : Env} `{CI : CppInt} `{CppExp}.

(** The same [parse_table] as the linear model. *)
Definition parse_table (table : list (list sharing)) (arg : list Z) : result (list (list sharing)) :=
  LinearRegression.parse_table table arg.

Definition predict_f (fuel : nat) (a x : list sharing) : M sharing :=
  let* lr := LinearRegression.predict_f a x in MathF.open_sigmoid fuel lr (FixedCompare.fp 1).

Definition predict (fuel : nat) (a_str : list (list string)) (table : list (list sharing)) (arg : list Z) :
    M (list sharing) :=
  let* a := lift (read_shares a_str) in
  let* x := lift (parse_table table arg) in
  mmap (predict_f fuel a) x.
End LogisticRegression.
End LogisticRegression.

(** Every party has a JSON of its own, with its values of the shares; the
    structure is the same at all of them. *)
Module DecisionTree.
Section DecisionTree.
Context `{DF : DecFloat} `{E : Env} `{CI : CppInt} `{JL : JsonLib}.
#[local] Existing Instance fp_value.

Definition parse_table (table : list (list sharing)) (arg : list Z) : result (list (list sharing)) :=
  traverse (λ row, Columns.select row arg) table.

(** [Share(dtree[key].get<std::string>())] at every party. *)
Definition share_at (dtrees : list json) (key : string) : result sharing :=
  traverse (λ j, let! v := at_key j key in let! s := get_string v in FixedPoint.of_string s) dtrees.

(** [bv_s] at every party, as a vector of shares. *)
Definition bitvector_at (dtrees : list json) (key : string) : result (list sharing) :=
  let! vs := traverse (λ j, let! v := at_key j key in let! l := get_strings v in
                            traverse FixedPoint.of_string l) dtrees in
  match vs with
  | [] => Throw (Undefined "no party")
  | v0 :: _ =>
      if forallb (λ v, (length v =? length v0)%nat) vs
      then Ok (map (λ i, map (λ v, nth i v 0) vs) (seq 0 (length v0)))
      else Throw (Undefined "the parties' vectors differ")
  end.

(** [fuel] bounds the depth, [bits] the draws of the comparison. *)
Fixpoint classify (bits fuel : nat) (dtrees : list json) (x : list sharing) : M sharing :=
  match fuel with
  | O => throw OutOfFuel
  | S fuel =>
      if forallb (λ j, contains j "output") dtrees then lift (share_at dtrees "output")
      else if existsb (λ j, contains j "output") dtrees then throw (Undefined "the parties' trees differ")
      else
        let* bv_s := lift (bitvector_at dtrees "feature_bitvector") in
        let* xbv := v_mul x bv_s in
        let val := Math.sum xbv in
        let* threshold := lift (share_at dtrees "threshold") in
        let* less := FixedCompare.lt_share bits val threshold in
        let* child := lift (traverse (λ j, at_key j (if less then "left_child" else "right_child")%string) dtrees) in
        classify bits fuel child x
  end.

(** [dtree_list]: per tree, the JSON of every party. *)
Definition predict_f (bits fuel : nat) (dtree_list : list (list json)) (x : list sharing) : M sharing :=
  mfold (λ sum dtrees,
      let* w := lift (share_at dtrees "weight") in
      let* tree := lift (traverse (λ j, at_key j "tree_structure") dtrees) in
      let* out := classify bits fuel tree x in
      let* wout := s_mul w out in
      ret (s_add sum wout)) dtree_list s_zero.

Definition predict (bits fuel : nat) (dtree_list : list (list json)) (table : list (list sharing)) (arg : list Z) :
    M (list sharing) :=
  let* x := lift (parse_table table arg) in
  mmap (predict_f bits fuel dtree_list) x.
End DecisionTree.
End DecisionTree.

(** * Lemmas *)

(** ** The answer to a prediction *)

Module ModelFacts.
Import JobStatus ModelBase ModelManager.

Definition is_inr {A B} (r : A + B) : bool := match r with inr _ => true | inl _ => false end.
Definition std {A} (r : raised + A) : Prop := match r with inl e => is_std e = true | inr _ => True end.

Lemma emap_std {X Y} (g : X → raised + Y) l : (∀ x, std (g x)) → std (JobFacts.emap g l).
Proof.
  intros Hg. induction l as [|x l IH]; [done|]. cbn. specialize (Hg x). destruct (g x); [done|].
  by destruct (JobFacts.emap g l).
Qed.

Section Facts.
Context {V A R : Type} (db : DbCall R → option raised) (table : list (list string) * list string)
  (to_share : string → raised + V).

(** Every cell that is read holds a number. *)
Definition numbers : bool := is_inr (JobFacts.to_table to_share (fst table)).

(** Reading the table succeeds. *)
Definition readable (u : string) : bool :=
  bool_decide (db (UpdateJobStatus u 2) = None) && bool_decide (db ReadTable = None) && numbers.

Context (predict : list (list V) → list string → list Z → string → raised + A) (toString : A → R).

Definition at_status (k : Z) (s : St R) : Prop := number (status (manager s)) = k.

(** A step of the state machine in a run: the new status is set before it is written. *)
Lemma next_at u st st' cs :
  (number st, number st') = (1, 2) ∨ (number st, number st') = (2, 3)
  ∨ (number st, number st') = (3, 4) ∨ (number st, number st') = (4, 5) →
  nextStatus db (mkSt (mkManager (Some u) st) cs)
  = Ok (match db (UpdateJobStatus u (number st')) with Some e => inl e | None => inr tt end,
        mkSt (mkManager (Some u) st') (cs ++ [UpdateJobStatus u (number st')])).
Proof. destruct st, st'; cbn; intros [[=]|[[=]|[[=]|[=]]]]; reflexivity. Qed.

(** Everything the body calls raises [std::exception]s only. *)
Definition all_std : Prop :=
  (∀ c e, db c = Some e → is_std e = true) ∧ (∀ c, std (to_share c)) ∧ ∀ t ns a p, std (predict t ns a p).

(** Where the body ends. *)
Lemma body_status u src m cs :
  JobFacts.wide (fst table) →
  ∃ r s', body db table to_share predict toString u src m (mkSt (mkManager (Some u) PRE_JOB) cs) = Ok (r, s')
    ∧ (all_std → std r) ∧ (if readable u then 3 ≤ number (status (manager s')) else at_status 2 s').
Proof.
  intros Hw. unfold body, jbind at 1, readDb, jbind at 1.
  rewrite (next_at u PRE_JOB READ_DB) by (by left). cbn [number rbind]. unfold readable, numbers.
  destruct (db (UpdateJobStatus u 2)) as [e|] eqn:E2.
  { eexists _, _. split; [reflexivity|]. split; [by intros (Hdb & _); eapply Hdb|]. by rewrite bool_decide_eq_false_2. }
  rewrite bool_decide_eq_true_2 by done. cbn [andb]. unfold jbind at 1, call at 1. cbn [rbind manager calls].
  destruct (db ReadTable) as [e|] eqn:E3.
  { eexists _, _. split; [reflexivity|]. split; [by intros (Hdb & _); eapply Hdb|]. by rewrite bool_decide_eq_false_2. }
  rewrite bool_decide_eq_true_2 by done. cbn [andb].
  destruct (fst table) as [|row0 rows]; [done|]. unfold jbind at 1. rewrite JobFacts.jmap_table by done. cbn [rbind].
  assert (all_std → std (JobFacts.to_table to_share (row0 :: rows))) as Hst.
  { intros (_ & Hs & _). apply emap_std. intros row. by apply emap_std. }
  destruct (JobFacts.to_table to_share (row0 :: rows)) as [e|t]; [by eexists _, _|]. cbn [is_inr]. unfold jbind at 1.
  rewrite (next_at u READ_DB COMPUTE) by (by right; left). cbn [rbind number].
  destruct (db (UpdateJobStatus u 3)) as [e|] eqn:E4; [eexists _, _; split; [reflexivity|]; split; [by intros (Hdb & _); eapply Hdb|]; by cbn|].
  cbn [jret rbind fst snd]. assert (all_std → std (predict t table.2 src m)) as Hpe by (by intros (_ & _ & Hp)).
  destruct (predict t table.2 src m) as [e|res]; [by eexists _, _|].
  unfold writeDb, jbind at 1. rewrite (next_at u COMPUTE WRITE_DB) by (by right; right; left). cbn [rbind number].
  destruct (db (UpdateJobStatus u 4)) as [e|] eqn:E5; [eexists _, _; split; [reflexivity|]; split; [by intros (Hdb & _); eapply Hdb|]; by cbn|].
  unfold jbind at 1, call at 1. cbn [rbind manager calls].
  destruct (db (WriteComputationResult u (toString res))) as [e|] eqn:E6; [eexists _, _; split; [reflexivity|]; split; [by intros (Hdb & _); eapply Hdb|]; by cbn|].
  rewrite (next_at u WRITE_DB COMPLETED) by (by right; right; right). cbn [number].
  eexists _, _. split; [reflexivity|]. split; [|by cbn].
  destruct (db (UpdateJobStatus u 5)) as [e|] eqn:E7; [intros (Hdb & _); by eapply Hdb|done].
Qed.
End Facts.
End ModelFacts.

(** ** Predictions on shares *)

Section Linear.
Context `{DL : DecLaws} `{E : Env} `{V : !ValidEnv E} {TB : Z} `{TL : !TripleLaws TB E}.
#[local] Existing Instance fp_value.
Import FixedPoint.

Lemma moved_later w w' : moved w 0 0 w' → later w w'.
Proof. intros [Ha Hs]. unfold later. rewrite Ha, Hs. lia. Qed.

(** A sum of products: a linear model, or the feature of a tree. *)
Lemma dot_runs xs ys vs us B w :
  Forall2 (FShares B) xs vs → Forall2 (FShares B) ys us → length xs = length ys → 0 ≤ B → opened TB B < wire →
  runs (v_mul xs ys) w (λ zs w', let z := Math.sum zs in later w w'
    ∧ FShares (Z.of_nat (length xs) * mul_bound TB B) z (Zsum z)
    ∧ Z.abs (shift * Zsum z - dot vs us) ≤ Z.of_nat (length xs) * shift).
Proof.
  intros Hx Hy Hl HB Ho. eapply runs_mono; [by apply (v_mul_fp xs ys vs us B)|].
  intros zs w1 [Hz Hm]. split; [by apply moved_later|].
  destruct (sum_products _ _ _ _ Hz) as (Hs & He & _). unfold Math.sum.
  assert (length zs = length xs) as Hlz.
  { apply Forall2_length in Hz. rewrite length_zip_with in Hz. apply Forall2_length in Hx, Hy. lia. }
  by rewrite Hlz in Hs, He.
Qed.
End Linear.

(** Trees over shares: [bv] is the vector that selects a feature. *)
Inductive dtree : Type :=
  | Output (o : Z)
  | Split (bv : list Z) (threshold : Z) (left_child right_child : dtree).

(** The class of a row with secrets [xs]; the product has [shift^2] units per one. *)
Fixpoint class_of (t : dtree) (xs : list Z) : Z :=
  match t with
  | Output o => o
  | Split bv th l r => if dot xs bv <? FixedPoint.shift * th then class_of l xs else class_of r xs
  end.

(** No comparison on the row's path is too close to call, or out of range:
    with [d] features the products are off by up to [d] units, and the
    comparison decides from 764 units on one side and 762 on the other. *)
Fixpoint clear (t : dtree) (xs : list Z) : Prop :=
  match t with
  | Output _ => True
  | Split bv th l r =>
      let d := Z.of_nat (length xs) in
      length bv = length xs ∧ Z.abs (dot xs bv - FixedPoint.shift * th) ≤ (2 ^ 31) * FixedPoint.shift * FixedPoint.shift ∧
      if dot xs bv <? FixedPoint.shift * th
      then dot xs bv + (d + 764) * FixedPoint.shift ≤ FixedPoint.shift * th ∧ clear l xs
      else FixedPoint.shift * th + d * FixedPoint.shift ≤ dot xs bv + 762 * FixedPoint.shift ∧ clear r xs
  end.

Fixpoint tree_depth (t : dtree) : nat :=
  match t with Output _ => 1 | Split _ _ l r => S (Nat.max (tree_depth l) (tree_depth r)) end.

Section Trees.
Context `{DL : DecLaws} `{E : Env} `{V : !ValidEnv E} {TB : Z} `{TL : !TripleLaws TB E} `{CL : CppIntLaws}
  `{JL : JsonLib}.
#[local] Existing Instance fp_value.
Import FixedPoint FixedCompare.

(** The parties' JSON texts hold shares of the tree's numbers. *)
Fixpoint reads (B : Z) (js : list json) (t : dtree) : Prop :=
  match t with
  | Output o => Forall (λ j, contains j "output" = true) js
      ∧ ∃ s, DecisionTree.share_at js "output" = Ok s ∧ FShares B s o
  | Split bv th l r => js ≠ [] ∧ Forall (λ j, contains j "output" = false) js
      ∧ ∃ bv_s th_s jl jr, DecisionTree.bitvector_at js "feature_bitvector" = Ok bv_s ∧ Forall2 (FShares B) bv_s bv
        ∧ DecisionTree.share_at js "threshold" = Ok th_s ∧ FShares B th_s th
        ∧ traverse (λ j, at_key j "left_child") js = Ok jl ∧ reads B jl l
        ∧ traverse (λ j, at_key j "right_child") js = Ok jr ∧ reads B jr r
  end.

Definition feature_size (d : nat) (B : Z) : Z := Z.max B (Z.of_nat d * mul_bound TB B).

Lemma classify_runs bits fuel B js t x xs w :
  n ≤ 9 → (opened TB (1000 * shift) < wire ∧ mul_bound TB (1000 * shift) < wire) → fair bits w →
  Z.of_nat (length x) < 2 ^ 31 → 0 ≤ B → opened TB B < wire → 2 ^ 19 * feature_size (length x) B < wire →
  Forall2 (FShares B) x xs → reads B js t → clear t xs → (tree_depth t ≤ fuel)%nat →
  runs (DecisionTree.classify bits fuel js x) w (λ o w', later w w' ∧ FShares B o (class_of t xs)).
Proof.
  intros Hn Hs Hf Hd31 HB Ho Hw Hx. revert js fuel w Hf.
  induction t as [o|bv th l IHl r IHr]; intros js fuel w Hf Hr Hc Hd;
    (destruct fuel as [|fuel]; [simpl in Hd; lia|]); cbn [DecisionTree.classify].
  - destruct Hr as (Hout & s & Hsh & Hso).
    assert (forallb (λ j, contains j "output") js = true) as ->.
    { apply forallb_forall. intros j Hj. rewrite Forall_forall in Hout. by apply Hout, list_elem_of_In. }
    eapply runs_lift; [exact Hsh|]. split; [apply later_refl|exact Hso].
  - destruct Hr as (Hne & Hout & bv_s & th_s & jl & jr & Hbv & Hbvs & Hth & Hths & Hjl & Hl & Hjr & Hrr).
    destruct Hc as (Hlen & Hrange & Hgap).
    assert (forallb (λ j, contains j "output") js = false ∧ existsb (λ j, contains j "output") js = false) as [-> ->].
    { split; [|clear Hne Hbv Hth Hjl Hjr; induction Hout as [|j js Hj _ IH]; [done|]; cbn; by rewrite Hj].
      destruct Hout as [|j js Hj _]; [done|]. cbn. by rewrite Hj. }
    eapply runs_bind; [by eapply runs_lift_eq|]. intros ? ? [-> ->].
    pose proof (Forall2_length _ _ _ Hx) as Hlx. pose proof (Forall2_length _ _ _ Hbvs) as Hlb.
    eapply runs_bind; [exact (dot_runs x bv_s xs bv B w Hx Hbvs ltac:(lia) HB Ho)|].
    intros zs w0 (Hl1 & Hvs & Hve).
    eapply runs_bind; [by eapply runs_lift_eq|]. intros ? ? [-> ->].
    set (val := Math.sum zs) in *.
    assert (FShares (feature_size (length x) B + feature_size (length x) B) (s_sub val th_s) (Zsum val - th)) as Hsub.
    { apply FShares_sub; (eapply FShares_weaken; [eassumption|]); unfold feature_size; lia. }
    set (d := Z.of_nat (length x)) in *. rewrite <- Hlx in Hgap. fold d in Hgap.
    assert (0 ≤ feature_size (length x) B) as Hfs by (unfold feature_size; lia).
    eapply runs_bind.
    { unfold lt_share. apply (less_than_zero_fp bits Hn Hs _ _ _ w0 Hsub); [lia|lia| |by eapply fair_later].
      apply (Z.mul_le_mono_pos_l _ _ shift); [done|].
      rewrite <- (Z.abs_eq shift) at 1 by done. rewrite <- Z.abs_mul.
      replace (shift * (Zsum val - th)) with ((shift * Zsum val - dot xs bv) + (dot xs bv - shift * th)) by ring.
      unfold shift in *. lia. }
    intros less w2 (Hl2 & Hno & Hyes).
    assert (less = (dot xs bv <? shift * th)) as ->.
    { destruct (Z.ltb_spec (dot xs bv) (shift * th)) as [Hlt|Hge].
      - apply Hyes. destruct Hgap as [Hgap _]. unfold shift in *. lia.
      - apply Hno. destruct Hgap as [Hgap _]. unfold shift in *. lia. }
    assert (later w w2) as Hlw by (by eapply later_trans).
    cbn [class_of]. destruct (dot xs bv <? shift * th).
    + eapply runs_bind; [by eapply runs_lift_eq|]. intros ? ? [-> ->].
      eapply runs_mono; [apply (IHl jl fuel w2); [by eapply fair_later|exact Hl|apply Hgap|simpl in Hd; lia]|].
      cbv beta. intros o w3 [H1 H2]. split; [by eapply later_trans|exact H2].
    + eapply runs_bind; [by eapply runs_lift_eq|]. intros ? ? [-> ->].
      eapply runs_mono; [apply (IHr jr fuel w2); [by eapply fair_later|exact Hrr|apply Hgap|simpl in Hd; lia]|].
      cbv beta. intros o w3 [H1 H2]. split; [by eapply later_trans|exact H2].
Qed.

(** A weighted tree, and its JSON at the parties. *)
Definition reads_weighted (B : Z) (js : list json) (wt : Z * dtree) : Prop :=
  ∃ ws jt, DecisionTree.share_at js "weight" = Ok ws ∧ FShares B ws wt.1
    ∧ traverse (λ j, at_key j "tree_structure") js = Ok jt ∧ reads B jt wt.2.

(** The sum the trees stand for, with [shift] units per unit. *)
Definition forest (ts : list (Z * dtree)) (xs : list Z) : Z := Zsum (map (λ wt, wt.1 * class_of wt.2 xs) ts).

Lemma predict_f_runs bits fuel B jss ts x xs acc A w :
  n ≤ 9 → (opened TB (1000 * shift) < wire ∧ mul_bound TB (1000 * shift) < wire) → fair bits w →
  Z.of_nat (length x) < 2 ^ 31 → 0 ≤ B → opened TB B < wire → 2 ^ 19 * feature_size (length x) B < wire →
  Forall2 (FShares B) x xs → Forall2 (reads_weighted B) jss ts →
  Forall (λ wt : Z * dtree, clear wt.2 xs ∧ (tree_depth wt.2 ≤ fuel)%nat) ts → FShares A acc (Zsum acc) →
  runs (mfold (λ sum dtrees,
      let* w := lift (DecisionTree.share_at dtrees "weight") in
      let* tree := lift (traverse (λ j, at_key j "tree_structure") dtrees) in
      let* out := DecisionTree.classify bits fuel tree x in
      let* wout := s_mul w out in
      ret (s_add sum wout)) jss acc) w
    (λ z _, FShares (A + Z.of_nat (length jss) * mul_bound TB B) z (Zsum z)
      ∧ Z.abs (shift * (Zsum z - Zsum acc) - forest ts xs) ≤ Z.of_nat (length jss) * shift).
Proof.
  intros Hn Hs Hf Hd HB Ho Hw Hx Hr. revert acc A w Hf. induction Hr as [|js [wv t] jss ts Hjs _ IH];
    intros acc A w Hf Hc Ha; cbn [mfold].
  - apply runs_ret. split; [eapply FShares_weaken; [exact Ha|simpl; lia]|]. rewrite Z.sub_diag, Z.mul_0_r. done.
  - apply Forall_cons in Hc as [[Hct Hdt] Hc]. destruct Hjs as (ws & jt & Hws & Hwss & Hjt & Hrt). cbn [fst snd] in *.
    eapply runs_bind; [|intros acc' w2 Hacc'; exact Hacc'].
    eapply runs_bind; [by eapply runs_lift_eq|]. intros ? ? [-> ->].
    eapply runs_bind; [by eapply runs_lift_eq|]. intros ? ? [-> ->].
    eapply runs_bind; [by eapply classify_runs|]. intros out w1 [Hl1 Hout].
    eapply runs_bind; [apply (s_mul_fp ws out wv (class_of t xs) B w1); done|]. intros wout w2 [[Hz He] Hm].
    apply runs_ret. pose proof (FShares_add _ _ _ _ _ _ Ha Hz) as Hs'.
    assert (later w w2) as Hl2 by (eapply later_trans; [exact Hl1|by apply moved_later]).
    rewrite <- (proj2 (proj2 Hs')) in Hs'.
    eapply runs_mono; [apply (IH _ _ w2 (fair_later _ _ _ Hf Hl2) Hc Hs')|].
    cbv beta. intros z w3 [Hzs Hze]. cbn [length]. split.
    + eapply FShares_weaken; [exact Hzs|lia].
    + pose proof (proj2 (proj2 (FShares_add _ _ _ _ _ _ Ha Hz))) as Hsum. rewrite Hsum in Hze.
      unfold approx in He. unfold forest in *. cbn [map fst snd]. rewrite Zsum_cons. lia.
Qed.
End Trees.

(** * Theorems *)

(** C21: what [Server::Predict] answers, on a table that has a row and no row
    shorter than the first (on an empty one reading it is undefined).  An unknown
    model is an [INVALID_ARGUMENT].  When the job cannot be registered, which is
    done outside of the handlers, the exception leaves [Predict] without an
    answer.  Otherwise the answer is [ABORTED] ("Computation Error") exactly when
    the table could not be read, and [OK] in all other cases, also when the model
    raised an exception or the result could not be written; only an exception
    that is no [std::exception] leaves it.  [INTERNAL] ("Read Db Error") is never
    answered: [run] returns the numbers of the job states, where the server
    expects those of its own list. *)
Theorem predict_answers {V A R} db (table : list (list string) * list string) (to_share : string → raised + V)
    (predict : ModelManager.Model → list (list V) → list string → list Z → string → raised + A) (toString : A → R)
    id u src m :
  JobFacts.wide (fst table) →
  let answer := ModelManager.Predict db table to_share predict toString id u src m JobStatus.unstarted in
  match ModelManager.select id with
  | None => answer = Ok (inr (ModelManager.StatusError ModelManager.INVALID_ARGUMENT "Predict Method Error"), JobStatus.unstarted)
  | Some mo =>
      match db (JobStatus.RegisterJob u 1) with
      | Some e => ∃ s', answer = Ok (inl e, s') ∧ JobStatus.calls s' = [JobStatus.RegisterJob u 1]
      | None =>
          let verdict := if ModelFacts.readable db table to_share u then ModelManager.StatusOK
            else ModelManager.StatusError ModelManager.ABORTED "Computation Error" in
          ((∃ s', answer = Ok (inr verdict, s')) ∨ ∃ e s', is_std e = false ∧ answer = Ok (inl e, s'))
          ∧ (ModelFacts.all_std db to_share (predict mo) → ∃ s', answer = Ok (inr verdict, s'))
      end
  end.
Proof.
  intros Hw answer. unfold answer, ModelManager.Predict, ModelManager.push.
  destruct (ModelManager.select id) as [mo|]; [|done].
  unfold ModelBase.run, JobStatus.initJobID, JobStatus.jbind. cbn -[ModelBase.body].
  destruct (db (JobStatus.RegisterJob u 1)) as [e|]; [by eexists|]. cbn -[ModelBase.body].
  destruct (ModelFacts.body_status db table to_share (predict mo) toString u src m [JobStatus.RegisterJob u 1] Hw)
    as (r & s' & -> & Hr & Hst). cbn -[ModelFacts.readable].
  set (verdict := if ModelFacts.readable db table to_share u then _ else _).
  assert (ModelManager.answer_of (JobStatus.number (JobStatus.status (JobStatus.manager s'))) = verdict) as Ha.
  { unfold verdict. destruct (ModelFacts.readable _ _ _ _); unfold ModelFacts.at_status in Hst;
      destruct (JobStatus.status _); cbn in *; lia || done. }
  destruct r as [e|]; cbn [ModelFacts.std] in Hr; [destruct (is_std e) eqn:He|]; cbn; rewrite ?Ha.
  - split; [left|]; by eexists.
  - split; [right; by exists e, s'|]. intros Hall. by specialize (Hr Hall).
  - split; [left|]; by eexists.
Qed.

Lemma predict_answers_witness :
  let model_fails := λ _ (_ : list (list string)) _ _ _, inl (throw_with_trace (RuntimeError "no model")) : raised + unit in
  let down (c : JobStatus.DbCall unit) :=
    match c with JobStatus.ReadTable => Some (throw_with_trace (RuntimeError "down")) | _ => None end in
  let predict db := ModelManager.Predict db ([["1"]], ["x"])%string (λ c, inr c) model_fails id 1 "job" [1] "model"
    JobStatus.unstarted in
  (∃ s', predict (λ _, None) = Ok (inr ModelManager.StatusOK, s'))
  ∧ ∃ s', predict down = Ok (inr (ModelManager.StatusError ModelManager.ABORTED "Computation Error"), s').
Proof.
  intros model_fails down predict.
  assert (JobFacts.wide [["1"%string]]) as Hw by by repeat constructor.
  split.
  - refine (proj2 (predict_answers (λ _, None) ([["1"]], ["x"])%string (λ c, inr c) model_fails id 1 "job" [1] "model" Hw) _).
    by split_and!.
  - refine (proj2 (predict_answers down ([["1"]], ["x"])%string (λ c, inr c) model_fails id 1 "job" [1] "model" Hw) _).
    split_and!; [by intros [] e; intros [= <-]|done|done].
Defined.

Section Results.
Context `{DL : DecLaws} `{E : Env} `{V : !ValidEnv E} {TB : Z} `{TL : !TripleLaws TB E}.
#[local] Existing Instance fp_value.
Import FixedPoint.

(** The prediction of a linear model opens, for every row and at every
    party, to [a_0 + a_1 x_1 + ... + a_d x_d] up to [d + 1] units of the last
    place, [a] being the secrets of the shares the parties read from the
    database and the [x_i] the chosen columns. *)
Theorem linear_predict_close B a_str a va arg table secrets w :
  0 ≤ B → shift ≤ B → opened TB B < wire → Z.of_nat (length a) * mul_bound TB B < wire →
  length a = S (length arg) → read_shares a_str = Ok a → Forall2 (FShares B) a va →
  Forall2 (Forall2 (FShares B)) table secrets → ∀ xs, traverse (λ row, Columns.select row arg) secrets = Ok xs →
  ∃ ys w', LinearRegression.predict a_str table arg w = Ok (ys, w')
    ∧ Forall2 (λ y x, ∃ r, (∀ me, recons_at me y = Ok r)
        ∧ Z.abs (shift * r - dot va (shift :: x)) ≤ Z.of_nat (length a) * shift) ys xs.
Proof.
  intros HB HsB Ho Hw Hlen Hread Ha Ht xs Hsel.
  enough (runs (LinearRegression.predict a_str table arg) w (λ ys _, Forall2 (λ y x, ∃ r, (∀ me, recons_at me y = Ok r)
        ∧ Z.abs (shift * r - dot va (shift :: x)) ≤ Z.of_nat (length a) * shift) ys xs)) as (ys & w' & H) by (by exists ys, w').
  unfold LinearRegression.predict. eapply runs_bind; [by apply runs_lift_eq|]. intros ? ? [-> ->].
  assert (∃ X, LinearRegression.parse_table table arg = Ok X
    ∧ Forall2 (λ row x, Forall2 (FShares B) row (shift :: x) ∧ length row = length a) X xs) as (X & HX & HXs).
  { unfold LinearRegression.parse_table. change "1"%string with (TripleHandler.to_string 1).
    rewrite (dec_int 1 ltac:(reflexivity)), rbind_ok. revert xs Hsel.
    induction Ht as [|row sec table secrets Hrow _ IH]; intros xs Hsel; cbn [traverse] in *.
    - injection Hsel as <-. eexists. split; [reflexivity|constructor].
    - apply rbind_Ok_inv in Hsel as (x & Hx & Hsel). apply rbind_Ok_inv in Hsel as (xs' & Hxs' & [= <-]).
      pose proof (select_rel _ _ _ arg Hrow) as Hrel. rewrite Hx in Hrel.
      apply ok_rel_Ok_r in Hrel as (r & -> & Hr). destruct (IH xs' Hxs') as (X & -> & HX).
      eexists. split; [reflexivity|]. constructor; [|exact HX]. split.
      + constructor; [|exact Hr]. rewrite Z.mul_1_l.
        eapply FShares_weaken; [apply (FixedWhole.WShares_const 1)|]. unfold shift in *. lia.
      + apply traverse_length in Hx. apply Forall2_length in Hr. cbn [length]. lia. }
  eapply runs_bind; [by apply runs_lift_eq|]. intros ? ? [-> ->].
  clear HX Hsel Ht Hread. revert w. induction HXs as [|row x X xs [Hrow Hl] _ IH]; intros w; cbn [mmap].
  - apply runs_ret. constructor.
  - eapply runs_bind.
    { unfold LinearRegression.predict_f. eapply runs_bind; [apply (dot_runs a row va (shift :: x) B); done|].
      intros zs w1 (_ & Hz & He). apply runs_ret. instantiate (1 := λ y _, ∃ r, (∀ me, recons_at me y = Ok r)
        ∧ Z.abs (shift * r - dot va (shift :: x)) ≤ Z.of_nat (length a) * shift).
      exists (Zsum (Math.sum zs)). split; [|exact He]. intros me. by eapply recons_fp. }
    intros y w1 Hy. eapply runs_bind; [apply IH|]. intros ys w2 Hys. apply runs_ret. by constructor.
Qed.

(** C18: a list of decision trees over shares.  When on the row's path through
    every tree the feature is not within 764 units (and one per column) of the
    threshold, [predict_f] opens to the sum of weight times output at the ends
    of the paths, up to one unit per tree. *)
Theorem forest_predict_close `{CL : CppIntLaws} `{JL : JsonLib} bits fuel B jss ts x xs w :
  setting TB bits w → Z.of_nat (length x) < 2 ^ 31 → 0 ≤ B → opened TB B < wire →
  2 ^ 19 * feature_size (TB := TB) (length x) B < wire → Z.of_nat (length jss) * mul_bound TB B < wire →
  Forall2 (FShares B) x xs → Forall2 (reads_weighted B) jss ts →
  Forall (λ wt : Z * dtree, clear wt.2 xs ∧ (tree_depth wt.2 ≤ fuel)%nat) ts →
  ∃ y w' r, DecisionTree.predict_f bits fuel jss x w = Ok (y, w') ∧ (∀ me, recons_at me y = Ok r)
    ∧ Z.abs (shift * r - forest ts xs) ≤ Z.of_nat (length jss) * shift.
Proof.
  intros [H1 H2 H3] Hd HB Ho Hw Hw2 Hx Hr Hc.
  assert (Zsum s_zero = 0) as H0 by apply FShares_zero.
  destruct (predict_f_runs bits fuel B jss ts x xs s_zero 0 w H1 H2 H3 Hd HB Ho Hw Hx Hr Hc) as (y & w' & Hy & Hs & He).
  { rewrite H0. apply FShares_zero. }
  exists y, w', (Zsum y). split; [exact Hy|]. rewrite H0, Z.sub_0_r in He. split; [|exact He].
  intros me. eapply recons_fp; [exact Hs|lia].
Qed.
End Results.

Import FixedPoint.

Lemma linear_predict_close_witness :
  let a := [[shift; 0; shift]; [2 * shift; 0; 0]] in
  let table := [[[shift; shift; shift]; [0; 0; 0]]] in
  ∃ ys w', @LinearRegression.predict rat_dec demo_env [["1"; "0"; "1"]; ["2"; "0"; "0"]]%string table [1] world0 = Ok (ys, w')
    ∧ Forall2 (λ y x, ∃ r, (∀ me, @recons_at (@fp_value rat_dec) demo_env me y = Ok r)
        ∧ Z.abs (shift * r - dot [2 * shift; 2 * shift] (shift :: x)) ≤ Z.of_nat (length a) * shift) ys [[3 * shift]].
Proof.
  intros a table.
  refine (@linear_predict_close rat_dec rat_laws demo_env _ 36 _ (2 * shift) [["1"; "0"; "1"]; ["2"; "0"; "0"]]%string a
    [2 * shift; 2 * shift] [1] table [[3 * shift; 0]] world0 _ _ _ _ _ _ _ _ [[3 * shift]] _).
  - vm_compute; discriminate.
  - vm_compute; discriminate.
  - vm_compute; reflexivity.
  - vm_compute; reflexivity.
  - reflexivity.
  - vm_compute; reflexivity.
  - repeat (apply Forall2_cons; split); [demo_fshares|demo_fshares|constructor].
  - apply Forall2_cons; split; [|constructor]. repeat (apply Forall2_cons; split); [demo_fshares|demo_fshares|constructor].
  - reflexivity.
Defined.

(** A tree that asks whether the first feature is below 2; the first party
    holds the numbers, the others hold zeros. *)
Definition toy_tree : dtree := Split [shift; 0] (2 * shift) (Output (5 * shift)) (Output (7 * shift)).
Definition toy_forest_json (i : nat) : jtree :=
  let s c := JString (if (i =? 1)%nat then c else "0"%string) in
  JObject [("weight", s "3"); ("tree_structure",
    JObject [("feature_bitvector", JArray [s "1"; s "0"]); ("threshold", s "2");
             ("left_child", JObject [("output", s "5")]); ("right_child", JObject [("output", s "7")])])]%string.

Lemma forest_predict_close_witness :
  let x := [[shift; 0; 0]; [0; 3 * shift; 0]] in
  let xs := [shift; 3 * shift] in
  let jss := [map toy_forest_json [1; 2; 3]%nat] in
  (∃ y w' r, @DecisionTree.predict_f rat_dec steady_env nearest json_tree 1 2 jss x world0 = Ok (y, w')
    ∧ (∀ me, @recons_at (@fp_value rat_dec) steady_env me y = Ok r)
    ∧ Z.abs (shift * r - forest [(3 * shift, toy_tree)] xs) ≤ Z.of_nat (length jss) * shift)
  ∧ forest [(3 * shift, toy_tree)] xs = 15 * shift * shift.
Proof.
  intros x xs jss. split; [|vm_compute; reflexivity].
  refine (@forest_predict_close rat_dec rat_laws steady_env _ 36 _ nearest nearest_laws json_tree 1 2 (7 * shift)
    jss [(3 * shift, toy_tree)] x xs world0 steady_setting _ _ _ _ _ _ _ _).
  - vm_compute; reflexivity.
  - vm_compute; discriminate.
  - vm_compute; reflexivity.
  - vm_compute; reflexivity.
  - vm_compute; reflexivity.
  - repeat (apply Forall2_cons; split); [demo_fshares|demo_fshares|constructor].
  - constructor; [|constructor]. eexists _, _. split; [vm_compute; reflexivity|]. split; [demo_fshares|].
    split; [vm_compute; reflexivity|]. cbn [fst snd reads toy_tree]. split; [discriminate|].
    split; [repeat constructor|]. do 4 eexists. split; [vm_compute; reflexivity|].
    split; [repeat (apply Forall2_cons; split); [demo_fshares|demo_fshares|constructor]|].
    split; [vm_compute; reflexivity|]. split; [demo_fshares|].
    split; [vm_compute; reflexivity|]. split; [split; [repeat constructor|eexists; split; [vm_compute; reflexivity|demo_fshares]]|].
    split; [vm_compute; reflexivity|]. split; [repeat constructor|eexists; split; [vm_compute; reflexivity|demo_fshares]].
  - constructor; [|constructor]. split; [|simpl; lia]. cbn -[Z.mul Z.add Z.pow shift]. 
    split_and!; [reflexivity|vm_compute; discriminate|].
    vm_compute. split; [discriminate|exact I].
Defined.
