(* ===== verification/ValueTable.v ===== *)
(** * Tables read from the database and their joins
    (Client/ComputationToDbGate/ValueTable.cpp, Job/Jobs/JoinTableJob.hpp)

    A cell is what each party read for it, one string per party.  [hjoin] and
    [vjoin] open the id columns and match them through a [std::map] and a
    [std::set] ordered by [LessFloat]; [hjoinShare] merges the columns with the
    comparison protocols of the shares, one after the other.  A [std::map] is an
    association list searched up to the equivalence of its comparison; when the
    comparison is not a strict weak order on the keys at hand ([LessFloat] is
    not one in general) the behaviour of the containers is undefined, and so is
    the model's.  [inner_join] says what a horizontal join is for. *)
From stdpp Require Import base list numbers sets strings.
From Stdlib Require Import ZArith Lia Sorted.
From S2P Require Import Prelude FixedPoint Random TripleHandler Share SharePF ShareFP Double FixedCompare FixedCompareCorrect.
#[local] Open Scope qmpc_scope.

(** ** The order of the containers: [operator()] of numbers and of strings *)
Module LessFloat.

(** [T(eps)] with [eps = 1e-5]: the constructor from [double] gives 1000 units. *)
Definition eps : Z := Eval vm_compute in
  match FixedDouble.of_double (Double.lit 1 100000) with Ok e => e | Throw _ => 0%Z end.

Definition less (x y : Z) : bool := FixedPoint.ltb x (FixedPoint.sub y eps).
Definition less_string (x y : string) : bool := String.ltb x y.
End LessFloat.

(** ** Matching the values of two vectors *)
Module ValueIndex.
Section Index.
Context {T : Type} (lt : T → T → bool).

(** When [std::map] takes two keys for the same. *)
Definition equiv_ (x y : T) : bool := negb (lt x y) && negb (lt y x).

(** The requirements of [std::map] on its comparison, on the given keys. *)
Definition strict_weak (l : list T) : bool :=
  forallb (λ x, negb (lt x x)) l
  && forallb (λ x, forallb (λ y, forallb (λ z,
       implb (lt x y && lt y z) (lt x z) && implb (equiv_ x y && equiv_ y z) (equiv_ x z)) l) l) l.

(** [std::map::emplace] and [find]. *)
Definition find (m : list (T * nat)) (k : T) : option nat :=
  option_map snd (List.find (λ e, equiv_ (fst e) k) m).
Definition emplace (m : list (T * nat)) (k : T) (v : nat) : list (T * nat) :=
  match find m k with Some _ => m | None => m ++ [(k, v)] end.

Fixpoint emplace_all (m : list (T * nat)) (v : list T) (it : nat) : list (T * nat) :=
  match v with [] => m | x :: v => emplace_all (emplace m x it) v (S it) end.

Fixpoint intersection_loop (m : list (T * nat)) (v1 : list T) (it : nat) : list nat * list nat :=
  match v1 with
  | [] => ([], [])
  | x :: v1 =>
      let '(v1_it, v2_it) := intersection_loop m v1 (S it) in
      match find m x with
      | None => (v1_it, v2_it)
      | Some j => (it :: v1_it, j :: v2_it)
      end
  end.
Definition intersectionValueIndex (v1 v2 : list T) : result (list nat * list nat) :=
  if strict_weak (v1 ++ v2) then Ok (intersection_loop (emplace_all [] v2 0) v1 0)
  else Throw (Undefined "std::map comparison").

Definition unionValueIndex (v1 v2 : list T) : result (list nat * list nat) :=
  if strict_weak (v1 ++ v2) then
    let v1_st := emplace_all [] v1 0 in
    Ok (seq 0 (length v1),
        map fst (filter (λ '(it, x), find v1_st x = None) (zip (seq 0 (length v2)) v2)))
  else Throw (Undefined "std::set comparison").
End Index.

(** The merge of two sorted vectors; the comparisons of shares are protocols. *)
Section Sorted.
Context `{DF : DecFloat} `{E : Env} `{CI : CppInt} (bits : nat).
#[local] Existing Instance fp_value.

Fixpoint intersectionSorted_loop (fuel : nat) (i1 i2 : nat) (sorted_v1 sorted_v2 : list sharing) :
    M (list (nat * nat)) :=
  match sorted_v1, sorted_v2 with
  | x :: v1', y :: v2' =>
      match fuel with
      | O => throw OutOfFuel
      | S fuel =>
          let* e := FixedCompare.eq_share bits x y in
          if e then
            let* l := intersectionSorted_loop fuel (S i1) (S i2) v1' v2' in ret ((i1, i2) :: l)
          else
            let* b := FixedCompare.lt_share bits x y in
            if b then intersectionSorted_loop fuel (S i1) i2 v1' sorted_v2
            else intersectionSorted_loop fuel i1 (S i2) sorted_v1 v2'
      end
  | _, _ => ret []
  end.
Definition intersectionSortedValueIndex (sorted_v1 sorted_v2 : list sharing) : M (list (nat * nat)) :=
  intersectionSorted_loop (length sorted_v1 + length sorted_v2) 0 0 sorted_v1 sorted_v2.
End Sorted.
End ValueIndex.

(** ** Tables *)
Module ValueTable.
Import ValueIndex LessFloat.
Section Table.
Context `{DF : DecFloat} `{E : Env} `{CI : CppInt}.
#[local] Existing Instance fp_value.

Abbreviation cell := (list string).
Record ValueTable := mkTable { table : list (list cell); schemas : list string }.

#[export] Instance ValueTable_eq_dec : EqDecision ValueTable.
Proof. solve_decision. Defined.

(** [row[idx]] and the like: outside of the vector the behaviour is undefined. *)
Definition at_index {A} (l : list A) (i : nat) : result A :=
  match l !! i with Some x => Ok x | None => Throw (Undefined "vector index") end.

(** [getColumn(idx)]: the parties parse their strings. *)
Definition getColumn (t : ValueTable) (idx : Z) : result (list sharing) :=
  traverse (λ row, let! c := vec_at row idx in traverse FixedPoint.of_string c) (table t).

(** [open] and [recons] of a column. *)
Definition ids (t : ValueTable) (idx : Z) : result (list Z) :=
  let! c := getColumn t idx in recons_vec_at sp_id c.

Definition take_row {A} (row : list A) (its : list nat) : result (list A) :=
  traverse (at_index row) its.

Definition vjoin (t join_table : ValueTable) (idx idx_tgt : Z) : result ValueTable :=
  let! '(schemas_it, schemas_join_it) :=
    intersectionValueIndex less_string (schemas t) (schemas join_table) in
  let! new_schemas := take_row (schemas t) schemas_it in
  let! ids1 := ids t (idx - 1) in
  let! ids2 := ids join_table (idx_tgt - 1) in
  let! '(ids_it, ids_join_it) := unionValueIndex less ids1 ids2 in
  let! rows1 := traverse (λ row, take_row row schemas_it) (table t) in
  let! rows2 := traverse (λ it, let! row := at_index (table join_table) it in
                                 take_row row schemas_join_it) ids_join_it in
  Ok (mkTable (rows1 ++ rows2) new_schemas).

(** The rows of the horizontal joins: the matched rows side by side. *)
Definition join_row (t join_table : ValueTable) (schemas_it schemas_join_it : list nat)
    (h : nat * nat) : result (list cell) :=
  let! row := at_index (table t) (fst h) in
  let! r1 := take_row row schemas_it in
  let! row' := at_index (table join_table) (snd h) in
  let! r2 := take_row row' schemas_join_it in
  Ok (r1 ++ r2).

Definition hjoin (t join_table : ValueTable) (idx idx_tgt : Z) : result ValueTable :=
  let! '(schemas_it, schemas_join_it) :=
    unionValueIndex less_string (schemas t) (schemas join_table) in
  let! added := take_row (schemas join_table) schemas_join_it in
  let! ids1 := ids t (idx - 1) in
  let! ids2 := ids join_table (idx_tgt - 1) in
  let! '(ids_it, ids_join_it) := intersectionValueIndex less ids1 ids2 in
  let! rows := traverse (join_row t join_table schemas_it schemas_join_it) (zip ids_it ids_join_it) in
  Ok (mkTable rows (schemas t ++ added)).

(** The comparisons of shares are protocol runs; [bits] is their fuel, the draws
    of one random bit. *)
Context (bits : nat).

Definition hjoinShare (t join_table : ValueTable) (idx idx_tgt : Z) : M ValueTable :=
  let* '(schemas_it, schemas_join_it) :=
    lift (unionValueIndex less_string (schemas t) (schemas join_table)) in
  let* added := lift (take_row (schemas join_table) schemas_join_it) in
  let* c1 := lift (getColumn t (idx - 1)) in
  let* c2 := lift (getColumn join_table (idx_tgt - 1)) in
  let* its := intersectionSortedValueIndex bits c1 c2 in
  let* rows := lift (traverse (join_row t join_table schemas_it schemas_join_it) its) in
  ret (mkTable rows (schemas t ++ added)).

(** [parseRead]: fold the tables from the left; [join] says how. *)
Fixpoint joinFunc (t : ValueTable) (values : list ValueTable) (join : list Z)
    (index0 : Z) (index : list Z) : M ValueTable :=
  match join with
  | [] => ret t
  | j :: join =>
      match values, index with
      | v :: values, i :: index =>
          let* t := (if (j =? 0)%Z then lift (hjoin t v index0 i)
                     else if (j =? 1)%Z then lift (vjoin t v index0 i)
                     else hjoinShare t v index0 i) in
          joinFunc t values join index0 index
      | _, _ => throw (Undefined "vector index")
      end
  end.
Definition parseRead (values : list ValueTable) (join index : list Z) : M ValueTable :=
  match values with
  | [] => throw (Undefined "vector index")
  | t :: values =>
      match join, index with
      | [], _ => ret t
      | _, [] => throw (Undefined "vector index")
      | _, i0 :: index => joinFunc t values join i0 index
      end
  end.
End Table.
End ValueTable.

Module JoinTableJob.

(** [removeIdColumn]: without the leftmost column and the one matched on; the
    position is a [size_t], so a column number below one is out of every row. *)
Definition keep {A} (match_row : Z) (row : list A) : list A :=
  omap (λ '(i, x), if negb (i =? 0)%nat && negb (Z.of_nat i =? match_row)%Z then Some x else None)
    (zip (seq 0 (length row)) row).
Definition removeIdColumn {A} (table : list (list A)) (schema : list string) (id_column : list Z)
    : result (list (list A) * list string) :=
  match id_column with
  | [] => Throw (Undefined "front of empty list")
  | c :: _ =>
      let match_row := ((c - 1) mod 2 ^ 64)%Z in
      Ok (map (keep match_row) table, keep match_row schema)
  end.
End JoinTableJob.

(** * Lemmas *)

Module StringOrder.

Lemma compare_trans a b c :
  String.compare a b = Lt → String.compare b c = Lt → String.compare a c = Lt.
Proof.
  revert b c. induction a as [|x a IH]; intros [|y b] [|z c]; cbn; try done.
  unfold Ascii.compare. destruct (N.compare_spec (Ascii.N_of_ascii x) (Ascii.N_of_ascii y)) as [Hxy|Hxy|Hxy];
    [|intros _|done].
  - rewrite Hxy. destruct (N.compare _ (Ascii.N_of_ascii z)); [exact (IH b c)|done|done].
  - destruct (N.compare_spec (Ascii.N_of_ascii y) (Ascii.N_of_ascii z)) as [Hyz|Hyz|Hyz]; [intros _|intros _|done].
    + rewrite <- Hyz. by rewrite (proj2 (N.compare_lt_iff _ _) Hxy).
    + by rewrite (proj2 (N.compare_lt_iff _ _) (N.lt_trans _ _ _ Hxy Hyz)).
Qed.

Lemma compare_refl a : String.compare a a = Eq.
Proof.
  pose proof (String.compare_antisym a a) as H. by destruct (String.compare a a).
Qed.

Lemma less_string_irrefl a : LessFloat.less_string a a = false.
Proof. unfold LessFloat.less_string, String.ltb. by rewrite compare_refl. Qed.

Lemma less_string_trans a b c :
  LessFloat.less_string a b = true → LessFloat.less_string b c = true → LessFloat.less_string a c = true.
Proof.
  unfold LessFloat.less_string, String.ltb. pose proof (compare_trans a b c) as Ht.
  destruct (String.compare a b); try done. destruct (String.compare b c); try done.
  by rewrite Ht.
Qed.

Lemma string_equiv a b : ValueIndex.equiv_ LessFloat.less_string a b = bool_decide (a = b).
Proof.
  unfold ValueIndex.equiv_, LessFloat.less_string, String.ltb. rewrite (String.compare_antisym b a).
  destruct (String.compare a b) eqn:E; simpl.
  - apply String.compare_eq_iff in E as ->. by rewrite bool_decide_true.
  - rewrite bool_decide_false; [done|]. intros ->. by rewrite compare_refl in E.
  - rewrite bool_decide_false; [done|]. intros ->. by rewrite compare_refl in E.
Qed.
End StringOrder.

Module ValueIndexFacts.
Import ValueIndex.
Section Facts.
Context {T : Type} (lt : T → T → bool).

(** What [strict_weak] decides. *)
Lemma strict_weak_spec l :
  strict_weak lt l = true ↔
  (∀ x, x ∈ l → lt x x = false)
  ∧ ∀ x y z, x ∈ l → y ∈ l → z ∈ l →
      (lt x y = true → lt y z = true → lt x z = true)
      ∧ (equiv_ lt x y = true → equiv_ lt y z = true → equiv_ lt x z = true).
Proof.
  unfold strict_weak. rewrite andb_true_iff, !forallb_forall. split.
  - intros [H1 H2]. setoid_rewrite list_elem_of_In. split.
    + intros x Hx. by apply negb_true_iff, H1.
    + intros x y z Hx Hy Hz. specialize (H2 x Hx). rewrite forallb_forall in H2.
      specialize (H2 y Hy). rewrite forallb_forall in H2. specialize (H2 z Hz).
      apply andb_true_iff in H2 as [A B]. rewrite implb_true_iff in A, B.
      rewrite andb_true_iff in A, B. auto.
  - setoid_rewrite list_elem_of_In. intros [H1 H2]. split.
    + intros x Hx. by apply negb_true_iff, H1.
    + intros x Hx. apply forallb_forall. intros y Hy. apply forallb_forall. intros z Hz.
      destruct (H2 x y z Hx Hy Hz) as [A B]. apply andb_true_iff. rewrite !implb_true_iff, !andb_true_iff.
      split; intros []; auto.
Qed.

Lemma equiv_sym x y : equiv_ lt x y = equiv_ lt y x.
Proof. unfold equiv_. apply andb_comm. Qed.

(** The map after inserting the values of a vector: searching it finds the first match. *)
Lemma find_app m k v x :
  find lt (m ++ [(k, v)]) x = match find lt m x with
                              | Some j => Some j
                              | None => if equiv_ lt k x then Some v else None
                              end.
Proof.
  unfold find. induction m as [|[k' v'] m IH]; cbn.
  - by destruct (equiv_ lt k x).
  - destruct (equiv_ lt k' x); [done|]. exact IH.
Qed.

Lemma find_In m x j : find lt m x = Some j → ∃ k, (k, j) ∈ m ∧ equiv_ lt k x = true.
Proof.
  unfold find. intros H. destruct (List.find _ m) as [[k j']|] eqn:E; [|done].
  injection H as ->. apply List.find_some in E as [Hin He]. exists k. split; [by apply list_elem_of_In|done].
Qed.

Lemma find_None m x : find lt m x = None → ∀ k j, (k, j) ∈ m → equiv_ lt k x = false.
Proof.
  unfold find. intros H k j Hin. destruct (List.find _ m) as [|] eqn:E; [done|].
  apply list_elem_of_In in Hin. apply (List.find_none _ _ E (k, j) Hin).
Qed.

(** Searching after [emplace_all]: the old entries first, then the first match. *)
Lemma find_emplace_all m v it x l :
  strict_weak lt l = true → x ∈ l → (∀ y, y ∈ v → y ∈ l) → (∀ k j, (k, j) ∈ m → k ∈ l) →
  find lt (emplace_all lt m v it) x =
  match find lt m x with
  | Some j => Some j
  | None => option_map (λ i, (it + i)%nat) (fst <$> list_find (λ y, equiv_ lt y x = true) v)
  end.
Proof.
  intros Hsw Hx. apply strict_weak_spec in Hsw as [_ Hsw].
  revert m it. induction v as [|y v IH]; intros m it Hv Hm; cbn [emplace_all list_find].
  - by destruct (find lt m x).
  - assert (y ∈ l) as Hy by (apply Hv; by left).
    rewrite IH.
    2:{ intros z Hz. apply Hv. by right. }
    2:{ intros k j. unfold emplace. destruct (find lt m y); [apply Hm|].
        rewrite elem_of_app, list_elem_of_singleton. intros [Hin|[= -> ->]]; [by eapply Hm|done]. }
    unfold emplace. destruct (find lt m y) as [j|] eqn:Hfy.
    + (* an equivalent key was there already *)
      destruct (find lt m x) as [jx|] eqn:Hfx; [done|].
      apply find_In in Hfy as (k & Hin & Hk).
      assert (equiv_ lt y x = false) as Hyx.
      { apply not_true_is_false. intros Hyx.
        pose proof (find_None _ _ Hfx k j Hin) as Hkx.
        destruct (Hsw k y x (Hm _ _ Hin) Hy Hx) as [_ Ht]. by rewrite Ht in Hkx. }
      rewrite decide_False by (by rewrite Hyx).
      destruct (list_find _ v) as [[i z]|]; cbn; [f_equal; lia|done].
    + rewrite find_app. destruct (find lt m x); [done|].
      destruct (equiv_ lt y x) eqn:Hyx.
      * rewrite decide_True by done. cbn. f_equal. lia.
      * rewrite decide_False by done. destruct (list_find _ v) as [[i z]|]; cbn; [f_equal; lia|done].
Qed.

(** The pairs of the intersection as one list. *)
Definition matches (m : T → option nat) (v1 : list T) (it : nat) : list (nat * nat) :=
  omap (λ '(i, x), pair i <$> m x) (zip (seq it (length v1)) v1).

Lemma matches_cons m x v1 it :
  matches m (x :: v1) it = match m x with
                           | Some j => (it, j) :: matches m v1 (S it)
                           | None => matches m v1 (S it)
                           end.
Proof. unfold matches. cbn. by destruct (m x). Qed.

Lemma matches_elem m v1 it i j :
  (i, j) ∈ matches m v1 it ↔ ∃ k x, i = (it + k)%nat ∧ v1 !! k = Some x ∧ m x = Some j.
Proof.
  revert it. induction v1 as [|x v1 IH]; intros it.
  - split; [intros []%elem_of_nil|by intros (k & y & _ & H & _)].
  - rewrite matches_cons. split.
    + intros Hin. assert ((i = it ∧ m x = Some j) ∨ (i, j) ∈ matches m v1 (S it)) as [[-> Hm]|Hin'].
      { destruct (m x) as [j'|]; [|by right]. apply elem_of_cons in Hin as [[= -> ->]|]; auto. }
      * exists 0%nat, x. split_and!; [lia|done|done].
      * apply IH in Hin' as (k & y & -> & Hk & Hy). exists (S k), y. split_and!; [lia|done|done].
    + intros (k & y & -> & Hk & Hy). destruct k as [|k].
      * injection Hk as ->. rewrite Hy, Nat.add_0_r. by left.
      * assert ((it + S k, j)%nat ∈ matches m v1 (S it)) as Hin
          by (apply IH; exists k, y; split_and!; [lia|done|done]).
        destruct (m x); [by right|done].
Qed.

Lemma intersection_loop_matches m v1 it :
  length (intersection_loop lt m v1 it).1 = length (intersection_loop lt m v1 it).2
  ∧ zip (intersection_loop lt m v1 it).1 (intersection_loop lt m v1 it).2 = matches (find lt m) v1 it.
Proof.
  revert it. induction v1 as [|x v1 IH]; intros it; [done|].
  rewrite matches_cons. cbn [intersection_loop]. specialize (IH (S it)).
  destruct (intersection_loop lt m v1 (S it)) as [a b]. cbn [fst snd] in IH.
  destruct (find lt m x); cbn; [|exact IH]. destruct IH as [IH1 IH2].
  split; [by f_equal|by f_equal].
Qed.

Lemma intersection_spec v1 v2 :
  strict_weak lt (v1 ++ v2) = true →
  ∃ a b, intersectionValueIndex lt v1 v2 = Ok (a, b) ∧ length a = length b
    ∧ zip a b = matches (find lt (emplace_all lt [] v2 0)) v1 0.
Proof.
  intros Hsw. unfold intersectionValueIndex. rewrite Hsw.
  pose proof (intersection_loop_matches (emplace_all lt [] v2 0) v1 0) as [Hl Hz].
  destruct (intersection_loop lt _ v1 0) as [a b]. by exists a, b.
Qed.

Lemma matches_ext m m' v1 it : (∀ x, x ∈ v1 → m x = m' x) → matches m v1 it = matches m' v1 it.
Proof.
  revert it. induction v1 as [|x v1 IH]; intros it He; [done|].
  rewrite !matches_cons, (He x) by (by left). rewrite IH by (intros; apply He; by right). done.
Qed.

Lemma union_spec v1 v2 :
  strict_weak lt (v1 ++ v2) = true →
  ∃ js, unionValueIndex lt v1 v2 = Ok (seq 0 (length v1), js)
    ∧ ∀ j, j ∈ js ↔ ∃ y, v2 !! j = Some y ∧ ∀ x, x ∈ v1 → equiv_ lt x y = false.
Proof.
  intros Hsw. unfold unionValueIndex. rewrite Hsw. eexists. split; [done|]. intros j.
  rewrite list_elem_of_fmap. setoid_rewrite list_elem_of_filter. split.
  - intros ([j' y] & -> & Hf & Hin). cbn [fst].
    apply list_elem_of_lookup in Hin as [k Hk]. apply lookup_zip_with_Some in Hk as (? & ? & [= <- <-] & Hs & Hy).
    apply lookup_seq in Hs as [-> _]. exists y. split; [done|]. intros x Hx.
    rewrite (find_emplace_all [] v1 0 y (v1 ++ v2) Hsw) in Hf.
    + cbn in Hf. destruct (list_find _ v1) as [[i z]|] eqn:E; [done|].
      apply list_find_None in E. rewrite Forall_forall in E. apply not_true_is_false. by apply E.
    + apply elem_of_app. right. by eapply list_elem_of_lookup_2.
    + intros z Hz. apply elem_of_app. by left.
    + intros ? ? []%elem_of_nil.
  - intros (y & Hy & Hn). exists (j, y). split; [done|]. split.
    + rewrite (find_emplace_all [] v1 0 y (v1 ++ v2) Hsw).
      * cbn. destruct (list_find _ v1) as [[i z]|] eqn:E; [|done].
        apply list_find_Some in E as (Hi & He & _). rewrite Hn in He; [done|]. by eapply list_elem_of_lookup_2.
      * apply elem_of_app. right. by eapply list_elem_of_lookup_2.
      * intros z Hz. apply elem_of_app. by left.
      * intros ? ? []%elem_of_nil.
    + apply list_elem_of_lookup. exists j. apply lookup_zip_with_Some. exists j, y. split_and!; [done| |done].
      apply lookup_seq_lt. by eapply lookup_lt_Some.
Qed.

(** Searching the map finds the first position of an equivalent value. *)
Definition position (v2 : list T) (x : T) : option nat := fst <$> list_find (λ y, equiv_ lt y x = true) v2.

Lemma position_cons y v2 x :
  position (y :: v2) x = if equiv_ lt y x then Some 0%nat else S <$> position v2 x.
Proof.
  unfold position. cbn [list_find]. destruct (equiv_ lt y x) eqn:E.
  - by rewrite decide_True by done.
  - rewrite decide_False by done. by destruct (list_find _ v2) as [[]|].
Qed.

Lemma find_position v2 x l :
  strict_weak lt l = true → x ∈ l → (∀ y, y ∈ v2 → y ∈ l) → find lt (emplace_all lt [] v2 0) x = position v2 x.
Proof.
  intros Hsw Hx Hv. rewrite (find_emplace_all [] v2 0 x l Hsw Hx Hv) by (intros k j' []%elem_of_nil).
  unfold position. cbn. by destruct (fst <$> list_find _ v2).
Qed.
End Facts.
End ValueIndexFacts.

(** ** [LessFloat] on numbers *)
Module LessFloatFacts.
Import LessFloat ValueIndex.
#[local] Open Scope Z_scope.

(** The constructor really returns the constant. *)
Lemma eps_of_double : FixedDouble.of_double (Double.lit 1 100000) = Ok eps.
Proof. vm_compute. reflexivity. Qed.

Lemma less_spec x y : less x y = (x <? y - 1000).
Proof. done. Qed.

(** The map takes two numbers for the same when they differ by 1000 units at most. *)
Lemma equiv_close x y : equiv_ less x y = (Z.abs (x - y) <=? 1000).
Proof.
  unfold equiv_. rewrite !less_spec. destruct (Z.ltb_spec x (y - 1000)), (Z.ltb_spec y (x - 1000)), (Z.leb_spec (Z.abs (x - y)) 1000);
    cbn; lia || done.
Qed.

(** Numbers for which being the same in this sense is transitive. *)
Definition clustered (l : list Z) : Prop := ∀ x y z, x ∈ l → y ∈ l → z ∈ l →
  Z.abs (x - y) ≤ 1000 → Z.abs (y - z) ≤ 1000 → Z.abs (x - z) ≤ 1000.

(** Just on these [LessFloat] is what the containers require. *)
Lemma strict_weak_clustered l : strict_weak less l = true ↔ clustered l.
Proof.
  rewrite ValueIndexFacts.strict_weak_spec. unfold clustered. split.
  - intros [_ H] x y z Hx Hy Hz. destruct (H x y z Hx Hy Hz) as [_ Ht]. rewrite !equiv_close, !Z.leb_le in Ht. exact Ht.
  - intros H. split; [intros x _; rewrite less_spec; lia|]. intros x y z Hx Hy Hz.
    rewrite !less_spec, !equiv_close, !Z.leb_le. split; [lia|]. by apply H.
Qed.

(** Numbers of which no two different ones are taken for the same. *)
Definition separated (l : list Z) : Prop := ∀ x y, x ∈ l → y ∈ l → x = y ∨ 1000 < Z.abs (x - y).

Lemma separated_clustered l : separated l → clustered l.
Proof.
  intros H x y z Hx Hy Hz Hxy Hyz. destruct (H x y Hx Hy) as [->|]; [done|lia].
Qed.
End LessFloatFacts.

Module JoinFacts.
Import LessFloat ValueIndex ValueIndexFacts ValueTable.

(** String comparison is a strict weak order on any vector of names. *)
Lemma string_strict_weak l : strict_weak less_string l = true.
Proof.
  apply strict_weak_spec. split; [intros; apply StringOrder.less_string_irrefl|].
  intros x y z _ _ _. split; [apply StringOrder.less_string_trans|].
  rewrite !StringOrder.string_equiv, !bool_decide_eq_true. congruence.
Qed.

(** The columns of the second table the first one does not have. *)
Definition added {A} (s1 s2 : list string) (row : list A) : list A :=
  map snd (filter (λ e, e.1 ∉ s1) (zip s2 row)).

Lemma union_schemas s1 s2 :
  unionValueIndex less_string s1 s2
  = Ok (seq 0 (length s1), map fst (filter (λ e, e.2 ∉ s1) (zip (seq 0 (length s2)) s2))).
Proof.
  unfold unionValueIndex. rewrite string_strict_weak. f_equal. f_equal. f_equal.
  apply list_filter_iff. intros [i x]. cbn [snd].
  rewrite (find_emplace_all less_string [] s1 0 x (x :: s1)).
  - cbn. destruct (list_find _ s1) as [[k y]|] eqn:E; cbn.
    + apply list_find_Some in E as (Hk & He & _).
      rewrite StringOrder.string_equiv, bool_decide_eq_true in He. subst y.
      split; [done|]. intros Hn. destruct Hn. by eapply list_elem_of_lookup_2.
    + apply list_find_None in E. rewrite Forall_forall in E. split; [|done]. intros _ Hx.
      apply (E x Hx). by rewrite StringOrder.string_equiv, bool_decide_eq_true.
  - apply string_strict_weak.
  - by left.
  - intros y Hy. by right.
  - intros ? ? []%elem_of_nil.
Qed.

Lemma at_index_app {A} (pre : list A) x l : at_index (pre ++ x :: l) (length pre) = Ok x.
Proof. unfold at_index. by rewrite list_lookup_middle. Qed.

Lemma take_row_all {A} (pre l : list A) : take_row (pre ++ l) (seq (length pre) (length l)) = Ok l.
Proof.
  unfold take_row. revert pre. induction l as [|x l IH]; intros pre; [done|].
  cbn [length seq traverse]. rewrite at_index_app. cbn [rbind].
  specialize (IH (pre ++ [x])). rewrite length_app, Nat.add_1_r, <- app_assoc in IH. cbn [app] in IH.
  by rewrite IH.
Qed.

Lemma take_row_added {A} s1 s2 (pre row : list A) :
  length row = length s2 →
  take_row (pre ++ row) (map fst (filter (λ e, e.2 ∉ s1) (zip (seq (length pre) (length s2)) s2)))
  = Ok (added s1 s2 row).
Proof.
  unfold take_row, added. revert pre row. induction s2 as [|s s2 IH]; intros pre [|x row] Hl; try done.
  injection Hl as Hl. specialize (IH (pre ++ [x]) row Hl).
  rewrite length_app, Nat.add_1_r, <- app_assoc in IH. cbn [app] in IH.
  cbn [length seq zip zip_with]. rewrite !filter_cons. cbn [fst snd].
  destruct (decide (s ∉ s1)); cbn [map traverse]; [|exact IH].
  cbn [fst]. rewrite at_index_app. cbn [rbind]. by rewrite IH.
Qed.

Lemma added_length {A B} s1 s2 (r : list A) (r' : list B) :
  length r = length s2 → length r' = length s2 → length (added s1 s2 r) = length (added s1 s2 r').
Proof.
  unfold added. rewrite !length_map. revert r r'. induction s2 as [|s s2 IH]; intros [|x r] [|y r'] H1 H2; try done.
  cbn [zip zip_with]. rewrite !filter_cons. cbn [fst]. injection H1 as H1. injection H2 as H2.
  destruct (decide (s ∉ s1)); cbn [length]; [f_equal|]; by apply IH.
Qed.

Section Hjoin.
Context `{DL : DecLaws} `{EI : Env} `{V : !ValidEnv EI} `{CI : CppInt}.
#[local] Existing Instance fp_value.

Definition rectangular (t : ValueTable) : Prop :=
  Forall (λ row, length row = length (schemas t)) (table t).

(** The parties hold shares of [ids] in a column, small enough for the wire. *)
Definition shared_ids (B : Z) (t : ValueTable) (idx : Z) (vs : list Z) : Prop :=
  ∃ c, getColumn t idx = Ok c ∧ Forall2 (FShares B) c vs ∧ (B < wire)%Z.

Lemma shared_ids_length B t idx vs : shared_ids B t idx vs → length vs = length (table t).
Proof.
  intros (c & Hc & Hv & _). apply traverse_length in Hc. apply Forall2_length in Hv. lia.
Qed.

(** Opening the column gives the ids. *)
Lemma ids_opened B t idx vs : shared_ids B t idx vs → ids t idx = Ok vs.
Proof. intros (c & Hc & Hv & HB). unfold ids. rewrite Hc, rbind_ok. by eapply recons_vec_fp. Qed.

Definition joined (t t2 : ValueTable) (h : nat * nat) : list (list string) :=
  nth h.1 (table t) [] ++ added (schemas t) (schemas t2) (nth h.2 (table t2) []).

Lemma join_row_ok t t2 h :
  rectangular t → rectangular t2 → (h.1 < length (table t))%nat → (h.2 < length (table t2))%nat →
  join_row t t2 (seq 0 (length (schemas t)))
    (map fst (filter (λ e, e.2 ∉ schemas t) (zip (seq 0 (length (schemas t2))) (schemas t2)))) h
  = Ok (joined t t2 h).
Proof.
  intros H1 H2 Hi Hj. unfold join_row, joined, at_index.
  destruct (lookup_lt_is_Some_2 _ _ Hi) as [r Hr]. destruct (lookup_lt_is_Some_2 _ _ Hj) as [r' Hr'].
  unfold rectangular in *. rewrite Forall_lookup in H1, H2. pose proof (H1 _ _ Hr) as L1. pose proof (H2 _ _ Hr') as L2.
  rewrite Hr. cbn [rbind]. rewrite <- L1. pose proof (take_row_all [] r) as E. cbn [app length] in E. rewrite E.
  cbn [rbind]. rewrite Hr'. cbn [rbind].
  pose proof (take_row_added (schemas t) (schemas t2) [] r' L2) as E2. cbn [app length] in E2. rewrite E2.
  cbn [rbind]. by rewrite (nth_lookup_Some _ _ _ _ Hr), (nth_lookup_Some _ _ _ _ Hr').
Qed.

(** ** What a horizontal join is for: every row of the first table that has a
    partner, with the new columns of the first partner.  A partner's id differs
    by 1000 units ([10^-5]) at most. *)
Definition partner (x : Z) (e : Z * list (list string)) : bool := (Z.abs (e.1 - x) <=? 1000)%Z.
Definition inner_join (s1 s2 : list string) (rows1 rows2 : list (Z * list (list string))) : list (list (list string)) :=
  omap (λ '(x, r), match List.find (partner x) rows2 with
                   | Some (_, r') => Some (r ++ added s1 s2 r')
                   | None => None
                   end) rows1.

Lemma find_partner x l rows :
  length l = length rows →
  List.find (partner x) (zip l rows) = (λ j, (nth j l 0%Z, nth j rows [])) <$> position less l x.
Proof.
  revert rows. induction l as [|y l IH]; intros [|r rows] Hl; try done. injection Hl as Hl.
  cbn [zip_with List.find]. rewrite position_cons, LessFloatFacts.equiv_close. unfold partner at 1. cbn [fst].
  destruct (Z.abs (y - x) <=? 1000)%Z; [done|]. rewrite (IH rows Hl). by destruct (position less l x).
Qed.

(** The matched positions give the rows of the inner join. *)
Lemma joined_rows t t2 ids1 ids2 :
  length ids1 = length (table t) → length ids2 = length (table t2) →
  map (joined t t2) (matches (position LessFloat.less ids2) ids1 0)
  = inner_join (schemas t) (schemas t2) (zip ids1 (table t)) (zip ids2 (table t2)).
Proof.
  intros L1 L2. unfold joined.
  assert (∀ rows1 it l, length l = length rows1 → (∀ k r, rows1 !! k = Some r → nth (it + k) (table t) [] = r) →
    map (λ h : nat * nat, nth h.1 (table t) [] ++ added (schemas t) (schemas t2) (nth h.2 (table t2) []))
      (matches (position LessFloat.less ids2) l it)
    = inner_join (schemas t) (schemas t2) (zip l rows1) (zip ids2 (table t2))) as H.
  { induction rows1 as [|r rows1 IH]; intros it [|x l] Hl Hrow; try done. injection Hl as Hl.
    rewrite matches_cons. unfold inner_join. cbn [zip_with omap list_omap].
    assert (∀ k r', rows1 !! k = Some r' → nth (S it + k) (table t) [] = r') as Hrow'.
    { intros k r' Hk. replace (S it + k)%nat with (it + S k)%nat by lia. by apply Hrow. }
    specialize (IH (S it) l Hl Hrow'). unfold inner_join in IH.
    rewrite find_partner by done.
    destruct (position less ids2 x) as [j|]; cbn [fmap option_fmap option_map fst map snd]; [|exact IH].
    f_equal; [|exact IH]. f_equal. rewrite <- (Nat.add_0_r it). by apply Hrow. }
  apply H; [done|]. intros k r Hk. by apply nth_lookup_Some.
Qed.

Lemma position_lt ids2 x j : position LessFloat.less ids2 x = Some j → (j < length ids2)%nat.
Proof.
  unfold position. destruct (list_find _ ids2) as [[i y]|] eqn:Hf; [|done]. intros [= <-].
  apply list_find_Some in Hf as (Hy & _). by eapply lookup_lt_Some.
Qed.

Lemma join_rows_ok t t2 ids1 ids2 :
  rectangular t → rectangular t2 → length ids1 = length (table t) → length ids2 = length (table t2) →
  traverse (join_row t t2 (seq 0 (length (schemas t)))
    (map fst (filter (λ e, e.2 ∉ schemas t) (zip (seq 0 (length (schemas t2))) (schemas t2)))))
    (matches (position LessFloat.less ids2) ids1 0)
  = Ok (inner_join (schemas t) (schemas t2) (zip ids1 (table t)) (zip ids2 (table t2))).
Proof.
  intros H1 H2 L1 L2. rewrite (traverse_map _ (joined t t2)); [by rewrite joined_rows|].
  intros [i j] (k & x & -> & Hk & Hm)%matches_elem. apply join_row_ok; [done|done| |]; cbn [fst snd].
  - rewrite <- L1. by eapply lookup_lt_Some.
  - rewrite <- L2. by eapply position_lt.
Qed.

(** The joined table: its columns are those of the first table and the new ones. *)
Definition join_table (t t2 : ValueTable) (ids1 ids2 : list Z) : ValueTable :=
  mkTable (inner_join (schemas t) (schemas t2) (zip ids1 (table t)) (zip ids2 (table t2)))
    (schemas t ++ filter (λ s, s ∉ schemas t) (schemas t2)).

Lemma added_names (s1 s2 : list string) : added s1 s2 s2 = filter (λ s, s ∉ s1) s2.
Proof.
  unfold added. induction s2 as [|s l IH]; [done|].
  cbn [zip zip_with]. rewrite !filter_cons. cbn [fst]. destruct (decide _); cbn [map snd]; by rewrite IH.
Qed.

Lemma take_names (s1 s2 : list string) :
  take_row s2 (map fst (filter (λ e, e.2 ∉ s1) (zip (seq 0 (length s2)) s2))) = Ok (filter (λ s, s ∉ s1) s2).
Proof. rewrite <- added_names. exact (take_row_added s1 s2 [] s2 eq_refl). Qed.

Lemma hjoin_ok B t t2 idx idx_tgt ids1 ids2 :
  rectangular t → rectangular t2 →
  shared_ids B t (idx - 1) ids1 → shared_ids B t2 (idx_tgt - 1) ids2 →
  LessFloatFacts.clustered (ids1 ++ ids2) →
  hjoin t t2 idx idx_tgt = Ok (join_table t t2 ids1 ids2).
Proof.
  intros H1 H2 Hi1 Hi2 Hcl. apply LessFloatFacts.strict_weak_clustered in Hcl as Hsw.
  unfold hjoin. rewrite union_schemas. cbn [rbind]. rewrite take_names. cbn [rbind].
  rewrite (ids_opened _ _ _ _ Hi1), (ids_opened _ _ _ _ Hi2). cbn [rbind].
  destruct (intersection_spec LessFloat.less ids1 ids2 Hsw) as (a & b & -> & _ & Hz). cbn [rbind]. rewrite Hz.
  rewrite (matches_ext _ (position LessFloat.less ids2)).
  - rewrite join_rows_ok by (done || by eapply shared_ids_length). done.
  - intros x Hx. apply (find_position _ _ _ (ids1 ++ ids2) Hsw); [apply elem_of_app; by left|].
    intros y Hy. apply elem_of_app. by right.
Qed.

(** The rows of the joined table have its columns. *)
Lemma join_table_rectangular t t2 ids1 ids2 :
  rectangular t → rectangular t2 → rectangular (join_table t t2 ids1 ids2).
Proof.
  unfold rectangular, join_table, inner_join. cbn [table schemas]. intros H1 H2. apply Forall_forall.
  intros row ([x r] & Hin & Hrow)%list_elem_of_omap.
  destruct (List.find _ _) as [[y r']|] eqn:Hf; [|done]. injection Hrow as <-.
  apply List.find_some in Hf as [Hin' _]. apply list_elem_of_In, elem_of_zip_r in Hin'. apply elem_of_zip_r in Hin.
  rewrite Forall_forall in H1, H2. rewrite !length_app, (H1 _ Hin), <- added_names. f_equal.
  apply added_length; [by apply H2|done].
Qed.
End Hjoin.

(** ** What a vertical join is for: the columns that both tables have, and the rows
    of the second table whose id is new. *)
Section Vjoin.
Context `{DL : DecLaws} `{EI : Env} `{V : !ValidEnv EI}.
#[local] Existing Instance fp_value.

(** A row of the first table cut to the common columns; a row of the second with
    its values of these columns (the first of a name), in the order of the first. *)
Definition cut {A} (s1 s2 : list string) (row : list A) : list A :=
  map snd (filter (λ e, e.1 ∈ s2) (zip s1 row)).
Definition align {A} (s1 s2 : list string) (row : list A) : list A :=
  omap (λ name, snd <$> List.find (λ e, bool_decide (e.1 = name)) (zip s2 row)) s1.
Definition new_rows (ids1 : list Z) (rows2 : list (Z * list (list string))) : list (list (list string)) :=
  map snd (filter (λ e, Forall (λ x, ¬ partner x e) ids1) rows2).

Lemma position_name s2 name : is_Some (position less_string s2 name) ↔ name ∈ s2.
Proof.
  unfold position. rewrite fmap_is_Some. split.
  - intros [[j y] (Hy & He & _)%list_find_Some]. rewrite StringOrder.string_equiv, bool_decide_eq_true in He. subst y.
    by eapply list_elem_of_lookup_2.
  - intros Hin. by eapply list_find_elem_of; [exact Hin|]; rewrite StringOrder.string_equiv, bool_decide_eq_true.
Qed.

Lemma find_name {A} (s2 : list string) (row : list A) name :
  length row = length s2 →
  snd <$> List.find (λ e, bool_decide (e.1 = name)) (zip s2 row) = position less_string s2 name ≫= (row !!.).
Proof.
  revert row. induction s2 as [|s s2 IH]; intros [|c row] Hl; try done. injection Hl as Hl.
  cbn [zip_with List.find fst]. rewrite position_cons, StringOrder.string_equiv.
  destruct (bool_decide (s = name)); [done|]. rewrite (IH row Hl). by destruct (position less_string s2 name).
Qed.

Lemma take_cut {A} s1 s2 (pre row : list A) :
  length row = length s1 →
  take_row (pre ++ row) (map fst (matches (position less_string s2) s1 (length pre))) = Ok (cut s1 s2 row).
Proof.
  unfold take_row, cut. revert pre row. induction s1 as [|s s1 IH]; intros pre [|c row] Hl; try done.
  injection Hl as Hl. specialize (IH (pre ++ [c]) row Hl).
  rewrite length_app, Nat.add_1_r, <- app_assoc in IH. cbn [app] in IH.
  rewrite matches_cons. cbn [zip_with]. rewrite filter_cons. cbn [fst].
  pose proof (position_name s2 s) as Hp. destruct (position less_string s2 s) as [j|].
  - rewrite decide_True by (by apply Hp). cbn [map traverse fst snd]. rewrite at_index_app. cbn [rbind]. by rewrite IH.
  - rewrite decide_False; [exact IH|]. intros Hin%Hp. by destruct Hin.
Qed.

Lemma take_align {A} s1 s2 (row : list A) it :
  length row = length s2 →
  take_row row (map snd (matches (position less_string s2) s1 it)) = Ok (align s1 s2 row).
Proof.
  intros Hl. unfold take_row, align. revert it. induction s1 as [|s s1 IH]; intros it; [done|].
  rewrite matches_cons. cbn [omap list_omap]. rewrite find_name by done.
  destruct (position less_string s2 s) as [j|] eqn:Hp; cbn [mbind option_bind]; [|apply IH].
  destruct (lookup_lt_is_Some_2 row j) as [c Hc].
  { rewrite Hl. unfold position in Hp. destruct (list_find _ s2) as [[k y]|] eqn:Hf; [|done]. injection Hp as <-.
    apply list_find_Some in Hf as (Hy & _). by eapply lookup_lt_Some. }
  cbn [map traverse snd]. unfold at_index at 1. rewrite Hc. cbn [rbind]. by rewrite IH.
Qed.

(** The positions of the common columns in both schemas. *)
Lemma common_schemas s1 s2 : ∃ a b, intersectionValueIndex less_string s1 s2 = Ok (a, b)
  ∧ a = map fst (matches (position less_string s2) s1 0) ∧ b = map snd (matches (position less_string s2) s1 0).
Proof.
  destruct (intersection_spec less_string s1 s2 (string_strict_weak _)) as (a & b & Hi & Hl & Hz).
  rewrite (matches_ext _ (position less_string s2)) in Hz.
  - exists a, b. split; [done|]. rewrite <- Hz. split; symmetry; [apply fst_zip|apply snd_zip]; lia.
  - intros x Hx. apply (find_position _ _ _ (s1 ++ s2) (string_strict_weak _)); [apply elem_of_app; by left|].
    intros y Hy. apply elem_of_app. by right.
Qed.

(** The rows of the second table that no id of the first one takes. *)
Lemma union_rows ids1 ids2 (t2 : ValueTable) (f : list (list string) → list (list string)) s its :
  LessFloatFacts.clustered (ids1 ++ ids2) → length ids2 = length (table t2) →
  (∀ row, row ∈ table t2 → take_row row its = Ok (f row)) → s = length ids1 →
  ∃ js, unionValueIndex less ids1 ids2 = Ok (seq 0 s, js)
    ∧ traverse (λ it, rbind (at_index (table t2) it) (λ row, take_row row its)) js
      = Ok (map f (new_rows ids1 (zip ids2 (table t2)))).
Proof.
  intros Hcl Hl Hf ->. apply LessFloatFacts.strict_weak_clustered in Hcl as Hsw.
  unfold unionValueIndex. rewrite Hsw. eexists. split; [done|]. unfold new_rows.
  assert (∀ y, y ∈ ids2 → find less (emplace_all less [] ids1 0) y = None ↔ Forall (λ x, ¬ (Z.abs (y - x) <=? 1000)%Z) ids1) as Hnone.
  { intros y Hy. rewrite (find_position _ _ _ (ids1 ++ ids2) Hsw);
      [|apply elem_of_app; by right|intros x Hx; apply elem_of_app; by left].
    unfold position. rewrite fmap_None, list_find_None, !Forall_forall. apply forall_proper. intros x.
    rewrite LessFloatFacts.equiv_close, <- Z.abs_opp, Z.opp_sub_distr, Z.add_comm, Z.add_opp_r.
    destruct (Z.abs (y - x) <=? 1000)%Z; split; intros H Hx; specialize (H Hx); cbn in *; first [done|by intros []|by destruct H]. }
  assert (∀ (pre : list (list (list string))) l rows, length l = length rows → (∀ y, y ∈ l → y ∈ ids2) →
    (∀ row, row ∈ rows → row ∈ table t2) → pre ++ rows = table t2 →
    traverse (λ it, rbind (at_index (table t2) it) (λ row, take_row row its))
      (map fst (filter (λ '(it, x), find less (emplace_all less [] ids1 0) x = None) (zip (seq (length pre) (length l)) l)))
    = Ok (map f (map snd (filter (λ e, Forall (λ x, ¬ partner x e) ids1) (zip l rows))))) as H.
  2:{ apply (H [] ids2 (table t2)); auto. }
  intros pre l. revert pre. induction l as [|y l IH]; intros pre [|row rows] Hlen Hin Hrows Hpre; try done.
  injection Hlen as Hlen. cbn [length seq zip_with]. rewrite !filter_cons.
  specialize (IH (pre ++ [row]) rows Hlen). rewrite length_app, Nat.add_1_r, <- app_assoc in IH.
  specialize (IH ltac:(intros; apply Hin; by right) ltac:(intros; apply Hrows; by right) Hpre).
  pose proof (Hnone y (Hin y ltac:(by left))) as Hy.
  change (Forall (λ x, ¬ (Z.abs (y - x) <=? 1000)%Z) ids1) with (Forall (λ x, ¬ partner x (y, row)) ids1) in Hy.
  destruct (decide (find less _ y = None)) as [Hn|Hn].
  - rewrite decide_True by (by apply Hy). cbn [map traverse fst snd].
    rewrite <- Hpre at 1. rewrite at_index_app. cbn [rbind]. rewrite (Hf row) by (apply Hrows; by left).
    cbn [rbind]. by rewrite IH.
  - rewrite decide_False by (by intros H%Hy). exact IH.
Qed.

Lemma vjoin_ok B t t2 idx idx_tgt ids1 ids2 :
  rectangular t → rectangular t2 →
  shared_ids B t (idx - 1) ids1 → shared_ids B t2 (idx_tgt - 1) ids2 →
  LessFloatFacts.clustered (ids1 ++ ids2) →
  vjoin t t2 idx idx_tgt
  = Ok (mkTable (map (cut (schemas t) (schemas t2)) (table t)
                 ++ map (align (schemas t) (schemas t2)) (new_rows ids1 (zip ids2 (table t2))))
          (filter (λ s, s ∈ schemas t2) (schemas t))).
Proof.
  intros H1 H2 Hi1 Hi2 Hcl. unfold rectangular in *. rewrite Forall_forall in H1, H2.
  unfold vjoin. destruct (common_schemas (schemas t) (schemas t2)) as (a & b & -> & -> & ->). cbn [rbind].
  pose proof (take_cut (schemas t) (schemas t2) [] (schemas t) eq_refl) as Ht. cbn [app length] in Ht. rewrite Ht.
  cbn [rbind]. rewrite (ids_opened _ _ _ _ Hi1), (ids_opened _ _ _ _ Hi2). cbn [rbind].
  edestruct (union_rows ids1 ids2 t2 (align (schemas t) (schemas t2)) (length ids1)) as (js & -> & Hjs);
    [done|by eapply shared_ids_length| |done|].
  { intros row Hrow. apply (take_align (schemas t) (schemas t2) row 0). by apply H2. }
  cbn [rbind]. rewrite (traverse_map _ (cut (schemas t) (schemas t2))).
  - cbn [rbind]. rewrite Hjs. cbn [rbind]. do 2 f_equal. unfold cut. clear.
    generalize (schemas t). induction l as [|s l IH]; [done|]. cbn [zip_with]. rewrite !filter_cons. cbn [fst].
    destruct (decide _); cbn [map snd]; by rewrite IH.
  - intros row Hrow. apply (take_cut (schemas t) (schemas t2) [] row). by apply H1.
Qed.
End Vjoin.

(** ** The merge of two sorted columns *)
Section Merge.
Context `{DL : DecLaws} `{EI : Env} `{V : !ValidEnv EI} {TB : Z} `{TL : !TripleLaws TB EI} `{CL : CppIntLaws}.
#[local] Existing Instance fp_value.
#[local] Open Scope Z_scope.
Context (bits : nat) (B : Z).

(** Ids that the comparisons of shares can tell apart. *)
Definition comparable (ids1 ids2 : list Z) : Prop :=
  ∀ x y, x ∈ ids1 → y ∈ ids2 → Z.abs (x - y) ≤ (2 ^ 32 - 2 ^ 16) * FixedPoint.shift.

Definition merged (ids1 ids2 : list Z) (i1 i2 : nat) : list (nat * nat) :=
  matches (λ x, Nat.add i2 <$> position less ids2 x) ids1 i1.

Lemma not_close x y : y ≠ x → (y = x ∨ 1000 < Z.abs (y - x)) → equiv_ less y x = false.
Proof. intros Hne [H|H]; [done|]. rewrite LessFloatFacts.equiv_close. apply Z.leb_gt. lia. Qed.

(** The first elements are equal: they match, and nothing else matches them. *)
Lemma merged_equal x ids1 ids2 i1 i2 :
  (∀ z, z ∈ ids1 → equiv_ less x z = false) →
  merged (x :: ids1) (x :: ids2) i1 i2 = (i1, i2) :: merged ids1 ids2 (S i1) (S i2).
Proof.
  intros Hz. unfold merged. rewrite matches_cons, position_cons, LessFloatFacts.equiv_close, Z.sub_diag.
  change (Nat.add i2 <$> (if Z.abs 0 <=? 1000 then Some 0%nat else S <$> position less ids2 x)) with (Some (i2 + 0)%nat).
  cbv iota. rewrite Nat.add_0_r. f_equal.
  apply matches_ext. intros z Hin. rewrite position_cons, Hz by done.
  destruct (position less ids2 z); cbn; [f_equal; lia|done].
Qed.

(** The first id of the first column has no partner. *)
Lemma merged_skip_left x ids1 ids2 i1 i2 :
  (∀ z, z ∈ ids2 → equiv_ less z x = false) → merged (x :: ids1) ids2 i1 i2 = merged ids1 ids2 (S i1) i2.
Proof.
  intros Hz. unfold merged. rewrite matches_cons. replace (position less ids2 x) with (@None nat); [done|].
  unfold position. symmetry. apply fmap_None, list_find_None, Forall_forall. intros z Hin. by rewrite Hz.
Qed.

(** The first id of the second column has none. *)
Lemma merged_skip_right y ids1 ids2 i1 i2 :
  (∀ z, z ∈ ids1 → equiv_ less y z = false) → merged ids1 (y :: ids2) i1 i2 = merged ids1 ids2 i1 (S i2).
Proof.
  intros Hz. unfold merged. apply matches_ext. intros z Hin. rewrite position_cons, Hz by done.
  destruct (position less ids2 z); cbn; [f_equal; lia|done].
Qed.

Lemma merged_nil ids1 i1 i2 : merged ids1 [] i1 i2 = [].
Proof.
  revert i1. induction ids1 as [|x l IH]; intros i1; [done|]. rewrite merged_skip_left; [apply IH|].
  intros z []%elem_of_nil.
Qed.

Lemma sorted_loop_runs fuel i1 i2 c1 c2 ids1 ids2 w :
  setting TB bits w → 0 ≤ B → 2 ^ 19 * B < wire →
  Forall2 (FShares B) c1 ids1 → Forall2 (FShares B) c2 ids2 →
  StronglySorted Z.lt ids1 → StronglySorted Z.lt ids2 →
  LessFloatFacts.separated (ids1 ++ ids2) → comparable ids1 ids2 → (length c1 + length c2 ≤ fuel)%nat →
  runs (intersectionSorted_loop bits fuel i1 i2 c1 c2) w (λ its _, its = merged ids1 ids2 i1 i2).
Proof.
  intros Hset HB Hw. revert i1 i2 c1 c2 ids1 ids2 w Hset.
  induction fuel as [|fuel IH]; intros i1 i2 c1 c2 ids1 ids2 w Hset Hc1 Hc2 S1 S2 Hsep Hcmp Hf;
    (destruct Hc1 as [|sx x c1 ids1 Hx Hc1]; [by apply runs_ret|]);
    (destruct Hc2 as [|sy y c2 ids2 Hy Hc2]; [apply runs_ret; by rewrite merged_nil|]); [simpl in Hf; lia|].
  assert (∀ a b, a ∈ x :: ids1 → b ∈ y :: ids2 → a = b ∨ 1000 < Z.abs (a - b)) as Hfar
    by (intros a b Ha Hb; apply Hsep; apply elem_of_app; auto).
  pose proof S1 as [S1' F1]%StronglySorted_inv. pose proof S2 as [S2' F2]%StronglySorted_inv.
  rewrite Forall_forall in F1, F2. pose proof (Hfar x y ltac:(by left) ltac:(by left)) as Hxy.
  assert (∀ l1 l2, (∀ z, z ∈ l1 → z ∈ x :: ids1) → (∀ z, z ∈ l2 → z ∈ y :: ids2) →
    LessFloatFacts.separated (l1 ++ l2) ∧ comparable l1 l2) as Hsub.
  { intros l1 l2 H1 H2. split.
    - intros a b Ha Hb. apply Hsep; apply elem_of_app;
        (apply elem_of_app in Ha as [Ha|Ha]; apply elem_of_app in Hb as [Hb|Hb]); auto.
    - intros a b Ha Hb. apply Hcmp; auto. }
  cbn [intersectionSorted_loop].
  eapply runs_bind; [by apply (eq_share_runs bits B sx sy x y w); try done; apply Hcmp; left|].
  cbv beta. intros e w1 (L1 & E1 & E2). apply (setting_later _ _ _ _ Hset) in L1 as Hset1.
  destruct (decide (x = y)) as [<-|Hne].
  - rewrite E1 by lia. eapply runs_bind.
    + apply (IH (S i1) (S i2) c1 c2 ids1 ids2 w1); try done; [apply Hsub; by right..|simpl in Hf; lia].
    + cbv beta. intros its w2 ->. apply runs_ret. rewrite merged_equal; [done|].
      intros z Hz. apply not_close; [pose proof (F1 z Hz); lia|].
      destruct (Hfar z x ltac:(by right) ltac:(by left)); [by left|right; lia].
  - rewrite E2 by lia.
    eapply runs_bind; [by apply (lt_share_runs bits B sx sy x y w1); try done; apply Hcmp; left|].
    cbv beta. intros b w2 (L2 & Hb1 & Hb2). apply (setting_later _ _ _ _ Hset1) in L2 as Hset2.
    destruct (Z.lt_ge_cases x y) as [Hlt|Hge].
    + rewrite Hb2 by lia. rewrite merged_skip_left.
      * apply (IH (S i1) i2 c1 (sy :: c2) ids1 (y :: ids2) w2); try done; [by constructor|apply Hsub; auto; by right..|simpl in *; lia].
      * intros z Hz. assert (x < z) by (apply elem_of_cons in Hz as [->|Hz]; [done|pose proof (F2 z Hz); lia]).
        apply not_close; [lia|]. destruct (Hfar x z ltac:(by left) Hz); [lia|right; lia].
    + rewrite Hb1 by lia. rewrite merged_skip_right.
      * apply (IH i1 (S i2) (sx :: c1) c2 (x :: ids1) ids2 w2); try done; [by constructor|apply Hsub; auto; by right..|simpl in *; lia].
      * intros z Hz. assert (y < z) by (apply elem_of_cons in Hz as [->|Hz]; [lia|pose proof (F1 z Hz); lia]).
        apply not_close; [lia|]. destruct (Hfar z y Hz ltac:(by left)); [lia|right; lia].
Qed.

Lemma hjoinShare_ok t t2 idx idx_tgt ids1 ids2 w :
  rectangular t → rectangular t2 →
  shared_ids B t (idx - 1) ids1 → shared_ids B t2 (idx_tgt - 1) ids2 →
  setting TB bits w → 0 ≤ B → 2 ^ 19 * B < wire →
  StronglySorted Z.lt ids1 → StronglySorted Z.lt ids2 →
  LessFloatFacts.separated (ids1 ++ ids2) → comparable ids1 ids2 →
  runs (hjoinShare bits t t2 idx idx_tgt) w (λ t' _, t' = join_table t t2 ids1 ids2).
Proof.
  intros H1 H2 Hi1 Hi2 Hset HB Hw S1 S2 Hsep Hcmp.
  pose proof (shared_ids_length _ _ _ _ Hi1) as L1. pose proof (shared_ids_length _ _ _ _ Hi2) as L2.
  destruct Hi1 as (c1 & Hc1 & F1 & _), Hi2 as (c2 & Hc2 & F2 & _).
  unfold hjoinShare. rewrite union_schemas.
  eapply runs_bind; [by apply runs_lift_eq|]. intros ? ? [-> ->]. cbv beta iota.
  eapply runs_bind; [apply runs_lift_eq, take_names|]. intros ? ? [-> ->].
  eapply runs_bind; [by apply runs_lift_eq|]. intros ? ? [-> ->].
  eapply runs_bind; [by apply runs_lift_eq|]. intros ? ? [-> ->].
  eapply runs_bind; [by apply (sorted_loop_runs _ 0 0 c1 c2 ids1 ids2)|]. cbv beta. intros its w1 ->.
  eapply runs_bind; [|intros rows w2 Hrows; apply runs_ret; exact Hrows].
  eapply runs_lift; [|reflexivity]. unfold merged.
  rewrite (matches_ext _ (position LessFloat.less ids2)); [by apply join_rows_ok|].
  intros x _. by destruct (position less ids2 x).
Qed.
End Merge.
End JoinFacts.

(** * Theorems *)

(** C22: [hjoin] is the inner join on the opened id columns.  The parties hold shares
    of the ids of two rectangular tables.  When "within 1000 units ([10^-5])" is
    transitive on these ids, as it is for whole numbers, the result is, in this
    order: for each row of the first table whose id has a partner in the second,
    this row extended with the columns that are new in the first partner's row;
    its schema is that of the first table and the new names, and every row has
    its length.  When it is not transitive, [LessFloat] is no order a [std::map]
    may have, and the behaviour is undefined. *)
Theorem hjoin_inner_join `{DL : DecLaws} `{EI : Env} `{V : !ValidEnv EI} B t t2 idx idx_tgt ids1 ids2 :
  JoinFacts.rectangular t → JoinFacts.rectangular t2 →
  JoinFacts.shared_ids B t (idx - 1) ids1 → JoinFacts.shared_ids B t2 (idx_tgt - 1) ids2 →
  let s1 := ValueTable.schemas t in let s2 := ValueTable.schemas t2 in
  let t' := ValueTable.mkTable
    (JoinFacts.inner_join s1 s2 (zip ids1 (ValueTable.table t)) (zip ids2 (ValueTable.table t2)))
    (s1 ++ filter (λ s, s ∉ s1) s2) in
  (LessFloatFacts.clustered (ids1 ++ ids2) →
     ValueTable.hjoin t t2 idx idx_tgt = Ok t' ∧ JoinFacts.rectangular t')
  ∧ (¬ LessFloatFacts.clustered (ids1 ++ ids2) →
     ValueTable.hjoin t t2 idx idx_tgt = Throw (Undefined "std::map comparison")).
Proof.
  intros H1 H2 Hi1 Hi2 s1 s2 t'. split; intros Hcl.
  - split; [by eapply JoinFacts.hjoin_ok|by apply (JoinFacts.join_table_rectangular t t2 ids1 ids2)].
  - unfold ValueTable.hjoin. rewrite JoinFacts.union_schemas, rbind_ok, JoinFacts.take_names, rbind_ok.
    rewrite (JoinFacts.ids_opened _ _ _ _ Hi1), (JoinFacts.ids_opened _ _ _ _ Hi2), !rbind_ok.
    unfold ValueIndex.intersectionValueIndex. rewrite <- LessFloatFacts.strict_weak_clustered in Hcl.
    by apply not_true_is_false in Hcl as ->.
Qed.

(** C37: [hjoinShare], which merges the shared id columns with comparison protocols
    and opens no id, is [hjoin], which opens them: on strictly increasing ids of
    which no two different ones are within 1000 units, and whose differences the
    comparisons can tell ([2^32 - 2^16]), both give the inner join; the merge
    ends and its protocols never reach [std::exit]. *)
Theorem hjoinShare_is_hjoin `{DL : DecLaws} `{EI : Env} `{V : !ValidEnv EI} {TB} {TL : TripleLaws TB EI} `{CL : CppIntLaws}
    bits B t t2 idx idx_tgt ids1 ids2 w :
  JoinFacts.rectangular t → JoinFacts.rectangular t2 →
  JoinFacts.shared_ids B t (idx - 1) ids1 → JoinFacts.shared_ids B t2 (idx_tgt - 1) ids2 →
  setting TB bits w → (0 ≤ B)%Z → (2 ^ 19 * B < wire)%Z →
  StronglySorted Z.lt ids1 → StronglySorted Z.lt ids2 →
  LessFloatFacts.separated (ids1 ++ ids2) → JoinFacts.comparable ids1 ids2 →
  ∃ t' w', ValueTable.hjoinShare bits t t2 idx idx_tgt w = Ok (t', w')
    ∧ ValueTable.hjoin t t2 idx idx_tgt = Ok t'
    ∧ ValueTable.table t' = JoinFacts.inner_join (ValueTable.schemas t) (ValueTable.schemas t2)
        (zip ids1 (ValueTable.table t)) (zip ids2 (ValueTable.table t2)).
Proof.
  intros H1 H2 Hi1 Hi2 Hset HB Hw S1 S2 Hsep Hcmp.
  destruct (JoinFacts.hjoinShare_ok bits B t t2 idx idx_tgt ids1 ids2 w H1 H2 Hi1 Hi2 Hset HB Hw S1 S2 Hsep Hcmp)
    as (t' & w' & Hrun & ->).
  exists (JoinFacts.join_table t t2 ids1 ids2), w'. split_and!; [done| |done].
  by eapply JoinFacts.hjoin_ok, LessFloatFacts.separated_clustered.
Qed.

(** C23: [vjoin] is the union of two tables on their common columns.  Under the same
    conditions on the opened ids as for [hjoin], the result is, in this order,
    every row of the first table cut to the columns whose name the second one
    has, and every row of the second table whose id is not within 1000 units of
    one of the first, with its values of these columns in the order of the first
    table; an id that both have keeps the row of the first.  On other ids the
    order of the [std::set] makes the behaviour undefined. *)
Theorem vjoin_union `{DL : DecLaws} `{EI : Env} `{V : !ValidEnv EI} B t t2 idx idx_tgt ids1 ids2 :
  JoinFacts.rectangular t → JoinFacts.rectangular t2 →
  JoinFacts.shared_ids B t (idx - 1) ids1 → JoinFacts.shared_ids B t2 (idx_tgt - 1) ids2 →
  let s1 := ValueTable.schemas t in let s2 := ValueTable.schemas t2 in
  (LessFloatFacts.clustered (ids1 ++ ids2) →
     ValueTable.vjoin t t2 idx idx_tgt = Ok (ValueTable.mkTable
       (map (JoinFacts.cut s1 s2) (ValueTable.table t)
        ++ map (JoinFacts.align s1 s2) (JoinFacts.new_rows ids1 (zip ids2 (ValueTable.table t2))))
       (filter (λ s, s ∈ s2) s1)))
  ∧ (¬ LessFloatFacts.clustered (ids1 ++ ids2) →
     ValueTable.vjoin t t2 idx idx_tgt = Throw (Undefined "std::set comparison")).
Proof.
  intros H1 H2 Hi1 Hi2 s1 s2. split; intros Hcl; [by eapply JoinFacts.vjoin_ok|].
  unfold ValueTable.vjoin. destruct (JoinFacts.common_schemas s1 s2) as (a & b & Hab & -> & ->).
  fold s1 s2. rewrite Hab, rbind_ok. pose proof (JoinFacts.take_cut s1 s2 [] s1 eq_refl) as Ht. cbn [app length] in Ht.
  rewrite Ht, rbind_ok. rewrite (JoinFacts.ids_opened _ _ _ _ Hi1), (JoinFacts.ids_opened _ _ _ _ Hi2), !rbind_ok.
  unfold ValueIndex.unionValueIndex. rewrite <- LessFloatFacts.strict_weak_clustered in Hcl.
  by apply not_true_is_false in Hcl as ->.
Qed.

(** Two tables at three parties: the ids 1, 2 and 2, 3. *)
Definition demo_left : ValueTable.ValueTable :=
  ValueTable.mkTable [[["1"; "0"; "0"]; ["x"; "x"; "x"]]; [["1"; "1"; "0"]; ["y"; "y"; "y"]]] ["id"; "c"].
Definition demo_right : ValueTable.ValueTable :=
  ValueTable.mkTable [[["0"; "0"; "2"]; ["u"; "u"; "u"]]; [["3"; "0"; "0"]; ["v"; "v"; "v"]]] ["id"; "d"].
Definition demo_joined : ValueTable.ValueTable :=
  ValueTable.mkTable [[["1"; "1"; "0"]; ["y"; "y"; "y"]; ["u"; "u"; "u"]]] ["id"; "c"; "d"].

Lemma demo_ids :
  @JoinFacts.shared_ids rat_dec steady_env (3 * FixedPoint.shift) demo_left 0 [FixedPoint.shift; (2 * FixedPoint.shift)%Z]
  ∧ @JoinFacts.shared_ids rat_dec steady_env (3 * FixedPoint.shift) demo_right 0
      [(2 * FixedPoint.shift)%Z; (3 * FixedPoint.shift)%Z].
Proof.
  split; (eexists; split; [vm_compute; reflexivity|split; [|vm_compute; reflexivity]]);
    (apply Forall2_cons; split; [demo_fshares|apply Forall2_cons; split; [demo_fshares|constructor]]).
Qed.

Lemma demo_separated : LessFloatFacts.separated
  ([FixedPoint.shift; 2 * FixedPoint.shift] ++ [2 * FixedPoint.shift; 3 * FixedPoint.shift])%Z.
Proof.
  intros x y Hx Hy. unfold FixedPoint.shift in *.
  repeat (apply elem_of_cons in Hx as [->|Hx]; [repeat (apply elem_of_cons in Hy as [->|Hy]; [lia|]); by apply elem_of_nil in Hy|]).
  by apply elem_of_nil in Hx.
Qed.

Lemma hjoin_inner_join_witness :
  @ValueTable.hjoin rat_dec steady_env demo_left demo_right 1 1 = Ok demo_joined
  ∧ JoinFacts.rectangular demo_joined.
Proof.
  refine (proj1 (@hjoin_inner_join rat_dec rat_laws steady_env _ (3 * FixedPoint.shift) demo_left demo_right 1 1 _ _
    _ _ (proj1 demo_ids) (proj2 demo_ids)) _).
  - by repeat constructor.
  - by repeat constructor.
  - apply LessFloatFacts.separated_clustered, demo_separated.
Defined.

Lemma hjoinShare_is_hjoin_witness :
  ∃ t' w', @ValueTable.hjoinShare rat_dec steady_env nearest 1 demo_left demo_right 1 1 world0 = Ok (t', w')
    ∧ @ValueTable.hjoin rat_dec steady_env demo_left demo_right 1 1 = Ok t'
    ∧ ValueTable.table t' = ValueTable.table demo_joined.
Proof.
  refine (@hjoinShare_is_hjoin rat_dec rat_laws steady_env _ 36 _ nearest nearest_laws 1 (3 * FixedPoint.shift)
    demo_left demo_right 1 1 _ _ world0 _ _ (proj1 demo_ids) (proj2 demo_ids) steady_setting _ _ _ _ demo_separated _).
  - by repeat constructor.
  - by repeat constructor.
  - vm_compute; discriminate.
  - vm_compute; reflexivity.
  - by repeat constructor.
  - by repeat constructor.
  - intros x y Hx Hy. unfold FixedPoint.shift in *. set_solver by lia.
Defined.

Lemma vjoin_union_witness :
  @ValueTable.vjoin rat_dec steady_env demo_left demo_right 1 1
  = Ok (ValueTable.mkTable [[["1"; "0"; "0"]]; [["1"; "1"; "0"]]; [["3"; "0"; "0"]]] ["id"]).
Proof.
  refine (proj1 (@vjoin_union rat_dec rat_laws steady_env _ (3 * FixedPoint.shift) demo_left demo_right 1 1 _ _
    _ _ (proj1 demo_ids) (proj2 demo_ids)) _).
  - by repeat constructor.
  - by repeat constructor.
  - apply LessFloatFacts.separated_clustered, demo_separated.
Defined.
