(* ===== verification/DbGate.v ===== *)
(** * The database gateway
    (Client/AnyToDb/N1QL.cpp, Client/AnyToDb/Client.cpp,
     Client/ComputationToDbGate/Client.cpp)

    [N1QL] builds the query strings and the document keys, [AnyToDb] runs a
    query and puts the streamed pieces of the answer together, [DbGate] is the
    client the jobs use.  The clock, the remote calls and the JSON library are
    parameters. *)
From stdpp Require Import base list numbers sorting strings.
From Stdlib Require Import ZArith Lia Ascii DecimalString.
From S2P Require Import Prelude FixedPoint TripleHandler Share ShareFP Double FixedCompare Json ValueTable.
#[local] Open Scope string_scope.
#[local] Open Scope qmpc_scope.

Module N1QL.

(** The characters that need care. *)
Definition dquote : ascii := ascii_of_nat 34.
Definition squote : ascii := ascii_of_nat 39.
Definition bquote : ascii := ascii_of_nat 96.
Definition dq : string := String dquote EmptyString.

(** [std::regex_replace] of a one-character literal pattern. *)
Fixpoint regex_replace (target : string) (c : ascii) (by_ : string) : string :=
  match target with
  | EmptyString => EmptyString
  | String a s => if Ascii.eqb a c then by_ ++ regex_replace s c by_
                  else String a (regex_replace s c by_)
  end.

Inductive n1ql_param_type := N1QL_SELECT_PARAM | N1QL_WHERE_PARAM.

Definition double (c : ascii) : string := String c (String c EmptyString).

Definition escape_injection (target : string) (param_type : n1ql_param_type) : string :=
  match param_type with
  | N1QL_SELECT_PARAM => regex_replace target bquote (String bquote EmptyString)
  | N1QL_WHERE_PARAM =>
      regex_replace (regex_replace target squote (double squote)) dquote (double dquote)
  end.

(** [N1QLValue]. *)
Record N1QLValue := mkValue { value : string; key : string }.
Definition toValueSetString (v : N1QLValue) : string :=
  "(" ++ dq ++ key v ++ dq ++ "," ++ value v ++ ")".

(** [N1QLClause]; the bucket name goes between back quotes. *)
Section Clause.
Context (bucket : string).

Definition clause_insert (value : string) : string :=
  "INSERT INTO `" ++ bucket ++ "` (KEY, VALUE) VALUES " ++ value.
Definition clause_update (path expr : string) : string :=
  "UPDATE `" ++ bucket ++ "` x SET x." ++ path ++ " = " ++ expr ++ " ".
Definition clause_select : string := "SELECT x.*, meta().id FROM `" ++ bucket ++ "` x ".
Definition delete_f : string := "DELETE FROM `" ++ bucket ++ "` x ".
Definition where_ (key data : string) : string :=
  "WHERE x." ++ escape_injection key N1QL_WHERE_PARAM ++ " = " ++ dq
  ++ escape_injection data N1QL_WHERE_PARAM ++ dq ++ " ".
Definition returning : string := "RETURNING x.*, meta().id ".
Definition limit (lim : Z) : string := "LIMIT " ++ TripleHandler.to_string lim ++ " ".

(** [N1QL]: the statements. *)
Definition insert (data : N1QLValue) : string := clause_insert (toValueSetString data) ++ returning.

Fixpoint bulk_values (datas : list N1QLValue) : string :=
  match datas with
  | [] => EmptyString
  | [d] => toValueSetString d
  | d :: datas => toValueSetString d ++ "," ++ bulk_values datas
  end.
Definition bulkinsert (datas : list N1QLValue) : string :=
  clause_insert (bulk_values datas) ++ returning.

Definition update (cond path_expr : string * string) : string :=
  clause_update (fst path_expr) (snd path_expr) ++ where_ (fst cond) (snd cond) ++ returning.
Definition select : string := clause_select.
Definition select_id (id_name id : string) : string := clause_select ++ where_ id_name id.
Definition delete_id (id_name id : string) : string := delete_f ++ where_ id_name id ++ returning.
Definition delete_order (amount : Z) : string := delete_f ++ limit amount ++ returning.
End Clause.

(** ** Document keys

    [clock k] is what the [k]-th reading of the system clock returns, in
    nanoseconds since the epoch. *)
Section Cas.
Local Open Scope Z_scope.
Context (clock : nat → Z).

(** Readings so far, the logical counter, the last key. *)
Record State := mkState { ticks : nat; counter : Z; precas : Z }.

Definition getTimeStamp (s : State) : Z * State :=
  (clock (ticks s) mod 2 ^ 64, mkState (S (ticks s)) (counter s) (precas s)).

(** A [uint16_t] that wraps around. *)
Definition getLogicalCounter (s : State) : Z * State :=
  (counter s, mkState (ticks s) ((counter s + 1) mod 2 ^ 16) (precas s)).

Definition MASK : Z := 0xffffffffffff0000.

Definition createCas (s : State) : Z * State :=
  let '(timestamp, s) := getTimeStamp s in
  let '(logicalcounter, s) := getLogicalCounter s in
  (Z.lor (Z.land MASK timestamp) logicalcounter, s).

Fixpoint getCas_loop (fuel : nat) (cas : Z) (s : State) : result (Z * State) :=
  if negb (precas s =? 0) && (cas <? precas s) then
    match fuel with
    | O => Throw OutOfFuel
    | S fuel => let '(cas, s) := createCas s in getCas_loop fuel cas s
    end
  else Ok (cas, mkState (ticks s) (counter s) cas).

Definition getCas (fuel : nat) (s : State) : result (Z * State) :=
  let '(cas, s) := createCas s in getCas_loop fuel cas s.

(** The keys of [n] documents, one after the other. *)
Fixpoint keys (fuel n : nat) (s : State) : result (list Z * State) :=
  match n with
  | O => Ok ([], s)
  | S n => let! '(cas, s) := getCas fuel s in
           let! '(rest, s) := keys fuel n s in
           Ok (cas :: rest, s)
  end.

(** [N1QLValue(value)], with its default key. *)
Definition newValue (fuel : nat) (value : string) (s : State) : result (N1QLValue * State) :=
  let! '(cas, s) := getCas fuel s in
  Ok (mkValue value (TripleHandler.to_string cas), s).
End Cas.
End N1QL.

(** ** Running a query *)
Module AnyToDb.

(** How a call ends: what [executeQuery] distinguishes of [grpc::Status]. *)
Inductive Status := OK | UNAVAILABLE | OtherError.

Section Client.
(** What the calls of this query return, in order: the messages read from the
    stream, each a piece id and a piece, and the final status; and whether the
    channel connects within the half second of each [WaitForConnected]. *)
Context (call : nat → list (Z * string) * Status) (connects : nat → bool).

Record State := mkState { calls : nat; waits : nat }.

Definition RECONNECT_LIMIT : nat := 6.

(** [reconnect]: [cnt] failures so far. *)
Fixpoint reconnect_loop (left_ : nat) (s : State) : result State :=
  match left_ with
  | O => Throw (RuntimeError "connect DB time out !")
  | S left_ =>
      let s' := mkState (calls s) (S (waits s)) in
      if connects (waits s) then Ok s' else reconnect_loop left_ s'
  end.
Definition reconnect : State → result State := reconnect_loop RECONNECT_LIMIT.

(** [std::map<int, V>::emplace]: keeps the value a key already has; the map is
    the list of its bindings in the order of the keys. *)
Fixpoint emplace {V} (k : Z) (v : V) (m : list (Z * V)) : list (Z * V) :=
  match m with
  | [] => [(k, v)]
  | (k', v') :: m' =>
      if (k <? k')%Z then (k, v) :: m
      else if (k =? k')%Z then m
      else (k', v') :: emplace k v m'
  end.
Definition emplace_all {V} (l : list (Z * V)) : list (Z * V) :=
  fold_left (λ m kv, emplace (fst kv) (snd kv) m) l [].

Definition append_all (l : list string) : string := fold_left String.append l EmptyString.

(** [executeQuery]: on [UNAVAILABLE] reconnect and start over. *)
Fixpoint executeQuery (fuel : nat) (s : State) : result (string * State) :=
  match fuel with
  | O => Throw OutOfFuel
  | S fuel =>
      let '(stream, status) := call (calls s) in
      let s := mkState (S (calls s)) (waits s) in
      match status with
      | OK => Ok (append_all (map snd (emplace_all stream)), s)
      | UNAVAILABLE => let! s := reconnect s in executeQuery fuel s
      | OtherError => Throw (RuntimeError "DBClientError : To DbGate Execute Query Failed")
      end
  end.
End Client.
End AnyToDb.

(** ** The client of the jobs *)
Module DbGate.
Import ValueTable.
Section Client.
Context `{DF : DecFloat} `{EI : Env} `{CI : CppInt}.

(** A document of the [share] bucket: its part of the table. *)
Record Document := mkDocument { piece_id : Z; value : list (list (list string)); schema : list string }.

(** [client_share.executeQuery] followed by the JSON parser, for each query.
    The answer is what all parties read, cell by cell. *)
Context (query : string → result (list Document)).

(** [response_json[0]] of an empty array is null, which is no schema. *)
Definition readShare (data_id : string) : result ValueTable :=
  let! response := query (N1QL.select_id "share" "data_id" data_id) in
  let pieces := AnyToDb.emplace_all (map (λ d, (piece_id d, value d)) response) in
  match response with
  | [] => Throw (JsonError "type must be array, but is null")
  | d :: _ => Ok (mkTable (concat (map snd pieces)) (schema d))
  end.

(** [readTable] of a [JoinOrder]; [bits] is the fuel of the share comparisons. *)
Definition readTable (bits : nat) (dataids : list string) (join index : list Z) : M ValueTable :=
  let* tables := lift (traverse readShare dataids) in
  parseRead bits tables join index.
End Client.

(** The statements that write; [dump] is the JSON library's [dump()] of the
    object with the two members [job_uuid] and [status]. *)
Section Writes.
Context (dump : string → Z → string).

Definition registerJob (clock : nat → Z) (fuel : nat) (job_uuid : string) (status : Z)
    (s : N1QL.State) : result (string * N1QL.State) :=
  let data_str := dump job_uuid status in
  let! '(values, s) := N1QL.newValue clock fuel data_str s in
  Ok (N1QL.insert "result" values, s).

Definition updateJobStatus (job_uuid : string) (status : Z) : string :=
  N1QL.update "result" ("job_uuid", job_uuid) ("status", TripleHandler.to_string status).

Definition writeComputationResult (job_uuid data_str : string) : string :=
  N1QL.update "result" ("job_uuid", job_uuid) ("result", data_str).

Definition readModelparamQuery (job_uuid : string) : string :=
  N1QL.select_id "result" "job_uuid" job_uuid.
End Writes.

(** The reads of a model's parameters; the query is followed by the JSON parser,
    which gives the array of the answer.  [operator[]] of a value that may be
    changed adds null where nothing is, and null has no elements. *)
Section Models.
Context `{JL : JsonLib} (query_json : string → result json) (null : json).

Definition readModelparamJson (job_uuid : string) : result json :=
  let! response_json := query_json (readModelparamQuery job_uuid) in
  match elements response_json with
  | [] => Ok null
  | first :: _ => if contains first "result" then at_key first "result" else Ok null
  end.

Definition readModelparam (job_uuid : string) : result (list string) :=
  let! result := readModelparamJson job_uuid in
  traverse get_string (elements result).
End Models.
End DbGate.

(** * Lemmas *)

Module N1QLFacts.
Import N1QL.
#[local] Arguments Ascii.eqb : simpl never.
#[local] Arguments String.append : simpl nomatch.
Local Open Scope Z_scope.

(** Quotes only ever in adjacent pairs. *)
Fixpoint paired (c : ascii) (s : string) : bool :=
  match s with
  | EmptyString => true
  | String a s =>
      if Ascii.eqb a c
      then match s with
           | String b s => Ascii.eqb b c && paired c s
           | EmptyString => false
           end
      else paired c s
  end.

Lemma paired_double c s : paired c (regex_replace s c (double c)) = true.
Proof.
  induction s as [|a s IH]; [done|]. cbn [regex_replace].
  destruct (Ascii.eqb_spec a c) as [->|Hne].
  - cbn. by rewrite Ascii.eqb_refl.
  - cbn. by destruct (Ascii.eqb_spec a c).
Qed.

(** Doubling another character leaves the pairs alone. *)
Lemma paired_other c d s :
  c ≠ d → paired c s = true → paired c (regex_replace s d (double d)) = true.
Proof.
  intros Hcd. remember (String.length s) as n eqn:Hn. revert s Hn.
  induction n as [n IH] using lt_wf_ind; intros s Hn Hs.
  destruct s as [|a s]; [done|]. cbn [regex_replace paired] in *.
  destruct (Ascii.eqb_spec a d) as [->|Had].
  - destruct (Ascii.eqb_spec d c); [congruence|]. cbn.
    rewrite !(proj2 (Ascii.eqb_neq d c)) by congruence.
    eapply IH; [|reflexivity|done]. subst n. cbn. lia.
  - cbn [paired]. destruct (Ascii.eqb_spec a c) as [->|Hac].
    + destruct s as [|b s]; [done|]. apply andb_true_iff in Hs as [Hb Hs].
      apply Ascii.eqb_eq in Hb as ->. cbn [regex_replace].
      rewrite (proj2 (Ascii.eqb_neq c d)) by done. rewrite Ascii.eqb_refl. cbn [andb].
      eapply IH; [|reflexivity|done]. subst n. cbn. lia.
    + eapply IH; [|reflexivity|done]. subst n. cbn. lia.
Qed.

Lemma double_inj c s s' :
  regex_replace s c (double c) = regex_replace s' c (double c) → s = s'.
Proof.
  revert s'; induction s as [|a s IH]; intros [|b s']; cbn [regex_replace double String.append]; try done.
  - destruct (Ascii.eqb b c); discriminate.
  - destruct (Ascii.eqb a c); discriminate.
  - destruct (Ascii.eqb_spec a c) as [->|Ha], (Ascii.eqb_spec b c) as [->|Hb]; cbn; intros [= ];
      try congruence; f_equal; try done; by apply IH.
Qed.

Lemma escape_inj s s' :
  escape_injection s N1QL_WHERE_PARAM = escape_injection s' N1QL_WHERE_PARAM → s = s'.
Proof. cbn. by intros ?%double_inj%double_inj. Qed.

Lemma append_cancel_l a s s' : a ++ s = a ++ s' → s = s'.
Proof. induction a as [|c a IH]; [done|]. cbn. intros [= H]. by apply IH. Qed.

Lemma append_length a s : String.length (a ++ s) = (String.length a + String.length s)%nat.
Proof. induction a as [|c a IH]; [done|]. cbn. by rewrite IH. Qed.

Lemma append_cancel_r a s s' : s ++ a = s' ++ a → s = s'.
Proof.
  revert s'; induction s as [|c s IH]; intros [|d s'] H; cbn in H; [done| | |].
  - apply (f_equal String.length) in H. cbn in H. rewrite append_length in H. lia.
  - apply (f_equal String.length) in H. cbn in H. rewrite append_length in H. lia.
  - injection H as -> H. f_equal. by apply IH.
Qed.

(** Without a quote there is nothing to do. *)
Fixpoint contains (c : ascii) (s : string) : bool :=
  match s with EmptyString => false | String a s => Ascii.eqb a c || contains c s end.

Lemma replace_none c by_ s : contains c s = false → regex_replace s c by_ = s.
Proof.
  induction s as [|a s IH]; [done|]. cbn. intros [Ha Hs]%orb_false_iff.
  by rewrite Ha, IH.
Qed.

(** *** Document keys *)
Section Cas.
Context (clock : nat → Z).

Lemma mask_shift ts : 0 ≤ ts < 2 ^ 64 → Z.land MASK ts = Z.shiftl (Z.shiftr ts 16) 16.
Proof.
  intros Hts. change MASK with (Z.shiftl (Z.ones 48) 16). apply Z.bits_inj'. intros n Hn.
  rewrite Z.land_spec, !Z.shiftl_spec by done. destruct (Z.ltb_spec n 16).
  - by rewrite (Z.testbit_neg_r (Z.ones 48)), (Z.testbit_neg_r (Z.shiftr ts 16)) by lia.
  - rewrite Z.shiftr_spec by lia. replace (n - 16 + 16) with n by lia.
    destruct (Z.ltb_spec n 64).
    + by rewrite Z.ones_spec_low by lia.
    + rewrite <- (Z.mod_small ts (2 ^ 64)) by done. by rewrite Z.mod_pow2_bits_high, andb_false_r by lia.
Qed.

Lemma cas_bits ts c :
  0 ≤ ts < 2 ^ 64 → 0 ≤ c < 2 ^ 16 →
  let cas := Z.lor (Z.land MASK ts) c in
  0 ≤ cas ∧ cas mod 2 ^ 16 = c ∧ cas = 2 ^ 16 * (ts / 2 ^ 16) + c.
Proof.
  intros Hts Hc cas.
  assert (cas = 2 ^ 16 * (ts / 2 ^ 16) + c) as Hcas.
  { unfold cas. rewrite mask_shift by done.
    assert (Z.land (Z.shiftl (Z.shiftr ts 16) 16) c = 0) as H0.
    { apply Z.bits_inj'. intros n Hn. rewrite Z.land_spec, Z.shiftl_spec, Z.bits_0 by done.
      destruct (Z.ltb_spec n 16); [by rewrite Z.testbit_neg_r by lia|].
      rewrite <- (Z.mod_small c (2 ^ 16)) by done. by rewrite Z.mod_pow2_bits_high, andb_false_r by lia. }
    rewrite <- Z.lxor_lor, <- Z.add_nocarry_lxor by done.
    rewrite Z.shiftl_mul_pow2, Z.shiftr_div_pow2 by lia. ring. }
  pose proof (Z.div_pos ts (2 ^ 16) ltac:(lia) ltac:(lia)).
  split_and!; [lia| |done]. rewrite Hcas, Z.add_comm, Z.mul_comm, Z.mod_add by lia.
  by apply Z.mod_small.
Qed.

(** The state between calls: the counter has counted the readings. *)
Definition counted (c0 : Z) (t0 : nat) (s : State) : Prop :=
  (t0 ≤ ticks s)%nat ∧ counter s = (c0 + Z.of_nat (ticks s - t0)) mod 2 ^ 16 ∧ 0 ≤ precas s.

Lemma createCas_spec c0 t0 s cas s' :
  counted c0 t0 s → createCas clock s = (cas, s') →
  ticks s' = S (ticks s) ∧ counted c0 t0 s' ∧ precas s' = precas s ∧ 0 ≤ cas
  ∧ cas mod 2 ^ 16 = (c0 + Z.of_nat (ticks s - t0)) mod 2 ^ 16
  ∧ 2 ^ 16 * (clock (ticks s) mod 2 ^ 64 / 2 ^ 16) ≤ cas.
Proof.
  intros (Ht & Hc & Hp) [= <- <-]. cbn [ticks precas].
  destruct (cas_bits (clock (ticks s) mod 2 ^ 64) (counter s)) as (H1 & H2 & H3).
  { by apply Z.mod_pos_bound. } { rewrite Hc. by apply Z.mod_pos_bound. }
  split_and!; [done| |done|done|by rewrite H2|].
  - split_and!; cbn; [lia| |done]. rewrite Hc, Zplus_mod_idemp_l.
    f_equal. lia.
  - rewrite H3. pose proof (Z.mod_pos_bound (c0 + Z.of_nat (ticks s - t0)) (2 ^ 16) ltac:(lia)). lia.
Qed.

(** A key was made at some reading, and the counter then is its low half. *)
Definition made_at (c0 : Z) (t0 : nat) (cas : Z) (t : nat) : Prop :=
  (t0 ≤ t)%nat ∧ cas mod 2 ^ 16 = (c0 + Z.of_nat (t - t0)) mod 2 ^ 16.

Lemma getCas_loop_spec c0 t0 fuel cas t s cas' s' :
  counted c0 t0 s → made_at c0 t0 cas t → (t < ticks s)%nat → 0 ≤ cas →
  getCas_loop clock fuel cas s = Ok (cas', s') →
  counted c0 t0 s' ∧ precas s' = cas' ∧ precas s ≤ cas' ∧ (ticks s ≤ ticks s')%nat
  ∧ ∃ t', (t ≤ t' < ticks s')%nat ∧ made_at c0 t0 cas' t'.
Proof.
  revert cas t s; induction fuel as [|fuel IH]; intros cas t s Hs Hm Ht H0; cbn [getCas_loop];
    destruct (negb (precas s =? 0) && (cas <? precas s)) eqn:E; try discriminate.
  2: destruct (createCas clock s) as [cas1 s1] eqn:E1; intros H.
  2: { destruct (createCas_spec c0 t0 s cas1 s1 Hs E1) as (Ht1 & Hc1 & Hp1 & H1 & Hb1 & _).
       destruct (IH cas1 (ticks s) s1) as (G1 & G2 & G3 & G4 & t' & G5 & G6); try done.
       - split; [apply Hs|done].
       - lia.
       - rewrite Hp1 in G3. split_and!; try done; [lia|]. exists t'. split; [lia|done]. }
  all: intros [= <- <-]; destruct Hs as (Hs1 & Hs2 & Hs3); split_and!; cbn; try done;
    try (by split_and!); try (exists t; split; [lia|done]).
  all: apply andb_false_iff in E as [E|E]; [apply negb_false_iff, Z.eqb_eq in E; lia|lia].
Qed.

Lemma getCas_spec c0 t0 fuel s cas s' :
  counted c0 t0 s → getCas clock fuel s = Ok (cas, s') →
  counted c0 t0 s' ∧ precas s' = cas ∧ precas s ≤ cas
  ∧ ∃ t, (ticks s ≤ t < ticks s')%nat ∧ made_at c0 t0 cas t.
Proof.
  intros Hs. unfold getCas. destruct (createCas clock s) as [cas1 s1] eqn:E1. intros H.
  destruct (createCas_spec c0 t0 s cas1 s1 Hs E1) as (Ht1 & Hc1 & Hp1 & H1 & Hb1 & _).
  destruct (getCas_loop_spec c0 t0 fuel cas1 (ticks s) s1 cas s') as (G1 & G2 & G3 & G4 & t' & G5 & G6);
    try done; [split; [apply Hs|done]|lia|].
  rewrite Hp1 in G3. split_and!; try done. exists t'. split; [lia|done].
Qed.

(** Enough fuel: the clock passes the last key within the readings allowed. *)
Lemma getCas_loop_total c0 t0 fuel k cas s :
  counted c0 t0 s → (k < fuel)%nat →
  precas s ≤ 2 ^ 16 * (clock (ticks s + k)%nat mod 2 ^ 64 / 2 ^ 16) →
  ∃ r, getCas_loop clock fuel cas s = Ok r.
Proof.
  revert k cas s; induction fuel as [|fuel IH]; intros k cas s Hs Hk Hc; [lia|]. cbn [getCas_loop].
  destruct (_ && _); [|eauto].
  destruct (createCas clock s) as [cas1 s1] eqn:E1.
  destruct (createCas_spec c0 t0 s cas1 s1 Hs E1) as (Ht1 & Hc1 & Hp1 & H1 & Hb1 & Hge).
  destruct k as [|k].
  - rewrite Nat.add_0_r in Hc. destruct fuel; cbn [getCas_loop];
      rewrite (proj2 (Z.ltb_ge cas1 (precas s1))), andb_false_r by lia; eauto.
  - apply (IH k); [done|lia|]. rewrite Hp1, Ht1. by replace (S (ticks s) + k)%nat with (ticks s + S k)%nat by lia.
Qed.

Lemma keys_spec c0 t0 fuel n s l s' :
  counted c0 t0 s → keys clock fuel n s = Ok (l, s') →
  counted c0 t0 s' ∧ length l = n ∧ Sorted Z.le (precas s :: l) ∧ (ticks s ≤ ticks s')%nat
  ∧ (∀ cas, cas ∈ l → ∃ t, (ticks s ≤ t < ticks s')%nat ∧ made_at c0 t0 cas t)
  ∧ ((ticks s' - ticks s ≤ Z.to_nat (2 ^ 16))%nat → NoDup l).
Proof.
  revert s l; induction n as [|n IH]; intros s l Hs; cbn [keys].
  - intros [= <- <-]. split_and!; [done|done|by repeat constructor|lia| |constructor].
    intros cas Hc. by apply elem_of_nil in Hc.
  - intros ([cas s1] & H1 & ([rest s2] & H2 & [= <- <-])%rbind_Ok_inv)%rbind_Ok_inv.
    destruct (getCas_spec c0 t0 fuel s cas s1 Hs H1) as (C1 & P1 & L1 & t & T1 & M1).
    destruct (IH s1 rest C1 H2) as (C2 & Hl & Hso & Ht & Hm & Hnd).
    rewrite P1 in Hso. split_and!; [done|by cbn; rewrite Hl|by constructor; [|constructor]|lia| |].
    + intros c [->|Hc]%elem_of_cons; [exists t; split; [lia|done]|].
      destruct (Hm c Hc) as (t' & ? & ?). exists t'. split; [lia|done].
    + intros Hb. constructor; [|apply Hnd; lia]. intros Hin.
      destruct (Hm cas Hin) as (t' & Ht' & M2 & M3). destruct M1 as [M0 M1].
      rewrite M1 in M3.
      assert ((Z.of_nat (t' - t0) - Z.of_nat (t - t0)) mod 2 ^ 16 = 0) as H0.
      { replace (Z.of_nat (t' - t0) - Z.of_nat (t - t0))
          with ((c0 + Z.of_nat (t' - t0)) - (c0 + Z.of_nat (t - t0))) by lia.
        by rewrite Zminus_mod, M3, Z.sub_diag. }
      rewrite Z.mod_small in H0 by lia. lia.
Qed.
End Cas.
End N1QLFacts.

Module AnyToDbFacts.
Import AnyToDb.
Section Pieces.
Context {V : Type}.

(** In the order of the piece ids. *)
Definition before (a b : Z * V) : Prop := (fst a < fst b)%Z.

#[local] Instance before_antisymm : AntiSymm (=) before.
Proof. intros [a x] [b y] H1 H2. unfold before in *. cbn in *. lia. Qed.
#[local] Instance before_trans : Transitive before.
Proof. intros [a x] [b y] [c z] H1 H2. unfold before in *. cbn in *. lia. Qed.

Lemma emplace_new k (v : V) m :
  StronglySorted before m → Forall (λ kv, fst kv ≠ k) m →
  StronglySorted before (emplace k v m) ∧ emplace k v m ≡ₚ (k, v) :: m.
Proof.
  intros Hs. induction Hs as [|[k' v'] m Hm IH Hall]; intros Hk; cbn [emplace].
  - split; [repeat constructor|done].
  - apply Forall_cons in Hk as [Hk' Hk]. cbn in Hk'.
    destruct (Z.ltb_spec k k') as [Hlt|Hge].
    + split; [|done]. constructor; [by constructor|]. constructor; [done|].
      eapply Forall_impl; [exact Hall|]. intros [k2 v2] H. unfold before in *. cbn in *. lia.
    + rewrite (proj2 (Z.eqb_neq k k')) by done. destruct (IH Hk) as [H1 H2]. split.
      * constructor; [done|]. rewrite H2. constructor; [unfold before; cbn; lia|done].
      * rewrite H2. apply perm_swap.
Qed.

Lemma fold_emplace l m :
  StronglySorted before m → NoDup (map fst (l ++ m)) →
  let r := fold_left (λ m kv, emplace (fst kv) (snd kv) m) l m in
  StronglySorted before r ∧ r ≡ₚ l ++ m.
Proof.
  revert m; induction l as [|[k v] l IH]; intros m Hm Hd; cbn [fold_left fst snd]; [done|].
  cbn [map app fst] in Hd. apply NoDup_cons in Hd as [Hk Hd].
  destruct (emplace_new k v m Hm) as [H1 H2].
  - apply Forall_forall. intros kv Hin Hkv. apply Hk. rewrite map_app. apply elem_of_app; right.
    rewrite <- Hkv. by apply (list_elem_of_fmap_2 fst).
  - assert (l ++ emplace k v m ≡ₚ (k, v) :: l ++ m) as Hp by (rewrite H2; by rewrite Permutation_middle).
    destruct (IH (emplace k v m) H1) as [H3 H4].
    + eapply NoDup_Permutation_proper; [apply (fmap_Permutation fst), Hp|]. by apply NoDup_cons.
    + split; [done|]. by rewrite H4.
Qed.

(** The map holds the pieces in order, whatever the order of arrival. *)
Lemma emplace_all_sorted (stream pieces : list (Z * V)) :
  stream ≡ₚ pieces → StronglySorted before pieces → emplace_all stream = pieces.
Proof.
  intros Hp Hs. unfold emplace_all.
  assert (NoDup (map fst pieces)) as Hd.
  { clear Hp stream. induction Hs as [|[k v] l Hl IH Hall]; cbn; [constructor|].
    constructor; [|done]. intros (kv & Hk & Hin)%list_elem_of_fmap.
    rewrite Forall_forall in Hall. specialize (Hall kv Hin). unfold before in Hall. cbn in *. lia. }
  destruct (fold_emplace stream [] (SSorted_nil _)) as [H1 H2].
  - rewrite app_nil_r. eapply NoDup_Permutation_proper; [apply (fmap_Permutation fst), Hp|done].
  - rewrite app_nil_r in H2. eapply (StronglySorted_unique before); [done|done|].
    by etrans; [exact H2|].
Qed.
End Pieces.

Section Client.
Context (call : nat → list (Z * string) * Status) (connects : nat → bool).

Lemma reconnect_loop_ok n d s :
  connects (waits s + d) = true → d < n →
  ∃ s', reconnect_loop connects n s = Ok s' ∧ calls s' = calls s.
Proof.
  revert d s; induction n as [|n IH]; intros d s Hd Hn; [lia|]. cbn [reconnect_loop].
  destruct (connects (waits s)) eqn:E; [by eexists|].
  destruct d as [|d]; [rewrite Nat.add_0_r in Hd; congruence|].
  destruct (IH d (mkState (calls s) (S (waits s)))) as (s' & H1 & H2); [|lia|by exists s'].
  cbn. by replace (S (waits s + d)) with (waits s + S d) by lia.
Qed.

Lemma reconnect_loop_fails n s :
  (∀ d, d < n → connects (waits s + d) = false) →
  reconnect_loop connects n s = Throw (RuntimeError "connect DB time out !").
Proof.
  revert s; induction n as [|n IH]; intros s Hd; [done|]. cbn [reconnect_loop].
  pose proof (Hd 0 ltac:(lia)) as H0. rewrite Nat.add_0_r in H0. rewrite H0. apply IH.
  intros d Hlt. cbn. specialize (Hd (S d) ltac:(lia)). by replace (S (waits s + d)) with (waits s + S d) by lia.
Qed.

(** After [j] calls that found the gateway unavailable. *)
Lemma executeQuery_retries j fuel s :
  (∀ k, k < j → snd (call (calls s + k)) = UNAVAILABLE) →
  (∀ n, ∃ d, d < RECONNECT_LIMIT ∧ connects (n + d) = true) →
  ∃ s', executeQuery call connects (j + fuel) s = executeQuery call connects fuel s'
    ∧ calls s' = calls s + j.
Proof.
  intros Hj Hc. revert s Hj; induction j as [|j IH]; intros s Hj; [exists s; split; [done|lia]|].
  cbn [executeQuery Nat.add]. pose proof (Hj 0 ltac:(lia)) as H0. rewrite Nat.add_0_r in H0.
  destruct (call (calls s)) as [stream st]. cbn in H0. subst st.
  destruct (Hc (waits s)) as (d & Hd & Hcd).
  destruct (reconnect_loop_ok RECONNECT_LIMIT d (mkState (S (calls s)) (waits s)) Hcd Hd) as (s1 & E1 & E2).
  unfold reconnect. rewrite E1, rbind_ok. destruct (IH s1) as (s' & H1 & H2).
  - intros k Hk. rewrite E2. cbn. specialize (Hj (S k) ltac:(lia)). by replace (S (calls s + k)) with (calls s + S k) by lia.
  - exists s'. split; [done|]. rewrite H2, E2. cbn. lia.
Qed.
End Client.
End AnyToDbFacts.

(** *** Parameters of models *)

Lemma traverse_get_string `{JL : JsonLib, !JsonLaws JL} l : traverse get_string (map j_string l) = Ok l.
Proof. induction l as [|s l IH]; [done|]. cbn. by rewrite get_string_of, IH. Qed.

(** A document whose result is an array of strings is read back as these. *)
Lemma readModelparam_strings `{JL : JsonLib, !JsonLaws JL} query_json null job_uuid kvs rest l :
  query_json (DbGate.readModelparamQuery job_uuid) = Ok (j_array (j_object kvs :: rest)) →
  NoDup kvs.*1 → ("result", j_array (map j_string l)) ∈ kvs →
  DbGate.readModelparam query_json null job_uuid = Ok l.
Proof.
  intros Hq Hnd Hin. unfold DbGate.readModelparam, DbGate.readModelparamJson. rewrite Hq. cbn [rbind].
  rewrite elements_of, contains_of, bool_decide_eq_true_2 by exact (list_elem_of_fmap_2 fst kvs _ Hin).
  rewrite (at_key_of kvs _ _ Hnd Hin). cbn [rbind]. by rewrite elements_of, traverse_get_string.
Qed.

(** * Properties *)

Import N1QL AnyToDb AnyToDbFacts.

(** The parameters of a [WHERE] clause are escaped so that both kinds of
    quotes occur in them in adjacent pairs only, text without quotes is not
    changed, and two different ids never give the same query. *)
Theorem where_escaped bucket id_name id id' :
  let e := escape_injection id N1QL_WHERE_PARAM in
  N1QLFacts.paired dquote e = true ∧ N1QLFacts.paired squote e = true
  ∧ (N1QLFacts.contains dquote id = false → N1QLFacts.contains squote id = false → e = id)
  ∧ (select_id bucket id_name id = select_id bucket id_name id' → id = id').
Proof.
  intros e. split_and!.
  - apply N1QLFacts.paired_double.
  - apply N1QLFacts.paired_other; [done|]. apply N1QLFacts.paired_double.
  - intros Hd Hs. unfold e. cbn. by rewrite !N1QLFacts.replace_none; rewrite ?N1QLFacts.replace_none.
  - unfold select_id, where_. intros H%N1QLFacts.append_cancel_l.
    do 4 apply N1QLFacts.append_cancel_l in H.
    apply N1QLFacts.append_cancel_r in H. by apply N1QLFacts.escape_inj in H.
Qed.

(** Document keys: whenever the clock, within the readings allowed, has
    passed the last key's time window, [getCas] returns; the keys of a sequence
    of documents never decrease, and they are distinct as long as they took at
    most 2^16 readings of the clock, also when the clock runs backwards. *)
Theorem cas_keys_unique clock fuel n s l s' :
  (0 ≤ counter s < 2 ^ 16)%Z → (0 ≤ precas s)%Z →
  ((∃ k, k < fuel ∧ (precas s ≤ 2 ^ 16 * (clock (S (ticks s) + k)%nat mod 2 ^ 64 / 2 ^ 16))%Z) →
   ∃ r, getCas clock fuel s = Ok r)
  ∧ (keys clock fuel n s = Ok (l, s') →
     length l = n ∧ Sorted Z.le (precas s :: l)
     ∧ ((ticks s' - ticks s ≤ Z.to_nat (2 ^ 16))%nat → NoDup l)).
Proof.
  intros Hc Hp.
  assert (N1QLFacts.counted (counter s) (ticks s) s) as Hs.
  { split_and!; [done| |done]. by rewrite Nat.sub_diag, Z.add_0_r, Z.mod_small. }
  split.
  - intros (k & Hk & Hle). unfold getCas. destruct (createCas clock s) as [cas s1] eqn:E.
    destruct (N1QLFacts.createCas_spec clock _ _ _ _ _ Hs E) as (Ht & Hc1 & Hp1 & _).
    apply (N1QLFacts.getCas_loop_total clock (counter s) (ticks s) fuel k); [done|done|].
    by rewrite Hp1, Ht.
  - intros H. destruct (N1QLFacts.keys_spec clock _ _ _ _ _ _ _ Hs H) as (_ & H1 & H2 & _ & _ & H3).
    done.
Qed.

Lemma cas_keys_unique_witness :
  let l := [196608%Z; 196609%Z; 262146%Z] in
  length l = 3 ∧ Sorted Z.le (0%Z :: l) ∧ ((3 - 0 ≤ Z.to_nat (2 ^ 16))%nat → NoDup l).
Proof.
  intros l.
  apply (cas_keys_unique (λ k, (200000 + 40000 * Z.of_nat k)%Z) 1 3 (N1QL.mkState 0 0 0) l
    (N1QL.mkState 3 3 262146)); [split; vm_compute; (reflexivity || discriminate)|vm_compute; discriminate|reflexivity].
Defined.

(** [executeQuery] puts the pieces of an answer together in the order of
    their ids whatever the order in which they arrive, also after calls that
    found the gateway unavailable as long as each reconnection succeeds within
    its six attempts; when six attempts fail, or the call fails otherwise, it
    throws. *)
Theorem query_reassembles call connects j fuel s stream pieces :
  (∀ k, k < j → snd (call (calls s + k)) = UNAVAILABLE) →
  (∀ n, ∃ d, d < RECONNECT_LIMIT ∧ connects (n + d) = true) →
  stream ≡ₚ pieces → StronglySorted before pieces →
  (call (calls s + j) = (stream, OK) →
   ∃ s', executeQuery call connects (j + S fuel) s = Ok (append_all (map snd pieces), s'))
  ∧ (snd (call (calls s + j)) = OtherError →
     executeQuery call connects (j + S fuel) s
     = Throw (RuntimeError "DBClientError : To DbGate Execute Query Failed"))
  ∧ (∀ connects' s, snd (call (calls s)) = UNAVAILABLE →
     (∀ d, d < RECONNECT_LIMIT → connects' (waits s + d) = false) →
     executeQuery call connects' (S fuel) s = Throw (RuntimeError "connect DB time out !")).
Proof.
  intros Hj Hc Hp Hs. destruct (executeQuery_retries call connects j (S fuel) s Hj Hc) as (s1 & -> & E1).
  cbn [executeQuery]. rewrite E1. split_and!.
  - intros ->. eexists. by rewrite (emplace_all_sorted stream pieces).
  - destruct (call _) as [st status]. cbn. by intros ->.
  - intros connects' s2 H2 Hd. cbn [executeQuery]. destruct (call (calls s2)) as [st status].
    cbn in H2. subst status. unfold reconnect. by rewrite (reconnect_loop_fails connects' 6).
Qed.

Lemma query_reassembles_witness :
  ∃ s', executeQuery (λ k, if Nat.eqb k 0 then ([], UNAVAILABLE) else ([(2%Z, "b"); (1%Z, "a")], OK))
    (λ n, Nat.odd n) 2 (mkState 0 0) = Ok ("ab", s').
Proof.
  apply (query_reassembles _ _ 1 0 (mkState 0 0) [(2%Z, "b"); (1%Z, "a")] [(1%Z, "a"); (2%Z, "b")]).
  - intros k Hk. by replace k with 0 by lia.
  - intros n. destruct (Nat.odd n) eqn:E; [exists 0|exists 1]; unfold RECONNECT_LIMIT; (split; [lia|]).
    + by rewrite Nat.add_0_r.
    + rewrite Nat.add_comm. cbn [Nat.add]. rewrite Nat.odd_succ, <- Nat.negb_odd. by rewrite E.
  - apply perm_swap.
  - repeat constructor.
  - reflexivity.
Defined.

(** [readShare] rebuilds a table from its documents in any order: the rows
    come in the order of the piece ids and the column names are the table's; no
    document at all is an error. *)
Theorem readShare_reassembles query data_id response pieces schemas :
  query (select_id "share" "data_id" data_id) = Ok response →
  map (λ d, (DbGate.piece_id d, DbGate.value d)) response ≡ₚ pieces → StronglySorted before pieces →
  Forall (λ d, DbGate.schema d = schemas) response →
  DbGate.readShare query data_id
  = if decide (response = []) then Throw (JsonError "type must be array, but is null")
    else Ok (ValueTable.mkTable (concat (map snd pieces)) schemas).
Proof.
  intros Hq Hp Hs Hsch. unfold DbGate.readShare. rewrite Hq, rbind_ok.
  rewrite (emplace_all_sorted _ pieces) by done.
  destruct response as [|d response]; [done|]. apply Forall_cons in Hsch as [-> _]. by rewrite decide_False.
Qed.

Lemma readShare_reassembles_witness :
  DbGate.readShare (λ _, Ok [DbGate.mkDocument 2 [[["3"]]] ["x"]; DbGate.mkDocument 1 [[["1"]]; [["2"]]] ["x"]]) "d"
  = Ok (ValueTable.mkTable [[["1"]]; [["2"]]; [["3"]]] ["x"]).
Proof.
  apply (readShare_reassembles
    (λ _, Ok [DbGate.mkDocument 2 [[["3"]]] ["x"]; DbGate.mkDocument 1 [[["1"]]; [["2"]]] ["x"]]) "d"
    [DbGate.mkDocument 2 [[["3"]]] ["x"]; DbGate.mkDocument 1 [[["1"]]; [["2"]]] ["x"]]
    [(1%Z, [[["1"]]; [["2"]]]); (2%Z, [[["3"]]])] ["x"]); [reflexivity|apply perm_swap|repeat constructor|repeat constructor].
Defined.
