(* ===== verification/Deployment.v ===== *)
(** * A job at all parties  (Job/JobBase.hpp, Job/Jobs/JoinTableJob.hpp, Job/Jobs/MathJob.hpp)

    [JobBase::run] of [Jobs.v] is the run at one party; the protocols of the
    other files compute on the local values of all parties.  Here the two meet:
    every party reads its own table of strings, the local tables are assembled to
    a table of sharings, the job computes on it, and every party writes the
    strings of its own local values.  [JoinTableJob::compute], which only drops
    columns of the local table, is here as well. *)
From stdpp Require Import base list numbers sets strings.
From Stdlib Require Import ZArith Lia.
From S2P Require Import Prelude FixedPoint Random TripleHandler Share SharePF ShareFP FixedInverse Json Columns TransactionQueue Jobs ValueTable.
#[local] Open Scope Z_scope.
#[local] Open Scope qmpc_scope.

(** ** [JobBase::toString], at one party *)
Module JobStrings.
Section Strings.
Context `{DF : DecFloat}.
Definition toString (values : list Z) : list string := map FixedPoint.getStrVal values.
Definition toString_table (values : list (list Z)) : list (list string) := map toString values.
Definition toString_json `{JL : JsonLib} (values : json) : json := values.
End Strings.
End JobStrings.

(** ** [JoinTableJob::compute], at one party *)
Module JoinJob.
Section Join.
Context `{DF : DecFloat} `{JL : JsonLib}.
Definition compute (table : list (list Z)) (schemas : list string) (arg : list (list Z)) : result json :=
  let table_string := map (map FixedPoint.getStrVal) table in
  match arg with
  | [] => Throw (Undefined "arg[0]")
  | arg0 :: _ =>
      let! '(remove_id_table, remove_id_schema) := JoinTableJob.removeIdColumn table_string schemas arg0 in
      Ok (j_object [field "table" (j_array (map (λ row, j_array (map j_string row)) remove_id_table));
                    field "schema" (j_array (map j_string remove_id_schema))])
  end.
End Join.
End JoinJob.

(** ** The parties of a job *)
Module Deployment.
Section Deployment.
Context `{DF : DecFloat} `{E : Env}.
#[local] Existing Instance fp_value.
(** How an exception of the code reaches the handlers of [run]. *)
Context (raise_of : exn → raised).

Definition lift_result {A} (r : result A) : raised + A :=
  match r with Ok a => inr a | Throw e => inl (raise_of e) end.

(** [share_table[i][j] = values[i][j]]: [Share] of the string, at one party. *)
Definition to_share (c : string) : raised + Z := lift_result (FixedPoint.of_string c).

(** The sharings that the parties' local tables make up. *)
Definition assemble (locals : list (list (list Z))) : list (list sharing) :=
  match locals with
  | [] => []
  | t0 :: _ => map (λ i, map (λ j, map (λ t, nth j (nth i t []) 0) locals)
                           (seq 0 (length (nth i t0 [])))) (seq 0 (length t0))
  end.

(** [compute] of a job at party [p], which holds [table]: its part of the joint
    run from [w] on, the others holding [others]. *)
Definition compute_at (job : list (list sharing) → list string → list (list Z) → M (list sharing)) (w : World)
    (others : nat → list (list Z)) (p : nat) (table : list (list Z)) (schemas : list string)
    (arg : list (list Z)) : raised + list Z :=
  match job (assemble (map (λ q, if (q =? p)%nat then table else others q) parties)) schemas arg w with
  | Ok (ys, _) => inr (column p ys)
  | Throw e => inl (raise_of e)
  end.

(** The job constructed and run at party [p]; [inputs p] is the joined table its
    gateway has. *)
Definition run_at (db : nat → JobStatus.DbCall (list string) → option raised)
    (inputs : nat → list (list string) * list string)
    (job : list (list sharing) → list string → list (list Z) → M (list sharing)) (w : World)
    (others : nat → list (list Z)) (u : string) (src target : list Z) (p : nat) :=
  JobBase.construct_and_run (db p) (inputs p) to_share (compute_at job w others p) JobStrings.toString u src target
    JobStatus.unstarted.

(** The function [JobSelector] constructs a [MathJob] with, and its [compute]. *)
Definition statistic (job : JobSelector.Job) : option (list sharing → M sharing) :=
  match job with
  | JobSelector.MeanJob => Some (λ v, lift (Math.smean v))
  | JobSelector.VarianceJob => Some Math.variance
  | JobSelector.SumJob => Some (λ v, ret (Math.sum v))
  | _ => None
  end.
Definition math_job (f : list sharing → M sharing) (table : list (list sharing)) (schemas : list string)
    (arg : list (list Z)) : M (list sharing) :=
  match arg with
  | [] => throw (Undefined "arg[0]")
  | arg0 :: _ => MathJob.compute f table arg0
  end.

(** The numbers a client gets from the strings of all parties. *)
Definition recover (written : list (list string)) : result (list Z) :=
  let! locals := traverse (traverse FixedPoint.of_string) written in
  Ok (match locals with
      | [] => []
      | l0 :: _ => map (λ k, Zsum (map (λ l, nth k l 0) locals)) (seq 0 (length l0))
      end).
End Deployment.
End Deployment.

(** * Lemmas *)

Module DeploymentFacts.
Import Deployment.
Section Facts.
Context `{DL : DecLaws} `{E : Env} `{V : !ValidEnv E} (raise_of : exn → raised).
#[local] Existing Instance fp_value.
Import FixedPoint.

Lemma parties_pos : (0 < n_parties)%nat.
Proof. pose proof sp_valid. lia. Qed.

(** Every party completes and writes its part of the result. *)
Lemma runs_everywhere db inputs (T : nat → list (list Z)) schemas job w u src target P :
  (∀ p c, db p c = None) →
  (∀ p, p ∈ parties → JobFacts.wide (fst (inputs p)) ∧ snd (inputs p) = schemas
     ∧ JobFacts.to_table (to_share raise_of) (fst (inputs p)) = inr (T p)) →
  runs (job (assemble (map T parties)) schemas [src; target]) w P →
  ∃ ys w', P ys w' ∧ ∀ p, p ∈ parties →
    ∃ s', run_at raise_of db inputs job w T u src target p = Ok (inr 5, s')
      ∧ JobFacts.writes (JobStatus.calls s') = [(u, JobStrings.toString (column p ys))].
Proof.
  intros Hdb Hin (ys & w' & Hrun & HP). exists ys, w'. split; [done|]. intros p Hp.
  destruct (Hin p Hp) as (Hw & Hs & Ht).
  destruct (JobFacts.construct_and_run_spec (db p) (inputs p) (to_share raise_of) (compute_at raise_of job w T p)
    JobStrings.toString u src target) as (s0 & _ & Hp0 & Hjob). rewrite (Hdb p) in Hjob.
  destruct (JobFacts.body_ended (db p) (inputs p) (to_share raise_of) (compute_at raise_of job w T p)
    JobStrings.toString u s0 [src; target] Hp0 Hw) as (r & s' & Hb & He & Hc).
  assert (JobFacts.outcome (inputs p) (to_share raise_of) (compute_at raise_of job w T p) [src; target]
    = inr (column p ys)) as Ho.
  { unfold JobFacts.outcome, compute_at. rewrite Ht, Hs.
    assert (map (λ q, if (q =? p)%nat then T p else T q) parties = map T parties) as ->.
    { apply map_ext. intros q. by destruct (Nat.eqb_spec q p) as [->|]. }
    by rewrite Hrun. }
  specialize (Hc (Hdb p) _ Ho). subst r. destruct He as (k & ws & Hk & (Hm & _ & Hws) & Hres & Hr).
  destruct (Hr eq_refl) as [-> Hne]. exists s'. unfold run_at. rewrite Hjob. unfold JobBase.run. rewrite Hb. cbn [rbind].
  rewrite Hm. split; [done|]. rewrite Hws. destruct Hres as [?|(_ & res & Hres & ->)]; [done|].
  rewrite Ho in Hres. by injection Hres as <-.
Qed.

Lemma traverse_toString C l : Forall (λ x, Z.abs x ≤ C) l → C < wire →
  traverse of_string (JobStrings.toString l) = Ok l.
Proof.
  intros Hl HC. induction Hl as [|x l Hx _ IH]; [done|]. cbn [JobStrings.toString map traverse].
  unfold JobStrings.toString in IH. rewrite dec_wire by lia. by rewrite IH.
Qed.

Lemma column_bound C p ys vs : Forall2 (FShares C) ys vs → p ∈ parties → Forall (λ x, Z.abs x ≤ C) (column p ys).
Proof.
  intros H Hp. unfold column. apply Forall_map. induction H as [|y v ys vs (Hl & Hb & _) _ IH]; [constructor|].
  constructor; [|exact IH]. rewrite Forall_forall in Hb. apply Hb. apply list_elem_of_In, nth_In.
  unfold parties in Hp. apply elem_of_seq in Hp. lia.
Qed.

Lemma sum_over_parties (y : sharing) :
  length y = n_parties → Zsum (map (λ p, nth (p - 1) y 0) parties) = Zsum y.
Proof.
  intros Hl. f_equal. unfold parties. rewrite <- Hl. rewrite <- seq_shift, map_map.
  apply (nth_ext _ _ 0 0); rewrite length_map, length_seq; [done|]. intros i Hi.
  rewrite (nth_indep _ 0 (nth (S 0 - 1) y 0)) by (by rewrite length_map, length_seq).
  rewrite map_nth with (f := λ x, nth (S x - 1) y 0). rewrite seq_nth by done. f_equal. lia.
Qed.

(** The strings of all parties add up to the secrets of the result. *)
Lemma recover_result C ys vs :
  Forall2 (FShares C) ys vs → C < wire → (0 < n_parties)%nat →
  recover (map (λ p, JobStrings.toString (column p ys)) parties) = Ok vs.
Proof.
  intros Hv HC Hn. unfold recover.
  assert (traverse (traverse of_string) (map (λ p, JobStrings.toString (column p ys)) parties)
    = Ok (map (λ p, column p ys) parties)) as ->.
  { assert (∀ l, (∀ p, p ∈ l → p ∈ parties) →
      traverse (traverse of_string) (map (λ p, JobStrings.toString (column p ys)) l) = Ok (map (λ p, column p ys) l)) as H;
      [|by apply H].
    induction l as [|p l IH]; intros Hl; [done|]. cbn [map traverse].
    rewrite (traverse_toString C) by (done || (eapply column_bound; [done|apply Hl; by left])). cbn [rbind].
    rewrite IH by (intros q Hq; apply Hl; by right). done. }
  rewrite rbind_ok. f_equal. unfold parties at 1. destruct n_parties as [|m] eqn:En; [lia|]. cbn [seq map].
  set (l0 := column 1 ys). assert (length l0 = length ys) as Hl0 by (unfold l0, column; by rewrite length_map).
  rewrite Hl0. change (l0 :: map (λ p, column p ys) (seq 2 m)) with (map (λ p, column p ys) (seq 1 (S m))).
  apply (nth_ext _ _ 0 0).
  - rewrite length_map, length_seq. by eapply Forall2_length.
  - rewrite length_map, length_seq. intros k Hk.
    destruct (lookup_lt_is_Some_2 ys k Hk) as [y Hy].
    destruct (Forall2_lookup_l _ _ _ _ _ Hv Hy) as (v & Hvk & (Hly & _ & Hsum)).
    rewrite (nth_lookup_Some _ _ _ _ Hvk).
    rewrite (nth_lookup_Some _ _ _ (Zsum (map (λ l, nth k l 0) (map (λ p, column p ys) parties))))
      by (rewrite list_lookup_fmap, lookup_seq_lt by done; done).
    rewrite <- Hsum, <- (sum_over_parties y Hly), map_map. f_equal. apply map_ext. intros p.
    unfold column. apply nth_lookup_Some. by rewrite list_lookup_fmap, Hy.
Qed.

(** The columns a job picks share the columns of the secrets. *)
Lemma columns_selected B table secrets src cols :
  Forall2 (Forall2 (FShares B)) table secrets →
  traverse (λ c, traverse (λ row, vec_at row (c - 1)) secrets) src = Ok cols →
  ∃ sel, traverse (MathJob.col table) src = Ok sel ∧ Forall2 (Forall2 (FShares B)) sel cols
    ∧ Forall (λ c : list sharing, length c = length table) sel.
Proof.
  intros Ht Hcols.
  assert (ok_rel (Forall2 (Forall2 (FShares B))) (traverse (MathJob.col table) src) (Ok cols)) as Hrel.
  { rewrite <- Hcols. apply traverse_rel_same. intros c. unfold MathJob.col.
    apply (traverse_rel _ (Forall2 (FShares B))); [done|]. intros row k Hrow. by apply vec_at_rel. }
  apply ok_rel_Ok_r in Hrel as (sel & Hsel & Hs). exists sel. split_and!; [done|done|].
  clear Hcols Hs. revert sel Hsel. induction src as [|c l IH]; intros sel.
  - intros [= <-]. constructor.
  - cbn [traverse]. intros (x & Hx & (xs & Hxs & [= <-])%rbind_Ok_inv)%rbind_Ok_inv.
    constructor; [|by apply IH]. by apply traverse_length in Hx.
Qed.

(** A job that computes one statistic on a table of sharings. *)
Lemma math_job_runs f B C (Q : list Z → Z → Prop) table secrets schemas src target cols w :
  (∀ v vs w, Forall2 (FShares B) v vs → length v = length table →
     runs (f v) w (λ y _, FShares C y (Zsum y) ∧ Q vs (Zsum y))) →
  Forall2 (Forall2 (FShares B)) table secrets → table ≠ [] →
  traverse (λ c, traverse (λ row, vec_at row (c - 1)) secrets) src = Ok cols →
  runs (math_job f table schemas [src; target]) w
    (λ ys _, Forall2 (λ y col, FShares C y (Zsum y) ∧ Q col (Zsum y)) ys cols).
Proof.
  intros Hf Ht Hne Hcols. destruct (columns_selected B table secrets src cols Ht Hcols) as (sel & Hsel & Hs & Hlen).
  unfold math_job, MathJob.compute. destruct table as [|row0 table]; [done|].
  set (tb := row0 :: table) in *. fold tb.
  eapply runs_bind; [by apply runs_lift_eq|]. intros ? ? [-> ->]. clear Hsel Hcols. clearbody tb. revert w.
  induction Hs as [|c col sel cols Hc _ IH]; intros w; cbn [mmap].
  - apply runs_ret. constructor.
  - apply Forall_cons in Hlen as [Hlc Hlen]. eapply runs_bind; [by apply Hf|]. intros y w1 Hy.
    eapply runs_bind; [apply IH, Hlen|]. intros ys w2 Hys. apply runs_ret. by constructor.
Qed.

Context {TB : Z} `{TL : !TripleLaws TB E}.

(** What the opened result [r] of a statistic says of its column. *)
Definition approximates (job : JobSelector.Job) (col : list Z) (r : Z) : Prop :=
  let rows := Z.of_nat (length col) in
  match job with
  | JobSelector.MeanJob => Z.abs (rows * r - Zsum col) ≤ Z.of_nat n_parties * rows
  | JobSelector.VarianceJob => ∃ mean, Z.abs (rows * mean - Zsum col) ≤ Z.of_nat n_parties * rows
      ∧ Z.abs (shift * rows * r - deviations col mean) ≤ (Z.of_nat n_parties + 1) * rows * shift
  | JobSelector.SumJob => r = Zsum col
  | _ => False
  end.

(** The size of the parties' values of a result, for [rows] values of size [B]. *)
Definition result_size (rows B : Z) : Z := rows * mul_bound TB (B + (rows * B + 1)) + (rows * B + 1).

Lemma statistic_runs job f B v vs w :
  statistic job = Some f → Forall2 (FShares B) v vs → v ≠ [] → 0 ≤ B → Z.of_nat (length v) < 2 ^ 31 →
  let rows := Z.of_nat (length v) in
  opened TB (B + (rows * B + 1)) < wire → result_size rows B < wire →
  runs (f v) w (λ y _, FShares (result_size rows B) y (Zsum y) ∧ approximates job vs (Zsum y)).
Proof.
  intros Hf Hv Hne HB Hl rows Ho Hs. pose proof (Forall2_length _ _ _ Hv) as Hlen.
  assert (0 ≤ mul_bound TB (B + (rows * B + 1))) as Hmb by (apply FixedInverse.mul_bound_nonneg; unfold rows; nia).
  assert (0 ≤ rows) as Hrows by (unfold rows; lia).
  unfold result_size in *. destruct job; try discriminate; injection Hf as <-; unfold approximates; rewrite <- ?Hlen; fold rows.
  - destruct (smean_fp B v vs Hv Hne HB Hl) as (x & Hx & Hxs & Hxe); [fold rows; nia|].
    eapply runs_lift; [exact Hx|]. split; [|exact Hxe]. eapply FShares_weaken; [exact Hxs|]. fold rows. nia.
  - destruct (smean_fp B v vs Hv Hne HB Hl) as (x & Hx & _ & Hxe); [fold rows; nia|].
    destruct (variance_fp B v vs w Hv Hne HB Hl) as (avg & Havg & Hrun); [exact Ho|fold rows; nia|fold rows; nia|].
    rewrite Hx in Havg. injection Havg as <-. eapply runs_mono; [exact Hrun|]. cbv beta. fold rows.
    intros y _ [Hy Hye]. split; [eapply FShares_weaken; [exact Hy|nia]|]. by exists (Zsum x).
  - apply runs_ret. pose proof (FShares_sum B v vs s_zero 0 0 Hv FShares_zero) as Hsum. fold rows in Hsum.
    unfold Math.sum. rewrite (proj2 (proj2 Hsum)). rewrite Z.add_0_l in *. split; [|done].
    eapply FShares_weaken; [exact Hsum|]. nia.
Qed.

(** A statistics job on a shared table: the sizes of its shares, and what they share. *)
Lemma statistics_run job f B table secrets schemas src target cols w :
  statistic job = Some f → Forall2 (Forall2 (FShares B)) table secrets → table ≠ [] → 0 ≤ B →
  let rows := Z.of_nat (length table) in
  rows < 2 ^ 31 → opened TB (B + (rows * B + 1)) < wire → result_size rows B < wire →
  traverse (λ c, traverse (λ row, vec_at row (c - 1)) secrets) src = Ok cols →
  runs (math_job f table schemas [src; target]) w
    (λ ys _, Forall2 (FShares (result_size rows B)) ys (map Zsum ys) ∧ Forall2 (approximates job) cols (map Zsum ys)).
Proof.
  intros Hst Ht Hne HB rows Hr Ho Hw Hcols. set (C := result_size rows B) in *.
  assert (∀ v vs w, Forall2 (FShares B) v vs → length v = length table →
    runs (f v) w (λ y _, FShares C y (Zsum y) ∧ approximates job vs (Zsum y))) as Hf.
  { intros v vs w0 Hv Hlen. pose proof (statistic_runs job f B v vs w0 Hst Hv) as Hgoal.
    rewrite Hlen in Hgoal. apply Hgoal; try done. intros ->. by destruct table. }
  eapply runs_mono; [exact (math_job_runs f B C _ table secrets schemas src target cols w Hf Ht Hne Hcols)|].
  intros ys w1 Hys. change (Forall2 (λ y col, FShares C y (Zsum y) ∧ approximates job col (Zsum y)) ys cols) in Hys.
  clearbody C. clear -Hys. induction Hys as [|y col ys cols [Hy Ha] _ [IH1 IH2]]; split; by constructor.
Qed.

Lemma rows_wire rows B : result_size rows B < wire → 0 ≤ B → 0 ≤ rows → rows * B < wire.
Proof.
  unfold result_size. intros Hw HB Hr.
  assert (0 ≤ mul_bound TB (B + (rows * B + 1))) by (apply FixedInverse.mul_bound_nonneg; nia). nia.
Qed.
End Facts.
End DeploymentFacts.

(** ** The columns a join job keeps *)
Module JoinJobFacts.
Import Deployment JoinTableJob.

Definition kept (m : Z) (n : nat) : list nat :=
  filter (λ i, negb (i =? 0)%nat && negb (Z.of_nat i =? m) = true) (seq 0 n).

Lemma keep_nth {A} (d : A) m row : keep m row = map (λ i, nth i row d) (kept m (length row)).
Proof.
  unfold keep, kept.
  assert (∀ k, omap (λ '(i, x), if negb (i =? 0)%nat && negb (Z.of_nat i =? m) then Some x else None)
      (zip (seq k (length row)) row)
    = map (λ i, nth (i - k) row d)
        (filter (λ i, negb (i =? 0)%nat && negb (Z.of_nat i =? m) = true) (seq k (length row)))) as H.
  { induction row as [|x row IH]; intros k; [done|]. cbn [length seq zip zip_with omap list_omap].
    rewrite filter_cons. specialize (IH (S k)).
    assert (∀ l, (∀ i, i ∈ l → (k < i)%nat) → map (λ i, nth (i - k) (x :: row) d) l = map (λ i, nth (i - S k) row d) l) as Hsh.
    { induction l as [|i l IHl]; intros Hl; [done|]. cbn [map]. rewrite IHl by (intros j Hj; apply Hl; by right).
      f_equal. pose proof (Hl i ltac:(by left)). replace (i - k)%nat with (S (i - S k)) by lia. done. }
    assert (∀ i, i ∈ filter (λ i, negb (i =? 0)%nat && negb (Z.of_nat i =? m) = true) (seq (S k) (length row)) → (k < i)%nat) as Hin.
    { intros i [_ Hi]%list_elem_of_filter. apply elem_of_seq in Hi. lia. }
    destruct (negb (k =? 0)%nat && negb (Z.of_nat k =? m)); cbn [omap list_omap].
    - rewrite decide_True by done. cbn [map]. rewrite Nat.sub_diag, Hsh by done. cbn [nth]. f_equal. exact IH.
    - rewrite decide_False by done. rewrite Hsh by done. exact IH. }
  rewrite H. apply map_ext. intros i. by rewrite Nat.sub_0_r.
Qed.

Lemma keep_map {A B} (f : A → B) m row : keep m (map f row) = map f (keep m row).
Proof.
  destruct row as [|x row]; [done|]. rewrite (keep_nth (f x)), (keep_nth x), length_map, map_map.
  apply map_ext. intros i. apply map_nth.
Qed.

Lemma kept_lt m w c : c ∈ kept m w → (c < w)%nat.
Proof. intros [_ Hc%elem_of_seq]%list_elem_of_filter. lia. Qed.

Lemma keep_Forall2 {A B} (P : A → B → Prop) m row k : Forall2 P row k → Forall2 P (keep m row) (keep m k).
Proof.
  intros H. destruct H as [|x y row k Hx H]; [constructor|].
  assert (Forall2 P (x :: row) (y :: k)) as Hall by by constructor.
  rewrite (keep_nth x), (keep_nth y), <- (Forall2_length _ _ _ Hall).
  apply Forall2_fmap, Forall_Forall2_diag, Forall_forall. intros i Hi%kept_lt.
  destruct (lookup_lt_is_Some_2 (x :: row) i Hi) as [u Hu].
  destruct (Forall2_lookup_l _ _ _ _ _ Hall Hu) as (v & Hv & Huv).
  by rewrite (nth_lookup_Some _ _ _ _ Hu), (nth_lookup_Some _ _ _ _ Hv).
Qed.

(** What is left of a row without the first column and without column [c] (columns
    are counted from one, and there may be no such column). *)
Definition without_columns {A} (c : Z) (row : list A) : list A :=
  tail (if decide (2 ≤ c) then delete (Z.to_nat (c - 1)) row else row).

Lemma keep_tail {A} (m : Z) (k : nat) (row : list A) : (0 < k)%nat →
  omap (λ '(i, x), if negb (i =? 0)%nat && negb (Z.of_nat i =? m) then Some x else None)
    (zip (seq k (length row)) row)
  = if decide (Z.of_nat k ≤ m) then delete (Z.to_nat (m - Z.of_nat k)) row else row.
Proof.
  revert k. induction row as [|x row IH]; intros k Hk; [by destruct (decide _)|].
  cbn [length seq zip zip_with omap list_omap]. specialize (IH (S k) ltac:(lia)).
  rewrite (proj2 (Nat.eqb_neq k 0)) by lia. cbn [negb andb].
  destruct (Z.eqb_spec (Z.of_nat k) m) as [<-|Hne]; cbn [negb].
  - rewrite decide_True, Z.sub_diag by lia. cbn [Z.to_nat delete list_delete].
    rewrite decide_False in IH by lia. exact IH.
  - destruct (decide (Z.of_nat k ≤ m)) as [Hle|Hle].
    + rewrite decide_True in IH by lia.
      replace (Z.to_nat (m - Z.of_nat k)) with (S (Z.to_nat (m - Z.of_nat (S k)))) by lia.
      cbn [delete list_delete]. f_equal. exact IH.
    + rewrite decide_False in IH by lia. f_equal. exact IH.
Qed.

(** The comparison of a [size_t] with the column number less one, which wraps
    round below zero. *)
Lemma keep_without {A} (c : Z) (row : list A) :
  - 2 ^ 31 ≤ c < 2 ^ 31 → Z.of_nat (length row) < 2 ^ 63 → keep ((c - 1) mod 2 ^ 64) row = without_columns c row.
Proof.
  intros Hc Hl. unfold keep, without_columns. destruct row as [|x row]; [by destruct (decide _)|].
  cbn [length seq zip zip_with omap list_omap Nat.eqb negb andb]. rewrite keep_tail by lia.
  cbn [length] in Hl. destruct (decide (2 ≤ c)) as [H2|H2].
  - rewrite Z.mod_small by lia. rewrite decide_True by lia.
    replace (Z.to_nat (c - 1)) with (S (Z.to_nat (c - 1 - Z.of_nat 1))) by lia. done.
  - destruct (decide (c = 1)) as [->|]; [by rewrite decide_False|].
    assert ((c - 1) mod 2 ^ 64 = c - 1 + 2 ^ 64) as -> by (symmetry; apply (Z.mod_unique _ _ (-1)); lia).
    rewrite decide_True by lia. rewrite delete_take_drop, take_ge, drop_ge, app_nil_r by lia. done.
Qed.

(** A table of [h] rows of [w] cells. *)
Definition shape {A} (h w : nat) (t : list (list A)) : Prop :=
  length t = h ∧ Forall (λ row, length row = w) t.

Lemma shape_row {A} h w (t : list (list A)) i : shape h w t → (i < h)%nat → length (nth i t []) = w.
Proof.
  intros [Hl Hr] Hi. rewrite Forall_forall in Hr. apply Hr, list_elem_of_In, nth_In. lia.
Qed.

Lemma assemble_shape h w locals :
  locals ≠ [] → Forall (shape h w) locals →
  assemble locals = map (λ i, map (λ j, map (λ t, nth j (nth i t []) 0) locals) (seq 0 w)) (seq 0 h).
Proof.
  intros Hne Hs. destruct locals as [|t0 ts]; [done|]. pose proof (Forall_inv Hs) as H0. unfold assemble.
  rewrite (proj1 H0). apply map_ext_in. intros i [_ Hi]%in_seq. by rewrite (shape_row h w) by (done || lia).
Qed.

Lemma map_over_nth {A B} (d : A) (F : A → B) l : map (λ j, F (nth j l d)) (seq 0 (length l)) = map F l.
Proof.
  induction l as [|x l IH]; [done|]. cbn [length seq map nth]. f_equal. rewrite <- seq_shift, map_map. exact IH.
Qed.

(** Dropping columns locally drops them of the sharings. *)
Lemma assemble_keep h w m locals :
  locals ≠ [] → Forall (shape h w) locals →
  assemble (map (map (keep m)) locals) = map (keep m) (assemble locals).
Proof.
  intros Hne Hs. rewrite (assemble_shape h w locals) by done.
  rewrite (assemble_shape h (length (kept m w)) (map (map (keep m)) locals)).
  - rewrite map_map. apply map_ext_in. intros i [_ Hi]%in_seq.
    rewrite (keep_nth []), length_map, length_seq.
    rewrite <- (map_over_nth 0%nat (λ c, nth c (map (λ j, map (λ t, nth j (nth i t []) 0) locals) (seq 0 w)) []) (kept m w)).
    apply map_ext_in. intros j [_ Hj]%in_seq. set (c := nth j (kept m w) 0%nat).
    assert (c < w)%nat as Hc by (apply (kept_lt m), list_elem_of_In, nth_In; lia).
    rewrite (nth_lookup_Some _ _ _ (map (λ t, nth c (nth i t []) 0) locals))
      by (rewrite list_lookup_fmap, lookup_seq_lt by done; done).
    rewrite map_map. apply map_ext_in. intros t Ht. apply list_elem_of_In in Ht. rewrite Forall_forall in Hs.
    pose proof (shape_row h w t i (Hs t Ht) ltac:(lia)) as Hlen.
    change (@nil Z) with (keep m (@nil Z)). rewrite map_nth, (keep_nth 0), Hlen.
    rewrite (nth_indep _ 0 (nth 0%nat (nth i t []) 0)) by (rewrite length_map; lia).
    by rewrite (map_nth (λ i0, nth i0 (nth i t []) 0)).
  - by destruct locals.
  - apply Forall_map. eapply Forall_impl; [exact Hs|]. intros t [Hl Hr]. split; [by rewrite length_map|].
    apply Forall_map. eapply Forall_impl; [exact Hr|]. intros row Hrow. by rewrite (keep_nth 0), length_map, Hrow.
Qed.

Section Read.
Context `{DL : DecLaws} `{JL : JsonLib} `{JW : !JsonLaws JL}.

(** What is read from the JSON a party writes. *)
Definition read_back (j : json) : result (list (list Z) * list string) :=
  let! t := at_key j "table" in
  let! rows := traverse get_strings (elements t) in
  let! vals := traverse (traverse FixedPoint.of_string) rows in
  let! s := at_key j "schema" in
  let! names := get_strings s in Ok (vals, names).

Lemma read_back_compute C table schemas c src target :
  C < wire → Forall (Forall (λ x, Z.abs x ≤ C)) table →
  let m := (c - 1) mod 2 ^ 64 in
  ∃ j, JoinJob.compute table schemas [c :: src; target] = Ok j
    ∧ read_back j = Ok (map (keep m) table, keep m schemas).
Proof.
  intros HC Ht m. unfold JoinJob.compute, removeIdColumn. fold m. cbn [rbind]. eexists. split; [reflexivity|].
  unfold read_back, field. rewrite (at_key_of _ "table" (j_array _)) by
    (repeat constructor; set_solver). cbn [rbind]. rewrite elements_of.
  assert (∀ l : list (list string), traverse get_strings (map (λ row, j_array (map j_string row)) l) = Ok l) as ->.
  { induction l as [|r l IH]; [done|]. cbn [map traverse]. by rewrite get_strings_of, rbind_ok, IH. }
  rewrite rbind_ok.
  assert (traverse (traverse FixedPoint.of_string) (map (keep m) (map (map FixedPoint.getStrVal) table))
    = Ok (map (keep m) table)) as ->.
  { induction Ht as [|row table Hrow _ IH]; [done|]. cbn [map traverse].
    rewrite keep_map. fold (JobStrings.toString (keep m row)).
    rewrite (DeploymentFacts.traverse_toString C), rbind_ok, IH; [done| |done].
    rewrite (keep_nth 0). apply Forall_map, Forall_forall. intros i Hi%kept_lt.
    rewrite Forall_forall in Hrow. apply Hrow, list_elem_of_In, nth_In. done. }
  rewrite rbind_ok, (at_key_of _ "schema" (j_array (map j_string (keep m schemas)))), rbind_ok, get_strings_of;
    [done|repeat constructor; set_solver|set_solver].
Qed.
End Read.
End JoinJobFacts.

(** * Theorems *)

Section Theorems.
Context `{DL : DecLaws} `{E : Env} `{V : !ValidEnv E} (raise_of : exn → raised).
#[local] Existing Instance fp_value.
Import Deployment FixedPoint.

(** C9: a statistics job (mean, variance or sum) from end to end.  Every party
    reads its own table of strings, the numbers in them being shares of the
    secret table; when no gateway fails, every party's [run] returns
    [COMPLETED] and has written one list of strings, and the numbers a client
    gets by adding up what the parties wrote are the statistics of the chosen
    columns: the sum exactly, the mean up to one unit per party, the variance
    up to one unit per party and one more. *)
Theorem statistics_job_end_to_end {TB} {TL : TripleLaws TB E} B db inputs (T : nat → list (list Z)) schemas secrets
    method job f u src target cols w :
  JobSelector.select method = Some job → statistic job = Some f →
  (∀ p c, db p c = None) →
  (∀ p, p ∈ parties → JobFacts.wide (fst (inputs p)) ∧ snd (inputs p) = schemas
     ∧ JobFacts.to_table (to_share raise_of) (fst (inputs p)) = inr (T p)) →
  let table := assemble (map T parties) in
  let rows := Z.of_nat (length table) in
  Forall2 (Forall2 (FShares B)) table secrets → table ≠ [] → 0 ≤ B → rows < 2 ^ 31 →
  opened TB (B + (rows * B + 1)) < wire → DeploymentFacts.result_size (TB := TB) rows B < wire →
  traverse (λ c, traverse (λ row, vec_at row (c - 1)) secrets) src = Ok cols →
  ∃ (written : nat → list string) values,
    (∀ p, p ∈ parties → ∃ s', run_at raise_of db inputs (math_job f) w T u src target p = Ok (inr 5, s')
       ∧ JobFacts.writes (JobStatus.calls s') = [(u, written p)])
    ∧ recover (map written parties) = Ok values
    ∧ Forall2 (DeploymentFacts.approximates job) cols values.
Proof.
  intros Hsel Hst Hdb Hin table rows Ht Hne HB Hr Ho Hw Hcols.
  destruct (DeploymentFacts.runs_everywhere raise_of db inputs T schemas (math_job f) w u src target _ Hdb Hin
    (DeploymentFacts.statistics_run (TB := TB) job f B table secrets schemas src target cols w Hst Ht Hne HB Hr Ho Hw Hcols))
    as (ys & w' & [Hsh Hap] & Hrun).
  exists (λ p, JobStrings.toString (column p ys)), (map Zsum ys). split_and!; [exact Hrun| |exact Hap].
  by apply (DeploymentFacts.recover_result _ ys _ Hsh Hw DeploymentFacts.parties_pos).
Qed.

(** C26: a join job at all parties.  For any column number [c] of type [int] each
    party writes a JSON from which its local table without the first column (the
    ids) and without column [c] (the one matched on, counted from one) is read
    back, with the schema cut the same way; so the tables the parties store are
    shares of the joined secret table without these columns.  A number below two
    or beyond the last column removes the ids only. *)
Theorem join_job_end_to_end `{JL : JsonLib} {JW : JsonLaws JL} B C h width (T : nat → list (list Z)) schemas secrets
    c src target :
  (∀ p, p ∈ parties → JoinJobFacts.shape h width (T p) ∧ Forall (Forall (λ x, Z.abs x ≤ C)) (T p)) → C < wire →
  Forall2 (Forall2 (FShares B)) (assemble (map T parties)) secrets →
  - 2 ^ 31 ≤ c < 2 ^ 31 → Z.of_nat width < 2 ^ 63 → Z.of_nat (length schemas) < 2 ^ 63 →
  (∀ p, p ∈ parties → ∃ j, JoinJob.compute (T p) schemas [c :: src; target] = Ok j
     ∧ JoinJobFacts.read_back j = Ok (map (JoinJobFacts.without_columns c) (T p), JoinJobFacts.without_columns c schemas))
  ∧ Forall2 (Forall2 (FShares B)) (assemble (map (λ p, map (JoinJobFacts.without_columns c) (T p)) parties)) (map (JoinJobFacts.without_columns c) secrets).
Proof.
  intros HT HC Hs Hc Hwd Hsc. set (m := (c - 1) mod 2 ^ 64).
  assert (∀ {A} (t : list (list A)), Forall (λ row, length row = width) t → map (JoinTableJob.keep m) t = map (JoinJobFacts.without_columns c) t) as Hcut.
  { intros A t Ht. apply map_ext_in. intros row Hrow%list_elem_of_In. rewrite Forall_forall in Ht.
    apply JoinJobFacts.keep_without; [done|]. by rewrite (Ht row Hrow). }
  assert (Forall (JoinJobFacts.shape h width) (map T parties)) as Hsh.
  { apply Forall_map, Forall_forall. intros p Hp. by apply HT. }
  assert (map T parties ≠ []) as Hne.
  { pose proof DeploymentFacts.parties_pos. unfold parties. by destruct n_parties; [lia|]. }
  split.
  - intros p Hp. destruct (HT p Hp) as [[_ Hl] Hb]. rewrite <- (Hcut _ _ Hl).
    rewrite <- (JoinJobFacts.keep_without c schemas) by done.
    by apply (JoinJobFacts.read_back_compute C).
  - assert (map (λ p, map (JoinJobFacts.without_columns c) (T p)) parties = map (map (JoinTableJob.keep m)) (map T parties)) as ->.
    { rewrite map_map. apply map_ext_in. intros p Hp%list_elem_of_In. symmetry. apply Hcut, (HT p Hp). }
    rewrite (JoinJobFacts.assemble_keep h width) by done. rewrite <- (Hcut _ secrets).
    + apply Forall2_fmap. eapply Forall2_impl; [exact Hs|]. intros row k. apply JoinJobFacts.keep_Forall2.
    + rewrite (JoinJobFacts.assemble_shape h width) in Hs by done. apply Forall_lookup. intros i k Hk.
      destruct (Forall2_lookup_r _ _ _ _ _ Hs Hk) as (row & Hrow & HF). rewrite <- (Forall2_length _ _ _ HF).
      apply list_elem_of_lookup_2, list_elem_of_In, in_map_iff in Hrow as (i' & <- & _). by rewrite length_map, length_seq.
Qed.
End Theorems.

Import FixedPoint Deployment.

(** Three parties; the first column holds ids, the second the numbers 2 and 5. *)
Definition demo_inputs (p : nat) : list (list string) * list string :=
  (match p with
   | 1%nat => [["1"; "1"]; ["2"; "2"]]
   | 2%nat => [["0"; "1"]; ["0"; "3"]]
   | _ => [["0"; "0"]; ["0"; "0"]]
   end, ["id"; "x"])%string.
Definition demo_tables (p : nat) : list (list Z) :=
  match p with
  | 1%nat => [[shift; shift]; [2 * shift; 2 * shift]]
  | 2%nat => [[0; shift]; [0; 3 * shift]]
  | _ => [[0; 0]; [0; 0]]
  end.
Definition demo_secrets : list (list Z) := [[shift; 2 * shift]; [2 * shift; 5 * shift]].

Ltac share_of_demo := split_and!; [reflexivity|repeat constructor; vm_compute; discriminate|reflexivity].
Ltac demo_table :=
  repeat (apply Forall2_cons; split; [repeat (apply Forall2_cons; split; [share_of_demo|]); apply Forall2_nil; exact I|]);
  apply Forall2_nil; exact I.

Lemma statistics_job_end_to_end_witness :
  ∃ (written : nat → list string) values,
    (∀ p, p ∈ @parties demo_env → ∃ s',
       @run_at rat_dec demo_env throw_with_trace (λ _ _, None) demo_inputs
         (math_job (@Math.variance rat_dec demo_env)) world0 demo_tables "job" [2] [] p
       = Ok (inr 5, s') ∧ JobFacts.writes (JobStatus.calls s') = [("job"%string, written p)])
    ∧ @recover rat_dec (map written (@parties demo_env)) = Ok values
    ∧ Forall2 (@DeploymentFacts.approximates demo_env JobSelector.VarianceJob) [[2 * shift; 5 * shift]] values.
Proof.
  refine (@statistics_job_end_to_end rat_dec rat_laws demo_env _ throw_with_trace 36 _ (4 * shift) (λ _ _, None) demo_inputs
    demo_tables ["id"; "x"]%string demo_secrets 2 JobSelector.VarianceJob _ "job" [2] [] [[2 * shift; 5 * shift]] world0
    _ _ _ _ _ _ _ _ _ _ _).
  - reflexivity.
  - reflexivity.
  - done.
  - intros p Hp. unfold parties in Hp. apply elem_of_seq in Hp. simpl in Hp.
    assert (p = 1 ∨ p = 2 ∨ p = 3)%nat as [->|[->| ->]] by lia;
      (split_and!; [by repeat constructor|reflexivity|vm_compute; reflexivity]).
  - demo_table.
  - discriminate.
  - vm_compute; discriminate.
  - reflexivity.
  - vm_compute; reflexivity.
  - vm_compute; reflexivity.
  - reflexivity.
Defined.

Lemma join_job_end_to_end_witness :
  (∀ p, p ∈ @parties demo_env → ∃ j,
     @JoinJob.compute rat_dec json_tree (demo_tables p) ["id"; "x"]%string [[1]; []] = Ok j
     ∧ @JoinJobFacts.read_back rat_dec json_tree j = Ok (map (@tail Z) (demo_tables p), ["x"]%string))
  ∧ Forall2 (Forall2 (@FShares demo_env (4 * shift)))
      (@assemble (map (λ p, map (@tail Z) (demo_tables p)) (@parties demo_env))) [[2 * shift]; [5 * shift]].
Proof.
  refine (@join_job_end_to_end rat_dec rat_laws demo_env _ json_tree json_tree_laws (4 * shift) (4 * shift) 2 2 demo_tables
    ["id"; "x"]%string demo_secrets 1 [] [] _ _ _ _ _ _).
  - intros p Hp. unfold parties in Hp. apply elem_of_seq in Hp. simpl in Hp.
    assert (p = 1 ∨ p = 2 ∨ p = 3)%nat as [->|[->| ->]] by lia;
      (split; [by repeat constructor|repeat constructor; vm_compute; discriminate]).
  - vm_compute; reflexivity.
  - demo_table.
  - done.
  - done.
  - done.
Defined.
