(* ===== verification/RoundsRegression.v ===== *)
(** * Regression trees over the network  (GBDT/SID3Regression.cpp, GBDT/SID3Regression.hpp)

    The programs that each party runs to fit the regression tree of
    [Regression.v] and to predict with it.  The number of rows of every mask and
    the errors of the attributes are opened, so all parties take the same
    branches. *)
From stdpp Require Import base list numbers sets strings gmap relations.
From Stdlib Require Import ZArith Lia.
From S2P Require Import Prelude FixedPoint Random TripleHandler Share SharePF Mailbox Rounds RoundsDivision RoundsVector RoundsRealises ShareFP Double FixedCompare FixedCompareCorrect RoundsFixed FixedWhole FixedInverse Sized Json SID3 SID3Correct RoundsTrees Regression.
Import Address Message Server.
#[local] Open Scope Z_scope.
#[local] Open Scope qmpc_scope.
Import FixedCompare SID3Regression.

Module AtPartyRegression.
Import FixedPoint FixedDouble AtParty.

(** The object at one party. *)
Inductive l_node : Type :=
  l_mkNode (rows : nat) (size : Z) (y : Z) (grads : list Z)
    (error_value : Double.double) (att_class : Z) (children : list l_node).

Section Programs.
Context `{DF : DecFloat} `{E : Env} `{CI : CppInt} {R : Type} (id : nat → AddressId) (me : nat).
#[local] Existing Instance fp_value.
#[local] Existing Instance fp_text.
#[local] Abbreviation L := (@L R).
#[local] Abbreviation l_mul := (l_mul (R := R) id me).
#[local] Abbreviation l_v_mul := (l_v_mul (R := R) id me).
#[local] Abbreviation l_open := (l_open (R := R) id me).
#[local] Abbreviation l_sum := AtPartyTrees.l_sum.
#[local] Abbreviation l_dot := (AtPartyTrees.l_dot (R := R) id me).

Definition l_residue (acc : Z) (ta : Z * Z) : L Z :=
  let cur := sub ta.1 ta.2 in
  let& cur := l_mul cur cur in
  ret (add acc cur).

Definition l_infomationGain (T targets category : list Z) : L Z :=
  let& mask := l_v_mul category T in
  let mask_size_share := l_sum mask in
  let& mask_size := l_open mask_size_share in
  if FixedPoint.eqb mask_size (fp 0) then ret (fp 1000000000)
  else
    let& d := l_dot mask targets in
    let average := div d mask_size in
    let& average_mask := l_v_mul (replicate (length T) average) mask in
    let& target_mask := l_v_mul targets mask in
    let& r := mfold l_residue (zip target_mask average_mask) 0 in
    ret (div r (fp 2)).

Definition l_IG (T targets : list Z) (S_ : list (list (list Z))) (R_ : list Z) : L (Double.double * Z) :=
  let& categoryErrors := mmap (λ r,
      let& categories := lift (vec_at S_ r) in
      let& sumError := mfold (λ acc category,
          let& g := l_infomationGain T targets category in ret (add acc g)) categories 0 in
      let& categoryError := l_open sumError in
      ret (getDoubleVal categoryError, r)) R_ in
  match min_element SID3.lt_gini categoryErrors with
  | None => ret (Double.of_Z (-1), -1)
  | Some m => ret m
  end.

Definition l_make (T targets : list Z) : L (Z * Z * list Z) :=
  let& size := AtPartyTrees.l_dataSize id me T in
  let& y := l_dot targets T in
  let& y := (if 1 <? size then let& s := lift (of_integral size) in ret (div y s) else ret y) in
  let& grads := l_v_mul (replicate (length T) y) T in
  ret (size, y, grads).

Fixpoint l_createTree (fuel : nat) (T : list Z) (S_ : list (list (list Z))) (targets : list Z) (R_ : list Z) : L l_node :=
  match fuel with
  | O => throw OutOfFuel
  | S fuel =>
      let& c := l_make T targets in
      let '(size, y, grads) := c in
      let& ea := l_IG T targets S_ R_ in
      let '(error_value, att_class) := ea in
      if stop (length T) size R_ then ret (l_mkNode (length T) size y grads error_value att_class [])
      else
        let R_' := SID3.erase R_ att_class in
        let& S_att := lift (vec_at S_ att_class) in
        let& children := mmap (λ S_j,
            let& T_ := l_v_mul T S_j in l_createTree fuel T_ S_ targets R_') S_att in
        ret (l_mkNode (length T) size y grads error_value att_class children)
  end.

Fixpoint l_predict (t : l_node) (data : list (list Z)) : L Z :=
  let '(l_mkNode _ _ y _ _ att_class children) := t in
  match children with
  | [] => ret y
  | _ =>
      let& attribute_value := lift (vec_at data att_class) in
      AtPartyTrees.l_weighted id me (λ child, l_predict child data) attribute_value children 0 0
  end.
End Programs.
End AtPartyRegression.

(** * Lemmas *)

Import AtPartyRegression.

(** What party [me] has of a joint tree. *)
Fixpoint local_tree `{DF : DecFloat} (me : nat) (t : node) : l_node :=
  let '(mkNode m s y g e a cs) := t in
  l_mkNode m s (own (SVI := fp_value) me y) (own_vec me g) e a (map (local_tree me) cs).

Definition regression_tree_of `{DF : DecFloat} `{E : Env} : rel node l_node :=
  λ t t', ∀ me, me ∈ parties → t' me = local_tree me t.

Section Fitting.
Context `{DL : DecLaws} `{E : Env} `{V : !ValidEnv E} {TB : Z} `{TL : !TripleLaws TB E} `{CL : CppIntLaws} {Res : Type}.
#[local] Existing Instance fp_value.
#[local] Existing Instance fp_text.
#[local] Abbreviation realises := (realises (Res := Res)).
#[local] Abbreviation realises_at := (realises_at (Res := Res)).
Import FixedPoint FixedDouble.
Context {Q U : Z} {m W : nat} (FS : fit_sizes (TB := TB) Q U m W).
#[local] Abbreviation BS := (fs_base _ _ _ _ FS).
#[local] Abbreviation Targets := (Targets (Q := Q) (U := U) (m := m)).

(** A scalar product with the targets. *)
Lemma realises_dot_targets mask mask' ks targets targets' us w : Bits Q m mask ks → Targets targets us →
  lst part mask mask' → lst part targets targets' →
  realises_at w part (SID3Regression.dot mask targets) (λ id me, AtPartyTrees.l_dot id me (mask' me) (targets' me))
  ∧ realises_at w part (SID3Regression.dot targets mask) (λ id me, AtPartyTrees.l_dot id me (targets' me) (mask' me)).
Proof.
  intros Hm Ht Pm Pt. pose proof (WShares_FShares _ _ _ (proj1 Hm)) as Hmf. pose proof (mask_length mask targets ks us Hm Ht) as Hl.
  assert (∀ xs ys xs' ys' vs us, Forall2 (FShares Q) xs vs → Forall2 (FShares Q) ys us → length xs = length ys →
    lst part xs xs' → lst part ys ys' →
    realises_at w part (SID3Regression.dot xs ys) (λ id me, AtPartyTrees.l_dot id me (xs' me) (ys' me))) as H.
  { intros xs ys xs' ys' vs us0 Hx Hy Hxy Px Py. unfold SID3Regression.dot, AtPartyTrees.l_dot.
    eapply realises_at_bind; [by apply (realises_at_v_mul_fp w xs ys xs' ys' vs us0 Q); [..|apply BS| |]|].
    intros zs zs' w1 _ Pz. apply (realises_ret part _ (λ me, AtPartyTrees.l_sum (zs' me))). by apply part_sum. }
  split; [by apply (H _ _ _ _ _ _ Hmf (proj1 Ht))|by apply (H _ _ _ _ _ _ (proj1 Ht) Hmf)].
Qed.

(** A mean in the rows of a mask. *)
Lemma realises_spread mask mask' ks y y' len w : Bits Q m mask ks → FShares (sum_size (TB := TB) U m) y (Zsum y) →
  lst part mask mask' → part y y' → pub m len →
  realises_at w (lst part) (Share.v_mul (replicate m y) mask) (λ id me, AtParty.l_v_mul id me (replicate (len me) (y' me)) (mask' me)).
Proof.
  intros Hm Hy Pm Py Pl.
  apply (realises_at_v_mul_fp w _ _ (λ me, replicate (len me) (y' me)) _ (replicate m (Zsum y)) (map (λ k, k * shift) ks) (wide (TB := TB) (Q := Q) (U := U) (m := m))).
  - by apply wide_mean.
  - by apply WShares_FShares, wide_bits.
  - by rewrite length_replicate, (Bits_length _ _ Hm).
  - exact (wide_wire FS).
  - by apply lst_replicate.
  - done.
Qed.

(** The squared residues. *)
Lemma realises_residues ts ms ts' ms' tv mv :
  Forall2 (FShares (prod_size (T := TB) (Z.max shift U))) ts tv →
  Forall2 (FShares (prod_size (T := TB) (Z.max shift (mean_max U m)))) ms mv →
  lst part ts ts' → lst part ms ms' →
  realises part (mfold (λ acc (ta : sharing * sharing),
      let cur := s_sub ta.1 ta.2 in
      let* cur := s_mul cur cur in
      Share.ret (s_add acc cur)) (zip ts ms) s_zero)
    (λ id me, AtParty.mfold (l_residue id me) (zip (ts' me) (ms' me)) 0).
Proof.
  intros Ht Hm Pt Pm.
  apply (realises_mfold_lst (pair part part) part _ (λ id me, l_residue id me) _ (λ me, zip (ts' me) (ms' me)) _ (λ _, 0)).
  - by apply (lst_zip_with part part (pair part part) Datatypes.pair (λ _, Datatypes.pair)).
  - exact part_zero.
  - intros [t a] ta' acc acc' Hta [Pta Paa] Pacc w.
    destruct (Forall2_elem_l _ _ _ _ Ht (elem_of_zip_l _ _ _ _ Hta)) as (v & Hv).
    destruct (Forall2_elem_l _ _ _ _ Hm (elem_of_zip_r _ _ _ _ Hta)) as (u & Hu). cbn [fst snd] in *.
    pose proof (FShares_sub _ _ _ _ _ _ Hv Hu) as Hd. pose proof (part_sub _ _ _ _ Pta Paa) as Pd.
    unfold l_residue. eapply realises_at_bind; [by apply (realises_at_mul_wire w _ _ _ _ _ _ _ Hd Hd (fs_residue _ _ _ _ FS))|].
    intros z z' w1 _ Pz. apply (realises_ret part _ (λ me, add (acc' me) (z' me))). by apply part_add.
Qed.

Lemma realises_infomationGain T T' Tv targets targets' us category category' col :
  Bits Q m T Tv → Targets targets us → Bits Q m category col →
  lst part T T' → lst part targets targets' → lst part category category' →
  realises part (infomationGain T targets category)
    (λ id me, l_infomationGain id me (T' me) (targets' me) (category' me)).
Proof.
  intros HT Htg Hc PT Ptg Pc w. unfold infomationGain, l_infomationGain.
  eapply realises_at_bind_runs; [by apply (v_mul_bits BS category T)|by eapply (realises_v_mul_bits BS)|].
  intros mask mask' w1 Hmask Pmask. cbv beta in Hmask.
  eapply realises_at_bind_pub; [apply (open_whole _ _ _ _ (sum_bits _ _ Hmask)), BS|by eapply (realises_open_bits BS)|].
  intros ? ? [-> ->]. set (ks := inter col Tv) in *.
  destruct (FixedPoint.eqb (Zsum ks * shift) (fp 0)) eqn:E0.
  { apply (realises_ret part _ (λ _, fp 1000000000)), part_lit. }
  destruct (realises_dot_targets mask mask' ks targets targets' us w1 Hmask Htg Pmask Ptg) as [Hdot _].
  eapply realises_at_bind_runs; [by apply (dot_targets FS mask targets ks us)|exact Hdot|]. intros d d' w2 Hd Pd.
  destruct (average_shares FS mask ks us d Hmask E0 Hd) as [Hav HavU].
  pose proof (part_divc _ (Zsum ks * shift) _ Pd) as Pav. set (average := Math.s_divc d (Zsum ks * shift)) in *.
  pose proof (lst_length _ _ _ PT) as Pl. rewrite (Bits_length _ _ HT) in *.
  eapply realises_at_bind_runs; [by apply (spread_runs FS mask ks average)|by apply (realises_spread mask mask' ks average _ _ w2 Hmask Hav)|].
  intros am am' w3 Ham Pam.
  eapply realises_at_bind_runs; [by apply (masked_targets FS mask targets ks us)| |].
  { apply (realises_at_v_mul_fp w3 targets mask targets' mask' us (map (λ k, k * shift) ks) Q);
      [apply Htg|by apply WShares_FShares, Hmask|symmetry; by eapply mask_length|apply BS|done|done]. }
  intros tm tm' w4 Htm Ptm.
  eapply realises_bind; [by apply (realises_residues tm am tm' am' _ _ Htm Ham)|]. intros r r' Pr.
  apply (realises_ret part _ (λ me, div (r' me) (fp 2))). by apply part_divc.
Qed.

Lemma realises_IG T T' Tv targets targets' us S S' sv R :
  Bits Q m T Tv → Targets targets us → Forall2 (Forall2 (Bits Q m)) S sv → Forall (λ cols, length cols ≤ W)%nat sv →
  lst part T T' → lst part targets targets' → lst (lst (lst part)) S S' →
  realises pub (IG T targets S R) (λ id me, l_IG id me (T' me) (targets' me) (S' me) R).
Proof.
  intros HT Htg HS HW PT Ptg PS w. unfold IG, l_IG. eapply realises_bind_vec.
  { apply (realises_mmap pub _ (λ id me r, let& categories := AtParty.lift (vec_at (S' me) r) in
      let& sumError := AtParty.mfold (λ acc category,
          let& g := l_infomationGain id me (T' me) (targets' me) category in AtParty.ret (add acc g)) categories 0 in
      let& categoryError := AtParty.l_open id me sumError in
      AtParty.ret (getDoubleVal categoryError, r))).
    intros r _ w1. eapply realises_at_bind; [by apply realises_vec_at|]. intros cats cats' w2 Hr Pcats.
    apply rbind_Ok_inv in Hr as (? & Hr%vec_at_elem & [= -> _]).
    apply list_elem_of_lookup in Hr as (i & Hi). destruct (Forall2_lookup_l _ _ _ _ _ HS Hi) as (cols & Hcols & Hs).
    pose proof (Forall_lookup_1 _ _ _ _ HW Hcols) as HWr. cbn in HWr. rewrite <- (Forall2_length _ _ _ Hs) in HWr.
    eapply realises_at_bind_runs.
    { apply (sum_error_runs FS T Tv targets us cats cols s_zero 0); [done|done|done|by destruct FShares_zero as (? & ? & _)]. }
    { apply (realises_mfold_lst (lst part) part _ (λ id me acc category,
        let& g := l_infomationGain id me (T' me) (targets' me) category in AtParty.ret (add acc g)) _ _ _ (λ _, 0));
        [done|exact part_zero|].
      intros category category' acc acc' Hc Pc Pacc. destruct (Forall2_elem_l _ _ _ _ Hs Hc) as (col & Hcol).
      eapply realises_bind; [by eapply realises_infomationGain|]. intros g g' Pg.
      apply (realises_ret part _ (λ me, add (acc' me) (g' me))). by apply part_add. }
    intros e e' w3 He Pe. cbv beta in He.
    eapply (realises_at_bind_pub _ (λ _ _, True)).
    - eapply runs_mono; [eapply runs_lift_eq, (recons_fp sp_id _ _ _ He); by apply (sum_error_wire FS)|done].
    - apply (realises_at_open_fp _ _ _ _ _ He); [by apply (sum_error_wire FS)|done].
    - intros c w4 _. apply (realises_ret pub _ (λ _, _)), pub_const. }
  intros es w1. destruct (min_element _ es) as [g|]; apply (realises_ret pub _ (λ _, _)), pub_const.
Qed.

Lemma realises_make T T' Tv targets targets' us :
  Bits Q m T Tv → Targets targets us → lst part T T' → lst part targets targets' →
  realises (pair (pair pub part) (lst part)) (make T targets) (λ id me, l_make id me (T' me) (targets' me)).
Proof.
  intros HT Htg PT Ptg w. unfold make, l_make. pose proof (lst_length _ _ _ PT) as Pl. rewrite (Bits_length _ _ HT) in *.
  eapply realises_at_bind_pub; [by apply (dataSize_runs BS)|by eapply (realises_dataSize BS)|]. intros ? w1 ->.
  destruct (realises_dot_targets T T' Tv targets targets' us w1 HT Htg PT Ptg) as [_ Hdot].
  eapply realises_at_bind_runs; [by apply (dot_targets_r FS T targets Tv us)|exact Hdot|]. intros d d' w2 Hd Pd.
  eapply (realises_at_bind_runs _ _ part); [by apply (node_mean_runs FS T Tv targets us)| |].
  { destruct (1 <? Zsum Tv); [|by apply (realises_ret part)].
    apply realises_bind_lift. intros c _. apply (realises_ret part _ (λ me, div (d' me) c)). by apply part_divc. }
  intros y y' w3 [[Hy _] _] Py. eapply realises_at_bind; [by apply (realises_spread T T' Tv)|]. intros grads grads' w4 _ Pg.
  apply (realises_ret (pair (pair pub part) (lst part)) _ (λ me, (Zsum Tv, y' me, grads' me))). by split; [split|].
Qed.

Lemma regression_tree_node M s y g e a cs y' g' cs' : part y y' → lst part g g' → lst regression_tree_of cs cs' →
  regression_tree_of (mkNode M s y g e a cs) (λ me, l_mkNode M s (y' me) (g' me) e a (cs' me)).
Proof.
  intros (_ & Hy) (_ & Hg)%lst_part_full (ls & Hls & Hl) me Hme. cbn [local_tree]. rewrite Hl, Hy, Hg by done. f_equal.
  clear Hl. induction Hls as [|c c' cs ls Hc _ IH]; [done|]. cbn [map]. by rewrite IH, (Hc me Hme).
Qed.

(** Every party builds the nodes of the joint tree, in the same order. *)
Lemma realises_regression_tree fuel T T' Tv S S' sv targets targets' us R :
  Bits Q m T Tv → Targets targets us → Forall2 (Forall2 (Bits Q m)) S sv → Forall (λ cols, length cols ≤ W)%nat sv →
  lst part T T' → lst part targets targets' → lst (lst (lst part)) S S' →
  realises regression_tree_of (createTree fuel T S targets R)
    (λ id me, l_createTree id me fuel (T' me) (S' me) (targets' me) R).
Proof.
  intros HT Htg HS HW PT Ptg PS. revert T T' Tv R HT PT.
  induction fuel as [|fuel IH]; intros T T' Tv R HT PT; [apply realises_throw|]. cbn [createTree l_createTree].
  eapply realises_bind; [by eapply realises_make|]. intros [[s y] grads] c' [[Ps Py] Pg]. cbn [fst snd] in *.
  apply (realises_ext _ _ (λ id me, let& ea := l_IG id me (T' me) (targets' me) (S' me) R in
    let '(e, a) := ea in
    if stop (length T) s R then AtParty.ret (l_mkNode (length T) s (c' me).1.2 (c' me).2 e a [])
    else let& S_a := AtParty.lift (vec_at (S' me) a) in
      let& children := AtParty.mmap (λ S_j, let& T_ := AtParty.l_v_mul id me (T' me) S_j in
        l_createTree id me fuel T_ (S' me) (targets' me) (SID3.erase R a)) S_a in
      AtParty.ret (l_mkNode (length T) s (c' me).1.2 (c' me).2 e a children))).
  { intros id me s1 k Hme. specialize (Ps me Hme). cbv beta in Ps. rewrite (lst_length _ _ _ PT me Hme).
    destruct (c' me) as [[s' y'] g']. cbn [fst snd] in *. by rewrite Ps. }
  eapply realises_bind_pub; [by eapply realises_IG|]. intros [e a]. destruct (stop (length T) s R).
  { apply (realises_ret regression_tree_of _ (λ me, l_mkNode (length T) s (c' me).1.2 (c' me).2 e a [])).
    apply (regression_tree_node _ _ _ _ _ _ _ (λ me, (c' me).1.2) (λ me, (c' me).2)); [done|done|apply lst_nil]. }
  intros w. eapply realises_at_bind; [by apply realises_vec_at|]. intros S_a S_a' w1 Ha PSa.
  apply rbind_Ok_inv in Ha as (? & Ha%vec_at_elem & [= -> _]). destruct (Forall2_elem_l _ _ _ _ HS Ha) as (sa & Hsa).
  eapply realises_bind.
  { apply (realises_mmap_lst (lst part) regression_tree_of _ (λ id me S_j, let& T_ := AtParty.l_v_mul id me (T' me) S_j in
      l_createTree id me fuel T_ (S' me) (targets' me) (SID3.erase R a))); [done|].
    intros S_j S_j' Hj Pj w2. destruct (Forall2_elem_l _ _ _ _ Hsa Hj) as (col & Hc).
    eapply realises_at_bind_runs; [by apply (v_mul_bits BS T S_j)|by eapply (realises_v_mul_bits BS)|].
    intros T_ T_' w3 HT_ PT_. by apply (IH T_ T_' (inter Tv col)). }
  intros cs cs' Pcs.
  apply (realises_ret regression_tree_of _ (λ me, l_mkNode (length T) s (c' me).1.2 (c' me).2 e a (cs' me))).
  by apply (regression_tree_node _ _ _ _ _ _ _ (λ me, (c' me).1.2) (λ me, (c' me).2)).
Qed.
End Fitting.

(** ** Prediction *)

Section Predicting.
Context `{DL : DecLaws} `{E : Env} `{V : !ValidEnv E} {TB : Z} `{TL : !TripleLaws TB E} {Res : Type}.
#[local] Existing Instance fp_value.
#[local] Existing Instance fp_text.
#[local] Abbreviation realises := (realises (Res := Res)).
Import FixedPoint FixedDouble.
Context {Q B K : Z} {W : nat}.
Hypothesis K_nonneg : 0 ≤ K.
Hypothesis predict_wire : Z.max Q (predict_size (TB := TB) B K W) + TB * shift < wire.

Lemma realises_regression_predict sv us t Tv R data data' vals :
  Forall (λ sa, (length sa ≤ W)%nat) sv →
  Forall2 (λ (xs : list sharing) (sa : list (list Z)), length xs = length sa) data sv →
  row_bits (Q := Q) data vals → Forall (λ r, 0 ≤ r) R → fitted B K sv us t Tv R → lst (lst part) data data' →
  realises part (predict t data) (λ id me, l_predict id me (local_tree me t) (data' me)).
Proof.
  intros HW Hd Hrow HR Hg Pd. revert Tv R HR Hg. induction t as [m s y g e a cs IH] using rnode_induction.
  intros Tv R HR (_ & _ & [(Hy & _) _] & _ & Hc). cbn [predict l_predict local_tree]. destruct cs as [|c0 cs0].
  { exact (realises_ret part _ (λ me, own me y) (part_own _ Hy)). }
  destruct Hc as (_ & sa & Hr & _ & Hall). apply all2_Forall2 in Hall. cbn [map]. intros w.
  eapply realises_at_bind; [by apply realises_vec_at|]. intros bits bits' w1 Hv Pb.
  apply rbind_Ok_inv in Hv as (? & Hv%vec_at_elem & [= -> _]).
  destruct (Forall2_elem_l _ _ _ _ Hrow Hv) as (v & Hb). set (B' := Z.max Q (predict_size (TB := TB) B K W)) in *.
  apply (realises_weighted local_tree (λ child, predict child data) (λ id me child, l_predict id me child (data' me)) B'
    (c0 :: cs0) bits bits' (onehot (length bits) v) 0 s_zero (λ _, 0)); [exact predict_wire| | |done|exact part_zero];
    [|eapply Forall2_impl; [exact Hb|]; intros x b Hx; eapply WShares_weaken; [exact Hx|lia]].
  revert Hall IH. generalize (c0 :: cs0). intros cs Hall IH. clear Hv.
  induction Hall as [|c col cs sa' Hc _ IHc]; [constructor|].
  apply Forall_cons in IH as [IH1 IH2]. constructor; [|exact (IHc IH2)].
  split; [eapply IH1; [by apply (erase_Forall _ R a)|exact Hc]|]. intros w2. eexists. eapply runs_mono.
  { by eapply (regression_predict_runs K_nonneg predict_wire sv us c _ (SID3.erase R a)); [..|apply erase_Forall|]. }
  cbv beta. intros x w3 Hx. eapply FShares_weaken; [exact Hx|unfold B'; lia].
Qed.
End Predicting.

(** * Theorems *)

(** C14: fitting a regression tree and predicting with it, over the network.
    [createTree] terminates and returns the regression tree of its rows: every
    node has the exact number of the training rows that reach it and a share of
    the mean of their targets, wrong by at most one unit per party (a single row's
    target is exact), and its gradients are that mean in the rows of the node and
    0 elsewhere.  A node is split only while it has more than a third of all rows,
    on an attribute that was not used above it, and its children have the rows of
    the attribute's values; a node is a leaf only when no attribute is left, its
    rows are at most a third, or the attribute has no values.  The prediction of
    this tree for the shares of a row opens, at every party, to the mean at the
    end of the row's path, exactly.  The programs of the parties end with their
    parts of the one tree, and from these parts with their shares of the one
    prediction, in every interleaving of their messages, and can always end. *)
Theorem regression_over_the_network `{DL : DecLaws} {E : Env} {V : ValidEnv E} {TB} {TL : TripleLaws TB E}
    `{CL : CppIntLaws} {Q U m W} (FS : fit_sizes (TB := TB) Q U m W) fuel T Tv S sv targets us R w :
  Bits Q m T Tv → Targets (Q := Q) (U := U) (m := m) targets us → Forall2 (Forall2 (Bits Q m)) S sv →
  Forall (λ cols, length cols ≤ W)%nat sv → Forall (λ r, 0 ≤ r < Z.of_nat (length S)) R → (length R < fuel)%nat →
  Z.max Q (predict_size (TB := TB) (sum_size (TB := TB) U m) (mean_max U m) W) + TB * FixedPoint.shift < wire →
  ∃ t w', createTree fuel T S targets R w = Ok (t, w')
    ∧ @fitted E fp_value (sum_size (TB := TB) U m) (mean_max U m) sv us t Tv R
    ∧ over_the_network w (λ id me, l_createTree id me fuel (own_vec me T) (map (own_mat me) S) (own_vec me targets) R)
        (λ me, local_tree me t)
    ∧ ∀ data vals w, Forall2 (λ (xs : list sharing) (sa : list (list Z)), length xs = length sa) data sv →
        row_bits (Q := Q) data vals →
        ∃ x w', predict t data w = Ok (x, w') ∧ (∀ me, @recons_at fp_value E me x = Ok (path_mean t vals))
          ∧ over_the_network w (λ id me, l_predict id me (local_tree me t) (own_mat me data))
              (λ me, own (SVI := fp_value) me x).
Proof.
  intros HT Htg HS HW HR Hf Hp.
  destruct (regression_tree_runs FS fuel T Tv S sv targets us R w HT Htg HS HW HR Hf) as (t & w' & Ht & Hg).
  exists t, w'. split_and!; [done|done| |].
  - destruct (realised_runs w regression_tree_of _ _ t w' (realises_regression_tree FS fuel T _ Tv S _ sv targets _ us R
      HT Htg HS HW (WShares_own _ _ _ (proj1 HT)) (FShares_own _ _ _ (proj1 Htg)) (bits_table _ _ _ _ HS) w) Ht) as (t' & Ht' & Hn).
    eapply over_the_network_ext; [|exact Hn]. intros me Hme. by rewrite Ht'.
  - intros data vals w1 Hd Hrow. destruct (sum_size_wire FS) as [_ HK].
    assert (Forall (λ r, 0 ≤ r) R) as HR0 by (eapply Forall_impl; [exact HR|]; cbn; intros; lia).
    destruct (regression_predict_path sv us t Tv R data vals w1 HK Hp HW Hd Hrow HR0 Hg) as (x & w2 & Hx & Hr).
    exists x, w2. split_and!; [done|done|].
    destruct (realised_runs w1 (part (SVI := fp_value)) _ _ x w2 (realises_regression_predict HK Hp sv us t Tv R data _ vals
      HW Hd Hrow HR0 Hg (bits_row _ _ _ Hrow) w1) Hx) as (x' & (_ & Hxp) & Hn).
    eapply over_the_network_ext; [|exact Hn]. intros me Hme. by rewrite Hxp.
Qed.

(** Four rows with the targets 10, 20, 30 and 40, and the prediction for a row. *)
Lemma regression_over_the_network_witness :
  let data := [Toy.share_bits [0; 1]; Toy.share_bits [1; 0]] in
  let l id me := l_createTree (DF := rat_dec) (E := steady_env) (CI := nearest) (R := l_node) id me 3
    (own_vec (DF := rat_dec) me (Toy.share_bits Toy.Tv)) (map (own_mat (DF := rat_dec) me) Toy.S)
    (own_vec (DF := rat_dec) me ToyRegression.targets) [0; 1] in
  let p t id me := l_predict (DF := rat_dec) (E := steady_env) (R := Z) id me (local_tree (DF := rat_dec) me t) (own_mat (DF := rat_dec) me data) in
  ∃ t w', @createTree rat_dec steady_env nearest 3 (Toy.share_bits Toy.Tv) Toy.S ToyRegression.targets [0; 1] world0 = Ok (t, w')
    ∧ (∃ s', rtc (step (EI := steady_env)) (Rounds.start (λ me, l job_address me (pos_at (E := steady_env) world0 0 me) (λ a _, Ret a)) (λ _, ∅)) s'
        ∧ ∀ me, me ∈ @parties steady_env → program (s' me) = Ret (local_tree (DF := rat_dec) me t))
    ∧ ∃ x, (∀ me, @recons_at (@fp_value rat_dec) steady_env me x = Ok (path_mean t [1%nat; 0%nat]))
      ∧ ∃ s', rtc (step (EI := steady_env)) (Rounds.start (λ me, p t job_address me (pos_at (E := steady_env) w' 0 me) (λ a _, Ret a)) (λ _, ∅)) s'
        ∧ ∀ me, me ∈ @parties steady_env → program (s' me) = Ret (own (SVI := @fp_value rat_dec) me x).
Proof.
  intros data l p.
  destruct (@regression_over_the_network rat_dec rat_laws steady_env _ 36 _ nearest nearest_laws Toy.Q ToyRegression.U 4 2
    ToyRegression.toy_fit 3 (Toy.share_bits Toy.Tv) Toy.Tv Toy.S Toy.sv ToyRegression.targets ToyRegression.us [0; 1] world0)
    as (t & w' & Ht & _ & Hn & Hp).
  - apply Toy.share_bits_Bits, Toy.all_bits.
  - exact ToyRegression.toy_targets.
  - exact Toy.S_Bits.
  - repeat constructor.
  - repeat constructor; vm_compute; (reflexivity || discriminate).
  - simpl; lia.
  - vm_compute; reflexivity.
  - exists t, w'. split_and!; [exact Ht|exact (over_the_network_ends _ _ _ Hn)|].
    destruct (Hp data [1%nat; 0%nat] w') as (x & w2 & _ & Hr & Hnp).
    + repeat constructor.
    + constructor; [|constructor; [|constructor]]; (constructor; [|constructor; [|constructor]]); apply Toy.share_bit_shares; unfold bit; cbn; lia.
    + exists x. split; [exact Hr|exact (over_the_network_ends _ _ _ Hnp)].
Defined.
