(* ===== verification/RoundsFunctions.v ===== *)
(** * Matrices and the sigmoid over the network  (Share/Matrix.cpp, Math/Math.cpp)

    The programs that each party runs for the product and the opening of share
    matrices, for the inverse of a matrix and for [open_sigmoid]. *)
From stdpp Require Import base list numbers sets strings gmap relations.
From Stdlib Require Import ZArith Lia.
From S2P Require Import Prelude FixedPoint Random TripleHandler Share SharePF Mailbox Rounds RoundsDivision RoundsVector RoundsRealises ShareFP Double FixedCompare FixedCompareCorrect RoundsFixed FixedWhole FixedInverse SID3Correct RoundsTrees MathFunctions CrossEntropy NormalEquations.
Import Address Message Server.
#[local] Open Scope Z_scope.
#[local] Open Scope qmpc_scope.

Module AtPartyFunctions.
Import FixedPoint FixedDouble FixedCompare AtParty.

(** The matrix of one party. *)
Record l_matrix := l_mkMatrix { l_h : nat; l_w : nat; l_mat : list (list Z) }.

Definition l_mat_make (mat_v : list (list Z)) : result l_matrix :=
  match mat_v with
  | [] => Throw (Undefined "mat_v[0]")
  | r0 :: _ =>
      let w := length r0 in
      let! rows := traverse (λ r, if (w <=? length r)%nat then Ok (take w r)
                                  else Throw (Undefined "vector index")) mat_v in
      Ok (l_mkMatrix (length mat_v) w rows)
  end.

Definition l_mat_at (m : l_matrix) (i j : nat) : Z := nth j (nth i (l_mat m) []) 0.

Section Programs.
Context `{DF : DecFloat} `{E : Env} `{CI : CppInt} {R : Type} (id : nat → AddressId) (me : nat).
#[local] Existing Instance fp_value.
#[local] Existing Instance fp_text.
#[local] Abbreviation L := (@L R).
#[local] Abbreviation l_v_mul := (l_v_mul (R := R) id me).
#[local] Abbreviation l_open := (l_open (R := R) id me).
#[local] Abbreviation l_open_vec := (l_open_vec (R := R) id me).
#[local] Abbreviation l_sharize := (l_sharize (R := R) id me).
#[local] Abbreviation l_div := (l_div (R := R) id me).
#[local] Abbreviation l_getRand := (l_getRand (R := R) me).
#[local] Abbreviation l_sum := AtPartyTrees.l_sum.

Definition l_mat_mul (a b : l_matrix) : L l_matrix :=
  if negb (l_w a =? l_h b)%nat then throw (RuntimeError "Matrix Mul Error!")
  else
    let l := ShareMatrix.triple_loop (l_h a) (l_w b) (l_w a) (λ i j k, l_mat_at a i k) in
    let r := ShareMatrix.triple_loop (l_h a) (l_w b) (l_w a) (λ i j k, l_mat_at b k j) in
    let& mul := l_v_mul l r in
    let s := map l_sum (ShareMatrix.chunks (l_h a * l_w b) (l_w a) mul) in
    lift (l_mat_make (ShareMatrix.chunks (l_h a) (l_w b) s)).

Definition l_open_and_recons (m : l_matrix) : L (list (list Z)) := mmap l_open_vec (l_mat m).

Definition l_blinder : L Z := let& rnd := l_getRand 0 100 in ret (div rnd (fp 50)).

Definition l_sharize_mat (m : list (list Z)) : L l_matrix :=
  let& rows := mmap (mmap l_sharize) m in lift (l_mat_make rows).

Definition l_blind (a : l_matrix) : L (l_matrix * list (list Z)) :=
  let& R_ := mmap (λ _, mmap (λ _, l_blinder) (seq 0 (l_w a))) (seq 0 (l_h a)) in
  let& R := lift (l_mat_make R_) in
  let& U_s := l_mat_mul R a in
  let& U := l_open_and_recons U_s in
  ret (R, U).

Definition l_inverse `{EI : EigenInverse} (a : l_matrix) : L l_matrix :=
  let& RU := l_blind a in
  let& U_inv_s := l_sharize_mat (eigen_inverse RU.2) in
  l_mat_mul U_inv_s RU.1.

(** Each party looks at its own value for an infinity. *)
Fixpoint l_open_sigmoid `{CppExp} (fuel : nat) (x_s a : Z) : L Z :=
  match fuel with
  | O => throw OutOfFuel
  | S fuel =>
      let& s := l_open x_s in
      let& E := lift (of_double (exp_double (Double.neg (getDoubleVal (mul s a))))) in
      let& E_s := l_sharize E in
      let& one := lift (of_string "1") in
      let one_s := l_addc me 0 one in
      let& r := l_div one_s (add one_s E_s) in
      if Double.isinf (int_to_double r) then l_open_sigmoid fuel s (fp 1) else ret r
  end.
End Programs.
End AtPartyFunctions.

(** * Lemmas *)

Import FixedPoint FixedDouble FixedCompare AtPartyFunctions.

(** ** The sigmoid *)

Section Sigmoid.
Context `{DL : DecLaws} `{E : Env} `{V : !ValidEnv E} {TB : Z} `{TL : !TripleLaws TB E} `{CL : CppIntLaws} `{CE : CppExp} {Res : Type}.
#[local] Existing Instance fp_value.
#[local] Existing Instance fp_text.
#[local] Abbreviation realises := (realises (Res := Res)).
#[local] Abbreviation realises_at := (realises_at (Res := Res)).
Import MathF.

Lemma realises_at_open_sigmoid fuel B x x' v a e e_max w :
  FShares B x v → B < wire →
  of_double (exp_double (Double.neg (getDoubleVal (mul v a)))) = Ok e → 0 ≤ e ≤ e_max →
  invertible (T := TB) shift (sigmoid_size e_max) → opened TB (quot_size (T := TB) shift (sigmoid_size e_max)) < wire →
  sigmoid_bound (TB := TB) e_max < wire → part x x' →
  realises_at w part (open_sigmoid (S fuel) x a) (λ id me, l_open_sigmoid id me (S fuel) (x' me) a).
Proof.
  intros Hx HB He Hee Hinv Ho Hs Px. cbn [open_sigmoid l_open_sigmoid].
  eapply realises_at_bind_pub; [by eapply runs_lift_eq, recons_fp|by apply (realises_at_open_fp _ _ _ _ _ Hx)|]. intros ? ? [-> ->].
  eapply realises_at_bind_pub; [by eapply runs_lift_eq|by apply realises_lift, pub_const|]. intros ? ? [-> ->].
  eapply realises_at_bind_runs; [by apply sharize_fp|by apply (realises_share e (λ _, e))|]. intros E_s E_s' w1 HE PE.
  eapply realises_at_bind_pub; [by apply runs_lift_eq, one_string|by apply realises_lift, pub_const|]. intros ? ? [-> ->].
  destruct (sigmoid_operands E_s e e_max Hee HE) as [H1 Hd]. pose proof (part_add_public s_zero (1 * shift) (λ _, 0) part_zero) as P1.
  assert (0 < shift ≤ Z.abs (shift + e)) as Hu by (unfold shift in *; lia).
  pose proof (sigmoid_size_nonneg e e_max Hee) as Hsz.
  eapply realises_at_bind_runs.
  { apply (s_div_fp shift (sigmoid_size e_max) _ _ _ _ w1 H1 Hd Hu Hsz Hinv Ho). }
  { apply (realises_at_div shift (sigmoid_size e_max) _ _ _ _ _ _ w1 H1 Hd P1 (part_add _ _ _ _ P1 PE) Hu Hsz Hinv Ho). }
  intros r r' w2 [Hr _] [Hf Pr]. fold (sigmoid_bound (TB := TB) e_max) in Hr.
  assert (forallb negb (infinite r) = true) as Hni.
  { apply (not_infinite _ _ _ Hr). eapply Z.lt_trans; [exact Hs|]. vm_compute. reflexivity. }
  rewrite Hni. eapply realises_at_ext; [|by apply (realises_ret part r r')]. intros id me s k Hme. cbv beta.
  assert (negb (Double.isinf (int_to_double (r' me))) = true) as ->%negb_true_iff; [|done].
  rewrite forallb_forall in Hni. apply Hni. unfold infinite. apply (in_map (λ v, Double.isinf (int_to_double v))), list_elem_of_In.
  rewrite Pr by done. eapply list_elem_of_lookup_2. by apply own_lookup.
Qed.
End Sigmoid.

(** ** Matrices *)

Section Lists.
Context `{E : Env}.

Lemma lst_triple_loop {A B} (R : rel A B) n m k f f' :
  (∀ i j l, R (f i j l) (λ me, f' me i j l)) →
  lst R (ShareMatrix.triple_loop n m k f) (λ me, ShareMatrix.triple_loop n m k (f' me)).
Proof.
  intros Hf. unfold ShareMatrix.triple_loop.
  apply (lst_concat R _ (λ me, map (λ i, concat (map (λ j, map (f' me i j) (seq 0 k)) (seq 0 m))) (seq 0 n))).
  apply (lst_map_list (lst R) _ (λ me i, concat (map (λ j, map (f' me i j) (seq 0 k)) (seq 0 m)))). intros i _.
  apply (lst_concat R _ (λ me, map (λ j, map (f' me i j) (seq 0 k)) (seq 0 m))).
  apply (lst_map_list (lst R) _ (λ me j, map (f' me i j) (seq 0 k))). intros j _.
  apply (lst_map_list R _ (λ me l, f' me i j l)). intros l _. apply Hf.
Qed.

Lemma lst_chunks {A B} (R : rel A B) n k l l' : lst R l l' →
  lst (lst R) (ShareMatrix.chunks n k l) (λ me, ShareMatrix.chunks n k (l' me)).
Proof.
  revert l l'. induction n as [|n IH]; intros l l' Hl; cbn [ShareMatrix.chunks]; [apply lst_nil|].
  apply (lst_cons (lst R) _ _ (λ me, take k (l' me)) (λ me, ShareMatrix.chunks n k (drop k (l' me)))); [by apply lst_take|].
  by apply (IH (drop k l) (λ me, drop k (l' me))), lst_drop.
Qed.

(** A loop over local values. *)
Lemma lst_traverse {A A' B B'} (Q : rel A A') (R : rel B B') (f : A → result B) (f' : nat → A' → result B') l l' ys :
  (∀ x x' y, Q x x' → f x = Ok y → ∃ y', R y y' ∧ ∀ me, me ∈ parties → f' me (x' me) = Ok (y' me)) →
  lst Q l l' → traverse f l = Ok ys →
  ∃ ys', lst R ys ys' ∧ ∀ me, me ∈ parties → traverse (f' me) (l' me) = Ok (ys' me).
Proof.
  intros Hf (ls & Hls & Hl) Hys.
  assert (∃ ys', lst R ys ys' ∧ ∀ me, me ∈ parties → traverse (f' me) (map (λ g, g me) ls) = Ok (ys' me)) as (ys' & Hr & He).
  { clear l' Hl. revert ys Hys. induction Hls as [|x x' l ls Hx _ IH]; intros ys Hys; cbn [traverse map] in *.
    - injection Hys as <-. exists (λ _, []). split; [apply lst_nil|done].
    - apply rbind_Ok_inv in Hys as (y & Hy & Hys). apply rbind_Ok_inv in Hys as (ys0 & Hys0 & [= <-]).
      destruct (Hf x x' y Hx Hy) as (y' & HR & Hy'). destruct (IH ys0 Hys0) as (ys' & HRs & Hys').
      exists (λ me, y' me :: ys' me). split; [by apply lst_cons|]. intros me Hme. by rewrite Hy', Hys'. }
  exists ys'. split; [done|]. intros me Hme. rewrite Hl by done. by apply He.
Qed.
End Lists.

(** What the parties have of a matrix. *)
Definition own_matrix `{DF : DecFloat} (me : nat) (m : ShareMatrix.ShareMatrix) : l_matrix :=
  l_mkMatrix (ShareMatrix.h m) (ShareMatrix.w m) (own_mat me (ShareMatrix.mat m)).

Section Matrices.
Context `{DL : DecLaws} `{E : Env} `{V : !ValidEnv E} {TB : Z} `{TL : !TripleLaws TB E} {Res : Type}.
#[local] Existing Instance fp_value.
#[local] Existing Instance fp_text.
#[local] Abbreviation realises := (realises (Res := Res)).
#[local] Abbreviation realises_at := (realises_at (Res := Res)).
Import ShareMatrix MatrixInverse.

Definition matrix_of : rel ShareMatrix l_matrix := λ m m',
  pub (h m) (λ me, l_h (m' me)) ∧ pub (w m) (λ me, l_w (m' me)) ∧ lst (lst part) (mat m) (λ me, l_mat (m' me)).

Lemma matrix_of_own m : Forall (Forall full) (mat m) → matrix_of m (λ me, own_matrix me m).
Proof.
  intros Hm. split; [done|]. split; [done|]. apply lst_self. eapply Forall_impl; [exact Hm|]. intros r Hr. by apply lst_part_own.
Qed.

Lemma own_matrix_of m m' : matrix_of m m' → ∀ me, me ∈ parties → m' me = own_matrix me m.
Proof.
  intros (Hh & Hw & (ls & Hls & Hl)) me Hme. specialize (Hh me Hme). specialize (Hw me Hme). specialize (Hl me Hme). cbn in *.
  destruct (m' me) as [h' w' rows']. cbn in *. subst. unfold own_matrix, own_mat. f_equal.
  induction Hls as [|r r' rs ls Hr _ IH]; [done|]. cbn [map]. rewrite IH. f_equal. by apply (lst_part_full r r' Hr).
Qed.

Lemma Holds_full B m vm : Holds B m vm → Forall (Forall full) (mat m).
Proof.
  intros (_ & _ & Hm). eapply Forall2_Forall_l; [exact Hm|]. apply Forall_true. intros r vr Hr.
  eapply Forall2_Forall_l; [exact Hr|]. apply Forall_true. by intros x v (? & _).
Qed.

Lemma realises_matrix_make rows rows' : lst (lst part) rows rows' →
  realises matrix_of (lift (make rows)) (λ _ me, AtParty.lift (l_mat_make (rows' me))).
Proof.
  intros Pr. destruct rows as [|r0 rows]; [by intros w a w' i|]. unfold lift.
  destruct (make (r0 :: rows)) as [m|e] eqn:Hm; [|by intros w a w' i]. unfold make in Hm.
  apply rbind_Ok_inv in Hm as (rs & Hrs & [= <-]).
  destruct (lst_traverse (lst part) (lst part) (λ r : list sharing, if (length r0 <=? length r)%nat then Ok (take (length r0) r)
      else Throw (Undefined "vector index")) (λ _ r, if (length r0 <=? length r)%nat then Ok (take (length r0) r)
      else Throw (Undefined "vector index")) (r0 :: rows) rows' rs) as (rs' & Prs & Hrs'); [|done|exact Hrs|].
  { intros x x' y Px Hy. pose proof (lst_length _ _ _ Px) as Hl. destruct (_ <=? _)%nat eqn:El; [|done]. injection Hy as <-.
    exists (λ me, take (length r0) (x' me)). split; [by apply lst_take|]. intros me Hme. by rewrite (Hl me Hme), El. }
  eapply realises_ext; [|apply (realises_ret matrix_of _ (λ me, l_mkMatrix (length (rows' me)) (length r0) (rs' me)))].
  - intros id me s k Hme. pose proof (lst_length _ _ _ Pr me Hme) as Hl. destruct Pr as (ls & Hls & Hrow).
    specialize (Hrs' me Hme). specialize (Hrow me Hme). cbv beta in *. destruct (rows' me) as [|r0' rows1'] eqn:Er; [done|].
    destruct ls as [|f ls]; [done|]. cbn [map] in Hrow. injection Hrow as -> _.
    apply Forall2_cons in Hls as [Hf _]. unfold l_mat_make. rewrite (lst_length _ _ _ Hf me Hme), Hrs'. done.
  - split; [exact (lst_length _ _ _ Pr)|]. by split.
Qed.

Lemma part_at m m' i j : lst (lst part) (mat m) (λ me, l_mat (m' me)) → part (at_ m i j) (λ me, l_mat_at (m' me) i j).
Proof.
  intros Pm. unfold at_, l_mat_at.
  apply (lst_nth part _ (λ me, nth i (l_mat (m' me)) []) j s_zero (λ _, 0) part_closed); [|exact part_zero].
  apply (lst_nth (lst part) _ _ i [] (λ _, []) (lst_closed part)); [done|apply lst_nil].
Qed.

Lemma realises_at_mat_mul B a b a' b' va vb w0 : Holds B a va → Holds B b vb → B + TB * shift < wire →
  matrix_of a a' → matrix_of b b' → realises_at w0 matrix_of (mul a b) (λ id me, l_mat_mul id me (a' me) (b' me)).
Proof.
  intros Ha Hb HB (Pha & Pwa & Pa) (Phb & Pwb & Pb). unfold mul.
  apply (realises_at_ext _ _ _ (λ id me,
    if negb (w a =? h b)%nat then AtParty.throw (RuntimeError "Matrix Mul Error!")
    else
      let& mul := AtParty.l_v_mul id me (triple_loop (h a) (w b) (w a) (λ i j k, l_mat_at (a' me) i k))
        (triple_loop (h a) (w b) (w a) (λ i j k, l_mat_at (b' me) k j)) in
      AtParty.lift (l_mat_make (chunks (h a) (w b) (map AtPartyTrees.l_sum (chunks (h a * w b) (w a) mul)))))).
  { intros id me s k Hme. specialize (Pha me Hme). specialize (Pwa me Hme). specialize (Phb me Hme). specialize (Pwb me Hme).
    cbv beta in *. unfold l_mat_mul. by rewrite Pha, Pwa, Phb, Pwb. }
  destruct (Nat.eqb_spec (w a) (h b)) as [Hw|]; cbn [negb]; [|apply realises_throw].
  eapply realises_at_bind.
  { apply (realises_at_v_mul_fp w0 _ _ (λ me, triple_loop (h a) (w b) (w a) (λ i j k, l_mat_at (a' me) i k))
      (λ me, triple_loop (h a) (w b) (w a) (λ i j k, l_mat_at (b' me) k j))
      (triple_loop (h a) (w b) (w a) (λ i j k, entry va i k)) (triple_loop (h a) (w b) (w a) (λ i j k, entry vb k j)) B).
    - apply triple_loop_Forall2. intros. by apply Holds_at.
    - apply triple_loop_Forall2. intros. apply Holds_at; [done|lia|done].
    - by rewrite !triple_loop_length.
    - done.
    - apply (lst_triple_loop part _ _ _ _ (λ me i j k, l_mat_at (a' me) i k)). intros i j k. by apply part_at.
    - apply (lst_triple_loop part _ _ _ _ (λ me i j k, l_mat_at (b' me) k j)). intros i j k. by apply part_at. }
  intros zs zs' w1 _ Pz. apply (realises_matrix_make _ (λ me, chunks (h a) (w b) (map AtPartyTrees.l_sum (chunks (h a * w b) (w a) (zs' me))))).
  apply (lst_chunks part _ _ _ (λ me, map AtPartyTrees.l_sum (chunks (h a * w b) (w a) (zs' me)))).
  apply (lst_map (lst part) part Math.sum (λ _, AtPartyTrees.l_sum) _ (λ me, chunks (h a * w b) (w a) (zs' me))).
  - intros x x' Px. by apply part_sum.
  - by apply lst_chunks.
Qed.

Lemma realises_open_matrix B m m' vm : Holds B m vm → B < wire → matrix_of m m' →
  realises (lst pub) (open_and_recons m) (λ id me, l_open_and_recons id me (m' me)).
Proof.
  intros (_ & _ & Hm) HB (_ & _ & Pm). unfold open_and_recons, l_open_and_recons.
  apply (realises_mmap_lst (lst part) pub _ (λ id me, AtParty.l_open_vec id me) _ (λ me, l_mat (m' me))); [done|].
  intros r r' Hr Pr w0. destruct (Forall2_elem_l _ _ _ _ Hm Hr) as (vr & Hvr).
  apply (realises_at_open_vec _ _ _ vr); [by apply lst_part_full|]. intros me _. by apply (recons_vec_fp me B).
Qed.

Lemma realises_blinder : realises part blinder (λ id me, l_blinder me).
Proof.
  unfold blinder, l_blinder. eapply realises_bind; [apply realises_draw|]. intros r r' Pr.
  apply (realises_ret part _ (λ me, div (r' me) (fp 50))). by apply part_divc.
Qed.

Lemma realises_sharize_mat m : realises matrix_of (sharize_mat m) (λ id me, l_sharize_mat id me m).
Proof.
  unfold sharize_mat, l_sharize_mat. eapply realises_bind.
  { apply (realises_mmap (lst part) _ (λ id me, AtParty.mmap (AtParty.l_sharize id me))). intros r _.
    apply (realises_mmap part _ (λ id me, AtParty.l_sharize id me)). intros v _. by apply (realises_share v (λ _, v)). }
  intros rows rows' Pr. by apply realises_matrix_make.
Qed.

Context {k : nat} {B v_max : Z} (IS : inverse_sizes (TB := TB) k B v_max).

Lemma realises_at_blind a a' va w0 : Holds B a va → h a = k → w a = k → matrix_of a a' →
  realises_at w0 (pair matrix_of pub) (blind a) (λ id me, l_blind id me (a' me)).
Proof.
  intros Ha Hh Hw Pa. pose proof (is_dim _ _ _ IS) as Hk. pose proof Pa as (Ph & Pw & _). unfold blind, l_blind. rewrite Hh, Hw.
  eapply realises_at_bind_runs; [apply blinders_runs| |].
  { apply (realises_at_ext _ _ _ (λ id me, AtParty.mmap (λ _, AtParty.mmap (λ _, l_blinder me) (seq 0 k)) (seq 0 k))).
    - intros id me s k' Hme. specialize (Ph me Hme). specialize (Pw me Hme). cbv beta in *. by rewrite Ph, Pw, Hh, Hw.
    - apply (realises_mmap (lst part) _ (λ id me _, AtParty.mmap (λ _, l_blinder me) (seq 0 k))). intros i _.
      apply (realises_mmap part _ (λ id me _, l_blinder me)). intros j _. apply realises_blinder. }
  intros R_ R_' w1 (HR & HlR & Hrows) PR. eapply realises_at_bind_runs.
  { apply (make_holds _ _ _ k w1 HR); [destruct R_; [cbn in HlR; lia|done]|done]. }
  { by apply realises_matrix_make. }
  intros R R' w2 (HR2 & HhR & HwR) PR2.
  assert (Holds (blind_operand B) R (map (map Zsum) R_)) as HRb by (eapply Holds_weaken; [exact HR2|unfold blind_operand; lia]).
  assert (Holds (blind_operand B) a va) as Hab by (eapply Holds_weaken; [exact Ha|unfold blind_operand; lia]).
  assert (0 ≤ blind_operand B) as HB0 by (unfold blind_operand, blinder_size, shift; lia).
  eapply realises_at_bind_runs; [apply (mul_holds (blind_operand B) R a _ va w2 HRb Hab); [lia|lia|done|apply IS]| |].
  { apply (realises_at_mat_mul (blind_operand B) R a R' a' _ va w2 HRb Hab); [apply opened_wire; [done|apply IS]|done|done]. }
  intros U_s U_s' w3 (vU & HU & _) PU. rewrite HwR in HU.
  eapply realises_bind_vec; [by apply (realises_open_matrix _ _ _ _ HU), PU; apply IS|]. intros U w4.
  apply (realises_ret (pair matrix_of pub) _ (λ me, (R' me, U))). by split.
Qed.

Lemma realises_at_inverse `{EI : EigenInverse} a a' va w0 :
  Holds B a va → h a = k → w a = k →
  (∀ R U w1, blind a w0 = Ok (R, U, w1) → length (eigen_inverse U) = k
    ∧ Forall (λ r, length r = k ∧ Forall (λ v, Z.abs v ≤ v_max) r) (eigen_inverse U)) →
  matrix_of a a' → realises_at w0 matrix_of (inverse a) (λ id me, l_inverse id me (a' me)).
Proof.
  intros Ha Hh Hw HE Pa. unfold inverse, l_inverse. destruct (blind_runs IS a va w0 Ha Hh Hw) as (RU0 & w0' & Hb & HP).
  eapply realises_at_bind; [by apply (realises_at_blind a a' va)|]. intros RU RU' w1 H1 [PR PU].
  rewrite Hb in H1. injection H1 as -> ->. destruct HP as (vR & HR & HhR & HwR & _).
  destruct RU as [R U]. cbn [fst snd] in *. destruct (HE R U w1 Hb) as [Hl Hv].
  apply (realises_at_ext _ _ _ (λ id me, let& s := l_sharize_mat id me (eigen_inverse U) in l_mat_mul id me s (RU' me).1)).
  { intros id me s k' Hme. specialize (PU me Hme). cbv beta in *. by rewrite PU. }
  eapply realises_at_bind_runs; [by apply (sharize_mat_runs IS)|apply realises_sharize_mat|].
  intros s s' w2 (HsV & _) Ps.
  apply (realises_at_mat_mul (inverse_operand v_max) s R s' (λ me, (RU' me).1) (eigen_inverse U) vR w2); [| | |done|done].
  - eapply Holds_weaken; [exact HsV|unfold inverse_operand; lia].
  - eapply Holds_weaken; [exact HR|unfold inverse_operand; lia].
  - apply opened_wire; [unfold inverse_operand, blinder_size, shift; lia|apply IS].
Qed.
End Matrices.

(** * Theorems *)

(** C28: the product of share matrices multiplies matrices, over the network: it
    throws when the inner dimensions differ, and otherwise returns a matrix of the
    outer dimensions whose opened entries are the sums of [w] products of the two
    matrices' entries, each up to [w] units in the last place.  The programs of
    the parties, from their entries of the two matrices, with all products in one
    round, end with their entries of this matrix, in every interleaving, and
    can always end. *)
Theorem matrix_product_over_the_network `{DL : DecLaws} {E : Env} {V : ValidEnv E} {T} {TL : TripleLaws T E}
    B a b va vb w0 :
  Holds B a va → Holds B b vb → ShareMatrix.h a ≠ 0%nat → 0 ≤ B →
  opened T B < wire → 0 ≤ Z.of_nat (ShareMatrix.w a) * mul_bound T B < wire →
  (ShareMatrix.w a = ShareMatrix.h b →
   ∃ m w' vm, ShareMatrix.mul a b w0 = Ok (m, w') ∧ ShareMatrix.h m = ShareMatrix.h a ∧ ShareMatrix.w m = ShareMatrix.w b
     ∧ ShareMatrix.open_and_recons m w' = Ok (vm, w')
     ∧ (∀ i j, (i < ShareMatrix.h a)%nat → (j < ShareMatrix.w b)%nat →
       Z.abs (shift * entry vm i j - Zsum (map (λ k, entry va i k * entry vb k j) (seq 0 (ShareMatrix.w a))))
       ≤ Z.of_nat (ShareMatrix.w a) * shift)
     ∧ over_the_network w0 (λ id me, l_mat_mul id me (own_matrix me a) (own_matrix me b)) (λ me, own_matrix me m))
  ∧ (ShareMatrix.w a ≠ ShareMatrix.h b → ShareMatrix.mul a b w0 = Throw (RuntimeError "Matrix Mul Error!")).
Proof.
  intros Ha Hb Hh HB Ho Hm. destruct (matrix_mul_error B a b va vb w0 Ha Hb Hh HB Ho Hm) as [H1 H2]. split; [|exact H2].
  intros Hw. destruct (H1 Hw) as (m & w' & vm & He & Hhm & Hwm & Hop & Hent). exists m, w', vm. split_and!; try done.
  destruct (realised_runs w0 matrix_of _ _ m w' (realises_at_mat_mul B a b _ _ va vb w0 Ha Hb (opened_wire B HB Ho)
    (matrix_of_own a (Holds_full _ _ _ Ha)) (matrix_of_own b (Holds_full _ _ _ Hb))) He) as (m' & Hm' & Hn).
  eapply over_the_network_ext; [|exact Hn]. intros me Hme. symmetry. by apply own_matrix_of.
Qed.

(** C29: the inverse of a square share matrix, by blinding, over the network: if the
    inverse in the clear of the opened matrix has entries up to [v_max] and
    multiplies with it to the unit matrix up to [eta], then [inverse] terminates
    and the matrix all parties can open multiplies with the original one to the
    unit matrix, up to [eta] and [k^2] times the largest entries of the two
    matrices: blinding with any random matrix cancels out, and only the rounding
    of the two share products is added.  The programs of the parties, each with
    its own random entries, its part of the two products, of the openings and of
    the sharing of the inverse in the clear, end with their entries of that
    matrix, in every interleaving, and can always end. *)
Theorem matrix_inverse_over_the_network `{DL : DecLaws} {E : Env} {V : ValidEnv E} {TB} {TL : TripleLaws TB E} {EI : EigenInverse}
    {k B v_max} (IS : inverse_sizes (TB := TB) k B v_max) eta a_max a va w0 :
  Holds B a va → ShareMatrix.h a = k → ShareMatrix.w a = k → 0 ≤ a_max →
  (∀ i j, (i < k)%nat → (j < k)%nat → Z.abs (entry va i j) ≤ a_max) →
  (∀ R U w1, MatrixInverse.blind a w0 = Ok (R, U, w1) → inverts k v_max eta U (eigen_inverse U)) →
  ∃ m w' vm, MatrixInverse.inverse a w0 = Ok (m, w') ∧ ShareMatrix.h m = k ∧ ShareMatrix.w m = k
    ∧ ShareMatrix.open_and_recons m w' = Ok (vm, w')
    ∧ (∀ i j, (i < k)%nat → (j < k)%nat →
      Z.abs (product_entry k vm va i j - (if (i =? j)%nat then shift * shift else 0))
      ≤ eta + Z.of_nat k * Z.of_nat k * (v_max + a_max))
    ∧ over_the_network w0 (λ id me, l_inverse id me (own_matrix me a)) (λ me, own_matrix me m).
Proof.
  intros Ha Hh Hw Ha0 Hamax Hinv.
  destruct (blinded_inverse_close IS eta a_max a va w0 Ha Hh Hw Ha0 Hamax Hinv) as (m & w' & vm & Hm & Hhm & Hwm & Ho & He).
  exists m, w', vm. split_and!; try done.
  destruct (realised_runs w0 matrix_of _ _ m w' (realises_at_inverse IS a _ va w0 Ha Hh Hw
    (λ R U w1 H, let '(conj H1 (conj H2 _)) := Hinv R U w1 H in conj H1 H2) (matrix_of_own a (Holds_full _ _ _ Ha))) Hm) as (m' & Hm' & Hn).
  eapply over_the_network_ext; [|exact Hn]. intros me Hme. symmetry. by apply own_matrix_of.
Qed.

(** C30: [open_sigmoid] opens to the sigmoid of its secret, over the network: with
    [e] the units of [std::exp(-x * a)], the opened result [r] is within
    [1 + 999 * n] units of [1 / (1 + e)] (in units: [shift^2 / (shift + e)]), and
    the first attempt is kept.  The programs of the parties open the secret, share
    the exponential and divide; no party sees an infinity in its own value, so
    none starts again alone, and they end with their entries of that result, in
    every interleaving, and can always end. *)
Theorem sigmoid_over_the_network `{DL : DecLaws} {E : Env} {V : ValidEnv E} {TB} {TL : TripleLaws TB E}
    `{CL : CppIntLaws} {CE : CppExp} fuel B x v a e e_max w :
  FShares B x v → B < wire →
  of_double (exp_double (Double.neg (getDoubleVal (mul v a)))) = Ok e → 0 ≤ e ≤ e_max →
  invertible (T := TB) shift (sigmoid_size e_max) → opened TB (quot_size (T := TB) shift (sigmoid_size e_max)) < wire →
  sigmoid_bound (TB := TB) e_max < wire →
  let n := Z.of_nat n_parties in
  ∃ y w' r, MathF.open_sigmoid (S fuel) x a w = Ok (y, w') ∧ (∀ me, @recons_at fp_value E me y = Ok r)
    ∧ Z.abs (r * (shift + e) - shift * shift) ≤ (shift + e) * (1 + 999 * n)
    ∧ over_the_network w (λ id me, l_open_sigmoid id me (S fuel) (own (SVI := fp_value) me x) a)
        (λ me, own (SVI := fp_value) me y).
Proof.
  intros Hx HB He Hee Hinv Ho Hs n.
  destruct (open_sigmoid_close fuel B x v a e e_max w Hx HB He Hee Hinv Ho Hs) as (y & w' & r & Hy & Hr & Hq).
  exists y, w', r. split_and!; [done|done|done|].
  destruct (realised_runs w (part (SVI := fp_value)) _ _ y w' (realises_at_open_sigmoid fuel B x _ v a e e_max w Hx HB He Hee
    Hinv Ho Hs (FShares_part B x v Hx)) Hy) as (y' & (_ & Hy') & Hn).
  eapply over_the_network_ext; [|exact Hn]. intros me Hme. by rewrite Hy'.
Qed.

Lemma matrix_product_over_the_network_witness :
  let a := ShareMatrix.mkMatrix 1 2 [[[shift; 0; 0]; [0; 2 * shift; 0]]] in
  let b := ShareMatrix.mkMatrix 2 1 [[[0; 3 * shift; 0]]; [[0; 0; shift]]] in
  let l id me := l_mat_mul (DF := rat_dec) (E := demo_env) (R := l_matrix) id me
    (own_matrix (DF := rat_dec) me a) (own_matrix (DF := rat_dec) me b) in
  ∃ m w', @ShareMatrix.mul rat_dec demo_env a b world0 = Ok (m, w')
    ∧ ∃ s', rtc (step (EI := demo_env)) (Rounds.start (λ me, l job_address me (pos_at (E := demo_env) world0 0 me) (λ a _, Ret a)) (λ _, ∅)) s'
      ∧ ∀ me, me ∈ @parties demo_env → program (s' me) = Ret (own_matrix (DF := rat_dec) me m).
Proof.
  intros a b l.
  destruct (@matrix_product_over_the_network rat_dec rat_laws demo_env _ 36 _ (3 * shift) a b [[shift; 2 * shift]]
    [[3 * shift]; [shift]] world0) as [H _].
  - demo_holds.
  - demo_holds.
  - discriminate.
  - vm_compute; discriminate.
  - vm_compute; reflexivity.
  - split; vm_compute; (reflexivity || discriminate).
  - destruct H as (m & w' & vm & Hm & _ & _ & _ & _ & Hn); [reflexivity|].
    exists m, w'. split; [exact Hm|exact (over_the_network_ends _ _ _ Hn)].
Defined.

(** The matrix of one entry, the number 2, blinded by 3/2. *)
Lemma matrix_inverse_over_the_network_witness :
  let l id me := l_inverse (DF := rat_dec) (E := half_env) (EI := inverse_of_one) (R := l_matrix) id me
    (own_matrix (DF := rat_dec) me one_entry) in
  ∃ m w' vm, @MatrixInverse.inverse rat_dec half_env inverse_of_one one_entry world0 = Ok (m, w')
    ∧ @ShareMatrix.open_and_recons rat_dec half_env m w' = Ok (vm, w')
    ∧ Z.abs (product_entry 1 vm [[2 * shift]] 0 0 - shift * shift) ≤ one_bound + 1 * 1 * (one_bound + 2 * shift)
    ∧ ∃ s', rtc (step (EI := half_env)) (Rounds.start (λ me, l job_address me (pos_at (E := half_env) world0 0 me) (λ a _, Ret a)) (λ _, ∅)) s'
      ∧ ∀ me, me ∈ @parties half_env → program (s' me) = Ret (own_matrix (DF := rat_dec) me m).
Proof.
  intros l.
  destruct (@matrix_inverse_over_the_network rat_dec rat_laws half_env _ 36 _ inverse_of_one 1 one_bound one_bound
    ltac:(split; [lia|vm_compute; discriminate|vm_compute; reflexivity..]) one_bound
    (2 * shift) one_entry [[2 * shift]] world0) as (m & w' & vm & Hm & _ & _ & Ho & He & Hn).
  - demo_holds.
  - reflexivity.
  - reflexivity.
  - vm_compute; discriminate.
  - intros [|i] [|j] Hi Hj; try lia. vm_compute; discriminate.
  - exact one_entry_blinded.
  - exists m, w', vm. split_and!; [exact Hm|exact Ho|exact (He 0%nat 0%nat ltac:(lia) ltac:(lia))|exact (over_the_network_ends _ _ _ Hn)].
Defined.

(** At 0 the exponential is 1. *)
Lemma sigmoid_over_the_network_witness :
  let x := [5 * shift; - shift; - 4 * shift] in
  let n := Z.of_nat (@n_parties steady_env) in
  let l id me := l_open_sigmoid (DF := rat_dec) (E := steady_env) (CI := nearest) (R := Z) (H := exp_one) id me 1
    (own (SVI := @fp_value rat_dec) me x) shift in
  ∃ y w' r, @MathF.open_sigmoid rat_dec steady_env nearest exp_one 1 x shift world0 = Ok (y, w')
    ∧ (∀ me, @recons_at (@fp_value rat_dec) steady_env me y = Ok r)
    ∧ Z.abs (r * (shift + shift) - shift * shift) ≤ (shift + shift) * (1 + 999 * n)
    ∧ ∃ s', rtc (step (EI := steady_env)) (Rounds.start (λ me, l job_address me (pos_at (E := steady_env) world0 0 me) (λ a _, Ret a)) (λ _, ∅)) s'
      ∧ ∀ me, me ∈ @parties steady_env → program (s' me) = Ret (own (SVI := @fp_value rat_dec) me y).
Proof.
  intros x n l.
  destruct (@sigmoid_over_the_network rat_dec rat_laws steady_env _ 36 _ nearest nearest_laws exp_one 0 (5 * shift) x 0 shift
    shift shift world0) as (y & w' & r & Hy & Hr & Hq & Hn).
  - demo_fshares.
  - vm_compute; reflexivity.
  - vm_compute; reflexivity.
  - split; vm_compute; discriminate.
  - split_and!; vm_compute; reflexivity.
  - vm_compute; reflexivity.
  - vm_compute; reflexivity.
  - exists y, w', r. split_and!; [exact Hy|exact Hr|exact Hq|exact (over_the_network_ends _ _ _ Hn)].
Defined.
