(* ===== verification/RoundsStatistics.v ===== *)
(** * Statistics over the network  (Math/Math.cpp, Job/Jobs/MathJob.hpp, Share/Share.hpp)

    The programs of the product of vectors, of the mean and variance of
    Math/Math.cpp and of [MathJob::compute] at one party, in the form of
    [Rounds.v], on fixed-point shares.  [math_job_over_the_network] says that
    what the parties compute by exchanging messages is the joint run that
    [Deployment.v] puts into [JobBase::run], and so the strings they write
    add up to the statistics of the secrets. *)
From stdpp Require Import base list numbers sets strings gmap relations.
From Stdlib Require Import ZArith Lia.
From S2P Require Import Prelude FixedPoint Random TripleHandler Share SharePF Mailbox Rounds RoundsVector ShareFP RoundsFixed FixedInverse Columns TransactionQueue Jobs Deployment.
Import Address Message Server.

(** ** Programs *)

Module Local.
Section Local.
Context `{DF : DecFloat} `{E : Env} {A : Type}.
#[local] Existing Instance fp_value.

Definition sum (v : list Z) : Z := fold_left FixedPoint.add v 0%Z.

Definition smean (v : list Z) : result Z :=
  let ret := fold_left FixedPoint.add v 0%Z in
  rbind (FixedPoint.of_integral (Z.of_nat (length v))) (λ size, Ok (FixedPoint.div ret size)).

Definition variance (me k : nat) (ids : list AddressId) (v : list Z) (next : Z → prog A) : prog A :=
  match smean v with
  | Throw e => Fail e
  | Ok avg =>
      let var := map (λ a, FixedPoint.sub a avg) v in
      v_mul FixedPoint.getStrVal FixedPoint.of_string me k ids var var (λ varVec,
        let ret := fold_left FixedPoint.add varVec 0%Z in
        match FixedPoint.of_integral (Z.of_nat (length v)) with
        | Throw e => Fail e
        | Ok size => next (FixedPoint.div ret size)
        end)
  end.

(** The function of a [MathJob] and the number of triples it takes for [rows]. *)
Definition statistic (job : JobSelector.Job) :
    option (nat → nat → list AddressId → list Z → (Z → prog A) → prog A) :=
  match job with
  | JobSelector.MeanJob => Some (λ me k ids v next, match smean v with Throw e => Fail e | Ok x => next x end)
  | JobSelector.VarianceJob => Some variance
  | JobSelector.SumJob => Some (λ me k ids v next, next (sum v))
  | _ => None
  end.
Definition triples_of (job : JobSelector.Job) (rows : nat) : nat :=
  match job with JobSelector.VarianceJob => rows | _ => 0 end.

(** [MathJob::compute]: [ids] of one opening per column. *)
Definition col (table : list (list Z)) (w : Z) : result (list Z) := traverse (λ row, vec_at row (w - 1)) table.

Fixpoint each_column (f : nat → nat → list AddressId → list Z → (Z → prog A) → prog A) (used : nat)
    (me k : nat) (idss : list (list AddressId)) (cols : list (list Z)) (next : list Z → prog A) : prog A :=
  match cols with
  | [] => next []
  | c :: cols =>
      f me k (hd [] idss) c (λ y, each_column f used me (k + used) (tl idss) cols (λ ys, next (y :: ys)))
  end.

Definition math_job (f : nat → nat → list AddressId → list Z → (Z → prog A) → prog A) (used me k : nat)
    (idss : list (list AddressId)) (table : list (list Z)) (arg : list (list Z)) (next : list Z → prog A) : prog A :=
  match arg with
  | [] => Fail (Undefined "arg[0]")
  | arg0 :: _ =>
      match table with
      | [] => Fail (Undefined "table[0]")
      | _ => match traverse (col table) arg0 with
             | Throw e => Fail e
             | Ok cols => each_column f used me k idss cols next
             end
      end
  end.
End Local.
End Local.

(** * Lemmas *)

(** ** Fixed-point shares *)

Section FixedFacts.
Context `{DL : DecLaws} `{E : Env} `{V : !ValidEnv E} {TB : Z} `{TL : !TripleLaws TB E}.
#[local] Existing Instance fp_value.

Lemma FShares_full B x v : FShares B x v → full x.
Proof. by intros (? & _). Qed.

Lemma FShares_fulls B xs vs : Forall2 (FShares B) xs vs → Forall full xs.
Proof. intros H. induction H; constructor; [by eapply FShares_full|done]. Qed.

Lemma own_sum me (v : list sharing) acc : me ∈ parties → Forall full v → full acc →
  own me (fold_left s_add v acc) = fold_left FixedPoint.add (map (own me) v) (own me acc) ∧ full (fold_left s_add v acc).
Proof.
  intros Hme Hv. revert acc. induction Hv as [|x v Hx _ IH]; intros acc Hacc; [done|]. cbn [fold_left map].
  destruct (IH (s_add acc x)) as [-> Hf]; [unfold full, s_add in *; rewrite length_zip_with; lia|]. split; [|done].
  unfold s_add. by rewrite own_zip.
Qed.

Lemma full_zero : full s_zero.
Proof. apply length_replicate. Qed.

Lemma own_zero me : me ∈ parties → own me s_zero = 0%Z.
Proof. intros Hme. exact (own_lit me 0%Z Hme). Qed.

Lemma own_smean me v x : me ∈ parties → Forall full v → (Z.of_nat (length v) < 2 ^ 31)%Z →
  Math.smean v = Ok x → Local.smean (map (own me) v) = Ok (own me x).
Proof.
  intros Hme Hv Hl. unfold Math.smean, Local.smean. rewrite length_map, of_integral_length by done. cbn [rbind].
  intros [= <-]. f_equal. destruct (own_sum me v s_zero Hme Hv full_zero) as [He Hf]. unfold Math.s_divc.
  by rewrite own_map, He, own_zero.
Qed.

(** The ids of the rounds a job runs. *)
Definition opened_ids (job : JobSelector.Job) (idss : list (list AddressId)) : list (list AddressId) :=
  match job with JobSelector.VarianceJob => idss | _ => [] end.
Definition ids_for (rows : nat) (ids : list AddressId) : Prop :=
  NoDup ids ∧ Forall (λ a, thread_id a = 0%Z) ids ∧ length ids = rows + rows.

(** The program of the variance runs in lockstep to the joint variance. *)
Lemma lockstep_variance {A} B v vs ids (w : World) :
  Forall2 (FShares B) v vs → v ≠ [] → (0 ≤ B)%Z → (Z.of_nat (length v) < 2 ^ 31)%Z →
  let rows := Z.of_nat (length v) in
  (opened TB (B + (rows * B + 1)) < wire)%Z → (rows * B < wire)%Z → ids_for (length v) ids →
  ∃ y w' tr, Math.variance v w = Ok (y, w') ∧ Share.triples w' = Share.triples w + length v ∧ under tr [ids]
    ∧ ∀ tr' (next : nat → Z → prog A) results, lockstep tr' (λ me, next me (own me y)) results →
        lockstep (tr ++ tr') (λ me, Local.variance me (Share.triples w) ids (map (own me) v) (next me)) results.
Proof.
  intros Hv Hne HB Hl rows Ho Hs (Hnd & Hth & Hli). destruct (smean_fp B v vs Hv Hne HB Hl Hs) as (avg & Havg & Ha & _).
  fold rows in Ha. set (var := map (λ a, s_sub a avg) v).
  assert (Forall2 (FShares (B + (rows * B + 1))) var (map (λ u, u - Zsum avg)%Z vs)) as Hvar.
  { unfold var. revert Ha. generalize (rows * B + 1)%Z. clear -Hv. intros C Ha.
    induction Hv; simpl; constructor; [by apply FShares_sub|done]. }
  assert (length var = length v) as Hlv by apply length_map.
  destruct (v_mul_eq var var _ _ _ w Hvar Hvar eq_refl) as (ts & des & Hm & Hts & Hft & Hde & Hrec & Hfz); [apply opened_wire; [unfold rows; nia|exact Ho]|].
  set (de := _ ++ _) in *. set (zs := zip_with beaver ts _) in *.
  eexists _, _, [open_round FixedPoint.getStrVal ids de]. split_and!.
  - unfold Math.variance, bind, lift. rewrite Havg. cbn [rbind]. fold var. rewrite Hm. cbn [rbind].
    rewrite of_integral_length by done. reflexivity.
  - cbn. by rewrite Hlv.
  - constructor; [|constructor]. intros pt me a q. apply sends_ids. split_and!; [done|done|]. lia.
  - intros tr' next results Hlock. cbn [app].
    eapply lockstep_ext; [|apply (lockstep_v_mul FixedPoint.getStrVal FixedPoint.of_string fp_wire tr' (Share.triples w) ids var var ts des
      (λ me varVec, let ret := fold_left FixedPoint.add varVec 0%Z in
        match FixedPoint.of_integral (Z.of_nat (length v)) with
        | Throw e => Fail e
        | Ok size => next me (FixedPoint.div ret size)
        end) results)]; try done.
    + intros me Hme. unfold Local.variance. rewrite (own_smean me v avg) by (done || by eapply FShares_fulls).
      rewrite length_map. f_equal; unfold var; rewrite !map_map; apply map_ext_in; intros a Hin;
        unfold s_sub; rewrite own_zip; try done; try (by eapply FShares_full);
        apply FShares_fulls in Hv; rewrite Forall_forall in Hv; by apply Hv, list_elem_of_In.
    + by eapply FShares_fulls.
    + by eapply FShares_fulls.
    + split_and!; [done|done|]. fold de. lia.
    + eapply lockstep_ext; [|exact Hlock]. intros me Hme. cbv beta zeta. rewrite of_integral_length by done.
      fold zs. destruct (own_sum me zs s_zero Hme Hfz full_zero) as [He Hf]. unfold Math.s_divc.
      by rewrite own_map, He, own_zero.
Qed.

(** Each statistic a [MathJob] is constructed with. *)
Lemma lockstep_statistic {A} job f g B v vs ids (w : World) :
  Deployment.statistic job = Some f → Local.statistic (A := A) job = Some g →
  Forall2 (FShares B) v vs → v ≠ [] → (0 ≤ B)%Z → (Z.of_nat (length v) < 2 ^ 31)%Z →
  let rows := Z.of_nat (length v) in
  (opened TB (B + (rows * B + 1)) < wire)%Z → (rows * B < wire)%Z → ids_for (length v) ids →
  ∃ y w' tr, f v w = Ok (y, w') ∧ Share.triples w' = Share.triples w + Local.triples_of job (length v)
    ∧ under tr (opened_ids job [ids])
    ∧ ∀ tr' (next : nat → Z → prog A) results, lockstep tr' (λ me, next me (own me y)) results →
        lockstep (tr ++ tr') (λ me, g me (Share.triples w) ids (map (own me) v) (next me)) results.
Proof.
  intros Hf Hg Hv Hne HB Hl rows Ho Hs Hids. pose proof (FShares_fulls _ _ _ Hv) as Hfull.
  destruct job; try discriminate; injection Hf as <-; injection Hg as <-; cbn [Local.triples_of opened_ids].
  - destruct (smean_fp B v vs Hv Hne HB Hl Hs) as (x & Hx & _). exists x, w, []. split_and!.
    + unfold lift. by rewrite Hx.
    + lia.
    + constructor.
    + intros tr' next results Hlock. eapply lockstep_ext; [|exact Hlock]. intros me Hme. cbv beta.
      by rewrite (own_smean me v x).
  - exact (lockstep_variance B v vs ids w Hv Hne HB Hl Ho Hs Hids).
  - exists (Math.sum v), w, []. split_and!; [done|lia|constructor|].
    intros tr' next results Hlock. eapply lockstep_ext; [|exact Hlock]. intros me Hme. cbv beta.
    unfold Math.sum, Local.sum. destruct (own_sum me v s_zero Hme Hfull full_zero) as [-> _]. by rewrite own_zero.
Qed.

(** One column after the other, each with its own triples and ids. *)
Lemma lockstep_columns {A} job f g B rows sel cols idss (w : World) :
  Deployment.statistic job = Some f → Local.statistic (A := A) job = Some g →
  Forall2 (Forall2 (FShares B)) sel cols → Forall (λ c : list sharing, length c = rows) sel →
  rows ≠ 0 → (0 ≤ B)%Z → (Z.of_nat rows < 2 ^ 31)%Z →
  (opened TB (B + (Z.of_nat rows * B + 1)) < wire)%Z → (Z.of_nat rows * B < wire)%Z →
  Forall (ids_for rows) idss → length idss = length sel →
  ∃ ys w' tr, mmap f sel w = Ok (ys, w') ∧ under tr (opened_ids job idss)
    ∧ ∀ tr' (next : nat → list Z → prog A) results, lockstep tr' (λ me, next me (map (own me) ys)) results →
        lockstep (tr ++ tr') (λ me, Local.each_column g (Local.triples_of job rows) me (Share.triples w) idss
          (map (map (own me)) sel) (next me)) results.
Proof.
  intros Hf Hg Hsel Hrows Hr0 HB Hr Ho Hs Hids Hlen. revert w idss Hids Hlen.
  induction Hsel as [|c col sel cols Hc _ IH]; intros w idss Hids Hlen.
  - destruct idss; [|done]. exists [], w, []. split_and!; [done|unfold opened_ids; destruct job; constructor|].
    intros tr' next results Hlock. exact Hlock.
  - apply Forall_cons in Hrows as [Hlc Hrows]. destruct Hids as [|ids idss Hid Hids]; [done|].
    destruct (lockstep_statistic job f g B c col ids w Hf Hg Hc) as (y & w1 & tr1 & Hy & Hw1 & Hu1 & Hl1);
      rewrite ?Hlc; try done; [by destruct c|].
    destruct (IH Hrows w1 idss Hids) as (ys & w2 & tr2 & Hys & Hu2 & Hl2); [by injection Hlen|].
    exists (y :: ys), w2, (tr1 ++ tr2). split_and!.
    + cbn [mmap]. unfold bind. rewrite Hy. cbn [rbind]. by rewrite Hys.
    + replace (opened_ids job (ids :: idss)) with (opened_ids job [ids] ++ opened_ids job idss) by by destruct job.
      by apply Forall2_app.
    + intros tr' next results Hlock. rewrite <- app_assoc. cbn [map Local.each_column hd tl].
      apply (Hl1 (tr2 ++ tr') (λ me y, Local.each_column g (Local.triples_of job rows) me
        (Share.triples w + Local.triples_of job rows) idss (map (map (own me)) sel) (λ ys, next me (y :: ys)))).
      rewrite Hlc in Hw1. rewrite <- Hw1. by apply (Hl2 tr' (λ me ys, next me (own me y :: ys))).
Qed.

(** The table of party [p] is its part of the assembled one. *)
Lemma own_table h width (T : nat → list (list Z)) p :
  (∀ q, q ∈ parties → JoinJobFacts.shape h width (T q)) → p ∈ parties →
  map (map (own p)) (Deployment.assemble (map T parties)) = T p.
Proof.
  intros HT Hp. rewrite (JoinJobFacts.assemble_shape h width).
  - rewrite map_map. transitivity (map (λ i, nth i (T p) []) (seq 0 h)).
    + apply map_ext_in. intros i [_ Hi]%in_seq. rewrite map_map.
      rewrite <- (map_id (nth i (T p) [])) at 1. rewrite <- (JoinJobFacts.map_over_nth 0%Z (λ x, x)).
      rewrite (JoinJobFacts.shape_row h width (T p) i (HT p Hp)) by lia.
      apply map_ext. intros j. apply own_eq. rewrite map_map. change map with (@fmap list _).
      rewrite list_lookup_fmap. apply elem_of_seq in Hp. unfold parties. rewrite lookup_seq_lt by lia. cbn.
      by replace (S (p - 1)) with p by lia.
    + destruct (HT p Hp) as [<- _]. rewrite (JoinJobFacts.map_over_nth [] (λ r, r)). apply map_id.
  - unfold parties. pose proof sp_valid. by destruct n_parties; [lia|].
  - apply Forall_map, Forall_forall. exact HT.
Qed.

Lemma map_own_rel p (l : list sharing) k : Forall2 (λ x a, a = own p x) l k → k = map (own p) l.
Proof. intros H. induction H as [|x a l k -> _ IH]; [done|]. cbn. by f_equal. Qed.

(** The columns a party picks from its table. *)
Lemma own_columns p table src sel :
  traverse (MathJob.col table) src = Ok sel →
  traverse (Local.col (map (map (own p)) table)) src = Ok (map (map (own p)) sel).
Proof.
  intros Hsel. set (R := λ (l : list sharing) k, Forall2 (λ x a, a = own p x) l k).
  assert (∀ l, R l (map (own p) l)) as HR.
  { intros l. induction l; simpl; constructor; done. }
  assert (ok_rel (Forall2 R) (traverse (MathJob.col table) src) (traverse (Local.col (map (map (own p)) table)) src)) as Hrel.
  { apply traverse_rel_same. intros c. unfold MathJob.col, Local.col. apply (traverse_rel _ R).
    - clear -HR. induction table; simpl; constructor; [apply HR|done].
    - intros row k Hrow. by apply vec_at_rel. }
  rewrite Hsel in Hrel. apply ok_rel_Ok_l in Hrel as (k & -> & Hk). f_equal. clear -Hk.
  induction Hk as [|l k ls ks Hl _ IH]; [done|]. cbn. f_equal; [by apply map_own_rel|done].
Qed.
End FixedFacts.

(** * Theorems *)

Section Theorems.
Context `{DL : DecLaws} `{E : Env} `{V : !ValidEnv E} {TB : Z} `{TL : !TripleLaws TB E}.
#[local] Existing Instance fp_value.

(** C3: a statistics job over the network.  Every party runs [MathJob::compute] on
    its own table of local values, opening what the products of the variance need
    under ids of its own.  In every interleaving of the parties' messages, failed
    and repeated sends included, each party that ends has the local result that
    the joint computation gives it in [JobBase::run], all parties can always end,
    and the strings of these results add up to the mean, variance or sum of every
    chosen column of the secrets, within the stated error. *)
Theorem math_job_over_the_network B height width (T : nat → list (list Z)) schemas secrets job f g src target cols idss boxes w raise_of :
  Deployment.statistic job = Some f → Local.statistic job = Some g →
  (∀ p, p ∈ parties → JoinJobFacts.shape height width (T p)) →
  let table := Deployment.assemble (map T parties) in
  let rows := Z.of_nat (length table) in
  Forall2 (Forall2 (FShares B)) table secrets → table ≠ [] → (0 ≤ B)%Z → (rows < 2 ^ 31)%Z →
  (opened TB (B + (rows * B + 1)) < wire)%Z → (DeploymentFacts.result_size (TB := TB) rows B < wire)%Z →
  traverse (λ c, traverse (λ row, vec_at row (c - 1)) secrets) src = Ok cols →
  Forall (ids_for (length table)) idss → length idss = length src → NoDup (concat idss) → fresh (concat idss) boxes →
  let ps me := Local.math_job g (Local.triples_of job (length table)) me (Share.triples w) idss (T me) [src; target] Ret in
  ∃ (parts : nat → list Z) values,
    (∀ s, rtc step (start ps boxes) s →
       (∀ p a, p ∈ parties → program (s p) = Ret a → a = parts p)
       ∧ ∃ s', rtc step s s' ∧ ∀ p, p ∈ parties → program (s' p) = Ret (parts p))
    ∧ (∀ p, p ∈ parties →
         Deployment.compute_at raise_of (Deployment.math_job f) w T p (T p) schemas [src; target] = inr (parts p))
    ∧ Deployment.recover (map (λ p, JobStrings.toString (parts p)) parties) = Ok values
    ∧ Forall2 (DeploymentFacts.approximates job) cols values.
Proof.
  intros Hf Hg HT table rows Ht Hne HB Hr Ho Hs Hcols Hids Hlen Hnd Hfresh ps.
  destruct (DeploymentFacts.columns_selected B table secrets src cols Ht Hcols) as (sel & Hsel & Hselc & Hrows).
  assert (length sel = length src) as Hls by by eapply traverse_length.
  destruct (lockstep_columns (A := list Z) job f g B (length table) sel cols idss w Hf Hg Hselc Hrows)
    as (ys & w' & tr & Hys & Hu & Hl); try done; [by destruct table|exact (DeploymentFacts.rows_wire _ _ Hs HB ltac:(lia))|lia|].
  assert (Deployment.math_job f table schemas [src; target] w = Ok (ys, w')) as Hrun.
  { unfold Deployment.math_job, MathJob.compute. destruct table as [|r0 tb]; [done|]. unfold bind, lift.
    rewrite Hsel. exact Hys. }
  destruct (DeploymentFacts.statistics_run (TB := TB) job f B table secrets schemas src target cols w Hf Ht Hne HB Hr Ho Hs Hcols)
    as (ys' & w1 & Hrun' & Hsh & Hap). rewrite Hrun in Hrun'. injection Hrun' as <- <-.
  exists (λ p, map (own p) ys), (map Zsum ys). split_and!.
  - apply (run_under tr (opened_ids job idss)); [|done| |].
    + specialize (Hl [] (λ _, Ret) (λ p, map (own p) ys)). rewrite app_nil_r in Hl.
      eapply lockstep_ext; [|apply Hl; done]. intros p Hp. unfold ps, Local.math_job.
      rewrite <- (own_table height width T p HT Hp). fold table.
      rewrite (own_columns p table src sel Hsel). by destruct table.
    + destruct job; try constructor; exact Hnd.
    + destruct job; try (intros me pt a Ha; by apply not_elem_of_nil in Ha); exact Hfresh.
  - intros p Hp. unfold Deployment.compute_at.
    assert (map (λ q, if (q =? p)%nat then T p else T q) parties = map T parties) as ->.
    { apply map_ext. intros q. by destruct (Nat.eqb_spec q p) as [->|]. }
    fold table. by rewrite Hrun.
  - by apply (DeploymentFacts.recover_result _ ys (map Zsum ys) Hsh Hs DeploymentFacts.parties_pos).
  - exact Hap.
Qed.
End Theorems.

Lemma math_job_over_the_network_witness :
  let ids := [mkAddress 41 1 0; mkAddress 42 1 0; mkAddress 43 1 0; mkAddress 44 1 0] in
  let ps me := @Local.math_job (list Z) (@Local.variance rat_dec demo_env (list Z)) 2 me 0 [ids]
                 (demo_tables me) [[2]; []]%Z Ret in
  ∃ (parts : nat → list Z) values,
    (∃ s', rtc (step (EI := demo_env)) (start ps (λ _, ∅)) s'
       ∧ ∀ p, p ∈ @parties demo_env → program (s' p) = Ret (parts p))
    ∧ @Deployment.recover rat_dec (map (λ p, @JobStrings.toString rat_dec (parts p)) (@parties demo_env)) = Ok values
    ∧ Forall2 (@DeploymentFacts.approximates demo_env JobSelector.VarianceJob)
        [[2 * FixedPoint.shift; 5 * FixedPoint.shift]]%Z values.
Proof.
  destruct (@math_job_over_the_network rat_dec rat_laws demo_env _ 36 _ (4 * FixedPoint.shift) 2 2 demo_tables
    ["id"; "x"]%string demo_secrets JobSelector.VarianceJob _ _ [2]%Z [] [[2 * FixedPoint.shift; 5 * FixedPoint.shift]]%Z
    [[mkAddress 41 1 0; mkAddress 42 1 0; mkAddress 43 1 0; mkAddress 44 1 0]] (λ _, ∅) world0 throw_with_trace
    eq_refl eq_refl) as (parts & values & Hs & _ & Hrec & Hap); [..|].
  - intros p Hp. apply elem_of_seq in Hp. cbn in Hp.
    assert (p = 1 ∨ p = 2 ∨ p = 3) as [->|[->| ->]] by lia; by repeat constructor.
  - demo_table.
  - discriminate.
  - vm_compute; discriminate.
  - reflexivity.
  - vm_compute; reflexivity.
  - vm_compute; reflexivity.
  - reflexivity.
  - constructor; [|constructor]. split_and!; [by apply (bool_decide_unpack _)|by repeat constructor|reflexivity].
  - reflexivity.
  - by apply (bool_decide_unpack _).
  - intros me pt a _. apply lookup_empty.
  - exists parts, values. split_and!; [exact (proj2 (Hs _ (rtc_refl _ _)))|exact Hrec|exact Hap].
Defined.
