(* ===== verification/Computation.v ===== *)
(** * The one-shot computation  (Computation/Computation.cpp)

    [compute] takes the data of a request as JSON texts, parses them to one
    vector of shares and pushes the mean or the variance.  No handler calls it
    any more; it stays linked into the program.  [compute] below is what all
    parties do together, each on its own texts; [one_shot_statistics] says what
    the strings they push add up to, and what the flag [is_computing] is after
    every way out. *)
From stdpp Require Import base list numbers strings.
From Stdlib Require Import ZArith Lia.
From S2P Require Import Prelude FixedPoint Random TripleHandler Share SharePF ShareFP Double FixedCompare FixedInverse TransactionQueue Jobs Deployment.
#[local] Open Scope Z_scope.
#[local] Open Scope qmpc_scope.

Module Computation.
Section Computation.
Context `{DF : DecFloat} `{DT : DoubleText} `{E : Env}.
#[local] Existing Instance fp_value.
(** The strings of [json[data_id][0]], for [json] the parsed text; the JSON
    library throws on a text that is none. *)
Context (column_of : string → string → result (list string)).

(** [FixedPoint(std::stod(s))] *)
Definition to_fixed (s : string) : result Z := let! d := stod s in FixedDouble.of_double d.

Fixpoint parse_loop (values data_ids : list string) (shares : list Z) : result (list Z) :=
  match data_ids with
  | [] => Ok shares
  | data_id :: data_ids =>
      match values with
      | [] => Throw (Undefined "values[i]")
      | value :: values =>
          let! strs := column_of value data_id in
          let! new := traverse to_fixed strs in
          parse_loop values data_ids (shares ++ new)
      end
  end.
(** [parseData], at one party. *)
Definition parseData (values data_ids : list string) : result (list Z) := parse_loop values data_ids [].

(** The sharings that the parties' vectors make up. *)
Definition sharings (locals : list (list Z)) : list sharing :=
  match locals with
  | [] => []
  | l0 :: _ => map (λ j, map (λ l, nth j l 0) locals) (seq 0 (length l0))
  end.

(** What [compute] leaves: its return value or exception, [is_computing], and
    the results at every party. *)
Record Outcome := mkOutcome {
  returned : result bool;
  is_computing : bool;
  results : nat → list string
}.

Definition statistic_of (methodId : Z) : option (list sharing → M sharing) :=
  if methodId =? 1 then Some (λ v, lift (Math.smean v))
  else if methodId =? 2 then Some Math.variance
  else None.

Definition compute (values : nat → list string) (data_ids : list string) (methodId : Z)
    (results : nat → list string) (w : World) : Outcome :=
  match traverse (λ p, parseData (values p) data_ids) parties with
  | Throw e => mkOutcome (Throw e) true results
  | Ok locals =>
      match statistic_of methodId with
      | None => mkOutcome (Ok false) true results
      | Some f =>
          match f (sharings locals) w with
          | Throw e => mkOutcome (Throw e) true results
          | Ok (y, _) => mkOutcome (Ok true) false
              (λ p, results p ++ [FixedPoint.getStrVal (nth (p - 1) y sv_zero)])
          end
      end
  end.
End Computation.
End Computation.

(** * Lemmas *)

Module ComputationFacts.
Import Computation.
Section Facts.
Context `{DL : DecLaws} `{DT : DoubleText} `{E : Env} `{V : !ValidEnv E}.
#[local] Existing Instance fp_value.
Context (column_of : string → string → result (list string)).

(** The parsed numbers, data after data. *)
Lemma parse_loop_app values data_ids (cols : list (list string)) (new : list (list Z)) shares :
  Forall2 (λ '(v, d) c, column_of v d = Ok c) (zip values data_ids) cols → length values = length data_ids →
  Forall2 (λ c l, traverse to_fixed c = Ok l) cols new →
  parse_loop column_of values data_ids shares = Ok (shares ++ concat new).
Proof.
  revert values cols new shares. induction data_ids as [|d data_ids IH]; intros [|v values] cols new shares Hc Hl Hn; try done.
  - inversion Hc; subst. inversion Hn; subst. cbn. by rewrite app_nil_r.
  - apply Forall2_cons_inv_l in Hc as (c & cols' & Hvd & Hc & ->).
    apply Forall2_cons_inv_l in Hn as (l & new' & Hcl & Hn & ->). cbn [parse_loop concat].
    rewrite Hvd. cbn [rbind]. rewrite Hcl. cbn [rbind]. rewrite (IH values cols' new') by (done || by injection Hl).
    by rewrite app_assoc.
Qed.

(** The flag is only taken down where [compute] returns true. *)
Lemma flag_left values data_ids methodId res w :
  let o := compute column_of values data_ids methodId res w in
  is_computing o = bool_decide (returned o ≠ Ok true) ∧ (returned o ≠ Ok true → results o = res).
Proof.
  unfold compute. destruct (traverse _ _) as [locals|e]; [|by split; [rewrite bool_decide_true|]].
  destruct (statistic_of methodId) as [f|]; [|by split; [rewrite bool_decide_true|]].
  destruct (f (sharings locals) w) as [[y w']|e]; [|by split; [rewrite bool_decide_true|]].
  cbn. split; [by rewrite bool_decide_false by auto|done].
Qed.
End Facts.
End ComputationFacts.

(** * Theorems *)

Section Theorems.
Context `{DL : DecLaws} `{DT : DoubleText} `{E : Env} `{V : !ValidEnv E}.
#[local] Existing Instance fp_value.
Context (column_of : string → string → result (list string)).
Import Computation FixedPoint.

(** The one-shot mean and variance.  When every party's texts parse to vectors
    that together share [vs], [compute] returns true for the methods 1 and 2,
    takes the flag down and appends one string at every party; the strings add up
    to the mean or variance of [vs] within the bounds of the job that computes
    the same statistic.  Any other method returns false, leaves the results as
    they are, and leaves [is_computing] set. *)
Theorem one_shot_statistics {TB} {TL : TripleLaws TB E} B values data_ids locals vs methodId res w :
  traverse (λ p, parseData column_of (values p) data_ids) parties = Ok locals →
  let v := sharings locals in
  let rows := Z.of_nat (length v) in
  Forall2 (FShares B) v vs → v ≠ [] → 0 ≤ B → rows < 2 ^ 31 →
  opened TB (B + (rows * B + 1)) < wire → DeploymentFacts.result_size (TB := TB) rows B < wire →
  let o := compute column_of values data_ids methodId res w in
  if (methodId =? 1) || (methodId =? 2) then
    returned o = Ok true ∧ is_computing o = false
    ∧ ∃ job pushed r, JobSelector.select methodId = Some job ∧ (∀ p, p ∈ parties → results o p = res p ++ [pushed p])
        ∧ Deployment.recover (map (λ p, [pushed p]) parties) = Ok [r] ∧ DeploymentFacts.approximates job vs r
  else returned o = Ok false ∧ is_computing o = true ∧ results o = res.
Proof.
  intros Hp v rows Hv Hne HB Hr Ho Hs o. unfold o, compute. rewrite Hp. unfold statistic_of.
  assert (∀ job f, Deployment.statistic job = Some f → ∃ y w', f v w = Ok (y, w')
    ∧ FShares (DeploymentFacts.result_size (TB := TB) rows B) y (Zsum y) ∧ DeploymentFacts.approximates job vs (Zsum y)) as Hrun.
  { intros job f Hf. destruct (DeploymentFacts.statistic_runs (TB := TB) job f B v vs w Hf Hv Hne HB Hr Ho Hs) as (y & w' & Hy & HyB & Ha).
    by exists y, w'. }
  destruct (Z.eqb_spec methodId 1) as [->|H1]; [|destruct (Z.eqb_spec methodId 2) as [->|H2]; [|done]];
    [destruct (Hrun JobSelector.MeanJob _ eq_refl) as (y & w' & Hy & HyB & Ha)
    |destruct (Hrun JobSelector.VarianceJob _ eq_refl) as (y & w' & Hy & HyB & Ha)]; cbn [orb];
    fold v; rewrite Hy; (split; [done|split; [done|]]);
    eexists _, (λ p, getStrVal (nth (p - 1) y sv_zero)), (Zsum y); (split; [reflexivity|split; [done|split; [|done]]]);
    apply (DeploymentFacts.recover_result _ [y] [Zsum y]
      ltac:(by constructor; [exact HyB|constructor]) Hs DeploymentFacts.parties_pos).
Qed.
End Theorems.

(** A reader of small numbers. *)
Definition small_text : DoubleText := {|
  stod s := if String.eqb s "1" then Ok (Double.of_Z 1) else if String.eqb s "2" then Ok (Double.of_Z 2)
            else Throw (Undefined "stod");
  to_string_double _ := ""%string
|}.

Lemma one_shot_statistics_witness :
  let o := @Computation.compute rat_dec small_text demo_env (λ v d, Ok [v; "1"%string])
             (λ p, if (p =? 2)%nat then ["2"%string] else ["1"%string]) ["x"%string] 1 (λ _, []) world0 in
  Computation.returned o = Ok true ∧ Computation.is_computing o = false
  ∧ ∃ job pushed r, JobSelector.select 1 = Some job
      ∧ (∀ p, p ∈ @parties demo_env → Computation.results o p = [] ++ [pushed p])
      ∧ @Deployment.recover rat_dec (map (λ p, [pushed p]) (@parties demo_env)) = Ok [r]
      ∧ @DeploymentFacts.approximates demo_env job [4 * FixedPoint.shift; 3 * FixedPoint.shift] r.
Proof.
  refine (@one_shot_statistics rat_dec rat_laws small_text demo_env _ (λ v d, Ok [v; "1"%string]) 36 _ (4 * FixedPoint.shift)
    (λ p, if (p =? 2)%nat then ["2"%string] else ["1"%string]) ["x"%string]
    [[FixedPoint.shift; FixedPoint.shift]; [2 * FixedPoint.shift; FixedPoint.shift]; [FixedPoint.shift; FixedPoint.shift]]
    [4 * FixedPoint.shift; 3 * FixedPoint.shift] 1 (λ _, []) world0 _ _ _ _ _ _ _).
  - vm_compute. reflexivity.
  - cbn. constructor; [|constructor; [|constructor]]; (split_and!; [done| |reflexivity]);
      repeat constructor; vm_compute; discriminate.
  - discriminate.
  - vm_compute; discriminate.
  - reflexivity.
  - reflexivity.
  - reflexivity.
Defined.
