(* ===== verification/Config.v ===== *)
(** * Configuration  (ConfigParse/ConfigParse.hpp)

    [Url.Parse] and the [Config] object, which reads its fields from the
    environment, or under test from a file of [KEY=VALUE] lines.  The parser's
    iterators are the suffixes of the text they point at; moving one past the
    end is undefined behaviour. *)
From stdpp Require Import base list numbers gmap strings.
From Stdlib Require Import ZArith Lia Ascii.
From S2P Require Import Prelude.
#[local] Open Scope string_scope.
#[local] Open Scope qmpc_scope.

(** [std::find]: what comes before the first [c], and from [c] on. *)
Fixpoint split_at (c : ascii) (s : string) : string * string :=
  match s with
  | EmptyString => (EmptyString, EmptyString)
  | String a s' =>
      if Ascii.eqb a c then (EmptyString, s)
      else let '(l, r) := split_at c s' in (String a l, r)
  end.

(** [it += n]. *)
Fixpoint advance (n : nat) (s : string) : result string :=
  match n, s with
  | O, _ => Ok s
  | S n, String _ s => advance n s
  | S _, EmptyString => Throw (Undefined "iterator past the end")
  end.

Definition colon : ascii := ascii_of_nat 58.
Definition slash : ascii := ascii_of_nat 47.
Definition equals : ascii := ascii_of_nat 61.

Module Url.

Record Url := mkUrl { url : string; path : string; protocol : string; host : string; port : string }.

Definition Parse (url : string) : result Url :=
  match url with
  | EmptyString => Throw (RuntimeError "ParseError: empty url")
  | _ =>
      let '(protocol, protocol_end) := split_at colon url in
      match protocol_end with
      | EmptyString => Throw (RuntimeError "not a valid url")
      | _ =>
          if negb (String.eqb protocol "http") && negb (String.eqb protocol "https")
          then Throw (RuntimeError "ParseError: protocol is not http or https")
          else
            let! host_start := advance 3 protocol_end in
            let '(host_port, path) := split_at slash host_start in
            let '(host, host_end) := split_at colon host_port in
            let port := match host_end with EmptyString => EmptyString | String _ p => p end in
            Ok (mkUrl url path protocol host port)
      end
  end.

Definition getAddress (u : Url) : string := host u ++ String colon (port u).
End Url.

Module Config.
Import Url.

(** [strtol] as [atoi] and [stoi] use it: blanks, a sign, digits. *)
Definition is_space (c : ascii) : bool :=
  let n := nat_of_ascii c in (n =? 32)%nat || ((9 <=? n)%nat && (n <=? 13)%nat).
Definition digit (c : ascii) : option Z :=
  let n := nat_of_ascii c in
  if ((48 <=? n)%nat && (n <=? 57)%nat) then Some (Z.of_nat n - 48)%Z else None.
Fixpoint skip_space (s : string) : string :=
  match s with String a s' => if is_space a then skip_space s' else s | EmptyString => s end.
Fixpoint digits (s : string) (acc : option Z) : option Z :=
  match s with
  | EmptyString => acc
  | String a s => match digit a with
                  | Some d => digits s (Some (default 0 acc * 10 + d))%Z
                  | None => acc
                  end
  end.
Definition strtol (s : string) : option Z :=
  match skip_space s with
  | String a s' =>
      if (nat_of_ascii a =? 45)%nat then Z.opp <$> digits s' None
      else if (nat_of_ascii a =? 43)%nat then digits s' None
      else digits (String a s') None
  | EmptyString => None
  end.
Definition in_int (z : Z) : bool := ((- 2 ^ 31 <=? z) && (z <? 2 ^ 31))%Z.
Definition stoi (s : string) : result Z :=
  match strtol s with
  | Some z => if in_int z then Ok z else Throw (OutOfRange "stoi")
  | None => Throw (InvalidArgument "stoi")
  end.
Definition atoi (s : string) : result Z :=
  let z := default 0%Z (strtol s) in
  if in_int z then Ok z else Throw (Undefined "atoi").

Section Env.
(** The process environment, and the lines of the file read under test. *)
Context (getenv : string → option string) (env_file : list string).

Definition env_map := (gmap string string).

(** One line: the key up to the first [=], the value up to the next. *)
Definition env_line (line : string) : string * string :=
  let '(key, rest) := split_at equals line in
  match rest with
  | EmptyString => (key, EmptyString)
  | String _ rest => (key, fst (split_at equals rest))
  end.
Definition load : env_map :=
  fold_left (λ m line, let '(k, v) := env_line line in <[k:=v]> m) env_file ∅.

Definition not_defined {A} (s : string) : result A := Throw (RuntimeError (s ++ " is not defined")).
Definition is_test : bool := match getenv "IS_TEST" with Some _ => true | None => false end.

(** Only [getEnvInt] loads the file. *)
Definition getEnvInt (s : string) (m : env_map) : result (Z * env_map) :=
  if is_test then
    let m := if decide (m = ∅) then load else m in
    match m !! s with
    | Some v => let! z := stoi v in Ok (z, m)
    | None => not_defined s
    end
  else match getenv s with
       | Some tmp => let! z := atoi tmp in Ok (z, m)
       | None => not_defined s
       end.

Definition getEnvString (s : string) (m : env_map) : result string :=
  match (if is_test then m !! s else getenv s) with
  | Some v => Ok v
  | None => not_defined s
  end.

Definition getEnvUrl (s : string) (m : env_map) : result Url :=
  match (if is_test then m !! s else getenv s) with
  | Some v => Parse v
  | None => not_defined s
  end.

Record Config := mkConfig {
  party_id : Z; n_parties : Z; sp_id : Z;
  mc_to_cc : Url; any_to_dbg : Url; cc_to_bts : Url;
  ip_addr_map : list (Z * Url); ip_addr_for_job_map : list (Z * Url)
}.

Definition for_job (port_for_job : string) (u : Url) : Url :=
  mkUrl (url u) (path u) (protocol u) (host u) port_for_job.

(** The constructor. *)
Definition make : result Config :=
  let! '(party_id, m) := getEnvInt "PARTY_ID" ∅ in
  let! '(n_parties, m) := getEnvInt "N_PARTIES" m in
  let! '(sp_id, m) := getEnvInt "SP_ID" m in
  let! mc_to_cc := getEnvUrl "MC_TO_CC" m in
  let! any_to_dbg := getEnvUrl "ANY_TO_DBG" m in
  let! cc_to_bts := getEnvUrl "CC_TO_BTS" m in
  let! port_for_job := getEnvString "PORT_FOR_JOB" m in
  let! u1 := getEnvUrl "PARTY_LIST1" m in
  let! u2 := getEnvUrl "PARTY_LIST2" m in
  let! u3 := getEnvUrl "PARTY_LIST3" m in
  let map_ := [(1%Z, u1); (2%Z, u2); (3%Z, u3)] in
  Ok (mkConfig party_id n_parties sp_id mc_to_cc any_to_dbg cc_to_bts map_
        (map (λ '(i, u), (i, for_job port_for_job u)) map_)).
End Env.
End Config.

(** * Lemmas *)

#[local] Arguments Ascii.eqb : simpl never.
#[local] Arguments String.append : simpl nomatch.

(** Text without a character. *)
Fixpoint free_of (c : ascii) (s : string) : bool :=
  match s with EmptyString => true | String a s => negb (Ascii.eqb a c) && free_of c s end.

Lemma split_at_app c l r :
  free_of c l = true → split_at c (l ++ String c r) = (l, String c r).
Proof.
  induction l as [|a l IH]; cbn.
  - by rewrite Ascii.eqb_refl.
  - intros [Ha Hl]%andb_true_iff. apply negb_true_iff in Ha. by rewrite Ha, IH.
Qed.

Lemma split_at_free c l : free_of c l = true → split_at c l = (l, EmptyString).
Proof.
  induction l as [|a l IH]; cbn; [done|].
  intros [Ha Hl]%andb_true_iff. apply negb_true_iff in Ha. by rewrite Ha, IH.
Qed.

Lemma split_at_parts c s l r : split_at c s = (l, r) → s = l ++ r ∧ free_of c l = true.
Proof.
  revert l r; induction s as [|a s IH]; intros l r; cbn.
  - by intros [= <- <-].
  - destruct (Ascii.eqb a c) eqn:E; [by intros [= <- <-]|].
    destruct (split_at c s) as [l' r'] eqn:Es. intros [= <- <-].
    destruct (IH l' r' eq_refl) as [H1 H2]. cbn. rewrite E, H2. by rewrite <- H1.
Qed.

Lemma free_of_app c l r : free_of c (l ++ r) = free_of c l && free_of c r.
Proof. induction l as [|a l IH]; [done|]. cbn. by rewrite IH, andb_assoc. Qed.

Lemma append_assoc (a b c : string) : (a ++ b) ++ c = a ++ (b ++ c).
Proof. induction a as [|x a IH]; [done|]. cbn. by rewrite IH. Qed.

(** A path: empty, or a slash and anything. *)
Definition is_path (p : string) : bool :=
  match p with EmptyString => true | String a _ => Ascii.eqb a slash end.

Lemma split_path hp p :
  free_of slash hp = true → is_path p = true → split_at slash (hp ++ p) = (hp, p).
Proof.
  intros Hh. destruct p as [|a p]; cbn; intros Hp.
  - assert (hp ++ EmptyString = hp) as -> by (clear; induction hp; [done|]; cbn; by rewrite IHhp).
    by apply split_at_free.
  - apply Ascii.eqb_eq in Hp as ->. by apply split_at_app.
Qed.

(** * Properties *)

Import Url.

(** [Url::Parse] takes a well-formed http(s) url apart: protocol, host,
    port (possibly none) and path come back as they were written, so the
    address the clients connect to is [host:port]; an empty text, a text without
    a colon and another protocol are errors; a protocol followed by fewer than
    two more characters makes the iterator leave the text. *)
Theorem url_parse_components pr h p path_ s :
  pr = "http" ∨ pr = "https" →
  free_of colon h = true → free_of slash h = true → free_of slash p = true → is_path path_ = true →
  (let u := pr ++ "://" ++ h ++ String colon (p ++ path_) in
   Parse u = Ok (mkUrl u path_ pr h p))
  ∧ (let u := pr ++ "://" ++ h ++ path_ in Parse u = Ok (mkUrl u path_ pr h EmptyString))
  ∧ Parse EmptyString = Throw (RuntimeError "ParseError: empty url")
  ∧ (s ≠ EmptyString → free_of colon s = true → Parse s = Throw (RuntimeError "not a valid url"))
  ∧ (free_of colon s = true → s ≠ "http" → s ≠ "https" →
     Parse (s ++ String colon h) = Throw (RuntimeError "ParseError: protocol is not http or https"))
  ∧ ((String.length s < 2)%nat → Parse (pr ++ String colon s) = Throw (Undefined "iterator past the end")).
Proof.
  intros Hpr Hhc Hhs Hps Hpath.
  assert (free_of colon pr = true) as Hprc by (by destruct Hpr; subst).
  assert (negb (String.eqb pr "http") && negb (String.eqb pr "https") = false) as Hok
    by (by destruct Hpr; subst).
  assert (∀ r, pr ++ r ≠ EmptyString) as Hne by (intros r; by destruct Hpr; subst).
  assert (∀ r, Parse (pr ++ String colon r)
    = rbind (advance 2 r) (λ host_start,
        let '(host_port, path) := split_at slash host_start in
        let '(host, host_end) := split_at colon host_port in
        let port := match host_end with EmptyString => EmptyString | String _ p => p end in
        Ok (mkUrl (pr ++ String colon r) path pr host port))) as HP.
  { intros r. unfold Parse. rewrite split_at_app by done. rewrite Hok.
    pose proof (Hne (String colon r)). by destruct (pr ++ String colon r). }
  split_and!.
  - intros u. unfold u. change ("://" ++ h ++ String colon (p ++ path_))
      with (String colon (String slash (String slash (h ++ String colon (p ++ path_))))).
    rewrite HP. cbn [advance rbind].
    replace (h ++ String colon (p ++ path_)) with ((h ++ String colon p) ++ path_)
      by (by rewrite append_assoc).
    rewrite split_path by (done || (rewrite free_of_app; cbn; by rewrite Hhs, Hps)).
    by rewrite split_at_app, append_assoc.
  - intros u. unfold u. change ("://" ++ h ++ path_)
      with (String colon (String slash (String slash (h ++ path_)))).
    rewrite HP. cbn [advance rbind]. by rewrite split_path, split_at_free.
  - reflexivity.
  - intros Hs Hc. unfold Parse. rewrite split_at_free by done. by destruct s.
  - intros Hc H1 H2. unfold Parse. rewrite split_at_app by done.
    rewrite (proj2 (String.eqb_neq s "http")), (proj2 (String.eqb_neq s "https")) by done.
    by destruct s.
  - intros Hl. rewrite HP. destruct s as [|a [|b s]]; [done|done|cbn in Hl; lia].
Qed.

Lemma url_parse_components_witness :
  Parse "https://cc.example:443/x:y/z" = Ok (mkUrl "https://cc.example:443/x:y/z" "/x:y/z" "https" "cc.example" "443").
Proof.
  refine (proj1 (url_parse_components "https" "cc.example" "443" "/x:y/z" "" _ _ _ _ _));
    (right; reflexivity) || reflexivity.
Defined.
